(* ===== verification/_CoqProject ===== *)
-Q . S2P
Prelude.v
Mem.v
Stack.v
LibString.v
Pmm.v
Blocks.v
Buddy.v
BlockAlloc.v
Slab.v
Heap.v
Sched.v
Switch.v
Paging.v
Io.v
Serial.v
Pic.v
Arch.v
Format.v
Isr.v
Vmm.v
Console.v
Drivers.v
Kernel.v
Boot.v
Stubs.v
System.v
World.v
Types.v
