(* ===== verification/Prelude.v ===== *)
(** * ScrapOS: a verification of the kernel

    ScrapOS is an x86_64 kernel: Limine loads it, [kmain] (kernel/kernel.c) brings the
    machine up and idles, waking on the timer and the keyboard.  This library is a
    model of all its C and assembly code in Rocq, written after the source function
    by function, and what the parts promise, as theorems.  This first file holds what
    all the others share; what follows is the map of the development.  All paths are
    below src/.

    ** How the code is modelled

    - A C function is a function of the same name from the state it can see to an
      [outcome]: [Ok] and the new state, [Fault] (an access with no memory behind it, an
      index out of an array, a shift by the width, a division by zero), [Halted] (the
      endless hlt loops) or [NoFuel].  The monad's notation is stdpp's.  [returns o P]
      says that [o] is [Ok x] with [P x]: the theorems are stated with it, so each says
      that the code returns, not only what holds if it does.
    - Integers are [Z] with the C wrap-around written out: [u8], [u32], [u64].
    - Loops are [loop] over a body that says go round again ([inl]) or leave ([inr]),
      with [loop_fuel] = 2^65 rounds in binary; no loop whose variant fits a 64-bit
      counter can use them up.  [loop_rule] and its variants ask for an invariant and a
      decreasing variant, so that the fuel never shows in a component's proof.
    - Memory (Mem.v) is one finite map from virtual addresses to bytes, shared by every
      component; static variables are records.  The frame bitmap, the nodes of the buddy
      lists, slab headers, free slots, page tables, task nodes, stacks and the framebuffer
      are all bytes in it, where the code puts them: two parts that overlapped would
      show.  [mods P m m'] says that only addresses in [P] were written.
    - Physical memory is reached through the direct map, at the offset Limine gives
      (hhdm), as the code does.
    - Until [vmm_init] loads cr3 the code runs on Limine's tables, which the model takes
      for granted.  From then on what can be accessed is what the live tables reach:
      at the load of cr3, and at the beginning and the end of each interrupt, memory is
      cut down to the bytes whose address the processor's own walk maps, writable, to
      their direct-map frame ([reached], [translated] in Paging.v, [through_tables] in
      Kernel.v).  What the tables do not reach is gone, and an access to it faults.
      That nothing is lost is an invariant, [all_reached]: it holds after the boot
      because all memory, framebuffer and boot stack included, lies in the memory map's
      regions, and every later step keeps it.
    - Port accesses, descriptor-table loads, msr writes, interrupts and their returns are
      [event]s appended to a trace (Io.v).  What a port reads is a parameter, the class
      [Machine].  Devices are functions of the trace that replay the data sheet: [uart_of],
      [pic_of], [pit_of], [cpu_of].

    ** The files, from the ground up

    - Prelude.v: outcomes, loops, arrays, word arithmetic, lists.  Mem.v: memory, loads
      and stores of 1, 4 and 8 bytes.  Stack.v: push and pop.  Io.v: the trace.
    - LibString.v: lib/string.c.
    - Pmm.v: core/mm/pmm.c, the bitmap of frames.  Abstract state: the set [U] of usable
      and [F] of free frames ([pmm_rep]).
    - Blocks.v and Buddy.v: core/mm/buddy.c.  Blocks.v is the specification, operations on
      lists of free blocks ([spec_alloc], [spec_free]) and the tilings they keep;
      Buddy.v is the code on its linked nodes ([buddy_rep]) and the refinement.
    - BlockAlloc.v: what a client may ask of a block allocator (classes [BlockOps],
      [BlockLaws]), with the buddy allocator as the instance.
    - Slab.v: core/mm/slab.c, kmalloc over any block allocator.  Abstract state: per class
      its slabs with their free slots, and the large blocks ([slab_rep]); [live] objects.
    - Heap.v: what a client may ask of a heap ([HeapOps], [HeapLaws]); the slab
      allocator is an instance, a bump allocator another.
    - Sched.v: core/sched/sched.c and arch/x86_64/context.asm over any heap.  The code's
      side is registers, task nodes and stacks; the abstract side a queue of suspended
      contexts ([rep]).
    - Switch.v: sched_yield and context.asm once more, as a machine that takes one
      statement or instruction at a time ([exec_yield]) and can be interrupted anywhere.
    - Paging.v: arch/x86_64/paging.c.  Abstract state: the table frames by level and
      prefix and the leaf entries by page ([space], [vm_inv]); the processor's walk
      [mmu] and its TLB stand beside the code's.
    - Vmm.v: core/mm/vmm.c, the kernel's own address space.
    - Serial.v, Pic.v, Format.v: lib/serial.c, arch/x86_64/pic.c and the number printers.
    - Arch.v: gdt.c, idt.c, irq.c, arch.c, and isr_init.  Isr.v: the crash screen of
      isr.c.  Stubs.v: isr_stubs.asm, the way into the handlers and back.
    - Console.v: drivers/console.c and font_psf.h.  Abstract state: a [terminal], a grid
      of cells with a cursor; [displays] says that the framebuffer shows it.
    - Drivers.v: drivers/timer.c and keyboard.c.
    - Kernel.v: kernel.c.  The record [kernel] is the state of all parts; [boot_info] what
      Limine answers; [kmain] the function up to its loop and [idle] the loop.
    - Boot.v: the parts put together: what [kmain] needs, what it leaves, and what every
      interrupt does from then on.
    - System.v: where the interfaces meet: interrupts through the stubs on the stack of
      the interrupted code ([interrupt], [hw_idle]), and the scheduler on kmalloc on the
      buddy allocator as the boot leaves them ([kernel_sched]).
    - World.v: all of it running together.  A [world] is the kernel, the scheduler and the
      registers; [world_step] one thing that can happen: a task computes, uses the heap,
      creates a task or yields, or an interrupt comes.  The steps of a yield and
      interrupts alternate at will ([yield_on]).
    - Types.v: the static variables hold values of their C types in all these worlds.

    ** What the theorems show

    - The boot and life after it (Boot.v, System.v, World.v): [kmain] reaches its loop with the
      memory managers owning disjoint frames and none lost, the kernel on its own page
      tables, the lines open and the messages on screen and line; then every interrupt
      is served to the end and returns to the registers it found, ticks count, keys echo.
      The scheduler can be started on what the boot leaves; from then on tasks and
      interrupts, in any order and with interrupts inside the yields too, keep all the
      invariants at once, every call returns and every interrupt goes unnoticed by the
      task it interrupts.  No static variable leaves the range of its C type (Types.v).
    - Memory: no frame, block or object is ever handed out twice or overlaps another,
      under any sequence of operations and of writes by the owners to what they own
      (Pmm.v, Buddy.v, Slab.v, step relations); each operation refines its
      specification on every branch, failures included; failure happens only where it
      cannot be avoided; freeing what was just allocated restores the lists.
    - Address spaces: map, unmap and translate agree with the processor's walk, rights
      included; the TLB never goes stale; the safety gate before loading cr3 is enough.
    - Scheduling: yielding is the rotation of a queue and restores every register;
      round robin under any behaviour of the tasks; the ring in every reachable state;
      a task whose function returns stays in the trampoline's loop.
      Step by step, sched_yield and context.asm compute what the functions of Sched.v do,
      in at most 21 steps, and interrupts between any two of them, the change of stacks
      included, do not change the outcome (Switch.v).
    - Interrupts: tables decode to what was meant, interrupts are acknowledged exactly
      once on the right chips, entry and return through the stubs change no register,
      the crash report is the text of the frame.
    - Devices and text: the framebuffer refines a terminal, the printers' numerals read
      back as the values, UART and PIT end up programmed as intended.

    Each property has, where it has hypotheses, a witness that runs or instantiates it on
    a concrete machine ([demo], [slab_demo], [sched_demo], [arch_demo], [stubs_demo],
    [boot_demo], [system_demo]).

    ** What the code is trusted with

    The hypotheses are documented behaviour of what is not in the repository: the memory
    map of Limine (usable regions page-aligned, disjoint, inside the direct map; the
    framebuffer and the boot stack in regions of the map, whatever their type), the
    linker's addresses (classes [KernelImage], [ArchText], [PagingText], [SlabLayout],
    [SchedText]), a UART that becomes ready ([Uart]) and chips that read back what they
    were told ([Pic]).

    ** Not modelled

    - Interrupts come one at a time (the gates are interrupt gates, the handlers never
      enable interrupts): in the idle loop (System.v), while a task computes and between
      any two steps of a yield (Switch.v, World.v), but not inside the heap, task_create
      and the rest of the boot, which the model takes as single steps.  There Stubs.v
      shows that the registers do not notice them.  An interrupt writes below rsp, which
      C code leaves unused because the Makefile says -mno-red-zone.  Nothing is said of
      NMIs and of exceptions during the boot, other than that no access of the model faults.
    - The stack that C functions use below the stack pointer they are called with: it is
      the compiler's.  The stack is modelled where the code itself handles it, in
      context.asm, isr_stubs.asm and the stacks the scheduler forges.
    - [kmain] calls neither the heap nor the scheduler after initialising the heap: their
      theorems are about any client, not about one of the kernel's.
    - Memory is keyed by direct-map address, so a second mapping of a frame is not a
      second way into it: the kernel image has its own addresses, which Vmm.v shows to
      be mapped to it, and its bytes are not in the model's memory.  The tables do not
      change between the load of cr3 and the next cut, since no step of the kernel maps
      or unmaps then.
    - limine.h, the linker script, the Makefile, boot/limine.conf and
      tools/gen_font_psf.pl: not part of the running kernel (the generated font is
      in Console.v byte by byte).  The instructions cld, cli, sti and hlt have no state
      beyond the interrupt flag. *)

From stdpp Require Import base list gmap sets.
From Stdlib Require Import ZArith Lia.

#[global] Open Scope Z_scope.

(** * Outcomes of kernel code *)

(** What running a piece of kernel C can end in.  [Fault]: it dereferenced an
    address with no memory behind it, indexed an array out of range, shifted by
    the width of the operand or more, or divided by zero.
    [Halted]: it parked the CPU in a [for (;;) hlt] loop.  [NoFuel]: a loop ran
    longer than any loop over 64-bit counters can. *)
Inductive outcome (A : Type) : Type :=
  | Ok (a : A)
  | Fault
  | Halted
  | NoFuel.
Arguments Ok {A} a.
Arguments Fault {A}.
Arguments Halted {A}.
Arguments NoFuel {A}.

#[export] Instance outcome_ret : MRet outcome := λ A a, Ok a.
#[export] Instance outcome_bind : MBind outcome := λ A B f o,
  match o with
  | Ok a => f a
  | Fault => Fault
  | Halted => Halted
  | NoFuel => NoFuel
  end.

(** [returns o Q]: [o] ends normally, with a value that satisfies [Q].  It is a
    total-correctness weakest precondition: proving it rules out a fault, a
    halt and an unbounded loop at once. *)
Definition returns {A} (o : outcome A) (Q : A → Prop) : Prop :=
  match o with Ok a => Q a | _ => False end.

Lemma returns_bind {A B} (o : outcome A) (f : A → outcome B) (Q : B → Prop) :
  returns o (λ a, returns (f a) Q) → returns (o ≫= f) Q.
Proof. by destruct o. Qed.

Lemma returns_mono {A} (o : outcome A) (P Q : A → Prop) :
  returns o P → (∀ a, P a → Q a) → returns o Q.
Proof. destruct o; simpl; naive_solver. Qed.

Lemma returns_inv {A} (o : outcome A) (Q : A → Prop) :
  returns o Q → ∃ a, o = Ok a ∧ Q a.
Proof. destruct o; simpl; naive_solver. Qed.

(** Sequencing after a success, as an equation to rewrite with. *)
Lemma bind_ok {A B} (a : A) (f : A → outcome B) : Ok a ≫= f = f a.
Proof. done. Qed.

Lemma returns_ok {A} (a : A) (Q : A → Prop) : Q a → returns (Ok a) Q.
Proof. done. Qed.

Lemma returns_eq {A} (o : outcome A) (a : A) (Q : A → Prop) :
  o = Ok a → Q a → returns o Q.
Proof. by intros ->. Qed.

(** [ret_step H]: run the first action of a sequence with the specification
    [H] and go on with what it establishes. *)
Ltac ret_step H :=
  apply returns_bind; eapply returns_mono; [eapply H | cbv beta].

(** * Loops *)

(** A loop body maps the loop state to a new state ([inl], go round again) or to
    the loop's result ([inr], leave).  [iter_fuel p] runs at most [p] rounds and
    stops early, so a huge binary [p] costs nothing. *)
Fixpoint iter_fuel {S R : Type} (p : positive) (body : S → outcome (S + R)) (s : S)
  : outcome (S + R) :=
  match p with
  | xH => body s
  | xO q =>
      r ← iter_fuel q body s;
      match r with inl s' => iter_fuel q body s' | inr x => Ok (inr x) end
  | xI q =>
      r ← body s;
      match r with
      | inl s' =>
          r' ← iter_fuel q body s';
          match r' with inl s'' => iter_fuel q body s'' | inr x => Ok (inr x) end
      | inr x => Ok (inr x)
      end
  end.

(** Rounds granted to every loop: more than a loop over 64-bit values can use. *)
Definition loop_fuel : positive := Eval cbv in (2 ^ 65)%positive.

Definition loop {S R : Type} (body : S → outcome (S + R)) (s : S) : outcome R :=
  r ← iter_fuel loop_fuel body s;
  match r with inl _ => NoFuel | inr x => Ok x end.

Lemma iter_fuel_rule {S R} (I : Z → S → Prop) (Q : R → Prop)
    (body : S → outcome (S + R)) :
  (∀ k s, I k s → returns (body s) (λ r, match r with
     | inl s' => ∃ k', I k' s' ∧ 0 ≤ k' < k
     | inr x => Q x end)) →
  ∀ p k s, I k s → returns (iter_fuel p body s) (λ r, match r with
     | inl s' => ∃ k', I k' s' ∧ 0 ≤ k' ≤ k - Z.pos p
     | inr x => Q x end).
Proof.
  intros Hbody.
  induction p as [p IH|p IH|]; intros k s Hs; simpl.
  - ret_step Hbody; [done|]. intros [s'|x]; [|done]. intros (k1 & H1 & ?).
    ret_step IH; [exact H1|]. intros [s2|x]; [|done]. intros (k2 & H2 & ?).
    eapply returns_mono; [apply IH, H2|]. intros [s3|x]; [|done]. intros (k3 & H3 & ?).
    exists k3. split; [done|]. lia.
  - ret_step IH; [done|]. intros [s'|x]; [|done]. intros (k1 & H1 & ?).
    eapply returns_mono; [apply IH, H1|]. intros [s2|x]; [|done]. intros (k2 & H2 & ?).
    exists k2. split; [done|]. lia.
  - eapply returns_mono; [by apply Hbody|]. intros [s'|x]; [|done]. intros (k1 & H1 & ?).
    exists k1. split; [done|]. lia.
Qed.

(** Total correctness of a loop: an invariant indexed by the variant, which
    starts at [2 ^ 64] at most and decreases. *)
Lemma loop_rule_var {S R} (I : Z → S → Prop) (Q : R → Prop)
    (body : S → outcome (S + R)) k s :
  I k s → k ≤ 2 ^ 64 →
  (∀ k s, I k s → returns (body s) (λ r, match r with
     | inl s' => ∃ k', I k' s' ∧ 0 ≤ k' < k
     | inr x => Q x end)) →
  returns (loop body s) Q.
Proof.
  intros Hs Hk Hbody. unfold loop.
  ret_step (iter_fuel_rule I Q body Hbody loop_fuel); [exact Hs|].
  intros [s'|x]; [|done]. intros (k' & _ & Hr). exfalso. unfold loop_fuel in Hr. lia.
Qed.

(** The same with the variant a function of the state. *)
Lemma loop_rule {S R} (I : S → Prop) (Q : R → Prop) (μ : S → Z)
    (body : S → outcome (S + R)) s :
  I s → μ s ≤ 2 ^ 64 →
  (∀ s, I s → returns (body s) (λ r, match r with
     | inl s' => I s' ∧ 0 ≤ μ s' < μ s
     | inr x => Q x end)) →
  returns (loop body s) Q.
Proof.
  intros Hs Hμ Hbody. apply (loop_rule_var (λ k s, I s ∧ k = μ s) Q body (μ s)); [done..|].
  intros k s' [Hs' ->]. eapply returns_mono; [by apply Hbody|].
  intros [s2|x]; [|done]. intros [? ?]. by exists (μ s2).
Qed.

(** A loop whose rounds are known: [f i] is the state after [i] rounds and round
    [n] goes wrong. *)
Lemma iter_fuel_fault {S R} (body : S → outcome (S + R)) (f : Z → S) n :
  (∀ i, 0 ≤ i < n → body (f i) = Ok (inl (f (i + 1)))) → body (f n) = Fault →
  ∀ p i, 0 ≤ i ≤ n →
    iter_fuel p body (f i) = if decide (n - i < Z.pos p) then Fault else Ok (inl (f (i + Z.pos p))).
Proof.
  intros Hgo Hend.
  assert (∀ i, 0 ≤ i ≤ n →
    body (f i) = if decide (n - i < 1) then Fault else Ok (inl (f (i + 1)))) as Hone.
  { intros i Hi. case_decide; [by replace i with n by lia|apply Hgo; lia]. }
  induction p as [p IH|p IH|]; intros i Hi; cbn [iter_fuel]; [| |by apply Hone].
  - rewrite (Hone i Hi). case_decide; cbn; [by rewrite decide_True by lia|].
    rewrite IH by lia. case_decide; cbn; [by rewrite decide_True by lia|].
    rewrite IH by lia. case_decide; cbn; [by rewrite decide_True by lia|].
    rewrite decide_False by lia. do 3 f_equal. lia.
  - rewrite IH by lia. case_decide; cbn; [by rewrite decide_True by lia|].
    rewrite IH by lia. case_decide; cbn; [by rewrite decide_True by lia|].
    rewrite decide_False by lia. do 3 f_equal. lia.
Qed.

Lemma loop_fault {S R} (body : S → outcome (S + R)) (f : Z → S) n :
  0 ≤ n < 2 ^ 64 →
  (∀ i, 0 ≤ i < n → body (f i) = Ok (inl (f (i + 1)))) → body (f n) = Fault →
  loop body (f 0) = Fault.
Proof.
  intros Hn Hgo Hend. unfold loop. rewrite (iter_fuel_fault _ _ n Hgo Hend) by lia.
  rewrite decide_True; [done|]. unfold loop_fuel. lia.
Qed.

#[global] Arguments loop : simpl never.

(** [for (i = lo; i < hi; i++)] with an early way out ([inr]). *)
Definition for_loop {S R : Type} (lo hi : Z) (body : Z → S → outcome (S + R)) (s : S)
  : outcome (S + R) :=
  loop (λ '(i, s),
    if i <? hi
    then r ← body i s;
         match r with
         | inl s' => Ok (inl (i + 1, s'))
         | inr x => Ok (inr (inr x))
         end
    else Ok (inr (inl s))) (lo, s).

(** The same without one. *)
Definition for_each {S : Type} (lo hi : Z) (body : Z → S → outcome S) (s : S) : outcome S :=
  r ← for_loop (R := Empty_set) lo hi (λ i s, s' ← body i s; Ok (inl s')) s;
  match r with inl s' => Ok s' | inr e => Empty_set_rect (λ _, outcome S) e end.

Lemma for_loop_rule {S R} (I : Z → S → Prop) (Q : R → Prop) lo hi
    (body : Z → S → outcome (S + R)) s :
  lo ≤ hi → hi - lo ≤ 2 ^ 64 → I lo s →
  (∀ i s, lo ≤ i < hi → I i s → returns (body i s) (λ r, match r with
     | inl s' => I (i + 1) s'
     | inr x => Q x end)) →
  returns (for_loop lo hi body s) (λ r, match r with
     | inl s' => I hi s'
     | inr x => Q x end).
Proof.
  intros Hle Hsz Hs Hbody. unfold for_loop.
  eapply (loop_rule (λ '(i, s), lo ≤ i ≤ hi ∧ I i s) _ (λ '(i, _), hi - i));
    [split; [lia|done]|lia|].
  intros [i s'] [Hi HI]. destruct (Z.ltb_spec i hi).
  - ret_step Hbody; [lia|done|]. intros [s2|x]; simpl; [|done].
    intros ?. split; [split; [lia|done]|lia].
  - simpl. by replace hi with i by lia.
Qed.

Lemma for_each_rule {S} (I : Z → S → Prop) lo hi (body : Z → S → outcome S) s :
  lo ≤ hi → hi - lo ≤ 2 ^ 64 → I lo s →
  (∀ i s, lo ≤ i < hi → I i s → returns (body i s) (I (i + 1))) →
  returns (for_each lo hi body s) (I hi).
Proof.
  intros Hle Hsz Hs Hbody. unfold for_each.
  ret_step (for_loop_rule I (λ _ : Empty_set, True) lo hi); [done|done|done| |].
  - intros i s' Hi HI. ret_step Hbody; [done|done|]. done.
  - intros [s'|[]]. done.
Qed.

(** A loop whose first round leaves, and a [for] over an empty range. *)
Lemma loop_exit {S R} (body : S → outcome (S + R)) s x :
  body s = Ok (inr x) → loop body s = Ok x.
Proof.
  intros Hb. unfold loop.
  enough (∀ p, iter_fuel p body s = Ok (inr x)) as -> by done.
  induction p as [p IH|p IH|]; simpl; [by rewrite Hb|by rewrite IH|done].
Qed.

Lemma for_each_empty {S} lo hi (body : Z → S → outcome S) s :
  hi ≤ lo → for_each lo hi body s = Ok s.
Proof.
  intros Hle. unfold for_each, for_loop.
  rewrite (loop_exit _ _ (inl s)); [done|]. simpl.
  by destruct (Z.ltb_spec lo hi); [lia|].
Qed.

(** The proofs go through the rules above; nothing unfolds a loop. *)
#[global] Opaque loop.

(** * Fixed-size C arrays *)

Definition arr_get {A} (l : list A) (i : Z) : outcome A :=
  if decide (0 ≤ i) then
    match l !! Z.to_nat i with Some x => Ok x | None => Fault end
  else Fault.

Definition arr_set {A} (l : list A) (i : Z) (x : A) : outcome (list A) :=
  if decide (0 ≤ i < Z.of_nat (length l)) then Ok (<[Z.to_nat i := x]> l) else Fault.

Lemma arr_get_Some {A} (l : list A) (i : nat) x :
  l !! i = Some x → arr_get l (Z.of_nat i) = Ok x.
Proof. intros H. unfold arr_get. rewrite decide_True, Nat2Z.id, H by lia. done. Qed.

Lemma arr_set_lt {A} (l : list A) (i : nat) x :
  (i < length l)%nat → arr_set l (Z.of_nat i) x = Ok (<[i := x]> l).
Proof. intros H. unfold arr_set. rewrite decide_True, Nat2Z.id by lia. done. Qed.

(** * Lists of lists *)

(** What [concat] is made of beside the list at [o]. *)
Definition concat_rest {A} (o : nat) (L : list (list A)) : list A :=
  concat (take o L) ++ concat (drop (S o) L).

Lemma concat_insert {A} o (l : list A) L :
  (o < length L)%nat → concat (<[o := l]> L) ≡ₚ l ++ concat_rest o L.
Proof.
  intros Ho. rewrite insert_take_drop by done. unfold concat_rest.
  rewrite concat_app. simpl. by rewrite Permutation_app_swap_app.
Qed.

Lemma concat_lookup {A} o (l : list A) L :
  L !! o = Some l → concat L ≡ₚ l ++ concat_rest o L.
Proof.
  intros Hl. rewrite <- (list_insert_id L o l) at 1 by done.
  apply concat_insert. by apply lookup_lt_Some in Hl.
Qed.

Lemma concat_other {A} o o' (l l' : list A) L x :
  L !! o = Some l → L !! o' = Some l' → o ≠ o' → x ∈ l' → x ∈ concat_rest o L.
Proof.
  intros Ho Ho' Hne Hx. unfold concat_rest. apply elem_of_app.
  destruct (decide (o' < o)%nat).
  - left. apply list_elem_of_In, in_concat. exists l'. split; [|by apply list_elem_of_In].
    apply list_elem_of_In, (list_elem_of_lookup_2 _ o'). by rewrite lookup_take_lt.
  - right. apply list_elem_of_In, in_concat. exists l'. split; [|by apply list_elem_of_In].
    apply list_elem_of_In, (list_elem_of_lookup_2 _ (o' - S o)%nat).
    rewrite lookup_drop. by replace (S o + (o' - S o))%nat with o' by lia.
Qed.

(** * Machine words *)

(** Conversion to an unsigned [w]-bit type: C reduces modulo [2 ^ w]. *)
Definition u8 (x : Z) : Z := x mod 2 ^ 8.
Definition u16 (x : Z) : Z := x mod 2 ^ 16.
Definition u32 (x : Z) : Z := x mod 2 ^ 32.
Definition u64 (x : Z) : Z := x mod 2 ^ 64.

Section words.
Implicit Types x y k e : Z.

Lemma u8_range x : 0 ≤ u8 x < 2 ^ 8.
Proof. apply Z.mod_pos_bound; lia. Qed.
Lemma u16_range x : 0 ≤ u16 x < 2 ^ 16.
Proof. apply Z.mod_pos_bound; lia. Qed.
Lemma u32_range x : 0 ≤ u32 x < 2 ^ 32.
Proof. apply Z.mod_pos_bound; lia. Qed.
Lemma u64_range x : 0 ≤ u64 x < 2 ^ 64.
Proof. apply Z.mod_pos_bound; lia. Qed.

Lemma u8_id x : 0 ≤ x < 2 ^ 8 → u8 x = x.
Proof. apply Z.mod_small. Qed.
Lemma u16_id x : 0 ≤ x < 2 ^ 16 → u16 x = x.
Proof. apply Z.mod_small. Qed.
Lemma u32_id x : 0 ≤ x < 2 ^ 32 → u32 x = x.
Proof. apply Z.mod_small. Qed.
Lemma u64_id x : 0 ≤ x < 2 ^ 64 → u64 x = x.
Proof. apply Z.mod_small. Qed.

(** ** Masks, alignment, powers of two *)

Lemma pow2_pos k : 0 ≤ k → 0 < 2 ^ k.
Proof. intros. apply Z.pow_pos_nonneg; lia. Qed.

Lemma land_low_mask x k : 0 ≤ k → Z.land x (Z.shiftl 1 k - 1) = x mod 2 ^ k.
Proof.
  intros. rewrite <- Z.land_ones by lia.
  by rewrite Z.ones_equiv, Z.shiftl_1_l, Z.sub_1_r.
Qed.

(** [x & ~(2^k - 1)], the complement taken at [w] bits, rounds down to a
    multiple of [2 ^ k]. *)
Lemma land_high_mask_w w x k :
  0 ≤ k ≤ w → 0 ≤ x < 2 ^ w → Z.land x (Z.lnot (2 ^ k - 1) mod 2 ^ w) = x - x mod 2 ^ k.
Proof.
  intros Hk Hx.
  rewrite <- Z.land_ones, (Z.land_comm (Z.lnot _)), Z.land_assoc by lia.
  rewrite (Z.land_ones x) by lia. rewrite (Z.mod_small x) by lia.
  rewrite Z.sub_1_r, <- Z.ones_equiv, <- Z.ldiff_land, Z.ldiff_ones_r by lia.
  rewrite Z.shiftl_mul_pow2, Z.shiftr_div_pow2 by lia.
  pose proof (pow2_pos k ltac:(lia)). pose proof (Z.div_mod x (2 ^ k)). lia.
Qed.

Lemma land_high_mask x k :
  0 ≤ k ≤ 64 → 0 ≤ x < 2 ^ 64 → Z.land x (u64 (Z.lnot (2 ^ k - 1))) = x - x mod 2 ^ k.
Proof. apply land_high_mask_w. Qed.

Lemma lxor_pow2_even q e : 0 ≤ e → Z.even q = true →
  Z.lxor (q * 2 ^ e) (2 ^ e) = q * 2 ^ e + 2 ^ e.
Proof.
  intros He Hq. symmetry. rewrite <- (Z.mul_1_l (2 ^ e)) at 2 4.
  rewrite <- !Z.shiftl_mul_pow2, <- Z.shiftl_lxor by lia.
  rewrite Z.even_spec in Hq. destruct Hq as [r ->].
  assert (Z.lxor (2 * r) 1 = 2 * r + 1) as ->.
  { rewrite <- Z.add_nocarry_lxor; [done|].
    apply Z.bits_inj'. intros n Hn. rewrite Z.land_spec, Z.bits_0.
    destruct (decide (n = 0)) as [->|].
    - by rewrite Z.testbit_even_0.
    - replace 1 with (2 ^ 0) at 1 by done. rewrite Z.pow2_bits_false by lia.
      by rewrite andb_false_r. }
  rewrite !Z.shiftl_mul_pow2 by lia. lia.
Qed.

(** Flipping bit [e] of a multiple of [2 ^ e]: the buddy of an aligned block. *)
Lemma lxor_pow2 p e : 0 ≤ e → p mod 2 ^ e = 0 →
  Z.lxor p (2 ^ e) = if decide (p mod 2 ^ (e + 1) = 0) then p + 2 ^ e else p - 2 ^ e.
Proof.
  intros He Hp. pose proof (pow2_pos e He) as Hpos.
  apply Z.div_exact in Hp; [|lia]. set (q := p / 2 ^ e) in *.
  rewrite Z.mul_comm in Hp. rewrite Hp.
  assert ((q * 2 ^ e) mod 2 ^ (e + 1) = (if Z.even q then 0 else 1) * 2 ^ e) as ->.
  { rewrite Z.pow_add_r, (Z.mul_comm (2 ^ e)), Z.mul_mod_distr_r by lia.
    change (2 ^ 1) with 2. by rewrite Zmod_even. }
  destruct (Z.even q) eqn:Hq; case_decide; try lia.
  - by apply lxor_pow2_even.
  - assert (Z.even (q - 1) = true) as Hq'.
    { rewrite Z.even_sub, Hq. done. }
    pose proof (lxor_pow2_even (q - 1) e He Hq') as Hx.
    replace (q * 2 ^ e) with ((q - 1) * 2 ^ e + 2 ^ e) at 1 by lia.
    rewrite <- Hx, Z.lxor_assoc, Z.lxor_nilpotent, Z.lxor_0_r. lia.
Qed.

Lemma mod_trans p a b : 0 < a → 0 < b → p mod (a * b) = 0 → p mod a = 0.
Proof.
  intros Ha Hb Hp. apply Z.div_exact in Hp; [|lia].
  rewrite Hp, <- Z.mul_assoc, Z.mul_comm. apply Z.mod_mul; lia.
Qed.
End words.

(** ** Bits of a byte *)

Section byte_bits.
Implicit Types b i j : Z.

Lemma testbit_shiftr_land b i : 0 ≤ i → Z.land (Z.shiftr b i) 1 = Z.b2z (Z.testbit b i).
Proof.
  intros. change 1 with (Z.ones 1) at 1. rewrite Z.land_ones by lia.
  change (2 ^ 1) with 2. rewrite <- Z.bit0_mod, Z.shiftr_spec by lia.
  by rewrite Z.add_0_l.
Qed.

Lemma testbit_lor_bit b i j : 0 ≤ i → 0 ≤ j →
  Z.testbit (Z.lor b (Z.shiftl 1 i)) j = bool_decide (i = j) || Z.testbit b j.
Proof.
  intros. rewrite Z.lor_spec, Z.shiftl_1_l, orb_comm. f_equal.
  destruct (decide (i = j)) as [->|].
  - rewrite Z.pow2_bits_true, bool_decide_true; done.
  - rewrite Z.pow2_bits_false, bool_decide_false; done.
Qed.

Lemma testbit_u8 b j : 0 ≤ j < 8 → Z.testbit (u8 b) j = Z.testbit b j.
Proof. intros. unfold u8. by rewrite Z.mod_pow2_bits_low by lia. Qed.

Lemma testbit_land_unbit b i j : 0 ≤ i → 0 ≤ j < 8 →
  Z.testbit (Z.land b (u8 (Z.lnot (Z.shiftl 1 i)))) j =
    negb (bool_decide (i = j)) && Z.testbit b j.
Proof.
  intros. rewrite Z.land_spec, testbit_u8, Z.lnot_spec, Z.shiftl_1_l, andb_comm by lia.
  f_equal. f_equal. destruct (decide (i = j)) as [->|].
  - rewrite Z.pow2_bits_true, bool_decide_true; [done..|lia].
  - rewrite Z.pow2_bits_false, bool_decide_false; done.
Qed.
End byte_bits.

(** * Finite sets of integers *)

Lemma size_bounded (X : gset Z) (lo hi : Z) :
  lo ≤ hi → (∀ x, x ∈ X → lo ≤ x < hi) → Z.of_nat (size X) ≤ hi - lo.
Proof.
  intros Hle HX.
  assert (X ⊆ list_to_set (seqZ lo (hi - lo))) as Hsub.
  { intros x Hx. apply elem_of_list_to_set, elem_of_seqZ. specialize (HX x Hx). lia. }
  apply subseteq_size in Hsub. rewrite size_list_to_set in Hsub by apply NoDup_seqZ.
  rewrite length_seqZ in Hsub. lia.
Qed.

Lemma size_remove (X : gset Z) x :
  x ∈ X → Z.of_nat (size (X ∖ {[x]})) = Z.of_nat (size X) - 1.
Proof.
  intros Hx. assert ({[x]} ⊆ X) by set_solver.
  rewrite size_difference, size_singleton by done.
  assert (size ({[x]} : gset Z) ≤ size X)%nat by by apply subseteq_size.
  rewrite size_singleton in *. lia.
Qed.

Lemma size_insert (X : gset Z) x :
  x ∉ X → Z.of_nat (size ({[x]} ∪ X)) = Z.of_nat (size X) + 1.
Proof. intros Hx. rewrite size_union, size_singleton by set_solver. lia. Qed.

(** Linear arithmetic with division and remainder by constants. *)
Ltac div_lia := Z.to_euclidean_division_equations; lia.
