(* ===== verification/Mem.v ===== *)
(** Byte-addressed memory.  Every component of the kernel that keeps data
    outside its own static variables (the frame bitmap, the free-list nodes of
    the buddy allocator, page tables, slab headers, task stacks, the
    framebuffer) reads and writes this one memory, at the virtual addresses the
    code computes.  Multi-byte accesses are little-endian.  Reading or writing
    an address with no memory behind it is a [Fault]. *)

From stdpp Require Import base list gmap sets.
From Stdlib Require Import ZArith Lia.
From S2P Require Import Prelude.

#[local] Coercion Z.of_nat : nat >-> Z.

(** A cell holds a number read modulo 256. *)
Abbreviation mem := (gmap Z Z).

Implicit Types (m : mem) (a b v x : Z) (n : nat) (P : Z → Prop).

(** * Accesses *)

Definition load8 m a : outcome Z :=
  match m !! a with Some b => Ok (u8 b) | None => Fault end.

Definition store8 m a v : outcome mem :=
  match m !! a with Some _ => Ok (<[a := u8 v]> m) | None => Fault end.

Fixpoint load_le (n : nat) m a : outcome Z :=
  match n with
  | O => Ok 0
  | S n => b ← load8 m a; r ← load_le n m (a + 1); Ok (b + 2 ^ 8 * r)
  end.

Fixpoint store_le (n : nat) m a v : outcome mem :=
  match n with
  | O => Ok m
  | S n => m' ← store8 m a v; store_le n m' (a + 1) (v / 2 ^ 8)
  end.

Definition load32 := load_le 4.
Definition store32 := store_le 4.
Definition load64 := load_le 8.
Definition store64 := store_le 8.

#[global] Arguments load32 : simpl never.
#[global] Arguments store32 : simpl never.
#[global] Arguments load64 : simpl never.
#[global] Arguments store64 : simpl never.

(** * Footprints *)

(** The bytes of [[a, a + len)]. *)
Definition range a (len : Z) : Z → Prop := λ x, a ≤ x < a + len.

Definition backed m a (len : Z) : Prop := ∀ x, range a len x → is_Some (m !! x).

(** [m'] is [m] with bytes of [P] at most overwritten; no byte appears or
    disappears. *)
Record mods P m m' : Prop := {
  mods_dom : ∀ x, is_Some (m !! x) ↔ is_Some (m' !! x);
  mods_out : ∀ x, ¬ P x → m' !! x = m !! x;
}.

Lemma mods_refl P m : mods P m m.
Proof. done. Qed.

Lemma mods_trans P m1 m2 m3 : mods P m1 m2 → mods P m2 m3 → mods P m1 m3.
Proof.
  intros [D1 O1] [D2 O2]. split.
  - intros x. by rewrite D1, D2.
  - intros x Hx. by rewrite O2, O1.
Qed.

Lemma mods_weaken P (Q : Z → Prop) m m' : mods P m m' → (∀ x, P x → Q x) → mods Q m m'.
Proof. intros [D O] HPQ. split; [done|]. intros x Hx. apply O. by intros HP; apply Hx, HPQ. Qed.

Lemma mods_backed P m m' a len : mods P m m' → backed m a len → backed m' a len.
Proof. intros [D _] Hb x Hx. apply D. by apply Hb. Qed.

Lemma backed_sub m a len a' len' :
  backed m a len → a ≤ a' → a' + len' ≤ a + len → backed m a' len'.
Proof. unfold backed, range. intros Hb ?? x ?. apply Hb. lia. Qed.

(** Two byte ranges share no address. *)
Definition apart a (la : Z) b (lb : Z) : Prop := a + la ≤ b ∨ b + lb ≤ a.

(** * Laws of the accesses *)

Lemma load8_range m a : match load8 m a with Ok b => 0 ≤ b < 2 ^ 8 | _ => True end.
Proof. unfold load8. destruct (m !! a); [apply u8_range|done]. Qed.

Lemma load_le_agree n m m' a :
  (∀ x, range a n x → m' !! x = m !! x) → load_le n m' a = load_le n m a.
Proof.
  revert a. induction n as [|n IH]; intros a Heq; [done|]. simpl.
  unfold load8. rewrite (Heq a) by (unfold range; lia).
  destruct (m !! a); simpl; [|done].
  rewrite IH; [done|]. intros x Hx. apply Heq. unfold range in *. lia.
Qed.

Lemma load_le_mods n P m m' a :
  mods P m m' → (∀ x, range a n x → ¬ P x) → load_le n m' a = load_le n m a.
Proof. intros [_ O] HP. apply load_le_agree. intros x Hx. by apply O, HP. Qed.

Lemma load_le_returns n m a :
  backed m a n → returns (load_le n m a) (λ v, 0 ≤ v < 2 ^ (8 * n)).
Proof.
  revert a. induction n as [|n IH]; intros a Hb; [simpl; lia|].
  cbn [load_le]. unfold load8.
  destruct (Hb a) as [b Hbm]; [unfold range; lia|]. rewrite Hbm. simpl.
  ret_step IH.
  { eapply backed_sub; [done| |]; lia. }
  intros r Hr. pose proof (u8_range b).
  replace (8 * S n) with (8 + 8 * n) by lia. rewrite Z.pow_add_r by lia.
  change (2 ^ 8) with 256 in *. simpl. nia.
Qed.

Lemma load_le_range n m a v : load_le n m a = Ok v → 0 ≤ v < 2 ^ (8 * n).
Proof.
  revert a v. induction n as [|n IH]; intros a v; cbn [load_le].
  { intros [= <-]. simpl. lia. }
  unfold load8. destruct (m !! a) as [b|]; [|done]. simpl.
  destruct (load_le n m (a + 1)) as [r| | |] eqn:Hr; [|done..]. simpl.
  intros [= <-]. apply IH in Hr. pose proof (u8_range b).
  replace (8 * S n) with (8 + 8 * n) by lia. rewrite Z.pow_add_r by lia.
  change (2 ^ 8) with 256 in *. nia.
Qed.

Lemma load_le_backed n m a v : load_le n m a = Ok v → backed m a n.
Proof.
  revert a v. induction n as [|n IH]; intros a v; cbn [load_le].
  { intros _ x Hx. unfold range in Hx. lia. }
  unfold load8. destruct (m !! a) as [b|] eqn:Ha; [|done]. simpl.
  destruct (load_le n m (a + 1)) as [r| | |] eqn:Hr; [|done..]. intros _.
  intros x Hx. destruct (decide (x = a)) as [->|]; [by eexists|].
  eapply IH; [done|]. unfold range in *. lia.
Qed.

Lemma store_le_returns n m a v :
  backed m a n →
  returns (store_le n m a v) (λ m',
    mods (range a n) m m' ∧ load_le n m' a = Ok (v mod 2 ^ (8 * n))).
Proof.
  revert m a v. induction n as [|n IH]; intros m a v Hb.
  { simpl. split; [done|]. by rewrite Z.mod_1_r. }
  cbn [store_le]. unfold store8.
  destruct (Hb a) as [b Hbm]; [unfold range; lia|]. rewrite Hbm. simpl.
  assert (mods (range a (S n)) m (<[a:=u8 v]> m)) as Hm1.
  { split; intros x.
    - destruct (decide (a = x)) as [->|]; simplify_map_eq; naive_solver.
    - intros Hx. apply lookup_insert_ne. unfold range in Hx. lia. }
  eapply returns_mono; [apply IH|].
  { eapply mods_backed; [done|]. eapply backed_sub; [done| |]; lia. }
  intros m' [Hm' Hl]. split.
  - eapply mods_trans; [done|]. eapply mods_weaken; [done|].
    unfold range. intros x. lia.
  - unfold load8. rewrite (mods_out _ _ _ Hm') by (unfold range; lia).
    rewrite lookup_insert_eq. simpl. rewrite Hl. simpl. f_equal.
    rewrite u8_id by apply u8_range. unfold u8.
    replace (8 * S n) with (8 + 8 * n) by lia. rewrite Z.pow_add_r by lia.
    rewrite Z.rem_mul_r by (try apply Z.pow_nonzero; lia). lia.
Qed.

(** The same store in two memories that differ in [J] only: what was stored is the same
    in both. *)
Lemma store_le_sim n J m m' a v m1 :
  mods J m m' → store_le n m a v = Ok m1 →
  ∃ m1', store_le n m' a v = Ok m1' ∧ mods (λ x, J x ∧ ¬ range a n x) m1 m1' ∧
    mods (range a n) m m1 ∧ mods (range a n) m' m1'.
Proof.
  revert J m m' a v. induction n as [|n IH]; intros J m m' a v Hm; cbn [store_le].
  { intros [= <-]. exists m'. split; [done|]. split; [|done].
    eapply mods_weaken; [exact Hm|]. intros x Hx. split; [done|]. unfold range. lia. }
  unfold store8. destruct (m !! a) as [b|] eqn:Hb; [|done].
  destruct (proj1 (mods_dom _ _ _ Hm a)) as [b' ->]; [by eexists|]. rewrite !bind_ok.
  assert (∀ (m : mem) b, m !! a = Some b → mods (range a (S n)) m (<[a:=u8 v]> m)) as Hins.
  { intros m0 b0 Hb0. split; intros x.
    - destruct (decide (a = x)) as [->|]; simplify_map_eq; naive_solver.
    - intros Hx. apply lookup_insert_ne. unfold range in Hx. lia. }
  destruct (proj1 (mods_dom _ _ _ Hm a)) as [b2 Hb2]; [by eexists|].
  intros Hst. destruct (IH (λ x, J x ∧ x ≠ a) (<[a:=u8 v]> m) (<[a:=u8 v]> m') (a + 1) (v / 2 ^ 8)) as (m1' & Hrun & H1 & H2 & H3);
    [|exact Hst|].
  { split; intros x; destruct (decide (a = x)) as [->|]; simplify_map_eq; [naive_solver|apply Hm|done|].
    intros Hx. apply (mods_out _ _ _ Hm). intros ?. by apply Hx. }
  exists m1'. split; [exact Hrun|]. split; [|split].
  - eapply mods_weaken; [exact H1|]. unfold range. intros x [[? ?] ?]. split; [done|lia].
  - eapply mods_trans; [by eapply Hins|]. eapply mods_weaken; [exact H2|]. unfold range. lia.
  - eapply mods_trans; [by eapply Hins|]. eapply mods_weaken; [exact H3|]. unfold range. lia.
Qed.

(** What a 64-bit store leaves behind. *)
Definition stored64 a v m m' : Prop := mods (range a 8) m m' ∧ load64 m' a = Ok v.

Lemma store64_returns m a v :
  backed m a 8 → 0 ≤ v < 2 ^ 64 → returns (store64 m a v) (stored64 a v m).
Proof.
  intros Hb Hv. unfold store64.
  eapply returns_mono; [by apply (store_le_returns 8)|].
  intros m' [Hm Hl]. split; [done|]. unfold load64. rewrite Hl.
  by rewrite Z.mod_small by done.
Qed.

Definition stored32 a v m m' : Prop := mods (range a 4) m m' ∧ load32 m' a = Ok v.

Lemma store32_returns m a v :
  backed m a 4 → 0 ≤ v < 2 ^ 32 → returns (store32 m a v) (stored32 a v m).
Proof.
  intros Hb Hv. unfold store32.
  eapply returns_mono; [by apply (store_le_returns 4)|].
  intros m' [Hm Hl]. split; [done|]. unfold load32. rewrite Hl.
  by rewrite Z.mod_small by done.
Qed.

Lemma load64_mods P m m' a :
  mods P m m' → (∀ x, range a 8 x → ¬ P x) → load64 m' a = load64 m a.
Proof. apply (load_le_mods 8). Qed.

Lemma load64_apart m m' a len b :
  mods (range a len) m m' → apart b 8 a len → load64 m' b = load64 m b.
Proof.
  intros Hm Hap. eapply load64_mods; [done|]. unfold range, apart in *. lia.
Qed.

Lemma load64_range m a v : load64 m a = Ok v → 0 ≤ v < 2 ^ 64.
Proof. apply (load_le_range 8). Qed.

Lemma load64_backed m a v : load64 m a = Ok v → backed m a 8.
Proof. apply (load_le_backed 8). Qed.

Lemma load32_mods P m m' a :
  mods P m m' → (∀ x, range a 4 x → ¬ P x) → load32 m' a = load32 m a.
Proof. apply (load_le_mods 4). Qed.

(** What is stored elsewhere survives. *)
Lemma load64_keep P m m' a v :
  mods P m m' → load64 m a = Ok v → (∀ x, range a 8 x → ¬ P x) → load64 m' a = Ok v.
Proof. intros Hm <- HP. by eapply load64_mods. Qed.

Lemma load32_keep P m m' a v :
  mods P m m' → load32 m a = Ok v → (∀ x, range a 4 x → ¬ P x) → load32 m' a = Ok v.
Proof. intros Hm <- HP. by eapply load32_mods. Qed.

Lemma load8_returns m a : backed m a 1 → returns (load8 m a) (λ b, 0 ≤ b < 2 ^ 8).
Proof.
  intros Hb. destruct (Hb a) as [b Hm]; [unfold range; lia|].
  unfold load8. rewrite Hm. apply u8_range.
Qed.

Lemma load8_mods P m m' a : mods P m m' → ¬ P a → load8 m' a = load8 m a.
Proof. intros [_ O] Ha. unfold load8. by rewrite O. Qed.

Lemma store8_returns m a v :
  backed m a 1 →
  returns (store8 m a v) (λ m', mods (range a 1) m m' ∧ load8 m' a = Ok (u8 v)).
Proof.
  intros Hb. destruct (Hb a) as [b Hm]; [unfold range; lia|].
  unfold store8. rewrite Hm. simpl. split; [split|].
  - intros x. destruct (decide (a = x)) as [->|]; simplify_map_eq; naive_solver.
  - intros x Hx. apply lookup_insert_ne. unfold range in Hx. lia.
  - unfold load8. rewrite lookup_insert_eq. by rewrite u8_id by apply u8_range.
Qed.

Create HintDb mem.
#[export] Hint Resolve mods_refl : mem.
#[export] Hint Resolve mods_backed backed_sub : mem.

(** * Concrete memories *)

(** [len] zeroed bytes at [a], on top of [m]. *)
Fixpoint ram_fill (a : Z) (len : nat) m : mem :=
  match len with
  | O => m
  | S len => <[a := 0]> (ram_fill (a + 1) len m)
  end.

Lemma ram_fill_lookup a (len : nat) m x :
  ram_fill a len m !! x = if decide (a ≤ x < a + len) then Some 0 else m !! x.
Proof.
  revert a. induction len as [|len IH]; intros a; simpl.
  { by rewrite decide_False by lia. }
  destruct (decide (a = x)) as [->|].
  - rewrite lookup_insert_eq, decide_True; [done|lia].
  - rewrite lookup_insert_ne, IH by done. repeat case_decide; try done; lia.
Qed.

(** What there is in it. *)
Lemma ram_fill_in a (len : nat) m x : is_Some (ram_fill a len m !! x) → range a (Z.of_nat len) x ∨ is_Some (m !! x).
Proof. rewrite ram_fill_lookup. unfold range. case_decide; [left; lia|by right]. Qed.

Lemma ram_fill_backed a (len : nat) m b (l : Z) :
  a ≤ b → b + l ≤ a + len → backed (ram_fill a len m) b l.
Proof.
  intros ?? x Hx. rewrite ram_fill_lookup, decide_True; [by eexists|].
  unfold range in Hx. lia.
Qed.
