(* ===== verification/Stack.v ===== *)
(** The stack instructions, shared by context.asm and isr_stubs.asm, and words that
    lie on a stack. *)

From stdpp Require Import base list gmap sets.
From Stdlib Require Import ZArith Lia.
From S2P Require Import Prelude.
From S2P Require Import Mem.

#[local] Coercion Z.of_nat : nat >-> Z.

(** [push] writes below the stack pointer, [pop] reads at it. *)
Definition push (m : mem) (sp v : Z) : outcome (mem * Z) :=
  let sp := u64 (sp - 8) in m ← store64 m sp v; Ok (m, sp).

Definition pop (m : mem) (sp : Z) : outcome (Z * Z) :=
  v ← load64 m sp; Ok (v, u64 (sp + 8)).

(** * Words on a stack *)

(** The words [ws] lie at [a], upwards. *)
Fixpoint words (m : mem) (a : Z) (ws : list Z) : Prop :=
  match ws with
  | [] => True
  | w :: ws => load64 m a = Ok w ∧ words m (a + 8) ws
  end.

Lemma words_mods P m m' a ws :
  mods P m m' → (∀ x, range a (8 * length ws) x → ¬ P x) → words m a ws → words m' a ws.
Proof.
  revert a. induction ws as [|w ws IH]; intros a Hm HP; cbn [words]; [done|]. intros [Hw Hws].
  rewrite length_cons in HP. split.
  - eapply load64_keep; [exact Hm|done|]. intros x Hx. apply HP. unfold range in *. lia.
  - apply IH; [done| |done]. intros x Hx. apply HP. unfold range in *. lia.
Qed.

(** [ws] has been pushed, the last first, onto the stack that started at [sp0] in
    [m0]. *)
Record pushed (m0 : mem) (sp0 : Z) (m : mem) (sp : Z) (ws : list Z) : Prop := {
  pu_sp : sp = u64 (sp0 - 8 * length ws);
  pu_words : words m (sp0 - 8 * length ws) ws;
  pu_mods : mods (range (sp0 - 8 * length ws) (8 * length ws)) m0 m;
}.

Lemma pushed_nil m sp : 0 ≤ sp < 2 ^ 64 → pushed m sp m sp [].
Proof. intros. split; [by rewrite Z.sub_0_r, u64_id|done|done]. Qed.

Lemma push_returns m0 sp0 m sp ws v (n : Z) :
  pushed m0 sp0 m sp ws → 0 ≤ v < 2 ^ 64 →
  8 * length ws + 8 ≤ n ≤ sp0 → sp0 ≤ 2 ^ 64 → backed m0 (sp0 - n) n →
  returns (push m sp v) (λ '(m', sp'), pushed m0 sp0 m' sp' (v :: ws)).
Proof.
  intros [-> Hws Hm] Hv Hn Htop Hb. unfold push. cbv zeta.
  assert (u64 (u64 (sp0 - 8 * length ws) - 8) = sp0 - 8 * length (v :: ws)) as ->.
  { unfold u64. rewrite Zminus_mod_idemp_l. rewrite length_cons, Z.mod_small by lia. lia. }
  rewrite length_cons. ret_step store64_returns; [|done|].
  { eapply mods_backed; [exact Hm|]. eapply backed_sub; [exact Hb|lia..]. }
  intros m' [Hm' Hv']. split; rewrite length_cons.
  - symmetry. apply u64_id. lia.
  - split; [done|]. replace (sp0 - 8 * S (length ws) + 8) with (sp0 - 8 * length ws) by lia.
    eapply words_mods; [exact Hm'| |exact Hws]. unfold range. lia.
  - eapply mods_trans; eapply mods_weaken; [exact Hm| |exact Hm'|]; unfold range; lia.
Qed.

(** Runs the next push of the goal, under [H : pushed ...], into the [n] bytes
    that [Hb] backs. *)
Ltac push_step H n Hb :=
  apply returns_bind; eapply returns_mono;
    [eapply (push_returns _ _ _ _ _ _ n); [exact H|try (cbn [length]; lia)..|exact Hb]
    |clear H; intros [? ?] H].

Lemma pop_words m sp w ws :
  words m sp (w :: ws) → 0 ≤ sp → sp + 8 < 2 ^ 64 →
  pop m sp = Ok (w, sp + 8) ∧ words m (sp + 8) ws.
Proof. intros [Hw Hws] ??. unfold pop. rewrite Hw, bind_ok, u64_id by lia. done. Qed.
