(* ===== verification/LibString.v ===== *)
(** kernel/lib/string.c: the freestanding memory primitives [memset], [memcpy],
    [memmove] and [memcmp], as byte loops over the kernel's memory.  Each
    returns its C result beside the new memory.  The theorems give what each
    leaves in memory, on overlapping ranges too for [memmove]. *)

From stdpp Require Import base list gmap sets.
From Stdlib Require Import ZArith Lia.
From S2P Require Import Prelude.
From S2P Require Import Mem.

Implicit Types (m : mem) (dest src value count a b i x : Z).

(** * The code *)

Definition memset m dest value count : outcome (mem * Z) :=
  m' ← for_each 0 count (λ i m, store8 m (dest + i) value) m;
  Ok (m', dest).

(** One round of the copy loops: [d[i] = s[i]]. *)
Definition copy_byte dest src i m : outcome mem :=
  c ← load8 m (src + i);
  store8 m (dest + i) c.

Definition memcpy m dest src count : outcome (mem * Z) :=
  m' ← for_each 0 count (copy_byte dest src) m;
  Ok (m', dest).

Definition memmove m dest src count : outcome (mem * Z) :=
  m' ← (if dest <? src then
          for_each 0 count (copy_byte dest src) m
        else if src <? dest then
          (* for (size_t i = count; i > 0; i--) d[i - 1] = s[i - 1]; *)
          loop (λ '(i, m),
            if 0 <? i then m' ← copy_byte dest src (i - 1) m; Ok (inl (i - 1, m'))
            else Ok (inr m)) (count, m)
        else Ok m);
  Ok (m', dest).

Definition memcmp m a b count : outcome Z :=
  r ← for_loop 0 count (λ i (_ : unit),
        pa ← load8 m (a + i);
        pb ← load8 m (b + i);
        if pa =? pb then Ok (inl ()) else Ok (inr (pa - pb))) ();
  match r with inl _ => Ok 0 | inr d => Ok d end.

(** * Lemmas *)

Lemma copy_byte_returns m dest src i :
  backed m (src + i) 1 → backed m (dest + i) 1 →
  returns (copy_byte dest src i m) (λ m',
    mods (range (dest + i) 1) m m' ∧ load8 m' (dest + i) = load8 m (src + i)).
Proof.
  intros Hs Hd. unfold copy_byte.
  destruct (returns_inv _ _ (load8_returns m (src + i) Hs)) as (c & -> & Hc). simpl.
  eapply returns_mono; [by apply store8_returns|].
  intros m' [Hm Hl]. by rewrite Hl, u8_id.
Qed.

Lemma backed_byte m a len i : backed m a len → 0 ≤ i < len → backed m (a + i) 1.
Proof. intros Hb ?. eapply backed_sub; [done|lia..]. Qed.

(** The loop invariant of an upward copy: bytes below [i] are copied, source
    bytes from [i] on still hold their original value. *)
Lemma copy_up_returns m0 dest src count :
  0 ≤ count < 2 ^ 64 → backed m0 src count → backed m0 dest count →
  dest < src ∨ apart dest count src count →
  returns (for_each 0 count (copy_byte dest src) m0) (λ m',
    mods (range dest count) m0 m' ∧
    ∀ i, 0 ≤ i < count → load8 m' (dest + i) = load8 m0 (src + i)).
Proof.
  intros Hc Hs Hd Hov.
  eapply returns_mono; [apply (for_each_rule (λ i m,
    mods (range dest i) m0 m ∧
    ∀ j, 0 ≤ j < i → load8 m (dest + j) = load8 m0 (src + j)))|]; [lia|lia|..].
  - split; [done|lia].
  - intros i m Hi [Hm Hj].
    pose proof (mods_backed _ _ _ _ _ Hm Hs). pose proof (mods_backed _ _ _ _ _ Hm Hd).
    eapply returns_mono; [apply copy_byte_returns; by eapply backed_byte|].
    intros m' [Hm' Hl]. split.
    { eapply mods_trans; (eapply mods_weaken; [done|]); unfold range; lia. }
    intros j Hlt. destruct (decide (j = i)) as [->|].
    + rewrite Hl. eapply load8_mods; [done|]. unfold range, apart in *. lia.
    + rewrite <- Hj by lia. eapply load8_mods; [done|]. unfold range. lia.
  - done.
Qed.

Lemma copy_down_returns m0 dest src count :
  0 ≤ count < 2 ^ 64 → backed m0 src count → backed m0 dest count → src < dest →
  returns (loop (λ '(i, m),
      if 0 <? i then m' ← copy_byte dest src (i - 1) m; Ok (inl (i - 1, m'))
      else Ok (inr m)) (count, m0)) (λ m',
    mods (range dest count) m0 m' ∧
    ∀ i, 0 ≤ i < count → load8 m' (dest + i) = load8 m0 (src + i)).
Proof.
  intros Hc Hs Hd Hov.
  apply (loop_rule (λ '(i, m), 0 ≤ i ≤ count ∧
    mods (range (dest + i) (count - i)) m0 m ∧
    ∀ j, i ≤ j < count → load8 m (dest + j) = load8 m0 (src + j)) _ fst); simpl; [|lia|].
  - split; [lia|]. split; [done|lia].
  - intros [i m] (Hi & Hm & Hj). destruct (Z.ltb_spec 0 i); simpl.
    + pose proof (mods_backed _ _ _ _ _ Hm Hs). pose proof (mods_backed _ _ _ _ _ Hm Hd).
      ret_step copy_byte_returns; [eapply backed_byte; [done|lia]..|].
      intros m' [Hm' Hl]. simpl. split; [|lia]. split; [lia|]. split.
      { eapply mods_trans; (eapply mods_weaken; [done|]); unfold range; lia. }
      intros j Hlt. destruct (decide (j = i - 1)) as [->|].
      * rewrite Hl. eapply load8_mods; [done|]. unfold range. lia.
      * rewrite <- Hj by lia. eapply load8_mods; [done|]. unfold range. lia.
    + replace i with 0 in * by lia. split.
      * eapply mods_weaken; [done|]. unfold range. lia.
      * intros j ?. apply Hj. lia.
Qed.

Lemma memset_returns m0 dest value count :
  0 ≤ count < 2 ^ 64 → backed m0 dest count →
  returns (memset m0 dest value count) (λ '(m', r), r = dest ∧
    mods (range dest count) m0 m' ∧
    ∀ i, 0 ≤ i < count → load8 m' (dest + i) = Ok (u8 value)).
Proof.
  intros Hc Hd. unfold memset.
  ret_step (for_each_rule (λ i m,
    mods (range dest i) m0 m ∧
    ∀ j, 0 ≤ j < i → load8 m (dest + j) = Ok (u8 value))); [lia|lia|..].
  - split; [done|lia].
  - intros i m Hi [Hm Hj].
    pose proof (mods_backed _ _ _ _ _ Hm Hd).
    eapply returns_mono; [apply store8_returns; by eapply backed_byte|].
    intros m' [Hm' Hl]. split.
    { eapply mods_trans; (eapply mods_weaken; [done|]); unfold range; lia. }
    intros j Hlt. destruct (decide (j = i)) as [->|]; [done|].
    rewrite <- (Hj j) by lia. eapply load8_mods; [done|]. unfold range. lia.
  - intros m' Hm'. done.
Qed.

(** All three writers return their first argument. *)
Lemma returns_dest (o : outcome (mem * Z)) dest (Q : mem → Prop) :
  returns o (λ '(m', r), r = dest ∧ Q m') → ∃ m', o = Ok (m', dest) ∧ Q m'.
Proof. intros ([m' r] & -> & -> & H)%returns_inv. by exists m'. Qed.

Lemma memcmp_returns m a b count :
  0 ≤ count < 2 ^ 64 → backed m a count → backed m b count →
  returns (memcmp m a b count) (λ r,
    (r = 0 ∧ ∀ i, 0 ≤ i < count → load8 m (a + i) = load8 m (b + i)) ∨
    ∃ i va vb, 0 ≤ i < count ∧
      (∀ j, 0 ≤ j < i → load8 m (a + j) = load8 m (b + j)) ∧
      load8 m (a + i) = Ok va ∧ load8 m (b + i) = Ok vb ∧ va ≠ vb ∧ r = va - vb).
Proof.
  intros Hc Ha Hb. unfold memcmp.
  ret_step (for_loop_rule
    (λ i (_ : unit), ∀ j, 0 ≤ j < i → load8 m (a + j) = load8 m (b + j))
    (λ r, ∃ i va vb, 0 ≤ i < count ∧
      (∀ j, 0 ≤ j < i → load8 m (a + j) = load8 m (b + j)) ∧
      load8 m (a + i) = Ok va ∧ load8 m (b + i) = Ok vb ∧ va ≠ vb ∧ r = va - vb));
    [lia..| |].
  - intros i [] Hi Hj.
    destruct (returns_inv _ _ (load8_returns m (a + i) (backed_byte _ _ _ _ Ha Hi)))
      as (va & Hva & _).
    destruct (returns_inv _ _ (load8_returns m (b + i) (backed_byte _ _ _ _ Hb Hi)))
      as (vb & Hvb & _).
    rewrite Hva, Hvb. simpl. destruct (Z.eqb_spec va vb) as [<-|]; simpl.
    + intros j ?. destruct (decide (j = i)) as [->|]; [congruence|]. apply Hj. lia.
    + by exists i, va, vb.
  - intros [u|r]; simpl; intros Hr; [left|right]; done.
Qed.

(** * What the primitives promise *)

(** [memset] ends for every [count], returns its first argument, fills
    exactly the [count] bytes at [dest] with the low byte of [value] and leaves
    every other byte of memory alone. *)
Theorem memset_correct m dest value count :
  0 ≤ count < 2 ^ 64 → backed m dest count →
  ∃ m', memset m dest value count = Ok (m', dest) ∧
    mods (range dest count) m m' ∧
    ∀ i, 0 ≤ i < count → load8 m' (dest + i) = Ok (u8 value).
Proof.
  intros Hc Hd.
  apply (returns_dest _ _ _ (memset_returns m dest value count Hc Hd)).
Qed.

Lemma memset_correct_witness :
  backed (ram_fill 100 4 ∅) 101 3 ∧
  ∃ m', memset (ram_fill 100 4 ∅) 101 (-1) 3 = Ok (m', 101) ∧
    mods (range 101 3) (ram_fill 100 4 ∅) m' ∧
    ∀ i, 0 ≤ i < 3 → load8 m' (101 + i) = Ok (u8 (-1)).
Proof.
  assert (backed (ram_fill 100 4 ∅) 101 3) as Hb by (apply ram_fill_backed; lia).
  split; [exact Hb|]. apply (memset_correct (ram_fill 100 4 ∅) 101 (-1) 3); [lia|exact Hb].
Defined.

(** C37. [memmove] copies the [count] bytes at [src] to [dest] however the two
    ranges overlap: afterwards byte [i] of [dest] is what byte [i] of [src] was
    before the call, and no byte outside the destination changed. *)
Theorem memmove_correct m dest src count :
  0 ≤ count < 2 ^ 64 → backed m dest count → backed m src count →
  ∃ m', memmove m dest src count = Ok (m', dest) ∧
    mods (range dest count) m m' ∧
    ∀ i, 0 ≤ i < count → load8 m' (dest + i) = load8 m (src + i).
Proof.
  intros Hc Hd Hs.
  enough (returns (memmove m dest src count) (λ '(m', r), r = dest ∧
    mods (range dest count) m m' ∧
    ∀ i, 0 ≤ i < count → load8 m' (dest + i) = load8 m (src + i))) as Hr.
  { apply (returns_dest _ _ _ Hr). }
  unfold memmove. destruct (Z.ltb_spec dest src); [|destruct (Z.ltb_spec src dest)].
  - ret_step copy_up_returns; [done..|by left|]. done.
  - ret_step copy_down_returns; [done..|]. done.
  - simpl. split; [done|]. split; [done|]. intros i ?. do 2 f_equal. lia.
Qed.

Definition abcd : mem := <[100 := 1]> (<[101 := 2]> (<[102 := 3]> (<[103 := 4]> ∅))).

Lemma abcd_backed a len : 100 ≤ a → a + len ≤ 104 → backed abcd a len.
Proof.
  intros ?? x Hx. unfold range in Hx.
  assert (x = 100 ∨ x = 101 ∨ x = 102 ∨ x = 103) as [->|[->|[->| ->]]] by lia; by eexists.
Qed.

Lemma memmove_correct_witness :
  (∃ m', memmove abcd 101 100 3 = Ok (m', 101) ∧
    mods (range 101 3) abcd m' ∧
    ∀ i, 0 ≤ i < 3 → load8 m' (101 + i) = load8 abcd (100 + i)) ∧
  returns (memmove abcd 101 100 3) (λ '(m', _), load8 m' 102 = Ok 2).
Proof.
  split; [|by vm_compute].
  apply (memmove_correct abcd 101 100 3); [lia|apply abcd_backed; lia..].
Defined.

(** [memcpy] does the same when the two ranges do not overlap (its
    [restrict] contract). *)
Theorem memcpy_correct m dest src count :
  0 ≤ count < 2 ^ 64 → backed m dest count → backed m src count →
  apart dest count src count →
  ∃ m', memcpy m dest src count = Ok (m', dest) ∧
    mods (range dest count) m m' ∧
    ∀ i, 0 ≤ i < count → load8 m' (dest + i) = load8 m (src + i).
Proof.
  intros Hc Hd Hs Hap.
  enough (returns (memcpy m dest src count) (λ '(m', r), r = dest ∧
    mods (range dest count) m m' ∧
    ∀ i, 0 ≤ i < count → load8 m' (dest + i) = load8 m (src + i))) as Hr.
  { apply (returns_dest _ _ _ Hr). }
  unfold memcpy. ret_step copy_up_returns; [done..|by right|]. done.
Qed.

Lemma memcpy_correct_witness :
  ∃ m', memcpy abcd 102 100 2 = Ok (m', 102) ∧
    mods (range 102 2) abcd m' ∧
    ∀ i, 0 ≤ i < 2 → load8 m' (102 + i) = load8 abcd (100 + i).
Proof.
  apply (memcpy_correct abcd 102 100 2);
    [lia|apply abcd_backed; lia..|unfold apart; lia].
Defined.

(** [memcmp] answers 0 exactly when the two ranges hold the same bytes, and
    otherwise the difference of the first pair of bytes that differ. *)
Theorem memcmp_correct m a b count :
  0 ≤ count < 2 ^ 64 → backed m a count → backed m b count →
  ∃ r, memcmp m a b count = Ok r ∧
    (r = 0 ↔ ∀ i, 0 ≤ i < count → load8 m (a + i) = load8 m (b + i)) ∧
    (r ≠ 0 → ∃ i va vb, 0 ≤ i < count ∧
      (∀ j, 0 ≤ j < i → load8 m (a + j) = load8 m (b + j)) ∧
      load8 m (a + i) = Ok va ∧ load8 m (b + i) = Ok vb ∧ r = va - vb).
Proof.
  intros Hc Ha Hb.
  destruct (returns_inv _ _ (memcmp_returns m a b count Hc Ha Hb)) as (r & -> & Hr).
  exists r. split; [done|].
  destruct Hr as [[-> Heq]|(i & va & vb & Hi & Hpre & Hva & Hvb & Hne & ->)].
  - split; [done|]. done.
  - split; [split|].
    + lia.
    + intros Heq. specialize (Heq i Hi). congruence.
    + intros _. by exists i, va, vb.
Qed.

Lemma memcmp_correct_witness :
  ∃ r, memcmp abcd 100 102 2 = Ok r ∧
    (r = 0 ↔ ∀ i, 0 ≤ i < 2 → load8 abcd (100 + i) = load8 abcd (102 + i)) ∧
    (r ≠ 0 → ∃ i va vb, 0 ≤ i < 2 ∧
      (∀ j, 0 ≤ j < i → load8 abcd (100 + j) = load8 abcd (102 + j)) ∧
      load8 abcd (100 + i) = Ok va ∧ load8 abcd (102 + i) = Ok vb ∧ r = va - vb).
Proof.
  apply (memcmp_correct abcd 100 102 2); [lia|apply abcd_backed; lia..].
Defined.
