(* ===== verification/Pmm.v ===== *)
(** kernel/core/mm/pmm.c: the physical frame allocator.

    [pmm_state] holds the file's static variables; the bitmap itself lives in
    [mem], at the address the static pointer holds.  The abstract view is a pair
    of sets of frame indices: [U], the frames of usable RAM, and [F ⊆ U], the
    free ones; [pmm_rep] ties the two together and every operation refines the
    obvious operation on [F]. *)

From stdpp Require Import base list gmap sets.
From Stdlib Require Import ZArith Lia.
From S2P Require Import Prelude.
From S2P Require Import Mem.
From S2P Require Import LibString.

(** * Boot data handed over by Limine *)

(** One entry of the memory map (the fields pmm.c and its clients read).  The
    structures come from limine.h, which is not part of the repository; so does
    the value of the type tag, a parameter here. *)
Record limine_memmap_entry := {
  base : Z;
  length_ : Z;
  type : Z;
}.

Class Limine := LIMINE_MEMMAP_USABLE : Z.

(** * State *)

Definition PMM_FRAME_SIZE : Z := 4096.

Record pmm_state := {
  bitmap : Z;          (* virtual address of the first byte *)
  bitmap_bytes : Z;
  total_frames : Z;
  usable_frames : Z;
  free_frames : Z;
  next_hint : Z;
}.

Definition set_free (ps : pmm_state) (n h : Z) : pmm_state := {|
  bitmap := bitmap ps; bitmap_bytes := bitmap_bytes ps;
  total_frames := total_frames ps; usable_frames := usable_frames ps;
  free_frames := n; next_hint := h |}.

Implicit Types (ps : pmm_state) (m : mem) (i j phys : Z) (F U : gset Z).

(** * Bit helpers *)

Definition bit_set ps m i : outcome mem :=
  b ← load8 m (bitmap ps + i / 8);
  store8 m (bitmap ps + i / 8) (Z.lor b (u8 (Z.shiftl 1 (i mod 8)))).

Definition bit_clear ps m i : outcome mem :=
  b ← load8 m (bitmap ps + i / 8);
  store8 m (bitmap ps + i / 8) (Z.land b (u8 (u32 (Z.lnot (Z.shiftl 1 (i mod 8)))))).

Definition bit_test ps m i : outcome bool :=
  b ← load8 m (bitmap ps + i / 8);
  Ok (negb (Z.land (Z.shiftr b (i mod 8)) 1 =? 0)).

(** * Init *)

Section init.
Context `{!Limine}.

Definition usable (e : limine_memmap_entry) : bool := type e =? LIMINE_MEMMAP_USABLE.

(** Pass 1: the end of the highest usable region. *)
Definition raise_top (highest_addr : Z) (e : limine_memmap_entry) : Z :=
  if usable e then
    let top := u64 (base e + length_ e) in
    if highest_addr <? top then top else highest_addr
  else highest_addr.

Definition highest_top (memmap : list limine_memmap_entry) : Z := foldl raise_top 0 memmap.

(** Pass 2: the base of the first usable region that can hold the bitmap; 0
    when there is none. *)
Fixpoint bitmap_region (bytes : Z) (memmap : list limine_memmap_entry) : Z :=
  match memmap with
  | [] => 0
  | e :: rest =>
      if usable e && (bytes <=? length_ e) then base e else bitmap_region bytes rest
  end.

(** Pass 3: clear the bit of every usable frame, counting the frames. *)
Fixpoint clear_usable ps (memmap : list limine_memmap_entry) (acc : mem * Z)
  : outcome (mem * Z) :=
  match memmap with
  | [] => Ok acc
  | e :: rest =>
      if usable e then
        let start := base e / PMM_FRAME_SIZE in
        let count := length_ e / PMM_FRAME_SIZE in
        acc' ← for_each 0 count (λ f '(m, n),
                 m' ← bit_clear ps m (start + f);
                 Ok (m', u64 (n + 1))) acc;
        clear_usable ps rest acc'
      else clear_usable ps rest acc
  end.

(** Pass 4: take the bitmap's own frames back. *)
Definition reserve_bitmap ps (bitmap_phys : Z) (acc : mem * Z) : outcome (mem * Z) :=
  let bitmap_first := bitmap_phys / PMM_FRAME_SIZE in
  let bitmap_count := u64 (bitmap_bytes ps + PMM_FRAME_SIZE - 1) / PMM_FRAME_SIZE in
  for_each 0 bitmap_count (λ f '(m, n),
    m' ← bit_set ps m (bitmap_first + f);
    Ok (m', u64 (n - 1))) acc.

Definition pmm_init (memmap : list limine_memmap_entry) (hhdm_offset : Z) m
  : outcome (pmm_state * mem) :=
  let total := highest_top memmap / PMM_FRAME_SIZE in
  let bytes := u64 (total + 7) / 8 in
  let bitmap_phys := bitmap_region bytes memmap in
  if bitmap_phys =? 0 then Halted else
  let ps := {| bitmap := u64 (bitmap_phys + hhdm_offset); bitmap_bytes := bytes;
               total_frames := total; usable_frames := 0; free_frames := 0;
               next_hint := 0 |} in
  '(m, _) ← memset m (bitmap ps) 255 bytes;
  '(m, n) ← clear_usable ps memmap (m, 0);
  '(m, fr) ← reserve_bitmap ps bitmap_phys (m, n);
  Ok ({| bitmap := bitmap ps; bitmap_bytes := bytes; total_frames := total;
         usable_frames := n; free_frames := fr; next_hint := 0 |}, m).
End init.

(** * Allocate and free *)

Definition pmm_alloc_frame ps m : outcome (pmm_state * mem * Z) :=
  if free_frames ps =? 0 then Ok (ps, m, 0) else
  r ← for_loop 0 2 (λ pass (_ : unit),
        let start := if pass =? 0 then next_hint ps else 0 in
        let end_ := if pass =? 0 then total_frames ps else next_hint ps in
        for_loop start end_ (λ i (_ : unit),
          t ← bit_test ps m i;
          if (t : bool) then Ok (inl ()) else
            m' ← bit_set ps m i;
            Ok (inr (set_free ps (u64 (free_frames ps - 1)) (u64 (i + 1)), m',
                     u64 (i * PMM_FRAME_SIZE)))) ()) ();
  match r with
  | inl _ => Ok (ps, m, 0)
  | inr x => Ok x
  end.

Definition pmm_free_frame ps m phys : outcome (pmm_state * mem) :=
  let i := phys / PMM_FRAME_SIZE in
  t ← bit_test ps m i;
  if negb t then Ok (ps, m) else
  m' ← bit_clear ps m i;
  Ok (set_free ps (u64 (free_frames ps + 1))
        (if i <? next_hint ps then i else next_hint ps), m').

Definition pmm_claim_frame ps m phys : outcome (pmm_state * mem * bool) :=
  let i := phys / PMM_FRAME_SIZE in
  if total_frames ps <=? i then Ok (ps, m, false) else
  t ← bit_test ps m i;
  if (t : bool) then Ok (ps, m, false) else
  m' ← bit_set ps m i;
  Ok (set_free ps (u64 (free_frames ps - 1)) (next_hint ps), m', true).

(** The three out-parameters [total], [used], [free]. *)
Definition pmm_get_stats ps : Z * Z * Z :=
  (usable_frames ps, u64 (usable_frames ps - free_frames ps), free_frames ps).

(** * Abstract view *)

(** [U]: the usable frames, [F]: the free ones.  The static counters are the
    sizes of the two sets and every bit of the bitmap that stands for a frame
    below [total_frames] is clear exactly for the members of [F]. *)
Record pmm_rep ps m U F : Prop := {
  rep_total : 0 ≤ total_frames ps ≤ 2 ^ 52;
  rep_bytes : total_frames ps ≤ 8 * bitmap_bytes ps;
  rep_backed : backed m (bitmap ps) (bitmap_bytes ps);
  rep_bits : ∀ i, 0 ≤ i < total_frames ps → bit_test ps m i = Ok (bool_decide (i ∉ F));
  rep_sub : F ⊆ U;
  rep_range : ∀ i, i ∈ U → 0 < i < total_frames ps;
  rep_free : free_frames ps = Z.of_nat (size F);
  rep_usable : usable_frames ps = Z.of_nat (size U);
  rep_hint : 0 ≤ next_hint ps ≤ total_frames ps;
}.

(** The bytes of the bitmap. *)
Definition bitmap_area ps : Z → Prop := range (bitmap ps) (bitmap_bytes ps).

(** What the clients of the frame allocator need: the direct map reaches the free frames and the
    frame bitmap lies elsewhere. *)
Record arena ps m (hhdm : Z) F : Prop := {
  ar_hhdm : 0 ≤ hhdm;
  ar_frames : ∀ f, f ∈ F →
    (f + 1) * PMM_FRAME_SIZE + hhdm ≤ 2 ^ 64 ∧
    backed m (f * PMM_FRAME_SIZE + hhdm) PMM_FRAME_SIZE ∧
    ∀ x, range (f * PMM_FRAME_SIZE + hhdm) PMM_FRAME_SIZE x → ¬ bitmap_area ps x;
}.

(** The frame the allocator picks: the lowest free one from the hint on, or,
    when there is none, the lowest free one. *)
Definition first_fit (hint : Z) F i : Prop :=
  i ∈ F ∧ ((hint ≤ i ∧ ∀ j, j ∈ F → hint ≤ j → i ≤ j) ∨
           (i < hint ∧ (∀ j, j ∈ F → j < hint) ∧ ∀ j, j ∈ F → i ≤ j)).

(** ** Bits *)

Lemma bit_test_eq ps m i b :
  load8 m (bitmap ps + i / 8) = Ok b → bit_test ps m i = Ok (Z.testbit b (i mod 8)).
Proof.
  intros Hl. unfold bit_test. rewrite Hl. simpl.
  rewrite testbit_shiftr_land by (apply Z.mod_pos_bound; lia).
  by destruct (Z.testbit b (i mod 8)).
Qed.

Lemma byte_of_frame ps m i :
  backed m (bitmap ps) (bitmap_bytes ps) → 0 ≤ i < 8 * bitmap_bytes ps →
  backed m (bitmap ps + i / 8) 1.
Proof.
  intros Hb Hi. eapply backed_sub; [done|..].
  - pose proof (Z.div_pos i 8). lia.
  - assert (i / 8 < bitmap_bytes ps) by (apply Z.div_lt_upper_bound; lia). lia.
Qed.

(** Rewriting one bit of the bitmap: what [bit_set] and [bit_clear] have in
    common. *)
Lemma bit_write_returns ps m i (f : Z → Z) (v : bool) :
  backed m (bitmap ps) (bitmap_bytes ps) → 0 ≤ i < 8 * bitmap_bytes ps →
  (∀ b k, 0 ≤ k < 8 →
    Z.testbit (u8 (f b)) k = if decide (k = i mod 8) then v else Z.testbit b k) →
  returns (b ← load8 m (bitmap ps + i / 8); store8 m (bitmap ps + i / 8) (f b))
    (λ m', mods (bitmap_area ps) m m' ∧
       ∀ j, bit_test ps m' j = if decide (j = i) then Ok v else bit_test ps m j).
Proof.
  intros Hb Hi Hf. pose proof (byte_of_frame ps m i Hb Hi) as Hbi.
  destruct (returns_inv _ _ (load8_returns _ _ Hbi)) as (b & Hl & _). rewrite Hl. simpl.
  eapply returns_mono; [by apply store8_returns|]. intros m' [Hm Hl'].
  pose proof (Z.div_pos i 8). pose proof (Z.div_mod i 8).
  assert (i / 8 < bitmap_bytes ps) by (apply Z.div_lt_upper_bound; lia).
  split. { eapply mods_weaken; [done|]. unfold bitmap_area, range. lia. }
  intros j. pose proof (Z.div_mod j 8). pose proof (Z.mod_pos_bound j 8).
  destruct (decide (j / 8 = i / 8)) as [Hq|Hq].
  - rewrite <- Hq in Hl, Hl'. rewrite (bit_test_eq _ m' _ _ Hl'), (bit_test_eq _ m _ _ Hl).
    rewrite Hf by lia. repeat case_decide; subst; try done; lia.
  - rewrite decide_False by congruence.
    unfold bit_test. erewrite load8_mods; [done..|]. unfold range. lia.
Qed.

Lemma bit_set_returns ps m i :
  backed m (bitmap ps) (bitmap_bytes ps) → 0 ≤ i < 8 * bitmap_bytes ps →
  returns (bit_set ps m i) (λ m', mods (bitmap_area ps) m m' ∧
    ∀ j, bit_test ps m' j = if decide (j = i) then Ok true else bit_test ps m j).
Proof.
  intros Hb Hi. apply bit_write_returns; [done..|]. intros b k Hk.
  pose proof (Z.mod_pos_bound i 8).
  rewrite testbit_u8, Z.lor_spec, testbit_u8, Z.shiftl_1_l by lia.
  case_decide as Hd; [subst k; by rewrite Z.pow2_bits_true, orb_true_r by lia|].
  by rewrite Z.pow2_bits_false, orb_false_r by lia.
Qed.

Lemma u8_u32 x : u8 (u32 x) = u8 x.
Proof. unfold u8, u32. rewrite <- Z.land_ones, <- !Z.land_ones by lia.
  by rewrite <- Z.land_assoc. Qed.

Lemma bit_clear_returns ps m i :
  backed m (bitmap ps) (bitmap_bytes ps) → 0 ≤ i < 8 * bitmap_bytes ps →
  returns (bit_clear ps m i) (λ m', mods (bitmap_area ps) m m' ∧
    ∀ j, bit_test ps m' j = if decide (j = i) then Ok false else bit_test ps m j).
Proof.
  intros Hb Hi. apply bit_write_returns; [done..|]. intros b k Hk.
  pose proof (Z.mod_pos_bound i 8).
  rewrite testbit_u8, u8_u32, testbit_land_unbit by lia.
  case_decide as Hd; [subst k; by rewrite bool_decide_true|].
  by rewrite bool_decide_false by congruence.
Qed.

(** ** The representation under updates *)

Lemma rep_free_bound ps m U F : pmm_rep ps m U F → 0 ≤ free_frames ps < 2 ^ 52 + 1.
Proof.
  intros R. rewrite (rep_free _ _ _ _ R). split; [lia|].
  pose proof (rep_total _ _ _ _ R).
  pose proof (size_bounded F 0 (total_frames ps) ltac:(lia)) as Hs.
  enough (Z.of_nat (size F) ≤ total_frames ps) by lia.
  rewrite Z.sub_0_r in Hs. apply Hs. intros x Hx.
  pose proof (rep_range _ _ _ _ R x (rep_sub _ _ _ _ R x Hx)). lia.
Qed.

Lemma rep_mods P ps m m' U F :
  pmm_rep ps m U F → mods P m m' → (∀ x, P x → ¬ bitmap_area ps x) → pmm_rep ps m' U F.
Proof.
  intros R Hm HP. destruct R. split; try done.
  - by eapply mods_backed.
  - intros i Hi. rewrite <- rep_bits0 by done.
    unfold bit_test. erewrite load8_mods; [done..|]. intros Hx. apply (HP _ Hx).
    pose proof (Z.div_pos i 8). pose proof (Z.div_lt_upper_bound i 8 (bitmap_bytes ps)).
    unfold bitmap_area, range. lia.
Qed.

Lemma rep_take ps m m' U F i h :
  pmm_rep ps m U F → i ∈ F → mods (bitmap_area ps) m m' →
  (∀ j, bit_test ps m' j = if decide (j = i) then Ok true else bit_test ps m j) →
  0 ≤ h ≤ total_frames ps →
  pmm_rep (set_free ps (u64 (free_frames ps - 1)) h) m' U (F ∖ {[i]}).
Proof.
  intros R Hi Hm Hbit Hh. pose proof (rep_free_bound _ _ _ _ R).
  destruct R. split; simpl; try done.
  - by eapply mods_backed.
  - intros j Hj. change (bit_test _ m' j) with (bit_test ps m' j).
    rewrite Hbit. case_decide; [subst|rewrite rep_bits0 by done]; f_equal.
    + symmetry. apply bool_decide_eq_true. clear. set_solver.
    + apply bool_decide_ext. by rewrite not_elem_of_difference, elem_of_singleton; tauto.
  - clear -rep_sub0. set_solver.
  - rewrite size_remove, <- rep_free0 by done. apply u64_id.
    enough (free_frames ps ≠ 0) by lia. rewrite rep_free0.
    intros H0. assert (size F = 0%nat) as H1 by lia.
    apply size_empty_inv in H1. clear -H1 Hi. set_solver.
Qed.

Lemma rep_give ps m m' U F i h :
  pmm_rep ps m U F → i ∈ U → i ∉ F → mods (bitmap_area ps) m m' →
  (∀ j, bit_test ps m' j = if decide (j = i) then Ok false else bit_test ps m j) →
  0 ≤ h ≤ total_frames ps →
  pmm_rep (set_free ps (u64 (free_frames ps + 1)) h) m' U ({[i]} ∪ F).
Proof.
  intros R HiU Hi Hm Hbit Hh. pose proof (rep_free_bound _ _ _ _ R).
  destruct R. split; simpl; try done.
  - by eapply mods_backed.
  - intros j Hj. change (bit_test _ m' j) with (bit_test ps m' j).
    rewrite Hbit. case_decide; [subst|rewrite rep_bits0 by done]; f_equal.
    + symmetry. apply bool_decide_eq_false. clear. set_solver.
    + apply bool_decide_ext. by rewrite not_elem_of_union, not_elem_of_singleton; tauto.
  - clear -rep_sub0 HiU. set_solver.
  - rewrite size_insert, <- rep_free0 by done. apply u64_id. lia.
Qed.

(** ** Operations *)

(** One pass of the first-fit scan. *)
Lemma scan_returns ps m U F start end_ :
  pmm_rep ps m U F → 0 ≤ start ≤ end_ → end_ ≤ total_frames ps →
  returns (for_loop start end_ (λ i (_ : unit),
      t ← bit_test ps m i;
      if (t : bool) then Ok (inl ()) else
        m' ← bit_set ps m i;
        Ok (inr (set_free ps (u64 (free_frames ps - 1)) (u64 (i + 1)), m',
                 u64 (i * PMM_FRAME_SIZE)))) ())
    (λ r, match r with
     | inl _ => ∀ j, j ∈ F → start ≤ j < end_ → False
     | inr (ps', m', phys) => ∃ i, i ∈ F ∧ start ≤ i < end_ ∧
         (∀ j, j ∈ F → start ≤ j → i ≤ j) ∧ phys = i * PMM_FRAME_SIZE ∧
         pmm_rep ps' m' U (F ∖ {[i]}) ∧ mods (bitmap_area ps) m m' ∧ next_hint ps' = i + 1 ∧ bitmap_area ps' = bitmap_area ps
     end).
Proof.
  intros R Hs He. pose proof (rep_total _ _ _ _ R).
  eapply returns_mono; [apply (for_loop_rule
    (λ i (_ : unit), ∀ j, j ∈ F → start ≤ j < i → False)
    (λ '(ps', m', phys), ∃ i, i ∈ F ∧ start ≤ i < end_ ∧
         (∀ j, j ∈ F → start ≤ j → i ≤ j) ∧ phys = i * PMM_FRAME_SIZE ∧
         pmm_rep ps' m' U (F ∖ {[i]}) ∧ mods (bitmap_area ps) m m' ∧
         next_hint ps' = i + 1 ∧ bitmap_area ps' = bitmap_area ps))|]; [lia|lia|..].
  - intros j _ Hj. lia.
  - intros i [] Hi Hnone. rewrite (rep_bits _ _ _ _ R) by lia. simpl.
    case_bool_decide as Hin; simpl.
    + intros j Hj Hlt. destruct (decide (j = i)) as [->|]; [done|].
      eapply Hnone; [done|]. lia.
    + ret_step bit_set_returns; [by eapply rep_backed|pose proof (rep_bytes _ _ _ _ R); lia|].
      intros m' [Hm Hbit]. simpl. exists i. split; [done|]. split; [done|]. split.
      { intros j Hj Hlt. destruct (decide (i ≤ j)); [done|].
        exfalso. eapply Hnone; [done|]. lia. }
      unfold PMM_FRAME_SIZE.
      rewrite (u64_id (i * 4096)), (u64_id (i + 1)) by lia. split; [done|].
      split; [|done]. apply (rep_take ps m); try done. lia.
  - intros [[]|[[ps' m'] phys]]; done.
Qed.

Lemma pmm_alloc_frame_returns ps m U F :
  pmm_rep ps m U F →
  returns (pmm_alloc_frame ps m) (λ '(ps', m', phys),
    (F = ∅ ∧ phys = 0 ∧ ps' = ps ∧ m' = m) ∨
    ∃ i, first_fit (next_hint ps) F i ∧ phys = i * PMM_FRAME_SIZE ∧ phys ≠ 0 ∧
      pmm_rep ps' m' U (F ∖ {[i]}) ∧ mods (bitmap_area ps) m m' ∧ next_hint ps' = i + 1 ∧ bitmap_area ps' = bitmap_area ps).
Proof.
  intros R. unfold pmm_alloc_frame. destruct (Z.eqb_spec (free_frames ps) 0) as [H0|H0].
  { left. rewrite (rep_free _ _ _ _ R) in H0. repeat split.
    apply leibniz_equiv, size_empty_iff. lia. }
  pose proof (rep_hint _ _ _ _ R). pose proof (rep_total _ _ _ _ R).
  assert (∀ j, j ∈ F → 0 < j < total_frames ps) as HF.
  { intros j Hj. by apply (rep_range _ _ _ _ R), (rep_sub _ _ _ _ R). }
  ret_step (for_loop_rule
    (λ pass (_ : unit), ∀ j, j ∈ F → (1 ≤ pass → next_hint ps ≤ j → False) ∧
                              (2 ≤ pass → j < next_hint ps → False))
    (λ '(ps', m', phys),
      ∃ i, first_fit (next_hint ps) F i ∧ phys = i * PMM_FRAME_SIZE ∧ phys ≠ 0 ∧
        pmm_rep ps' m' U (F ∖ {[i]}) ∧ mods (bitmap_area ps) m m' ∧
        next_hint ps' = i + 1 ∧ bitmap_area ps' = bitmap_area ps)); [lia|lia|..].
  - intros j _. lia.
  - intros pass [] Hp Hnone. destruct (Z.eqb_spec pass 0) as [->|].
    + eapply returns_mono; [apply (scan_returns ps m U F); [done|lia..]|].
      intros [[]|[[ps' m'] phys]]; simpl.
      * intros Hn j Hj. split; [|lia]. intros _ ?. eapply Hn; [done|].
        specialize (HF j Hj). lia.
      * intros (i & Hi & Hr & Hmin & -> & R' & Hm). exists i.
        split; [split; [done|left; split; [lia|done]]|].
        split; [done|]. unfold PMM_FRAME_SIZE. specialize (HF i Hi). split; [lia|done].
    + eapply returns_mono; [apply (scan_returns ps m U F); [done|lia..]|].
      intros [[]|[[ps' m'] phys]]; simpl.
      * intros Hn j Hj. split.
        { intros _. destruct (Hnone j Hj) as [Hge _]. apply Hge. lia. }
        intros _ ?. eapply Hn; [done|]. specialize (HF j Hj). lia.
      * intros (i & Hi & Hr & Hmin & -> & R' & Hm). exists i. split.
        { split; [done|right]. split; [lia|]. split.
          - intros j Hj. destruct (decide (j < next_hint ps)); [done|].
            destruct (Hnone j Hj) as [Hge _]. exfalso. apply Hge; lia.
          - intros j Hj. apply Hmin; [done|]. specialize (HF j Hj). lia. }
        split; [done|]. unfold PMM_FRAME_SIZE. specialize (HF i Hi). split; [lia|done].
  - intros [[]|[[ps' m'] phys]]; simpl; [|by right].
    intros Hn. exfalso. apply H0. rewrite (rep_free _ _ _ _ R).
    enough (F = ∅) as -> by done. apply set_eq. intros j. split; [|set_solver].
    intros Hj. destruct (Hn j Hj) as [Hge Hlt].
    destruct (decide (j < next_hint ps)); exfalso; [by apply Hlt|apply Hge; lia].
Qed.

Lemma frame_index i : 0 ≤ i → i * PMM_FRAME_SIZE / PMM_FRAME_SIZE = i.
Proof. intros. by apply Z.div_mul. Qed.

Lemma pmm_free_frame_returns ps m U F phys :
  pmm_rep ps m U F → phys / PMM_FRAME_SIZE ∈ U →
  returns (pmm_free_frame ps m phys) (λ '(ps', m'),
    pmm_rep ps' m' U ({[phys / PMM_FRAME_SIZE]} ∪ F) ∧ mods (bitmap_area ps) m m' ∧
    (phys / PMM_FRAME_SIZE ∈ F → ps' = ps ∧ m' = m) ∧
    (phys / PMM_FRAME_SIZE ∉ F → next_hint ps' = Z.min (phys / PMM_FRAME_SIZE) (next_hint ps))).
Proof.
  intros R Hi. unfold pmm_free_frame. set (i := phys / PMM_FRAME_SIZE) in *.
  pose proof (rep_range _ _ _ _ R i Hi). pose proof (rep_hint _ _ _ _ R).
  rewrite (rep_bits _ _ _ _ R) by lia. simpl. case_bool_decide as HF; simpl.
  - ret_step bit_clear_returns; [by eapply rep_backed|pose proof (rep_bytes _ _ _ _ R); lia|].
    intros m' [Hm Hbit]. simpl. split; [|split; [done|split; [done|]]].
    + apply (rep_give ps m); try done. destruct (Z.ltb_spec i (next_hint ps)); lia.
    + intros _. destruct (Z.ltb_spec i (next_hint ps)); lia.
  - split; [|done]. by replace ({[i]} ∪ F) with F by set_solver.
Qed.

Lemma pmm_claim_frame_returns ps m U F i :
  pmm_rep ps m U F → 0 ≤ i →
  returns (pmm_claim_frame ps m (i * PMM_FRAME_SIZE)) (λ '(ps', m', b),
    b = bool_decide (i ∈ F) ∧ pmm_rep ps' m' U (F ∖ {[i]}) ∧ mods (bitmap_area ps) m m' ∧
    (b = false → ps' = ps ∧ m' = m) ∧ bitmap_area ps' = bitmap_area ps).
Proof.
  intros R Hi. unfold pmm_claim_frame. rewrite frame_index by done.
  assert (i ∉ F → F ∖ {[i]} = F) as Hnop by set_solver.
  destruct (Z.leb_spec (total_frames ps) i).
  { simpl. rewrite bool_decide_false, Hnop; [done|..];
      intros HF; pose proof (rep_range _ _ _ _ R i (rep_sub _ _ _ _ R i HF)); lia. }
  rewrite (rep_bits _ _ _ _ R) by lia. simpl. case_bool_decide as HF; simpl.
  - by rewrite bool_decide_false, Hnop.
  - ret_step bit_set_returns; [by eapply rep_backed|pose proof (rep_bytes _ _ _ _ R); lia|].
    intros m' [Hm Hbit]. simpl. rewrite bool_decide_true by done.
    split; [done|]. split; [|done]. apply (rep_take ps m); try done. apply R.
Qed.

(** ** Bringing the allocator up *)

(** The invariant of the initialisation passes: exactly the bits of [C] are
    clear, the rest of the span is set. *)
Definition bits_are ps m (C : gset Z) : Prop :=
  ∀ j, 0 ≤ j < total_frames ps → bit_test ps m j = Ok (bool_decide (j ∉ C)).

Definition frame_run (start count : Z) : gset Z := list_to_set (seqZ start count).

Lemma elem_of_frame_run start count i : i ∈ frame_run start count ↔ start ≤ i < start + count.
Proof. unfold frame_run. by rewrite elem_of_list_to_set, elem_of_seqZ. Qed.

Lemma frame_run_0 start : frame_run start 0 = ∅.
Proof. done. Qed.

Lemma frame_run_S start f : 0 ≤ f → frame_run start (f + 1) = {[start + f]} ∪ frame_run start f.
Proof.
  intros. apply set_eq. intros i.
  rewrite elem_of_union, elem_of_singleton, !elem_of_frame_run. lia.
Qed.

Lemma frame_run_size start count : 0 ≤ count → Z.of_nat (size (frame_run start count)) = count.
Proof.
  intros. unfold frame_run. rewrite size_list_to_set by apply NoDup_seqZ.
  rewrite length_seqZ. lia.
Qed.

(** Clearing a run of frames none of which is clear yet. *)
Lemma clear_run_returns ps m0 n0 C start count :
  backed m0 (bitmap ps) (bitmap_bytes ps) → bits_are ps m0 C →
  0 ≤ total_frames ps ≤ 8 * bitmap_bytes ps → total_frames ps ≤ 2 ^ 52 →
  0 ≤ start → 0 ≤ count → start + count ≤ total_frames ps →
  frame_run start count ## C → (∀ i, i ∈ C → 0 ≤ i < total_frames ps) →
  n0 = Z.of_nat (size C) →
  returns (for_each 0 count (λ f '(m, n),
      m' ← bit_clear ps m (start + f); Ok (m', u64 (n + 1))) (m0, n0))
    (λ '(m', n'), mods (bitmap_area ps) m0 m' ∧
       bits_are ps m' (C ∪ frame_run start count) ∧
       n' = Z.of_nat (size (C ∪ frame_run start count))).
Proof.
  intros Hb Hbits Ht Ht' Hs Hc Hsc Hdis HC ->.
  apply (for_each_rule (λ f '(m', n'), mods (bitmap_area ps) m0 m' ∧
       bits_are ps m' (C ∪ frame_run start f) ∧
       n' = Z.of_nat (size (C ∪ frame_run start f)))); [lia|lia|..].
  { rewrite frame_run_0, union_empty_r_L. done. }
  intros f [m n] Hf (Hm & Hbm & ->).
  assert (start + f ∉ C ∪ frame_run start f) as Hnew.
  { rewrite not_elem_of_union, elem_of_frame_run. split; [|lia].
    intros Hin. apply (Hdis (start + f)); [|done]. rewrite elem_of_frame_run. lia. }
  ret_step bit_clear_returns; [by eapply mods_backed|lia|].
  intros m' [Hm' Hbit]. simpl. split; [by eapply mods_trans|].
  rewrite frame_run_S, (union_comm_L {[start + f]}), union_assoc_L by lia.
  rewrite (union_comm_L _ {[start + f]}). split.
  - intros j Hj. rewrite Hbit. case_decide; [subst|rewrite Hbm by done]; f_equal.
    + symmetry. apply bool_decide_eq_false. rewrite elem_of_union, elem_of_singleton. tauto.
    + apply bool_decide_ext. rewrite !elem_of_union, elem_of_singleton. tauto.
  - rewrite size_insert by done. apply u64_id.
    pose proof (size_bounded (C ∪ frame_run start f) 0 (total_frames ps) ltac:(lia)) as Hsz.
    enough (Z.of_nat (size (C ∪ frame_run start f)) ≤ total_frames ps - 0) by lia.
    apply Hsz. intros i. rewrite elem_of_union, elem_of_frame_run. intros [Hi|Hi]; [by apply HC|lia].
Qed.

(** Taking back a run of frames that are all clear. *)
Lemma reserve_run_returns ps m0 n0 C start count :
  backed m0 (bitmap ps) (bitmap_bytes ps) → bits_are ps m0 C →
  0 ≤ total_frames ps ≤ 8 * bitmap_bytes ps → total_frames ps ≤ 2 ^ 52 →
  0 ≤ start → 0 ≤ count → start + count ≤ total_frames ps →
  frame_run start count ⊆ C → (∀ i, i ∈ C → 0 ≤ i < total_frames ps) →
  n0 = Z.of_nat (size C) →
  returns (for_each 0 count (λ f '(m, n),
      m' ← bit_set ps m (start + f); Ok (m', u64 (n - 1))) (m0, n0))
    (λ '(m', n'), mods (bitmap_area ps) m0 m' ∧
       bits_are ps m' (C ∖ frame_run start count) ∧
       n' = Z.of_nat (size (C ∖ frame_run start count))).
Proof.
  intros Hb Hbits Ht Ht' Hs Hc Hsc Hsub HC ->.
  apply (for_each_rule (λ f '(m', n'), mods (bitmap_area ps) m0 m' ∧
       bits_are ps m' (C ∖ frame_run start f) ∧
       n' = Z.of_nat (size (C ∖ frame_run start f)))); [lia|lia|..].
  { rewrite frame_run_0, difference_empty_L. done. }
  intros f [m n] Hf (Hm & Hbm & ->).
  assert (start + f ∈ C ∖ frame_run start f) as Hnew.
  { rewrite elem_of_difference, elem_of_frame_run. split; [|lia].
    apply Hsub. rewrite elem_of_frame_run. lia. }
  ret_step bit_set_returns; [by eapply mods_backed|lia|].
  intros m' [Hm' Hbit]. simpl. split; [by eapply mods_trans|].
  rewrite frame_run_S, (union_comm_L {[start + f]}), <- difference_difference_l_L by lia.
  split.
  - intros j Hj. rewrite Hbit. case_decide; [subst|rewrite Hbm by done]; f_equal.
    + symmetry. apply bool_decide_eq_true.
      rewrite not_elem_of_difference, elem_of_singleton. tauto.
    + apply bool_decide_ext.
      rewrite !elem_of_difference, elem_of_singleton. tauto.
  - rewrite size_remove by done. apply u64_id.
    pose proof (size_bounded (C ∖ frame_run start f) 0 (total_frames ps) ltac:(lia)) as Hsz.
    assert (Z.of_nat (size (C ∖ frame_run start f)) ≤ total_frames ps - 0) as Hle.
    { apply Hsz. intros i [Hi _]%elem_of_difference. by apply HC. }
    assert (size (C ∖ frame_run start f) ≠ 0%nat) as Hne.
    { intros H0%size_empty_inv. apply (H0 (start + f)) in Hnew. set_solver. }
    lia.
Qed.

Section init_spec.
Context `{!Limine}.
Implicit Types (e : limine_memmap_entry) (memmap : list limine_memmap_entry).

(** The frames of the usable regions, in map order. *)
Fixpoint memmap_frames memmap : list Z :=
  match memmap with
  | [] => []
  | e :: rest =>
      (if usable e then seqZ (base e / PMM_FRAME_SIZE) (length_ e / PMM_FRAME_SIZE) else [])
      ++ memmap_frames rest
  end.

(** What Limine guarantees of the regions it reports as usable: 4 KiB-aligned,
    inside the 64-bit space, above physical address 0, no two overlapping. *)
Record memmap_ok memmap : Prop := {
  mm_entries : ∀ e, e ∈ memmap → usable e = true →
    0 < base e ∧ base e mod PMM_FRAME_SIZE = 0 ∧ 0 ≤ length_ e ∧
    length_ e mod PMM_FRAME_SIZE = 0 ∧ base e + length_ e < 2 ^ 64;
  mm_disjoint : NoDup (memmap_frames memmap);
}.

(** The higher-half direct map reaches all of usable RAM. *)
Definition hhdm_backs m (hhdm_offset : Z) memmap : Prop :=
  ∀ e, e ∈ memmap → usable e = true → backed m (u64 (base e + hhdm_offset)) (length_ e).

Lemma memmap_ok_tail e memmap : memmap_ok (e :: memmap) → memmap_ok memmap.
Proof.
  intros [He Hd]. split.
  - intros e' Hin. apply He. by right.
  - simpl in Hd. by apply NoDup_app in Hd as (_ & _ & ?).
Qed.

Lemma usable_frame_range memmap e i :
  memmap_ok memmap → e ∈ memmap → usable e = true →
  base e / PMM_FRAME_SIZE ≤ i < base e / PMM_FRAME_SIZE + length_ e / PMM_FRAME_SIZE →
  0 < i ∧ (i + 1) * PMM_FRAME_SIZE ≤ base e + length_ e.
Proof.
  intros Hok Hin Hu Hi. destruct (mm_entries _ Hok e Hin Hu) as (? & ? & ? & ? & ?).
  unfold PMM_FRAME_SIZE in *. div_lia.
Qed.

(** Pass 1. *)
Lemma highest_top_spec memmap :
  memmap_ok memmap →
  0 ≤ highest_top memmap < 2 ^ 64 ∧ highest_top memmap mod PMM_FRAME_SIZE = 0 ∧
  ∀ e, e ∈ memmap → usable e = true → base e + length_ e ≤ highest_top memmap.
Proof.
  intros Hok. unfold highest_top.
  enough (∀ h, 0 ≤ h < 2 ^ 64 → h mod PMM_FRAME_SIZE = 0 →
    let r := foldl raise_top h memmap in
    h ≤ r < 2 ^ 64 ∧ r mod PMM_FRAME_SIZE = 0 ∧
    ∀ e, e ∈ memmap → usable e = true → base e + length_ e ≤ r) as Hgen.
  { destruct (Hgen 0) as (? & ? & ?); [lia|done|]. done. }
  induction memmap as [|e memmap IH]; intros h Hh Ha; simpl.
  { split; [lia|]. split; [done|]. intros e Hin. by apply not_elem_of_nil in Hin. }
  specialize (IH (memmap_ok_tail _ _ Hok)). unfold raise_top at 2 4 6 8.
  destruct (usable e) eqn:Hu.
  - destruct (mm_entries _ Hok e) as (? & ? & ? & ? & ?); [by left|done|].
    rewrite u64_id by lia.
    set (h' := if h <? base e + length_ e then base e + length_ e else h).
    assert (h ≤ h' < 2 ^ 64 ∧ base e + length_ e ≤ h' ∧ h' mod PMM_FRAME_SIZE = 0) as (? & ? & ?).
    { unfold h', PMM_FRAME_SIZE in *. destruct (Z.ltb_spec h (base e + length_ e)); div_lia. }
    destruct (IH h') as (? & ? & Hall); [lia|done|]. split; [lia|]. split; [done|].
    intros e' [->|Hin]%elem_of_cons; [lia|]. by apply Hall.
  - destruct (IH h) as (? & ? & Hall); [done..|]. split; [lia|]. split; [done|].
    intros e' [->|Hin]%elem_of_cons; [congruence|]. by apply Hall.
Qed.

(** Pass 2. *)
Lemma bitmap_region_spec bytes memmap :
  memmap_ok memmap →
  (bitmap_region bytes memmap = 0 ∧
     ∀ e, e ∈ memmap → usable e = true → length_ e < bytes) ∨
  ∃ e, e ∈ memmap ∧ usable e = true ∧ bytes ≤ length_ e ∧
    bitmap_region bytes memmap = base e ∧ base e ≠ 0.
Proof.
  induction memmap as [|e memmap IH]; intros Hok; simpl.
  { left. split; [done|]. intros e Hin. by apply not_elem_of_nil in Hin. }
  destruct (usable e) eqn:Hu; simpl; [destruct (Z.leb_spec bytes (length_ e))|].
  - right. exists e. split; [by left|]. destruct (mm_entries _ Hok e) as (? & _); [by left|done|].
    repeat split; [done..|lia].
  - destruct (IH (memmap_ok_tail _ _ Hok)) as [[Hz Hn]|(e' & ? & ?)].
    + left. split; [done|]. intros e' [->|Hin]%elem_of_cons; [lia|]. by apply Hn.
    + right. exists e'. split; [by right|done].
  - destruct (IH (memmap_ok_tail _ _ Hok)) as [[Hz Hn]|(e' & ? & ?)].
    + left. split; [done|]. intros e' [->|Hin]%elem_of_cons; [congruence|]. by apply Hn.
    + right. exists e'. split; [by right|done].
Qed.

(** Pass 3. *)
Lemma clear_usable_returns ps memmap m n C :
  memmap_ok memmap → backed m (bitmap ps) (bitmap_bytes ps) → bits_are ps m C →
  0 ≤ total_frames ps ≤ 8 * bitmap_bytes ps → total_frames ps ≤ 2 ^ 52 →
  (∀ i, i ∈ memmap_frames memmap → 0 ≤ i < total_frames ps) →
  (∀ i, i ∈ C → 0 ≤ i < total_frames ps) →
  list_to_set (memmap_frames memmap) ## C → n = Z.of_nat (size C) →
  returns (clear_usable ps memmap (m, n)) (λ '(m', n'),
    mods (bitmap_area ps) m m' ∧
    bits_are ps m' (C ∪ list_to_set (memmap_frames memmap)) ∧
    n' = Z.of_nat (size (C ∪ list_to_set (memmap_frames memmap)))).
Proof.
  revert m n C. induction memmap as [|e memmap IH]; intros m n C Hok Hb Hbits Ht Ht' Hf HC Hd ->.
  { cbn [clear_usable memmap_frames returns]. by rewrite list_to_set_nil, union_empty_r_L. }
  pose proof (memmap_ok_tail _ _ Hok) as Hok'. cbn [clear_usable memmap_frames] in *.
  destruct (usable e) eqn:Hu; [|by apply IH].
  destruct (mm_entries _ Hok e) as (? & ? & ? & ? & ?); [by left|done|].
  pose proof (mm_disjoint _ Hok) as Hnd. simpl in Hnd. rewrite Hu in Hnd.
  apply NoDup_app in Hnd as (_ & Hnd & _).
  rewrite list_to_set_app_L in *. fold (frame_run (base e / PMM_FRAME_SIZE) (length_ e / PMM_FRAME_SIZE)) in *.
  set (s := base e / PMM_FRAME_SIZE) in *. set (c := length_ e / PMM_FRAME_SIZE) in *.
  assert (0 ≤ s ∧ 0 ≤ c) as [Hs Hc] by (unfold s, c, PMM_FRAME_SIZE; div_lia).
  assert (s + c ≤ total_frames ps ∨ c = 0) as Hsc.
  { destruct (decide (c = 0)); [by right|left].
    destruct (Hf (s + c - 1)) as [_ ?]; [|lia].
    apply elem_of_app. left. apply elem_of_seqZ. lia. }
  apply returns_bind. eapply (returns_mono _ (λ '(m', n'), mods (bitmap_area ps) m m' ∧
     bits_are ps m' (C ∪ frame_run s c) ∧ n' = Z.of_nat (size (C ∪ frame_run s c)))).
  { destruct (decide (c = 0)) as [->|].
    - rewrite for_each_empty, frame_run_0, union_empty_r_L by done. done.
    - apply (clear_run_returns ps m _ C s c); try done; [lia|]. clear -Hd. set_solver. }
  intros [m1 n1] (Hm1 & Hb1 & Hn1).
  eapply returns_mono; [apply (IH m1 n1 (C ∪ frame_run s c)); try done|].
  - by eapply mods_backed.
  - intros i Hi. apply Hf, elem_of_app. by right.
  - intros i. rewrite elem_of_union, elem_of_frame_run. intros [Hi|Hi]; [by apply HC|].
    apply Hf, elem_of_app. left. by apply elem_of_seqZ.
  - intros i Hi1 [Hi2|Hi2]%elem_of_union.
    + by apply (Hd i); [apply elem_of_union; right|].
    + rewrite elem_of_frame_run in Hi2. apply (Hnd i); [by apply elem_of_seqZ|].
      by apply elem_of_list_to_set in Hi1.
  - intros [m2 n2]. rewrite union_assoc_L. intros (Hm2 & ? & ?).
    split; [by eapply mods_trans|done].
Qed.

(** [memset (bitmap, 0xFF, bitmap_bytes)] marks every frame used. *)
Lemma all_used ps m :
  total_frames ps ≤ 8 * bitmap_bytes ps →
  (∀ i, 0 ≤ i < bitmap_bytes ps → load8 m (bitmap ps + i) = Ok (u8 255)) → bits_are ps m ∅.
Proof.
  intros Ht Hl j Hj. pose proof (Z.div_mod j 8).
  rewrite (bit_test_eq _ _ _ (u8 255)) by (apply Hl; div_lia).
  f_equal. rewrite bool_decide_true by apply not_elem_of_empty.
  pose proof (Z.mod_pos_bound j 8).
  assert (j mod 8 = 0 ∨ j mod 8 = 1 ∨ j mod 8 = 2 ∨ j mod 8 = 3 ∨ j mod 8 = 4 ∨
          j mod 8 = 5 ∨ j mod 8 = 6 ∨ j mod 8 = 7) as Hk by lia.
  by destruct Hk as [->|[->|[->|[->|[->|[->|[->| ->]]]]]]].
Qed.

(** Bytes the bitmap needs for this map. *)
Definition bitmap_size memmap : Z := u64 (highest_top memmap / PMM_FRAME_SIZE + 7) / 8.

(** Frames the bitmap sits on when it starts at physical address [phys]. *)
Definition bitmap_frames (phys bytes : Z) : gset Z :=
  frame_run (phys / PMM_FRAME_SIZE) ((bytes + PMM_FRAME_SIZE - 1) / PMM_FRAME_SIZE).

Lemma elem_of_memmap_frames memmap i :
  i ∈ memmap_frames memmap ↔ ∃ e, e ∈ memmap ∧ usable e = true ∧
    base e / PMM_FRAME_SIZE ≤ i < base e / PMM_FRAME_SIZE + length_ e / PMM_FRAME_SIZE.
Proof.
  induction memmap as [|e memmap IH]; simpl.
  { split; [by intros ?%not_elem_of_nil|intros (e & ?%not_elem_of_nil & _); done]. }
  rewrite elem_of_app, IH. split.
  - intros [Hi|(e' & ? & ?)]; [|exists e'; split; [by right|done]].
    exists e. destruct (usable e) eqn:He; [|by apply not_elem_of_nil in Hi].
    apply elem_of_seqZ in Hi. split; [by left|]. split; [done|lia].
  - intros (e' & [->|Hin]%elem_of_cons & Hu & Hi); [left|right; by exists e'].
    rewrite Hu. by apply elem_of_seqZ.
Qed.

(** The bitmap spans every usable frame and fits in 2^50 bytes. *)
Lemma bitmap_span memmap :
  memmap_ok memmap →
  let total := highest_top memmap / PMM_FRAME_SIZE in
  0 ≤ total < 2 ^ 52 ∧ total ≤ 8 * bitmap_size memmap ∧ 0 ≤ bitmap_size memmap < 2 ^ 50 ∧
  (∀ e, e ∈ memmap → usable e = true →
     base e / PMM_FRAME_SIZE + length_ e / PMM_FRAME_SIZE ≤ total) ∧
  ∀ i, i ∈ memmap_frames memmap → 0 < i < total.
Proof.
  intros Hok total. destruct (highest_top_spec memmap Hok) as (Htop & Halign & Hall).
  assert (0 ≤ total < 2 ^ 52) as Ht by (unfold total, PMM_FRAME_SIZE; div_lia).
  assert (bitmap_size memmap = (total + 7) / 8) as ->.
  { unfold bitmap_size. fold total. rewrite u64_id by lia. done. }
  split; [done|]. split; [clearbody total; div_lia|]. split; [clearbody total; div_lia|].
  split.
  { intros e Hin Hu. specialize (Hall _ Hin Hu).
    destruct (mm_entries _ Hok e Hin Hu) as (_ & ? & ? & ? & _).
    unfold total, PMM_FRAME_SIZE in *. div_lia. }
  intros i (e & Hin & Hu & Hi)%elem_of_memmap_frames.
  destruct (usable_frame_range _ _ _ Hok Hin Hu Hi) as [? Hle].
  specialize (Hall _ Hin Hu). split; [done|]. unfold total, PMM_FRAME_SIZE in *. div_lia.
Qed.

(** The chosen region contains the bitmap, so its frames are usable ones. *)
Lemma bitmap_frames_usable memmap e :
  memmap_ok memmap → e ∈ memmap → usable e = true → bitmap_size memmap ≤ length_ e →
  bitmap_frames (base e) (bitmap_size memmap) ⊆ list_to_set (memmap_frames memmap).
Proof.
  intros Hok Hin Hu Hlen i Hi%elem_of_frame_run.
  destruct (mm_entries _ Hok e Hin Hu) as (_ & ? & ? & ? & _).
  apply elem_of_list_to_set, elem_of_memmap_frames. exists e. split; [done|]. split; [done|].
  unfold PMM_FRAME_SIZE in *. div_lia.
Qed.

(** The bitmap's own frames are taken off the free ones. *)
Lemma reserve_bitmap_returns ps m C phys :
  backed m (bitmap ps) (bitmap_bytes ps) → bits_are ps m C →
  0 ≤ total_frames ps ≤ 8 * bitmap_bytes ps → total_frames ps ≤ 2 ^ 52 →
  0 ≤ phys → phys mod PMM_FRAME_SIZE = 0 → 0 ≤ bitmap_bytes ps ≤ 2 ^ 52 →
  phys + bitmap_bytes ps ≤ total_frames ps * PMM_FRAME_SIZE →
  bitmap_frames phys (bitmap_bytes ps) ⊆ C → (∀ i, i ∈ C → 0 ≤ i < total_frames ps) →
  returns (reserve_bitmap ps phys (m, Z.of_nat (size C))) (λ '(m', n'),
    mods (bitmap_area ps) m m' ∧ bits_are ps m' (C ∖ bitmap_frames phys (bitmap_bytes ps)) ∧
    n' = Z.of_nat (size (C ∖ bitmap_frames phys (bitmap_bytes ps)))).
Proof.
  intros Hb Hbits Ht Ht' Hp Hal Hby Hend Hsub HC. unfold reserve_bitmap.
  rewrite u64_id by (unfold PMM_FRAME_SIZE; lia).
  apply reserve_run_returns; [done..|unfold PMM_FRAME_SIZE; div_lia|unfold PMM_FRAME_SIZE; div_lia| |exact Hsub|exact HC|done].
  clear -Hend Hal. unfold PMM_FRAME_SIZE in *. div_lia.
Qed.

Lemma pmm_init_returns memmap hhdm_offset m :
  memmap_ok memmap → hhdm_backs m hhdm_offset memmap →
  bitmap_region (bitmap_size memmap) memmap ≠ 0 →
  returns (pmm_init memmap hhdm_offset m) (λ '(ps, m'),
    let phys := bitmap_region (bitmap_size memmap) memmap in
    let U := list_to_set (memmap_frames memmap) in
    pmm_rep ps m' U (U ∖ bitmap_frames phys (bitmap_bytes ps)) ∧
    bitmap_frames phys (bitmap_bytes ps) ⊆ U ∧
    mods (bitmap_area ps) m m' ∧
    bitmap ps = u64 (phys + hhdm_offset) ∧ bitmap_bytes ps = bitmap_size memmap ∧
    next_hint ps = 0).
Proof.
  intros Hok Hback Hreg. unfold pmm_init. fold (bitmap_size memmap).
  destruct (bitmap_span memmap Hok) as (Ht & Hcov & Hbytes & Hend & Hrange).
  destruct (bitmap_region_spec (bitmap_size memmap) memmap Hok)
    as [[? _]|(e & Hin & Hu & Hlen & Hphys & Hb0)]; [done|].
  destruct (mm_entries _ Hok e Hin Hu) as (Hbase & Hba & Hl0 & Hla & _).
  specialize (Hend e Hin Hu).
  pose proof (bitmap_frames_usable memmap e Hok Hin Hu Hlen) as Hsub.
  rewrite Hphys, (proj2 (Z.eqb_neq _ _)) by done.
  set (total := highest_top memmap / PMM_FRAME_SIZE) in *.
  set (bytes := bitmap_size memmap) in *. clearbody total bytes.
  set (ps0 := {| bitmap := u64 (base e + hhdm_offset); bitmap_bytes := bytes;
                 total_frames := total; usable_frames := 0; free_frames := 0;
                 next_hint := 0 |}).
  assert (backed m (bitmap ps0) (bitmap_bytes ps0)) as Hbk.
  { eapply backed_sub; [by apply (Hback e)|simpl; lia..]. }
  apply returns_bind. eapply returns_mono.
  { apply (memset_returns m (bitmap ps0) 255 bytes); [lia|exact Hbk]. }
  intros [m1 r1] (_ & Hm1 & Hset).
  assert (bits_are ps0 m1 ∅) as Hbits1 by (apply all_used; [simpl; lia|exact Hset]).
  ret_step (clear_usable_returns ps0 memmap m1 0 ∅).
  { exact Hok. }
  { by eapply mods_backed. }
  { exact Hbits1. }
  1-2: simpl; lia.
  { intros i Hi%Hrange. simpl. lia. }
  { intros i Hi. by apply not_elem_of_empty in Hi. }
  { apply disjoint_empty_r. }
  { done. }
  intros [m2 n2] (Hm2 & Hbits2 & ->). rewrite union_empty_l_L in *.
  set (U := list_to_set (memmap_frames memmap) : gset Z) in *.
  assert (∀ i, i ∈ U → 0 < i < total) as HrU.
  { intros i Hi. apply Hrange. by apply elem_of_list_to_set in Hi. }
  ret_step (reserve_bitmap_returns ps0 m2 U (base e));
    [|exact Hbits2|simpl; lia|simpl; lia|lia|done|simpl; lia| |exact Hsub|intros i Hi%HrU; simpl; lia|].
  { eapply mods_backed; [exact Hm2|]. by eapply mods_backed. }
  { clear -Hlen Hend Hba Hla. simpl. unfold PMM_FRAME_SIZE in *. div_lia. }
  intros [m3 n3] (Hm3 & Hbits3 & ->). simpl.
  split; [|split; [exact Hsub|split; [|done]]].
  - split; simpl; [lia|lia| |exact Hbits3| |exact HrU|reflexivity|by rewrite union_empty_l_L|lia].
    + eapply (mods_backed _ m2); [exact Hm3|]. eapply (mods_backed _ m1); [exact Hm2|].
      by eapply (mods_backed _ m).
    + clear. set_solver.
  - eapply mods_trans; [done|]. by eapply mods_trans.
Qed.
End init_spec.

(** * Clients: any interleaving of allocations and frees *)

(** What the rest of the kernel can do to the allocator.  [held] lists the
    physical addresses handed out and not yet returned. *)
Record pmm_world := { w_ps : pmm_state; w_mem : mem; w_held : list Z }.

Inductive pmm_step : pmm_world → pmm_world → Prop :=
  | step_alloc w ps' m' phys :
      pmm_alloc_frame (w_ps w) (w_mem w) = Ok (ps', m', phys) → phys ≠ 0 →
      pmm_step w {| w_ps := ps'; w_mem := m'; w_held := phys :: w_held w |}
  | step_alloc_oom w ps' m' :
      pmm_alloc_frame (w_ps w) (w_mem w) = Ok (ps', m', 0) →
      pmm_step w {| w_ps := ps'; w_mem := m'; w_held := w_held w |}
  | step_free w ps' m' phys before after :
      w_held w = before ++ phys :: after →
      pmm_free_frame (w_ps w) (w_mem w) phys = Ok (ps', m') →
      pmm_step w {| w_ps := ps'; w_mem := m'; w_held := before ++ after |}
  | step_write w m' P :
      (* anybody writes memory outside the bitmap *)
      mods P (w_mem w) m' → (∀ x, P x → ¬ bitmap_area (w_ps w) x) →
      pmm_step w {| w_ps := w_ps w; w_mem := m'; w_held := w_held w |}.

(** The held addresses are those of the set of frames [held], each held once. *)
Definition holds (l : list Z) (held : gset Z) : Prop :=
  NoDup l ∧ ∀ phys, phys ∈ l ↔ ∃ i, i ∈ held ∧ phys = i * PMM_FRAME_SIZE.

Lemma holds_add l held i :
  holds l held → i ∉ held → holds (i * PMM_FRAME_SIZE :: l) ({[i]} ∪ held).
Proof.
  intros [Hnd Hl] Hi. split.
  - apply NoDup_cons. split; [|done]. rewrite Hl. intros (j & Hj & Heq).
    unfold PMM_FRAME_SIZE in Heq. by assert (i = j) as -> by lia.
  - intros phys. rewrite elem_of_cons, Hl. split.
    + intros [->|(j & Hj & ->)]; [exists i|exists j]; split; try done.
      * apply elem_of_union. left. by apply elem_of_singleton.
      * apply elem_of_union. by right.
    + intros (j & [->%elem_of_singleton|Hj]%elem_of_union & ->); [by left|right; eauto].
Qed.

Lemma holds_drop before after held i :
  holds (before ++ i * PMM_FRAME_SIZE :: after) held → holds (before ++ after) (held ∖ {[i]}).
Proof.
  intros [Hnd Hl]. rewrite <- Permutation_middle in Hnd.
  apply NoDup_cons in Hnd as [Hni Hnd]. split; [done|].
  intros phys. transitivity (phys ≠ i * PMM_FRAME_SIZE ∧
    phys ∈ before ++ i * PMM_FRAME_SIZE :: after).
  { rewrite !elem_of_app, elem_of_cons. rewrite elem_of_app in Hni.
    split; [|tauto]. intros Hin. split; [|tauto]. intros ->. tauto. }
  rewrite Hl. split.
  - intros (Hne & j & Hj & ->). exists j. split; [|done].
    apply elem_of_difference. split; [done|]. intros ->%elem_of_singleton. done.
  - intros (j & [Hj Hji]%elem_of_difference & ->). split; [|by exists j].
    intros Heq. apply Hji, elem_of_singleton. unfold PMM_FRAME_SIZE in Heq. lia.
Qed.

Lemma holds_length l held : holds l held → length l = size held.
Proof.
  intros [Hnd Hl]. unfold size, set_size. simpl.
  rewrite <- (length_fmap (λ i, i * PMM_FRAME_SIZE) (elements held)).
  apply Permutation_length, NoDup_Permutation; [done|..].
  - apply (NoDup_fmap_2_strong _); [|apply NoDup_elements].
    intros x y _ _ Heq. unfold PMM_FRAME_SIZE in Heq. lia.
  - intros phys. rewrite Hl, list_elem_of_fmap. setoid_rewrite elem_of_elements. naive_solver.
Qed.

(** The free frames are exactly those of [A], the frames the allocator started
    with, that no client holds. *)
Definition world_inv (U A : gset Z) (w : pmm_world) : Prop :=
  A ⊆ U ∧ ∃ held : gset Z, holds (w_held w) held ∧ held ⊆ A ∧
    pmm_rep (w_ps w) (w_mem w) U (A ∖ held).

Lemma world_inv_step U A w w' : world_inv U A w → pmm_step w w' → world_inv U A w'.
Proof.
  intros (HAU & held & Hh & Hsub & R) Hstep. split; [done|]. destruct Hstep as
    [w ps' m' phys Hrun Hne|w ps' m' Hrun|w ps' m' phys before after Heq Hrun|w m' P Hm HP]; simpl.
  - pose proof (pmm_alloc_frame_returns _ _ _ _ R) as Hspec. rewrite Hrun in Hspec.
    destruct Hspec as [(_ & ? & _)|(i & [Hi _] & -> & _ & R' & _)]; [done|].
    apply elem_of_difference in Hi as [HiA Hinew].
    exists ({[i]} ∪ held). split; [by apply holds_add|].
    split; [clear -HiA Hsub; set_solver|].
    replace (A ∖ ({[i]} ∪ held)) with (A ∖ held ∖ {[i]}); [done|]. clear. set_solver.
  - pose proof (pmm_alloc_frame_returns _ _ _ _ R) as Hspec. rewrite Hrun in Hspec.
    destruct Hspec as [(_ & _ & -> & ->)|(i & _ & ? & ? & _)]; [by exists held|congruence].
  - assert (∃ i, i ∈ held ∧ phys = i * PMM_FRAME_SIZE) as (i & Hi & ->).
    { apply Hh. rewrite Heq. apply elem_of_app. right. by left. }
    rewrite Heq in Hh. exists (held ∖ {[i]}). split; [by apply holds_drop|].
    split; [clear -Hsub; set_solver|].
    assert (0 ≤ i ∧ i ∈ U) as [Hi0 HiU].
    { assert (i ∈ U) as HiU by (clear -Hi Hsub HAU; set_solver).
      pose proof (rep_range _ _ _ _ R i HiU). split; [lia|done]. }
    pose proof (pmm_free_frame_returns (w_ps w) (w_mem w) U _ (i * PMM_FRAME_SIZE) R) as Hspec.
    rewrite Hrun, frame_index in Hspec by done. destruct (Hspec HiU) as (R' & _).
    replace (A ∖ (held ∖ {[i]})) with ({[i]} ∪ A ∖ held); [done|].
    clear -Hi Hsub. apply set_eq. intros x. destruct (decide (x = i)); set_solver.
  - exists held. split; [done|]. split; [done|]. by eapply rep_mods.
Qed.

Lemma world_inv_steps U A w w' : rtc pmm_step w w' → world_inv U A w → world_inv U A w'.
Proof. induction 1; eauto using world_inv_step. Qed.

Lemma pmm_get_stats_spec ps m U F :
  pmm_rep ps m U F →
  pmm_get_stats ps =
    (Z.of_nat (size U), Z.of_nat (size U) - Z.of_nat (size F), Z.of_nat (size F)).
Proof.
  intros R. unfold pmm_get_stats.
  pose proof (rep_total _ _ _ _ R).
  pose proof (size_bounded U 0 (total_frames ps) ltac:(lia)) as Hs.
  assert (Z.of_nat (size U) ≤ total_frames ps - 0) as HU.
  { apply Hs. intros i Hi. pose proof (rep_range _ _ _ _ R i Hi). lia. }
  pose proof (subseteq_size F U (rep_sub _ _ _ _ R)).
  rewrite (rep_usable _ _ _ _ R), (rep_free _ _ _ _ R), u64_id by lia. done.
Qed.

(** * The arena initialisation leaves *)

Section boot.
Context {Lim : Limine}.

(** Right after [pmm_init] the free frames and the bitmap are laid out as the
    clients need them. *)
Lemma pmm_init_arena memmap hhdm m ps m' :
  memmap_ok memmap → hhdm_backs m hhdm memmap → 0 ≤ hhdm →
  (∀ e, e ∈ memmap → usable e = true → base e + length_ e + hhdm ≤ 2 ^ 64) →
  bitmap_region (bitmap_size memmap) memmap ≠ 0 →
  pmm_init memmap hhdm m = Ok (ps, m') →
  let U := list_to_set (memmap_frames memmap) in
  ∃ F, pmm_rep ps m' U F ∧ F ⊆ U ∧ arena ps m' hhdm F ∧
    F = U ∖ bitmap_frames (bitmap_region (bitmap_size memmap) memmap) (bitmap_size memmap).
Proof.
  intros Hok Hback Hh Hhi Hreg Hrun U.
  pose proof (pmm_init_returns memmap hhdm m Hok Hback Hreg) as Hs. rewrite Hrun in Hs.
  destruct Hs as (R & _ & Hm & Hbm & Hby & _). rewrite Hby in R.
  eexists. split; [exact R|]. split; [clear; set_solver|]. split; [|done]. split; [done|].
  intros f Hf. apply elem_of_difference in Hf as [HfU Hfb].
  apply elem_of_list_to_set, elem_of_memmap_frames in HfU as (e & He & Hu & Hfe).
  destruct (usable_frame_range _ _ _ Hok He Hu Hfe) as [Hf0 Hfhi].
  destruct (mm_entries _ Hok e He Hu) as (Hb0 & Hba & Hl0 & _). pose proof (Hhi e He Hu) as Hhie.
  split; [unfold PMM_FRAME_SIZE in *; lia|].
  assert (0 < length_ e) by (clear -Hfe Hfhi Hba; unfold PMM_FRAME_SIZE in *; div_lia). split.
  - eapply mods_backed; [exact Hm|]. eapply backed_sub; [apply (Hback e He Hu)|..].
    all: rewrite u64_id by lia; unfold PMM_FRAME_SIZE in *; div_lia.
  - intros x Hx Hbx. apply Hfb, elem_of_frame_run. unfold bitmap_area in Hbx. rewrite Hbm, Hby in Hbx.
    destruct (bitmap_region_spec (bitmap_size memmap) memmap Hok)
      as [[? _]|(e' & He' & Hu' & Hlen' & Hphys & _)]; [done|]. rewrite Hphys in *.
    destruct (mm_entries _ Hok e' He' Hu') as (Hb0' & Hba' & _). pose proof (Hhi e' He' Hu') as Hhie'.
    rewrite u64_id in Hbx by (unfold range in Hbx; lia).
    clear -Hx Hbx Hb0' Hba'. unfold range, PMM_FRAME_SIZE in *.
    set (n := bitmap_size memmap) in *. clearbody n. div_lia.
Qed.
End boot.

(** * A small machine: five usable frames, the bitmap in the first *)

Module demo.
#[export] Instance limine0 : Limine := 0.

Definition memmap : list limine_memmap_entry := [
  {| base := 0x1000; length_ := 0x3000; type := 0 |};
  {| base := 0x4000; length_ := 0x2000; type := 1 |};
  {| base := 0x6000; length_ := 0x2000; type := 0 |} ].
Definition hhdm : Z := 0xffff800000000000.
Definition ram : mem :=
  ram_fill (hhdm + 0x1000) (Z.to_nat 0x3000) (ram_fill (hhdm + 0x6000) (Z.to_nat 0x2000) ∅).
Definition U : gset Z := list_to_set [1; 2; 3; 6; 7].

Lemma memmap_ok : Pmm.memmap_ok memmap.
Proof.
  split.
  - intros e Hin Hu. repeat (apply elem_of_cons in Hin as [->|Hin]); [..|by apply not_elem_of_nil in Hin];
      try done.
  - apply (bool_decide_unpack _). by vm_compute.
Qed.

Lemma hhdm_backs : Pmm.hhdm_backs ram hhdm memmap.
Proof.
  intros e Hin Hu. repeat (apply elem_of_cons in Hin as [->|Hin]); [..|by apply not_elem_of_nil in Hin].
  - by apply ram_fill_backed.
  - done.
  - intros x Hx. unfold ram. rewrite ram_fill_lookup. case_decide; [by eexists|].
    revert x Hx H. change (∀ x, range (u64 (0x6000 + hhdm)) 0x2000 x →
      ¬ (hhdm + 0x1000 ≤ x < hhdm + 0x1000 + Z.of_nat (Z.to_nat 0x3000)) →
      is_Some (ram_fill (hhdm + 0x6000) (Z.to_nat 0x2000) ∅ !! x)).
    intros x Hx _. by eapply (ram_fill_backed (hhdm + 0x6000) (Z.to_nat 0x2000) ∅).
Qed.

(** Frame 1 holds the bitmap; 2, 3, 6 and 7 are free. *)
Lemma init : ∃ ps m, pmm_init memmap hhdm ram = Ok (ps, m) ∧ next_hint ps = 0 ∧
  pmm_rep ps m U (U ∖ {[1]}).
Proof.
  pose proof (pmm_init_returns memmap hhdm ram memmap_ok hhdm_backs) as Hr.
  assert (bitmap_region (bitmap_size memmap) memmap = 0x1000) as Hreg by by vm_compute.
  rewrite Hreg in Hr. destruct (returns_inv _ _ (Hr ltac:(done))) as ([ps m] & Heq & R & _ & _ & _ & Hb & Hh).
  exists ps, m. split; [done|]. split; [done|].
  rewrite Hb in R.
  replace (U ∖ {[1]}) with (list_to_set (memmap_frames memmap) ∖ bitmap_frames 0x1000 (bitmap_size memmap));
    [exact R|].
  apply leibniz_equiv, (bool_decide_unpack _). by vm_compute.
Qed.

(** The first frame handed out is the lowest free one, frame 2. *)
Lemma first_alloc : ∃ ps m ps1 m1, pmm_rep ps m U (U ∖ {[1]}) ∧
  pmm_alloc_frame ps m = Ok (ps1, m1, 0x2000).
Proof.
  destruct init as (ps & m & _ & Hh & R).
  destruct (returns_inv _ _ (pmm_alloc_frame_returns ps m _ _ R)) as ([[ps1 m1] phys] & Hal & Hff).
  exists ps, m, ps1, m1. split; [done|]. rewrite Hal. do 2 f_equal. rewrite Hh in Hff.
  destruct Hff as [(HF & _)|(i & [Hi Hmin] & -> & _)].
  { apply (f_equal (λ X : gset Z, bool_decide (2 ∈ X))) in HF. by vm_compute in HF. }
  enough (i = 2) as -> by done.
  pose proof (rep_range _ _ _ _ R i (rep_sub _ _ _ _ R i Hi)).
  destruct Hmin as [[_ Hmin]|[? _]]; [|lia].
  assert (i ≤ 2) by (apply Hmin; [apply (bool_decide_unpack _); by vm_compute|lia]).
  enough (i ≠ 1) by lia. intros ->. clear -Hi. set_solver.
Qed.
Lemma boot_frames : ∃ ps m, pmm_init memmap hhdm ram = Ok (ps, m) ∧
  pmm_rep ps m U (U ∖ {[1]}) ∧ U ∖ {[1]} ⊆ list_to_set (memmap_frames memmap) ∧ arena ps m hhdm (U ∖ {[1]}).
Proof.
  destruct init as (ps & m & Heq & _ & _).
  destruct (pmm_init_arena memmap hhdm ram ps m memmap_ok hhdm_backs)
    as (F' & R & Hsub & Har & HF); [done| |by vm_compute|done|].
  { clear. intros e Hin _.
    repeat (apply elem_of_cons in Hin as [->|Hin]); [..|destruct (not_elem_of_nil _ Hin)];
      by vm_compute. }
  assert (F' = U ∖ {[1]}) as ->.
  { rewrite HF. apply leibniz_equiv, (bool_decide_unpack _). by vm_compute. }
  assert (list_to_set (memmap_frames memmap) = U) as HU
    by (apply leibniz_equiv, (bool_decide_unpack _); by vm_compute).
  rewrite HU in R. exists ps, m. exact (conj Heq (conj R (conj Hsub Har))).
Qed.

End demo.
#[local] Existing Instance demo.limine0.

(** * What the allocator promises *)

(** C26. Initialisation.  On a memory map as Limine guarantees it, [pmm_init]
    halts exactly when no usable region can hold the bitmap.  Otherwise it
    returns, writes nothing but the bitmap, and leaves the allocator managing
    exactly the frames of the usable regions, all free but those the bitmap
    itself sits on, with the counters equal to the numbers of such frames. *)
Theorem pmm_init_correct {L : Limine} (memmap : list limine_memmap_entry) (hhdm_offset : Z) m :
  memmap_ok memmap → hhdm_backs m hhdm_offset memmap →
  (pmm_init memmap hhdm_offset m = Halted ∧
     ∀ e, e ∈ memmap → usable e = true → length_ e < bitmap_size memmap) ∨
  ∃ ps m' e,
    pmm_init memmap hhdm_offset m = Ok (ps, m') ∧
    e ∈ memmap ∧ usable e = true ∧ bitmap_size memmap ≤ length_ e ∧
    pmm_rep ps m' (list_to_set (memmap_frames memmap))
      (list_to_set (memmap_frames memmap) ∖ bitmap_frames (base e) (bitmap_bytes ps)) ∧
    mods (range (u64 (base e + hhdm_offset)) (bitmap_size memmap)) m m'.
Proof.
  intros Hok Hback.
  destruct (bitmap_region_spec (bitmap_size memmap) memmap Hok)
    as [[Hreg Hnone]|(e & Hin & Hu & Hlen & Hphys & Hb0)].
  - left. split; [|done]. unfold pmm_init. fold (bitmap_size memmap). by rewrite Hreg.
  - right. pose proof (pmm_init_returns memmap hhdm_offset m Hok Hback) as Hr.
    rewrite Hphys in Hr.
    destruct (returns_inv _ _ (Hr Hb0)) as ([ps m'] & Heq & R & _ & Hm & Hbm & Hby & _).
    exists ps, m', e. repeat (split; [assumption|]).
    unfold bitmap_area in Hm. by rewrite Hbm, Hby in Hm.
Qed.

Lemma pmm_init_correct_witness :
  (pmm_init demo.memmap demo.hhdm demo.ram = Halted ∧
     ∀ e, e ∈ demo.memmap → usable e = true → length_ e < bitmap_size demo.memmap) ∨
  ∃ ps m' e,
    pmm_init demo.memmap demo.hhdm demo.ram = Ok (ps, m') ∧
    e ∈ demo.memmap ∧ usable e = true ∧ bitmap_size demo.memmap ≤ length_ e ∧
    pmm_rep ps m' (list_to_set (memmap_frames demo.memmap))
      (list_to_set (memmap_frames demo.memmap) ∖ bitmap_frames (base e) (bitmap_bytes ps)) ∧
    mods (range (u64 (base e + demo.hhdm)) (bitmap_size demo.memmap)) demo.ram m'.
Proof. apply (pmm_init_correct _ _ _ demo.memmap_ok demo.hhdm_backs). Defined.

(** C31. Allocation.  [pmm_alloc_frame] answers 0 exactly when no frame is free,
    and then changes nothing.  Otherwise it returns the address of the first-fit
    frame: the lowest free one from the hint on, or the lowest free one when the
    scan has to wrap; that frame alone stops being free. *)
Theorem pmm_alloc_frame_correct ps m U F :
  pmm_rep ps m U F →
  ∃ ps' m' phys, pmm_alloc_frame ps m = Ok (ps', m', phys) ∧
    (phys = 0 ↔ F = ∅) ∧
    (phys = 0 → ps' = ps ∧ m' = m) ∧
    (phys ≠ 0 → ∃ i, first_fit (next_hint ps) F i ∧ phys = i * PMM_FRAME_SIZE ∧
       pmm_rep ps' m' U (F ∖ {[i]}) ∧ mods (bitmap_area ps) m m').
Proof.
  intros R. destruct (returns_inv _ _ (pmm_alloc_frame_returns ps m U F R))
    as ([[ps' m'] phys] & Heq & Hr).
  exists ps', m', phys. split; [done|].
  destruct Hr as [(HF & -> & -> & ->)|(i & Hff & -> & Hne & R' & Hm & _)].
  - split; [done|]. split; [done|]. done.
  - split; [|split; [done|]].
    + split; [done|]. intros ->. destruct Hff as [Hin _]. by apply not_elem_of_empty in Hin.
    + intros _. by exists i.
Qed.

Lemma pmm_alloc_frame_correct_witness :
  ∃ ps m, pmm_rep ps m demo.U (demo.U ∖ {[1]}) ∧ ∃ ps' m' phys,
    pmm_alloc_frame ps m = Ok (ps', m', phys) ∧
    (phys = 0 ↔ demo.U ∖ {[1]} = ∅) ∧
    (phys = 0 → ps' = ps ∧ m' = m) ∧
    (phys ≠ 0 → ∃ i, first_fit (next_hint ps) (demo.U ∖ {[1]}) i ∧ phys = i * PMM_FRAME_SIZE ∧
       pmm_rep ps' m' demo.U (demo.U ∖ {[1]} ∖ {[i]}) ∧ mods (bitmap_area ps) m m').
Proof.
  destruct demo.init as (ps & m & _ & _ & R). exists ps, m. split; [exact R|].
  apply (pmm_alloc_frame_correct ps m demo.U (demo.U ∖ {[1]}) R).
Defined.

(** Free.  Freeing a usable frame adds it to the free frames and writes
    nothing but the bitmap; freeing a frame that is free already changes
    nothing at all. *)
Theorem pmm_free_frame_correct ps m U F phys :
  pmm_rep ps m U F → phys / PMM_FRAME_SIZE ∈ U →
  ∃ ps' m', pmm_free_frame ps m phys = Ok (ps', m') ∧
    pmm_rep ps' m' U ({[phys / PMM_FRAME_SIZE]} ∪ F) ∧ mods (bitmap_area ps) m m' ∧
    (phys / PMM_FRAME_SIZE ∈ F → ps' = ps ∧ m' = m).
Proof.
  intros R HU. destruct (returns_inv _ _ (pmm_free_frame_returns ps m U F phys R HU))
    as ([ps' m'] & Heq & R' & Hm & Hnop & _).
  exists ps', m'. repeat (split; [assumption|]). assumption.
Qed.

Lemma pmm_free_frame_correct_witness :
  ∃ ps m, pmm_rep ps m demo.U (demo.U ∖ {[1]}) ∧ ∃ ps' m',
    pmm_free_frame ps m 0x1000 = Ok (ps', m') ∧
    pmm_rep ps' m' demo.U ({[0x1000 / PMM_FRAME_SIZE]} ∪ demo.U ∖ {[1]}) ∧
    mods (bitmap_area ps) m m' ∧
    (0x1000 / PMM_FRAME_SIZE ∈ demo.U ∖ {[1]} → ps' = ps ∧ m' = m).
Proof.
  destruct demo.init as (ps & m & _ & _ & R). exists ps, m. split; [exact R|].
  apply (pmm_free_frame_correct ps m demo.U (demo.U ∖ {[1]}) 0x1000 R).
  apply (bool_decide_unpack _). vm_compute. exact I.
Defined.

(** Round trip.  Giving back the frame just allocated restores the set of
    free frames, and the frame is reused at once: the next allocation returns
    the same address. *)
Theorem pmm_alloc_free_alloc ps m U F ps1 m1 phys :
  pmm_rep ps m U F → pmm_alloc_frame ps m = Ok (ps1, m1, phys) → phys ≠ 0 →
  ∃ ps2 m2 ps3 m3, pmm_free_frame ps1 m1 phys = Ok (ps2, m2) ∧ pmm_rep ps2 m2 U F ∧
    pmm_alloc_frame ps2 m2 = Ok (ps3, m3, phys).
Proof.
  intros R Hal Hne. pose proof (pmm_alloc_frame_returns ps m U F R) as Hr. rewrite Hal in Hr.
  destruct Hr as [(_ & ? & _)|(i & [Hi Hmin] & -> & _ & R1 & _ & Hh1)]; [done|].
  pose proof (rep_range _ _ _ _ R i (rep_sub _ _ _ _ R i Hi)) as Hir.
  pose proof (pmm_free_frame_returns ps1 m1 U _ (i * PMM_FRAME_SIZE) R1) as Hr.
  rewrite frame_index in Hr by lia.
  destruct (returns_inv _ _ (Hr (rep_sub _ _ _ _ R i Hi))) as ([ps2 m2] & Hfr & R2 & _ & _ & Hh2).
  specialize (Hh2 ltac:(clear; set_solver)).
  replace ({[i]} ∪ F ∖ {[i]}) with F in R2.
  2: { clear -Hi. apply set_eq. intros x. destruct (decide (x = i)); set_solver. }
  destruct (returns_inv _ _ (pmm_alloc_frame_returns ps2 m2 U F R2)) as ([[ps3 m3] phys3] & Hal3 & Hr3).
  exists ps2, m2, ps3, m3. split; [done|]. split; [done|].
  destruct Hr3 as [(-> & _)|(j & [Hj Hjmin] & -> & _)]; [by apply not_elem_of_empty in Hi|].
  enough (j = i) as -> by done. replace (next_hint ps2) with i in Hjmin by lia.
  destruct Hjmin as [[Hle Hj']|(Hlt & Hall & _)].
  - specialize (Hj' i Hi ltac:(lia)). lia.
  - specialize (Hall i Hi). lia.
Qed.

Lemma pmm_alloc_free_alloc_witness :
  ∃ ps m ps1 m1 ps2 m2 ps3 m3, pmm_alloc_frame ps m = Ok (ps1, m1, 0x2000) ∧
    pmm_free_frame ps1 m1 0x2000 = Ok (ps2, m2) ∧
    pmm_rep ps2 m2 demo.U (demo.U ∖ {[1]}) ∧
    pmm_alloc_frame ps2 m2 = Ok (ps3, m3, 0x2000).
Proof.
  destruct demo.first_alloc as (ps & m & ps1 & m1 & R & Hal).
  destruct (pmm_alloc_free_alloc ps m demo.U (demo.U ∖ {[1]}) ps1 m1 0x2000 R Hal
    ltac:(discriminate)) as (ps2 & m2 & ps3 & m3 & H).
  exists ps, m, ps1, m1, ps2, m2, ps3, m3. split; [exact Hal|exact H].
Defined.

(** Claiming a given frame, the seam the buddy allocator takes ownership
    through: it succeeds exactly for a free frame, which then stops being free;
    otherwise (used, or beyond the bitmap) nothing changes. *)
Theorem pmm_claim_frame_correct ps m U F i :
  pmm_rep ps m U F → 0 ≤ i →
  ∃ ps' m', pmm_claim_frame ps m (i * PMM_FRAME_SIZE) = Ok (ps', m', bool_decide (i ∈ F)) ∧
    pmm_rep ps' m' U (F ∖ {[i]}) ∧ mods (bitmap_area ps) m m' ∧
    (i ∉ F → ps' = ps ∧ m' = m).
Proof.
  intros R Hi. destruct (returns_inv _ _ (pmm_claim_frame_returns ps m U F i R Hi))
    as ([[ps' m'] b] & Heq & -> & R' & Hm & Hnop & _).
  exists ps', m'. split; [done|]. split; [done|]. split; [done|].
  intros HF. apply Hnop. by apply bool_decide_false.
Qed.

Lemma pmm_claim_frame_correct_witness :
  ∃ ps m, pmm_rep ps m demo.U (demo.U ∖ {[1]}) ∧ ∃ ps' m',
    pmm_claim_frame ps m (6 * PMM_FRAME_SIZE) =
      Ok (ps', m', bool_decide (6 ∈ demo.U ∖ {[1]})) ∧
    pmm_rep ps' m' demo.U (demo.U ∖ {[1]} ∖ {[6]}) ∧ mods (bitmap_area ps) m m' ∧
    (6 ∉ demo.U ∖ {[1]} → ps' = ps ∧ m' = m).
Proof.
  destruct demo.init as (ps & m & _ & _ & R). exists ps, m. split; [exact R|].
  apply (pmm_claim_frame_correct ps m demo.U (demo.U ∖ {[1]}) 6 R). lia.
Defined.

(** C24. No frame is ever owned twice.  Start from an initialised allocator and
    let clients allocate, free what they hold and write memory outside the
    bitmap, in any order: the addresses held are always distinct, stand for
    frames the allocator started with, and are never free; and the statistics
    count exactly the frames held plus those reserved at start. *)
Theorem pmm_frames_owned_once ps m U A w :
  pmm_rep ps m U A →
  rtc pmm_step {| w_ps := ps; w_mem := m; w_held := [] |} w →
  NoDup (w_held w) ∧
  (∀ phys, phys ∈ w_held w → ∃ i, i ∈ A ∧ phys = i * PMM_FRAME_SIZE ∧
     bit_test (w_ps w) (w_mem w) i = Ok true) ∧
  pmm_get_stats (w_ps w) =
    (Z.of_nat (size U),
     Z.of_nat (size U) - Z.of_nat (size A) + Z.of_nat (length (w_held w)),
     Z.of_nat (size A) - Z.of_nat (length (w_held w))).
Proof.
  intros R Hsteps.
  destruct (world_inv_steps U A _ w Hsteps) as (HAU & held & [Hnd Hheld] & Hsub & R').
  { split; [apply R|]. exists ∅. split; [|split; [apply empty_subseteq|]].
    - split; [constructor|]. intros phys. split; [by intros ?%not_elem_of_nil|].
      intros (i & ?%not_elem_of_empty & _). done.
    - by rewrite difference_empty_L. }
  split; [done|]. split.
  - intros phys (i & Hi & ->)%Hheld. exists i. split; [by apply Hsub|]. split; [done|].
    rewrite (rep_bits _ _ _ _ R').
    + f_equal. apply bool_decide_true. clear -Hi. set_solver.
    + pose proof (rep_range _ _ _ _ R' i (HAU i (Hsub i Hi))). lia.
  - rewrite (pmm_get_stats_spec _ _ _ _ R'), size_difference by done.
    pose proof (subseteq_size held A Hsub).
    rewrite (holds_length (w_held w) held) by done. f_equal; [f_equal|]; lia.
Qed.

Lemma pmm_frames_owned_once_witness :
  ∃ ps m w, pmm_rep ps m demo.U (demo.U ∖ {[1]}) ∧
    rtc pmm_step {| w_ps := ps; w_mem := m; w_held := [] |} w ∧ w_held w = [0x2000] ∧
    NoDup (w_held w) ∧
    (∀ phys, phys ∈ w_held w → ∃ i, i ∈ demo.U ∖ {[1]} ∧ phys = i * PMM_FRAME_SIZE ∧
       bit_test (w_ps w) (w_mem w) i = Ok true) ∧
    pmm_get_stats (w_ps w) =
      (Z.of_nat (size demo.U),
       Z.of_nat (size demo.U) - Z.of_nat (size (demo.U ∖ {[1]})) + Z.of_nat (length (w_held w)),
       Z.of_nat (size (demo.U ∖ {[1]})) - Z.of_nat (length (w_held w))).
Proof.
  destruct demo.first_alloc as (ps & m & ps1 & m1 & R & Hal).
  set (w := {| w_ps := ps1; w_mem := m1; w_held := [0x2000] |}).
  assert (rtc pmm_step {| w_ps := ps; w_mem := m; w_held := [] |} w) as Hsteps.
  { apply rtc_once, (step_alloc {| w_ps := ps; w_mem := m; w_held := [] |} ps1 m1 0x2000);
      [exact Hal|discriminate]. }
  exists ps, m, w. split; [exact R|]. split; [exact Hsteps|]. split; [reflexivity|].
  exact (pmm_frames_owned_once ps m demo.U (demo.U ∖ {[1]}) w R Hsteps).
Defined.
