(* ===== verification/Blocks.v ===== *)
(** The abstract buddy system: what kernel/core/mm/buddy.c promises, without
    its memory representation.

    A block is an address and an order; an abstract state is one list of free
    block addresses per order.  [spec_alloc] and [spec_free] are the operations,
    [tiles] says that a collection of blocks covers a set of frames without
    overlap, [coalesced] that no two free buddies are left unmerged. *)

From stdpp Require Import base list gmap sets.
From Stdlib Require Import ZArith Lia.
From S2P Require Import Prelude.
From S2P Require Import Pmm.

#[local] Coercion Z.of_nat : nat >-> Z.

(** * Blocks and the frames they cover *)

Abbreviation block := (Z * nat)%type.

(** Block addresses per order, most recently freed first. *)
Abbreviation lists := (list (list Z)).

Implicit Types (p q f : Z) (o i k order : nat) (l : list Z) (L : lists)
  (b c : block) (B A : list block) (M : gset Z).

Definition bsize o : Z := PMM_FRAME_SIZE * 2 ^ o.

Definition frames b : gset Z := frame_run (b.1 / PMM_FRAME_SIZE) (2 ^ b.2).

Definition aligned b : Prop := b.1 mod bsize b.2 = 0.

Fixpoint tiles B M : Prop :=
  match B with
  | [] => M = ∅
  | b :: B => frames b ⊆ M ∧ tiles B (M ∖ frames b)
  end.

Lemma bsize_pos o : 0 < bsize o.
Proof. unfold bsize, PMM_FRAME_SIZE. pose proof (pow2_pos o). lia. Qed.

Lemma bsize_S o : bsize (S o) = bsize o + bsize o.
Proof. unfold bsize. rewrite Nat2Z.inj_succ, Z.pow_succ_r by lia. lia. Qed.

(** An aligned block starts on a frame boundary. *)
Lemma aligned_frame p o : aligned (p, o) → p = p / PMM_FRAME_SIZE * PMM_FRAME_SIZE.
Proof.
  unfold aligned, bsize, PMM_FRAME_SIZE. cbn. intros H.
  apply mod_trans in H; [|lia|apply pow2_pos; lia]. div_lia.
Qed.

Lemma elem_of_frames p o f :
  f ∈ frames (p, o) ↔ p / PMM_FRAME_SIZE ≤ f < p / PMM_FRAME_SIZE + 2 ^ o.
Proof. apply elem_of_frame_run. Qed.

Lemma first_frame p o : p / PMM_FRAME_SIZE ∈ frames (p, o).
Proof. rewrite elem_of_frames. pose proof (pow2_pos o). lia. Qed.

Lemma size_frames b : Z.of_nat (size (frames b)) = 2 ^ b.2.
Proof. apply frame_run_size. pose proof (pow2_pos b.2). lia. Qed.

(** The two halves of a block. *)
Lemma frames_split p o :
  frames (p, S o) = frames (p, o) ∪ frames (p + bsize o, o) ∧
  frames (p, o) ## frames (p + bsize o, o).
Proof.
  assert ((p + bsize o) / PMM_FRAME_SIZE = p / PMM_FRAME_SIZE + 2 ^ o) as Hdiv.
  { unfold bsize, PMM_FRAME_SIZE. rewrite Z.mul_comm, Z.div_add; lia. }
  assert (2 ^ S o = 2 ^ o + 2 ^ o) as Hpow.
  { rewrite Nat2Z.inj_succ, Z.pow_succ_r by lia. lia. }
  pose proof (pow2_pos o ltac:(lia)). split.
  - apply set_eq. intros f. rewrite elem_of_union, !elem_of_frames, Hdiv, Hpow. lia.
  - intros f. rewrite !elem_of_frames, Hdiv. lia.
Qed.

Lemma tiles_swap b c B M : tiles (b :: c :: B) M → tiles (c :: b :: B) M.
Proof.
  simpl. intros (Hb & Hc & HB). split; [clear -Hc; set_solver|].
  split; [clear -Hb Hc; set_solver|].
  replace (M ∖ frames c ∖ frames b) with (M ∖ frames b ∖ frames c) by (clear; set_solver).
  done.
Qed.

Lemma tiles_perm B B' M : B ≡ₚ B' → tiles B M → tiles B' M.
Proof.
  intros HP. revert M. induction HP as [|b B B' _ IH|b c B|B1 B2 B3 _ IH1 _ IH2]; intros M; simpl.
  - done.
  - intros [? ?]. split; [done|by apply IH].
  - apply tiles_swap.
  - eauto.
Qed.

#[export] Instance tiles_proper : Proper ((≡ₚ) ==> eq ==> iff) tiles.
Proof. intros B B' HB M ? <-. split; by apply tiles_perm. Qed.

(** Splitting a block, or merging two halves, keeps the tiling. *)
Lemma tiles_split p o B M :
  tiles ((p, S o) :: B) M ↔ tiles ((p, o) :: (p + bsize o, o) :: B) M.
Proof.
  destruct (frames_split p o) as [Heq Hdis]. simpl. rewrite Heq.
  replace (M ∖ (frames (p, o) ∪ frames (p + bsize o, o)))
    with (M ∖ frames (p, o) ∖ frames (p + bsize o, o)) by (clear; set_solver).
  split.
  - intros (Hsub & HB). split; [|split; [|exact HB]]; clear -Hdis Hsub; set_solver.
  - intros (H1 & H2 & HB). split; [|exact HB]. clear -H1 H2. set_solver.
Qed.

Lemma tiles_frame b B M : tiles B M → b ∈ B → frames b ⊆ M.
Proof.
  intros HB (B' & HP)%elem_of_Permutation. rewrite HP in HB. apply HB.
Qed.

Lemma tiles_apart b B M : tiles (b :: B) M → ∀ c, c ∈ B → frames b ## frames c.
Proof.
  simpl. intros [_ HB] c Hc. pose proof (tiles_frame c _ _ HB Hc) as Hsub. set_solver.
Qed.

Lemma tiles_cover B M f : tiles B M → f ∈ M → ∃ b, b ∈ B ∧ f ∈ frames b.
Proof.
  revert M. induction B as [|b B IH]; intros M; simpl.
  { intros -> ?. set_solver. }
  intros [_ HB] Hf. destruct (decide (f ∈ frames b)) as [|Hn].
  { exists b. split; [by left|done]. }
  destruct (IH _ HB) as (c & Hc & Hfc); [set_solver|]. exists c. split; [by right|done].
Qed.

(** The blocks of a tiling have as many frames as the set they cover. *)
Lemma tiles_size B M :
  tiles B M → foldr (λ b n, 2 ^ b.2 + n) 0 B = Z.of_nat (size M).
Proof.
  revert M. induction B as [|b B IH]; intros M; simpl.
  { intros ->. by rewrite size_empty. }
  intros [Hb HB]. rewrite (IH _ HB), size_difference by done.
  pose proof (subseteq_size _ _ Hb). pose proof (size_frames b). simpl in *. lia.
Qed.

(** * The free blocks of a state *)

Definition tag o l : list block := (λ p, (p, o)) <$> l.

Definition blocks L : list block := concat (imap tag L).

Definition blocks_rest o L : list block := concat_rest o (imap tag L).

Lemma elem_of_tag p i o l : (p, i) ∈ tag o l ↔ i = o ∧ p ∈ l.
Proof.
  unfold tag. rewrite list_elem_of_fmap. split.
  - by intros (q & [= -> ->] & Hq).
  - intros [-> Hp]. by exists p.
Qed.

Lemma imap_insert o l L : imap tag (<[o := l]> L) = <[o := tag o l]> (imap tag L).
Proof.
  apply list_eq. intros i. rewrite list_lookup_imap.
  destruct (decide (o < length L)%nat) as [Ho|Ho].
  - destruct (decide (i = o)) as [->|Hne].
    + rewrite !list_lookup_insert_eq; [done| |done]. by rewrite length_imap.
    + by rewrite !list_lookup_insert_ne, list_lookup_imap by done.
  - rewrite !list_insert_ge, list_lookup_imap; [done|rewrite ?length_imap; lia|lia].
Qed.

Lemma blocks_insert o l L :
  (o < length L)%nat → blocks (<[o := l]> L) ≡ₚ tag o l ++ blocks_rest o L.
Proof.
  intros Ho. unfold blocks. rewrite imap_insert. apply concat_insert. by rewrite length_imap.
Qed.

Lemma blocks_lookup o l L : L !! o = Some l → blocks L ≡ₚ tag o l ++ blocks_rest o L.
Proof. intros Hl. apply concat_lookup. by rewrite list_lookup_imap, Hl. Qed.

Lemma elem_of_blocks p o L : (p, o) ∈ blocks L ↔ ∃ l, L !! o = Some l ∧ p ∈ l.
Proof.
  unfold blocks. split.
  - intros (B & HB%list_elem_of_In & Hp%list_elem_of_In)%list_elem_of_In%in_concat.
    apply list_elem_of_lookup in HB as (i & HB). rewrite list_lookup_imap in HB.
    destruct (L !! i) as [l|] eqn:Hl; simplify_eq/=. apply elem_of_tag in Hp as [-> ?]. by exists l.
  - intros (l & Hl & Hp). apply list_elem_of_In, in_concat. exists (tag o l). split; apply list_elem_of_In.
    + apply (list_elem_of_lookup_2 _ o). by rewrite list_lookup_imap, Hl.
    + by apply elem_of_tag.
Qed.

Lemma elem_of_concat p L : p ∈ concat L ↔ ∃ o, (p, o) ∈ blocks L.
Proof.
  split.
  - intros (l & (o & Hl)%list_elem_of_In%list_elem_of_lookup & Hp%list_elem_of_In)%list_elem_of_In%in_concat.
    exists o. apply elem_of_blocks. by exists l.
  - intros (o & (l & Hl & Hp)%elem_of_blocks). apply list_elem_of_In, in_concat.
    exists l. split; apply list_elem_of_In; [|done]. by apply (list_elem_of_lookup_2 _ o).
Qed.

(** * Well-formed states: the free blocks [L] and the allocated ones [A] tile
      the frames [M] *)

Definition orders : nat := 11.

Definition block_ok b : Prop := aligned b ∧ (b.2 < orders)%nat.

Record tiled L A M : Prop := {
  ti_len : length L = orders;
  ti_tiles : tiles (blocks L ++ A) M;
  ti_ok : ∀ b, b ∈ blocks L ++ A → block_ok b;
}.

Lemma tiled_change L L' A A' M :
  tiled L A M → length L' = length L → blocks L' ++ A' ≡ₚ blocks L ++ A → tiled L' A' M.
Proof.
  intros [Hlen HB Hok] Hlen' HP. split.
  - by rewrite Hlen'.
  - by rewrite HP.
  - intros b Hb. apply Hok. by rewrite <- HP.
Qed.

Lemma tiled_perm L A A' M : A ≡ₚ A' → tiled L A M → tiled L A' M.
Proof. intros HP HT. eapply tiled_change; [done..|]. by rewrite HP. Qed.

Lemma tiled_take L A M o l1 p l2 :
  tiled L A M → L !! o = Some (l1 ++ p :: l2) → tiled (<[o := l1 ++ l2]> L) ((p, o) :: A) M.
Proof.
  intros HT Hl. eapply tiled_change; [done|by rewrite length_insert|].
  rewrite (blocks_insert o), (blocks_lookup o _ _ Hl) by by eapply lookup_lt_Some.
  unfold tag. rewrite !fmap_app, fmap_cons. solve_Permutation.
Qed.

Lemma tiled_put L A M o p l :
  tiled L ((p, o) :: A) M → L !! o = Some l → tiled (<[o := p :: l]> L) A M.
Proof.
  intros HT Hl. eapply tiled_change; [done|by rewrite length_insert|].
  rewrite (blocks_insert o), (blocks_lookup o _ _ Hl) by by eapply lookup_lt_Some.
  unfold tag. rewrite fmap_cons. solve_Permutation.
Qed.

Lemma tiled_split L A M o p :
  tiled L ((p, S o) :: A) M → tiled L ((p, o) :: (p + bsize o, o) :: A) M.
Proof.
  intros [Hlen HB Hok]. split; [done| |].
  - rewrite <- Permutation_middle, <- Permutation_middle in *. by apply tiles_split.
  - destruct (Hok (p, S o)) as [Hal Ho]; [clear; set_solver|]. unfold block_ok, aligned in *.
    cbn [fst snd] in *. rewrite bsize_S in Hal. pose proof (bsize_pos o) as Hpos.
    assert (p mod bsize o = 0) as Hal'.
    { replace (bsize o + bsize o) with (bsize o * 2) in Hal by lia.
      apply mod_trans in Hal; [done|lia..]. }
    intros b [Hb|[->|[->|Hb]%elem_of_cons]%elem_of_cons]%elem_of_app.
    + apply Hok. clear -Hb. set_solver.
    + split; cbn; [done|lia].
    + split; cbn; [|lia]. rewrite <- Zplus_mod_idemp_r, Z_mod_same_full, Z.add_0_r. done.
    + apply Hok. clear -Hb. set_solver.
Qed.

Lemma tiled_merge L A M o p :
  tiled L ((p, o) :: (p + bsize o, o) :: A) M → aligned (p, S o) → (S o < orders)%nat →
  tiled L ((p, S o) :: A) M.
Proof.
  intros [Hlen HB Hok] Hal Ho. split; [done| |].
  - rewrite <- Permutation_middle. apply tiles_split.
    by rewrite <- Permutation_middle, <- Permutation_middle in HB.
  - intros b [Hb|[->|Hb]%elem_of_cons]%elem_of_app; [|by split|];
      apply Hok; clear -Hb; set_solver.
Qed.

Lemma tiled_lookup L A M o : tiled L A M → (o < orders)%nat → ∃ l, L !! o = Some l.
Proof. intros [Hlen _ _] Ho. apply lookup_lt_is_Some. by rewrite Hlen. Qed.

(** Two blocks of a state do not share a frame. *)
Lemma tiled_apart L A M b1 b2 B :
  tiled L A M → blocks L ++ A ≡ₚ b1 :: b2 :: B → frames b1 ## frames b2.
Proof.
  intros [_ HB _] HP. rewrite HP in HB. eapply tiles_apart; [exact HB|by left].
Qed.

Lemma tiled_fresh L A M p o : tiled L ((p, o) :: A) M → p ∉ concat L.
Proof.
  intros HT (i & Hi)%elem_of_concat. apply elem_of_Permutation in Hi as (B & HP).
  eapply (tiled_apart _ _ _ (p, i) (p, o) (B ++ A)) in HT; [|rewrite HP; solve_Permutation].
  apply (HT (p / PMM_FRAME_SIZE)); apply first_frame.
Qed.

(** * The operations *)

Definition push o p L : lists := alter (cons p) o L.

(** The lowest order from [order] on with a free block, its first block and the
    others; [k] is how many orders there are to try. *)
Fixpoint find_fit (k : nat) L order : option (nat * Z * list Z) :=
  match k with
  | O => None
  | S k =>
      match L !! order with
      | Some (p :: l) => Some (order, p, l)
      | _ => find_fit k L (S order)
      end
  end.

(** Give back the upper halves left by splitting the block at [p] from order
    [order + k] down to [order]. *)
Fixpoint put_halves (k : nat) order p L : lists :=
  match k with
  | O => L
  | S k => put_halves k order p (push (order + k) (p + bsize (order + k)) L)
  end.

Definition spec_alloc order L : option (Z * lists) :=
  '(o, p, l) ← find_fit (orders - order) L order;
  Some (p, put_halves (o - order) order p (<[o := l]> L)).

Definition buddy_of p o : Z := Z.lxor p (bsize o).

Definition drop_block q l : list Z := filter (λ x, x ≠ q) l.

(** Free the block at [p] of order [o], merging at most [k] times. *)
Fixpoint free_merge (k : nat) p o L : lists :=
  match k with
  | O => push o p L
  | S k =>
      if decide (buddy_of p o ∈ L !!! o)
      then free_merge k (Z.min (buddy_of p o) p) (S o) (alter (drop_block (buddy_of p o)) o L)
      else push o p L
  end.

Definition spec_free p o L : lists := free_merge (orders - 1 - o) p o L.

(** No block could have been merged with its buddy. *)
Definition coalesced L : Prop :=
  ∀ p o, (S o < orders)%nat → (p, o) ∈ blocks L → (buddy_of p o, o) ∉ blocks L.

(** * Buddies *)

Lemma bsize_pow o : bsize o = 2 ^ (12 + o).
Proof. unfold bsize, PMM_FRAME_SIZE. by rewrite Z.pow_add_r by lia. Qed.

(** Flipping the order bit: the buddy is the other half of the block one order
    up, which starts at the lower of the two. *)
Lemma buddy_cases p o :
  aligned (p, o) →
  (aligned (p, S o) ∧ buddy_of p o = p + bsize o) ∨
  (aligned (p - bsize o, S o) ∧ buddy_of p o = p - bsize o).
Proof.
  unfold aligned. cbn [fst snd]. intros Hal. unfold buddy_of.
  pose proof (bsize_pos o) as Hpos. pose proof (bsize_S o) as HS. rewrite bsize_pow in Hal.
  pose proof (lxor_pow2 p (12 + o) ltac:(lia) Hal) as Hx. rewrite <- bsize_pow in Hx, Hal.
  replace (2 ^ (12 + o + 1)) with (bsize (S o)) in Hx by (rewrite bsize_pow; f_equal; lia).
  case_decide as Hd; [by left|right]. split; [|done].
  apply Z.div_exact in Hal; [|lia]. set (k := p / bsize o) in *.
  rewrite HS in *. replace (bsize o + bsize o) with (2 * bsize o) in * by lia.
  destruct (Z.Even_or_Odd k) as [[r Hr]|[r Hr]].
  - destruct Hd. rewrite Hal, Hr. replace (bsize o * (2 * r)) with (r * (2 * bsize o)) by lia.
    apply Z.mod_mul. lia.
  - rewrite Hal, Hr. replace (bsize o * (2 * r + 1) - bsize o) with (r * (2 * bsize o)) by lia.
    apply Z.mod_mul. lia.
Qed.

Lemma buddy_of_involutive p o : buddy_of (buddy_of p o) o = p.
Proof. unfold buddy_of. by rewrite Z.lxor_assoc, Z.lxor_nilpotent, Z.lxor_0_r. Qed.

Lemma aligned_lower p o i : aligned (p, o) → (i ≤ o)%nat → aligned (p, i).
Proof.
  unfold aligned. cbn. rewrite !bsize_pow. intros Hal Hi.
  replace (12 + o) with ((12 + i) + (o - i)) in Hal by lia.
  rewrite Z.pow_add_r in Hal by lia. apply mod_trans in Hal; [done|apply pow2_pos; lia..].
Qed.

Lemma buddy_of_lower p o : aligned (p, S o) → buddy_of p o = p + bsize o.
Proof.
  intros Hal. assert (aligned (p, o)) as Hal' by (eapply aligned_lower; [exact Hal|lia]).
  destruct (buddy_cases p o Hal') as [[_ ?]|[Hal2 _]]; [done|exfalso].
  unfold aligned in *. cbn [fst snd] in *. rewrite bsize_S in *. pose proof (bsize_pos o) as Hpos.
  apply Z.div_exact in Hal, Hal2; [|lia..].
  set (x := p / _) in *. set (y := (p - _) / _) in *. clearbody x y.
  assert (bsize o * (1 - 2 * (x - y)) = 0) as H by lia. apply Z.mul_eq_0 in H as [?|?]; lia.
Qed.

Lemma buddy_of_upper p o : aligned (p, S o) → buddy_of (p + bsize o) o = p.
Proof. intros Hal. rewrite <- (buddy_of_lower p o Hal). apply buddy_of_involutive. Qed.

(** Merging a block with its buddy. *)
Lemma tiled_join L A M p o :
  tiled L ((buddy_of p o, o) :: (p, o) :: A) M → (S o < orders)%nat →
  tiled L ((Z.min (buddy_of p o) p, S o) :: A) M.
Proof.
  intros HT Ho. destruct (ti_ok _ _ _ HT (p, o)) as [Hal _]; [clear; set_solver|].
  pose proof (bsize_pos o). destruct (buddy_cases p o Hal) as [[Hal' Hb]|[Hal' Hb]]; rewrite Hb in *.
  - rewrite Z.min_r by lia. apply tiled_merge; [|done..].
    eapply tiled_perm; [|exact HT]. apply perm_swap.
  - rewrite Z.min_l by lia. apply tiled_merge; [|done..].
    by replace (p - bsize o + bsize o) with p by lia.
Qed.

(** An aligned block that meets a bigger aligned block lies inside it. *)
Lemma aligned_nested p i q o f :
  aligned (p, i) → aligned (q, o) → (i ≤ o)%nat →
  f ∈ frames (p, i) → f ∈ frames (q, o) → frames (p, i) ⊆ frames (q, o).
Proof.
  assert (∀ p o, aligned (p, o) → ∃ a, p / PMM_FRAME_SIZE = a * 2 ^ o) as Hdiv.
  { clear. intros p o Hal. pose proof (aligned_frame _ _ Hal) as Hp. unfold aligned in Hal. cbn in Hal.
    pose proof (bsize_pos o). apply Z.div_exact in Hal; [|lia].
    exists (p / bsize o). unfold bsize in *. unfold PMM_FRAME_SIZE in *.
    rewrite Hal at 1. rewrite <- Z.mul_assoc, Z.mul_comm, Z.div_mul by lia. lia. }
  intros (a & Ha)%Hdiv (b & Hb)%Hdiv Hio Hf1 Hf2 g Hg.
  rewrite elem_of_frames, Ha in Hf1, Hg. rewrite elem_of_frames, Hb in Hf2 |- *.
  replace (Z.of_nat o) with (i + (o - i)) in * by lia. rewrite Z.pow_add_r in * by lia.
  pose proof (pow2_pos i ltac:(lia)). pose proof (pow2_pos (o - i) ltac:(lia)).
  set (s := 2 ^ i) in *. set (t := 2 ^ (o - i)) in *.
  assert (b * t ≤ a) by nia. assert (a + 1 ≤ b * t + t) by nia. nia.
Qed.

(** ** Searching *)

Lemma find_fit_Some k L order o p l :
  find_fit k L order = Some (o, p, l) →
  (order ≤ o < order + k)%nat ∧ L !! o = Some (p :: l) ∧
  ∀ i q, (order ≤ i < o)%nat → (q, i) ∉ blocks L.
Proof.
  revert order. induction k as [|k IH]; intros order; simpl; [done|].
  destruct (L !! order) as [[|p' l']|] eqn:Hl; intros Hf.
  1,3: apply IH in Hf as (Ho & Hlo & Hnone); split; [lia|split; [done|]];
       intros i q Hi (l'' & Hl'' & Hq)%elem_of_blocks; destruct (decide (i = order)) as [->|];
       [simplify_eq; by apply elem_of_nil in Hq|];
       apply (Hnone i q); [lia|]; apply elem_of_blocks; by exists l''.
  simplify_eq. split; [lia|]. split; [done|lia].
Qed.

Lemma find_fit_None k L order :
  find_fit k L order = None → ∀ i q, (order ≤ i < order + k)%nat → (q, i) ∉ blocks L.
Proof.
  revert order. induction k as [|k IH]; intros order; simpl; [lia|].
  destruct (L !! order) as [[|p' l']|] eqn:Hl; intros Hf i q Hi; [|done|];
    (destruct (decide (i = order)) as [->|]; [|by apply (IH (S order)); [|lia]]);
    intros (l & Hl' & Hq)%elem_of_blocks; simplify_eq. by apply elem_of_nil in Hq.
Qed.

(** * Coalescing *)

Lemma push_lookup_ne o i p L : i ≠ o → push o p L !! i = L !! i.
Proof. intros. by apply list_lookup_alter_ne. Qed.

Lemma push_lookup o p l L : L !! o = Some l → push o p L !! o = Some (p :: l).
Proof. intros Hl. unfold push. by rewrite list_lookup_alter_eq, Hl. Qed.

Lemma push_insert o p l L : L !! o = Some l → push o p L = <[o := p :: l]> L.
Proof.
  intros Hl. apply list_eq. intros i. destruct (decide (i = o)) as [->|].
  - rewrite (push_lookup _ _ l), list_lookup_insert_eq; [done|by eapply lookup_lt_Some|done].
  - by rewrite push_lookup_ne, list_lookup_insert_ne.
Qed.

Lemma elem_of_push q i o p L :
  (q, i) ∈ blocks (push o p L) → (q, i) = (p, o) ∨ (q, i) ∈ blocks L.
Proof.
  intros (l & Hl & Hq)%elem_of_blocks. destruct (decide (i = o)) as [->|Hne].
  - unfold push in Hl. rewrite list_lookup_alter_eq in Hl. destruct (L !! o) as [l0|] eqn:Hl0; simplify_eq/=.
    apply elem_of_cons in Hq as [->|Hq]; [by left|right]. apply elem_of_blocks. by exists l0.
  - right. rewrite push_lookup_ne in Hl by done. apply elem_of_blocks. by exists l.
Qed.

Lemma elem_of_drop q i o x L :
  (q, i) ∈ blocks (alter (drop_block x) o L) → (q, i) ∈ blocks L.
Proof.
  rewrite !elem_of_blocks. intros (l & Hl & Hq). destruct (decide (i = o)) as [->|Hne].
  - rewrite list_lookup_alter_eq in Hl. destruct (L !! o) as [l0|] eqn:Hl0; simplify_eq/=.
    exists l0. split; [done|]. by apply list_elem_of_filter in Hq as [_ ?].
  - rewrite list_lookup_alter_ne in Hl by done. by exists l.
Qed.

Lemma elem_of_put_halves k order p L q i :
  (q, i) ∈ blocks (put_halves k order p L) →
  (q, i) ∈ blocks L ∨ ((order ≤ i < order + k)%nat ∧ q = p + bsize i).
Proof.
  revert L. induction k as [|k IH]; intros L; simpl; [by left|].
  intros [[[= -> ->]|Hq]%elem_of_push|[Hi ->]]%IH.
  - right. split; [lia|done].
  - by left.
  - right. split; [lia|done].
Qed.

Lemma blocks_subset_coalesced L L' :
  (∀ b, b ∈ blocks L' → b ∈ blocks L) → coalesced L → coalesced L'.
Proof. intros Hsub HL p o Ho Hp Hb. by apply (HL p o Ho); apply Hsub. Qed.

Lemma elem_of_tail p q i o l L :
  L !! o = Some (p :: l) → (q, i) ∈ blocks (<[o := l]> L) → (q, i) ∈ blocks L.
Proof.
  rewrite !elem_of_blocks. intros Hl (l' & Hl' & Hq).
  destruct (decide (i = o)) as [->|Hne].
  - rewrite list_lookup_insert_eq in Hl' by (by eapply lookup_lt_Some). simplify_eq.
    eexists. split; [done|by right].
  - rewrite list_lookup_insert_ne in Hl' by done. by exists l'.
Qed.

(** Splitting leaves no mergeable pair: the lower half of every split is handed
    out. *)
Lemma spec_alloc_coalesced L A M order p L' :
  coalesced L → tiled L' ((p, order) :: A) M → tiled L A M →
  spec_alloc order L = Some (p, L') → coalesced L'.
Proof.
  unfold spec_alloc. intros HL HT' HT.
  destruct (find_fit _ L order) as [[[o p'] l]|] eqn:Hf; [|done]. cbn. intros [= -> HL'].
  apply find_fit_Some in Hf as (Ho & Hlo & Hnone).
  pose proof (tiled_fresh _ _ _ _ _ HT') as Hfresh.
  assert (∀ i, (p, i) ∉ blocks L') as Hp by (intros i Hi; apply Hfresh, elem_of_concat; by exists i).
  assert (aligned (p, o)) as Hal.
  { apply (ti_ok _ _ _ HT). apply elem_of_app. left. apply elem_of_blocks.
    exists (p :: l). split; [done|by left]. }
  assert (∀ i, (order ≤ i < o)%nat → buddy_of (p + bsize i) i = p) as Hbud.
  { intros i Hi. apply buddy_of_upper. eapply aligned_lower; [exact Hal|lia]. }
  intros q i Hi Hq Hb. rewrite <- HL' in Hq, Hb.
  apply elem_of_put_halves in Hq as [Hq|[Hio ->]].
  - apply elem_of_put_halves in Hb as [Hb|[Hio Hb]].
    + apply (HL q i Hi); by eapply elem_of_tail.
    + apply (Hnone i q); [lia|]. by eapply elem_of_tail.
  - rewrite Hbud in Hb by lia. apply (Hp i). by rewrite <- HL'.
Qed.

Lemma buddy_of_ne p o : buddy_of p o ≠ p.
Proof.
  intros Hb. unfold buddy_of in Hb. pose proof (bsize_pos o).
  assert (bsize o = 0); [|lia].
  by rewrite <- (Z.lxor_0_l (bsize o)), <- (Z.lxor_nilpotent p), Z.lxor_assoc, Hb.
Qed.

Lemma coalesced_push L p o :
  coalesced L → ((S o < orders)%nat → (buddy_of p o, o) ∉ blocks L) → coalesced (push o p L).
Proof.
  intros HL Hnb q i Hi [[= -> ->]|Hq]%elem_of_push [[= Hb]|Hb]%elem_of_push.
  - by eapply buddy_of_ne.
  - by apply Hnb.
  - subst. apply (Hnb Hi). by rewrite buddy_of_involutive.
  - by apply (HL q i).
Qed.

(** Freeing merges as far as it can. *)
Lemma free_merge_coalesced k p o L :
  length L = orders → coalesced L → (o + k = orders - 1)%nat → coalesced (free_merge k p o L).
Proof.
  revert p o L. induction k as [|k IH]; intros p o L Hlen HL Ho; simpl.
  { apply coalesced_push; [done|unfold orders in *; lia]. }
  assert (∃ l, L !! o = Some l) as (l & Hl).
  { apply lookup_lt_is_Some. rewrite Hlen. lia. }
  rewrite (list_lookup_total_correct _ _ _ Hl). case_decide as Hin.
  - apply IH; [by rewrite length_alter| |lia]. eapply blocks_subset_coalesced; [|exact HL].
    intros [q i]. apply elem_of_drop.
  - apply coalesced_push; [done|]. intros _ (l' & ? & ?)%elem_of_blocks. by simplify_eq.
Qed.

(** * Freeing what was allocated restores the state *)

Lemma put_halves_lookup k order p L i :
  (i < order ∨ order + k ≤ i)%nat → put_halves k order p L !! i = L !! i.
Proof.
  revert L. induction k as [|k IH]; intros L Hi; simpl; [done|].
  rewrite IH by lia. apply push_lookup_ne. lia.
Qed.

Lemma put_halves_S k order p L :
  put_halves (S k) order p L = push order (p + bsize order) (put_halves k (S order) p L).
Proof.
  revert L. induction k as [|k IH]; intros L.
  { simpl. by rewrite Nat.add_0_r. }
  change (put_halves (S (S k)) order p L)
    with (put_halves (S k) order p (push (order + S k) (p + bsize (order + S k)) L)).
  rewrite IH. cbn [put_halves]. by replace (order + S k)%nat with (S order + k)%nat by lia.
Qed.

Lemma drop_block_none q l : q ∉ l → drop_block q l = l.
Proof.
  unfold drop_block. induction l as [|x l IH]; intros Hq; [done|].
  apply not_elem_of_cons in Hq as [? ?]. by rewrite filter_cons_True, IH.
Qed.

Lemma drop_block_middle q l1 l2 : NoDup (l1 ++ q :: l2) → drop_block q (l1 ++ q :: l2) = l1 ++ l2.
Proof.
  intros (Hnd1 & Hdis & (Hq & Hnd2)%NoDup_cons)%NoDup_app. unfold drop_block.
  rewrite filter_app, filter_cons_False by (intros H; by apply H).
  f_equal; apply drop_block_none; [|done]. intros Hin. apply (Hdis q Hin). by left.
Qed.

(** Merging back the upper halves of a split, one order after the other. *)
Lemma free_put_halves k n order p L :
  aligned (p, (order + k)%nat) → (order + k ≤ length L - 1)%nat →
  (∀ i, (order ≤ i < order + k)%nat → L !! i = Some []) →
  free_merge (n + k) p order (put_halves k order p L) = free_merge n p (order + k) L.
Proof.
  revert order. induction k as [|k IH]; intros order Hal Hlen Hnil.
  { by rewrite !Nat.add_0_r. }
  rewrite put_halves_S, <- !plus_n_Sm. cbn [free_merge].
  assert (aligned (p, S order)) as Hal1 by (eapply aligned_lower; [exact Hal|lia]).
  rewrite (buddy_of_lower _ _ Hal1). pose proof (bsize_pos order).
  set (X := put_halves k (S order) p L).
  assert (X !! order = Some []) as HX.
  { subst X. rewrite put_halves_lookup by lia. apply Hnil. lia. }
  rewrite (list_lookup_total_correct _ _ _ (push_lookup _ _ _ _ HX)).
  rewrite decide_True by by left. rewrite Z.min_r by lia.
  replace (alter (drop_block (p + bsize order)) order (push order (p + bsize order) X)) with X.
  - subst X. rewrite (IH (S order)).
    + done.
    + by replace (S order + k)%nat with (order + S k)%nat by lia.
    + lia.
    + intros i Hi. apply Hnil. lia.
  - apply list_eq. intros i. destruct (decide (i = order)) as [->|Hne].
    + rewrite list_lookup_alter_eq, (push_lookup _ _ _ _ HX), HX.
      set (q := p + bsize order).
      change (Some [] = Some (drop_block q ([] ++ q :: []))).
      by rewrite drop_block_middle by apply NoDup_singleton.
    + by rewrite list_lookup_alter_ne, push_lookup_ne.
Qed.

Lemma spec_free_alloc L A M order p L' :
  tiled L A M → coalesced L → (order < orders)%nat →
  spec_alloc order L = Some (p, L') → spec_free p order L' = L.
Proof.
  unfold spec_alloc, spec_free. intros HT HL Hord.
  destruct (find_fit _ L order) as [[[o p'] l]|] eqn:Hf; [|done]. cbn -[orders Nat.sub]. intros [= -> <-].
  apply find_fit_Some in Hf as (Ho & Hlo & Hnone). pose proof (ti_len _ _ _ HT) as Hlen.
  assert ((p, o) ∈ blocks L) as Hp.
  { apply elem_of_blocks. exists (p :: l). split; [done|by left]. }
  replace (orders - 1 - order)%nat with ((orders - 1 - o) + (o - order))%nat by (unfold orders in *; lia).
  rewrite free_put_halves.
  - replace (order + (o - order))%nat with o by lia.
    assert (push o p (<[o := l]> L) = L) as Hback.
    { rewrite (push_insert _ _ l); [|apply list_lookup_insert_eq; by eapply lookup_lt_Some].
      rewrite list_insert_insert_eq. by apply list_insert_id. }
    destruct (orders - 1 - o)%nat eqn:Hk; cbn [free_merge]; [done|].
    rewrite decide_False; [done|]. intros Hin.
    rewrite list_lookup_total_alt, list_lookup_insert_eq in Hin by by eapply lookup_lt_Some.
    apply (HL p o); [lia|done|]. apply elem_of_blocks. exists (p :: l). split; [done|by right].
  - replace (order + (o - order))%nat with o by lia.
    apply (ti_ok _ _ _ HT). apply elem_of_app. by left.
  - rewrite length_insert. lia.
  - intros i Hi. rewrite list_lookup_insert_ne by lia.
    destruct (tiled_lookup L A M i HT) as [l' Hl']; [unfold orders in *; lia|].
    destruct l' as [|q l']; [done|]. exfalso. apply (Hnone i q); [lia|].
    apply elem_of_blocks. exists (q :: l'). split; [done|by left].
Qed.

(** * When an allocation succeeds *)

(** All frames of [b] are free. *)
Definition all_free L b : Prop := ∀ f, f ∈ frames b → ∃ c, c ∈ blocks L ∧ f ∈ frames c.

(** In a coalesced state a free aligned run lies inside one free block. *)
Lemma coalesced_run L A M p i :
  tiled L A M → coalesced L → aligned (p, i) → (i < orders)%nat → all_free L (p, i) →
  ∃ q j, (q, j) ∈ blocks L ∧ (i ≤ j)%nat ∧ frames (p, i) ⊆ frames (q, j).
Proof.
  intros HT HL. revert p. induction i as [|i IH]; intros p Hal Hi Hfree.
  { destruct (Hfree (p / PMM_FRAME_SIZE)) as ([q j] & Hc & Hf); [apply first_frame|].
    exists q, j. split; [done|split; [lia|]].
    eapply aligned_nested; [done| |lia|apply first_frame|done].
    apply (ti_ok _ _ _ HT), elem_of_app. by left. }
  assert (∀ c, c ∈ blocks L → aligned c) as HalL.
  { intros c Hc. apply (ti_ok _ _ _ HT), elem_of_app. by left. }
  destruct (frames_split p i) as [Heq Hdis].
  assert (aligned (p, i)) as Hal1 by (eapply aligned_lower; [exact Hal|lia]).
  assert (aligned (p + bsize i, i)) as Hal2.
  { unfold aligned in *. cbn in *. by rewrite <- Zplus_mod_idemp_r, Z_mod_same_full, Z.add_0_r. }
  destruct (IH p Hal1) as (q1 & j1 & Hc1 & Hj1 & Hs1); [lia| |].
  { intros f Hf. apply Hfree. rewrite Heq. clear -Hf. set_solver. }
  destruct (IH _ Hal2) as (q2 & j2 & Hc2 & Hj2 & Hs2); [lia| |].
  { intros f Hf. apply Hfree. rewrite Heq. clear -Hf. set_solver. }
  pose proof (first_frame p i) as Hf1. pose proof (first_frame (p + bsize i) i) as Hf2.
  destruct (decide (S i ≤ j1)%nat).
  { exists q1, j1. split; [done|split; [done|]]. eapply aligned_nested; [done|by apply HalL|done| |by apply Hs1].
    rewrite Heq. clear -Hf1. set_solver. }
  destruct (decide (S i ≤ j2)%nat).
  { exists q2, j2. split; [done|split; [done|]]. eapply aligned_nested; [done|by apply HalL|done| |by apply Hs2].
    rewrite Heq. clear -Hf2. set_solver. }
  assert (j1 = i) as -> by lia. assert (j2 = i) as -> by lia.
  assert (∀ a b : Z, aligned (a, i) → aligned (b, i) → a / PMM_FRAME_SIZE ∈ frames (b, i) → a = b) as Hsame.
  { clear. intros a b Ha Hb Hin. pose proof (aligned_frame _ _ Ha). pose proof (aligned_frame _ _ Hb).
    assert (frames (b, i) ⊆ frames (a, i)) as Hsub.
    { eapply aligned_nested; [done..|apply Hin|apply first_frame]. }
    specialize (Hsub _ (first_frame b i)). rewrite elem_of_frames in Hin, Hsub.
    unfold PMM_FRAME_SIZE in *. lia. }
  exfalso. apply (HL p i Hi).
  - by rewrite (Hsame p q1); [|done|by apply HalL|by apply Hs1].
  - rewrite (buddy_of_lower _ _ Hal). by rewrite (Hsame (p + bsize i) q2); [|done|by apply HalL|by apply Hs2].
Qed.

(** A request fails only when no block is free that is large enough. *)
Lemma spec_alloc_none L A M order q j :
  tiled L A M → spec_alloc order L = None → (order ≤ j)%nat → (q, j) ∈ blocks L → False.
Proof.
  intros HT Hn Hj Hq. unfold spec_alloc in Hn.
  destruct (find_fit (orders - order) L order) as [[[o p] l]|] eqn:Hf; [done|].
  apply (find_fit_None _ _ _ Hf j q); [|done].
  assert (j < orders)%nat; [|lia]. apply elem_of_blocks in Hq as (l & Hl & _).
  rewrite <- (ti_len _ _ _ HT). by eapply lookup_lt_Some.
Qed.

Lemma spec_alloc_fails L A M order :
  tiled L A M → coalesced L → (order < orders)%nat →
  spec_alloc order L = None ↔ ∀ p, aligned (p, order) → ¬ all_free L (p, order).
Proof.
  intros HT HL Ho. unfold spec_alloc.
  destruct (find_fit (orders - order) L order) as [[[o p] l]|] eqn:Hf;
    cbn -[orders Nat.sub]; (split; [intros Hx; try discriminate Hx|intros Hnone; try done]).
  - exfalso. apply find_fit_Some in Hf as (Hoo & Hlo & _).
    assert ((p, o) ∈ blocks L) as Hp.
    { apply elem_of_blocks. exists (p :: l). split; [done|by left]. }
    assert (aligned (p, o)) as Hal by (apply (ti_ok _ _ _ HT), elem_of_app; by left).
    assert (aligned (p, order)) as Hal' by (eapply aligned_lower; [exact Hal|lia]).
    apply (Hnone p Hal'). intros f Hf. exists (p, o). split; [done|].
    eapply (aligned_nested p order p o); [done|done|lia|apply first_frame..|done].
  - intros p Hal Hfree.
    destruct (coalesced_run L A M p order) as (q & j & Hq & Hj & _); try done.
    eapply spec_alloc_none; [exact HT| |exact Hj|exact Hq]. unfold spec_alloc. by rewrite Hf.
Qed.

(** * Counting *)

(** Frames covered by a list of blocks. *)
Definition weight B : Z := foldr (λ b n, 2 ^ b.2 + n) 0 B.

Lemma weight_app B1 B2 : weight (B1 ++ B2) = weight B1 + weight B2.
Proof. unfold weight. induction B1; simpl; lia. Qed.

Lemma weight_nonneg B : 0 ≤ weight B.
Proof.
  unfold weight. induction B as [|b B IH]; simpl; [lia|].
  pose proof (pow2_pos b.2 ltac:(lia)). lia.
Qed.

(** The same, in bytes, from the lengths of the lists of orders [o], [o + 1], ... *)
Fixpoint list_bytes o L : Z :=
  match L with
  | [] => 0
  | l :: L => length l * bsize o + list_bytes (S o) L
  end.

Lemma list_bytes_app o L1 L2 :
  list_bytes o (L1 ++ L2) = list_bytes o L1 + list_bytes (o + length L1) L2.
Proof.
  revert o. induction L1 as [|l L1 IH]; intros o; simpl; [by rewrite Nat.add_0_r|].
  rewrite IH. replace (S o + length L1)%nat with (o + S (length L1))%nat by lia. lia.
Qed.

Lemma list_bytes_weight o L :
  list_bytes o L = PMM_FRAME_SIZE * weight (concat (imap (λ i, tag (o + i)) L)).
Proof.
  revert o. induction L as [|l L IH]; intros o; simpl; [done|].
  rewrite weight_app, IH, Nat.add_0_r.
  assert (weight (tag o l) = length l * 2 ^ o) as ->.
  { clear. induction l as [|p l IH]; [done|]. cbn [tag fmap list_fmap length].
    change (weight ((p, o) :: tag o l) = S (length l) * 2 ^ o). cbn [weight foldr]. fold (weight (tag o l)).
    rewrite IH. cbn. lia. }
  assert (imap (λ i, tag (S o + i)) L = imap ((λ i, tag (o + i)) ∘ S) L) as ->.
  { apply imap_ext. intros i x _. cbn. by rewrite <- plus_n_Sm. }
  unfold bsize. lia.
Qed.

Lemma tiled_bytes L A M :
  tiled L A M → list_bytes 0 L = PMM_FRAME_SIZE * (Z.of_nat (size M) - weight A).
Proof.
  intros HT. rewrite list_bytes_weight. f_equal. rewrite <- (tiles_size _ _ (ti_tiles _ _ _ HT)).
  fold (weight (blocks L ++ A)). rewrite weight_app. unfold blocks.
  change (λ i, tag (0 + i)) with tag. lia.
Qed.

(** ** Blocks that are out are pairwise disjoint. *)
Lemma tiled_disjoint L A M B1 B2 B3 b1 b2 :
  tiled L A M → A = B1 ++ b1 :: B2 ++ b2 :: B3 → frames b1 ## frames b2.
Proof.
  intros HT ->. apply (tiled_apart L _ M b1 b2 (blocks L ++ B1 ++ B2 ++ B3) HT).
  solve_Permutation.
Qed.
