(* ===== verification/Buddy.v ===== *)
(** kernel/core/mm/buddy.c: the binary buddy allocator.

    [buddy_state] holds the static variables; the doubly linked free-list nodes
    live in memory, at the base of each free block, exactly as in the code.  The
    abstract state is one list of physical block addresses per order
    ([lists]); [buddy_rep] relates the two, and the operations are shown to
    implement [spec_alloc] and [spec_free] on it. *)

From stdpp Require Import base list gmap sets.
From Stdlib Require Import ZArith Lia.
From S2P Require Import Prelude.
From S2P Require Import Mem.
From S2P Require Import Pmm.
From S2P Require Import Blocks.

#[local] Coercion Z.of_nat : nat >-> Z.

(** * State *)

Definition BUDDY_MAX_ORDER : Z := 10.

Record buddy_state := {
  free_list : list Z;    (* head node of each order's list, 0 for NULL *)
  free_count : list Z;
  g_hhdm : Z;
}.

Implicit Types (bs : buddy_state) (m : mem) (order o n phys p q x : Z).

(** * Address helpers.  A node is { next at offset 0; prev at offset 8 }. *)

Definition node_at bs phys : Z := u64 (phys + g_hhdm bs).
Definition phys_of bs n : Z := u64 (n - g_hhdm bs).
Definition block_bytes o : Z := u64 (Z.shiftl PMM_FRAME_SIZE o).

Definition node_next m n : outcome Z := load64 m n.
Definition node_prev m n : outcome Z := load64 m (n + 8).
Definition set_next m n v : outcome mem := store64 m n v.
Definition set_prev m n v : outcome mem := store64 m (n + 8) v.

#[local] Arguments node_next : simpl never.
#[local] Arguments node_prev : simpl never.
#[local] Arguments set_next : simpl never.
#[local] Arguments set_prev : simpl never.

(** * Free-list primitives *)

Definition set_head bs order v : outcome buddy_state :=
  fl ← arr_set (free_list bs) order v;
  Ok {| free_list := fl; free_count := free_count bs; g_hhdm := g_hhdm bs |}.

Definition add_count bs order (d : Z) : outcome buddy_state :=
  c ← arr_get (free_count bs) order;
  fc ← arr_set (free_count bs) order (u64 (c + d));
  Ok {| free_list := free_list bs; free_count := fc; g_hhdm := g_hhdm bs |}.

Definition list_push bs m order phys : outcome (buddy_state * mem) :=
  let n := node_at bs phys in
  m ← set_prev m n 0;
  head ← arr_get (free_list bs) order;
  m ← set_next m n head;
  m ← (if head =? 0 then Ok m else set_prev m head n);
  bs ← set_head bs order n;
  bs ← add_count bs order 1;
  Ok (bs, m).

Definition list_remove bs m order n : outcome (buddy_state * mem) :=
  prev ← node_prev m n;
  '(bs, m) ← (if prev =? 0
              then next ← node_next m n; bs ← set_head bs order next; Ok (bs, m)
              else next ← node_next m n; m ← set_next m prev next; Ok (bs, m));
  next ← node_next m n;
  m ← (if next =? 0 then Ok m else prev ← node_prev m n; set_prev m next prev);
  bs ← add_count bs order (-1);
  Ok (bs, m).

Definition list_find bs m order phys : outcome Z :=
  head ← arr_get (free_list bs) order;
  loop (λ n,
    if n =? 0 then Ok (inr 0)
    else if phys_of bs n =? phys then Ok (inr n)
    else next ← node_next m n; Ok (inl next)) head.

(** * Allocate *)

(** The smallest order from [order] on whose list is not empty; past
    [BUDDY_MAX_ORDER] when there is none. *)
Definition find_order bs order : outcome Z :=
  loop (λ o,
    if o <=? BUDDY_MAX_ORDER then
      head ← arr_get (free_list bs) o;
      if head =? 0 then Ok (inl (o + 1)) else Ok (inr o)
    else Ok (inr o)) order.

(** Split the block at [phys] of order [o] down to [order]. *)
Definition split_down bs m order o phys : outcome (buddy_state * mem) :=
  loop (λ '(o, bs, m),
    if order <? o then
      let o := o - 1 in
      let upper := u64 (phys + block_bytes o) in
      '(bs, m) ← list_push bs m o upper;
      Ok (inl (o, bs, m))
    else Ok (inr (bs, m))) (o, bs, m).

Definition buddy_alloc bs m order : outcome (buddy_state * mem * Z) :=
  if BUDDY_MAX_ORDER <? order then Ok (bs, m, 0) else
  o ← find_order bs order;
  if BUDDY_MAX_ORDER <? o then Ok (bs, m, 0) else
  n ← arr_get (free_list bs) o;
  '(bs, m) ← list_remove bs m o n;
  let phys := phys_of bs n in
  '(bs, m) ← split_down bs m order o phys;
  Ok (bs, m, phys).

(** * Free *)

Definition buddy_free bs m phys order : outcome (buddy_state * mem) :=
  if BUDDY_MAX_ORDER <? order then Ok (bs, m) else
  '(phys, order, bs, m) ← loop (λ '(phys, order, bs, m),
    if order <? BUDDY_MAX_ORDER then
      let buddy := Z.lxor phys (block_bytes order) in
      bn ← list_find bs m order buddy;
      if bn =? 0 then Ok (inr (phys, order, bs, m)) else
      '(bs, m) ← list_remove bs m order bn;
      Ok (inl (if buddy <? phys then buddy else phys, order + 1, bs, m))
    else Ok (inr (phys, order, bs, m))) (phys, order, bs, m);
  list_push bs m order phys.

(** * Init *)

(** The order of the block to emit at frame [f] of a run ending at [end_]. *)
Definition fit_order (f end_ : Z) : outcome Z :=
  loop (λ order,
    if (0 <? order) &&
       (negb (Z.land f (u64 (Z.shiftl 1 order) - 1) =? 0) ||
        (end_ <? u64 (f + u64 (Z.shiftl 1 order))))
    then Ok (inl (order - 1))
    else Ok (inr order)) BUDDY_MAX_ORDER.

Definition seed_run bs m (first end_ : Z) : outcome (buddy_state * mem) :=
  loop (λ '(f, bs, m),
    if f <? end_ then
      order ← fit_order f end_;
      '(bs, m) ← list_push bs m order (u64 (f * PMM_FRAME_SIZE));
      Ok (inl (u64 (f + u64 (Z.shiftl 1 order)), bs, m))
    else Ok (inr (bs, m))) (first, bs, m).

Section init.
Context `{!Limine}.

(** Extend a claimed run from frame [f]: the inner [while] of [buddy_init]. *)
Definition extend_run ps m (f end_ claimed budget : Z)
  : outcome (pmm_state * mem * Z * Z) :=
  loop (λ '(f, claimed, ps, m),
    if (f <? end_) && (claimed <? budget) then
      '(ps, m, ok) ← pmm_claim_frame ps m (u64 (f * PMM_FRAME_SIZE));
      if (ok : bool) then Ok (inl (f + 1, u64 (claimed + 1), ps, m))
      else Ok (inr (ps, m, f, claimed))
    else Ok (inr (ps, m, f, claimed))) (f, claimed, ps, m).

(** All runs of one usable region [first, end_). *)
Definition claim_region bs ps m (first end_ claimed budget : Z)
  : outcome (buddy_state * pmm_state * mem * Z) :=
  loop (λ '(f, claimed, bs, ps, m),
    if (f <? end_) && (claimed <? budget) then
      '(ps, m, ok) ← pmm_claim_frame ps m (u64 (f * PMM_FRAME_SIZE));
      if negb ok then Ok (inl (f + 1, claimed, bs, ps, m)) else
      let run_start := f in
      '(ps, m, f, claimed) ← extend_run ps m (f + 1) end_ (u64 (claimed + 1)) budget;
      '(bs, m) ← seed_run bs m run_start f;
      Ok (inl (f, claimed, bs, ps, m))
    else Ok (inr (bs, ps, m, claimed))) (first, claimed, bs, ps, m).

Fixpoint claim_regions bs ps m (memmap : list limine_memmap_entry) (claimed budget : Z)
  : outcome (buddy_state * pmm_state * mem) :=
  match memmap with
  | [] => Ok (bs, ps, m)
  | e :: rest =>
      if claimed <? budget then
        if usable e then
          let first := base e / PMM_FRAME_SIZE in
          let end_ := u64 (first + length_ e / PMM_FRAME_SIZE) in
          '(bs, ps, m, claimed) ← claim_region bs ps m first end_ claimed budget;
          claim_regions bs ps m rest claimed budget
        else claim_regions bs ps m rest claimed budget
      else Ok (bs, ps, m)
  end.

Definition buddy_init ps m (memmap : list limine_memmap_entry) (hhdm_offset reserve_frames : Z)
  : outcome (buddy_state * pmm_state * mem) :=
  let bs := {| free_list := replicate 11 0; free_count := replicate 11 0;
               g_hhdm := hhdm_offset |} in
  let '(_, _, pmm_free) := pmm_get_stats ps in
  let budget := if reserve_frames <? pmm_free then u64 (pmm_free - reserve_frames) else 0 in
  claim_regions bs ps m memmap 0 budget.
End init.

(** * Statistics *)

Definition buddy_get_stats bs : outcome (list Z * Z) :=
  total ← for_each 0 (BUDDY_MAX_ORDER + 1) (λ o total,
            c ← arr_get (free_count bs) o;
            Ok (u64 (total + u64 (c * block_bytes o)))) 0;
  Ok (free_count bs, total).

(** * Free lists as lists of addresses *)

(** [dseg m prev l nxt]: from the first to the last node of [l], the [next]
    links follow [l] and end in [nxt], the [prev] links follow it backwards and
    start from [prev]. *)
Fixpoint dseg m (prev : Z) (l : list Z) (nxt : Z) : Prop :=
  match l with
  | [] => True
  | n :: l' =>
      node_next m n = Ok (default nxt (head l')) ∧ node_prev m n = Ok prev ∧ dseg m n l' nxt
  end.

Lemma dseg_app m prev l1 l2 nxt :
  dseg m prev (l1 ++ l2) nxt ↔
  dseg m prev l1 (default nxt (head l2)) ∧ dseg m (default prev (last l1)) l2 nxt.
Proof.
  revert prev. induction l1 as [|n l1 IH]; intros prev; [simpl; tauto|].
  cbn [app dseg]. rewrite IH, last_cons.
  assert (default nxt (head (l1 ++ l2)) = default (default nxt (head l2)) (head l1)) as ->
    by by destruct l1.
  assert (default prev (match last l1 with Some y => Some y | None => Some n end) =
          default n (last l1)) as -> by by destruct (last l1).
  tauto.
Qed.

(** Writes that touch none of the nodes keep the segment. *)
Lemma dseg_mods P m m' prev l nxt :
  mods P m m' → (∀ n x, n ∈ l → range n 16 x → ¬ P x) →
  dseg m prev l nxt → dseg m' prev l nxt.
Proof.
  intros Hm. revert prev. induction l as [|n l IH]; intros prev HP; simpl; [done|].
  intros (Hn & Hp & Hs). unfold node_next, node_prev in *. split; [|split].
  - rewrite <- Hn. eapply load64_mods; [done|]. intros x Hx. apply (HP n); [by left|].
    unfold range in *. lia.
  - rewrite <- Hp. eapply load64_mods; [done|]. intros x Hx. apply (HP n); [by left|].
    unfold range in *. lia.
  - apply IH; [|done]. intros n' x Hn'. apply HP. by right.
Qed.

(** Page-aligned nodes either coincide or do not overlap. *)
Definition pages_apart (l : list Z) : Prop :=
  ∀ a b, a ∈ l → b ∈ l → a ≠ b → a + 16 ≤ b ∨ b + 16 ≤ a.

Lemma node_write_apart (l : list Z) a off m m' :
  pages_apart l → a ∈ l → 0 ≤ off ≤ 8 → mods (range (a + off) 8) m m' →
  ∀ prev s nxt, (∀ n, n ∈ s → n ∈ l ∧ n ≠ a) → dseg m prev s nxt → dseg m' prev s nxt.
Proof.
  intros Hap Ha Hoff Hm prev s nxt Hs. apply (dseg_mods _ _ _ _ _ _ Hm).
  intros n x Hn. destruct (Hs n Hn) as [Hnl Hne].
  destruct (Hap n a Hnl Ha Hne); unfold range; lia.
Qed.

(** ** The representation *)

Definition nodes bs (l : list Z) : list Z := node_at bs <$> l.

(** The bytes of the nodes of the blocks [l]. *)
Definition node_bytes bs (l : list Z) : Z → Prop :=
  λ x, ∃ p, p ∈ l ∧ range (node_at bs p) 16 x.

Definition addr_ok bs p : Prop :=
  0 < p ∧ p mod PMM_FRAME_SIZE = 0 ∧ p + g_hhdm bs + PMM_FRAME_SIZE ≤ 2 ^ 64.

Record buddy_rep bs m (L : lists) : Prop := {
  br_len : length L = 11%nat;
  br_hhdm : 0 ≤ g_hhdm bs;
  br_heads : free_list bs = (λ l, default 0 (head (nodes bs l))) <$> L;
  br_counts : free_count bs = (λ l, Z.of_nat (length l)) <$> L;
  br_segs : ∀ (o : nat) l, L !! o = Some l → dseg m 0 (nodes bs l) 0;
  br_addrs : ∀ p, p ∈ concat L → addr_ok bs p;
  br_nodup : NoDup (concat L);
}.

Implicit Types (L : lists) (l : list Z).

Lemma node_at_ok bs p : 0 ≤ g_hhdm bs → addr_ok bs p → node_at bs p = p + g_hhdm bs.
Proof. unfold addr_ok, PMM_FRAME_SIZE. intros ? (? & ? & ?). apply u64_id. lia. Qed.

Lemma phys_of_node bs p : 0 ≤ g_hhdm bs → addr_ok bs p → phys_of bs (node_at bs p) = p.
Proof.
  intros Hh Hp. rewrite node_at_ok by done. unfold phys_of.
  destruct Hp as (? & ? & ?). unfold PMM_FRAME_SIZE in *.
  replace (p + g_hhdm bs - g_hhdm bs) with p by lia. apply u64_id. lia.
Qed.

Lemma node_pos bs p : 0 ≤ g_hhdm bs → addr_ok bs p → node_at bs p ≠ 0.
Proof. intros Hh Hp. rewrite node_at_ok by done. destruct Hp. lia. Qed.

Lemma node_apart bs p q :
  0 ≤ g_hhdm bs → addr_ok bs p → addr_ok bs q → p ≠ q →
  node_at bs p + 4096 ≤ node_at bs q ∨ node_at bs q + 4096 ≤ node_at bs p.
Proof.
  intros Hh Hp Hq Hne. rewrite !node_at_ok by done.
  destruct Hp as (_ & Hp & _), Hq as (_ & Hq & _). unfold PMM_FRAME_SIZE in *. div_lia.
Qed.

Lemma nodes_pages_apart bs l :
  0 ≤ g_hhdm bs → (∀ p, p ∈ l → addr_ok bs p) → pages_apart (nodes bs l).
Proof.
  intros Hh Hl a b (p & -> & Hp)%list_elem_of_fmap (q & -> & Hq)%list_elem_of_fmap Hne.
  destruct (node_apart bs p q) as [?|?]; auto; [congruence|lia..].
Qed.

Lemma in_list_concat L (o : nat) l p : L !! o = Some l → p ∈ l → p ∈ concat L.
Proof. intros Hl Hp. rewrite (concat_lookup o l L Hl). apply elem_of_app. by left. Qed.

(** Replacing one list, with the writes confined to the nodes of that list. *)
Lemma rep_update bs m L (o : nat) l l' m' P :
  buddy_rep bs m L → L !! o = Some l →
  dseg m' 0 (nodes bs l') 0 → mods P m m' → (∀ x, P x → node_bytes bs (l ++ l') x) →
  (∀ p, p ∈ l' → addr_ok bs p) → NoDup (concat (<[o := l']> L)) →
  buddy_rep {| free_list := <[o := default 0 (head (nodes bs l'))]> (free_list bs);
               free_count := <[o := Z.of_nat (length l')]> (free_count bs);
               g_hhdm := g_hhdm bs |} m' (<[o := l']> L).
Proof.
  intros R Hl Hseg Hm HP Hok Hnd. pose proof (lookup_lt_Some _ _ _ Hl) as Hlt.
  destruct R. split; simpl; try done.
  - by rewrite length_insert.
  - by rewrite br_heads0, list_fmap_insert.
  - by rewrite br_counts0, list_fmap_insert.
  - intros o2 l2 Hl2. destruct (decide (o = o2)) as [<-|Hne].
    { rewrite list_lookup_insert_eq in Hl2 by done. by simplify_eq. }
    rewrite list_lookup_insert_ne in Hl2 by done.
    eapply (dseg_mods P m); [done| |by eapply br_segs0].
    intros n x (q & -> & Hq)%list_elem_of_fmap Hx (p & Hp & Hx')%HP.
    pose proof (concat_other o o2 l l2 L q Hl Hl2 Hne Hq) as Hrest.
    assert (p ≠ q) as Hpq.
    { intros ->. apply elem_of_app in Hp as [Hp|Hp].
      - rewrite (concat_lookup o l L Hl), NoDup_app in br_nodup0.
        destruct br_nodup0 as (_ & Hdis & _). by apply (Hdis q).
      - rewrite (concat_insert o l' L Hlt), NoDup_app in Hnd.
        destruct Hnd as (_ & Hdis & _). by apply (Hdis q). }
    assert (addr_ok bs p) as Hpok.
    { apply elem_of_app in Hp as [Hp|Hp]; [|by apply Hok].
      apply br_addrs0. by apply (in_list_concat L o l). }
    assert (addr_ok bs q) as Hqok by (by apply br_addrs0, (in_list_concat L o2 l2)).
    unfold range, node_at in *. simpl in *. destruct (node_apart bs p q); try done;
      unfold node_at in *; lia.
  - intros p. rewrite (concat_insert o l' L Hlt), elem_of_app. intros [Hp|Hp]; [by apply Hok|].
    apply br_addrs0. rewrite (concat_lookup o l L Hl). apply elem_of_app. by right.
Qed.

(** There are fewer than 2^52 free blocks, so the counters do not wrap. *)
Lemma rep_length bs m L (o : nat) l : buddy_rep bs m L → L !! o = Some l → Z.of_nat (length l) < 2 ^ 53.
Proof.
  intros R Hl. pose proof (br_nodup _ _ _ R) as Hnd.
  rewrite (concat_lookup o l L Hl), NoDup_app in Hnd. destruct Hnd as (Hnd & _).
  pose proof (size_bounded (list_to_set ((λ p, p / 4096) <$> l)) 0 (2 ^ 52) ltac:(lia)) as Hs.
  rewrite size_list_to_set, length_fmap in Hs.
  - apply (Z.le_lt_trans _ (2 ^ 52 - 0)); [|lia]. apply Hs.
    intros x (p & -> & Hp)%elem_of_list_to_set%list_elem_of_fmap.
    destruct (br_addrs _ _ _ R p) as (? & ? & ?); [by eapply in_list_concat|].
    pose proof (br_hhdm _ _ _ R). unfold PMM_FRAME_SIZE in *. div_lia.
  - apply NoDup_fmap_2_strong; [|done]. intros p q Hp Hq Heq.
    destruct (br_addrs _ _ _ R p) as (_ & Hpa & _); [by eapply in_list_concat|].
    destruct (br_addrs _ _ _ R q) as (_ & Hqa & _); [by eapply in_list_concat|].
    unfold PMM_FRAME_SIZE in *. div_lia.
Qed.

(** ** The list primitives on the representation *)

Lemma rep_head bs m L (o : nat) l :
  buddy_rep bs m L → L !! o = Some l →
  arr_get (free_list bs) o = Ok (default 0 (head (nodes bs l))).
Proof.
  intros R Hl. apply arr_get_Some. by rewrite (br_heads _ _ _ R), list_lookup_fmap, Hl.
Qed.

(** The static array updates of a push or a removal. *)
Lemma rep_arrays bs m L (o : nat) l d v :
  buddy_rep bs m L → L !! o = Some l → 0 ≤ Z.of_nat (length l) + d < 2 ^ 64 →
  (bs' ← set_head bs o v; add_count bs' o d) =
  Ok {| free_list := <[o := v]> (free_list bs);
        free_count := <[o := Z.of_nat (length l) + d]> (free_count bs);
        g_hhdm := g_hhdm bs |}.
Proof.
  intros R Hl Hd. pose proof (lookup_lt_Some _ _ _ Hl) as Hlt.
  unfold set_head. rewrite arr_set_lt by by rewrite (br_heads _ _ _ R), length_fmap.
  cbn. unfold add_count. cbn.
  rewrite (arr_get_Some _ _ (Z.of_nat (length l)))
    by by rewrite (br_counts _ _ _ R), list_lookup_fmap, Hl.
  cbn. rewrite arr_set_lt by by rewrite (br_counts _ _ _ R), length_fmap.
  cbn. by rewrite u64_id by done.
Qed.

Lemma node_backed_next m n : backed m n 16 → backed m n 8.
Proof. intros H. eapply backed_sub; [exact H|lia..]. Qed.
Lemma node_backed_prev m n : backed m n 16 → backed m (n + 8) 8.
Proof. intros H. eapply backed_sub; [exact H|lia..]. Qed.

(** Addresses that can be the nodes of one list. *)
Record good_nodes (l : list Z) : Prop := {
  gn_apart : pages_apart l;
  gn_nodup : NoDup l;
  gn_range : ∀ a, a ∈ l → 0 < a < 2 ^ 64;
}.

Lemma good_nodes_perm l l' : l ≡ₚ l' → good_nodes l → good_nodes l'.
Proof.
  intros Hp [Ha Hn Hr]. split.
  - intros a b Hin Hin'. apply Ha; by rewrite Hp.
  - by rewrite <- Hp.
  - intros a Hin. apply Hr. by rewrite Hp.
Qed.

Lemma good_nodes_app l l' : good_nodes (l ++ l') → good_nodes l ∧ good_nodes l'.
Proof.
  intros [Ha Hn Hr]. apply NoDup_app in Hn as (? & _ & ?).
  split; split; try done; try (intros a b Hin Hin'; apply Ha; apply elem_of_app; auto);
    intros a Hin; apply Hr; apply elem_of_app; auto.
Qed.

Lemma nodes_good bs l :
  0 ≤ g_hhdm bs → (∀ p, p ∈ l → addr_ok bs p) → NoDup l → good_nodes (nodes bs l).
Proof.
  intros Hh Hok Hnd. split; [by apply nodes_pages_apart| |].
  - apply NoDup_fmap_2_strong; [|done]. intros p q Hp Hq Heq.
    rewrite <- (phys_of_node bs p), <- (phys_of_node bs q), Heq; auto.
  - intros a (p & -> & Hp)%list_elem_of_fmap. apply Hok in Hp.
    rewrite node_at_ok by done. destruct Hp as (? & ? & ?). unfold PMM_FRAME_SIZE in *. lia.
Qed.

(** Writing one link of one node of a list. *)
Lemma dseg_set_next m m' prev l a nxt v :
  stored64 a v m m' → good_nodes (l ++ [a]) →
  dseg m prev (l ++ [a]) nxt → dseg m' prev (l ++ [a]) v.
Proof.
  intros [Hm Hv] [Hap Hnd _]. rewrite !dseg_app. simpl. intros (Hl & Hn & Hp & _).
  split; [|split; [done|split; [|done]]].
  - eapply (node_write_apart _ a 0); [exact Hap|set_solver|lia|by rewrite Z.add_0_r| |done].
    intros n Hin. split; [set_solver|]. intros ->.
    apply NoDup_app in Hnd as (_ & Hdis & _). apply (Hdis a Hin). set_solver.
  - unfold node_prev. rewrite (load64_apart m m' a 8); [done|done|unfold apart; lia].
Qed.

Lemma dseg_set_prev m m' prev l a nxt v :
  stored64 (a + 8) v m m' → good_nodes (a :: l) →
  dseg m prev (a :: l) nxt → dseg m' v (a :: l) nxt.
Proof.
  intros [Hm Hv] [Hap Hnd _]. simpl. intros (Hn & Hp & Hl). split; [|split; [done|]].
  - unfold node_next. rewrite (load64_apart m m' (a + 8) 8); [done|done|unfold apart; lia].
  - eapply (node_write_apart _ a 8); [exact Hap|by left|lia|done| |done].
    intros n Hin. split; [by right|]. intros ->. by apply NoDup_cons in Hnd as [? _].
Qed.

Lemma rep_list bs m L (o : nat) l :
  buddy_rep bs m L → L !! o = Some l → NoDup l ∧ ∀ p, p ∈ l → addr_ok bs p.
Proof.
  intros R Hl. split.
  - pose proof (br_nodup _ _ _ R) as Hnd. rewrite (concat_lookup o l L Hl) in Hnd.
    by apply NoDup_app in Hnd as [? _].
  - intros p Hp. by eapply (br_addrs _ _ _ R), in_list_concat.
Qed.

Lemma dseg_backed m prev l nxt n : dseg m prev l nxt → n ∈ l → backed m n 16.
Proof.
  revert prev. induction l as [|a l IH]; intros prev; [by intros _ ?%elem_of_nil|].
  simpl. intros (Hn & Hp & Hl) [->|Hin]%elem_of_cons; [|by eapply IH].
  apply load64_backed in Hn, Hp. intros x Hx. unfold range in *.
  destruct (decide (x < a + 8)); [apply Hn|apply Hp]; unfold range; lia.
Qed.

Lemma range_node_bytes bs p l a len :
  p ∈ l → node_at bs p ≤ a → a + len ≤ node_at bs p + 16 →
  ∀ x, range a len x → node_bytes bs l x.
Proof. unfold range. intros Hp ?? x ?. exists p. unfold range. split; [done|lia]. Qed.

(** The bytes of the nodes themselves. *)
Definition link_bytes (l : list Z) : Z → Prop := λ x, ∃ a, a ∈ l ∧ range a 16 x.

Lemma link_bytes_of l a off len :
  a ∈ l → 0 ≤ off → off + len ≤ 16 → ∀ x, range (a + off) len x → link_bytes l x.
Proof. unfold range. intros ??? x ?. exists a. unfold range. split; [done|lia]. Qed.

(** A write to one node leaves segments of other nodes alone. *)
Lemma dseg_other (all s : list Z) a off m m' prev nxt :
  good_nodes all → a ∈ all → 0 ≤ off ≤ 8 → mods (range (a + off) 8) m m' →
  (∀ n, n ∈ s → n ∈ all) → a ∉ s → dseg m prev s nxt → dseg m' prev s nxt.
Proof.
  intros [Hap _ _] Ha Hoff Hm Hs Hn. eapply node_write_apart; [done..|].
  intros n Hin. split; [by apply Hs|]. by intros ->.
Qed.

Lemma link_bytes_next l a : a ∈ l → ∀ x, range a 8 x → link_bytes l x.
Proof. unfold range. intros ? x ?. exists a. unfold range. split; [done|lia]. Qed.

Lemma link_bytes_prev l a : a ∈ l → ∀ x, range (a + 8) 8 x → link_bytes l x.
Proof. unfold range. intros ? x ?. exists a. unfold range. split; [done|lia]. Qed.

(** Linking a new first node in front of a list. *)
Lemma push_links m n l :
  good_nodes (n :: l) → backed m n 16 → dseg m 0 l 0 →
  returns (m1 ← set_prev m n 0;
           m2 ← set_next m1 n (default 0 (head l));
           if default 0 (head l) =? 0 then Ok m2 else set_prev m2 (default 0 (head l)) n)
    (λ m', mods (link_bytes (n :: l)) m m' ∧ dseg m' 0 (n :: l) 0).
Proof.
  intros Hg Hb Hs. pose proof (gn_range _ Hg) as Hr.
  pose proof (Hr n (list_elem_of_here _ _)) as Hn.
  assert (n ∉ l) as Hnl by (pose proof (gn_nodup _ Hg) as Hnd; by apply NoDup_cons in Hnd as [? _]).
  unfold set_prev at 1. ret_step store64_returns; [by apply node_backed_prev|lia|].
  intros m1 [Hm1 Hv1]. unfold set_next. ret_step store64_returns.
  { eapply mods_backed; [exact Hm1|by apply node_backed_next]. }
  { destruct l as [|h l]; simpl; [lia|]. specialize (Hr h ltac:(set_solver)). lia. }
  intros m2 [Hm2 Hv2].
  assert (mods (link_bytes (n :: l)) m m2) as Hm02.
  { eapply mods_trans; (eapply mods_weaken; [eassumption|]).
    - apply link_bytes_prev. by left.
    - apply link_bytes_next. by left. }
  assert (dseg m2 0 l 0) as Hs2.
  { eapply (dseg_other (n :: l) l n 0); [done|by left|lia|by rewrite Z.add_0_r|by right|done|].
    eapply (dseg_other (n :: l) l n 8); [done|by left|lia|done|by right|done|done]. }
  assert (dseg m2 0 [n] (default 0 (head l))) as Hn2.
  { split; [done|split; [|done]]. unfold node_prev.
    rewrite (load64_apart m1 m2 n 8); [done|done|unfold apart; lia]. }
  clear Hs Hm1 Hv1 Hm2 Hv2. destruct l as [|h l]; [by split|].
  change (default 0 (head (h :: l))) with h in *.
  specialize (Hr h ltac:(set_solver)). destruct (Z.eqb_spec h 0) as [?|_]; [lia|].
  eapply returns_mono; [apply store64_returns; [|lia]|].
  { apply node_backed_prev. eapply dseg_backed; [exact Hs2|by left]. }
  intros m3 [Hm3 Hv3]. split.
  - eapply mods_trans; [exact Hm02|]. eapply mods_weaken; [exact Hm3|].
    apply link_bytes_prev. set_solver.
  - change (n :: h :: l) with ([n] ++ h :: l). apply dseg_app. split.
    + eapply (dseg_other (n :: h :: l) [n] h 8); [done|set_solver|lia|done|set_solver| |exact Hn2].
      intros ->%list_elem_of_singleton. apply Hnl. by left.
    + eapply dseg_set_prev; [by split| |exact Hs2]. by apply (good_nodes_app [n] (h :: l)).
Qed.

Lemma nodes_link_bytes bs l x : link_bytes (nodes bs l) x ↔ node_bytes bs l x.
Proof.
  split.
  - intros (a & (p & -> & Hp)%list_elem_of_fmap & Hx). by exists p.
  - intros (p & Hp & Hx). exists (node_at bs p). split; [|done]. by apply list_elem_of_fmap_2.
Qed.

Lemma list_push_returns bs m L (o : nat) l p :
  buddy_rep bs m L → L !! o = Some l → addr_ok bs p → p ∉ concat L →
  backed m (node_at bs p) 16 →
  returns (list_push bs m o p) (λ '(bs', m'),
    buddy_rep bs' m' (<[o := p :: l]> L) ∧ mods (node_bytes bs (p :: l)) m m' ∧
    g_hhdm bs' = g_hhdm bs).
Proof.
  intros R Hl Hp Hnew Hb. destruct (rep_list _ _ _ _ _ R Hl) as [Hnd Hok].
  assert (p ∉ l) as Hpl by (intros Hin; by eapply Hnew, in_list_concat).
  assert (∀ q, q ∈ p :: l → addr_ok bs q) as Hok' by (intros q [->|?]%elem_of_cons; auto).
  pose proof (br_hhdm _ _ _ R) as Hh.
  pose proof (push_links m (node_at bs p) (nodes bs l)) as Hlinks.
  apply returns_inv in Hlinks as (m' & Heq & Hm & Hs);
    [|apply (nodes_good bs (p :: l)); [done|done|by constructor]|done|by eapply br_segs].
  unfold list_push. destruct (set_prev m (node_at bs p) 0) as [m1| | |]; try done. cbn in Heq |- *.
  rewrite (rep_head _ _ _ _ _ R Hl). cbn.
  destruct (set_next m1 (node_at bs p) (default 0 (head (nodes bs l)))) as [m2| | |]; try done.
  cbn in Heq |- *. rewrite Heq. cbn.
  pose proof (rep_arrays bs m L o l 1 (node_at bs p) R Hl) as Harr.
  pose proof (rep_length _ _ _ _ _ R Hl).
  destruct (set_head bs o (node_at bs p)) as [bs1| | |]; [|discriminate Harr; lia..]. cbn in Harr |- *.
  rewrite Harr by lia. cbn. split; [|split; [|done]].
  - replace (length l + 1) with (Z.of_nat (length (p :: l))) by (simpl; lia).
    eapply (rep_update bs m L o l (p :: l)); [done|done|exact Hs|exact Hm| |done|].
    + intros x Hx%(nodes_link_bytes bs (p :: l)). destruct Hx as (q & Hq & Hx).
      exists q. split; [apply elem_of_app; by right|done].
    + rewrite concat_insert by by apply lookup_lt_Some in Hl.
      simpl. rewrite <- (concat_lookup o l L Hl). constructor; [done|apply R].
  - eapply mods_weaken; [exact Hm|]. intros x. apply (nodes_link_bytes bs (p :: l)).
Qed.

(** Unlinking a node. *)
Lemma unlink_prev m l1 n l2 :
  good_nodes (l1 ++ n :: l2) → dseg m 0 (l1 ++ n :: l2) 0 →
  let prev := default 0 (last l1) in let next := default 0 (head l2) in
  returns (if prev =? 0 then Ok m else set_next m prev next) (λ m',
    mods (link_bytes l1) m m' ∧ dseg m' 0 l1 next ∧ dseg m' prev (n :: l2) 0 ∧
    (l1 = [] ∨ prev ≠ 0)).
Proof.
  intros Hg Hs. destruct l1 as [|a l1 _] using rev_ind.
  { simpl. split; [done|split; [done|split; [exact Hs|by left]]]. }
  rewrite last_snoc. intros prev next. change (default 0 (Some a)) with a in *.
  apply dseg_app in Hs as [Hs1 Hs2]. rewrite last_snoc in Hs2. change (default 0 (Some a)) with a in *.
  pose proof (gn_range _ Hg) as Hr. pose proof (Hr a ltac:(set_solver)) as Ha.
  destruct (Z.eqb_spec prev 0) as [?|_]; [lia|].
  eapply returns_mono; [apply store64_returns|].
  - apply node_backed_next. eapply dseg_backed; [exact Hs1|set_solver].
  - subst next. destruct l2 as [|b l2]; simpl; [lia|]. specialize (Hr b ltac:(set_solver)). lia.
  - intros m' Hst. pose proof Hst as [Hm Hv]. split; [|split; [|split; [|right; lia]]].
    + eapply mods_weaken; [exact Hm|]. apply link_bytes_next. set_solver.
    + eapply dseg_set_next; [exact Hst|by apply good_nodes_app in Hg as [? _]|exact Hs1].
    + eapply (dseg_other _ (n :: l2) a 0); [exact Hg|set_solver|lia|by rewrite Z.add_0_r|set_solver| |done].
      intros Hin. pose proof (gn_nodup _ Hg) as Hnd. apply NoDup_app in Hnd as (_ & Hdis & _).
      apply (Hdis a); set_solver.
Qed.

Lemma unlink_next m l1 n l2 :
  good_nodes (l1 ++ n :: l2) →
  let prev := default 0 (last l1) in let next := default 0 (head l2) in
  dseg m 0 l1 next → dseg m prev (n :: l2) 0 →
  returns (if next =? 0 then Ok m else prev' ← node_prev m n; set_prev m next prev') (λ m',
    mods (link_bytes l2) m m' ∧ dseg m' 0 (l1 ++ l2) 0).
Proof.
  intros Hg prev next Hs1 Hs2. destruct Hs2 as (Hn & Hp & Hs2). rewrite Hp. cbn.
  pose proof (gn_range _ Hg) as Hr.
  destruct l2 as [|b l2].
  { simpl in next. subst next. simpl. split; [done|]. by rewrite app_nil_r. }
  change next with b in *. pose proof (Hr b ltac:(set_solver)) as Hb.
  destruct (Z.eqb_spec b 0) as [?|_]; [lia|].
  assert (good_nodes (b :: l2)) as Hgb.
  { apply good_nodes_app in Hg as [_ Hg]. by apply (good_nodes_app [n]) in Hg as [_ Hg]. }
  eapply returns_mono; [apply store64_returns|].
  - apply node_backed_prev. eapply dseg_backed; [exact Hs2|set_solver].
  - by apply load64_range in Hp.
  - intros m' Hst. pose proof Hst as [Hm _]. split.
    + eapply mods_weaken; [exact Hm|]. apply link_bytes_prev. set_solver.
    + apply dseg_app. split; [|by eapply dseg_set_prev].
      eapply (dseg_other _ l1 b 8); [exact Hg|set_solver|lia|done|set_solver| |done].
      intros Hin. pose proof (gn_nodup _ Hg) as Hnd. apply NoDup_app in Hnd as (_ & Hdis & _).
      apply (Hdis b); set_solver.
Qed.

Lemma set_head_same bs m L (o : nat) l :
  buddy_rep bs m L → L !! o = Some l → set_head bs o (default 0 (head (nodes bs l))) = Ok bs.
Proof.
  intros R Hl. unfold set_head.
  rewrite arr_set_lt by (rewrite (br_heads _ _ _ R), length_fmap; by eapply lookup_lt_Some).
  cbn. rewrite list_insert_id by by rewrite (br_heads _ _ _ R), list_lookup_fmap, Hl.
  by destruct bs.
Qed.

(** The first step of [list_remove] as one array write and one link write: the
    head only changes when the node is the first one. *)
Lemma remove_prev_step bs m L (o : nat) l1 p l2 prev next m1 bs1 :
  buddy_rep bs m L → L !! o = Some (l1 ++ p :: l2) →
  prev = default 0 (last (nodes bs l1)) → (l1 = [] ∨ prev ≠ 0) →
  next = default 0 (head (nodes bs l2)) →
  (if prev =? 0 then Ok m else set_next m prev next) = Ok m1 →
  set_head bs o (default 0 (head (nodes bs (l1 ++ l2)))) = Ok bs1 →
  (if prev =? 0 then bs' ← set_head bs o next; Ok (bs', m)
   else m' ← set_next m prev next; Ok (bs, m')) = Ok (bs1, m1).
Proof.
  intros R Hl -> Hcase -> Hm1 Hbs1. pose proof (set_head_same _ _ _ _ _ R Hl) as Hsame.
  destruct Hcase as [->|Hne].
  - change (default 0 (last (nodes bs []))) with 0 in *. change ([] ++ l2) with l2 in Hbs1.
    cbn in Hm1. rewrite Hbs1. cbn. congruence.
  - destruct (Z.eqb_spec (default 0 (last (nodes bs l1))) 0) as [?|_]; [done|].
    rewrite Hm1. cbn. destruct l1; [done|]. cbn in Hsame, Hbs1. congruence.
Qed.

Lemma list_remove_returns bs m L (o : nat) l1 p l2 :
  buddy_rep bs m L → L !! o = Some (l1 ++ p :: l2) →
  returns (list_remove bs m o (node_at bs p)) (λ '(bs', m'),
    buddy_rep bs' m' (<[o := l1 ++ l2]> L) ∧ mods (node_bytes bs (l1 ++ p :: l2)) m m' ∧
    g_hhdm bs' = g_hhdm bs).
Proof.
  intros R Hl. destruct (rep_list _ _ _ _ _ R Hl) as [Hnd Hok].
  pose proof (br_hhdm _ _ _ R) as Hh. pose proof (nodes_good _ _ Hh Hok Hnd) as Hg.
  pose proof (br_segs _ _ _ R _ _ Hl) as Hs. pose proof (rep_length _ _ _ _ _ R Hl) as Hlen.
  pose proof (rep_arrays bs m L o _ (-1) (default 0 (head (nodes bs (l1 ++ l2)))) R Hl) as Harr.
  rewrite length_app in Harr, Hlen. simpl in Harr, Hlen.
  unfold nodes in Hg, Hs. rewrite fmap_app, fmap_cons in Hg, Hs. fold (nodes bs l1) (nodes bs l2) in *.
  set (n := node_at bs p) in *. unfold list_remove.
  pose proof Hs as (_ & Hn & Hp & _)%dseg_app. rewrite Hp. cbn.
  apply (unlink_prev m) in Hs as (m1 & Hm1 & Hmods1 & Hs1 & Hs2 & Hcase)%returns_inv; [|done].
  destruct (set_head bs o (default 0 (head (nodes bs (l1 ++ l2))))) as [bs1| | |] eqn:Hbs1;
    try (exfalso; specialize (Harr ltac:(lia)); discriminate Harr).
  rewrite Hn. cbn.
  rewrite (remove_prev_step _ _ _ _ _ _ _ _ _ m1 bs1 R Hl eq_refl);
    [|destruct Hcase as [->%fmap_nil_inv|?]; [by left|by right]|done..].
  pose proof Hs2 as (Hn1 & _). cbn. rewrite Hn1. cbn.
  pose proof (unlink_next m1 _ _ _ Hg Hs1 Hs2) as (m2 & Hm2 & Hmods2 & Hs')%returns_inv.
  cbn in Hm2. rewrite Hm2. cbn in Harr |- *. rewrite Harr by lia. cbn.
  assert (∀ q, q ∈ l1 ++ l2 → q ∈ l1 ++ p :: l2) as Hsub by (clear; set_solver).
  assert (mods (node_bytes bs (l1 ++ p :: l2)) m m2) as Hmods.
  { eapply mods_trans; (eapply mods_weaken; [eassumption|]); intros x Hx%nodes_link_bytes;
      destruct Hx as (q & Hq & Hx); exists q; (split; [clear -Hq; set_solver|done]). }
  split; [|done].
  replace ((length l1 + S (length l2))%nat + -1) with (Z.of_nat (length (l1 ++ l2)))
    by (rewrite length_app; lia).
  eapply (rep_update bs m L o _ (l1 ++ l2)); [done|done|by unfold nodes; rewrite fmap_app|exact Hmods| | |].
  - intros x (q & Hq & Hx). exists q. split; [|done]. apply elem_of_app. by left.
  - intros q Hq. by apply Hok, Hsub.
  - rewrite concat_insert by by apply lookup_lt_Some in Hl.
    pose proof (br_nodup _ _ _ R) as HndL. rewrite (concat_lookup o _ L Hl) in HndL.
    rewrite <- Permutation_middle in HndL. simpl in HndL. by apply NoDup_cons in HndL as [_ ?].
Qed.

(** The scan of [list_find] is exact. *)
Lemma list_find_returns bs m L (o : nat) l p :
  buddy_rep bs m L → L !! o = Some l →
  list_find bs m o p = Ok (if decide (p ∈ l) then node_at bs p else 0).
Proof.
  intros R Hl. destruct (rep_list _ _ _ _ _ R Hl) as [Hnd Hok].
  pose proof (br_hhdm _ _ _ R) as Hh. pose proof (rep_length _ _ _ _ _ R Hl) as Hlen.
  enough (returns (list_find bs m o p) (λ n, n = if decide (p ∈ l) then node_at bs p else 0))
    as Hret by (apply returns_inv in Hret as (n & -> & ->); reflexivity).
  unfold list_find. rewrite (rep_head _ _ _ _ _ R Hl). cbn.
  apply (loop_rule_var (λ k n, ∃ l1 l2, l = l1 ++ l2 ∧ ¬ (p ∈ l1) ∧ k = Z.of_nat (length l2) ∧
           n = default 0 (head (nodes bs l2))) _ _ (Z.of_nat (length l))); [|lia|].
  { exists [], l. split; [done|]. split; [by intros ?%elem_of_nil|done]. }
  intros k n (l1 & l2 & Hsplit & Hnot & -> & ->). destruct l2 as [|q l2]; cbn.
  { rewrite decide_False; [done|]. by rewrite Hsplit, app_nil_r. }
  assert (q ∈ l) as Hq by (rewrite Hsplit; clear; set_solver).
  specialize (Hok q Hq) as Hqok. pose proof (node_pos bs q Hh Hqok).
  destruct (Z.eqb_spec (node_at bs q) 0) as [?|_]; [done|].
  rewrite phys_of_node by done. destruct (Z.eqb_spec q p) as [->|Hqp]; cbn.
  { by rewrite decide_True. }
  pose proof (br_segs _ _ _ R _ _ Hl) as Hs. rewrite Hsplit in Hs.
  unfold nodes in Hs. rewrite fmap_app, fmap_cons, dseg_app in Hs.
  destruct Hs as (_ & Hn & _). rewrite Hn. cbn. exists (length l2). split; [|lia].
  exists (l1 ++ [q]), l2. split; [by rewrite <- app_assoc|]. split; [|done].
  intros [?| ->%list_elem_of_singleton]%elem_of_app; done.
Qed.

(** * The heap: free blocks, allocated blocks and the frames they share *)

Record heap bs m L (A : list block) (M : gset Z) : Prop := {
  hp_rep : buddy_rep bs m L;
  hp_tiled : tiled L A M;
  hp_frames : ∀ f, f ∈ M → addr_ok bs (f * PMM_FRAME_SIZE) ∧
                          backed m (node_at bs (f * PMM_FRAME_SIZE)) PMM_FRAME_SIZE;
}.

(** The bytes of [M]'s frames outside the blocks [A]: all the allocator may
    write to while the blocks [A] are out. *)
Definition area bs (M : gset Z) (A : list block) : Z → Prop := λ x,
  ∃ f, f ∈ M ∧ (∀ b, b ∈ A → f ∉ frames b) ∧
       range (node_at bs (f * PMM_FRAME_SIZE)) PMM_FRAME_SIZE x.

Record touches M A bs m bs' m' : Prop := {
  tc_mods : mods (area bs M A) m m';
  tc_hhdm : g_hhdm bs' = g_hhdm bs;
}.

Lemma touches_refl M A bs m : touches M A bs m bs m.
Proof. by split. Qed.

Lemma touches_trans M A bs1 m1 bs2 m2 bs3 m3 :
  touches M A bs1 m1 bs2 m2 → touches M A bs2 m2 bs3 m3 → touches M A bs1 m1 bs3 m3.
Proof.
  intros [Hm1 Hh1] [Hm2 Hh2]. split; [|congruence].
  eapply mods_trans; [exact Hm1|]. eapply mods_weaken; [exact Hm2|].
  intros x (f & Hf & HA & Hx). exists f. split; [done|split; [done|]].
  unfold node_at in *. by rewrite <- Hh1.
Qed.

Lemma heap_block bs m L A M p (o : nat) :
  heap bs m L A M → (p, o) ∈ blocks L ++ A →
  p / PMM_FRAME_SIZE ∈ M ∧ addr_ok bs p ∧ backed m (node_at bs p) PMM_FRAME_SIZE.
Proof.
  intros [_ HT Hfr] Hin. destruct (ti_ok _ _ _ HT _ Hin) as [Hal _].
  pose proof (tiles_frame _ _ _ (ti_tiles _ _ _ HT) Hin _ (first_frame p o)) as Hf.
  split; [done|]. rewrite (aligned_frame p o Hal). by apply Hfr.
Qed.

Lemma heap_frames_touched bs m bs' m' M A :
  touches M A bs m bs' m' →
  (∀ f, f ∈ M → addr_ok bs (f * PMM_FRAME_SIZE) ∧
     backed m (node_at bs (f * PMM_FRAME_SIZE)) PMM_FRAME_SIZE) →
  ∀ f, f ∈ M → addr_ok bs' (f * PMM_FRAME_SIZE) ∧
     backed m' (node_at bs' (f * PMM_FRAME_SIZE)) PMM_FRAME_SIZE.
Proof.
  intros [Hm Hh] Hfr f Hf. destruct (Hfr f Hf) as [Hok Hb]. split.
  - unfold addr_ok in *. by rewrite Hh.
  - unfold node_at in *. rewrite Hh. by eapply mods_backed.
Qed.

(** The nodes of blocks that are not in [A] lie in the area outside [A]. *)
Lemma node_bytes_area bs m L A B M l :
  heap bs m L (B ++ A) M → (∀ p, p ∈ l → ∃ o : nat, (p, o) ∈ blocks L ++ B) →
  ∀ x, node_bytes bs l x → area bs M A x.
Proof.
  intros H Hl x (p & Hp & Hx). destruct (Hl p Hp) as (o & Ho).
  destruct (heap_block bs m L (B ++ A) M p o H) as (Hf & _ & _).
  { rewrite app_assoc. apply elem_of_app. by left. }
  exists (p / PMM_FRAME_SIZE). split; [done|split].
  - intros c Hc. pose proof (ti_tiles _ _ _ (hp_tiled _ _ _ _ _ H)) as HB.
    rewrite app_assoc in HB. apply elem_of_Permutation in Ho as (B1 & HP). rewrite HP in HB.
    pose proof (tiles_apart (p, o) (B1 ++ A) M HB c) as Hap.
    intros Hfc. apply (Hap ltac:(apply elem_of_app; by right) (p / PMM_FRAME_SIZE));
      [apply first_frame|done].
  - assert (aligned (p, o)) as Hal.
    { apply (ti_ok _ _ _ (hp_tiled _ _ _ _ _ H)). rewrite app_assoc. apply elem_of_app. by left. }
    rewrite <- (aligned_frame p o Hal). unfold range, PMM_FRAME_SIZE in *. lia.
Qed.

(** Taking a block off its list. *)
Lemma heap_take bs m L A M (o : nat) l1 p l2 :
  heap bs m L A M → L !! o = Some (l1 ++ p :: l2) →
  returns (list_remove bs m o (node_at bs p)) (λ '(bs', m'),
    heap bs' m' (<[o := l1 ++ l2]> L) ((p, o) :: A) M ∧ touches M A bs m bs' m').
Proof.
  intros H Hl. pose proof H as [R HT Hfr].
  eapply returns_mono; [by apply list_remove_returns|]. intros [bs' m'] (R' & Hm & Hh).
  assert (touches M A bs m bs' m') as Ht.
  { split; [|done]. eapply mods_weaken; [exact Hm|].
    apply (node_bytes_area bs m L A [] M); [done|]. intros q Hq. exists o.
    rewrite app_nil_r. apply elem_of_blocks. by eexists. }
  split; [|done]. split; [done|by apply tiled_take|by eapply heap_frames_touched].
Qed.

(** Putting a block on the list of its order. *)
Lemma heap_put bs m L A M (o : nat) p :
  heap bs m L ((p, o) :: A) M →
  returns (list_push bs m o p) (λ '(bs', m'),
    heap bs' m' (push o p L) A M ∧ touches M A bs m bs' m').
Proof.
  intros H. pose proof H as [R HT Hfr].
  destruct (ti_ok _ _ _ HT (p, o)) as [_ Ho]; [apply elem_of_app; right; by left|].
  destruct (tiled_lookup _ _ _ o HT Ho) as [l Hl]. rewrite (push_insert _ _ _ _ Hl).
  destruct (heap_block _ _ _ _ _ p o H) as (_ & Hok & Hb); [apply elem_of_app; right; by left|].
  eapply returns_mono; [eapply list_push_returns|].
  - done.
  - exact Hl.
  - done.
  - by eapply tiled_fresh.
  - eapply backed_sub; [exact Hb|unfold PMM_FRAME_SIZE; lia..].
  - intros [bs' m'] (R' & Hm & Hh).
    assert (touches M A bs m bs' m') as Ht.
    { split; [|done]. eapply mods_weaken; [exact Hm|].
      apply (node_bytes_area bs m L A [(p, o)] M); [done|].
      intros q [->|Hq]%elem_of_cons; exists o; apply elem_of_app; [right; by left|left].
      apply elem_of_blocks. by eexists. }
    split; [|done]. split; [done|by apply tiled_put|by eapply heap_frames_touched].
Qed.

(** Splitting and joining blocks nobody uses is only bookkeeping. *)
Lemma heap_retile bs m L A A' M : heap bs m L A M → tiled L A' M → heap bs m L A' M.
Proof. intros [R _ Hfr] HT. by split. Qed.

(** * The allocator refines [spec_alloc] *)

Lemma find_order_step bs m L (o : nat) l :
  buddy_rep bs m L → L !! o = Some l →
  arr_get (free_list bs) o = Ok (match l with [] => 0 | p :: _ => node_at bs p end) ∧
  (match l with [] => 0 | p :: _ => node_at bs p end =? 0) = bool_decide (l = []).
Proof.
  intros R Hl. rewrite (rep_head _ _ _ _ _ R Hl). destruct l as [|p l]; [done|].
  split; [done|]. rewrite bool_decide_false by done. apply Z.eqb_neq, node_pos; [apply R|].
  eapply (br_addrs _ _ _ R), in_list_concat; [done|by left].
Qed.

Lemma find_order_returns bs m L (order : nat) :
  buddy_rep bs m L → (order ≤ orders)%nat →
  find_order bs order =
    Ok (match find_fit (orders - order) L order with
        | Some (o, _, _) => Z.of_nat o | None => 11 end).
Proof.
  intros R Hord.
  remember (match find_fit _ _ _ with Some _ => _ | None => _ end) as res eqn:Hres0.
  enough (returns (find_order bs order) (λ o, o = res))
    as Hret by (apply returns_inv in Hret as (n & -> & ->); reflexivity).
  set (I := λ k z : Z, ∃ o : nat, z = o ∧ (o ≤ orders)%nat ∧ k = 11 - z ∧
    match find_fit (orders - o) L o with Some (o, _, _) => Z.of_nat o | None => 11 end = res).
  unfold find_order.
  eapply (loop_rule_var I) with (k := 11 - order).
  { exists order. split; [reflexivity|split; [exact Hord|split; [reflexivity|by symmetry]]]. }
  { lia. }
  intros k z (o & -> & Ho & -> & Hres). unfold BUDDY_MAX_ORDER.
  destruct (Z.leb_spec o 10) as [Hle|Hgt].
  - destruct (lookup_lt_is_Some_2 L o) as [l Hl]; [rewrite (br_len _ _ _ R); lia|].
    destruct (find_order_step _ _ _ _ _ R Hl) as [-> Hz]. cbn. rewrite Hz.
    replace (orders - o)%nat with (S (orders - S o)) in Hres by (unfold orders in *; lia).
    cbn [find_fit] in Hres. rewrite Hl in Hres. destruct l as [|p l]; cbn.
    + exists (11 - (o + 1)). split; [|unfold orders in *; lia].
      exists (S o). split; [lia|]. split; [unfold orders in *; lia|split; [done|]]. exact Hres.
    + exact Hres.
  - replace (orders - o)%nat with 0%nat in Hres by (unfold orders in *; lia).
    cbn in Hres |- *. unfold orders in *. lia.
Qed.

Lemma split_down_returns bs m L A M (order o : nat) p :
  heap bs m L ((p, o) :: A) M → (order ≤ o)%nat →
  returns (split_down bs m order o p) (λ '(bs', m'),
    heap bs' m' (put_halves (o - order) order p L) ((p, order) :: A) M ∧
    touches M A bs m bs' m').
Proof.
  intros H Hle. unfold split_down. set (Lf := put_halves (o - order) order p L).
  set (I := λ '(z, bs1, m1), ∃ (i : nat) L1, z = Z.of_nat i ∧ (order ≤ i ≤ o)%nat ∧
     heap bs1 m1 L1 ((p, i) :: A) M ∧ put_halves (i - order) order p L1 = Lf ∧
     touches M A bs m bs1 m1).
  apply (loop_rule I) with (μ := λ '(z, _, _), z).
  { exists o, L. split; [done|]. split; [lia|]. split; [done|]. split; [done|apply touches_refl]. }
  { destruct (ti_ok _ _ _ (hp_tiled _ _ _ _ _ H) (p, o)) as [_ Ho];
      [apply elem_of_app; right; by left|]. unfold orders in Ho. cbn in Ho. lia. }
  intros [[z bs1] m1] (i & L1 & -> & Hi & H1 & HL1 & Ht1).
  destruct (Z.ltb_spec order i) as [Hlt|Hge].
  - destruct i as [|i]; [lia|]. replace (S i - 1) with (Z.of_nat i) by lia. cbv zeta.
    pose proof (tiled_split _ _ _ _ _ (hp_tiled _ _ _ _ _ H1)) as HT.
    pose proof (heap_retile _ _ _ _ ((p + bsize i, i) :: (p, i) :: A) _ H1
      (tiled_perm _ _ _ _ (perm_swap _ _ _) HT)) as H2.
    destruct (heap_block _ _ _ _ _ (p + bsize i) i H2) as (_ & (Hpos & _ & Hhi) & _);
      [apply elem_of_app; right; by left|].
    destruct (ti_ok _ _ _ (hp_tiled _ _ _ _ _ H1) (p, S i)) as [_ Hmax];
      [apply elem_of_app; right; by left|]. cbn in Hmax. unfold orders in Hmax.
    assert (block_bytes i = bsize i) as ->.
    { unfold block_bytes, bsize, PMM_FRAME_SIZE. rewrite Z.shiftl_mul_pow2 by lia.
      apply u64_id. pose proof (Z.pow_lt_mono_r 2 i 11). pose proof (pow2_pos i). lia. }
    pose proof (br_hhdm _ _ _ (hp_rep _ _ _ _ _ H2)). unfold PMM_FRAME_SIZE in Hhi.
    rewrite u64_id by lia. ret_step heap_put; [exact H2|].
    intros [bs2 m2] [H3 Ht2]. cbn. split; [|lia].
    exists i, (push i (p + bsize i) L1). split; [done|]. split; [lia|]. split; [done|]. split.
    + rewrite <- HL1. replace (S i - order)%nat with (S (i - order)) by lia. cbn [put_halves].
      by replace (order + (i - order))%nat with i by lia.
    + eapply touches_trans; [exact Ht1|]. destruct Ht2 as [Hm2 Hh2]. split; [|done].
      eapply mods_weaken; [exact Hm2|]. intros x (f & Hf & HA & Hx).
      exists f. split; [done|split; [|done]]. intros c Hc. apply HA. by right.
  - assert (i = order) as -> by lia. cbn. rewrite Nat.sub_diag in HL1. cbn in HL1. by subst L1.
Qed.

Lemma buddy_alloc_returns bs m L A M (order : nat) :
  heap bs m L A M → (order < orders)%nat →
  returns (buddy_alloc bs m order) (λ '(bs', m', r),
    match spec_alloc order L with
    | None => r = 0 ∧ bs' = bs ∧ m' = m
    | Some (p, L') => r = p ∧ heap bs' m' L' ((p, order) :: A) M ∧ touches M A bs m bs' m'
    end).
Proof.
  intros H Hord. unfold buddy_alloc, BUDDY_MAX_ORDER.
  destruct (Z.ltb_spec 10 order) as [?|_]; [unfold orders in *; lia|].
  rewrite (find_order_returns _ _ _ order (hp_rep _ _ _ _ _ H)) by lia. cbn -[spec_alloc orders Nat.sub].
  unfold spec_alloc. destruct (find_fit (orders - order) L order) as [[[o p] l]|] eqn:Hf; [|done].
  apply find_fit_Some in Hf as (Ho & Hlo & _).
  destruct (Z.ltb_spec 10 o) as [?|_]; [unfold orders in *; lia|].
  pose proof (hp_rep _ _ _ _ _ H) as R. rewrite (rep_head _ _ _ _ _ R Hlo).
  cbn -[orders Nat.sub]. ret_step (heap_take bs m L A M o [] p l); [done|exact Hlo|].
  intros [bs1 m1] [H1 Ht1]. cbn -[orders Nat.sub].
  assert (phys_of bs1 (node_at bs p) = p) as ->.
  { unfold phys_of. rewrite (tc_hhdm _ _ _ _ _ _ Ht1). apply phys_of_node; [apply R|].
    eapply heap_block; [exact H|]. apply elem_of_app. left. apply elem_of_blocks.
    eexists. split; [exact Hlo|by left]. }
  ret_step split_down_returns; [exact H1|lia|]. intros [bs2 m2] [H2 Ht2]. cbn -[orders Nat.sub].
  split; [done|]. split; [done|]. by eapply touches_trans.
Qed.

(** * [buddy_free] refines [spec_free] *)

Lemma block_bytes_bsize (o : nat) : (o < orders)%nat → block_bytes o = bsize o.
Proof.
  intros Ho. unfold block_bytes, bsize, PMM_FRAME_SIZE. rewrite Z.shiftl_mul_pow2 by lia.
  apply u64_id. pose proof (pow2_pos o). pose proof (Z.pow_lt_mono_r 2 o 11).
  unfold orders in *. lia.
Qed.

(** One round of the merge loop. *)
Lemma merge_step bs m L A M (o : nat) p :
  heap bs m L ((p, o) :: A) M → (S o < orders)%nat →
  list_find bs m o (Z.lxor p (block_bytes o)) =
    Ok (if decide (buddy_of p o ∈ L !!! o) then node_at bs (buddy_of p o) else 0) ∧
  (buddy_of p o ∈ L !!! o → node_at bs (buddy_of p o) ≠ 0 ∧
   returns (list_remove bs m o (node_at bs (buddy_of p o))) (λ '(bs', m'),
     heap bs' m' (alter (drop_block (buddy_of p o)) o L)
       ((Z.min (buddy_of p o) p, S o) :: A) M ∧
     touches M A bs m bs' m')).
Proof.
  intros H Ho. pose proof (hp_rep _ _ _ _ _ H) as R. rewrite block_bytes_bsize by lia.
  destruct (tiled_lookup _ _ _ o (hp_tiled _ _ _ _ _ H)) as [l Hl]; [lia|].
  rewrite (list_lookup_total_correct _ _ _ Hl). split; [by apply (list_find_returns _ _ L)|].
  intros Hin. split.
  { apply node_pos; [apply R|]. eapply heap_block; [exact H|]. apply elem_of_app. left.
    apply elem_of_blocks. by eexists. }
  destruct (list_elem_of_split _ _ Hin) as (l1 & l2 & ->).
  eapply returns_mono; [eapply heap_take; [exact H|exact Hl]|]. intros [bs' m'] [H' Ht].
  assert (alter (drop_block (buddy_of p o)) o L = <[o := l1 ++ l2]> L) as ->.
  { apply list_eq. intros i. destruct (decide (i = o)) as [->|Hne].
    - rewrite list_lookup_alter_eq, Hl, list_lookup_insert_eq by by eapply lookup_lt_Some.
      cbn. by rewrite drop_block_middle by by apply (rep_list _ _ _ _ _ R Hl).
    - by rewrite list_lookup_alter_ne, list_lookup_insert_ne. }
  split; [eapply heap_retile; [exact H'|]; apply tiled_join; [apply H'|done]|].
  destruct Ht as [Hm Hh]. split; [|done]. eapply mods_weaken; [exact Hm|].
  intros x (f & Hf & HA & Hx). exists f. split; [done|split; [|done]]. intros c Hc. apply HA. by right.
Qed.

Lemma buddy_free_returns bs m L A M (o : nat) p :
  heap bs m L ((p, o) :: A) M →
  returns (buddy_free bs m p o) (λ '(bs', m'),
    heap bs' m' (spec_free p o L) A M ∧ touches M A bs m bs' m').
Proof.
  intros H. destruct (ti_ok _ _ _ (hp_tiled _ _ _ _ _ H) (p, o)) as [_ Hord];
    [apply elem_of_app; right; by left|]. cbn in Hord.
  unfold buddy_free, BUDDY_MAX_ORDER. destruct (Z.ltb_spec 10 o) as [?|_]; [unfold orders in *; lia|].
  unfold spec_free. remember (free_merge (orders - 1 - o) p o L) as Lf eqn:HLf.
  set (I := λ '(q, z, bs1, m1), ∃ (i : nat) L1, z = Z.of_nat i ∧ (i < orders)%nat ∧
     heap bs1 m1 L1 ((q, i) :: A) M ∧ free_merge (orders - 1 - i) q i L1 = Lf ∧
     touches M A bs m bs1 m1).
  apply returns_bind. apply (returns_mono _ (λ '(q, z, bs1, m1), ∃ (i : nat) L1, z = Z.of_nat i ∧
     heap bs1 m1 L1 ((q, i) :: A) M ∧ push i q L1 = Lf ∧ touches M A bs m bs1 m1)).
  2: { intros [[[q z] bs1] m1] (i & L1 & -> & H1 & <- & Ht1).
       eapply returns_mono; [eapply heap_put, H1|]. intros [bs2 m2] [H2 Ht2].
       split; [done|]. by eapply touches_trans. }
  apply (loop_rule I) with (μ := λ '(q, z, bs1, m1), 11 - z).
  { exists o, L. split; [done|]. split; [done|]. split; [done|]. split; [done|apply touches_refl]. }
  { unfold orders in *. lia. }
  intros [[[q z] bs1] m1] (i & L1 & -> & Hi & H1 & HL1 & Ht1).
  destruct (Z.ltb_spec i 10) as [Hlt|Hge].
  - replace (orders - 1 - i)%nat with (S (orders - 1 - S i)) in HL1 by (unfold orders in *; lia).
    cbn [free_merge] in HL1. destruct (merge_step _ _ _ _ _ _ _ H1) as [Hfind Hrem].
    { unfold orders. lia. }
    cbv zeta. rewrite Hfind. cbn -[orders]. rewrite block_bytes_bsize by done.
    fold (buddy_of q i). case_decide as Hin; cbn -[orders].
    + destruct (Hrem Hin) as [Hnz Hret]. destruct (Z.eqb_spec (node_at bs1 (buddy_of q i)) 0); [done|].
      apply returns_bind. eapply returns_mono; [exact Hret|]. intros [bs2 m2] [H2 Ht2].
      cbn -[orders]. split; [|unfold orders in *; lia].
      exists (S i). eexists. split; [lia|]. split; [unfold orders in *; lia|].
      destruct (Z.ltb_spec (buddy_of q i) q).
      * rewrite Z.min_l in H2, HL1 by lia. split; [exact H2|]. split; [exact HL1|].
        by eapply touches_trans.
      * rewrite Z.min_r in H2, HL1 by lia. split; [exact H2|]. split; [exact HL1|].
        by eapply touches_trans.
    + exists i, L1. by split.
  - replace (orders - 1 - i)%nat with 0%nat in HL1 by (unfold orders in *; lia).
    exists i, L1. by split.
Qed.

(** * Bringing the allocator up *)

Definition frame_ok bs m (f : Z) : Prop :=
  addr_ok bs (f * PMM_FRAME_SIZE) ∧ backed m (node_at bs (f * PMM_FRAME_SIZE)) PMM_FRAME_SIZE.

Lemma touches_mono M M' A bs m bs' m' :
  M ⊆ M' → touches M A bs m bs' m' → touches M' A bs m bs' m'.
Proof.
  intros Hsub [Hm Hh]. split; [|done]. eapply mods_weaken; [exact Hm|].
  intros x (f & Hf & HA & Hx). exists f. split; [by apply Hsub|done].
Qed.

Lemma frame_ok_mods P bs m bs' m' f :
  mods P m m' → g_hhdm bs' = g_hhdm bs → frame_ok bs m f → frame_ok bs' m' f.
Proof.
  intros Hm Hh [Hok Hb]. split.
  - unfold addr_ok in *. by rewrite Hh.
  - unfold node_at in *. rewrite Hh. by eapply mods_backed.
Qed.

(** The clients' writes, and anybody's outside the area, keep the heap. *)
Lemma heap_mods P bs m m' L A M :
  heap bs m L A M → mods P m m' → (∀ x, P x → ¬ area bs M A x) → heap bs m' L A M.
Proof.
  intros H Hm HP. pose proof H as [R HT Hfr]. split; [|done|].
  - destruct R. split; try done. intros o l Hl. eapply dseg_mods; [exact Hm| |by apply (br_segs0 o)].
    intros n x (p & -> & Hp)%list_elem_of_fmap Hx HPx. apply (HP x HPx).
    apply (node_bytes_area bs m L A [] M (concat L) H).
    + intros q (o' & Hq)%elem_of_concat. exists o'. by rewrite app_nil_r.
    + exists p. split; [by eapply in_list_concat|done].
  - intros f Hf. by eapply frame_ok_mods; [exact Hm|done|apply Hfr].
Qed.

(** Handing a block of new frames to the heap. *)
Lemma heap_add bs m L A M p (o : nat) :
  heap bs m L A M → block_ok (p, o) → (∀ f, f ∈ frames (p, o) → frame_ok bs m f ∧ f ∉ M) →
  heap bs m L ((p, o) :: A) (frames (p, o) ∪ M).
Proof.
  intros [R [Hlen HB Hok] Hfr] Hb Hnew. split; [done| |].
  - split; [done| |].
    + rewrite <- Permutation_middle. cbn [tiles].
      split; [clear; set_solver|].
      replace ((frames (p, o) ∪ M) ∖ frames (p, o)) with M; [done|].
      apply set_eq. intros x. specialize (Hnew x). clear -Hnew. set_solver.
    + intros b. rewrite <- Permutation_middle. intros [->|Hin]%elem_of_cons; [done|by apply Hok].
  - intros f [Hf|Hf]%elem_of_union; [by apply Hnew|by apply Hfr].
Qed.

(** The order chosen for the next block of a run: the highest one whose block is
    aligned and fits. *)
Lemma fit_order_returns f end_ :
  0 ≤ f < end_ → end_ < 2 ^ 53 →
  returns (fit_order f end_) (λ z, ∃ o : nat, z = Z.of_nat o ∧ (o < orders)%nat ∧
    f mod 2 ^ o = 0 ∧ f + 2 ^ o ≤ end_ ∧
    ∀ j : nat, (o < j < orders)%nat → f mod 2 ^ j = 0 → end_ < f + 2 ^ j).
Proof.
  intros Hf Hend. unfold fit_order.
  set (I := λ z : Z, ∃ o : nat, z = Z.of_nat o ∧ (o < orders)%nat ∧
    ∀ j : nat, (o < j < orders)%nat → f mod 2 ^ j = 0 → end_ < f + 2 ^ j).
  apply (loop_rule I) with (μ := λ z, z).
  { exists 10%nat. unfold orders, BUDDY_MAX_ORDER. split; [done|split; [lia|lia]]. }
  { unfold BUDDY_MAX_ORDER. lia. }
  intros z (o & -> & Ho & Hmax). unfold orders in Ho.
  assert (u64 (Z.shiftl 1 o) = 2 ^ o) as Hsh.
  { rewrite Z.shiftl_1_l. apply u64_id. pose proof (pow2_pos o).
    pose proof (Z.pow_lt_mono_r 2 o 11). lia. }
  pose proof (Z.pow_lt_mono_r 2 o 11 ltac:(lia) ltac:(lia) ltac:(lia)) as Hpw.
  pose proof (pow2_pos o ltac:(lia)) as Hpos.
  rewrite Hsh, <- (Z.shiftl_1_l o), land_low_mask, (Z.shiftl_1_l o), (u64_id (f + 2 ^ o)) by lia.
  destruct (Z.ltb_spec 0 o) as [Hpo|Hz].
  - cbn [andb].
    destruct (Z.eqb_spec (f mod 2 ^ o) 0) as [Hal|Hal];
      destruct (Z.ltb_spec end_ (f + 2 ^ o)) as [Hov|Hfit]; cbn [negb orb].
    2: { exists o. done. }
    all: (split; [|lia]; exists (o - 1)%nat; split; [lia|split; [unfold orders; lia|]]);
      intros j Hj Hjal; (destruct (decide (j = o)) as [->|]; [done|apply Hmax; [lia|done]]).
  - assert (o = 0%nat) as -> by lia. cbn [andb]. exists 0%nat. split; [done|]. split; [unfold orders; lia|].
    split; [apply Z.mod_1_r|]. split; [change (2 ^ 0%nat) with 1; lia|done].
Qed.

(** Every block of the run [[first, end_)] is as big as alignment and the end of
    the run allow. *)
Definition maximal_blocks (first end_ : Z) L : Prop :=
  ∀ q (o : nat), (q, o) ∈ blocks L → first ≤ q / PMM_FRAME_SIZE < end_ →
    (S o < orders)%nat → aligned (q, S o) → end_ < q / PMM_FRAME_SIZE + 2 ^ S o.

(** Chopping a run between frames the heap does not own creates no mergeable
    pair. *)
Lemma seed_step_coalesced L A M first end_ f (o : nat) :
  let p := f * PMM_FRAME_SIZE in
  tiled L A (frame_run first (f - first) ∪ M) → coalesced L → maximal_blocks first end_ L →
  first ≤ f → f + 2 ^ o ≤ end_ → aligned (p, o) →
  (∀ i, first ≤ i < end_ → i ∉ M) → first - 1 ∉ M → end_ ∉ M →
  coalesced (push o p L).
Proof.
  intros p HT HL Hmax Hf Hfit Hal Hrun Hlo Hhi. apply coalesced_push; [done|].
  intros Ho Hb. pose proof (pow2_pos o ltac:(lia)) as Hpos.
  assert (p / PMM_FRAME_SIZE = f) as Hpf by (apply Z.div_mul; done).
  assert (∀ i, i ∈ frames (buddy_of p o, o) → i ∈ M ∨ first ≤ i < f) as Hown.
  { intros i Hi. pose proof (ti_tiles _ _ _ HT) as HB.
    pose proof (tiles_frame _ _ _ HB (proj2 (elem_of_app _ _ _) (or_introl Hb)) i Hi) as Hin.
    apply elem_of_union in Hin as [Hin%elem_of_frame_run|Hin]; [right; lia|by left]. }
  assert (∀ s : Z, (p + s * bsize o) / PMM_FRAME_SIZE = f + s * 2 ^ o) as Hdiv.
  { intros s. unfold p, bsize.
    replace (f * PMM_FRAME_SIZE + s * (PMM_FRAME_SIZE * 2 ^ o))
      with ((f + s * 2 ^ o) * PMM_FRAME_SIZE) by ring. by apply Z.div_mul. }
  destruct (buddy_cases p o Hal) as [[_ Hbud]|[Hal2 Hbud]]; rewrite Hbud in *.
  - specialize (Hdiv 1). rewrite !Z.mul_1_l in Hdiv.
    destruct (Hown (f + 2 ^ o)) as [HM|?]; [rewrite elem_of_frames, Hdiv; lia| |lia].
    destruct (decide (f + 2 ^ o = end_)) as [Heq|]; [by rewrite Heq in HM|].
    apply (Hrun (f + 2 ^ o)); [lia|done].
  - specialize (Hdiv (-1)). replace (p + -1 * bsize o) with (p - bsize o) in Hdiv by lia.
    destruct (decide (first ≤ f - 2 ^ o)).
    + specialize (Hmax _ _ Hb). rewrite Hdiv in Hmax.
      replace (2 ^ S o) with (2 ^ o + 2 ^ o) in Hmax
        by (rewrite Nat2Z.inj_succ, Z.pow_succ_r; lia).
      specialize (Hmax ltac:(lia) Ho Hal2). lia.
    + destruct (Hown (first - 1)) as [HM|?]; [rewrite elem_of_frames, Hdiv; lia|done|lia].
Qed.

Lemma frames_run f (o : nat) : frames (f * PMM_FRAME_SIZE, o) = frame_run f (2 ^ o).
Proof. unfold frames. cbn. by rewrite Z.div_mul. Qed.

Lemma frame_run_app first (a b : Z) :
  0 ≤ a → 0 ≤ b → frame_run (first + a) b ∪ frame_run first a = frame_run first (a + b).
Proof. intros. apply set_eq. intros i. rewrite elem_of_union, !elem_of_frame_run. lia. Qed.

Lemma frame_aligned f (o : nat) : f mod 2 ^ o = 0 → aligned (f * PMM_FRAME_SIZE, o).
Proof.
  intros Hal. unfold aligned, bsize. cbn. rewrite (Z.mul_comm f).
  rewrite Z.mul_mod_distr_l, Hal; [done|pose proof (pow2_pos o); lia|done].
Qed.

Lemma aligned_frame_mod f (o : nat) : aligned (f * PMM_FRAME_SIZE, o) → f mod 2 ^ o = 0.
Proof.
  unfold aligned, bsize. cbn. rewrite (Z.mul_comm f).
  rewrite Z.mul_mod_distr_l; [unfold PMM_FRAME_SIZE; lia|pose proof (pow2_pos o); lia|done].
Qed.

(** Chopping a run hands exactly its frames to the heap. *)
Lemma seed_run_returns bs m L A M first end_ :
  heap bs m L A M → 0 ≤ first ≤ end_ → end_ < 2 ^ 53 →
  (∀ f, first ≤ f < end_ → frame_ok bs m f ∧ f ∉ M) →
  returns (seed_run bs m first end_) (λ '(bs', m'), ∃ L',
    let M' := frame_run first (end_ - first) ∪ M in
    heap bs' m' L' A M' ∧ touches M' A bs m bs' m' ∧
    (coalesced L → first - 1 ∉ M → end_ ∉ M → coalesced L')).
Proof.
  intros H Hr Hend Hnew. unfold seed_run. set (Mf := frame_run first (end_ - first) ∪ M).
  set (I := λ '(f, bs1, m1), ∃ L1, first ≤ f ≤ end_ ∧
    heap bs1 m1 L1 A (frame_run first (f - first) ∪ M) ∧ touches Mf A bs m bs1 m1 ∧
    maximal_blocks first end_ L1 ∧
    (coalesced L → first - 1 ∉ M → end_ ∉ M → coalesced L1)).
  apply (loop_rule I) with (μ := λ '(f, _, _), end_ - f); [|lia|].
  { exists L. split; [lia|]. rewrite Z.sub_diag, frame_run_0, union_empty_l_L.
    split; [done|split; [apply touches_refl|split; [|done]]].
    intros q o Hq Hin. exfalso.
    destruct (heap_block _ _ _ _ _ q o H) as (HfM & _); [apply elem_of_app; by left|].
    by destruct (Hnew _ Hin). }
  intros [[f bs1] m1] (L1 & Hf & H1 & Ht1 & Hmax & Hco).
  destruct (Z.ltb_spec f end_) as [Hlt|Hge].
  2: { assert (f = end_) as -> by lia. by exists L1. }
  ret_step fit_order_returns; [lia|done|]. intros z (o & -> & Ho & Hal & Hfit & Hbig).
  assert (∀ i, f ≤ i < f + 2 ^ o → frame_ok bs1 m1 i) as Hok1.
  { intros i Hi. eapply frame_ok_mods; [apply (tc_mods _ _ _ _ _ _ Ht1)|apply (tc_hhdm _ _ _ _ _ _ Ht1)|].
    apply Hnew. lia. }
  pose proof (pow2_pos o ltac:(lia)) as Hpos.
  pose proof (heap_add _ _ _ _ _ (f * PMM_FRAME_SIZE) o H1) as H2. rewrite frames_run in H2.
  assert (frame_run f (2 ^ o) ∪ (frame_run first (f - first) ∪ M) =
          frame_run first (f + 2 ^ o - first) ∪ M) as HM.
  { rewrite union_assoc_L. replace f with (first + (f - first)) at 1 by lia.
    rewrite frame_run_app by lia. by replace (f - first + 2 ^ o) with (f + 2 ^ o - first) by lia. }
  rewrite HM in H2. specialize (H2 (conj (frame_aligned _ _ Hal) Ho)).
  destruct (Hok1 f ltac:(lia)) as [(Hp0 & _ & Hhi) _].
  pose proof (br_hhdm _ _ _ (hp_rep _ _ _ _ _ H1)) as Hh0.
  rewrite (u64_id (f * PMM_FRAME_SIZE)) by (clear -Hp0 Hhi Hh0; unfold PMM_FRAME_SIZE in *; lia).
  ret_step heap_put; [apply H2|].
  { intros i Hi%elem_of_frame_run. split; [by apply Hok1|].
    intros [?%elem_of_frame_run|Hm]%elem_of_union; [lia|]. apply (Hnew i); [lia|done]. }
  intros [bs2 m2] [H3 Ht2]. cbn.
  assert (u64 (Z.shiftl 1 o) = 2 ^ o) as ->.
  { rewrite Z.shiftl_1_l. apply u64_id. pose proof (Z.pow_lt_mono_r 2 o 11). unfold orders in Ho. lia. }
  rewrite u64_id by lia. split; [|lia]. exists (push o (f * PMM_FRAME_SIZE) L1).
  split; [lia|]. split; [done|]. split.
  { eapply touches_trans; [exact Ht1|]. eapply touches_mono; [|exact Ht2].
    intros i [Hi%elem_of_frame_run|Hi]%elem_of_union; apply elem_of_union; [left|by right].
    apply elem_of_frame_run. lia. }
  split.
  - intros q i [[= -> ->]|Hq]%elem_of_push Hin Hi Hali; [|by apply Hmax].
    rewrite Z.div_mul by done. apply aligned_frame_mod in Hali. by apply Hbig; [lia|].
  - intros Hc Hlo Hhi'. eapply seed_step_coalesced; [apply H1|by apply Hco|done|lia|done| | |done..].
    + by apply frame_aligned.
    + intros i Hi. by apply Hnew.
Qed.

Section init_spec.
Context {Lim : Limine}.
Implicit Types (ps : pmm_state) (F U : gset Z) (memmap : list limine_memmap_entry).

Lemma extend_run_returns ps m U F f end_ claimed budget :
  pmm_rep ps m U F → 0 ≤ f ≤ end_ → end_ < 2 ^ 52 → 0 ≤ claimed ≤ budget → budget < 2 ^ 64 →
  returns (extend_run ps m f end_ claimed budget) (λ '(ps', m', f', claimed'),
    let run := frame_run f (f' - f) in
    f ≤ f' ≤ end_ ∧ claimed' = claimed + (f' - f) ∧ claimed' ≤ budget ∧ run ⊆ F ∧
    pmm_rep ps' m' U (F ∖ run) ∧ mods (bitmap_area ps) m m' ∧ bitmap_area ps' = bitmap_area ps ∧
    (f' = end_ ∨ claimed' = budget ∨ f' ∉ F)).
Proof.
  intros R Hf Hend Hcl Hbud. unfold extend_run.
  set (I := λ '(f1, c1, ps1, m1), let run := frame_run f (f1 - f) in
    f ≤ f1 ≤ end_ ∧ c1 = claimed + (f1 - f) ∧ c1 ≤ budget ∧ run ⊆ F ∧
    pmm_rep ps1 m1 U (F ∖ run) ∧ mods (bitmap_area ps) m m1 ∧ bitmap_area ps1 = bitmap_area ps).
  apply (loop_rule I) with (μ := λ '(f1, _, _, _), end_ - f1); [|lia|].
  { cbn. rewrite Z.sub_diag, frame_run_0, difference_empty_L.
    split; [lia|]. split; [lia|]. split; [lia|]. split; [by apply empty_subseteq|by split]. }
  intros [[[f1 c1] ps1] m1] (Hf1 & Hc1 & Hcb & Hsub & R1 & Hm1 & Ha1).
  destruct (Z.ltb_spec f1 end_) as [Hlt|?]; cbn [andb].
  2: { split; [lia|]. do 6 (split; [done|]). left. lia. }
  destruct (Z.ltb_spec c1 budget) as [Hcb'|?].
  2: { split; [lia|]. do 6 (split; [done|]). right; left. lia. }
  rewrite (u64_id (f1 * PMM_FRAME_SIZE)) by (unfold PMM_FRAME_SIZE; lia).
  ret_step pmm_claim_frame_returns; [exact R1|lia|]. intros [[ps2 m2] b] (-> & R2 & Hm2 & Hsame & Ha2).
  case_bool_decide as HF.
  - cbn. rewrite u64_id by lia. split; [|lia].
    replace (f1 + 1 - f) with ((f1 - f) + 1) by lia. rewrite frame_run_S by lia.
    replace (f + (f1 - f)) with f1 by lia.
    split; [lia|]. split; [lia|]. split; [lia|]. split; [clear -HF Hsub; set_solver|].
    split; [|split; [eapply mods_trans; [exact Hm1|by rewrite Ha1 in Hm2]|by rewrite Ha2]].
    replace (F ∖ ({[f1]} ∪ frame_run f (f1 - f))) with (F ∖ frame_run f (f1 - f) ∖ {[f1]}); [done|].
    clear. set_solver.
  - destruct (Hsame eq_refl) as [-> ->]. cbn. split; [lia|]. do 6 (split; [done|]). right; right.
    intros HfF. apply HF. apply elem_of_difference. split; [done|]. rewrite elem_of_frame_run. lia.
Qed.

Section claims.
Context (m0 : mem).

(** The state between two regions: what has been claimed so far is the heap.  Since
    [m0] nothing was written but the frame bitmap and free frames. *)
Record claiming (ba : Z → Prop) (hhdm : Z) U F (V : Z → Prop) (budget : Z) (gaps : Prop)
    bs ps m (claimed : Z) (M : gset Z) : Prop := {
  cl_heap : ∃ L, heap bs m L [] M ∧ (gaps → coalesced L);
  cl_pmm : pmm_rep ps m U (F ∖ M);
  cl_area : bitmap_area ps = ba;
  cl_hhdm : g_hhdm bs = hhdm;
  cl_sub : M ⊆ F;
  cl_visited : ∀ f, f ∈ M → V f;
  cl_claimed : claimed = Z.of_nat (size M);
  cl_budget : claimed ≤ budget;
  cl_frames : ∀ f, f ∈ F → frame_ok bs m f ∧
    ∀ x, range (f * PMM_FRAME_SIZE + hhdm) PMM_FRAME_SIZE x → ¬ ba x;
  cl_all : ∀ f, V f → f ∈ F → f ∈ M ∨ claimed = budget;
  cl_mods : mods (λ x, ba x ∨ ∃ f, f ∈ F ∧ range (f * PMM_FRAME_SIZE + hhdm) PMM_FRAME_SIZE x) m0 m;
}.

Lemma node_at_frame bs m f :
  0 ≤ g_hhdm bs → frame_ok bs m f → node_at bs (f * PMM_FRAME_SIZE) = f * PMM_FRAME_SIZE + g_hhdm bs.
Proof. intros Hh [Hok _]. by apply node_at_ok. Qed.

(** Claiming and seeding one run. *)
Lemma claim_run ba hhdm U F V budget gaps bs ps m claimed M f ps1 m1 f1 :
  claiming ba hhdm U F V budget gaps bs ps m claimed M →
  0 ≤ f < f1 → f1 < 2 ^ 53 → (∀ i, f ≤ i < f1 → ¬ V i) →
  frame_run f (f1 - f) ⊆ F → claimed + (f1 - f) ≤ budget →
  pmm_rep ps1 m1 U (F ∖ M ∖ frame_run f (f1 - f)) → mods ba m m1 → bitmap_area ps1 = ba →
  (gaps → ¬ (f - 1 ∈ M) ∧ ¬ (f1 ∈ M)) →
  returns (seed_run bs m1 f f1) (λ '(bs', m'),
    claiming ba hhdm U F (λ i, V i ∨ f ≤ i < f1) budget gaps bs' ps1 m' (claimed + (f1 - f)) (frame_run f (f1 - f) ∪ M)).
Proof.
  set (run := frame_run f (f1 - f)).
  intros [(L & H & Hco) R Ha Hh Hsub HV Hcl Hb Hfr Hall Hm0] Hf Hf1 HnV Hrun Hbud R1 Hm1 Ha1 Hgap.
  pose proof (br_hhdm _ _ _ (hp_rep _ _ _ _ _ H)) as Hh0.
  assert (∀ Md A bs2 m2, g_hhdm bs2 = g_hhdm bs → Md ⊆ F → (∀ i, i ∈ Md → frame_ok bs m i) →
    ∀ x, area bs2 Md A x → ¬ ba x) as Hout.
  { intros Md A bs2 m2 Hh2 HMd Hok x (i & Hi & _ & Hx). unfold node_at in Hx. rewrite Hh2 in Hx.
    fold (node_at bs (i * PMM_FRAME_SIZE)) in Hx.
    rewrite (node_at_frame bs m), Hh in Hx by auto. by apply (Hfr i); [apply HMd|]. }
  assert (heap bs m1 L [] M) as H1.
  { eapply heap_mods; [exact H|exact Hm1|]. intros x Hbx Hx. revert Hbx.
    eapply (Hout M [] bs m); [done..| |exact Hx]. intros i Hi. apply Hfr, Hsub, Hi. }
  assert (∀ i, f ≤ i < f1 → i ∈ F) as HrunF by (intros i Hi; apply Hrun, elem_of_frame_run; lia).
  eapply returns_mono; [apply (seed_run_returns bs m1 L [] M f f1 H1)|]; [lia|done| |].
  { intros i Hi. split; [|intros HM; by apply (HnV i Hi), HV].
    eapply frame_ok_mods; [exact Hm1|done|]. apply Hfr. by apply HrunF. }
  intros [bs' m'] (L' & H' & Ht & Hco'). fold run in H', Ht.
  assert (run ## M) as Hdis.
  { intros i Hi%elem_of_frame_run HM. apply (HnV i); [lia|by apply HV]. }
  split.
  - exists L'. split; [done|]. intros Hg. apply Hco'; [by apply Hco|apply Hgap, Hg|apply Hgap, Hg].
  - replace (F ∖ (run ∪ M)) with (F ∖ M ∖ run) by (clear; set_solver).
    eapply rep_mods; [exact R1|apply Ht|]. rewrite Ha1.
    apply (Hout (run ∪ M) [] bs m1); [done|clear -Hrun Hsub; set_solver|].
    intros i [Hi|Hi]%elem_of_union; apply Hfr; [by apply Hrun|by apply Hsub].
  - done.
  - by rewrite (tc_hhdm _ _ _ _ _ _ Ht).
  - clear -Hrun Hsub. set_solver.
  - intros i [Hi%elem_of_frame_run|Hi]%elem_of_union; [right; lia|left; by apply HV].
  - rewrite size_union by done. rewrite Nat2Z.inj_add, <- Hcl. unfold run.
    rewrite frame_run_size by lia. lia.
  - done.
  - intros i Hi. destruct (Hfr i Hi) as [Hok Hx]. split; [|done].
    eapply frame_ok_mods; [apply Ht|apply Ht|]. by eapply frame_ok_mods; [exact Hm1|done|].
  - intros i [Hi|Hi] HiF; [|left; apply elem_of_union; left; apply elem_of_frame_run; lia].
    destruct (Hall i Hi HiF) as [?|?]; [left; apply elem_of_union; by right|lia].
  - eapply mods_trans; [exact Hm0|]. eapply mods_trans; [eapply mods_weaken; [exact Hm1|by left]|].
    eapply mods_weaken; [apply Ht|]. intros x (i & Hi & _ & Hx). right.
    assert (i ∈ F) as HiF by (clear -Hi Hrun Hsub; set_solver). exists i. split; [done|].
    unfold node_at in Hx. try rewrite (tc_hhdm _ _ _ _ _ _ Ht) in Hx. fold (node_at bs (i * PMM_FRAME_SIZE)) in Hx.
    rewrite (node_at_frame bs m), Hh in Hx; [done|done|]. by apply Hfr.
Qed.

Lemma claiming_visited ba hhdm U F V V' budget gaps bs ps m claimed M :
  claiming ba hhdm U F V budget gaps bs ps m claimed M →
  (∀ i, V i → V' i) → (∀ i, V' i → V i ∨ i ∉ F ∨ claimed = budget) →
  claiming ba hhdm U F V' budget gaps bs ps m claimed M.
Proof.
  intros [] HV HV'. split; try done.
  - intros i Hi. by apply HV, cl_visited0.
  - intros i [Hi|[Hi|Hi]]%HV' HiF; [by apply cl_all0|done|by right].
Qed.

(** Between two rounds of [claim_region], at frame [f]: the frames before it have been
    visited, and the one just before it is not claimed unless the region starts here. *)
Record claim_round ba hhdm U F (V : Z → Prop) budget gaps first end_ f claimed bs ps m M : Prop := {
  rd_range : first ≤ f ≤ end_;
  rd_claiming : claiming ba hhdm U F (λ i, V i ∨ first ≤ i < f) budget gaps bs ps m claimed M;
  rd_prev : f = first ∨ f - 1 ∉ M ∨ f ∉ F ∨ f = end_ ∨ claimed = budget;
}.

(** What of the region has not been visited is not claimed. *)
Lemma round_ahead ba hhdm U F (V : Z → Prop) budget gaps first end_ f claimed bs ps m M i :
  claim_round ba hhdm U F V budget gaps first end_ f claimed bs ps m M →
  f ≤ i → ¬ V i → i ∉ M.
Proof. intros [_ H _] Hi HnV [Hv|?]%(cl_visited _ _ _ _ _ _ _ _ _ _ _ _ H); [done|lia]. Qed.

Lemma round_skips ba hhdm U F (V : Z → Prop) budget gaps first end_ f claimed bs ps m M :
  claim_round ba hhdm U F V budget gaps first end_ f claimed bs ps m M → f < end_ → f ∉ F ∖ M → ¬ V f →
  claim_round ba hhdm U F V budget gaps first end_ (f + 1) claimed bs ps m M.
Proof.
  intros Hrd Hlt Hno HnV. pose proof (round_ahead _ _ _ _ _ _ _ _ _ _ _ _ _ _ _ f Hrd ltac:(lia) HnV) as HfM.
  assert (f ∉ F) as HfF by (intros ?; apply Hno, elem_of_difference; done). destruct Hrd as [Hf H1 _].
  split; [lia| |right; left; by replace (f + 1 - 1) with f by lia].
  eapply claiming_visited; [exact H1|intros i [?|?]; [by left|right; lia]|].
  intros i [?|?]; [by left; left|]. destruct (decide (i = f)) as [->|]; [by right; left|].
  left; right; lia.
Qed.

(** A run of free frames that starts at [f] is claimed as far as it goes. *)
Lemma round_claims ba hhdm U F (V : Z → Prop) budget (gaps : Prop) first end_ f claimed bs ps m M ps1 m1 :
  claim_round ba hhdm U F V budget gaps first end_ f claimed bs ps m M →
  0 ≤ first → f < end_ → end_ < 2 ^ 52 → claimed < budget → budget < 2 ^ 64 →
  (∀ i, first ≤ i < end_ → ¬ V i) → (gaps → ¬ V (first - 1) ∧ ¬ V end_) → f ∈ F →
  pmm_rep ps1 m1 U (F ∖ M ∖ {[f]}) → mods ba m m1 → bitmap_area ps1 = ba →
  returns ('(ps, m, f1, claimed) ← extend_run ps1 m1 (f + 1) end_ (u64 (claimed + 1)) budget;
           '(bs, m) ← seed_run bs m f f1;
           Ok (inl (f1, claimed, bs, ps, m)))
    (λ r : Z * Z * buddy_state * pmm_state * mem + buddy_state * pmm_state * mem * Z, match r with
     | inl (f', claimed', bs', ps', m') => f < f' ∧
         ∃ M', claim_round ba hhdm U F V budget gaps first end_ f' claimed' bs' ps' m' M'
     | inr _ => False end).
Proof.
  intros Hrd Hfirst Hlt Hend Hcb Hbud HnV Hgap HfF R1 Hm1 Ha1.
  pose proof (λ i, round_ahead _ _ _ _ _ _ _ _ _ _ _ _ _ _ _ i Hrd) as Hahead. destruct Hrd as [Hf H1 Hprev].
  pose proof (cl_claimed _ _ _ _ _ _ _ _ _ _ _ _ H1) as Hc1. rewrite u64_id by lia.
  ret_step extend_run_returns; [exact R1|lia|done|lia|done|].
  intros [[[ps3 m3] f3] c3] (Hf3 & -> & Hcb3 & Hrun & R3 & Hm3 & Ha3 & Hstop). rewrite Ha1 in Hm3, Ha3.
  assert (frame_run f (f3 - f) = {[f]} ∪ frame_run (f + 1) (f3 - (f + 1))) as Hrun3.
  { apply set_eq. intros i. rewrite elem_of_union, elem_of_singleton, !elem_of_frame_run. lia. }
  assert (f3 ≠ end_ → f3 ∉ M) as Hf3M by (intros ?; apply Hahead; [lia|apply HnV; lia]).
  assert (F ∖ M ∖ {[f]} ∖ frame_run (f + 1) (f3 - (f + 1)) = F ∖ M ∖ frame_run f (f3 - f)) as HF3.
  { rewrite Hrun3. clear. set_solver. }
  rewrite HF3 in R3. ret_step (claim_run ba hhdm U F _ budget gaps bs ps m claimed M f ps3 m3 f3 H1);
    [lia|lia| | |lia|exact R3|by eapply mods_trans|exact Ha3| |].
  { intros i Hi [?|?]; [|lia]. by apply (HnV i); [lia|]. }
  { rewrite Hrun3. clear -Hrun HfF. set_solver. }
  { intros Hg. destruct (Hgap Hg) as [Hg1 Hg2]. split.
    - destruct Hprev as [->|[?|[?|[?|?]]]]; [|done|done|lia|lia].
      intros [?|?]%(cl_visited _ _ _ _ _ _ _ _ _ _ _ _ H1); [done|lia].
    - destruct (decide (f3 = end_)) as [->|]; [|by apply Hf3M]. apply Hahead; [lia|done]. }
  intros [bs4 m4] H4. cbn [returns]. split; [lia|].
  replace (claimed + 1 + (f3 - (f + 1))) with (claimed + (f3 - f)) in * by lia.
  exists (frame_run f (f3 - f) ∪ M). split; [lia| |].
  - eapply claiming_visited; [exact H4|intros i [[?|?]|?]; [by left|right; lia..]|].
    intros i [?|?]; left; [by left; left|]. destruct (decide (i < f)); [left; right; lia|right; lia].
  - destruct (decide (f3 = end_)) as [?|Hne]; [tauto|]. destruct Hstop as [?|[?|Hs]]; [done|tauto|].
    right; right; left. intros HF3'. apply Hs. specialize (Hf3M Hne).
    apply elem_of_difference. split; [by apply elem_of_difference|].
    rewrite elem_of_singleton. lia.
Qed.

Lemma claim_region_returns ba hhdm U F V budget (gaps : Prop) bs ps m claimed M first end_ :
  claiming ba hhdm U F V budget gaps bs ps m claimed M →
  0 ≤ first ≤ end_ → end_ < 2 ^ 52 → budget < 2 ^ 64 →
  (∀ i, first ≤ i < end_ → ¬ V i) → (gaps → ¬ V (first - 1) ∧ ¬ V end_) →
  returns (claim_region bs ps m first end_ claimed budget) (λ '(bs', ps', m', claimed'),
    ∃ M', claiming ba hhdm U F (λ i, V i ∨ first ≤ i < end_) budget gaps bs' ps' m' claimed' M').
Proof.
  intros HC Hr Hend Hbud HnV Hgap. unfold claim_region.
  apply (loop_rule (λ '(f, c1, bs1, ps1, m1), ∃ M1, claim_round ba hhdm U F V budget gaps first end_ f c1 bs1 ps1 m1 M1))
    with (μ := λ '(f, _, _, _, _), end_ - f); [|lia|].
  { exists M. split; [lia| |by left].
    eapply claiming_visited; [exact HC|intros; by left|]. intros i [?|?]; [by left|lia]. }
  intros [[[[f c1] bs1] ps1] m1] (M1 & Hrd). pose proof Hrd as [Hf H1 _].
  pose proof (cl_budget _ _ _ _ _ _ _ _ _ _ _ _ H1) as Hcb.
  destruct (Z.ltb_spec f end_) as [Hlt|?]; cbn [andb].
  2: { exists M1. by replace end_ with f by lia. }
  destruct (Z.ltb_spec c1 budget) as [Hcb'|?].
  2: { exists M1. eapply claiming_visited; [exact H1|intros i [?|?]; [by left|right; lia]|].
       intros i _. right; right. lia. }
  rewrite (u64_id (f * PMM_FRAME_SIZE)) by (unfold PMM_FRAME_SIZE; lia).
  ret_step pmm_claim_frame_returns; [apply H1|lia|].
  intros [[ps2 m2] b] (-> & R2 & Hm2 & Hsame & Ha2). case_bool_decide as HF; cbn [negb].
  2: { destruct (Hsame eq_refl) as [-> ->]. split; [|lia]. exists M1. by apply round_skips; [..|apply HnV; lia]. }
  apply elem_of_difference in HF as [HfF _]. rewrite (cl_area _ _ _ _ _ _ _ _ _ _ _ _ H1) in Hm2, Ha2.
  eapply returns_mono; [eapply (round_claims _ _ _ _ _ _ _ _ _ _ _ _ _ _ _ ps2 m2 Hrd);
    [lia|exact Hlt|exact Hend|exact Hcb'|exact Hbud|exact HnV|exact Hgap|exact HfF|exact R2|exact Hm2|exact Ha2]|].
  intros [[[[[f3 c3] bs3] ps3] m3]|?]; [|done]. intros (Hlt3 & M' & Hrd').
  pose proof (rd_range _ _ _ _ _ _ _ _ _ _ _ _ _ _ _ Hrd'). split; [by exists M'|lia].
Qed.

(** No usable region ends where another one starts. *)
Definition gapped memmap : Prop :=
  ∀ e, e ∈ memmap → usable e = true →
    ¬ (base e / PMM_FRAME_SIZE - 1 ∈ memmap_frames memmap) ∧
    ¬ (base e / PMM_FRAME_SIZE + length_ e / PMM_FRAME_SIZE ∈ memmap_frames memmap).

Lemma claim_regions_returns ba hhdm U F budget all : memmap_ok all → budget < 2 ^ 64 →
  ∀ memmap V bs ps m claimed M,
  claiming ba hhdm U F V budget (gapped all) bs ps m claimed M →
  (∀ e, e ∈ memmap → e ∈ all) → NoDup (memmap_frames memmap) →
  (∀ i, i ∈ memmap_frames memmap → ¬ V i) → (∀ i, V i → i ∈ memmap_frames all) →
  returns (claim_regions bs ps m memmap claimed budget) (λ '(bs', ps', m'), ∃ claimed' M',
    claiming ba hhdm U F (λ i, V i ∨ i ∈ memmap_frames memmap) budget (gapped all)
      bs' ps' m' claimed' M').
Proof.
  intros Hok Hbud. induction memmap as [|e rest IH]; intros V bs ps m claimed M HC Hall Hnd Hnv HV.
  { exists claimed, M. eapply claiming_visited; [exact HC|by left|].
    intros i [?|Hi]; [by left|by apply elem_of_nil in Hi]. }
  cbn [claim_regions memmap_frames] in *. pose proof (cl_budget _ _ _ _ _ _ _ _ _ _ _ _ HC).
  destruct (Z.ltb_spec claimed budget) as [Hlt|?].
  2: { exists claimed, M. eapply claiming_visited; [exact HC|by left|].
       intros i _. right; right. lia. }
  pose proof (Hall e ltac:(by left)) as He.
  apply NoDup_app in Hnd as (_ & Hdis & Hndr).
  destruct (usable e) eqn:Hu.
  2: { eapply returns_mono; [apply (IH V bs ps m claimed M HC); try done|].
       - intros e' Hin. apply Hall. by right.
       - intros [[bs' ps'] m'] (c' & M' & HC'). exists c', M'. exact HC'. }
  destruct (mm_entries _ Hok e He Hu) as (? & ? & ? & ? & ?).
  pose proof (bitmap_span all Hok) as (Htot & _ & _ & Hend & _). specialize (Hend e He Hu).
  assert (0 ≤ base e / PMM_FRAME_SIZE) by (unfold PMM_FRAME_SIZE; div_lia).
  assert (0 ≤ length_ e / PMM_FRAME_SIZE) by (unfold PMM_FRAME_SIZE; div_lia).
  cbv zeta. rewrite u64_id by lia. apply returns_bind. eapply returns_mono.
  { apply (claim_region_returns ba hhdm U F V budget (gapped all) _ _ _ _ M); [done|lia|lia|done| |].
    - intros i Hi. apply Hnv, elem_of_app. left. apply elem_of_seqZ. lia.
    - intros Hg. destruct (Hg e He Hu) as [Hg1 Hg2]. split; intros Hv; [apply Hg1|apply Hg2]; auto. }
  intros [[[bs1 ps1] m1] c1] (M1 & HC1).
  eapply returns_mono; [apply (IH _ _ _ _ _ M1 HC1); [|done|..]|].
  - intros e' Hin. apply Hall. by right.
  - intros i Hi [Hv|Hi']; [apply (Hnv i); [apply elem_of_app; by right|done]|].
    apply (Hdis i); [|done]. apply elem_of_seqZ. lia.
  - intros i [Hv|Hi']; [by apply HV|]. apply elem_of_memmap_frames. by exists e.
  - intros [[bs' ps'] m'] (c' & M' & HC'). exists c', M'. eapply claiming_visited; [exact HC'| |].
    + intros i [[?|?]|?]; [by left|right..]; apply elem_of_app; [left|by right]. apply elem_of_seqZ. lia.
    + intros i [?|[Hi|Hi]%elem_of_app]; left; [by left; left| |by right].
      left; right. apply elem_of_seqZ in Hi. lia.
Qed.

End claims.

(** The heap before the first block. *)
Lemma heap_empty m hhdm :
  0 ≤ hhdm → heap {| free_list := replicate 11 0; free_count := replicate 11 0; g_hhdm := hhdm |} m
    (replicate 11 []) [] ∅.
Proof.
  intros Hh. split; [split|split|].
  - done.
  - done.
  - done.
  - done.
  - intros o l Hl. apply lookup_replicate in Hl as [-> _]. done.
  - intros p Hp. by apply elem_of_nil in Hp.
  - apply NoDup_nil_2.
  - done.
  - done.
  - intros b Hb. by apply elem_of_nil in Hb.
  - intros f Hf. by apply elem_of_empty in Hf.
Qed.

Lemma buddy_init_returns ps m memmap hhdm reserve U F :
  pmm_rep ps m U F → memmap_ok memmap → F ⊆ list_to_set (memmap_frames memmap) →
  arena ps m hhdm F → 0 ≤ reserve →
  returns (buddy_init ps m memmap hhdm reserve) (λ '(bs', ps', m'), ∃ M L,
    heap bs' m' L [] M ∧ (gapped memmap → coalesced L) ∧
    M ⊆ F ∧ Z.of_nat (size M) = Z.max 0 (Z.of_nat (size F) - reserve) ∧
    pmm_rep ps' m' U (F ∖ M) ∧ g_hhdm bs' = hhdm ∧
    bitmap_area ps' = bitmap_area ps ∧
    mods (λ x, bitmap_area ps x ∨ ∃ f, f ∈ F ∧ range (f * PMM_FRAME_SIZE + hhdm) PMM_FRAME_SIZE x) m m').
Proof.
  intros R Hok HF [Hh Hfr] Hres. unfold buddy_init. rewrite (pmm_get_stats_spec _ _ _ _ R).
  pose proof (rep_free_bound _ _ _ _ R) as Hfree. rewrite (rep_free _ _ _ _ R) in Hfree.
  set (n := Z.of_nat (size F)) in *. set (bs := {| free_list := _ |}). cbv beta iota.
  set (budget := if reserve <? n then u64 (n - reserve) else 0).
  assert (budget = Z.max 0 (n - reserve)) as Hbud.
  { unfold budget. destruct (Z.ltb_spec reserve n); [|lia]. rewrite u64_id by lia. lia. }
  assert (claiming m (bitmap_area ps) hhdm U F (λ _, False) budget (gapped memmap) bs ps m 0 ∅) as HC.
  { split; try done.
    - exists (replicate 11 []). split; [by apply heap_empty|]. intros _ p o _ (l & Hl & Hp)%elem_of_blocks.
      apply lookup_replicate in Hl as [-> _]. by apply elem_of_nil in Hp.
    - by rewrite difference_empty_L.
    - lia.
    - intros f Hf. destruct (Hfr f Hf) as (Hle & Hb & Hout). split; [|done].
      pose proof (rep_range _ _ _ _ R f (rep_sub _ _ _ _ R f Hf)).
      assert (addr_ok bs (f * PMM_FRAME_SIZE)) as Haddr.
      { split; [unfold PMM_FRAME_SIZE; lia|]. split; [apply Z.mod_mul; done|]. cbn. lia. }
      split; [done|]. by rewrite node_at_ok. }
  eapply returns_mono.
  { apply (claim_regions_returns m _ hhdm U F budget memmap Hok ltac:(lia) memmap _ _ _ _ _ _ HC);
      [done|apply mm_disjoint, Hok|by intros i _ []|by intros i []]. }
  intros [[bs' ps'] m'] (c & M & HC'). exists M.
  destruct (cl_heap _ _ _ _ _ _ _ _ _ _ _ _ _ HC') as (L & HL & Hco). exists L.
  split; [done|]. split; [done|]. split; [apply HC'|]. split; [|split; [apply HC'|split; [apply HC'|split; [apply HC'|apply HC']]]].
  pose proof (cl_claimed _ _ _ _ _ _ _ _ _ _ _ _ _ HC') as Hc.
  pose proof (cl_budget _ _ _ _ _ _ _ _ _ _ _ _ _ HC') as Hcb.
  pose proof (cl_sub _ _ _ _ _ _ _ _ _ _ _ _ _ HC') as Hsub.
  rewrite <- Hbud, <- Hc. destruct (decide (c = budget)) as [->|Hne]; [done|].
  assert (F ⊆ M) as HFM.
  { intros f Hf. destruct (cl_all _ _ _ _ _ _ _ _ _ _ _ _ _ HC' f) as [?|?]; [|done..].
    right. apply HF, elem_of_list_to_set in Hf. done. }
  pose proof (subseteq_size _ _ HFM). lia.
Qed.
End init_spec.

(** * Statistics *)

Lemma take_S_lookup (o : nat) L l : L !! o = Some l → take (S o) L = take o L ++ [l].
Proof. intros. by apply take_S_r. Qed.

Lemma list_bytes_take (o : nat) L : 0 ≤ list_bytes 0 (take o L) ≤ list_bytes 0 L.
Proof.
  assert (∀ i L, 0 ≤ list_bytes i L) as Hnn.
  { clear. intros i L. revert i. induction L as [|l L IH]; intros i; cbn; [lia|].
    pose proof (bsize_pos i). specialize (IH (S i)). nia. }
  split; [done|]. rewrite <- (take_drop o L) at 2. rewrite list_bytes_app.
  specialize (Hnn (0 + length (take o L))%nat (drop o L)). lia.
Qed.

Lemma buddy_get_stats_returns bs m L A M :
  heap bs m L A M →
  buddy_get_stats bs =
    Ok ((λ l, Z.of_nat (length l)) <$> L, PMM_FRAME_SIZE * (Z.of_nat (size M) - weight A)).
Proof.
  intros [R HT Hfr]. rewrite <- (tiled_bytes _ _ _ HT).
  assert (list_bytes 0 L < 2 ^ 64) as Hmax.
  { rewrite (tiled_bytes _ _ _ HT). pose proof (weight_nonneg A).
    enough (Z.of_nat (size M) ≤ 2 ^ 52 - 1) by (unfold PMM_FRAME_SIZE; lia).
    apply (size_bounded M 1 (2 ^ 52)); [lia|]. intros f Hf. destruct (Hfr f Hf) as [(? & _ & ?) _].
    pose proof (br_hhdm _ _ _ R). unfold PMM_FRAME_SIZE in *. lia. }
  unfold buddy_get_stats. rewrite (br_counts _ _ _ R).
  match goal with |- context [for_each ?lo ?hi ?body ?s] =>
    assert (returns (for_each lo hi body s) (λ t, t = list_bytes 0 L)) as Hsum end.
  2: { apply returns_inv in Hsum as (t & -> & ->). done. }
  assert (take 11 L = L) as Hall by (apply take_ge; rewrite (br_len _ _ _ R); done).
  rewrite <- (f_equal (list_bytes 0) Hall).
  apply (for_each_rule (λ i t, t = list_bytes 0 (take (Z.to_nat i) L))); [done|done|done|].
  intros i t Hi ->. unfold BUDDY_MAX_ORDER in Hi.
  set (o := Z.to_nat i) in *. replace i with (Z.of_nat o) by lia.
  destruct (tiled_lookup _ _ _ o HT) as [l Hl]; [unfold orders; lia|].
  rewrite (arr_get_Some _ _ (Z.of_nat (length l))) by by rewrite list_lookup_fmap, Hl. cbn.
  replace (Z.to_nat (o + 1)) with (S o) by lia.
  pose proof (list_bytes_take o L) as Hlo. pose proof (list_bytes_take (S o) L) as Hhi.
  rewrite (take_S_lookup _ _ _ Hl), list_bytes_app in *. cbn [list_bytes] in *.
  rewrite length_take_le, Z.add_0_r, Nat.add_0_l in * by (rewrite (br_len _ _ _ R); lia).
  rewrite block_bytes_bsize by (unfold orders; lia). pose proof (bsize_pos o).
  rewrite (u64_id (length l * _)), u64_id by nia. done.
Qed.

(** * The memory of a block, as its owner sees it *)

Definition block_mem bs (b : block) : Z → Prop := range (node_at bs b.1) (bsize b.2).

(** The frame an address of a block lies in. *)
Lemma block_mem_frame bs m L A M b x :
  heap bs m L A M → b ∈ blocks L ++ A → block_mem bs b x →
  ∃ f, f ∈ frames b ∧ f ∈ M ∧ range (node_at bs (f * PMM_FRAME_SIZE)) PMM_FRAME_SIZE x.
Proof.
  intros H Hb Hx. destruct b as [p o]. unfold block_mem in Hx. cbn in Hx.
  destruct (ti_ok _ _ _ (hp_tiled _ _ _ _ _ H) _ Hb) as [Hal _].
  destruct (heap_block _ _ _ _ _ _ _ H Hb) as (_ & Hok & _).
  pose proof (aligned_frame p o Hal) as Hp. pose proof (br_hhdm _ _ _ (hp_rep _ _ _ _ _ H)) as Hh.
  rewrite node_at_ok in Hx by done. unfold range, bsize in Hx.
  set (f := (x - g_hhdm bs) / PMM_FRAME_SIZE).
  assert (f ∈ frames (p, o)) as Hf.
  { rewrite elem_of_frames. subst f. unfold PMM_FRAME_SIZE in *. set (s := 2 ^ o) in *. clearbody s. div_lia. }
  assert (f ∈ M) as HfM by (eapply tiles_frame; [apply (hp_tiled _ _ _ _ _ H)|exact Hb|exact Hf]).
  exists f. split; [done|split; [done|]].
  destruct (hp_frames _ _ _ _ _ H f HfM) as [Hfok _]. rewrite node_at_ok by done.
  unfold range, f, PMM_FRAME_SIZE. div_lia.
Qed.

(** A block is backed in full, and fits below 2^64 in the direct map. *)
Lemma heap_block_backed bs m L A M p (o : nat) :
  heap bs m L A M → (p, o) ∈ A →
  node_at bs p = p + g_hhdm bs ∧ backed m (node_at bs p) (bsize o) ∧
  0 < p ∧ p + g_hhdm bs + bsize o ≤ 2 ^ 64.
Proof.
  intros H Hb. assert ((p, o) ∈ blocks L ++ A) as Hin by (apply elem_of_app; by right).
  destruct (heap_block _ _ _ _ _ _ _ H Hin) as (_ & Hok & _).
  pose proof (br_hhdm _ _ _ (hp_rep _ _ _ _ _ H)) as Hh.
  split; [by apply node_at_ok|]. split.
  - intros x Hx. destruct (block_mem_frame _ _ _ _ _ (p, o) x H Hin Hx) as (f & _ & HfM & Hfx).
    destruct (hp_frames _ _ _ _ _ H f HfM) as [_ Hback]. by apply Hback.
  - split; [apply Hok|]. pose proof (pow2_pos o ltac:(lia)) as Hpos.
    assert (p / PMM_FRAME_SIZE + 2 ^ o - 1 ∈ M) as HlM.
    { eapply tiles_frame; [apply (hp_tiled _ _ _ _ _ H)|exact Hin|]. rewrite elem_of_frames. lia. }
    destruct (hp_frames _ _ _ _ _ H _ HlM) as [(_ & _ & Hhi) _].
    destruct (ti_ok _ _ _ (hp_tiled _ _ _ _ _ H) _ Hin) as [Hal _].
    rewrite (aligned_frame p o Hal). unfold bsize. unfold PMM_FRAME_SIZE in *.
    lia.
Qed.

(** The allocator never writes to a block that is out. *)
Lemma block_mem_outside bs m L A M b x :
  heap bs m L A M → b ∈ A → block_mem bs b x → ¬ area bs M A x.
Proof.
  intros H Hb Hx (g & HgM & HgA & Hgx).
  destruct (block_mem_frame _ _ _ _ _ b x H) as (f & Hf & HfM & Hfx); [apply elem_of_app; by right|done|].
  assert (f = g) as ->; [|by apply (HgA b Hb)].
  pose proof (br_hhdm _ _ _ (hp_rep _ _ _ _ _ H)) as Hh.
  destruct (hp_frames _ _ _ _ _ H f HfM) as [Hfok _]. destruct (hp_frames _ _ _ _ _ H g HgM) as [Hgok _].
  rewrite node_at_ok in Hfx, Hgx by done. unfold range, PMM_FRAME_SIZE in *. lia.
Qed.

(** * Clients: any interleaving of allocations, frees and writes *)

Record buddy_world := { bw_bs : buddy_state; bw_mem : mem; bw_out : list block }.

Inductive buddy_step (M : gset Z) : buddy_world → buddy_world → Prop :=
  | bstep_alloc w bs' m' p (o : nat) :
      buddy_alloc (bw_bs w) (bw_mem w) o = Ok (bs', m', p) → p ≠ 0 →
      buddy_step M w {| bw_bs := bs'; bw_mem := m'; bw_out := (p, o) :: bw_out w |}
  | bstep_oom w bs' m' (o : nat) :
      buddy_alloc (bw_bs w) (bw_mem w) o = Ok (bs', m', 0) →
      buddy_step M w {| bw_bs := bs'; bw_mem := m'; bw_out := bw_out w |}
  | bstep_free w bs' m' p (o : nat) before after :
      bw_out w = before ++ (p, o) :: after →
      buddy_free (bw_bs w) (bw_mem w) p o = Ok (bs', m') →
      buddy_step M w {| bw_bs := bs'; bw_mem := m'; bw_out := before ++ after |}
  | bstep_write w m' P :
      (* a client writes to blocks it holds, or outside the arena *)
      mods P (bw_mem w) m' → (∀ x, P x → ¬ area (bw_bs w) M (bw_out w) x) →
      buddy_step M w {| bw_bs := bw_bs w; bw_mem := m'; bw_out := bw_out w |}.

Definition buddy_inv (M : gset Z) (w : buddy_world) : Prop :=
  ∃ L, heap (bw_bs w) (bw_mem w) L (bw_out w) M ∧ coalesced L.

Lemma buddy_alloc_large bs m (o : nat) : (orders ≤ o)%nat → buddy_alloc bs m o = Ok (bs, m, 0).
Proof.
  intros Ho. unfold buddy_alloc, BUDDY_MAX_ORDER, orders in *.
  by destruct (Z.ltb_spec 10 o); [|lia].
Qed.

Lemma heap_perm bs m L A A' M : A ≡ₚ A' → heap bs m L A M → heap bs m L A' M.
Proof. intros HP H. eapply heap_retile; [exact H|]. eapply tiled_perm; [exact HP|apply H]. Qed.

Lemma spec_free_coalesced L A M p (o : nat) :
  tiled L ((p, o) :: A) M → coalesced L → coalesced (spec_free p o L).
Proof.
  intros HT HL. destruct (ti_ok _ _ _ HT (p, o)) as [_ Ho]; [apply elem_of_app; right; by left|].
  apply free_merge_coalesced; [apply HT|done|]. cbn in Ho. unfold orders in *. lia.
Qed.

Lemma buddy_inv_step M w w' : buddy_inv M w → buddy_step M w w' → buddy_inv M w'.
Proof.
  intros (L & H & HL) Hstep. unfold buddy_inv. destruct Hstep as
    [w bs' m' p o Hrun Hne|w bs' m' o Hrun|w bs' m' p o before after Hout Hrun|w m' P Hm HP]; cbn.
  - destruct (decide (o < orders)%nat); [|by rewrite buddy_alloc_large in Hrun by lia; simplify_eq].
    pose proof (buddy_alloc_returns _ _ _ _ _ o H ltac:(done)) as Hs. rewrite Hrun in Hs. cbn [returns] in Hs.
    destruct (spec_alloc o L) as [[q L']|] eqn:Hsp; [|by destruct Hs as [-> _]].
    destruct Hs as (-> & H' & _). exists L'. split; [done|].
    eapply spec_alloc_coalesced; [exact HL|apply H'|apply H|done].
  - destruct (decide (o < orders)%nat); [|rewrite buddy_alloc_large in Hrun by lia; simplify_eq; by exists L].
    pose proof (buddy_alloc_returns _ _ _ _ _ o H ltac:(done)) as Hs. rewrite Hrun in Hs. cbn [returns] in Hs.
    destruct (spec_alloc o L) as [[q L']|] eqn:Hsp.
    + destruct Hs as (<- & H' & _). exfalso.
      destruct (heap_block_backed _ _ _ _ _ _ _ H' (list_elem_of_here _ _)) as (_ & _ & ? & _). lia.
    + destruct Hs as (_ & -> & ->). by exists L.
  - rewrite Hout in H. apply (heap_perm _ _ _ _ ((p, o) :: before ++ after)) in H; [|solve_Permutation].
    pose proof (buddy_free_returns _ _ _ _ _ _ _ H) as Hs. rewrite Hrun in Hs. destruct Hs as [H' _].
    exists (spec_free p o L). split; [done|]. eapply spec_free_coalesced; [apply H|done].
  - exists L. split; [|done]. by eapply heap_mods.
Qed.

Lemma buddy_inv_steps M w w' : rtc (buddy_step M) w w' → buddy_inv M w → buddy_inv M w'.
Proof. induction 1; eauto using buddy_inv_step. Qed.

(** * A small machine: the four frames the frame allocator has left *)

Module buddy_demo.
#[local] Existing Instance demo.limine0.

Definition F : gset Z := demo.U ∖ {[1]}.

Lemma gapped : Buddy.gapped demo.memmap.
Proof.
  intros e Hin Hu. repeat (apply elem_of_cons in Hin as [->|Hin]); [..|by apply not_elem_of_nil in Hin];
    try done; split; apply (bool_decide_unpack _); by vm_compute.
Qed.

(** The heap right after initialisation, with nothing kept back. *)
Lemma heap0 : ∃ bs m L, heap bs m L [] F ∧ coalesced L ∧ g_hhdm bs = demo.hhdm.
Proof.
  destruct demo.boot_frames as (ps & m & _ & R & HF & Har).
  destruct (returns_inv _ _ (buddy_init_returns ps m demo.memmap demo.hhdm 0 demo.U F R demo.memmap_ok
    HF Har ltac:(done))) as ([[bs ps'] m'] & _ & M & L & H & Hco & Hsub & Hsize & _ & Hh & _).
  exists bs, m', L. assert (M = F) as ->; [|split; [done|split; [by apply Hco, gapped|done]]].
  apply leibniz_equiv, set_subseteq_size_equiv; [done|]. apply Nat2Z.inj_le. rewrite Hsize. lia.
Qed.

(** Frame 2 is free, so a block of order 0 can be had. *)
Lemma alloc0 : ∃ bs m L p L', heap bs m L [] F ∧ coalesced L ∧
  spec_alloc 0 L = Some (p, L') ∧ g_hhdm bs = demo.hhdm.
Proof.
  destruct heap0 as (bs & m & L & H & Hco & Hh). exists bs, m, L.
  destruct (spec_alloc 0 L) as [[p L']|] eqn:Hsp; [by exists p, L'|exfalso].
  rewrite (spec_alloc_fails L [] F 0 (hp_tiled _ _ _ _ _ H) Hco) in Hsp by (unfold orders; lia).
  apply (Hsp 0x2000); [done|]. intros f Hf.
  destruct (tiles_cover _ _ f (ti_tiles _ _ _ (hp_tiled _ _ _ _ _ H))) as (b & Hb & Hfb).
  - rewrite elem_of_frames in Hf. assert (f = 2) as -> by (change (0x2000 / PMM_FRAME_SIZE) with 2 in Hf; lia).
    apply (bool_decide_unpack _). by vm_compute.
  - exists b. by rewrite app_nil_r in Hb.
Qed.

(** The heap with one block out. *)
Lemma heap1 : ∃ bs m L p, heap bs m L [(p, 0%nat)] F ∧ coalesced L.
Proof.
  destruct alloc0 as (bs & m & L & p & L' & H & Hco & Hsp & _).
  pose proof (buddy_alloc_returns bs m L [] F 0 H ltac:(unfold orders; lia)) as Hs.
  rewrite Hsp in Hs. apply returns_inv in Hs as ([[bs' m'] r] & _ & -> & H' & _).
  exists bs', m', L', p. split; [done|]. eapply spec_alloc_coalesced; [exact Hco|apply H'|apply H|done].
Qed.
End buddy_demo.

(** * What the allocator promises *)

(** C10. Allocation refines its specification.  For every order the code accepts
    ([order] is any unsigned value), [buddy_alloc] returns; it returns 0 and
    changes nothing exactly when no block of that order or a higher one is free;
    otherwise it returns an aligned block whose frames were free, its free lists
    are those of [spec_alloc] (first fit by order, upper halves given back), and
    it wrote nothing but memory of free blocks. *)
Theorem buddy_alloc_correct bs m L A M order :
  heap bs m L A M → 0 ≤ order →
  ∃ bs' m' r, buddy_alloc bs m order = Ok (bs', m', r) ∧
    ((r = 0 ∧ bs' = bs ∧ m' = m ∧ ∀ q (o : nat), order ≤ o → (q, o) ∉ blocks L) ∨
     ∃ (o : nat) L', order = o ∧ spec_alloc o L = Some (r, L') ∧ r ≠ 0 ∧ aligned (r, o) ∧
       heap bs' m' L' ((r, o) :: A) M ∧ mods (area bs M A) m m' ∧ g_hhdm bs' = g_hhdm bs).
Proof.
  intros H Hpos. destruct (Z_of_nat_complete order Hpos) as [o ->].
  assert (∀ q (i : nat), (q, i) ∈ blocks L → (i < orders)%nat) as Hmax.
  { intros q i (l & Hl & _)%elem_of_blocks. rewrite <- (ti_len _ _ _ (hp_tiled _ _ _ _ _ H)).
    by eapply lookup_lt_Some. }
  destruct (decide (o < orders)%nat) as [Ho|Ho].
  2: { rewrite buddy_alloc_large by lia. exists bs, m, 0. split; [done|]. left.
       do 3 (split; [done|]). intros q i Hi Hq. apply Hmax in Hq. lia. }
  destruct (returns_inv _ _ (buddy_alloc_returns bs m L A M o H Ho)) as ([[bs' m'] r] & Hrun & Hs).
  exists bs', m', r. split; [exact Hrun|].
  destruct (spec_alloc o L) as [[p L']|] eqn:Hsp.
  - right. destruct Hs as (-> & H' & [Hm Hh]). exists o, L'. split; [done|]. split; [done|].
    destruct (heap_block_backed _ _ _ _ _ _ _ H' (list_elem_of_here _ _)) as (_ & _ & ? & _).
    split; [lia|]. split; [|done].
    apply (ti_ok _ _ _ (hp_tiled _ _ _ _ _ H')), elem_of_app. right. by left.
  - left. destruct Hs as (-> & -> & ->). do 3 (split; [done|]). intros q i Hi Hq.
    unfold spec_alloc in Hsp. destruct (find_fit (orders - o) L o) as [[[??]?]|] eqn:Hf; [done|].
    apply (find_fit_None _ _ _ Hf i q); [|done]. apply Hmax in Hq. lia.
Qed.

Lemma buddy_alloc_correct_witness :
  ∃ bs m L bs' m' r, heap bs m L [] buddy_demo.F ∧ buddy_alloc bs m 0 = Ok (bs', m', r).
Proof.
  destruct buddy_demo.heap0 as (bs & m & L & H & _).
  destruct (buddy_alloc_correct bs m L [] buddy_demo.F 0 H ltac:(lia)) as (bs' & m' & r & Hrun & _).
  exists bs, m, L, bs', m', r. split; [exact H|exact Hrun].
Defined.

(** C11. Freeing refines its specification.  Giving back a block that is out
    returns, the lists become those of [spec_free] (merge with the buddy for as
    long as it is free, then push), the other blocks stay out, and only memory of
    the freed block and of free blocks was written.  If before no two buddies were
    free at once that could be merged, none are afterwards. *)
Theorem buddy_free_correct bs m L A M p (o : nat) :
  heap bs m L ((p, o) :: A) M →
  ∃ bs' m', buddy_free bs m p o = Ok (bs', m') ∧
    heap bs' m' (spec_free p o L) A M ∧ (coalesced L → coalesced (spec_free p o L)) ∧
    mods (area bs M A) m m' ∧ g_hhdm bs' = g_hhdm bs.
Proof.
  intros H.
  destruct (returns_inv _ _ (buddy_free_returns bs m L A M o p H)) as ([bs' m'] & Hrun & H' & [Hm Hh]).
  exists bs', m'. split; [exact Hrun|]. split; [done|]. split; [|done].
  eapply spec_free_coalesced, H.
Qed.

Lemma buddy_free_correct_witness :
  ∃ bs m L p bs' m', heap bs m L [(p, 0%nat)] buddy_demo.F ∧ buddy_free bs m p 0 = Ok (bs', m') ∧
    heap bs' m' (spec_free p 0 L) [] buddy_demo.F.
Proof.
  destruct buddy_demo.heap1 as (bs & m & L & p & H & _).
  destruct (buddy_free_correct bs m L [] buddy_demo.F p 0 H) as (bs' & m' & Hrun & H' & _).
  exists bs, m, L, p, bs', m'. split; [exact H|split; [exact Hrun|exact H']].
Defined.

(** C29. No avoidable failure.  While no two free buddies are left unmerged, an
    allocation of order [o] fails exactly when there is no aligned run of [2^o]
    frames that are all free: fragmentation below that never costs a block. *)
Theorem buddy_alloc_available bs m L A M (o : nat) :
  heap bs m L A M → coalesced L → (o < orders)%nat →
  ∃ bs' m' r, buddy_alloc bs m o = Ok (bs', m', r) ∧
    (r = 0 ↔ ∀ p, aligned (p, o) → ∃ f, f ∈ frames (p, o) ∧ ∀ b, b ∈ blocks L → f ∉ frames b).
Proof.
  intros H Hco Ho.
  destruct (returns_inv _ _ (buddy_alloc_returns bs m L A M o H Ho)) as ([[bs' m'] r] & Hrun & Hs).
  exists bs', m', r. split; [exact Hrun|].
  pose proof (spec_alloc_fails L A M o (hp_tiled _ _ _ _ _ H) Hco Ho) as Hfail.
  transitivity (spec_alloc o L = None).
  { destruct (spec_alloc o L) as [[p L']|]; [|by destruct Hs as [-> _]]. destruct Hs as (-> & H' & _).
    destruct (heap_block_backed _ _ _ _ _ _ _ H' (list_elem_of_here _ _)) as (_ & _ & ? & _).
    split; [lia|done]. }
  rewrite Hfail. split; intros Hall p Hal.
  - specialize (Hall p Hal).
    destruct (decide (set_Forall (λ f, Exists (λ b, f ∈ frames b) (blocks L)) (frames (p, o)))) as [Hin|Hn].
    + destruct Hall. intros f Hf. apply Hin, Exists_exists in Hf. exact Hf.
    + apply not_set_Forall_Exists in Hn as (f & Hf & Hn); [|intros ?; apply _]. exists f. split; [done|].
      intros b Hb Hfb. apply Hn, Exists_exists. by exists b.
  - destruct (Hall p Hal) as (f & Hf & Hnone). intros Hfree.
    destruct (Hfree f Hf) as (b & Hb & Hfb). by apply (Hnone b).
Qed.

Lemma buddy_alloc_available_witness :
  ∃ bs m L bs' m' r, heap bs m L [] buddy_demo.F ∧ buddy_alloc bs m 0%nat = Ok (bs', m', r) ∧
    (r = 0 ↔ ∀ p, aligned (p, 0%nat) →
       ∃ f, f ∈ frames (p, 0%nat) ∧ ∀ b, b ∈ blocks L → f ∉ frames b).
Proof.
  destruct buddy_demo.heap0 as (bs & m & L & H & Hco & _).
  destruct (buddy_alloc_available bs m L [] buddy_demo.F 0 H Hco ltac:(unfold orders; lia))
    as (bs' & m' & r & Hrun & Hr).
  exists bs, m, L, bs', m', r. split; [exact H|split; [exact Hrun|exact Hr]].
Defined.

(** C30. Round trip.  While no two free buddies are left unmerged, freeing the block
    just allocated restores the free lists exactly, whatever splitting the allocation
    did.  (Otherwise freeing may merge more than the allocation split.) *)
Theorem buddy_alloc_free_restores bs m L A M (o : nat) bs1 m1 p :
  heap bs m L A M → coalesced L → buddy_alloc bs m o = Ok (bs1, m1, p) → p ≠ 0 →
  ∃ bs2 m2, buddy_free bs1 m1 p o = Ok (bs2, m2) ∧ heap bs2 m2 L A M ∧
    free_list bs2 = free_list bs ∧ free_count bs2 = free_count bs.
Proof.
  intros H Hco Hrun Hne.
  destruct (decide (o < orders)%nat) as [Ho|Ho].
  2: { rewrite buddy_alloc_large in Hrun by lia. congruence. }
  pose proof (buddy_alloc_returns bs m L A M o H Ho) as Hs. rewrite Hrun in Hs. cbn [returns] in Hs.
  destruct (spec_alloc o L) as [[q L1]|] eqn:Hsp; [|by destruct Hs as [-> _]].
  destruct Hs as (-> & H1 & Ht1).
  destruct (returns_inv _ _ (buddy_free_returns bs1 m1 L1 A M o q H1)) as ([bs2 m2] & Hf & H2 & Ht2).
  rewrite (spec_free_alloc L A M o q L1 (hp_tiled _ _ _ _ _ H) Hco Ho Hsp) in H2.
  exists bs2, m2. split; [done|]. split; [done|].
  pose proof (tc_hhdm _ _ _ _ _ _ Ht1) as Hh1. pose proof (tc_hhdm _ _ _ _ _ _ Ht2) as Hh2.
  pose proof (hp_rep _ _ _ _ _ H) as R. pose proof (hp_rep _ _ _ _ _ H2) as R2.
  rewrite (br_heads _ _ _ R), (br_heads _ _ _ R2), (br_counts _ _ _ R), (br_counts _ _ _ R2).
  split; [|done]. unfold nodes, node_at. by rewrite Hh2, Hh1.
Qed.

Lemma buddy_alloc_free_restores_witness :
  ∃ bs m L bs1 m1 p bs2 m2, heap bs m L [] buddy_demo.F ∧
    buddy_alloc bs m 0%nat = Ok (bs1, m1, p) ∧ buddy_free bs1 m1 p 0%nat = Ok (bs2, m2) ∧
    heap bs2 m2 L [] buddy_demo.F ∧
    free_list bs2 = free_list bs ∧ free_count bs2 = free_count bs.
Proof.
  destruct buddy_demo.alloc0 as (bs & m & L & p & L' & H & Hco & Hsp & _).
  pose proof (buddy_alloc_returns bs m L [] buddy_demo.F 0 H ltac:(unfold orders; lia)) as Hs.
  rewrite Hsp in Hs. apply returns_inv in Hs as ([[bs1 m1] r] & Hrun & -> & H1 & _).
  destruct (heap_block_backed _ _ _ _ _ _ _ H1 (list_elem_of_here _ _)) as (_ & _ & Hpos & _).
  destruct (buddy_alloc_free_restores bs m L [] buddy_demo.F 0 bs1 m1 p H Hco Hrun ltac:(lia))
    as (bs2 & m2 & Hf & Hrest).
  exists bs, m, L, bs1, m1, p, bs2, m2.
  split; [exact H|split; [exact Hrun|split; [exact Hf|exact Hrest]]].
Defined.

(** C1. Safety under any use.  After any sequence of allocations (of any order),
    failed allocations, frees of blocks that are out, and writes by the blocks'
    owners, the blocks that are out are aligned, of a legal order, inside the
    arena and pairwise disjoint, their memory is backed in full, and the
    reported free bytes are exactly the arena's less theirs. *)
Theorem buddy_blocks_disjoint M w0 w :
  buddy_inv M w0 → rtc (buddy_step M) w0 w →
  (∀ b, b ∈ bw_out w → block_ok b ∧ frames b ⊆ M ∧
     backed (bw_mem w) (node_at (bw_bs w) b.1) (bsize b.2)) ∧
  (∀ B1 b1 B2 b2 B3, bw_out w = B1 ++ b1 :: B2 ++ b2 :: B3 → frames b1 ## frames b2) ∧
  ∃ counts, buddy_get_stats (bw_bs w) =
    Ok (counts, PMM_FRAME_SIZE * (Z.of_nat (size M) - weight (bw_out w))).
Proof.
  intros Hinv Hsteps. destruct (buddy_inv_steps M w0 w Hsteps Hinv) as (L & H & Hco).
  split; [|split].
  - intros b Hb. assert (b ∈ blocks L ++ bw_out w) as Hin by (apply elem_of_app; by right).
    split; [by apply (ti_ok _ _ _ (hp_tiled _ _ _ _ _ H))|]. split.
    + eapply tiles_frame; [apply (hp_tiled _ _ _ _ _ H)|exact Hin].
    + destruct b as [p o]. by eapply heap_block_backed.
  - intros B1 b1 B2 b2 B3 Hout. eapply tiled_disjoint; [apply (hp_tiled _ _ _ _ _ H)|exact Hout].
  - eexists. by apply (buddy_get_stats_returns _ (bw_mem w) L).
Qed.

Lemma buddy_blocks_disjoint_witness :
  ∃ w0 w, buddy_inv buddy_demo.F w0 ∧ rtc (buddy_step buddy_demo.F) w0 w ∧ length (bw_out w) = 1%nat ∧
    ∀ b, b ∈ bw_out w → block_ok b ∧ frames b ⊆ buddy_demo.F ∧
      backed (bw_mem w) (node_at (bw_bs w) b.1) (bsize b.2).
Proof.
  destruct buddy_demo.alloc0 as (bs & m & L & p & L' & H & Hco & Hsp & _).
  pose proof (buddy_alloc_returns bs m L [] buddy_demo.F 0 H ltac:(unfold orders; lia)) as Hs.
  rewrite Hsp in Hs. apply returns_inv in Hs as ([[bs1 m1] r] & Hrun & -> & H1 & _).
  destruct (heap_block_backed _ _ _ _ _ _ _ H1 (list_elem_of_here _ _)) as (_ & _ & Hpos & _).
  set (w0 := {| bw_bs := bs; bw_mem := m; bw_out := [] |}).
  set (w := {| bw_bs := bs1; bw_mem := m1; bw_out := (p, 0%nat) :: bw_out w0 |}).
  assert (rtc (buddy_step buddy_demo.F) w0 w) as Hsteps.
  { apply rtc_once. apply (bstep_alloc _ w0); [exact Hrun|lia]. }
  exists w0, w. split; [by exists L|]. split; [exact Hsteps|]. split; [done|].
  apply (buddy_blocks_disjoint buddy_demo.F w0 w (ex_intro _ L (conj H Hco)) Hsteps).
Defined.

(** C25. Taking ownership at boot.  [buddy_init] returns; it takes out of the
    frame allocator exactly as many free frames as leave it [reserve] (all but
    none when there are fewer), the two allocators own disjoint sets of frames,
    the claimed ones are all on the buddy's free lists, and when no usable
    region ends where another begins, no two mergeable blocks are left. *)
Theorem buddy_init_correct {Lim : Limine} ps m memmap hhdm reserve U F :
  pmm_rep ps m U F → memmap_ok memmap → F ⊆ list_to_set (memmap_frames memmap) →
  arena ps m hhdm F → 0 ≤ reserve →
  ∃ bs' ps' m' M L, buddy_init ps m memmap hhdm reserve = Ok (bs', ps', m') ∧
    heap bs' m' L [] M ∧ (gapped memmap → coalesced L) ∧
    pmm_rep ps' m' U (F ∖ M) ∧ M ⊆ F ∧
    Z.of_nat (size (F ∖ M)) = Z.min (Z.of_nat (size F)) reserve.
Proof.
  intros R Hok HF Har Hres.
  destruct (returns_inv _ _ (buddy_init_returns ps m memmap hhdm reserve U F R Hok HF Har Hres))
    as ([[bs' ps'] m'] & Hrun & M & L & H & Hco & Hsub & Hsize & R' & _).
  exists bs', ps', m', M, L. do 5 (split; [done|]).
  rewrite size_difference by done. pose proof (subseteq_size _ _ Hsub). lia.
Qed.

Lemma buddy_init_correct_witness :
  ∃ ps m bs' ps' m' M L,
    @buddy_init demo.limine0 ps m demo.memmap demo.hhdm 1 = Ok (bs', ps', m') ∧
    heap bs' m' L [] M ∧ pmm_rep ps' m' demo.U (buddy_demo.F ∖ M) ∧
    Z.of_nat (size (buddy_demo.F ∖ M)) = Z.min (Z.of_nat (size buddy_demo.F)) 1.
Proof.
  destruct demo.boot_frames as (ps & m & _ & R & HF & Har).
  destruct (buddy_init_correct (Lim := demo.limine0) ps m demo.memmap demo.hhdm 1 demo.U buddy_demo.F
    R demo.memmap_ok HF Har ltac:(lia)) as (bs' & ps' & m' & M & L & Hrun & H & _ & R' & _ & Hs).
  exists ps, m, bs', ps', m', M, L. split; [exact Hrun|split; [exact H|split; [exact R'|exact Hs]]].
Defined.

(** The statistics are exact: one count per order, and a total that does not
    wrap, equal to the frames the heap owns less those of the blocks out. *)
Theorem buddy_get_stats_correct bs m L A M :
  heap bs m L A M →
  buddy_get_stats bs =
    Ok ((λ l, Z.of_nat (length l)) <$> L, PMM_FRAME_SIZE * (Z.of_nat (size M) - weight A)).
Proof. apply buddy_get_stats_returns. Qed.

Lemma buddy_get_stats_correct_witness :
  ∃ bs m L, heap bs m L [] buddy_demo.F ∧
    buddy_get_stats bs = Ok ((λ l, Z.of_nat (length l)) <$> L, 4096 * (4 - 0)).
Proof.
  destruct buddy_demo.heap0 as (bs & m & L & H & _). exists bs, m, L. split; [exact H|].
  exact (buddy_get_stats_correct bs m L [] buddy_demo.F H).
Defined.
