(* ===== verification/BlockAlloc.v ===== *)
(** The interface between the block allocator and its clients.

    kernel/core/mm/slab.c calls [buddy_alloc] and [buddy_free] and relies on
    nothing else of the buddy allocator.  [BlockOps] is the pair of calls,
    [BlockLaws] what a client may rely on; the instance for the buddy allocator
    discharges it from the theorems of [Buddy].  Clients see their blocks
    through the direct map, at [hhdm] above the physical address. *)

From stdpp Require Import base list gmap sets.
From Stdlib Require Import ZArith Lia.
From S2P Require Import Prelude.
From S2P Require Import Mem.
From S2P Require Import Pmm.
From S2P Require Import Blocks.
From S2P Require Import Buddy.

#[local] Coercion Z.of_nat : nat >-> Z.

(** * The calls *)

Class BlockOps (S : Type) := {
  block_alloc : S → mem → Z → outcome (S * mem * Z);
  block_free : S → mem → Z → Z → outcome (S * mem);
}.

(** * What they promise *)

(** The bytes of block [b], and those of any of the blocks [A]. *)
Definition bytes_of (hhdm : Z) (b : block) : Z → Prop := range (b.1 + hhdm) (bsize b.2).

Definition bytes_in (hhdm : Z) (A : list block) : Z → Prop :=
  λ x, ∃ b, b ∈ A ∧ bytes_of hhdm b x.

Class BlockLaws (S : Type) (hhdm : Z) `{!BlockOps S} := {
  (** The memory the allocator manages, its own data included. *)
  block_zone : Z → Prop;
  (** The allocator is well-formed in this memory, the blocks [A] are out. *)
  block_inv : S → mem → list block → Prop;
  block_inv_zone s m A b : block_inv s m A → b ∈ A → ∀ x, bytes_of hhdm b x → block_zone x;
  block_inv_block s m A p (o : nat) :
    block_inv s m A → (p, o) ∈ A →
    0 < p ∧ aligned (p, o) ∧ 0 ≤ hhdm ∧ p + hhdm + bsize o ≤ 2 ^ 64 ∧
    backed m (p + hhdm) (bsize o);
  block_inv_apart s m A b c :
    block_inv s m (b :: A) → c ∈ A → ∀ x, bytes_of hhdm b x → ¬ bytes_of hhdm c x;
  block_inv_perm s m A A' : A ≡ₚ A' → block_inv s m A → block_inv s m A';
  (** Owners may write to their blocks, anyone outside the zone. *)
  block_inv_mods s m m' A P :
    block_inv s m A → mods P m m' → (∀ x, P x → bytes_in hhdm A x ∨ ¬ block_zone x) → block_inv s m' A;
  block_alloc_law s m A order :
    block_inv s m A → 0 ≤ order →
    returns (block_alloc s m order) (λ '(s', m', p),
      (p = 0 ∧ s' = s ∧ m' = m) ∨
      ∃ o : nat, order = o ∧ (o < orders)%nat ∧ p ≠ 0 ∧ block_inv s' m' ((p, o) :: A) ∧
        mods (λ x, block_zone x ∧ ¬ bytes_in hhdm A x) m m');
  block_free_law s m A p (o : nat) :
    block_inv s m ((p, o) :: A) →
    returns (block_free s m p o) (λ '(s', m'),
      block_inv s' m' A ∧ mods (λ x, block_zone x ∧ ¬ bytes_in hhdm A x) m m');
}.

(** * The buddy allocator provides it *)

#[export] Instance buddy_ops : BlockOps buddy_state := {
  block_alloc := buddy_alloc;
  block_free := buddy_free;
}.

Section buddy_laws.
Context (hhdm : Z) (M : gset Z).

(** [M]: the frames the allocator was seeded with. *)
Definition buddy_zone : Z → Prop := λ x, ∃ f, f ∈ M ∧ range (f * PMM_FRAME_SIZE + hhdm) PMM_FRAME_SIZE x.

Definition buddy_block_inv (bs : buddy_state) (m : mem) (A : list block) : Prop :=
  g_hhdm bs = hhdm ∧ ∃ L, heap bs m L A M.

Lemma buddy_bytes bs m L A b x :
  heap bs m L A M → g_hhdm bs = hhdm → b ∈ A → bytes_of hhdm b x ↔ block_mem bs b x.
Proof.
  intros H Hh Hb. destruct b as [p o]. destruct (heap_block_backed _ _ _ _ _ _ _ H Hb) as (Hn & _).
  unfold bytes_of, block_mem. cbn. by rewrite Hn, Hh.
Qed.

(** What the allocator may write to lies outside the blocks that are out. *)
Lemma buddy_area_out bs m L A x :
  heap bs m L A M → g_hhdm bs = hhdm → area bs M A x → ¬ bytes_in hhdm A x.
Proof.
  intros H Hh Hx (b & Hb & Hbx). eapply block_mem_outside; [exact H|exact Hb| |exact Hx].
  by eapply buddy_bytes.
Qed.

(** It writes inside its zone, where its blocks lie. *)
Lemma buddy_frame_zone bs m L A f x :
  heap bs m L A M → g_hhdm bs = hhdm → f ∈ M → range (node_at bs (f * PMM_FRAME_SIZE)) PMM_FRAME_SIZE x → buddy_zone x.
Proof.
  intros H Hh Hf Hx. exists f. split; [done|]. destruct (hp_frames _ _ _ _ _ H f Hf) as [Hok _].
  pose proof (br_hhdm _ _ _ (hp_rep _ _ _ _ _ H)). rewrite node_at_ok, Hh in Hx by done. done.
Qed.

(** Two blocks that are out share no byte. *)
Lemma buddy_bytes_apart bs m L A b c x :
  heap bs m L (b :: A) M → g_hhdm bs = hhdm → c ∈ A → bytes_of hhdm b x → ¬ bytes_of hhdm c x.
Proof.
  intros H Hh Hc Hbx Hcx.
  assert (b ∈ b :: A) as Hb by by left. assert (c ∈ b :: A) as Hc' by by right.
  apply (buddy_bytes _ _ _ _ _ _ H Hh Hb) in Hbx. apply (buddy_bytes _ _ _ _ _ _ H Hh Hc') in Hcx.
  destruct (block_mem_frame _ _ _ _ _ b x H) as (f & Hf & HfM & Hfx); [apply elem_of_app; by right|done|].
  destruct (block_mem_frame _ _ _ _ _ c x H) as (g & Hg & HgM & Hgx); [apply elem_of_app; by right|done|].
  assert (f = g) as ->.
  { destruct (hp_frames _ _ _ _ _ H f HfM) as [Hfok _]. destruct (hp_frames _ _ _ _ _ H g HgM) as [Hgok _].
    pose proof (br_hhdm _ _ _ (hp_rep _ _ _ _ _ H)).
    rewrite node_at_ok in Hfx, Hgx by done. unfold range, PMM_FRAME_SIZE in *. lia. }
  apply elem_of_Permutation in Hc as (B & HP).
  apply (tiled_apart L (b :: A) M b c (blocks L ++ B) (hp_tiled _ _ _ _ _ H)) with g; [|done..].
  rewrite HP. solve_Permutation.
Qed.

Lemma buddy_alloc_law bs m A order :
  buddy_block_inv bs m A → 0 ≤ order →
  returns (buddy_alloc bs m order) (λ '(bs', m', p),
    (p = 0 ∧ bs' = bs ∧ m' = m) ∨
    ∃ o : nat, order = o ∧ (o < orders)%nat ∧ p ≠ 0 ∧ buddy_block_inv bs' m' ((p, o) :: A) ∧
      mods (λ x, buddy_zone x ∧ ¬ bytes_in hhdm A x) m m').
Proof.
  intros (Hh & L & H) Hpos. destruct (Z_of_nat_complete order Hpos) as [o ->].
  destruct (decide (o < orders)%nat) as [Ho|Ho].
  2: { rewrite buddy_alloc_large by lia. by left. }
  eapply returns_mono; [by apply buddy_alloc_returns|]. intros [[bs' m'] p] Hs.
  destruct (spec_alloc o L) as [[q L']|] eqn:Hsp.
  - destruct Hs as (-> & H' & Ht). right. exists o. split; [done|split; [done|]].
    destruct (heap_block_backed _ _ _ _ _ _ _ H' (list_elem_of_here _ _)) as (_ & _ & ? & _).
    split; [lia|]. split.
    + split; [by rewrite (tc_hhdm _ _ _ _ _ _ Ht)|]. by exists L'.
    + eapply mods_weaken; [apply Ht|]. intros x Hx. split; [|by eapply buddy_area_out].
      destruct Hx as (f & Hf & _ & Hx). exact (buddy_frame_zone _ _ _ _ _ _ H Hh Hf Hx).
  - destruct Hs as (-> & -> & ->). by left.
Qed.

Lemma buddy_free_law bs m A p (o : nat) :
  buddy_block_inv bs m ((p, o) :: A) →
  returns (buddy_free bs m p o) (λ '(bs', m'),
    buddy_block_inv bs' m' A ∧ mods (λ x, buddy_zone x ∧ ¬ bytes_in hhdm A x) m m').
Proof.
  intros (Hh & L & H).
  eapply returns_mono; [by apply buddy_free_returns|]. intros [bs' m'] [H' Ht].
  pose proof (tc_hhdm _ _ _ _ _ _ Ht) as Hh'. split.
  - split; [by rewrite Hh'|]. by exists (spec_free p o L).
  - eapply mods_weaken; [apply Ht|]. intros x (f & Hf & HA & Hx).
    split; [exact (buddy_frame_zone _ _ _ _ _ _ H Hh Hf Hx)|].
    apply (buddy_area_out bs' m' _ A x H'); [congruence|]. exists f. split; [done|split; [done|]].
    unfold node_at in *. by rewrite Hh'.
Qed.

#[export] Program Instance buddy_laws : BlockLaws buddy_state hhdm := {
  block_zone := buddy_zone;
  block_inv := buddy_block_inv;
  block_alloc_law := buddy_alloc_law;
  block_free_law := buddy_free_law;
}.
Next Obligation.
  intros bs m A b (Hh & L & H) Hb x Hx. apply (buddy_bytes _ _ _ _ _ _ H Hh Hb) in Hx.
  destruct (block_mem_frame _ _ _ _ _ b x H) as (f & _ & Hf & Hfx); [apply elem_of_app; by right|done|].
  exact (buddy_frame_zone _ _ _ _ _ _ H Hh Hf Hfx).
Qed.
Next Obligation.
  intros bs m A p o (Hh & L & H) Hb.
  destruct (heap_block_backed _ _ _ _ _ _ _ H Hb) as (Hn & Hback & Hpos & Hhi).
  rewrite Hn, Hh in *. split; [done|]. split; [|split; [|done]].
  - apply (ti_ok _ _ _ (hp_tiled _ _ _ _ _ H)), elem_of_app. by right.
  - pose proof (br_hhdm _ _ _ (hp_rep _ _ _ _ _ H)). lia.
Qed.
Next Obligation.
  intros bs m A b c (Hh & L & H) Hc x. by eapply buddy_bytes_apart.
Qed.
Next Obligation.
  intros bs m A A' HP (Hh & L & H). split; [done|]. exists L.
  by eapply heap_perm.
Qed.
Next Obligation.
  intros bs m m' A P (Hh & L & H) Hm HP. split; [done|]. exists L.
  eapply heap_mods; [exact H|exact Hm|]. intros x Hx Har. destruct (HP x Hx) as [Hin|Hout].
  - by eapply buddy_area_out.
  - apply Hout. destruct Har as (f & Hf & _ & Hfx). exact (buddy_frame_zone _ _ _ _ _ _ H Hh Hf Hfx).
Qed.
End buddy_laws.
