(* ===== verification/Slab.v ===== *)
(** kernel/core/mm/slab.c: kmalloc and kfree over the block allocator.

    The eight caches are static data ([slab_state]); the slab headers, the
    threaded free lists inside the free slots and the headers of large blocks
    live in memory, at the offsets the C structures have.  The file only knows
    the block allocator through the interface of [BlockAlloc]. *)

From stdpp Require Import base list gmap sets.
From Stdlib Require Import ZArith Lia.
From S2P Require Import Prelude.
From S2P Require Import Mem.
From S2P Require Import Pmm.
From S2P Require Import Blocks.
From S2P Require Import Buddy.
From S2P Require Import BlockAlloc.

#[local] Coercion Z.of_nat : nat >-> Z.

(** * Layout constants *)

Definition SLAB_PAGE_SIZE : Z := PMM_FRAME_SIZE.
Definition SLAB_PAGE_MASK : Z := u64 (Z.lnot (SLAB_PAGE_SIZE - 1)).
Definition SLAB_ALIGN : Z := 16.
Definition SLAB_MAGIC : Z := 0x51AB51AB51AB51AB.
Definition LARGE_MAGIC : Z := 0x1A86A110C1A86A11.
Definition SLAB_NUM_CLASSES : Z := 8.

Definition class_sizes : list Z := [16; 32; 64; 128; 256; 512; 1024; 2048].

(** struct slab: magic at 0, cache at 8, next at 16, free at 24, free_count at
    32, total_slots at 36; struct large_hdr: magic at 0, order at 8. *)
Definition sizeof_slab : Z := 40.
Definition sizeof_large_hdr : Z := 16.

(** * State *)

Record kmem_cache := {
  obj_size : Z;
  slabs : Z;            (* base address of the first slab, 0 for NULL *)
  slab_count : Z;
  total_slots : Z;
  free_slots : Z;
}.

Definition sizeof_kmem_cache : Z := 40.

Record slab_state := {
  caches : list kmem_cache;
  slab_hhdm : Z;
}.

(** Where the linker put the array [caches]: slab headers point into it. *)
Class SlabLayout := caches_addr : Z.

Implicit Types (st : slab_state) (c : kmem_cache) (m : mem) (ptr base size : Z).

(** * Helpers *)

Definition align_up (v a : Z) : Z := Z.land (u64 (v + (a - 1))) (u64 (Z.lnot (a - 1))).

(** A shift by 64 or more is undefined. *)
Definition order_for_bytes (bytes : Z) : outcome Z :=
  loop (λ o,
    if 64 <=? o then Fault
    else if u64 (Z.shiftl SLAB_PAGE_SIZE o) <? bytes then Ok (inl (o + 1)) else Ok (inr o)) 0.

Definition slab_data_off : Z := align_up sizeof_slab SLAB_ALIGN.

Definition set_cache st (i : Z) c : outcome slab_state :=
  cs ← arr_set (caches st) i c; Ok {| caches := cs; slab_hhdm := slab_hhdm st |}.

(** [c->free_slots += d]. *)
Definition add_free st (i d : Z) : outcome slab_state :=
  c ← arr_get (caches st) i;
  set_cache st i {| obj_size := obj_size c; slabs := slabs c; slab_count := slab_count c;
                    total_slots := total_slots c; free_slots := u64 (free_slots c + d) |}.

Definition slab_init (hhdm_offset : Z) : slab_state := {|
  caches := (λ sz, {| obj_size := sz; slabs := 0; slab_count := 0; total_slots := 0;
                      free_slots := 0 |}) <$> class_sizes;
  slab_hhdm := hhdm_offset |}.

Section code.
Context {S : Type} `{!BlockOps S} {Lay : SlabLayout}.
Implicit Types (s : S).

(** &caches[i], and the index of a pointer into [caches]. *)
Definition cache_ptr (i : Z) : Z := u64 (caches_addr + sizeof_kmem_cache * i).

Definition cache_index (cp : Z) : outcome Z :=
  r ← for_loop 0 SLAB_NUM_CLASSES (λ i (_ : unit),
        if cache_ptr i =? cp then Ok (inr i) else Ok (inl ())) ();
  match r with inl _ => Fault | inr i => Ok i end.

(** * Slab growth *)

(** Push every slot on the slab's free list. *)
Definition thread_slots m base (data_off osize slots : Z) : outcome mem :=
  for_each 0 slots (λ i m,
    let slot := u64 (base + data_off + u64 (i * osize)) in
    free ← load64 m (base + 24);
    m ← store64 m slot free;
    store64 m (base + 24) slot) m.

(** Lay a header at the base of a page and thread its slots; [cp] is the cache,
    [next] the slab the new one goes in front of. *)
Definition lay_slab m base (cp osize slots next : Z) : outcome mem :=
  m ← store64 m base SLAB_MAGIC;
  m ← store64 m (base + 8) cp;
  m ← store32 m (base + 36) slots;
  m ← store32 m (base + 32) slots;
  m ← store64 m (base + 24) 0;
  m ← thread_slots m base slab_data_off osize slots;
  store64 m (base + 16) next.

Definition cache_grow st s m (i : Z) : outcome (slab_state * S * mem * Z) :=
  c ← arr_get (caches st) i;
  '(s, m, phys) ← block_alloc s m 0;
  if phys =? 0 then Ok (st, s, m, 0) else
  let base := u64 (phys + slab_hhdm st) in
  let slots := u32 ((SLAB_PAGE_SIZE - slab_data_off) / obj_size c) in
  m ← lay_slab m base (cache_ptr i) (obj_size c) slots (slabs c);
  st ← set_cache st i {| obj_size := obj_size c; slabs := base;
                         slab_count := u64 (slab_count c + 1);
                         total_slots := u64 (total_slots c + slots);
                         free_slots := u64 (free_slots c + slots) |};
  Ok (st, s, m, base).

(** * kmalloc *)

Definition large_alloc st s m size : outcome (slab_state * S * mem * Z) :=
  let data_off := align_up sizeof_large_hdr SLAB_ALIGN in
  order ← order_for_bytes (u64 (data_off + size));
  '(s, m, phys) ← block_alloc s m order;
  if phys =? 0 then Ok (st, s, m, 0) else
  let h := u64 (phys + slab_hhdm st) in
  m ← store64 m h LARGE_MAGIC;
  m ← store32 m (h + 8) order;
  Ok (st, s, m, u64 (h + data_off)).

(** The smallest class that fits; -1 when none does. *)
Definition pick_class size : outcome Z :=
  r ← for_loop 0 SLAB_NUM_CLASSES (λ i (_ : unit),
        sz ← arr_get class_sizes i;
        if size <=? sz then Ok (inr i) else Ok (inl ())) ();
  match r with inl _ => Ok (-1) | inr i => Ok i end.

(** The first slab of the list with a free slot. *)
Definition find_slab m (head : Z) : outcome Z :=
  loop (λ sl,
    if sl =? 0 then Ok (inr 0) else
    n ← load32 m (sl + 32);
    if n =? 0 then next ← load64 m (sl + 16); Ok (inl next) else Ok (inr sl)) head.

(** Pop the head of a slab's free list. *)
Definition pop_slot m (sl : Z) : outcome (mem * Z) :=
  slot ← load64 m (sl + 24);
  next ← load64 m slot;
  m ← store64 m (sl + 24) next;
  n ← load32 m (sl + 32);
  m ← store32 m (sl + 32) (u32 (n - 1));
  Ok (m, slot).

Definition kmalloc st s m size : outcome (slab_state * S * mem * Z) :=
  if size =? 0 then Ok (st, s, m, 0) else
  cls ← pick_class size;
  if cls <? 0 then large_alloc st s m size else
  c ← arr_get (caches st) cls;
  sl ← find_slab m (slabs c);
  '(st, s, m, sl) ← (if sl =? 0 then cache_grow st s m cls else Ok (st, s, m, sl));
  if sl =? 0 then Ok (st, s, m, 0) else
  '(m, slot) ← pop_slot m sl;
  st ← add_free st cls (-1);
  Ok (st, s, m, slot).

(** * kfree *)

(** Push a slot back. *)
Definition push_slot m base ptr : outcome mem :=
  free ← load64 m (base + 24);
  m ← store64 m ptr free;
  m ← store64 m (base + 24) ptr;
  n ← load32 m (base + 32);
  store32 m (base + 32) (u32 (n + 1)).

Definition kfree st s m ptr : outcome (slab_state * S * mem) :=
  if ptr =? 0 then Ok (st, s, m) else
  let base := Z.land ptr SLAB_PAGE_MASK in
  magic ← load64 m base;
  if magic =? SLAB_MAGIC then
    cp ← load64 m (base + 8);
    i ← cache_index cp;
    m ← push_slot m base ptr;
    st ← add_free st i 1;
    Ok (st, s, m)
  else if magic =? LARGE_MAGIC then
    order ← load32 m (base + 8);
    '(s, m) ← block_free s m (u64 (base - slab_hhdm st)) order;
    Ok (st, s, m)
  else Ok (st, s, m).

Definition kmalloc_usable_size st m ptr : outcome Z :=
  if ptr =? 0 then Ok 0 else
  let base := Z.land ptr SLAB_PAGE_MASK in
  magic ← load64 m base;
  if magic =? SLAB_MAGIC then
    cp ← load64 m (base + 8);
    i ← cache_index cp;
    c ← arr_get (caches st) i;
    Ok (obj_size c)
  else if magic =? LARGE_MAGIC then
    order ← load32 m (base + 8);
    if 64 <=? order then Fault else Ok (u64 (Z.shiftl SLAB_PAGE_SIZE order))
  else Ok 0.

End code.

(** * Statistics *)

Record slab_class_stats := {
  st_obj_size : Z; st_slab_count : Z; st_total_slots : Z; st_free_slots : Z; st_bytes_in_use : Z;
}.

Definition class_stats c : slab_class_stats := {|
  st_obj_size := obj_size c; st_slab_count := slab_count c; st_total_slots := total_slots c;
  st_free_slots := free_slots c;
  st_bytes_in_use := u64 (u64 (total_slots c - free_slots c) * obj_size c) |}.

Definition slab_get_stats st : list slab_class_stats := class_stats <$> caches st.

(** * Size classes *)

Definition csize (i : nat) : Z := 2 ^ (4 + i).

(** Slots a slab of class [i] is carved into. *)
Definition nslots (i : nat) : Z := (SLAB_PAGE_SIZE - slab_data_off) / csize i.

Definition classes : nat := 8.

Lemma slab_data_off_48 : slab_data_off = 48.
Proof. reflexivity. Qed.

Lemma class_cases (Q : nat → Prop) :
  Q 0%nat → Q 1%nat → Q 2%nat → Q 3%nat → Q 4%nat → Q 5%nat → Q 6%nat → Q 7%nat →
  ∀ i, (i < classes)%nat → Q i.
Proof. intros. do 8 (destruct i as [|i]; [done|]). unfold classes in *. lia. Qed.

Lemma class_size_lookup i : (i < classes)%nat → class_sizes !! i = Some (csize i).
Proof. revert i. by apply class_cases. Qed.

(** What the proofs use about sizes: slots are 16-aligned, large enough for a
    link, and fit in the page behind the header. *)
Lemma class_geometry i : (i < classes)%nat →
  16 ≤ csize i ≤ 2048 ∧ csize i mod 16 = 0 ∧ 1 ≤ nslots i < 256 ∧ 48 + nslots i * csize i ≤ 4096.
Proof. revert i. apply class_cases; vm_compute; intuition discriminate. Qed.

Lemma csize_mono i j : (i ≤ j)%nat → csize i ≤ csize j.
Proof. intros. unfold csize. apply Z.pow_le_mono_r; lia. Qed.

(** The class of a request. *)
Definition fits size (i : nat) : Prop :=
  (i < classes)%nat ∧ size ≤ csize i ∧ ∀ j, (j < i)%nat → csize j < size.

Lemma pick_class_returns size :
  returns (pick_class size) (λ z,
    (z = -1 ∧ 2048 < size) ∨ ∃ i : nat, z = Z.of_nat i ∧ fits size i).
Proof.
  unfold pick_class, SLAB_NUM_CLASSES. apply returns_bind. eapply returns_mono.
  { eapply (for_loop_rule (λ (z : Z) (_ : unit), ∀ j : nat, j < z → csize j < size)
      (λ z, ∃ i : nat, z = Z.of_nat i ∧ fits size i)); [lia|lia|lia|].
    intros z [] Hz Hlt. set (i := Z.to_nat z). replace z with (Z.of_nat i) in * by lia.
    assert (i < classes)%nat as Hi by (unfold classes; lia).
    rewrite (arr_get_Some _ _ _ (class_size_lookup i Hi)). cbn.
    destruct (Z.leb_spec size (csize i)); cbn.
    - exists i. split; [done|]. split; [done|]. split; [done|]. intros j Hj. apply Hlt. lia.
    - intros j Hj. destruct (decide (j = i)) as [->|]; [done|]. apply Hlt. lia. }
  intros [[]|z] Hr; cbn; [left|by right]. split; [done|]. exact (Hr 7%nat ltac:(lia)).
Qed.

(** * Large blocks *)

Lemma shift_page o : 0 ≤ o ≤ 51 → u64 (Z.shiftl SLAB_PAGE_SIZE o) = 4096 * 2 ^ o.
Proof.
  intros. rewrite Z.shiftl_mul_pow2 by lia. apply u64_id.
  pose proof (Z.pow_le_mono_r 2 o 51). pose proof (pow2_pos o). unfold SLAB_PAGE_SIZE, PMM_FRAME_SIZE. lia.
Qed.

(** Up to 2^63 bytes the search ends, at the lowest sufficient order. *)
Lemma order_for_bytes_returns bytes :
  0 ≤ bytes ≤ 2 ^ 63 →
  returns (order_for_bytes bytes) (λ o, 0 ≤ o ≤ 51 ∧ bytes ≤ 4096 * 2 ^ o ∧
    (0 < o → 4096 * 2 ^ (o - 1) < bytes)).
Proof.
  intros Hb. unfold order_for_bytes.
  apply (loop_rule (λ o, 0 ≤ o ≤ 51 ∧ (0 < o → 4096 * 2 ^ (o - 1) < bytes)) _ (λ o, 52 - o));
    [lia|lia|].
  intros o [Ho Hlow]. destruct (Z.leb_spec 64 o) as [?|_]; [lia|]. rewrite shift_page by lia.
  destruct (Z.ltb_spec (4096 * 2 ^ o) bytes) as [Hlt|Hge]; cbn; [|done].
  assert (o ≠ 51) by (intros ->; lia). split; [|lia]. split; [lia|]. intros _.
  by replace (o + 1 - 1) with o by lia.
Qed.

(** Beyond 2^63 it shifts past the width of the operand instead of stopping. *)
Lemma order_for_bytes_runs_away bytes :
  2 ^ 63 < bytes < 2 ^ 64 → order_for_bytes bytes = Fault.
Proof.
  intros Hb. unfold order_for_bytes. apply (loop_fault _ (λ i, i) 64); [lia| |done].
  intros o Ho. destruct (Z.leb_spec 64 o) as [?|_]; [lia|].
  destruct (Z.ltb_spec (u64 (Z.shiftl SLAB_PAGE_SIZE o)) bytes) as [_|Hge]; [done|exfalso].
  destruct (decide (o ≤ 51)).
  - rewrite shift_page in Hge by lia. pose proof (Z.pow_le_mono_r 2 o 51). lia.
  - rewrite Z.shiftl_mul_pow2 in Hge by lia. replace o with (52 + (o - 52)) in Hge by lia.
    rewrite Z.pow_add_r in Hge by lia. unfold u64, SLAB_PAGE_SIZE, PMM_FRAME_SIZE in Hge.
    replace (4096 * (2 ^ 52 * 2 ^ (o - 52))) with (2 ^ (o - 52) * 2 ^ 64) in Hge by lia.
    rewrite Z.mod_mul in Hge by lia. lia.
Qed.

(** * One slab *)

(** A slab as its cache sees it: the physical address of its page and the
    indices of its free slots, the next one to hand out first. *)
Abbreviation gslab := (Z * list nat)%type.

Section proofs.
Context {S : Type} (hhdm : Z) `{!BlockOps S, !BlockLaws S hhdm} {Lay : SlabLayout}.
Implicit Types (s : S) (p : Z) (i k : nat) (fr : list nat) (g : gslab) (gs : list gslab).

Definition sbase p : Z := p + hhdm.

Definition slot_addr i p k : Z := sbase p + 48 + k * csize i.

Definition head_addr i p fr : Z := match fr with [] => 0 | k :: _ => slot_addr i p k end.

Fixpoint threaded m i p fr : Prop :=
  match fr with
  | [] => True
  | k :: fr => load64 m (slot_addr i p k) = Ok (head_addr i p fr) ∧ threaded m i p fr
  end.

(** The contents of a slab page in state [g], linked to [next]. *)
Record slab_ok m i g (next : Z) : Prop := {
  so_magic : load64 m (sbase g.1) = Ok SLAB_MAGIC;
  so_cache : load64 m (sbase g.1 + 8) = Ok (cache_ptr i);
  so_next : load64 m (sbase g.1 + 16) = Ok next;
  so_free : load64 m (sbase g.1 + 24) = Ok (head_addr i g.1 g.2);
  so_count : load32 m (sbase g.1 + 32) = Ok (Z.of_nat (length g.2));
  so_total : load32 m (sbase g.1 + 36) = Ok (nslots i);
  so_thread : threaded m i g.1 g.2;
  so_nodup : NoDup g.2;
  so_range : ∀ k, k ∈ g.2 → k < nslots i;
}.

(** The bytes of the page the allocator itself uses in that state. *)
Definition slab_own i g : Z → Prop := λ x,
  range (sbase g.1) 40 x ∨ ∃ k, k ∈ g.2 ∧ range (slot_addr i g.1 k) 8 x.

Record page_ok m p : Prop := {
  po_pos : 0 < sbase p;
  po_top : sbase p + 4096 ≤ 2 ^ 64;
  po_backed : backed m (sbase p) 4096;
}.

Lemma page_ok_mods P m m' p : mods P m m' → page_ok m p → page_ok m' p.
Proof. intros Hm [? ? Hb]. split; [done..|]. by eapply mods_backed. Qed.

Lemma slot_apart i p j k :
  (i < classes)%nat → j ≠ k →
  slot_addr i p j + csize i ≤ slot_addr i p k ∨ slot_addr i p k + csize i ≤ slot_addr i p j.
Proof. intros Hi Hne. destruct (class_geometry i Hi) as (? & _). unfold slot_addr. nia. Qed.

Lemma slot_inside i p k :
  (i < classes)%nat → k < nslots i →
  sbase p + 48 ≤ slot_addr i p k ∧ slot_addr i p k + csize i ≤ sbase p + 4096 ∧
  16 ≤ csize i.
Proof.
  intros Hi Hk. destruct (class_geometry i Hi) as (? & _ & ? & ?). unfold slot_addr.
  split; [nia|]. split; [|lia]. nia.
Qed.

Lemma threaded_mods P m m' i p fr :
  mods P m m' → (∀ k x, k ∈ fr → range (slot_addr i p k) 8 x → ¬ P x) →
  threaded m i p fr → threaded m' i p fr.
Proof.
  intros Hm. induction fr as [|k fr IH]; intros HP; [done|]. intros [Hk Hfr]. split.
  - eapply load64_keep; [exact Hm|exact Hk|]. intros x. apply HP. by left.
  - apply IH; [|done]. intros j x Hj. apply HP. by right.
Qed.

Lemma slab_ok_mods P m m' i g next :
  mods P m m' → (∀ x, P x → ¬ slab_own i g x) → slab_ok m i g next → slab_ok m' i g next.
Proof.
  intros Hm HP []. unfold slab_own in HP.
  split; try done; try (eapply load64_keep; [exact Hm|done|]);
    try (eapply load32_keep; [exact Hm|done|]);
    try (intros x Hx HPx; apply (HP x HPx); left; unfold range in *; lia).
  eapply threaded_mods; [exact Hm| |done]. intros k x Hk Hx HPx. apply (HP x HPx). right. by exists k.
Qed.

Lemma free_length i fr :
  (i < classes)%nat → NoDup fr → (∀ k, k ∈ fr → k < nslots i) → length fr ≤ nslots i < 256.
Proof.
  intros Hi Hnd Hr. destruct (class_geometry i Hi) as (_ & _ & Hn & _). split; [|lia].
  assert (fr ⊆+ seq 0 (Z.to_nat (nslots i))) as Hsub.
  { apply NoDup_submseteq; [done|]. intros k Hk. apply elem_of_seq. specialize (Hr k Hk). lia. }
  apply submseteq_length in Hsub. rewrite length_seq in Hsub. lia.
Qed.

(** Taking the first free slot. *)
Lemma pop_slot_returns m i p k fr next :
  (i < classes)%nat → page_ok m p → slab_ok m i (p, k :: fr) next →
  returns (pop_slot m (sbase p)) (λ '(m', slot),
    slot = slot_addr i p k ∧ slab_ok m' i (p, fr) next ∧ mods (range (sbase p) 40) m m').
Proof.
  intros Hi [Hpos Htop Hb] []. cbn [fst snd] in *. unfold pop_slot.
  apply NoDup_cons in so_nodup0 as [Hk Hnd]. destruct so_thread0 as [Hlink Hth].
  assert (∀ j, j ∈ k :: fr → sbase p + 48 ≤ slot_addr i p j ∧ slot_addr i p j + 16 ≤ sbase p + 4096) as Hin.
  { intros j Hj. destruct (slot_inside i p j Hi (so_range0 j Hj)) as (? & ? & ?). lia. }
  rewrite so_free0. cbn. rewrite Hlink. cbn.
  ret_step store64_returns.
  { eapply backed_sub; [exact Hb|lia..]. }
  { by eapply load64_range. }
  intros m1 [Hm1 Hv1]. rewrite (load32_mods _ _ _ _ Hm1) by (unfold range; lia). rewrite so_count0. cbn.
  ret_step store32_returns.
  { eapply mods_backed; [exact Hm1|]. eapply backed_sub; [exact Hb|lia..]. }
  { apply u32_range. }
  intros m2 [Hm2 Hv2]. cbn. split; [done|].
  assert (mods (range (sbase p + 24) 12) m m2) as Hm.
  { eapply mods_trans; eapply mods_weaken; [exact Hm1| |exact Hm2|]; unfold range; lia. }
  split; [|eapply mods_weaken; [exact Hm|unfold range; lia]].
  assert (u32 (length (k :: fr) - 1) = length fr) as Hlen.
  { pose proof (free_length i (k :: fr) Hi) as Hl. cbn [length] in *. rewrite u32_id; [lia|].
    assert (NoDup (k :: fr)) as Hnd' by by constructor. specialize (Hl Hnd' so_range0). lia. }
  split; try done; cbn [fst snd];
    try (eapply load64_keep; [exact Hm|done|]; unfold range; lia);
    try (eapply load32_keep; [exact Hm|done|]; unfold range; lia).
  - eapply load64_keep; [exact Hm2|exact Hv1|unfold range; lia].
  - rewrite Hv2. f_equal. exact Hlen.
  - eapply threaded_mods; [exact Hm| |done]. intros j x Hj. specialize (Hin j ltac:(by right)).
    unfold range. lia.
  - intros j Hj. apply so_range0. by right.
Qed.

(** Giving a slot back. *)
Lemma push_slot_returns m i p k fr next :
  (i < classes)%nat → page_ok m p → slab_ok m i (p, fr) next → k ∉ fr → k < nslots i →
  returns (push_slot m (sbase p) (slot_addr i p k)) (λ m',
    slab_ok m' i (p, k :: fr) next ∧
    mods (λ x, range (sbase p) 40 x ∨ range (slot_addr i p k) 8 x) m m').
Proof.
  intros Hi [Hpos Htop Hb] [] Hk Hkn. cbn [fst snd] in *. unfold push_slot.
  assert (∀ j, j ∈ k :: fr → sbase p + 48 ≤ slot_addr i p j ∧ slot_addr i p j + 16 ≤ sbase p + 4096) as Hin.
  { intros j Hj. destruct (slot_inside i p j Hi) as (? & ? & ?); [|lia].
    apply elem_of_cons in Hj as [->|Hj]; [done|by apply so_range0]. }
  pose proof (Hin k ltac:(by left)) as Hkin.
  rewrite so_free0. cbn. ret_step store64_returns.
  { eapply backed_sub; [exact Hb|lia..]. }
  { by eapply load64_range. }
  intros m1 [Hm1 Hv1]. ret_step store64_returns.
  { eapply mods_backed; [exact Hm1|]. eapply backed_sub; [exact Hb|lia..]. }
  { lia. }
  intros m2 [Hm2 Hv2].
  rewrite (load32_mods _ _ _ _ Hm2), (load32_mods _ _ _ _ Hm1), so_count0 by (unfold range; lia). cbn.
  eapply returns_mono; [apply store32_returns|].
  { eapply mods_backed; [exact Hm2|]. eapply mods_backed; [exact Hm1|]. eapply backed_sub; [exact Hb|lia..]. }
  { apply u32_range. }
  intros m3 [Hm3 Hv3].
  assert (mods (λ x, range (sbase p + 24) 12 x ∨ range (slot_addr i p k) 8 x) m m3) as Hm.
  { eapply mods_trans; [|eapply mods_trans]; eapply mods_weaken;
      [exact Hm1| |exact Hm2| |exact Hm3|]; unfold range; lia. }
  split; [|eapply mods_weaken; [exact Hm|unfold range; lia]].
  assert (u32 (length fr + 1) = length (k :: fr)) as Hlen.
  { pose proof (free_length i fr Hi so_nodup0 so_range0) as Hl. cbn [length]. rewrite u32_id; lia. }
  assert (∀ j, j ∈ fr → slot_addr i p j + 8 ≤ slot_addr i p k ∨ slot_addr i p k + 8 ≤ slot_addr i p j) as Hap.
  { intros j Hj. assert (j ≠ k) as Hne by (by intros ->). pose proof (class_geometry i Hi) as (? & _).
    destruct (slot_apart i p j k Hi Hne); lia. }
  split; cbn [fst snd];
    try (eapply load64_keep; [exact Hm|done|]; unfold range; lia);
    try (eapply load32_keep; [exact Hm|done|]; unfold range; lia).
  - eapply load64_keep; [exact Hm3|exact Hv2|unfold range; lia].
  - rewrite Hv3. f_equal. exact Hlen.
  - split.
    + eapply load64_keep; [exact Hm3| |unfold range; lia].
      eapply load64_keep; [exact Hm2|exact Hv1|unfold range; lia].
    + eapply threaded_mods; [exact Hm| |done]. intros j x Hj.
      specialize (Hin j ltac:(by right)). specialize (Hap j Hj). unfold range. lia.
  - by constructor.
  - intros j [->|Hj]%elem_of_cons; [done|by apply so_range0].
Qed.

(** Carving a fresh page. *)
Definition all_slots i : list nat := reverse (seq 0 (Z.to_nat (nslots i))).

Lemma reverse_seq_S n : reverse (seq 0 (n + 1)) = n :: reverse (seq 0 n).
Proof. rewrite seq_app, reverse_app. done. Qed.

Lemma thread_slots_returns m i p :
  (i < classes)%nat → page_ok m p → load64 m (sbase p + 24) = Ok 0 →
  returns (thread_slots m (sbase p) slab_data_off (csize i) (nslots i)) (λ m',
    load64 m' (sbase p + 24) = Ok (head_addr i p (all_slots i)) ∧ threaded m' i p (all_slots i) ∧
    mods (λ x, range (sbase p + 24) 8 x ∨ range (sbase p + 48) 4048 x) m m').
Proof.
  intros Hi Hpage H0. destruct (class_geometry i Hi) as (Hc & _ & Hn & Hfit).
  pose proof Hpage as [Hpos Htop Hb]. unfold thread_slots. rewrite slab_data_off_48.
  eapply (for_each_rule (λ z m1, let fr := reverse (seq 0 (Z.to_nat z)) in
    load64 m1 (sbase p + 24) = Ok (head_addr i p fr) ∧ threaded m1 i p fr ∧
    mods (λ x, range (sbase p + 24) 8 x ∨ range (sbase p + 48) 4048 x) m m1)); [lia|lia|done|].
  intros z m1 Hz (Hh1 & Ht1 & Hm1). set (k := Z.to_nat z) in *. replace z with (Z.of_nat k) by lia.
  destruct (slot_inside i p k Hi) as (Hk1 & Hk2 & _); [lia|].
  assert (u64 (sbase p + 48 + u64 (k * csize i)) = slot_addr i p k) as ->.
  { unfold slot_addr in *. rewrite (u64_id (k * csize i)) by nia. apply u64_id. nia. }
  cbv zeta. rewrite Hh1. cbn [mbind outcome_bind].
  ret_step store64_returns.
  { eapply mods_backed; [exact Hm1|]. eapply backed_sub; [exact Hb|lia..]. }
  { by eapply load64_range. }
  intros m2 [Hm2 Hv2]. eapply returns_mono; [apply store64_returns|].
  { eapply mods_backed; [exact Hm2|]. eapply mods_backed; [exact Hm1|]. eapply backed_sub; [exact Hb|lia..]. }
  { lia. }
  intros m3 [Hm3 Hv3]. replace (Z.to_nat (k + 1)) with (k + 1)%nat by lia. rewrite reverse_seq_S.
  assert (∀ j, j ∈ reverse (seq 0 k) → (j < k)%nat ∧ sbase p + 48 ≤ slot_addr i p j ∧
    slot_addr i p j + 8 ≤ slot_addr i p k) as Hap.
  { intros j Hj%elem_of_reverse%elem_of_seq. destruct (slot_inside i p j Hi) as (? & _); [lia|].
    split; [lia|]. split; [done|]. unfold slot_addr. nia. }
  split; [done|split; [split|]].
  - eapply load64_keep; [exact Hm3|exact Hv2|unfold range; lia].
  - eapply threaded_mods; [exact Hm3|intros j x Hj; specialize (Hap j Hj); unfold range; lia|].
    eapply threaded_mods; [exact Hm2|intros j x Hj; specialize (Hap j Hj); unfold range; lia|done].
  - eapply mods_trans; [exact Hm1|]. eapply mods_trans; eapply mods_weaken;
      [exact Hm2| |exact Hm3|]; unfold range; lia.
Qed.

Lemma lay_slab_returns m i p next :
  (i < classes)%nat → page_ok m p → 0 ≤ next < 2 ^ 64 →
  returns (lay_slab m (sbase p) (cache_ptr i) (csize i) (nslots i) next) (λ m',
    slab_ok m' i (p, all_slots i) next ∧ mods (range (sbase p) 4096) m m').
Proof.
  intros Hi Hpage Hnext. destruct (class_geometry i Hi) as (Hc & _ & Hn & Hfit).
  pose proof Hpage as [Hpos Htop Hb]. unfold lay_slab.
  assert (∀ m' a len, mods (range (sbase p) 4096) m m' → sbase p ≤ a → a + len ≤ sbase p + 4096 →
    backed m' a len) as Hback.
  { intros m' a len Hm ??. eapply mods_backed; [exact Hm|]. by eapply backed_sub. }
  ret_step store64_returns; [eapply backed_sub; [exact Hb|lia..]|done|]. intros m1 [Hm1 Hv1].
  assert (mods (range (sbase p) 4096) m m1) as M1 by (eapply mods_weaken; [exact Hm1|unfold range; lia]).
  ret_step store64_returns; [apply Hback; [exact M1|lia..]|apply u64_range|]. intros m2 [Hm2 Hv2].
  assert (mods (range (sbase p) 4096) m m2) as M2
    by (eapply mods_trans; [exact M1|eapply mods_weaken; [exact Hm2|unfold range; lia]]).
  ret_step store32_returns; [apply Hback; [exact M2|lia..]|lia|]. intros m3 [Hm3 Hv3].
  assert (mods (range (sbase p) 4096) m m3) as M3
    by (eapply mods_trans; [exact M2|eapply mods_weaken; [exact Hm3|unfold range; lia]]).
  ret_step store32_returns; [apply Hback; [exact M3|lia..]|lia|]. intros m4 [Hm4 Hv4].
  assert (mods (range (sbase p) 4096) m m4) as M4
    by (eapply mods_trans; [exact M3|eapply mods_weaken; [exact Hm4|unfold range; lia]]).
  ret_step store64_returns; [apply Hback; [exact M4|lia..]|lia|]. intros m5 [Hm5 Hv5].
  assert (mods (range (sbase p) 4096) m m5) as M5
    by (eapply mods_trans; [exact M4|eapply mods_weaken; [exact Hm5|unfold range; lia]]).
  ret_step thread_slots_returns; [done|by eapply page_ok_mods|exact Hv5|].
  intros m6 (Hfree & Hth & Hm6).
  assert (mods (range (sbase p) 4096) m m6) as M6
    by (eapply mods_trans; [exact M5|eapply mods_weaken; [exact Hm6|unfold range; lia]]).
  eapply returns_mono; [apply store64_returns; [apply Hback; [exact M6|lia..]|done]|].
  intros m7 [Hm7 Hv7].
  split; [|eapply mods_trans; [exact M6|eapply mods_weaken; [exact Hm7|unfold range; lia]]].
  assert (∀ k, k ∈ all_slots i → k < nslots i) as Hr.
  { intros k Hk%elem_of_reverse%elem_of_seq. lia. }
  split; cbn [fst snd]; try done.
  - rewrite (load64_mods _ _ _ _ Hm7), (load64_mods _ _ _ _ Hm6), (load64_mods _ _ _ _ Hm5),
      (load64_mods _ _ _ _ Hm4), (load64_mods _ _ _ _ Hm3), (load64_mods _ _ _ _ Hm2) by (unfold range; lia).
    done.
  - rewrite (load64_mods _ _ _ _ Hm7), (load64_mods _ _ _ _ Hm6), (load64_mods _ _ _ _ Hm5),
      (load64_mods _ _ _ _ Hm4), (load64_mods _ _ _ _ Hm3) by (unfold range; lia). done.
  - rewrite (load64_mods _ _ _ _ Hm7) by (unfold range; lia). done.
  - rewrite (load32_mods _ _ _ _ Hm7), (load32_mods _ _ _ _ Hm6), (load32_mods _ _ _ _ Hm5) by (unfold range; lia).
    unfold all_slots. rewrite length_reverse, length_seq, Z2Nat.id by lia. done.
  - rewrite (load32_mods _ _ _ _ Hm7), (load32_mods _ _ _ _ Hm6), (load32_mods _ _ _ _ Hm5),
      (load32_mods _ _ _ _ Hm4) by (unfold range; lia). done.
  - eapply threaded_mods; [exact Hm7| |done]. intros k x Hk.
    destruct (slot_inside i p k Hi (Hr k Hk)) as (? & _). unfold range. lia.
  - unfold all_slots. rewrite reverse_Permutation. apply NoDup_seq.
Qed.

(** * The slabs of a cache *)

Definition head_base gs : Z := match gs with [] => 0 | g :: _ => sbase g.1 end.

Fixpoint slab_chain m i gs : Prop :=
  match gs with
  | [] => True
  | g :: gs => slab_ok m i g (head_base gs) ∧ slab_chain m i gs
  end.

Definition gs_free gs : Z := foldr (λ g n, Z.of_nat (length g.2) + n) 0 gs.

Lemma gs_free_app gs1 gs2 : gs_free (gs1 ++ gs2) = gs_free gs1 + gs_free gs2.
Proof. unfold gs_free. induction gs1; simpl; lia. Qed.

Lemma slab_chain_mods P m m' i gs :
  mods P m m' → (∀ g x, g ∈ gs → P x → ¬ slab_own i g x) → slab_chain m i gs → slab_chain m' i gs.
Proof.
  intros Hm. induction gs as [|g gs IH]; intros HP; [done|]. intros [Hg Hgs]. split.
  - eapply slab_ok_mods; [exact Hm| |exact Hg]. intros x. apply HP. by left.
  - apply IH; [|done]. intros g' x Hg'. apply HP. by right.
Qed.

(** Replacing the state of one slab; the links only depend on the pages. *)
Lemma slab_chain_update P m m' i gs1 g g' gs2 :
  mods P m m' → (∀ h x, h ∈ gs1 ++ gs2 → P x → ¬ slab_own i h x) → g'.1 = g.1 →
  slab_ok m' i g' (head_base gs2) → slab_chain m i (gs1 ++ g :: gs2) →
  slab_chain m' i (gs1 ++ g' :: gs2).
Proof.
  intros Hm HP Heq Hg'. induction gs1 as [|h gs1 IH]; cbn; intros [Hh Hgs].
  - split; [done|]. eapply slab_chain_mods; [exact Hm|exact HP|exact Hgs].
  - split; [|apply IH; [|done]].
    + assert (head_base (gs1 ++ g' :: gs2) = head_base (gs1 ++ g :: gs2)) as ->
        by (destruct gs1; cbn; [by rewrite Heq|done]).
      eapply slab_ok_mods; [exact Hm| |exact Hh]. intros x. apply HP. by left.
    + intros h' x Hh'. apply HP. by right.
Qed.

Lemma slab_chain_at m i gs1 g gs2 :
  slab_chain m i (gs1 ++ g :: gs2) → slab_ok m i g (head_base gs2).
Proof. induction gs1 as [|h gs1 IH]; cbn; intros [? ?]; auto. Qed.

Lemma find_slab_returns m i gs :
  slab_chain m i gs → (∀ g, g ∈ gs → 0 < sbase g.1) → Z.of_nat (length gs) ≤ 2 ^ 64 →
  returns (find_slab m (head_base gs)) (λ z,
    (z = 0 ∧ ∀ g, g ∈ gs → g.2 = []) ∨
    ∃ gs1 p k fr gs2, gs = gs1 ++ (p, k :: fr) :: gs2 ∧ z = sbase p ∧ ∀ g, g ∈ gs1 → g.2 = []).
Proof.
  intros Hch Hpos Hlen. unfold find_slab.
  apply (loop_rule_var (λ (n : Z) (z : Z), ∃ gs1 gs2, gs = gs1 ++ gs2 ∧ z = head_base gs2 ∧
    n = Z.of_nat (length gs2) ∧ ∀ g, g ∈ gs1 → g.2 = []) _ _ (length gs)); [|done|].
  { exists [], gs. split; [done|split; [done|split; [done|]]]. by intros g ?%elem_of_nil. }
  intros n z (gs1 & gs2 & -> & -> & -> & Hnil). destruct gs2 as [|g gs2]; cbn [head_base].
  { rewrite app_nil_r in *. by left. }
  specialize (Hpos g ltac:(apply elem_of_app; right; by left)).
  destruct (Z.eqb_spec (sbase g.1) 0) as [?|_]; [lia|].
  pose proof (slab_chain_at _ _ _ _ _ Hch) as []. rewrite so_count0. cbn.
  destruct g as [p [|k fr]]; cbn in *.
  - rewrite so_next0. cbn. exists (Z.of_nat (length gs2)). split; [|lia].
    exists (gs1 ++ [(p, [])]), gs2. split; [by rewrite <- app_assoc|]. split; [done|split; [done|]].
    intros g [?| ->%list_elem_of_singleton]%elem_of_app; [by apply Hnil|done].
  - destruct (Z.eqb_spec (Datatypes.S (length fr)) 0) as [?|_]; [lia|]. cbn. right.
    by exists gs1, p, k, fr, gs2.
Qed.

(** * The whole allocator *)

Record cache_rep m c i gs : Prop := {
  cr_size : obj_size c = csize i;
  cr_slabs : slabs c = head_base gs;
  cr_count : slab_count c = Z.of_nat (length gs);
  cr_total : total_slots c = Z.of_nat (length gs) * nslots i;
  cr_free : free_slots c = gs_free gs;
  cr_chain : slab_chain m i gs;
}.

Record large_ok m (b : block) : Prop := {
  lo_magic : load64 m (sbase b.1) = Ok LARGE_MAGIC;
  lo_order : load32 m (sbase b.1 + 8) = Ok (Z.of_nat b.2);
}.

Definition large_own (b : block) : Z → Prop := range (sbase b.1) 12.

Definition page_of g : block := (g.1, 0%nat).

(** The blocks borrowed: one page per slab, and the large ones. *)
Definition all_blocks (G : list (list gslab)) (LG : list block) : list block :=
  (page_of <$> concat G) ++ LG.

(** [G]: the slabs of each class; [LG]: the large blocks. *)
Record slab_rep st s m (G : list (list gslab)) (LG : list block) : Prop := {
  sr_hhdm : slab_hhdm st = hhdm;
  sr_align : hhdm mod 4096 = 0;
  sr_classes : length G = classes;
  sr_length : length (caches st) = classes;
  sr_inv : block_inv s m (all_blocks G LG);
  sr_caches : ∀ i c gs, caches st !! i = Some c → G !! i = Some gs → cache_rep m c i gs;
  sr_large : ∀ b, b ∈ LG → large_ok m b;
}.

Implicit Types (G : list (list gslab)) (LG : list block).

Definition others i gs1 gs2 G LG : list block :=
  (page_of <$> (gs1 ++ gs2 ++ concat_rest i G)) ++ LG.

Lemma all_blocks_split i gs1 g gs2 G LG :
  G !! i = Some (gs1 ++ g :: gs2) → all_blocks G LG ≡ₚ page_of g :: others i gs1 gs2 G LG.
Proof.
  intros Hi. unfold all_blocks, others. rewrite (concat_lookup i _ _ Hi).
  rewrite !fmap_app, fmap_cons. solve_Permutation.
Qed.

Lemma all_blocks_update i gs1 g gs2 g' G LG :
  G !! i = Some (gs1 ++ g :: gs2) →
  all_blocks (<[i := gs1 ++ g' :: gs2]> G) LG ≡ₚ page_of g' :: others i gs1 gs2 G LG.
Proof.
  intros Hi. unfold all_blocks, others. rewrite concat_insert by by eapply lookup_lt_Some.
  rewrite !fmap_app, fmap_cons. solve_Permutation.
Qed.

Lemma all_blocks_cons i gs g G LG :
  G !! i = Some gs → all_blocks (<[i := g :: gs]> G) LG ≡ₚ page_of g :: all_blocks G LG.
Proof.
  intros Hi. unfold all_blocks. rewrite concat_insert by by eapply lookup_lt_Some.
  rewrite (concat_lookup i _ _ Hi). rewrite !fmap_app, fmap_cons. solve_Permutation.
Qed.

Lemma bsize_0 : bsize 0 = 4096.
Proof. reflexivity. Qed.

(** The bookkeeping of a slab lies in its page. *)
Lemma slab_own_page m i g next x :
  (i < classes)%nat → slab_ok m i g next → slab_own i g x → bytes_of hhdm (page_of g) x.
Proof.
  intros Hi Hg [Hx|(k & Hk & Hx)]; unfold bytes_of, page_of; cbn [fst snd]; rewrite bsize_0;
    unfold sbase, range in *; [lia|].
  destruct (slot_inside i g.1 k Hi (so_range _ _ _ _ Hg k Hk)) as (? & ? & ?). unfold sbase in *. lia.
Qed.

Lemma page_in i gs g G LG : G !! i = Some gs → g ∈ gs → page_of g ∈ all_blocks G LG.
Proof.
  intros Hi Hg. unfold all_blocks. apply elem_of_app. left. apply list_elem_of_fmap_2.
  rewrite (concat_lookup i _ _ Hi). apply elem_of_app. by left.
Qed.

Lemma rep_page_ok s m A p : block_inv s m A → (p, 0%nat) ∈ A → page_ok m p.
Proof.
  intros HA Hp. destruct (block_inv_block (hhdm := hhdm) _ _ _ _ _ HA Hp) as (? & _ & ? & ? & Hb).
  rewrite bsize_0 in *. unfold sbase. split; unfold sbase; [lia|lia|done].
Qed.

Lemma chain_slab_ok m i gs g : slab_chain m i gs → g ∈ gs → ∃ next, slab_ok m i g next.
Proof.
  intros Hch (gs1 & gs2 & ->)%list_elem_of_split. eexists. by eapply slab_chain_at.
Qed.

(** The bytes the allocator uses inside the blocks it borrowed. *)
Definition bookkeeping G LG : Z → Prop := λ x,
  (∃ i gs g, G !! i = Some gs ∧ g ∈ gs ∧ slab_own i g x) ∨ ∃ b, b ∈ LG ∧ large_own b x.

Lemma cache_rep_mods P m m' c i gs :
  mods P m m' → (∀ g x, g ∈ gs → P x → ¬ slab_own i g x) → cache_rep m c i gs → cache_rep m' c i gs.
Proof. intros Hm HP []. split; try done. by eapply slab_chain_mods. Qed.

Lemma large_ok_mods P m m' b :
  mods P m m' → (∀ x, P x → ¬ large_own b x) → large_ok m b → large_ok m' b.
Proof.
  intros Hm HP []. unfold large_own, range in *.
  split; [eapply load64_keep|eapply load32_keep]; try done;
    intros x Hx HPx; apply (HP x HPx); unfold range in *; lia.
Qed.

(** The owners of live objects may write to them. *)
Lemma slab_rep_mods P st s m m' G LG :
  slab_rep st s m G LG → mods P m m' →
  (∀ x, P x → (bytes_in hhdm (all_blocks G LG) x ∨ ¬ block_zone x) ∧ ¬ bookkeeping G LG x) →
  slab_rep st s m' G LG.
Proof.
  intros [] Hm HP. split; try done.
  - eapply block_inv_mods; [done|exact Hm|]. intros x Hx. by apply HP.
  - intros i c gs Hc Hgs. eapply cache_rep_mods; [exact Hm| |by apply (sr_caches0 i)].
    intros g x Hg Hx Hown. apply (HP x Hx). left. by exists i, gs, g.
  - intros b Hb. eapply large_ok_mods; [exact Hm| |by apply sr_large0].
    intros x Hx Hown. apply (HP x Hx). right. by exists b.
Qed.

Lemma rep_cache st s m G LG i gs :
  slab_rep st s m G LG → G !! i = Some gs →
  (i < classes)%nat ∧ ∃ c, caches st !! i = Some c ∧ cache_rep m c i gs.
Proof.
  intros R Hi. assert (i < classes)%nat as Hlt.
  { rewrite <- (sr_classes _ _ _ _ _ R). by eapply lookup_lt_Some. }
  split; [done|]. destruct (lookup_lt_is_Some_2 (caches st) i) as [c Hc].
  { by rewrite (sr_length _ _ _ _ _ R). }
  exists c. split; [done|]. by eapply sr_caches.
Qed.

(** A block and the bookkeeping in the other ones. *)
Lemma other_untouched s m m0 A i g next b x :
  block_inv s m (b :: A) → page_of g ∈ A → (i < classes)%nat → slab_ok m0 i g next →
  bytes_of hhdm b x → ¬ slab_own i g x.
Proof.
  intros Hinv Hg Hi Hok Hx Hown. eapply (block_inv_apart (hhdm := hhdm)); [exact Hinv|exact Hg|exact Hx|].
  by eapply slab_own_page.
Qed.

Lemma large_own_bytes s m A (b : block) x :
  block_inv s m A → b ∈ A → large_own b x → bytes_of hhdm b x.
Proof.
  intros Hinv Hb Hx. unfold large_own, bytes_of, sbase, range in *.
  pose proof (bsize_pos b.2). unfold bsize, PMM_FRAME_SIZE in *.
  pose proof (pow2_pos b.2 ltac:(lia)). lia.
Qed.

(** Everything but block [b] is as before when only [b] was written to. *)
Lemma rep_others P st s m m' G LG b A :
  slab_rep st s m G LG → all_blocks G LG ≡ₚ b :: A → mods P m m' →
  (∀ x, P x → bytes_of hhdm b x) →
  block_inv s m' (all_blocks G LG) ∧
  (∀ i c gs, caches st !! i = Some c → G !! i = Some gs → (∀ g, g ∈ gs → page_of g ∈ A) →
     cache_rep m' c i gs) ∧
  (∀ d, d ∈ LG → d ∈ A → large_ok m' d).
Proof.
  intros R HP Hm HPb. pose proof (sr_inv _ _ _ _ _ R) as Hinv.
  pose proof (block_inv_perm (hhdm := hhdm) _ _ _ _ HP Hinv) as HinvP. split; [|split].
  - eapply block_inv_mods; [exact Hinv|exact Hm|]. intros x Hx. left. exists b. rewrite HP.
    split; [by left|by apply HPb].
  - intros i c gs Hc Hgs HA. pose proof (sr_caches _ _ _ _ _ R i c gs Hc Hgs) as HR.
    eapply cache_rep_mods; [exact Hm| |exact HR]. intros g x Hg Hx.
    destruct (chain_slab_ok _ _ _ _ (cr_chain _ _ _ _ HR) Hg) as [next Hok].
    eapply other_untouched; [exact HinvP|by apply HA| |exact Hok|by apply HPb].
    by destruct (rep_cache _ _ _ _ _ _ _ R Hgs).
  - intros d HcL HcA. eapply large_ok_mods; [exact Hm| |by eapply sr_large].
    intros x Hx Hown. eapply (block_inv_apart (hhdm := hhdm)); [exact HinvP|exact HcA|by apply HPb|].
    eapply large_own_bytes; [exact Hinv| |exact Hown]. rewrite HP. by right.
Qed.

(** One slab changes state: its page and its cache's free counter are updated. *)
Lemma slab_rep_update P st s m m' G LG i c gs1 g gs2 g' :
  slab_rep st s m G LG → G !! i = Some (gs1 ++ g :: gs2) → caches st !! i = Some c →
  g'.1 = g.1 → mods P m m' → (∀ x, P x → bytes_of hhdm (page_of g) x) →
  slab_ok m' i g' (head_base gs2) →
  slab_rep {| caches := <[i := {| obj_size := obj_size c; slabs := slabs c;
                slab_count := slab_count c; total_slots := total_slots c;
                free_slots := gs_free (gs1 ++ g' :: gs2) |}]> (caches st);
              slab_hhdm := slab_hhdm st |} s m' (<[i := gs1 ++ g' :: gs2]> G) LG.
Proof.
  intros R Hi Hc Heq Hm HP Hg'. pose proof (all_blocks_split _ _ _ _ _ LG Hi) as HA.
  destruct (rep_others P st s m m' G LG _ _ R HA Hm HP) as (Hinv & Hcs & Hls).
  assert (page_of g' = page_of g) as Hpg by (unfold page_of; by rewrite Heq).
  pose proof (lookup_lt_Some _ _ _ Hi) as Hlt. split; cbn.
  - apply R.
  - apply R.
  - rewrite length_insert. apply R.
  - rewrite length_insert. apply R.
  - eapply block_inv_perm; [|exact Hinv].
    rewrite HA, (all_blocks_update i _ g _ g' _ LG Hi), Hpg. done.
  - intros j c' gs' Hc' Hgs'. destruct (decide (j = i)) as [->|Hne].
    + rewrite list_lookup_insert_eq in Hc' by by eapply lookup_lt_Some.
      rewrite list_lookup_insert_eq in Hgs' by done. simplify_eq.
      destruct (sr_caches _ _ _ _ _ R i c _ Hc Hi) as [].
      split; cbn; try done.
      * rewrite cr_slabs0. destruct gs1; cbn; [by rewrite Heq|done].
      * rewrite cr_count0, !length_app. done.
      * rewrite cr_total0, !length_app. done.
      * eapply slab_chain_update; [exact Hm| |exact Heq|exact Hg'|exact cr_chain0].
        intros h x Hh Hx.
        assert (h ∈ gs1 ++ g :: gs2) as Hh' by (clear -Hh; set_solver).
        destruct (chain_slab_ok _ _ _ _ cr_chain0 Hh') as [next Hok].
        eapply (other_untouched s m m); [eapply block_inv_perm; [exact HA|apply R]| | |exact Hok|by apply HP].
        -- unfold others. apply elem_of_app. left. apply list_elem_of_fmap_2.
           rewrite app_assoc. apply elem_of_app. by left.
        -- by destruct (rep_cache _ _ _ _ _ _ _ R Hi).
    + rewrite list_lookup_insert_ne in Hc' by done. rewrite list_lookup_insert_ne in Hgs' by done.
      apply Hcs; [done..|].
      intros h Hh. unfold others. apply elem_of_app. left. apply list_elem_of_fmap_2.
      apply elem_of_app. right. apply elem_of_app. right.
      eapply concat_other; [exact Hi|exact Hgs'|done|exact Hh].
  - intros b Hb. apply Hls; [done|]. unfold others. apply elem_of_app. by right.
Qed.

(** * Counters do not wrap *)

Lemma blocks_distinct s m A : block_inv s m A → NoDup (fst <$> A).
Proof.
  intros HA. apply NoDup_alt. intros i j p Hi Hj.
  apply list_lookup_fmap_Some in Hi as ([p1 o1] & -> & Hi).
  apply list_lookup_fmap_Some in Hj as ([p2 o2] & Heq & Hj). cbn in Heq. subst p2.
  destruct (decide (i = j)) as [|Hne]; [done|exfalso].
  pose proof (delete_Permutation _ _ _ Hi) as HP.
  assert ((p1, o2) ∈ delete i A) as Hin.
  { destruct (decide (j < i)%nat).
    - apply (list_elem_of_lookup_2 _ j). by rewrite list_lookup_delete_lt.
    - apply (list_elem_of_lookup_2 _ (j - 1)%nat). rewrite list_lookup_delete_ge by lia.
      by replace (Datatypes.S (j - 1)) with j by lia. }
  apply (block_inv_perm (hhdm := hhdm) _ _ _ _ HP) in HA.
  apply (block_inv_apart (hhdm := hhdm) _ _ _ _ _ HA Hin (p1 + hhdm));
    unfold bytes_of, range; cbn; pose proof (bsize_pos o1); pose proof (bsize_pos o2); lia.
Qed.

Lemma rep_slab_count st s m G LG i gs :
  slab_rep st s m G LG → G !! i = Some gs → Z.of_nat (length gs) < 2 ^ 52.
Proof.
  intros R Hi. pose proof (sr_inv _ _ _ _ _ R) as Hinv.
  assert (∀ g, g ∈ gs → 1 ≤ g.1 / 4096 < 2 ^ 52 ∧ g.1 mod 4096 = 0) as Hr.
  { intros g Hg.
    destruct (block_inv_block (hhdm := hhdm) _ _ _ _ _ Hinv (page_in _ _ _ _ LG Hi Hg)) as (? & Hal & ? & ? & _).
    pose proof (aligned_frame _ _ Hal). rewrite bsize_0 in *. unfold PMM_FRAME_SIZE in *. split; div_lia. }
  assert (NoDup (fst <$> gs)) as Hnd.
  { pose proof (blocks_distinct _ _ _ Hinv) as Hnd. unfold all_blocks in Hnd.
    rewrite (concat_lookup i _ _ Hi), !fmap_app, <- !list_fmap_compose in Hnd.
    apply NoDup_app in Hnd as (Hnd & _ & _). apply NoDup_app in Hnd as (Hnd & _ & _). exact Hnd. }
  pose proof (size_bounded (list_to_set ((λ g, g.1 / 4096) <$> gs)) 1 (2 ^ 52) ltac:(lia)) as Hs.
  rewrite size_list_to_set, length_fmap in Hs.
  - enough (Z.of_nat (length gs) ≤ 2 ^ 52 - 1) by lia. apply Hs.
    intros x (g & -> & Hg)%elem_of_list_to_set%list_elem_of_fmap. by apply Hr.
  - change ((λ g, g.1 / 4096) <$> gs) with ((λ p : Z, p / 4096) ∘ fst <$> gs).
    rewrite list_fmap_compose. apply NoDup_fmap_2_strong; [|done].
    intros p q (g & -> & Hg)%list_elem_of_fmap (h & -> & Hh)%list_elem_of_fmap Heq.
    destruct (Hr g Hg) as [_ ?], (Hr h Hh) as [_ ?]. div_lia.
Qed.

Lemma gs_free_bound m i gs :
  (i < classes)%nat → slab_chain m i gs → 0 ≤ gs_free gs ≤ length gs * nslots i.
Proof.
  intros Hi. induction gs as [|g gs IH]; [cbn; lia|]. intros [[] Hgs]. specialize (IH Hgs).
  pose proof (free_length i g.2 Hi so_nodup0 so_range0).
  change (gs_free (g :: gs)) with (length g.2 + gs_free gs). cbn [length]. nia.
Qed.

(** * Growing a cache *)

Lemma page_base_u64 s m A p (o : nat) :
  block_inv s m A → (p, o) ∈ A → u64 (p + hhdm) = sbase p.
Proof.
  intros HA Hp. destruct (block_inv_block (hhdm := hhdm) _ _ _ _ _ HA Hp) as (? & _ & ? & ? & _).
  pose proof (bsize_pos o). unfold sbase. apply u64_id. lia.
Qed.

(** A new slab in front of class [i]'s list. *)
Lemma rep_grow st s m s' m' m1 G LG i c gs p :
  slab_rep st s m G LG → G !! i = Some gs → caches st !! i = Some c →
  block_inv s' m' (page_of (p, all_slots i) :: all_blocks G LG) →
  mods (λ x, ¬ bytes_in hhdm (all_blocks G LG) x) m m' →
  mods (range (sbase p) 4096) m' m1 → slab_ok m1 i (p, all_slots i) (head_base gs) →
  slab_rep {| caches := <[i := {| obj_size := obj_size c; slabs := sbase p;
                slab_count := slab_count c + 1; total_slots := total_slots c + nslots i;
                free_slots := free_slots c + nslots i |}]> (caches st);
              slab_hhdm := slab_hhdm st |} s' m1 (<[i := (p, all_slots i) :: gs]> G) LG.
Proof.
  intros R Hi Hc Hinv Hm Hm1 Hok. set (g := (p, all_slots i)) in *.
  pose proof (sr_inv _ _ _ _ _ R) as Hinv0.
  assert (∀ x, range (sbase p) 4096 x → bytes_of hhdm (page_of g) x) as Hpg by done.
  assert (∀ j gs', G !! j = Some gs' → ∀ h x, h ∈ gs' → slab_own j h x →
    bytes_in hhdm (all_blocks G LG) x ∧ ¬ range (sbase p) 4096 x) as Hown.
  { intros j gs' Hj h x Hh Hx. destruct (rep_cache _ _ _ _ _ _ _ R Hj) as (Hlt & cj & Hcj & HRj).
    destruct (chain_slab_ok _ _ _ _ (cr_chain _ _ _ _ HRj) Hh) as [next Hokh]. split.
    - exists (page_of h). split; [by eapply page_in|by eapply slab_own_page].
    - intros Hp. eapply other_untouched; [exact Hinv|by eapply page_in|exact Hlt|exact Hokh|by apply Hpg|done]. }
  assert (∀ j c' gs', caches st !! j = Some c' → G !! j = Some gs' → cache_rep m1 c' j gs') as Hold.
  { intros j c' gs' Hc' Hgs'. pose proof (sr_caches _ _ _ _ _ R j c' gs' Hc' Hgs') as HR.
    eapply cache_rep_mods; [exact Hm1|intros h x Hh Hx Ho; by destruct (Hown j gs' Hgs' h x Hh Ho)|].
    eapply cache_rep_mods; [exact Hm|intros h x Hh Hx Ho; by destruct (Hown j gs' Hgs' h x Hh Ho)|done]. }
  assert (all_blocks (<[i := g :: gs]> G) LG ≡ₚ page_of g :: all_blocks G LG) as HA by by apply all_blocks_cons.
  pose proof (lookup_lt_Some _ _ _ Hi) as Hlt. split; cbn.
  - apply R.
  - apply R.
  - rewrite length_insert. apply R.
  - rewrite length_insert. apply R.
  - eapply block_inv_perm; [symmetry; exact HA|].
    eapply block_inv_mods; [exact Hinv|exact Hm1|]. intros x Hx. left. exists (page_of g). split; [by left|done].
  - intros j c' gs' Hc' Hgs'. destruct (decide (j = i)) as [->|Hne].
    + rewrite list_lookup_insert_eq in Hc' by by eapply lookup_lt_Some.
      rewrite list_lookup_insert_eq in Hgs' by done. simplify_eq.
      destruct (Hold i c gs Hc Hi) as []. split; cbn; try done.
      * rewrite cr_count0. lia.
      * rewrite cr_total0, Nat2Z.inj_succ. lia.
      * rewrite cr_free0. unfold all_slots. rewrite length_reverse, length_seq.
        destruct (rep_cache _ _ _ _ _ _ _ R Hi) as [Hlt' _].
        destruct (class_geometry i Hlt') as (_ & _ & ? & _).
        fold (gs_free gs). lia.
    + rewrite list_lookup_insert_ne in Hc' by done. rewrite list_lookup_insert_ne in Hgs' by done.
      by apply Hold.
  - intros b Hb. assert (b ∈ all_blocks G LG) as HbA by (apply elem_of_app; by right).
    eapply large_ok_mods; [exact Hm1| |eapply large_ok_mods; [exact Hm| |by eapply sr_large]].
    + intros x Hx Ho. eapply (block_inv_apart (hhdm := hhdm)); [exact Hinv|exact HbA|by apply Hpg|].
      by eapply large_own_bytes.
    + intros x Hx Ho. apply Hx. exists b. split; [done|by eapply large_own_bytes].
Qed.

Lemma cache_grow_returns st s m G LG i gs :
  slab_rep st s m G LG → G !! i = Some gs →
  returns (cache_grow st s m i) (λ '(st', s', m', z),
    (z = 0 ∧ st' = st ∧ s' = s ∧ m' = m ∧ block_alloc s m 0 = Ok (s, m, 0)) ∨
    ∃ p, z = sbase p ∧ 0 < z ∧ slab_rep st' s' m' (<[i := (p, all_slots i) :: gs]> G) LG ∧
      mods (λ x, block_zone x ∧ ¬ bytes_in hhdm (all_blocks G LG) x) m m').
Proof.
  intros R Hi. destruct (rep_cache _ _ _ _ _ _ _ R Hi) as (Hlt & c & Hc & HR).
  pose proof (rep_slab_count _ _ _ _ _ _ _ R Hi) as Hcount.
  destruct (class_geometry i Hlt) as (_ & _ & Hn & _).
  unfold cache_grow. rewrite (arr_get_Some _ _ _ Hc). cbn [mbind outcome_bind].
  destruct (returns_inv _ _ (block_alloc_law (hhdm := hhdm) s m _ 0 (sr_inv _ _ _ _ _ R) ltac:(lia)))
    as ([[s' m'] phys] & Halloc & Hs). rewrite Halloc. cbn [mbind outcome_bind].
  destruct Hs as [(-> & -> & ->)|(o & Ho & _ & Hne & Hinv & Hm)]; [by left|].
  assert (o = 0%nat) as -> by lia.
  destruct (Z.eqb_spec phys 0) as [?|_]; [done|].
  assert ((phys, 0%nat) ∈ (phys, 0%nat) :: all_blocks G LG) as Hin by by left.
  rewrite (sr_hhdm _ _ _ _ _ R), (page_base_u64 _ _ _ _ _ Hinv Hin).
  pose proof (rep_page_ok _ _ _ _ Hinv Hin) as Hpage.
  rewrite (cr_size _ _ _ _ HR). fold (nslots i). rewrite u32_id by lia.
  assert (0 ≤ head_base gs < 2 ^ 64) as Hhb.
  { destruct gs as [|g gs]; cbn; [lia|].
    destruct (rep_page_ok s m (all_blocks G LG) g.1 (sr_inv _ _ _ _ _ R)) as [? ? _]; [|lia].
    eapply (page_in i (g :: gs)); [exact Hi|by left]. }
  rewrite (cr_slabs _ _ _ _ HR). ret_step lay_slab_returns; [done|done|done|].
  intros m1 [Hok Hm1]. unfold set_cache.
  rewrite arr_set_lt by by eapply lookup_lt_Some. cbn. right. exists phys. split; [done|].
  split; [apply Hpage|].
  pose proof (gs_free_bound _ _ _ Hlt (cr_chain _ _ _ _ HR)) as Hfb.
  rewrite (u64_id (slab_count c + 1)) by (rewrite (cr_count _ _ _ _ HR); lia).
  rewrite (u64_id (total_slots c + _)) by (rewrite (cr_total _ _ _ _ HR); nia).
  rewrite (u64_id (free_slots c + _)) by (rewrite (cr_free _ _ _ _ HR); nia).
  rewrite <- (cr_size _ _ _ _ HR). split.
  - eapply (rep_grow st s m s' m' m1); eauto. eapply mods_weaken; [exact Hm|tauto].
  - eapply mods_trans; [exact Hm|]. eapply mods_weaken; [exact Hm1|].
    intros x Hx. split; [by eapply (block_inv_zone (hhdm := hhdm))|]. intros (b & Hb & Hbx).
    by eapply (block_inv_apart (hhdm := hhdm)); [exact Hinv|exact Hb| |exact Hbx].
Qed.

(** * Live objects *)

(** The slot at [a], of [n] usable bytes, of slab [g] is handed out. *)
Definition slab_live i g (a n : Z) : Prop :=
  ∃ k, k < nslots i ∧ ¬ (k ∈ g.2) ∧ a = slot_addr i g.1 k ∧ n = csize i.

Definition large_live (b : block) (a n : Z) : Prop := a = sbase b.1 + 16 ∧ n = bsize b.2 - 16.

(** [live G LG a n]: an object of [n] usable bytes is live at address [a]. *)
Definition live G LG (a n : Z) : Prop :=
  (∃ i gs g, G !! i = Some gs ∧ g ∈ gs ∧ slab_live i g a n) ∨ ∃ b, b ∈ LG ∧ large_live b a n.

(** The live objects of the other slabs and of the large blocks. *)
Definition live_rest i gs1 gs2 G LG (a n : Z) : Prop :=
  (∃ h, h ∈ gs1 ++ gs2 ∧ slab_live i h a n) ∨
  (∃ j gs h, (j ≠ i) ∧ G !! j = Some gs ∧ h ∈ gs ∧ slab_live j h a n) ∨
  ∃ b, b ∈ LG ∧ large_live b a n.

Lemma live_split i gs1 g gs2 G LG a n :
  G !! i = Some (gs1 ++ g :: gs2) →
  live G LG a n ↔ slab_live i g a n ∨ live_rest i gs1 gs2 G LG a n.
Proof.
  intros Hi. split.
  - intros [(j & gs & h & Hj & Hh & Hl)|?]; [|by right; right; right].
    destruct (decide (j = i)) as [->|Hne]; [|right; right; left; by exists j, gs, h].
    simplify_eq. apply elem_of_app in Hh as [Hh|[->|Hh]%elem_of_cons]; [|by left|];
      right; left; exists h; (split; [apply elem_of_app; tauto|done]).
  - intros [Hl|[(h & Hh & Hl)|[(j & gs & h & Hne & Hj & Hh & Hl)|?]]]; [| | |by right]; left.
    + exists i, (gs1 ++ g :: gs2), g. split; [exact Hi|split; [clear; set_solver|done]].
    + exists i, (gs1 ++ g :: gs2), h. split; [exact Hi|split; [clear -Hh; set_solver|done]].
    + by exists j, gs, h.
Qed.

Lemma live_update i gs1 g gs2 g' G LG a n :
  G !! i = Some (gs1 ++ g :: gs2) →
  live (<[i := gs1 ++ g' :: gs2]> G) LG a n ↔ slab_live i g' a n ∨ live_rest i gs1 gs2 G LG a n.
Proof.
  intros Hi. pose proof (lookup_lt_Some _ _ _ Hi) as Hlt.
  rewrite (live_split i gs1 g' gs2) by by apply list_lookup_insert_eq.
  unfold live_rest. do 2 (apply or_iff_compat_l). split.
  - intros [(j & gs & h & Hne & Hj & Hh)|?]; [left|by right]. exists j, gs, h.
    by rewrite list_lookup_insert_ne in Hj.
  - intros [(j & gs & h & Hne & Hj & Hh)|?]; [left|by right]. exists j, gs, h.
    by rewrite list_lookup_insert_ne.
Qed.

(** A freshly carved slab has no live slot. *)
Lemma live_grow i gs p G LG a n :
  (i < classes)%nat → G !! i = Some gs →
  live (<[i := (p, all_slots i) :: gs]> G) LG a n ↔ live G LG a n.
Proof.
  intros Hic Hi. pose proof (lookup_lt_Some _ _ _ Hi) as Hlt.
  assert (∀ a n, ¬ slab_live i (p, all_slots i) a n) as Hno.
  { intros a' n' (k & Hk & Hnk & _). apply Hnk. unfold all_slots. cbn.
    apply elem_of_reverse, elem_of_seq. lia. }
  split; (intros [(j & gs' & h & Hj & Hh & Hl)|?]; [|by right]).
  - destruct (decide (j = i)) as [->|Hne].
    + rewrite list_lookup_insert_eq in Hj by done. simplify_eq.
      apply elem_of_cons in Hh as [->|Hh]; [by apply Hno in Hl|]. left. by exists i, gs, h.
    + rewrite list_lookup_insert_ne in Hj by done. left. by exists j, gs', h.
  - left. destruct (decide (j = i)) as [->|Hne].
    + simplify_eq. exists i, ((p, all_slots i) :: gs), h.
      split; [by apply list_lookup_insert_eq|]. split; [by right|done].
    + exists j, gs', h. by rewrite list_lookup_insert_ne.
Qed.

(** The object lies in the block of its slab, off its bookkeeping. *)
Lemma slab_live_bytes i g a n next m x :
  (i < classes)%nat → slab_live i g a n → range a n x → slab_ok m i g next →
  bytes_of hhdm (page_of g) x ∧ ¬ slab_own i g x.
Proof.
  intros Hi (k & Hk & Hnk & -> & ->) Hx Hok.
  destruct (slot_inside i g.1 k Hi Hk) as (H1 & H2 & H3). unfold range in Hx. split.
  - unfold bytes_of, page_of, range. cbn [fst snd]. rewrite bsize_0. unfold sbase in *. lia.
  - intros [Ho|(j & Hj & Ho)]; unfold range in Ho; [lia|].
    assert (j ≠ k) as Hne by (by intros ->). destruct (slot_apart i g.1 j k Hi Hne); lia.
Qed.

(** ** Which block an address belongs to *)

Lemma blocks_apart s m A (b d : block) x :
  block_inv s m A → b ∈ A → d ∈ A → bytes_of hhdm b x → bytes_of hhdm d x → b = d.
Proof.
  intros HA (A' & HP)%elem_of_Permutation Hd Hb Hdx. rewrite HP in Hd.
  apply (block_inv_perm (hhdm := hhdm) _ _ _ _ HP) in HA.
  apply elem_of_cons in Hd as [->|Hd]; [done|exfalso].
  by eapply (block_inv_apart (hhdm := hhdm)).
Qed.

Lemma nodup_fst_inj (l : list gslab) g h :
  NoDup (fst <$> l) → g ∈ l → h ∈ l → g.1 = h.1 → g = h.
Proof.
  intros Hnd (i & Hi)%list_elem_of_lookup (j & Hj)%list_elem_of_lookup Heq.
  rewrite NoDup_alt in Hnd.
  assert (i = j) as ->; [|congruence]. apply (Hnd i j g.1).
  - by rewrite list_lookup_fmap, Hi.
  - by rewrite list_lookup_fmap, Hj, Heq.
Qed.

Lemma slab_pages_apart st s m G LG i gs g j gs' h x :
  slab_rep st s m G LG → G !! i = Some gs → g ∈ gs → G !! j = Some gs' → h ∈ gs' →
  bytes_of hhdm (page_of g) x → bytes_of hhdm (page_of h) x → i = j ∧ g = h.
Proof.
  intros R Hi Hg Hj Hh Hgx Hhx. pose proof (sr_inv _ _ _ _ _ R) as Hinv.
  assert (page_of g = page_of h) as Heq.
  { eapply blocks_apart; [exact Hinv|exact (page_in i gs g G LG Hi Hg)|exact (page_in j gs' h G LG Hj Hh)|done|done]. }
  injection Heq as Heq. pose proof (blocks_distinct _ _ _ Hinv) as Hnd. unfold all_blocks in Hnd.
  rewrite fmap_app, <- list_fmap_compose in Hnd. apply NoDup_app in Hnd as (Hnd & _ & _).
  change (fst ∘ page_of) with (fst : gslab → Z) in Hnd.
  destruct (decide (i = j)) as [->|Hne].
  - split; [done|]. simplify_eq. rewrite (concat_lookup j _ _ Hi), fmap_app in Hnd.
    apply NoDup_app in Hnd as (Hnd & _ & _). by eapply nodup_fst_inj.
  - exfalso. rewrite (concat_lookup i _ _ Hi), fmap_app in Hnd.
    apply NoDup_app in Hnd as (_ & Hdis & _). apply (Hdis g.1); [by apply list_elem_of_fmap_2|].
    rewrite Heq. apply list_elem_of_fmap_2. by eapply concat_other.
Qed.

Lemma slab_large_apart st s m G LG i gs g b x :
  slab_rep st s m G LG → G !! i = Some gs → g ∈ gs → b ∈ LG →
  bytes_of hhdm (page_of g) x → ¬ bytes_of hhdm b x.
Proof.
  intros R Hi Hg Hb Hgx Hbx. pose proof (sr_inv _ _ _ _ _ R) as Hinv.
  assert (page_of g = b) as <-.
  { eapply blocks_apart; [exact Hinv|by eapply page_in|apply elem_of_app; by right|done|done]. }
  pose proof (blocks_distinct _ _ _ Hinv) as Hnd. unfold all_blocks in Hnd.
  rewrite fmap_app in Hnd. apply NoDup_app in Hnd as (_ & Hdis & _).
  apply (Hdis g.1); [|by apply (list_elem_of_fmap_2 fst _ _ Hb)].
  apply (list_elem_of_fmap_2 fst _ (page_of g)), list_elem_of_fmap_2.
  rewrite (concat_lookup i _ _ Hi). apply elem_of_app. by left.
Qed.

Lemma rep_slab_ok st s m G LG i gs g :
  slab_rep st s m G LG → G !! i = Some gs → g ∈ gs →
  (i < classes)%nat ∧ page_ok m g.1 ∧ ∃ next, slab_ok m i g next.
Proof.
  intros R Hi Hg. destruct (rep_cache _ _ _ _ _ _ _ R Hi) as (Hlt & c & Hc & HR). split; [done|].
  split; [|by eapply chain_slab_ok; [apply HR|]].
  eapply rep_page_ok; [apply R|]. by eapply (page_in i).
Qed.

Lemma large_live_bytes (b : block) a n x :
  large_live b a n → range a n x → bytes_of hhdm b x ∧ ¬ large_own b x.
Proof.
  intros [-> ->] Hx. unfold bytes_of, large_own, sbase, range in *. lia.
Qed.

(** Live objects lie in borrowed blocks, off everything the allocator keeps
    there. *)
Lemma live_bytes st s m G LG a n x :
  slab_rep st s m G LG → live G LG a n → range a n x →
  bytes_in hhdm (all_blocks G LG) x ∧ ¬ bookkeeping G LG x.
Proof.
  intros R Hl Hx. pose proof (sr_inv _ _ _ _ _ R) as Hinv.
  destruct Hl as [(i & gs & g & Hi & Hg & Hl)|(b & Hb & Hl)].
  - destruct (rep_slab_ok _ _ _ _ _ _ _ _ R Hi Hg) as (Hlt & _ & next & Hok).
    destruct (slab_live_bytes _ _ _ _ _ _ _ Hlt Hl Hx Hok) as [Hb Hno].
    split; [exists (page_of g); split; [by eapply page_in|done]|].
    intros [(j & gs' & h & Hj & Hh & Ho)|(b & HbL & Ho)].
    + destruct (rep_slab_ok _ _ _ _ _ _ _ _ R Hj Hh) as (Hltj & _ & next' & Hok').
      destruct (slab_pages_apart _ _ _ _ _ i gs g j gs' h x R) as [-> ->]; try done.
      by eapply slab_own_page.
    + eapply slab_large_apart; [exact R|exact Hi|exact Hg|exact HbL|exact Hb|].
      eapply large_own_bytes; [exact Hinv|apply elem_of_app; by right|exact Ho].
  - destruct (large_live_bytes _ _ _ _ Hl Hx) as [Hbx Hno].
    assert (b ∈ all_blocks G LG) as HbA by (apply elem_of_app; by right).
    split; [by exists b|]. intros [(j & gs' & h & Hj & Hh & Ho)|(d & Hd & Ho)].
    + destruct (rep_slab_ok _ _ _ _ _ _ _ _ R Hj Hh) as (Hltj & _ & next' & Hok').
      eapply slab_large_apart; [exact R|exact Hj|exact Hh|exact Hb| |exact Hbx]. by eapply slab_own_page.
    + assert (b = d) as ->; [|done]. eapply blocks_apart; [exact Hinv|done|apply elem_of_app; by right|done|].
      eapply large_own_bytes; [exact Hinv|apply elem_of_app; by right|exact Ho].
Qed.

(** Distinct live objects do not overlap. *)
Lemma live_apart st s m G LG a n a' n' x :
  slab_rep st s m G LG → live G LG a n → live G LG a' n' → a ≠ a' → range a n x → ¬ range a' n' x.
Proof.
  intros R Hl Hl' Hne Hx Hx'. pose proof (sr_inv _ _ _ _ _ R) as Hinv.
  destruct Hl as [(i & gs & g & Hi & Hg & Hl)|(b & Hb & Hl)],
    Hl' as [(j & gs' & h & Hj & Hh & Hl')|(d & Hd & Hl')].
  - destruct (rep_slab_ok _ _ _ _ _ _ _ _ R Hi Hg) as (Hlt & _ & next & Hok).
    destruct (rep_slab_ok _ _ _ _ _ _ _ _ R Hj Hh) as (Hltj & _ & next' & Hok').
    destruct (slab_live_bytes _ _ _ _ _ _ _ Hlt Hl Hx Hok) as [Hbx _].
    destruct (slab_live_bytes _ _ _ _ _ _ _ Hltj Hl' Hx' Hok') as [Hbx' _].
    destruct (slab_pages_apart _ _ _ _ _ i gs g j gs' h x R) as [-> ->]; try done.
    destruct Hl as (k & _ & _ & -> & ->), Hl' as (k' & _ & _ & -> & ->).
    assert (k ≠ k') as Hk by (by intros ->). unfold range in *.
    destruct (slot_apart j h.1 k k' Hlt Hk); lia.
  - destruct (rep_slab_ok _ _ _ _ _ _ _ _ R Hi Hg) as (Hlt & _ & next & Hok).
    destruct (slab_live_bytes _ _ _ _ _ _ _ Hlt Hl Hx Hok) as [Hbx _].
    destruct (large_live_bytes _ _ _ _ Hl' Hx') as [Hbx' _]. by eapply slab_large_apart.
  - destruct (rep_slab_ok _ _ _ _ _ _ _ _ R Hj Hh) as (Hltj & _ & next' & Hok').
    destruct (slab_live_bytes _ _ _ _ _ _ _ Hltj Hl' Hx' Hok') as [Hbx' _].
    destruct (large_live_bytes _ _ _ _ Hl Hx) as [Hbx _]. by eapply slab_large_apart.
  - destruct (large_live_bytes _ _ _ _ Hl Hx) as [Hbx _].
    destruct (large_live_bytes _ _ _ _ Hl' Hx') as [Hbx' _].
    assert (b = d) as ->; [|by destruct Hl as [-> _], Hl' as [-> _]].
    eapply blocks_apart; [exact Hinv|apply elem_of_app; by right|apply elem_of_app; by right|done|done].
Qed.

(** * kmalloc *)

(** The usable size of an object handed out for [size] bytes: that of the
    smallest class that fits, or, above the largest class, of the smallest
    2^o-frame block that fits behind its header. *)
Definition usable_for (size n : Z) : Prop :=
  (∃ i, fits size i ∧ n = csize i) ∨
  (2048 < size ∧ ∃ o : nat, n = bsize o - 16 ∧ size ≤ n ∧ ∀ j, (j < o)%nat → bsize j - 16 < size).

(** The order of the block a request of [size] bytes may have to borrow. *)
Definition order_needed (size o : Z) : Prop :=
  (size ≤ 2048 ∧ o = 0) ∨
  (2048 < size ∧ 0 ≤ o ∧ 16 + size ≤ 4096 * 2 ^ o ∧ (0 < o → 4096 * 2 ^ (o - 1) < 16 + size)).

(** [r], of [n] usable bytes, is the one object live in the new state and not
    in the old one. *)
Record fresh G LG G' LG' (r n : Z) : Prop := {
  fr_live : ∀ a n', live G' LG' a n' ↔ live G LG a n' ∨ (a = r ∧ n' = n);
  fr_new : ∀ n', ¬ live G LG r n';
}.

(** Only the block allocator's memory was written to, and no live object. *)
Definition off_live G LG m m' : Prop :=
  mods (λ x, block_zone x ∧ ∀ a n, live G LG a n → ¬ range a n x) m m'.

Lemma bookkeeping_bytes st s m G LG x :
  slab_rep st s m G LG → bookkeeping G LG x → bytes_in hhdm (all_blocks G LG) x.
Proof.
  intros R [(i & gs & g & Hi & Hg & Ho)|(b & Hb & Ho)].
  - destruct (rep_slab_ok _ _ _ _ _ _ _ _ R Hi Hg) as (Hlt & _ & next & Hok).
    exists (page_of g). split; [by eapply page_in|by eapply slab_own_page].
  - assert (b ∈ all_blocks G LG) as HbA by (apply elem_of_app; by right).
    exists b. split; [done|]. eapply large_own_bytes; [apply R|exact HbA|exact Ho].
Qed.

Lemma off_live_bookkeeping st s m G LG P m1 m2 :
  slab_rep st s m G LG → mods P m1 m2 → (∀ x, P x → bookkeeping G LG x) → off_live G LG m1 m2.
Proof.
  intros R Hm HP. eapply mods_weaken; [exact Hm|]. intros x Hx. split.
  { destruct (bookkeeping_bytes st s m G LG x R (HP x Hx)) as (b & Hb & Hbx).
    eapply (block_inv_zone (hhdm := hhdm)); [apply R|exact Hb|exact Hbx]. }
  intros a n Hl Hax.
  destruct (live_bytes _ _ _ _ _ _ _ _ R Hl Hax) as [_ Hno]. by apply Hno, HP.
Qed.

Lemma live_pos st s m G LG a n : slab_rep st s m G LG → live G LG a n → 16 ≤ n ∧ 0 < a.
Proof.
  intros R [(i & gs & g & Hi & Hg & k & Hk & _ & -> & ->)|(b & Hb & -> & ->)].
  - destruct (rep_slab_ok _ _ _ _ _ _ _ _ R Hi Hg) as (Hlt & [Hpos _ _] & _).
    destruct (slot_inside i g.1 k Hlt Hk) as (? & ? & ?). lia.
  - destruct b as [p o].
    destruct (block_inv_block (hhdm := hhdm) s m _ p o (sr_inv _ _ _ _ _ R)) as (? & _ & ? & ? & _);
      [apply elem_of_app; by right|]. unfold sbase. cbn [fst snd]. unfold bsize, PMM_FRAME_SIZE.
    pose proof (pow2_pos o ltac:(lia)). lia.
Qed.

Lemma add_free_eq st i c d :
  caches st !! i = Some c →
  add_free st i d = Ok {| caches := <[i := {| obj_size := obj_size c; slabs := slabs c;
      slab_count := slab_count c; total_slots := total_slots c;
      free_slots := u64 (free_slots c + d) |}]> (caches st); slab_hhdm := slab_hhdm st |}.
Proof.
  intros Hc. unfold add_free, set_cache. rewrite (arr_get_Some _ _ _ Hc). cbn.
  by rewrite arr_set_lt by by eapply lookup_lt_Some.
Qed.

(** Popping a slot makes exactly that slot live. *)
Lemma pop_returns st s m G LG i gs1 p k fr gs2 :
  slab_rep st s m G LG → G !! i = Some (gs1 ++ (p, k :: fr) :: gs2) →
  returns ('(m, slot) ← pop_slot m (sbase p); st ← add_free st i (-1); Ok (st, s, m, slot))
    (λ '(st', s', m', r), ∃ G', slab_rep st' s' m' G' LG ∧ 0 < r ∧
      fresh G LG G' LG r (csize i) ∧ off_live G LG m m').
Proof.
  intros R Hi. assert ((p, k :: fr) ∈ gs1 ++ (p, k :: fr) :: gs2) as Hg by (clear; set_solver).
  destruct (rep_cache _ _ _ _ _ _ _ R Hi) as (Hlt & c & Hc & HR).
  destruct (rep_slab_ok _ _ _ _ _ _ _ _ R Hi Hg) as (_ & Hpage & _). cbn in Hpage.
  pose proof (slab_chain_at _ _ _ _ _ (cr_chain _ _ _ _ HR)) as Hok.
  pose proof (so_range _ _ _ _ Hok k ltac:(by left)) as Hk.
  pose proof (so_nodup _ _ _ _ Hok) as (Hkfr & _)%NoDup_cons.
  ret_step pop_slot_returns; [done|done|exact Hok|]. intros [m' slot] (-> & Hok' & Hm).
  rewrite (add_free_eq _ _ _ _ Hc). cbn [mbind outcome_bind returns].
  assert (u64 (free_slots c + -1) = gs_free (gs1 ++ (p, fr) :: gs2)) as Hfree.
  { rewrite (cr_free _ _ _ _ HR), !gs_free_app. pose proof (gs_free_bound _ _ _ Hlt (cr_chain _ _ _ _ HR)) as Hb.
    pose proof (rep_slab_count _ _ _ _ _ _ _ R Hi). destruct (class_geometry i Hlt) as (_ & _ & ? & _).
    rewrite gs_free_app in Hb. change (gs_free ((p, k :: fr) :: gs2)) with (Datatypes.S (length fr) + gs_free gs2) in *.
    change (gs_free ((p, fr) :: gs2)) with (length fr + gs_free gs2).
    assert (0 ≤ gs_free gs1 ∧ 0 ≤ gs_free gs2) as [? ?].
    { clear. unfold gs_free. split; [induction gs1|induction gs2]; cbn; lia. }
    rewrite u64_id by nia. lia. }
  rewrite Hfree. exists (<[i := gs1 ++ (p, fr) :: gs2]> G).
  assert (slab_own i (p, k :: fr) (slot_addr i p k)) as Hown.
  { right. exists k. cbn. split; [by left|unfold range; lia]. }
  destruct (slot_inside i p k Hlt Hk) as (? & ? & ?). destruct Hpage as [? ? _].
  split; [|split; [lia|split; [split|]]].
  - eapply (slab_rep_update (range (sbase p) 40)); [exact R|exact Hi|exact Hc|done|exact Hm| |exact Hok'].
    intros x Hx. unfold bytes_of, page_of. cbn [fst snd]. rewrite bsize_0. unfold sbase, range in *. lia.
  - intros a n. rewrite (live_update _ _ _ _ _ _ LG a n Hi), (live_split _ _ _ _ _ LG a n Hi).
    enough (slab_live i (p, fr) a n ↔ slab_live i (p, k :: fr) a n ∨ (a = slot_addr i p k ∧ n = csize i)) by tauto.
    unfold slab_live. cbn [fst snd]. split.
    + intros (j & Hj & Hjf & -> & ->). destruct (decide (j = k)) as [->|Hne]; [by right|left].
      exists j. split; [done|]. split; [|done]. intros [->|?]%elem_of_cons; done.
    + intros [(j & Hj & Hjf & -> & ->)|[-> ->]]; [|by exists k].
      exists j. split; [done|]. split; [|done]. intros ?. apply Hjf. by right.
  - intros n Hl. destruct (live_pos _ _ _ _ _ _ _ R Hl) as [? _].
    destruct (live_bytes _ _ _ _ _ _ _ (slot_addr i p k) R Hl) as [_ Hno]; [unfold range; lia|].
    apply Hno. left. by exists i, (gs1 ++ (p, k :: fr) :: gs2), (p, k :: fr).
  - eapply off_live_bookkeeping; [exact R|exact Hm|]. intros x Hx. left.
    exists i, (gs1 ++ (p, k :: fr) :: gs2), (p, k :: fr). split; [done|split; [done|by left]].
Qed.

Lemma all_blocks_large G LG b : all_blocks G (b :: LG) ≡ₚ b :: all_blocks G LG.
Proof. unfold all_blocks. solve_Permutation. Qed.

(** Writes off the borrowed blocks leave the bookkeeping alone, also when the
    block allocator moves to another state. *)
Lemma rep_transfer st s m s1 m1 G LG A LG' P :
  slab_rep st s m G LG → mods P m m1 → (∀ x, P x → ¬ bookkeeping G [] x) →
  block_inv s1 m1 A → A ≡ₚ all_blocks G LG' → (∀ b, b ∈ LG' → large_ok m1 b) →
  slab_rep st s1 m1 G LG'.
Proof.
  intros [] Hm HP Hinv HA Hlg. split; try done.
  - by eapply block_inv_perm.
  - intros i c gs Hc Hgs. eapply cache_rep_mods; [exact Hm| |by apply (sr_caches0 i)].
    intros g x Hg Hx Hown. apply (HP x Hx). left. by exists i, gs, g.
Qed.

(** The header of a large block. *)
Lemma lay_large_returns s m A p (o : nat) :
  block_inv s m A → (p, o) ∈ A → (o < orders)%nat →
  returns (m ← store64 m (sbase p) LARGE_MAGIC; store32 m (sbase p + 8) o)
    (λ m', large_ok m' (p, o) ∧ mods (large_own (p, o)) m m').
Proof.
  intros HA Hp Ho. destruct (block_inv_block (hhdm := hhdm) _ _ _ _ _ HA Hp) as (? & _ & ? & ? & Hb).
  assert (4096 ≤ bsize o) by (unfold bsize, PMM_FRAME_SIZE; pose proof (pow2_pos o); lia).
  ret_step store64_returns; [eapply backed_sub; [exact Hb|unfold sbase; lia..]|done|]. intros m1 [Hm1 Hv1].
  eapply returns_mono; [apply store32_returns|].
  { eapply mods_backed; [exact Hm1|]. eapply backed_sub; [exact Hb|unfold sbase; lia..]. }
  { unfold orders in Ho. lia. }
  intros m2 [Hm2 Hv2]. split; [split|]; cbn [fst snd].
  - eapply load64_keep; [exact Hm2|exact Hv1|unfold range; lia].
  - done.
  - eapply mods_trans; eapply mods_weaken; [exact Hm1| |exact Hm2|]; unfold large_own, range; cbn; lia.
Qed.

Lemma large_usable size (o : nat) :
  2048 < size → 16 + size ≤ 4096 * 2 ^ o → (0 < Z.of_nat o → 4096 * 2 ^ (o - 1) < 16 + size) →
  usable_for size (bsize o - 16).
Proof.
  intros Hsize Hfit Hmin. right. split; [done|]. exists o. split; [done|].
  split; [unfold bsize, PMM_FRAME_SIZE; lia|]. intros j Hj. specialize (Hmin ltac:(lia)).
  pose proof (Z.pow_le_mono_r 2 j (o - 1)). unfold bsize, PMM_FRAME_SIZE. lia.
Qed.

(** A large allocation, whatever [data_off + size] comes to at 64 bits: the block
    is the smallest one of at least that many bytes. *)
Lemma large_block_returns st s m G LG size :
  slab_rep st s m G LG → u64 (16 + size) ≤ 2 ^ 63 →
  returns (large_alloc st s m size) (λ '(st', s', m', r), ∃ o,
    (0 ≤ o ∧ u64 (16 + size) ≤ 4096 * 2 ^ o ∧ (0 < o → 4096 * 2 ^ (o - 1) < u64 (16 + size))) ∧
    ((r = 0 ∧ st' = st ∧ s' = s ∧ m' = m ∧ block_alloc s m o = Ok (s, m, 0)) ∨
     ∃ LG', slab_rep st' s' m' G LG' ∧ 0 < r ∧ fresh G LG G LG' r (bsize (Z.to_nat o) - 16) ∧
       off_live G LG m m')).
Proof.
  intros R Hsize. unfold large_alloc. change (align_up sizeof_large_hdr SLAB_ALIGN) with 16.
  ret_step order_for_bytes_returns; [pose proof (u64_range (16 + size)); lia|].
  intros z (Hz & Hfit & Hmin).
  destruct (returns_inv _ _ (block_alloc_law (hhdm := hhdm) s m _ z (sr_inv _ _ _ _ _ R) ltac:(lia)))
    as ([[s' m'] phys] & Halloc & Hs). rewrite Halloc. cbn [mbind outcome_bind].
  destruct Hs as [(-> & -> & ->)|(o & -> & Ho & Hne & Hinv & Hm)].
  { exists z. split; [split; [lia|done]|by left]. }
  destruct (Z.eqb_spec phys 0) as [?|_]; [done|].
  assert ((phys, o) ∈ (phys, o) :: all_blocks G LG) as Hin by by left.
  rewrite (sr_hhdm _ _ _ _ _ R), (page_base_u64 _ _ _ _ _ Hinv Hin).
  destruct (block_inv_block (hhdm := hhdm) _ _ _ _ _ Hinv Hin) as (Hp & _ & Hh & Htop & _).
  destruct (returns_inv _ _ (lay_large_returns s' m' _ phys o Hinv Hin Ho)) as (m1 & Hlay & Hok & Hm1).
  cbv zeta. destruct (store64 m' (sbase phys) LARGE_MAGIC) as [m0| | |]; try done.
  cbn [mbind outcome_bind] in Hlay |- *. rewrite Hlay. cbn [mbind outcome_bind returns].
  assert (4096 ≤ bsize o) as Hbig by (unfold bsize, PMM_FRAME_SIZE; pose proof (pow2_pos o); lia).
  rewrite (u64_id (sbase phys + 16)) by (unfold sbase; lia). exists (Z.of_nat o). split; [split; [lia|done]|].
  rewrite Nat2Z.id. right. exists ((phys, o) :: LG).
  assert (∀ x, large_own (phys, o) x → ¬ bytes_in hhdm (all_blocks G LG) x) as Hnew.
  { intros x Hx (b & Hb & Hbx). eapply (block_inv_apart (hhdm := hhdm)); [exact Hinv|exact Hb| |exact Hbx].
    eapply large_own_bytes; [exact Hinv|exact Hin|exact Hx]. }
  assert (mods (λ x, block_zone x ∧ ¬ bytes_in hhdm (all_blocks G LG) x) m m1) as Hm01.
  { eapply mods_trans; [exact Hm|]. eapply mods_weaken; [exact Hm1|]. intros x Hx. split; [|by apply Hnew].
    eapply (block_inv_zone (hhdm := hhdm)); [exact Hinv|exact Hin|].
    eapply large_own_bytes; [exact Hinv|exact Hin|exact Hx]. }
  assert (slab_rep st s' m1 G ((phys, o) :: LG)) as R'.
  { eapply (rep_transfer st s m s' m1 G LG); [exact R|exact Hm01| | |symmetry; apply all_blocks_large|].
    - intros x Hx [Hbk|(b & Hb & _)]; [|by apply elem_of_nil in Hb]. apply Hx.
      eapply bookkeeping_bytes; [exact R|by left].
    - eapply block_inv_mods; [exact Hinv|exact Hm1|]. intros x Hx. left. exists (phys, o). split; [done|].
      eapply large_own_bytes; [exact Hinv|exact Hin|exact Hx].
    - intros b [->|Hb]%elem_of_cons; [done|]. eapply large_ok_mods; [exact Hm01| |by eapply sr_large].
      intros x Hx Hown. apply Hx. exists b. assert (b ∈ all_blocks G LG) by (apply elem_of_app; by right).
      split; [done|]. eapply large_own_bytes; [apply R|done|done]. }
  split; [done|]. split; [unfold sbase; lia|]. split; [split|].
  - intros a n. unfold live. setoid_rewrite elem_of_cons. split.
    + intros [?|(b & [->|Hb] & Hl)]; [by left; left|by right|left; right; by exists b].
    + intros [[?|(b & Hb & Hl)]|[-> ->]]; [by left|right; exists b; split; [by right|done]|].
      right. exists (phys, o). split; [by left|done].
  - intros n Hl. destruct (live_pos _ _ _ _ _ _ _ R Hl) as [? _].
    destruct (live_bytes _ _ _ _ _ _ _ (sbase phys + 16) R Hl) as [(b & Hb & Hbx) _]; [unfold range; lia|].
    eapply (block_inv_apart (hhdm := hhdm)); [exact Hinv|exact Hb| |exact Hbx].
    unfold bytes_of, sbase, range. cbn. unfold bsize, PMM_FRAME_SIZE in *. lia.
  - eapply mods_weaken; [exact Hm01|]. intros x [Hxz Hx]. split; [done|].
    intros a n Hl Hax. apply Hx. by eapply live_bytes.
Qed.

Lemma large_alloc_returns st s m G LG size :
  slab_rep st s m G LG → 2048 < size ≤ 2 ^ 63 - 16 →
  returns (large_alloc st s m size) (λ '(st', s', m', r),
    (r = 0 ∧ st' = st ∧ s' = s ∧ m' = m ∧
       ∃ o, order_needed size o ∧ block_alloc s m o = Ok (s, m, 0)) ∨
    ∃ LG' n, slab_rep st' s' m' G LG' ∧ 0 < r ∧ usable_for size n ∧ fresh G LG G LG' r n ∧
      off_live G LG m m').
Proof.
  intros R Hsize. pose proof (large_block_returns st s m G LG size R) as H.
  rewrite (u64_id (16 + size)) in H by lia.
  eapply returns_mono; [apply H; lia|]. intros [[[st' s'] m'] r] (o & (Ho & Hfit & Hmin) & Hs).
  destruct Hs as [(-> & -> & -> & -> & Hoom)|(LG' & R' & Hr & Hf & Hoff)].
  - left. do 4 (split; [done|]). exists o. split; [right; split; [lia|done]|done].
  - right. exists LG', (bsize (Z.to_nat o) - 16). split; [done|split; [done|split; [|done]]].
    apply large_usable; [lia|rewrite Z2Nat.id; done|rewrite Z2Nat.id; done].
Qed.

(** Sizes at the top of 64 bits are beyond every cache. *)
Lemma kmalloc_large st s m size :
  2 ^ 63 - 16 < size < 2 ^ 64 → kmalloc st s m size = large_alloc st s m size.
Proof.
  intros Hsize. unfold kmalloc. destruct (Z.eqb_spec size 0) as [?|_]; [lia|].
  destruct (returns_inv _ _ (pick_class_returns size)) as (z & Hz & [[-> _]|(i & _ & Hi & Hfit & _)]).
  - by rewrite Hz, bind_ok.
  - destruct (class_geometry i Hi) as (? & _). lia.
Qed.

(** Between 2^63 - 16 and 2^64 - 16 the search for an order shifts by 64 and more,
    which is undefined. *)
Lemma kmalloc_runs_away st s m size :
  2 ^ 63 - 16 < size < 2 ^ 64 - 16 → kmalloc st s m size = Fault.
Proof.
  intros Hsize. rewrite kmalloc_large by lia. unfold large_alloc.
  change (align_up sizeof_large_hdr SLAB_ALIGN) with 16. rewrite u64_id by lia.
  by rewrite order_for_bytes_runs_away by lia.
Qed.

(** From there on the sum of header and size wraps. *)
Lemma header_wraps size : 2 ^ 64 - 16 ≤ size < 2 ^ 64 → u64 (16 + size) = 16 + size - 2 ^ 64.
Proof. intros Hsize. unfold u64. rewrite <- (Z_mod_plus_full _ (-1)). apply Z.mod_small. lia. Qed.

(** Popping a slot off a slab that has just been made. *)
Lemma pop_grown_returns st1 s1 m1 st s m G LG (i : nat) gs p :
  slab_rep st s m G LG → (i < classes)%nat → G !! i = Some gs →
  slab_rep st1 s1 m1 (<[i := (p, all_slots i) :: gs]> G) LG →
  mods (λ x, block_zone x ∧ ¬ bytes_in hhdm (all_blocks G LG) x) m m1 →
  returns ('(m, slot) ← pop_slot m1 (sbase p); st ← add_free st1 i (-1); Ok (st, s1, m, slot))
    (λ '(st', s', m', r), ∃ G', slab_rep st' s' m' G' LG ∧ 0 < r ∧
      fresh G LG G' LG r (csize i) ∧ off_live G LG m m').
Proof.
  intros R Hi Hgs R1 Hm1. destruct (class_geometry i Hi) as (_ & _ & Hn & _).
  set (k := (Z.to_nat (nslots i) - 1)%nat).
  assert (all_slots i = k :: reverse (seq 0 k)) as Hall.
  { unfold all_slots. rewrite <- reverse_seq_S. do 2 f_equal. lia. }
  set (G1 := <[i := _]> G) in *.
  assert (∀ a n, live G1 LG a n ↔ live G LG a n) as HG1 by (intros; subst G1; by apply live_grow).
  eapply returns_mono.
  { apply (pop_returns st1 s1 m1 G1 LG i [] p k (reverse (seq 0 k)) gs R1). subst G1. rewrite Hall.
    apply list_lookup_insert_eq. by eapply lookup_lt_Some. }
  intros [[[st2 s2] m2] r] (G2 & R2 & Hr & [Hlive Hnew] & Hoff). exists G2.
  split; [done|split; [done|split; [split|]]].
  - intros a n. by rewrite Hlive, HG1.
  - intros n. by rewrite <- HG1.
  - eapply mods_trans; (eapply mods_weaken; [first [exact Hm1|exact Hoff]|]); intros x [Hz Hx]; (split; [done|]); intros a n Hl.
    + intros Hax. apply Hx. by eapply live_bytes.
    + by apply Hx, HG1.
Qed.

Lemma kmalloc_returns st s m G LG size :
  slab_rep st s m G LG → 0 ≤ size ≤ 2 ^ 63 - 16 →
  returns (kmalloc st s m size) (λ '(st', s', m', r),
    (r = 0 ∧ st' = st ∧ s' = s ∧ m' = m ∧
       (size = 0 ∨ ∃ o, order_needed size o ∧ block_alloc s m o = Ok (s, m, 0))) ∨
    ∃ G' LG' n, slab_rep st' s' m' G' LG' ∧ 0 < r ∧ usable_for size n ∧ fresh G LG G' LG' r n ∧
      off_live G LG m m').
Proof.
  intros R Hsize. unfold kmalloc. destruct (Z.eqb_spec size 0) as [->|Hne]; [left; auto 6|].
  ret_step pick_class_returns. intros cls [[-> Hbig]|(i & -> & Hfits)].
  { destruct (Z.ltb_spec (-1) 0) as [_|?]; [|lia]. eapply returns_mono; [apply large_alloc_returns; [exact R|lia]|].
    intros [[[st' s'] m'] r] [(-> & -> & -> & -> & Ho)|(LG' & n & ? & ? & ? & ? & ?)]; [left; auto 6|right].
    by exists G, LG', n. }
  pose proof Hfits as [Hi _].
  assert (usable_for size (csize i)) as Huse by (left; by exists i).
  destruct (Z.ltb_spec i 0) as [?|_]; [lia|].
  destruct (lookup_lt_is_Some_2 G i) as [gs Hgs]; [by rewrite (sr_classes _ _ _ _ _ R)|].
  destruct (rep_cache _ _ _ _ _ _ _ R Hgs) as (_ & c & Hc & HR).
  rewrite (arr_get_Some _ _ _ Hc), bind_ok, (cr_slabs _ _ _ _ HR).
  pose proof (rep_slab_count _ _ _ _ _ _ _ R Hgs) as Hcount.
  assert (∀ g, g ∈ gs → 0 < sbase g.1) as Hpos.
  { intros g Hg. by destruct (rep_slab_ok _ _ _ _ _ _ _ _ R Hgs Hg) as (_ & [? _ _] & _). }
  ret_step find_slab_returns; [apply HR|exact Hpos|lia|].
  intros z [(-> & _)|(gs1 & p & k & fr & gs2 & -> & -> & _)].
  - rewrite Z.eqb_refl. apply returns_bind. eapply returns_mono; [by apply (cache_grow_returns _ _ _ G LG i gs)|].
    intros [[[st1 s1] m1] z] [(-> & -> & -> & -> & Ho)|(p & -> & Hz & R1 & Hm1)].
    { rewrite Z.eqb_refl. left. do 4 (split; [done|]). right. exists 0. split; [left|done].
      destruct Hfits as (_ & Hfit & _), (class_geometry i Hi) as (? & _). lia. }
    destruct (Z.eqb_spec (sbase p) 0) as [?|_]; [lia|].
    destruct (returns_inv _ _ (pop_grown_returns st1 s1 m1 st s m G LG i gs p R Hi Hgs R1 Hm1))
      as ([[[st2 s2] m2] r] & Heq & G2 & R2 & Hr & Hfresh & Hoff).
    rewrite Heq. right. by exists G2, LG, (csize i).
  - destruct (Z.eqb_spec (sbase p) 0) as [Hz|_].
    { specialize (Hpos (p, k :: fr) ltac:(clear; set_solver)). cbn in Hpos. lia. }
    rewrite bind_ok. destruct (Z.eqb_spec (sbase p) 0) as [Hz|_].
    { specialize (Hpos (p, k :: fr) ltac:(clear; set_solver)). cbn in Hpos. lia. }
    pose proof (pop_returns st s m G LG i gs1 p k fr gs2 R Hgs) as Hpop.
    apply returns_inv in Hpop as ([[[st2 s2] m2] r] & Heq & G2 & R2 & Hr & Hfresh & Hoff).
    rewrite Heq. right. by exists G2, LG, (csize i).
Qed.

(** * kfree *)

Lemma page_mask a p off :
  sbase p mod 4096 = 0 → a = sbase p + off → 0 ≤ off < 4096 → 0 ≤ a < 2 ^ 64 →
  Z.land a SLAB_PAGE_MASK = sbase p.
Proof.
  intros Hal -> Hoff Ha. unfold SLAB_PAGE_MASK. change (SLAB_PAGE_SIZE - 1) with (2 ^ 12 - 1).
  rewrite land_high_mask by lia. change (2 ^ 12) with 4096. div_lia.
Qed.

Lemma base_aligned st s m G LG p (o : nat) :
  slab_rep st s m G LG → (p, o) ∈ all_blocks G LG → sbase p mod 4096 = 0.
Proof.
  intros R Hp. destruct (block_inv_block (hhdm := hhdm) s m _ p o (sr_inv _ _ _ _ _ R) Hp) as (_ & Hal & _).
  apply aligned_frame in Hal. pose proof (sr_align _ _ _ _ _ R). unfold sbase, PMM_FRAME_SIZE in *.
  rewrite Hal. rewrite Z.add_comm, Z_mod_plus_full. done.
Qed.

(** The pointer in a slab header identifies the cache. *)
Lemma cache_index_returns i :
  (i < classes)%nat → returns (cache_index (cache_ptr i)) (λ z, z = Z.of_nat i).
Proof.
  intros Hi. unfold cache_index. apply returns_bind. eapply returns_mono.
  { eapply (for_loop_rule (λ (z : Z) (_ : unit), z ≤ i) (λ z, z = Z.of_nat i));
      [unfold SLAB_NUM_CLASSES; lia|unfold SLAB_NUM_CLASSES; lia|lia|].
    intros z [] Hz Hle. unfold SLAB_NUM_CLASSES, classes in *.
    destruct (Z.eqb_spec (cache_ptr z) (cache_ptr i)) as [Heq|Hne]; cbn.
    - unfold cache_ptr, u64, sizeof_kmem_cache in Heq.
      pose proof (Z.div_mod (caches_addr + 40 * z) (2 ^ 64)). pose proof (Z.div_mod (caches_addr + 40 * i) (2 ^ 64)).
      nia.
    - assert (z ≠ i) by (by intros ->). lia. }
  intros [[]|z] Hr; cbn; [|done]. unfold SLAB_NUM_CLASSES, classes in *. lia.
Qed.

(** Freeing a slot. *)
Lemma kfree_slot_returns st s m G LG i gs1 p fr gs2 k :
  slab_rep st s m G LG → G !! i = Some (gs1 ++ (p, fr) :: gs2) → k < nslots i → k ∉ fr →
  returns (kfree st s m (slot_addr i p k)) (λ '(st', s', m'),
    slab_rep st' s' m' (<[i := gs1 ++ (p, k :: fr) :: gs2]> G) LG ∧
    mods (λ x, range (sbase p) 40 x ∨ range (slot_addr i p k) 8 x) m m').
Proof.
  intros R Hi Hk Hkfr. assert ((p, fr) ∈ gs1 ++ (p, fr) :: gs2) as Hg by (clear; set_solver).
  destruct (rep_cache _ _ _ _ _ _ _ R Hi) as (Hlt & c & Hc & HR).
  destruct (rep_slab_ok _ _ _ _ _ _ _ _ R Hi Hg) as (_ & Hpage & _). cbn in Hpage.
  pose proof (slab_chain_at _ _ _ _ _ (cr_chain _ _ _ _ HR)) as Hok.
  destruct (slot_inside i p k Hlt Hk) as (Hs1 & Hs2 & Hs3). pose proof Hpage as [Hp1 Hp2 _].
  assert (Z.land (slot_addr i p k) SLAB_PAGE_MASK = sbase p) as Hbase.
  { eapply (page_mask _ p (slot_addr i p k - sbase p)); [|lia|lia|lia].
    eapply (base_aligned _ _ _ _ _ _ 0%nat); [exact R|]. exact (page_in i _ (p, fr) G LG Hi Hg). }
  unfold kfree. destruct (Z.eqb_spec (slot_addr i p k) 0) as [?|_]; [lia|]. cbv zeta. rewrite Hbase.
  pose proof Hok as []. cbn [fst snd] in *. rewrite so_magic0, bind_ok, Z.eqb_refl, so_cache0, bind_ok.
  ret_step cache_index_returns; [done|]. intros z ->.
  ret_step push_slot_returns; [done|done|exact Hok|done|done|]. intros m' [Hok' Hm].
  rewrite (add_free_eq _ _ _ _ Hc), bind_ok. cbn [returns].
  assert (u64 (free_slots c + 1) = gs_free (gs1 ++ (p, k :: fr) :: gs2)) as Hfree.
  { rewrite (cr_free _ _ _ _ HR), !gs_free_app. pose proof (gs_free_bound _ _ _ Hlt (cr_chain _ _ _ _ HR)) as Hb.
    pose proof (rep_slab_count _ _ _ _ _ _ _ R Hi). destruct (class_geometry i Hlt) as (_ & _ & ? & _).
    rewrite gs_free_app in Hb. change (gs_free ((p, k :: fr) :: gs2)) with (Datatypes.S (length fr) + gs_free gs2) in *.
    change (gs_free ((p, fr) :: gs2)) with (length fr + gs_free gs2) in *. rewrite u64_id by nia. lia. }
  rewrite Hfree. split; [|done].
  eapply slab_rep_update; [exact R|exact Hi|exact Hc|done|exact Hm| |exact Hok'].
  intros x Hx. unfold bytes_of, page_of. cbn [fst snd]. rewrite bsize_0. unfold sbase, range in *. lia.
Qed.

(** Freeing a large block. *)
Lemma kfree_large_returns st s m G LG p (o : nat) LG' :
  slab_rep st s m G LG → LG ≡ₚ (p, o) :: LG' →
  returns (kfree st s m (sbase p + 16)) (λ '(st', s', m'),
    slab_rep st' s' m' G LG' ∧ mods (λ x, block_zone x ∧ ¬ bytes_in hhdm (all_blocks G LG') x) m m').
Proof.
  intros R HP. assert ((p, o) ∈ LG) as HpL by (rewrite HP; by left).
  assert ((p, o) ∈ all_blocks G LG) as Hp by (apply elem_of_app; by right).
  destruct (block_inv_block (hhdm := hhdm) s m _ p o (sr_inv _ _ _ _ _ R) Hp) as (Hpos & _ & Hh & Htop & _).
  assert (4096 ≤ bsize o) by (unfold bsize, PMM_FRAME_SIZE; pose proof (pow2_pos o); lia).
  assert (Z.land (sbase p + 16) SLAB_PAGE_MASK = sbase p) as Hbase.
  { eapply (page_mask _ p 16); [by eapply base_aligned|done|lia|unfold sbase; lia]. }
  unfold kfree. destruct (Z.eqb_spec (sbase p + 16) 0) as [?|_]; [unfold sbase in *; lia|]. cbv zeta.
  rewrite Hbase. destruct (sr_large _ _ _ _ _ R _ HpL) as [Hmg Hor]. cbn [fst snd] in *.
  rewrite Hmg, bind_ok. change (LARGE_MAGIC =? SLAB_MAGIC) with false. rewrite Z.eqb_refl, Hor, bind_ok.
  assert (u64 (sbase p - slab_hhdm st) = p) as ->.
  { rewrite (sr_hhdm _ _ _ _ _ R). unfold sbase. replace (p + hhdm - hhdm) with p by lia. apply u64_id. lia. }
  assert (all_blocks G LG ≡ₚ (p, o) :: all_blocks G LG') as HA.
  { rewrite <- all_blocks_large. unfold all_blocks. by rewrite HP. }
  pose proof (block_inv_perm (hhdm := hhdm) _ _ _ _ HA (sr_inv _ _ _ _ _ R)) as Hinv.
  ret_step (block_free_law (hhdm := hhdm)); [exact Hinv|]. intros [s' m'] [Hinv' Hm]. cbn [returns].
  assert (∀ x, bookkeeping G LG' x → bytes_in hhdm (all_blocks G LG') x) as Hbk.
  { intros x Hx. assert (bookkeeping G LG x) as Hx'.
    { destruct Hx as [?|(b & Hb & Ho)]; [by left|right]. exists b. split; [rewrite HP; by right|done]. }
    destruct Hx as [(i & gs & g & Hi & Hg & Ho)|(b & Hb & Ho)].
    - destruct (rep_slab_ok _ _ _ _ _ _ _ _ R Hi Hg) as (Hlt & _ & next & Hok).
      exists (page_of g). split; [by eapply page_in|by eapply slab_own_page].
    - assert (b ∈ all_blocks G LG') as HbA by (apply elem_of_app; by right).
      exists b. split; [done|]. eapply (large_own_bytes s m (all_blocks G LG)); [apply R| |exact Ho].
      rewrite HA. by right. }
  split; [|done]. eapply (rep_transfer st s m s' m' G LG); [exact R|exact Hm| |exact Hinv'|done|].
  - intros x Hx [Hb|(b & Hb & _)]; [|by apply elem_of_nil in Hb]. apply Hx, Hbk. by left.
  - intros b Hb. eapply large_ok_mods; [exact Hm| |eapply sr_large; [exact R|rewrite HP; by right]].
    intros x Hx Ho. apply Hx, Hbk. right. by exists b.
Qed.

Lemma live_rest_bytes st s m G LG i gs1 g gs2 a n x :
  slab_rep st s m G LG → G !! i = Some (gs1 ++ g :: gs2) → live_rest i gs1 gs2 G LG a n →
  range a n x → ¬ bytes_of hhdm (page_of g) x.
Proof.
  intros R Hi Hl Hx Hgx. pose proof (sr_inv _ _ _ _ _ R) as Hinv.
  pose proof (block_inv_perm (hhdm := hhdm) _ _ _ _ (all_blocks_split _ _ _ _ _ LG Hi) Hinv) as HinvP.
  assert (∃ b, b ∈ others i gs1 gs2 G LG ∧ bytes_of hhdm b x) as (b & Hb & Hbx).
  2: { by eapply (block_inv_apart (hhdm := hhdm)). }
  unfold others. destruct Hl as [(h & Hh & Hl)|[(j & gs & h & Hne & Hj & Hh & Hl)|(b & Hb & Hl)]].
  - assert (h ∈ gs1 ++ g :: gs2) as Hh' by (clear -Hh; set_solver).
    destruct (rep_slab_ok _ _ _ _ _ _ _ _ R Hi Hh') as (Hlt & _ & next & Hok).
    exists (page_of h). split; [|by eapply slab_live_bytes].
    apply elem_of_app. left. apply list_elem_of_fmap_2. clear -Hh. set_solver.
  - destruct (rep_slab_ok _ _ _ _ _ _ _ _ R Hj Hh) as (Hlt & _ & next & Hok).
    exists (page_of h). split; [|by eapply slab_live_bytes].
    apply elem_of_app. left. apply list_elem_of_fmap_2. do 2 (apply elem_of_app; right).
    by eapply concat_other.
  - exists b. split; [apply elem_of_app; by right|]. by eapply large_live_bytes.
Qed.

Lemma kfree_returns st s m G LG a n :
  slab_rep st s m G LG → live G LG a n →
  returns (kfree st s m a) (λ '(st', s', m'), ∃ G' LG', slab_rep st' s' m' G' LG' ∧
    (∀ a' n', live G' LG' a' n' ↔ live G LG a' n' ∧ a' ≠ a) ∧ off_live G' LG' m m').
Proof.
  intros R Hl. pose proof (live_pos _ _ _ _ _ _ _ R Hl) as [Hn _].
  destruct Hl as [(i & gs & [p fr] & Hi & Hg & k & Hk & Hkfr & -> & ->)|([p o] & Hb & -> & ->)]; cbn [fst snd] in *.
  - destruct (list_elem_of_split _ _ Hg) as (gs1 & gs2 & ->).
    destruct (rep_slab_ok _ _ _ _ _ _ _ _ R Hi Hg) as (Hlt & _).
    destruct (slot_inside i p k Hlt Hk) as (? & ? & ?).
    eapply returns_mono; [by eapply kfree_slot_returns|]. intros [[st' s'] m'] [R' Hm].
    eexists _, _. split; [exact R'|]. split.
    + intros a' n'. rewrite (live_update _ _ _ _ _ _ LG a' n' Hi), (live_split _ _ _ _ _ LG a' n' Hi).
      assert (live_rest i gs1 gs2 G LG a' n' → a' ≠ slot_addr i p k) as Hrest.
      { intros Hr ->. assert (live G LG (slot_addr i p k) n') as Hl'.
        { apply (live_split _ _ _ _ _ LG _ _ Hi). by right. }
        destruct (live_pos _ _ _ _ _ _ _ R Hl') as [? _].
        apply (live_rest_bytes _ _ _ _ _ _ _ _ _ _ _ (slot_addr i p k) R Hi Hr); [unfold range; lia|].
        unfold bytes_of, page_of, range. cbn [fst snd]. rewrite bsize_0. unfold sbase in *. lia. }
      enough (slab_live i (p, k :: fr) a' n' ↔ slab_live i (p, fr) a' n' ∧ a' ≠ slot_addr i p k) by tauto.
      unfold slab_live. cbn [fst snd]. split.
      * intros (j & Hj & Hjf & -> & ->). assert (j ≠ k) as Hne by (intros ->; apply Hjf; by left).
        split; [|intros Heq; destruct (slot_apart i p j k Hlt Hne); lia].
        exists j. split; [done|]. split; [|done]. intros ?. apply Hjf. by right.
      * intros ((j & Hj & Hjf & -> & ->) & Hne). exists j. split; [done|]. split; [|done].
        intros [->|?]%elem_of_cons; done.
    + eapply off_live_bookkeeping; [exact R'|exact Hm|]. intros x Hx. left.
      exists i, (gs1 ++ (p, k :: fr) :: gs2), (p, k :: fr).
      split; [apply list_lookup_insert_eq; by eapply lookup_lt_Some|]. split; [clear; set_solver|].
      destruct Hx as [Hx|Hx]; [by left|right]. exists k. split; [by left|done].
  - apply elem_of_Permutation in Hb as (LG' & HP).
    eapply returns_mono; [by eapply kfree_large_returns|]. intros [[st' s'] m'] [R' Hm].
    exists G, LG'. split; [exact R'|]. split.
    + intros a' n'. assert (live G LG' a' n' → a' ≠ sbase p + 16) as Hne.
      { intros Hl' ->. destruct (live_pos _ _ _ _ _ _ _ R' Hl') as [? _].
        assert (all_blocks G LG ≡ₚ (p, o) :: all_blocks G LG') as HA.
        { rewrite <- all_blocks_large. unfold all_blocks. by rewrite HP. }
        pose proof (block_inv_perm (hhdm := hhdm) _ _ _ _ HA (sr_inv _ _ _ _ _ R)) as Hinv.
        destruct (live_bytes _ _ _ _ _ _ _ (sbase p + 16) R' Hl') as [(b & Hb & Hbx) _]; [unfold range; lia|].
        eapply (block_inv_apart (hhdm := hhdm)); [exact Hinv|exact Hb| |exact Hbx].
        unfold bytes_of, sbase, range. cbn [fst snd]. lia. }
      assert (live G LG a' n' ↔ live G LG' a' n' ∨ large_live (p, o) a' n') as ->.
      { unfold live. setoid_rewrite HP. setoid_rewrite elem_of_cons. naive_solver. }
      unfold large_live in *. cbn [fst snd]. tauto.
    + eapply mods_weaken; [exact Hm|]. intros x [Hz Hx]. split; [done|].
      intros a' n' Hl' Hax. apply Hx. by eapply live_bytes.
Qed.

(** * kmalloc_usable_size *)

Lemma usable_returns st s m G LG a n :
  slab_rep st s m G LG → live G LG a n →
  returns (kmalloc_usable_size st m a) (λ z,
    ((∃ i, (i < classes)%nat ∧ n = csize i) ∧ z = n) ∨
    ((∃ o : nat, n = bsize o - 16) ∧ z = n + 16)).
Proof.
  intros R Hl. pose proof (live_pos _ _ _ _ _ _ _ R Hl) as [_ Hpos]. unfold kmalloc_usable_size.
  destruct (Z.eqb_spec a 0) as [?|_]; [lia|]. cbv zeta.
  destruct Hl as [(i & gs & g & Hi & Hg & k & Hk & Hkfr & -> & ->)|([p o] & Hb & -> & ->)]; cbn [fst snd] in *.
  - destruct (rep_cache _ _ _ _ _ _ _ R Hi) as (Hlt & c & Hc & HR).
    destruct (rep_slab_ok _ _ _ _ _ _ _ _ R Hi Hg) as (_ & Hpage & next & Hok).
    destruct (slot_inside i g.1 k Hlt Hk) as (Hs1 & Hs2 & Hs3). pose proof Hpage as [Hp1 Hp2 _].
    rewrite (page_mask _ g.1 (slot_addr i g.1 k - sbase g.1)); [|..|lia|lia|lia].
    2: { eapply (base_aligned _ _ _ _ _ _ 0%nat); [exact R|]. exact (page_in i _ g G LG Hi Hg). }
    destruct Hok. rewrite so_magic0, bind_ok, Z.eqb_refl, so_cache0, bind_ok.
    ret_step cache_index_returns; [done|]. intros z ->. rewrite (arr_get_Some _ _ _ Hc), bind_ok.
    cbn [returns]. rewrite (cr_size _ _ _ _ HR). left. split; [by exists i|done].
  - assert ((p, o) ∈ all_blocks G LG) as Hp by (apply elem_of_app; by right).
    destruct (block_inv_block (hhdm := hhdm) s m _ p o (sr_inv _ _ _ _ _ R) Hp) as (? & _ & Hh & Htop & _).
    assert (4096 ≤ bsize o) by (unfold bsize, PMM_FRAME_SIZE; pose proof (pow2_pos o); lia).
    rewrite (page_mask _ p 16); [|by eapply base_aligned|lia|lia|unfold sbase in *; lia].
    destruct (sr_large _ _ _ _ _ R _ Hb) as [Hmg Hor]. cbn [fst snd] in *.
    rewrite Hmg, bind_ok. change (LARGE_MAGIC =? SLAB_MAGIC) with false. rewrite Z.eqb_refl, Hor, bind_ok.
    assert (o ≤ 51)%nat as Ho.
    { destruct (decide (o ≤ 51)%nat); [done|]. unfold bsize, PMM_FRAME_SIZE in Htop.
      pose proof (Z.pow_le_mono_r 2 52 o). lia. }
    destruct (Z.leb_spec 64 o) as [?|_]; [lia|]. rewrite shift_page by lia. cbn [returns].
    right. split; [by exists o|]. unfold bsize, PMM_FRAME_SIZE. lia.
Qed.

(** * Bringing the allocator up *)

Lemma slab_init_rep s m :
  hhdm mod 4096 = 0 → block_inv s m [] → slab_rep (slab_init hhdm) s m (replicate classes []) [].
Proof.
  intros Hal Hinv. split; try done.
  - intros i c gs Hc (-> & Hi)%lookup_replicate.
    unfold slab_init in Hc. cbn [caches] in Hc. apply list_lookup_fmap_Some in Hc as (sz & -> & Hsz).
    rewrite class_size_lookup in Hsz by done. simplify_eq. by split.
  - intros b Hb. by apply elem_of_nil in Hb.
Qed.

(** * Clients *)

(** [sw_live]: the objects handed out and not yet freed, each with the size its
    owner asked for. *)
Record slab_world := { sw_st : slab_state; sw_s : S; sw_mem : mem; sw_live : list (Z * Z) }.

Inductive slab_step : slab_world → slab_world → Prop :=
  | sstep_malloc w st' s' m' r size :
      0 ≤ size ≤ 2 ^ 63 - 16 →
      kmalloc (sw_st w) (sw_s w) (sw_mem w) size = Ok (st', s', m', r) → r ≠ 0 →
      slab_step w {| sw_st := st'; sw_s := s'; sw_mem := m'; sw_live := (r, size) :: sw_live w |}
  | sstep_fail w st' s' m' size :
      0 ≤ size ≤ 2 ^ 63 - 16 →
      kmalloc (sw_st w) (sw_s w) (sw_mem w) size = Ok (st', s', m', 0) →
      slab_step w {| sw_st := st'; sw_s := s'; sw_mem := m'; sw_live := sw_live w |}
  | sstep_free w st' s' m' a size before after :
      sw_live w = before ++ (a, size) :: after →
      kfree (sw_st w) (sw_s w) (sw_mem w) a = Ok (st', s', m') →
      slab_step w {| sw_st := st'; sw_s := s'; sw_mem := m'; sw_live := before ++ after |}
  | sstep_write w m' P :
      (* owners write to the bytes they asked for *)
      mods P (sw_mem w) m' →
      (∀ x, P x → ∃ a size, (a, size) ∈ sw_live w ∧ range a size x) →
      slab_step w {| sw_st := sw_st w; sw_s := sw_s w; sw_mem := m'; sw_live := sw_live w |}.

Definition slab_inv (w : slab_world) : Prop := ∃ G LG,
  slab_rep (sw_st w) (sw_s w) (sw_mem w) G LG ∧ NoDup (fst <$> sw_live w) ∧
  (∀ a size, (a, size) ∈ sw_live w → ∃ n, live G LG a n ∧ size ≤ n) ∧
  ∀ a n, live G LG a n → a ∈ fst <$> sw_live w.

Lemma usable_for_le size n : usable_for size n → size ≤ n.
Proof. intros [(i & (_ & ? & _) & ->)|(_ & o & _ & ? & _)]; done. Qed.

Lemma slab_inv_step w w' : slab_inv w → slab_step w w' → slab_inv w'.
Proof.
  intros (G & LG & R & Hnd & Hin & Hall) Hstep. unfold slab_inv. destruct Hstep as
    [w st' s' m' r size Hsz Hrun Hne|w st' s' m' size Hsz Hrun|w st' s' m' a size before after Hw Hrun|w m' P Hm HP]; cbn.
  - pose proof (kmalloc_returns _ _ _ _ _ size R Hsz) as Hs. rewrite Hrun in Hs.
    destruct Hs as [(? & _)|(G' & LG' & n & R' & _ & Huse & [Hl Hnew] & _)]; [done|].
    exists G', LG'. split; [done|]. split; [|split].
    + apply NoDup_cons. split; [|done]. intros ([a sz] & -> & Ha)%list_elem_of_fmap.
      destruct (Hin _ _ Ha) as (n' & Hn' & _). by apply (Hnew n').
    + intros a sz [[= -> ->]|Ha]%elem_of_cons.
      * exists n. split; [apply Hl; by right|by apply usable_for_le].
      * destruct (Hin _ _ Ha) as (n' & Hn' & ?). exists n'. split; [apply Hl; by left|done].
    + intros a n' [?|[-> ->]]%Hl; [right; by eapply Hall|by left].
  - pose proof (kmalloc_returns _ _ _ _ _ size R Hsz) as Hs. rewrite Hrun in Hs.
    destruct Hs as [(_ & -> & -> & -> & _)|(G' & LG' & n & _ & ? & _)]; [|lia]. by exists G, LG.
  - destruct (Hin a size) as (n & Hn & _); [rewrite Hw; clear; set_solver|].
    pose proof (kfree_returns _ _ _ _ _ a n R Hn) as Hs. rewrite Hrun in Hs.
    destruct Hs as (G' & LG' & R' & Hl & _). exists G', LG'. split; [done|].
    rewrite Hw, fmap_app, fmap_cons in Hnd. rewrite <- Permutation_middle in Hnd.
    apply NoDup_cons in Hnd as [Hna Hnd]. cbn [fst] in Hna. rewrite <- fmap_app in Hnd, Hna.
    split; [done|]. split.
    + intros b sz Hb. destruct (Hin b sz) as (n' & Hn' & ?); [rewrite Hw; clear -Hb; set_solver|].
      exists n'. split; [|done]. apply Hl. split; [done|]. intros ->. apply Hna.
      by apply (list_elem_of_fmap_2 fst _ (a, sz)).
    + intros b n' [Hb Hne]%Hl. specialize (Hall _ _ Hb). rewrite Hw, fmap_app, fmap_cons in Hall. cbn in Hall.
      rewrite fmap_app. clear -Hall Hne. set_solver.
  - exists G, LG. split; [|done]. eapply slab_rep_mods; [exact R|exact Hm|]. intros x Hx.
    destruct (HP x Hx) as (a & size & Ha & Hax). destruct (Hin _ _ Ha) as (n & Hn & Hle).
    destruct (live_bytes _ _ _ _ _ _ _ x R Hn) as [? ?]; [unfold range in *; lia|]. split; [by left|done].
Qed.

Lemma slab_inv_steps w w' : rtc slab_step w w' → slab_inv w → slab_inv w'.
Proof. induction 1; eauto using slab_inv_step. Qed.

(** What an owner gets. *)
Lemma live_ok st s m G LG a n :
  slab_rep st s m G LG → live G LG a n → a mod 16 = 0 ∧ 0 < a ∧ a + n ≤ 2 ^ 64 ∧ backed m a n.
Proof.
  intros R Hl. pose proof (live_pos _ _ _ _ _ _ _ R Hl) as [Hn Hpos].
  assert (backed m a n) as Hb.
  { intros x Hx. destruct (live_bytes _ _ _ _ _ _ _ _ R Hl Hx) as [([p o] & Hb & Hbx) _].
    destruct (block_inv_block (hhdm := hhdm) s m _ p o (sr_inv _ _ _ _ _ R) Hb) as (_ & _ & _ & _ & Hback).
    by apply Hback. }
  split; [|split; [done|split; [|done]]].
  - destruct Hl as [(i & gs & g & Hi & Hg & k & Hk & Hkfr & -> & ->)|([p o] & Hb' & -> & ->)].
    + destruct (rep_slab_ok _ _ _ _ _ _ _ _ R Hi Hg) as (Hlt & _). destruct (class_geometry i Hlt) as (_ & Hc & _).
      pose proof (base_aligned _ _ _ _ _ g.1 0%nat R (page_in i _ g G LG Hi Hg)) as Hal.
      apply (mod_trans _ 16 256) in Hal; [|lia..]. apply Z.mod_divide in Hal, Hc; [|lia..].
      apply Z.mod_divide; [lia|]. unfold slot_addr.
      apply Z.divide_add_r; [apply Z.divide_add_r; [done|by exists 3]|by apply Z.divide_mul_r].
    + assert ((p, o) ∈ all_blocks G LG) as Hp by (apply elem_of_app; by right).
      pose proof (base_aligned _ _ _ _ _ _ _ R Hp) as Hal. cbn [fst].
      apply (mod_trans _ 16 256) in Hal; [|lia..]. apply Z.mod_divide in Hal; [|lia].
      apply Z.mod_divide; [lia|]. apply Z.divide_add_r; [done|by exists 1].
  - destruct (live_bytes _ _ _ _ _ _ _ (a + n - 1) R Hl) as [([p o] & Hb' & Hbx) _]; [unfold range; lia|].
    destruct (block_inv_block (hhdm := hhdm) s m _ p o (sr_inv _ _ _ _ _ R) Hb') as (_ & _ & _ & Htop & _).
    unfold bytes_of, range in Hbx. cbn in Hbx. lia.
Qed.
End proofs.

(** * The statistics *)

Section stats.
Context {S : Type} (hhdm : Z) `{!BlockOps S, !BlockLaws S hhdm} {Lay : SlabLayout}.

(** Slots of class [i] handed out. *)
Definition in_use (i : nat) (gs : list gslab) : Z :=
  foldr (λ g n, (nslots i - Z.of_nat (length g.2)) + n) 0 gs.

Lemma in_use_eq i gs : in_use i gs = Z.of_nat (length gs) * nslots i - gs_free gs.
Proof.
  induction gs as [|g gs IH]; [done|].
  change (in_use i (g :: gs)) with (nslots i - Z.of_nat (length g.2) + in_use i gs).
  change (gs_free (g :: gs)) with (Z.of_nat (length g.2) + gs_free gs).
  rewrite IH. cbn [length]. rewrite Nat2Z.inj_succ. unfold Z.succ. ring.
Qed.

Lemma class_stats_returns st (s : S) m G LG i c gs :
  slab_rep hhdm st s m G LG → caches st !! i = Some c → G !! i = Some gs →
  class_stats c = {| st_obj_size := csize i; st_slab_count := Z.of_nat (length gs);
    st_total_slots := Z.of_nat (length gs) * nslots i; st_free_slots := gs_free gs;
    st_bytes_in_use := in_use i gs * csize i |}.
Proof.
  intros R Hc Hgs. destruct (rep_cache _ _ _ _ _ _ _ _ R Hgs) as (Hlt & _).
  destruct (sr_caches _ _ _ _ _ _ R i c gs Hc Hgs) as [H1 _ H3 H4 H5 H6].
  pose proof (gs_free_bound _ _ _ _ Hlt H6). pose proof (rep_slab_count _ _ _ _ _ _ _ _ R Hgs).
  destruct (class_geometry i Hlt) as (? & _ & ? & Hfit).
  unfold class_stats. rewrite H1, H3, H4, H5, in_use_eq.
  rewrite (u64_id (Z.of_nat (length gs) * nslots i - gs_free gs)) by nia. f_equal.
  assert (Z.of_nat (length gs) * (nslots i * csize i) < 2 ^ 64) by nia.
  apply u64_id. set (x := Z.of_nat (length gs) * nslots i) in *.
  assert (x * csize i = Z.of_nat (length gs) * (nslots i * csize i)) by (subst x; ring). clearbody x. nia.
Qed.
End stats.

(** * A small machine: the slab allocator over the four-frame buddy heap *)

Module slab_demo.
#[export] Instance layout0 : SlabLayout := 0xffffffff80200000.

#[export] Instance laws0 : BlockLaws buddy_state demo.hhdm := buddy_laws demo.hhdm buddy_demo.F.

(** Nothing is allocated yet, and the block allocator has a page. *)
Lemma heap_start : ∃ bs m,
  slab_rep demo.hhdm (slab_init demo.hhdm) bs m (replicate classes []) [] ∧
  ∃ bs1 m1 p, block_alloc bs m 0 = Ok (bs1, m1, p) ∧ p ≠ 0.
Proof.
  destruct buddy_demo.alloc0 as (bs & m & L & p & L' & H & Hco & Hsp & Hh). exists bs, m. split.
  - apply slab_init_rep; [done|]. split; [done|]. by exists L.
  - pose proof (buddy_alloc_returns bs m L [] buddy_demo.F 0 H ltac:(unfold orders; lia)) as Hs.
    rewrite Hsp in Hs. apply returns_inv in Hs as ([[bs1 m1] r] & Hrun & -> & H1 & _).
    destruct (heap_block_backed _ _ _ _ _ _ _ H1 (list_elem_of_here _ _)) as (_ & _ & Hpos & _).
    exists bs1, m1, p. split; [exact Hrun|lia].
Qed.

(** So 100 bytes can be had. *)
Lemma first_object : ∃ bs m st1 bs1 m1 r n G LG,
  slab_rep demo.hhdm (slab_init demo.hhdm) bs m (replicate classes []) [] ∧
  kmalloc (slab_init demo.hhdm) bs m 100 = Ok (st1, bs1, m1, r) ∧ r ≠ 0 ∧
  slab_rep demo.hhdm st1 bs1 m1 G LG ∧ live demo.hhdm G LG r n ∧ 100 ≤ n ∧
  slab_inv demo.hhdm {| sw_st := st1; sw_s := bs1; sw_mem := m1; sw_live := [(r, 100)] |}.
Proof.
  destruct heap_start as (bs & m & R & bs1 & m1 & p & Hal & Hp).
  destruct (returns_inv _ _ (kmalloc_returns demo.hhdm _ _ _ _ _ 100 R ltac:(lia)))
    as ([[[st1 s1] m2] r] & Hrun & [(_ & _ & _ & _ & [?|(o & Ho & Hno)])|(G & LG & n & R1 & Hr & Hu & [Hl Hnew] & _)]);
    [done| |].
  { destruct Ho as [[_ ->]|[? _]]; [|lia]. rewrite Hal in Hno. simplify_eq. }
  exists bs, m, st1, s1, m2, r, n, G, LG. pose proof (usable_for_le _ _ Hu).
  assert (live demo.hhdm G LG r n) as Hlr by (apply Hl; by right).
  split; [exact R|split; [exact Hrun|split; [lia|split; [exact R1|split; [exact Hlr|split; [done|]]]]]].
  exists G, LG. split; [exact R1|]. split; [apply NoDup_singleton|]. split.
  - intros a size [= -> ->]%list_elem_of_singleton. by exists n.
  - intros a n' [Hold|[-> ->]]%Hl; [exfalso|by left].
    destruct Hold as [(i & gs & g & (-> & _)%lookup_replicate & Hg & _)|(b & Hb & _)];
      [by apply elem_of_nil in Hg|by apply elem_of_nil in Hb].
Qed.
End slab_demo.
#[local] Existing Instance slab_demo.layout0.
#[local] Existing Instance slab_demo.laws0.

(** * What the allocator promises *)

(** C12. kmalloc.  For any request up to 2^63 - 16 bytes, kmalloc returns.  It
    returns NULL only for a request of 0 bytes or when the block allocator has no
    block of the order needed, and then nothing changed.  Otherwise the result is
    16-aligned and not NULL, its usable bytes, those of the smallest class or block that
    fits, are backed; it is new, every live object stays live, and no byte of a
    live object was written. *)
Theorem kmalloc_correct {S : Type} {O : BlockOps S} (hhdm : Z) {Laws : BlockLaws S hhdm}
    {Lay : SlabLayout} st (s : S) m G LG size :
  slab_rep hhdm st s m G LG → 0 ≤ size ≤ 2 ^ 63 - 16 →
  ∃ st' s' m' r, kmalloc st s m size = Ok (st', s', m', r) ∧
    ((r = 0 ∧ st' = st ∧ s' = s ∧ m' = m ∧
       (size = 0 ∨ ∃ o, order_needed size o ∧ block_alloc s m o = Ok (s, m, 0))) ∨
     ∃ G' LG' n, slab_rep hhdm st' s' m' G' LG' ∧ usable_for size n ∧
       r ≠ 0 ∧ r mod 16 = 0 ∧ backed m' r n ∧
       (∀ a n', live hhdm G' LG' a n' ↔ live hhdm G LG a n' ∨ (a = r ∧ n' = n)) ∧
       (∀ a n', live hhdm G LG a n' → a ≠ r ∧ ∀ x, range a n' x → ¬ range r n x) ∧
       off_live hhdm G LG m m').
Proof.
  intros R Hsize.
  destruct (returns_inv _ _ (kmalloc_returns hhdm st s m G LG size R Hsize))
    as ([[[st' s'] m'] r] & Hrun & Hs). exists st', s', m', r. split; [exact Hrun|].
  destruct Hs as [?|(G' & LG' & n & R' & Hr & Hu & [Hl Hnew] & Hoff)]; [by left|right].
  assert (live hhdm G' LG' r n) as Hlr by (apply Hl; by right).
  destruct (live_ok hhdm st' s' m' G' LG' r n R' Hlr) as (Hal & _ & _ & Hb).
  exists G', LG', n. do 2 (split; [done|]). split; [lia|]. do 3 (split; [done|]). split; [|done].
  intros a n' Ha. assert (a ≠ r) as Hne by (intros ->; by apply (Hnew n')). split; [done|].
  intros x. apply (live_apart hhdm st' s' m' G' LG' a n' r n x R'); [apply Hl; by left|done|done].
Qed.

Lemma kmalloc_correct_witness :
  ∃ bs m st' bs' m' r, slab_rep demo.hhdm (slab_init demo.hhdm) bs m (replicate classes []) [] ∧
    kmalloc (slab_init demo.hhdm) bs m 100 = Ok (st', bs', m', r).
Proof.
  destruct slab_demo.heap_start as (bs & m & R & _).
  destruct (kmalloc_correct demo.hhdm (slab_init demo.hhdm) bs m (replicate classes []) [] 100 R ltac:(lia))
    as (st' & bs' & m' & r & Hrun & _).
  exists bs, m, st', bs', m', r. split; [exact R|exact Hrun].
Defined.

(** C13. kfree.  Freeing a live object returns, that object and no other stops
    being live, and no byte of the remaining live objects was written. *)
Theorem kfree_correct {S : Type} {O : BlockOps S} (hhdm : Z) {Laws : BlockLaws S hhdm}
    {Lay : SlabLayout} st (s : S) m G LG a n :
  slab_rep hhdm st s m G LG → live hhdm G LG a n →
  ∃ st' s' m' G' LG', kfree st s m a = Ok (st', s', m') ∧ slab_rep hhdm st' s' m' G' LG' ∧
    (∀ a' n', live hhdm G' LG' a' n' ↔ live hhdm G LG a' n' ∧ a' ≠ a) ∧
    off_live hhdm G' LG' m m'.
Proof.
  intros R Hl. destruct (returns_inv _ _ (kfree_returns hhdm st s m G LG a n R Hl))
    as ([[st' s'] m'] & Hrun & G' & LG' & H). exists st', s', m', G', LG'. split; [exact Hrun|exact H].
Qed.

Lemma kfree_correct_witness :
  ∃ st bs m r st' bs' m' G' LG', kfree st bs m r = Ok (st', bs', m') ∧
    slab_rep demo.hhdm st' bs' m' G' LG' ∧ ∀ n, ¬ live demo.hhdm G' LG' r n.
Proof.
  destruct slab_demo.first_object as (bs0 & m0 & st & bs & m & r & n & G & LG & _ & _ & _ & R & Hl & _).
  destruct (kfree_correct demo.hhdm st bs m G LG r n R Hl) as (st' & bs' & m' & G' & LG' & Hrun & R' & Hlive & _).
  exists st, bs, m, r, st', bs', m', G', LG'. split; [exact Hrun|split; [exact R'|]].
  intros n' [_ Hne]%Hlive. by apply Hne.
Defined.

(** C6. Heap safety under any use.  After any sequence of kmalloc of at most 2^63 - 16
    bytes (the sizes it is right for), kfree of live objects and writes by owners to the
    bytes they asked for, every live object
    is 16-aligned, not NULL and backed for its requested size, and two live
    objects share no byte. *)
Theorem kmalloc_objects_disjoint {S : Type} {O : BlockOps S} (hhdm : Z) {Laws : BlockLaws S hhdm}
    {Lay : SlabLayout} (w0 w : @slab_world S) :
  slab_inv hhdm w0 → rtc slab_step w0 w →
  (∀ a size, (a, size) ∈ sw_live w → a ≠ 0 ∧ a mod 16 = 0 ∧ backed (sw_mem w) a size) ∧
  ∀ l1 a size l2 a' size' l3, sw_live w = l1 ++ (a, size) :: l2 ++ (a', size') :: l3 →
    ∀ x, range a size x → ¬ range a' size' x.
Proof.
  intros Hinv Hsteps. destruct (slab_inv_steps hhdm w0 w Hsteps Hinv) as (G & LG & R & Hnd & Hin & _). split.
  - intros a size Ha. destruct (Hin a size Ha) as (n & Hl & Hle).
    destruct (live_ok hhdm _ _ _ G LG a n R Hl) as (Hal & Hpos & _ & Hb).
    split; [lia|split; [done|]]. eapply backed_sub; [exact Hb|lia..].
  - intros l1 a size l2 a' size' l3 Hw x Hx Hx'.
    assert (a ≠ a') as Hne.
    { rewrite Hw, fmap_app, fmap_cons, fmap_app, fmap_cons in Hnd. cbn in Hnd.
      apply NoDup_app in Hnd as (_ & _ & (Hna & _)%NoDup_cons). intros ->. apply Hna, elem_of_app. right. by left. }
    destruct (Hin a size) as (n & Hl & Hle); [rewrite Hw; clear; set_solver|].
    destruct (Hin a' size') as (n' & Hl' & Hle'); [rewrite Hw; clear; set_solver|].
    apply (live_apart hhdm _ _ _ G LG a n a' n' x R Hl Hl' Hne); unfold range in *; lia.
Qed.

Lemma kmalloc_objects_disjoint_witness :
  ∃ w0 w : @slab_world buddy_state, slab_inv demo.hhdm w0 ∧ rtc slab_step w0 w ∧
    length (sw_live w) = 1%nat ∧
    ∀ a size, (a, size) ∈ sw_live w → a ≠ 0 ∧ a mod 16 = 0 ∧ backed (sw_mem w) a size.
Proof.
  destruct slab_demo.first_object as (bs & m & st1 & bs1 & m1 & r & n & G & LG & R & Hrun & Hr & _).
  set (w0 := {| sw_st := slab_init demo.hhdm; sw_s := bs; sw_mem := m; sw_live := [] |}).
  assert (slab_inv demo.hhdm w0) as Hinv.
  { exists (replicate classes []), []. split; [exact R|]. split; [apply NoDup_nil_2|]. split.
    - intros a size Ha. by apply elem_of_nil in Ha.
    - intros a n' [(i & gs & g & (-> & _)%lookup_replicate & Hg & _)|(b & Hb & _)];
        [by apply elem_of_nil in Hg|by apply elem_of_nil in Hb]. }
  set (w := {| sw_st := st1; sw_s := bs1; sw_mem := m1; sw_live := (r, 100) :: sw_live w0 |}).
  assert (rtc slab_step w0 w) as Hsteps.
  { apply rtc_once, sstep_malloc; [lia|exact Hrun|exact Hr]. }
  exists w0, w. split; [exact Hinv|split; [exact Hsteps|split; [reflexivity|]]].
  apply (kmalloc_objects_disjoint demo.hhdm w0 w Hinv Hsteps).
Defined.

(** The size classes' statistics are exact: per class the number of slabs, of
    slots and of free slots, and the bytes of the slots handed out, none of them
    wrapped. *)
Theorem slab_get_stats_correct {S : Type} {O : BlockOps S} (hhdm : Z) {Laws : BlockLaws S hhdm}
    {Lay : SlabLayout} st (s : S) m G LG i gs :
  slab_rep hhdm st s m G LG → G !! i = Some gs →
  slab_get_stats st !! i = Some {| st_obj_size := csize i; st_slab_count := Z.of_nat (length gs);
    st_total_slots := Z.of_nat (length gs) * nslots i; st_free_slots := gs_free gs;
    st_bytes_in_use := in_use i gs * csize i |}.
Proof.
  intros R Hi. destruct (rep_cache hhdm st s m G LG i gs R Hi) as (_ & c & Hc & _).
  unfold slab_get_stats. rewrite list_lookup_fmap, Hc. cbn [fmap option_fmap option_map].
  f_equal. by eapply class_stats_returns.
Qed.

Lemma slab_get_stats_correct_witness :
  ∃ st bs m G LG gs, slab_rep (S := buddy_state) demo.hhdm st bs m G LG ∧ G !! 3%nat = Some gs ∧
    st_obj_size <$> (slab_get_stats st !! 3%nat) = Some 128.
Proof.
  destruct slab_demo.first_object as (bs0 & m0 & st & bs & m & r & n & G & LG & _ & _ & _ & R & _).
  destruct (lookup_lt_is_Some_2 G 3%nat) as [gs Hgs]; [rewrite (sr_classes _ _ _ _ _ _ R); unfold classes; lia|].
  exists st, bs, m, G, LG, gs. split; [exact R|split; [exact Hgs|]].
  rewrite (slab_get_stats_correct demo.hhdm st bs m G LG 3 gs R Hgs). reflexivity.
Defined.

(** kmalloc_usable_size.  For a live object out of a size class it is the
    size of its slot; for a large one it is the size of the whole block, which
    is 16 bytes more than what lies behind the returned pointer. *)
Theorem kmalloc_usable_size_correct {S : Type} {O : BlockOps S} (hhdm : Z) {Laws : BlockLaws S hhdm}
    {Lay : SlabLayout} st (s : S) m G LG a n :
  slab_rep hhdm st s m G LG → live hhdm G LG a n →
  ∃ z, kmalloc_usable_size st m a = Ok z ∧
    ((z = n ∧ ∃ i, (i < classes)%nat ∧ n = csize i) ∨ (z = n + 16 ∧ ∃ o : nat, z = bsize o)).
Proof.
  intros R Hl. destruct (returns_inv _ _ (usable_returns hhdm st s m G LG a n R Hl)) as (z & Hz & Hs).
  exists z. split; [exact Hz|]. destruct Hs as [[? ?]|[(o & ->) ->]]; [by left|right].
  split; [done|]. exists o. lia.
Qed.

Lemma kmalloc_usable_size_correct_witness :
  ∃ st (bs : buddy_state) m r z, kmalloc_usable_size st m r = Ok z ∧ 100 ≤ z.
Proof.
  destruct slab_demo.first_object as (bs0 & m0 & st & bs & m & r & n & G & LG & _ & _ & _ & R & Hl & Hn & _).
  destruct (kmalloc_usable_size_correct demo.hhdm st bs m G LG r n R Hl) as (z & Hz & Hs).
  exists st, bs, m, r, z. split; [exact Hz|]. destruct Hs as [[-> _]|[-> _]]; lia.
Defined.

(** C36. A request within 16 bytes of 2^64 wraps: [data_off + size] comes to a few
    bytes, so kmalloc hands out an object of 4080 bytes instead of refusing. *)
Theorem kmalloc_wraps {S : Type} {O : BlockOps S} (hhdm : Z) {Laws : BlockLaws S hhdm}
    {Lay : SlabLayout} st (s : S) m G LG size s1 m1 p :
  slab_rep hhdm st s m G LG → 2 ^ 64 - 16 ≤ size < 2 ^ 64 →
  block_alloc s m 0 = Ok (s1, m1, p) → p ≠ 0 →
  ∃ st' s' m' r LG', kmalloc st s m size = Ok (st', s', m', r) ∧ r ≠ 0 ∧
    slab_rep hhdm st' s' m' G LG' ∧ live hhdm G LG' r 4080.
Proof.
  intros R Hsize Hal Hp.
  rewrite kmalloc_large by lia. pose proof (header_wraps size Hsize) as Hw.
  pose proof (large_block_returns hhdm st s m G LG size R) as Hr. rewrite Hw in Hr.
  destruct (returns_inv _ _ (Hr ltac:(lia))) as ([[[st' s'] m'] r] & Hrun & o & (Ho & _ & Hmin) & Hs).
  assert (o = 0) as ->.
  { destruct (decide (0 < o)) as [Hpos|]; [|lia]. specialize (Hmin Hpos). pose proof (pow2_pos (o - 1)). lia. }
  destruct Hs as [(_ & _ & _ & _ & Hoom)|(LG' & R' & Hpos & Hf & _)]; [congruence|].
  exists st', s', m', r, LG'. split; [done|split; [lia|split; [done|]]].
  apply (fr_live _ _ _ _ _ _ _ Hf). by right.
Qed.

Lemma kmalloc_wraps_witness :
  ∃ st (bs : buddy_state) m st' bs' m' r G LG, kmalloc st bs m (2 ^ 64 - 1) = Ok (st', bs', m', r) ∧
    r ≠ 0 ∧ live demo.hhdm G LG r 4080.
Proof.
  destruct slab_demo.heap_start as (bs & m & R & bs1 & m1 & p & Hal & Hp).
  destruct (kmalloc_wraps demo.hhdm _ bs m _ _ (2 ^ 64 - 1) bs1 m1 p R ltac:(lia) Hal Hp)
    as (st' & bs' & m' & r & LG' & Hrun & Hr & _ & Hl).
  exists (slab_init demo.hhdm), bs, m, st', bs', m', r, (replicate classes []), LG'.
  split; [exact Hrun|split; [exact Hr|exact Hl]].
Defined.

(** C35. Which requests terminate.  On a well-formed heap kmalloc returns, with the heap
    well-formed, for every 64-bit size but those above 2^63 - 16 and below 2^64 - 16: there
    the search for an order never meets its bound, and ends in a shift by 64, which is
    undefined. *)
Theorem kmalloc_terminates {S : Type} {O : BlockOps S} (hhdm : Z) {Laws : BlockLaws S hhdm}
    {Lay : SlabLayout} st (s : S) m G LG size :
  slab_rep hhdm st s m G LG → 0 ≤ size < 2 ^ 64 →
  if decide (2 ^ 63 - 16 < size < 2 ^ 64 - 16) then kmalloc st s m size = Fault else
  returns (kmalloc st s m size) (λ '(st', s', m', _), ∃ G' LG', slab_rep hhdm st' s' m' G' LG').
Proof.
  intros R Hsize. destruct (decide _) as [Hin|Hout]; [by apply kmalloc_runs_away|].
  destruct (decide (size ≤ 2 ^ 63 - 16)) as [Hle|Hgt].
  - eapply returns_mono; [eapply kmalloc_returns; [exact R|lia]|].
    intros [[[st' s'] m'] r] [(_ & -> & -> & -> & _)|(G' & LG' & n & R' & _)]; [by exists G, LG|by exists G', LG'].
  - rewrite kmalloc_large by lia. pose proof (header_wraps size ltac:(lia)) as Hw.
    eapply returns_mono; [eapply large_block_returns; [exact R|rewrite Hw; lia]|].
    intros [[[st' s'] m'] r] (o & _ & [(_ & -> & -> & -> & _)|(LG' & R' & _)]); [by exists G, LG|by exists G, LG'].
Qed.

Lemma kmalloc_terminates_witness :
  ∃ st (bs : buddy_state) m st' bs' m' r, kmalloc st bs m (2 ^ 64 - 2) = Ok (st', bs', m', r) ∧ kmalloc st bs m (2 ^ 63) = Fault.
Proof.
  destruct slab_demo.heap_start as (bs & m & R & _). exists (slab_init demo.hhdm), bs, m.
  pose proof (kmalloc_terminates demo.hhdm _ bs m _ _ (2 ^ 64 - 2) R ltac:(lia)) as H1. rewrite decide_False in H1 by lia.
  pose proof (kmalloc_terminates demo.hhdm _ bs m _ _ (2 ^ 63) R ltac:(lia)) as H2. rewrite decide_True in H2 by lia.
  destruct (returns_inv _ _ H1) as ([[[st' bs'] m'] r] & Hrun & _). exists st', bs', m', r. split; [exact Hrun|exact H2].
Defined.
