(* ===== verification/Heap.v ===== *)
(** The interface between the heap and its clients.

    kernel/core/sched/sched.c allocates with [kmalloc] and [kfree] and relies on
    nothing else of the memory stack.  [HeapOps] is the pair of calls, [HeapLaws]
    what a client may rely on.  The slab allocator provides it, over any block
    allocator; a bump allocator, which never reuses memory, provides it as well. *)

From stdpp Require Import base list gmap sets.
From Stdlib Require Import ZArith Lia.
From S2P Require Import Prelude.
From S2P Require Import Mem.
From S2P Require Import Blocks.
From S2P Require Import BlockAlloc.
From S2P Require Import Slab.

#[local] Coercion Z.of_nat : nat >-> Z.

(** * Regions of memory *)

(** Address and length. *)
Abbreviation region := (Z * Z)%type.

Definition in_region (r : region) : Z → Prop := range r.1 r.2.

Definition in_regions (A : list region) : Z → Prop := λ x, ∃ r, r ∈ A ∧ in_region r x.

(** No two regions of the list share a byte. *)
Fixpoint apart_all (A : list region) : Prop :=
  match A with
  | [] => True
  | r :: A => (∀ x, in_region r x → ¬ in_regions A x) ∧ apart_all A
  end.

Lemma in_regions_app A B x : in_regions (A ++ B) x ↔ in_regions A x ∨ in_regions B x.
Proof. unfold in_regions. setoid_rewrite elem_of_app. naive_solver. Qed.

Lemma in_regions_cons r A x : in_regions (r :: A) x ↔ in_region r x ∨ in_regions A x.
Proof. unfold in_regions. setoid_rewrite elem_of_cons. naive_solver. Qed.

Lemma apart_all_app A B :
  apart_all (A ++ B) ↔ apart_all A ∧ apart_all B ∧ ∀ x, in_regions A x → ¬ in_regions B x.
Proof.
  induction A as [|r A IH]; cbn.
  { split; [intros ?; split; [done|split; [done|]]|tauto]. by intros x (? & ?%elem_of_nil & _). }
  rewrite IH. setoid_rewrite in_regions_app. setoid_rewrite in_regions_cons. naive_solver.
Qed.

#[export] Instance in_regions_proper : Proper ((≡ₚ) ==> eq ==> iff) in_regions.
Proof. intros A B HAB x ? <-. unfold in_regions. by setoid_rewrite HAB. Qed.

#[export] Instance apart_all_proper : Proper ((≡ₚ) ==> iff) apart_all.
Proof.
  intros A B. induction 1 as [|r A B HP IH|r r' A|A B C _ IH1 _ IH2]; cbn; [done| | |by rewrite IH1].
  - rewrite IH. by setoid_rewrite HP.
  - setoid_rewrite in_regions_cons. naive_solver.
Qed.

(** * The calls *)

Class HeapOps (H : Type) := {
  heap_alloc : H → mem → Z → outcome (H * mem * Z);
  heap_free : H → mem → Z → outcome (H * mem);
}.

(** * What they promise *)

Class HeapLaws (H : Type) `{!HeapOps H} := {
  (** The memory the heap manages, its own data included. *)
  heap_zone : Z → Prop;
  (** The heap is well-formed in this memory, the objects [A] are out, each with
      the size its owner asked for. *)
  heap_inv : H → mem → list region → Prop;
  heap_inv_object h m A a n :
    heap_inv h m A → (a, n) ∈ A → 0 < a ∧ a mod 16 = 0 ∧ a + n ≤ 2 ^ 64 ∧ backed m a n;
  heap_inv_zone h m A : heap_inv h m A → ∀ x, in_regions A x → heap_zone x;
  heap_inv_apart h m A : heap_inv h m A → apart_all A;
  heap_inv_perm h m A A' : A ≡ₚ A' → heap_inv h m A → heap_inv h m A';
  (** Owners may write to their objects, anyone outside the zone. *)
  heap_inv_mods h m m' A P :
    heap_inv h m A → mods P m m' → (∀ x, P x → in_regions A x ∨ ¬ heap_zone x) → heap_inv h m' A;
  heap_alloc_law h m A size :
    heap_inv h m A → 0 ≤ size ≤ 2 ^ 63 - 16 →
    returns (heap_alloc h m size) (λ '(h', m', r),
      (r = 0 ∧ h' = h ∧ m' = m) ∨
      r ≠ 0 ∧ heap_inv h' m' ((r, size) :: A) ∧ mods (λ x, heap_zone x ∧ ¬ in_regions A x) m m');
  heap_free_law h m A a n :
    heap_inv h m ((a, n) :: A) →
    returns (heap_free h m a) (λ '(h', m'),
      heap_inv h' m' A ∧ mods (λ x, heap_zone x ∧ ¬ in_regions A x) m m');
}.

(** * The slab allocator provides it *)

#[export] Instance slab_heap {S : Type} `{!BlockOps S} {Lay : SlabLayout} : HeapOps (slab_state * S) := {
  heap_alloc h m size := '(st, s, m, r) ← kmalloc h.1 h.2 m size; Ok ((st, s), m, r);
  heap_free h m a := '(st, s, m) ← kfree h.1 h.2 m a; Ok ((st, s), m);
}.

Section slab_laws.
Context {S : Type} (hhdm : Z) `{!BlockOps S, !BlockLaws S hhdm} {Lay : SlabLayout}.

Definition heap_world (h : slab_state * S) m (A : list region) : slab_world :=
  {| sw_st := h.1; sw_s := h.2; sw_mem := m; sw_live := A |}.

Definition slab_heap_inv (h : slab_state * S) m (A : list region) : Prop :=
  slab_inv hhdm (heap_world h m A).

(** A byte of an object that is out lies in a live object. *)
Lemma in_live G LG (A : list region) x :
  (∀ a size, (a, size) ∈ A → ∃ n, live hhdm G LG a n ∧ size ≤ n) →
  in_regions A x → ∃ a n, live hhdm G LG a n ∧ range a n x.
Proof.
  intros Hin ([a size] & Ha & Hx). destruct (Hin a size Ha) as (n & Hl & Hle). exists a, n.
  split; [done|]. unfold in_region, range in *. cbn in Hx. lia.
Qed.

Lemma live_apart_all st (s : S) m G LG A :
  slab_rep hhdm st s m G LG → NoDup (fst <$> A) →
  (∀ a size, (a, size) ∈ A → ∃ n, live hhdm G LG a n ∧ size ≤ n) → apart_all A.
Proof.
  intros R. induction A as [|[a n] A IH]; cbn; [done|]. intros [Ha Hnd]%NoDup_cons Hin. split.
  - intros x Hx ([b k] & Hb & Hbx). assert (a ≠ b) as Hne.
    { intros ->. apply Ha. by apply (list_elem_of_fmap_2 fst _ (b, k)). }
    destruct (Hin a n) as (n' & Hl & ?); [by left|]. destruct (Hin b k) as (k' & Hl' & ?); [by right|].
    apply (live_apart hhdm st s m G LG a n' b k' x R Hl Hl' Hne);
      unfold in_region, range in *; cbn [fst snd] in *; lia.
  - apply IH; [done|]. intros b k Hb. apply Hin. by right.
Qed.

Lemma live_zone st (s : S) m G LG a n x :
  slab_rep hhdm st s m G LG → live hhdm G LG a n → range a n x → block_zone x.
Proof.
  intros R Hl Hx. destruct (live_bytes hhdm _ _ _ _ _ _ _ _ R Hl Hx) as [(b & Hb & Hbx) _].
  eapply (block_inv_zone (hhdm := hhdm)); [apply R|exact Hb|exact Hbx].
Qed.

Lemma off_live_weaken G LG m m' A :
  off_live hhdm G LG m m' → (∀ a size, (a, size) ∈ A → ∃ n, live hhdm G LG a n ∧ size ≤ n) →
  mods (λ x, block_zone x ∧ ¬ in_regions A x) m m'.
Proof.
  intros Hm Hin. eapply mods_weaken; [exact Hm|]. intros x [Hz Hx]. split; [done|].
  intros (a & n & Hl & Hax)%(in_live G LG); [|done]. by apply (Hx a n).
Qed.

Lemma slab_heap_alloc h m A size :
  slab_heap_inv h m A → 0 ≤ size ≤ 2 ^ 63 - 16 →
  returns (heap_alloc h m size) (λ '(h', m', r),
    (r = 0 ∧ h' = h ∧ m' = m) ∨
    r ≠ 0 ∧ slab_heap_inv h' m' ((r, size) :: A) ∧ mods (λ x, block_zone x ∧ ¬ in_regions A x) m m').
Proof.
  intros Hinv Hsz. pose proof Hinv as (G & LG & R & Hnd & Hin & _). cbn in R, Hin. destruct h as [st s].
  destruct (returns_inv _ _ (kmalloc_returns hhdm st s m G LG size R Hsz))
    as ([[[st' s'] m'] r] & Hrun & Hs). cbn [heap_alloc slab_heap fst snd]. rewrite Hrun. cbn.
  destruct Hs as [(-> & -> & -> & -> & _)|(G' & LG' & n & R' & Hr & _ & _ & Hoff)]; [by left|right].
  split; [lia|]. split; [|by eapply off_live_weaken].
  apply (slab_inv_step hhdm _ _ Hinv), (sstep_malloc (heap_world (st, s) m A)); [done|exact Hrun|lia].
Qed.

Lemma slab_heap_free h m A a n :
  slab_heap_inv h m ((a, n) :: A) →
  returns (heap_free h m a) (λ '(h', m'),
    slab_heap_inv h' m' A ∧ mods (λ x, block_zone x ∧ ¬ in_regions A x) m m').
Proof.
  intros Hinv. pose proof Hinv as (G & LG & R & Hnd & Hin & _). cbn in R, Hnd, Hin. destruct h as [st s].
  destruct (Hin a n) as (n' & Hl & _); [by left|].
  destruct (returns_inv _ _ (kfree_returns hhdm st s m G LG a n' R Hl))
    as ([[st' s'] m'] & Hrun & G' & LG' & _ & Hlive & Hoff). cbn [heap_free slab_heap fst snd]. rewrite Hrun. cbn.
  split.
  - apply (slab_inv_step hhdm _ _ Hinv), (sstep_free (heap_world (st, s) m ((a, n) :: A)) _ _ _ a n [] A); done.
  - eapply off_live_weaken; [exact Hoff|]. intros b k Hb. destruct (Hin b k) as (k' & Hlb & ?); [by right|].
    exists k'. split; [|done]. apply Hlive. split; [done|]. intros ->.
    apply NoDup_cons in Hnd as [Hna _]. apply Hna. by apply (list_elem_of_fmap_2 fst _ (a, k)).
Qed.

#[export] Program Instance slab_heap_laws : HeapLaws (slab_state * S) := {
  heap_zone := block_zone;
  heap_inv := slab_heap_inv;
  heap_alloc_law := slab_heap_alloc;
  heap_free_law := slab_heap_free;
}.
Next Obligation.
  intros h m A a n (G & LG & R & _ & Hin & _) Ha. destruct (Hin a n Ha) as (n' & Hl & Hle).
  destruct (live_ok hhdm _ _ _ _ _ _ _ R Hl) as (? & ? & ? & Hb). split; [done|split; [done|split; [lia|]]].
  eapply backed_sub; [exact Hb|lia..].
Qed.
Next Obligation.
  intros h m A (G & LG & R & _ & Hin & _) x Hx. destruct (in_live G LG A x Hin Hx) as (a & n & Hl & Hax).
  by eapply live_zone.
Qed.
Next Obligation. intros h m A (G & LG & R & Hnd & Hin & _). by eapply live_apart_all. Qed.
Next Obligation.
  intros h m A A' HP (G & LG & R & Hnd & Hin & Hall). exists G, LG. cbn in *. split; [done|].
  split; [by rewrite <- HP|]. split; setoid_rewrite <- HP; done.
Qed.
Next Obligation.
  intros h m m' A P (G & LG & R & Hnd & Hin & Hall) Hm HP. exists G, LG. cbn in *. split; [|done].
  eapply slab_rep_mods; [exact R|exact Hm|]. intros x Hx. destruct (HP x Hx) as [Hreg|Hout].
  - destruct (in_live G LG A x Hin Hreg) as (a & n & Hl & Hax).
    destruct (live_bytes hhdm _ _ _ _ _ _ _ _ R Hl Hax). split; [by left|done].
  - split; [by right|]. intros Hbk. apply Hout.
    destruct (bookkeeping_bytes hhdm _ _ _ _ _ _ R Hbk) as (b & Hb & Hbx).
    eapply (block_inv_zone (hhdm := hhdm)); [apply R|exact Hb|exact Hbx].
Qed.
End slab_laws.

(** * A bump allocator provides it *)

Module bump.
Section bump.
Context (lo hi : Z).

(** The next free address. *)
Definition bump_alloc (next : Z) (m : mem) size : outcome (Z * mem * Z) :=
  if (0 <? size) && (next + (size + 15) / 16 * 16 <=? hi)
  then Ok (next + (size + 15) / 16 * 16, m, next) else Ok (next, m, 0).

Definition bump_ops : HeapOps Z := {|
  heap_alloc := bump_alloc;
  heap_free next m a := Ok (next, m);
|}.

Record bump_inv (next : Z) (m : mem) (A : list region) : Prop := {
  bi_next : lo ≤ next ≤ hi ∧ next mod 16 = 0;
  bi_backed : 0 < lo ∧ hi ≤ 2 ^ 64 ∧ backed m lo (hi - lo);
  bi_objects : ∀ a n, (a, n) ∈ A → lo ≤ a ∧ a + n ≤ next ∧ a mod 16 = 0;
  bi_apart : apart_all A;
}.

#[local] Existing Instance bump_ops.
#[program] Definition bump_laws : HeapLaws Z := {|
  heap_zone := range lo (hi - lo);
  heap_inv := bump_inv;
|}.
Next Obligation.
  intros next m A a n [] Ha. destruct (bi_objects0 a n Ha) as (? & ? & ?).
  split; [lia|split; [done|split; [lia|]]]. eapply backed_sub; [apply bi_backed0|lia..].
Qed.
Next Obligation.
  intros next m A [] x ([a n] & Ha & Hx). destruct (bi_objects0 a n Ha) as (? & ? & ?).
  unfold in_region, range in *. cbn in Hx. lia.
Qed.
Next Obligation. by intros next m A []. Qed.
Next Obligation.
  intros next m A A' HP []. split; [done|done| |by rewrite <- HP]. intros a n. rewrite <- HP. apply bi_objects0.
Qed.
Next Obligation.
  intros next m m' A P [] Hm _. split; [done| |done|done]. destruct bi_backed0 as (? & ? & ?).
  split; [done|split; [done|]]. by eapply mods_backed.
Qed.
Next Obligation.
  intros next m A size [] Hsz. cbn. unfold bump_alloc.
  destruct (Z.ltb_spec 0 size); [|by left]. destruct (Z.leb_spec (next + (size + 15) / 16 * 16) hi) as [Hle|]; [|by left].
  right. destruct bi_backed0 as (? & ? & ?), bi_next0 as [? ?]. assert (size ≤ (size + 15) / 16 * 16) by div_lia.
  split; [lia|split; [|done]]. split; [|done| |].
  - split; [lia|]. by rewrite Z_mod_plus_full.
  - intros a n [[= -> ->]|Ha]%elem_of_cons; [lia|]. specialize (bi_objects0 a n Ha). lia.
  - split; [|done]. intros x Hx ([a n] & Ha & Hax). specialize (bi_objects0 a n Ha).
    unfold in_region, range in *. cbn in *. lia.
Qed.
Next Obligation.
  intros next m A a n []. cbn. split; [|done]. split; [done|done| |by destruct bi_apart0].
  intros b k Hb. apply bi_objects0. by right.
Qed.
End bump.
End bump.
