(* ===== verification/Sched.v ===== *)
(** kernel/core/sched/sched.c, task.h and kernel/arch/x86_64/context.asm: the
    cooperative scheduler.

    The model is at the level of the machine: a task is a node in memory (struct
    task) and a stack in memory, the running task is in the CPU's registers, and
    [context_switch] executes the pushes, the two moves and the pops of
    context.asm.  What it refines is the usual picture of threads: a queue of
    suspended contexts, of which yielding moves the first into the CPU and puts
    the CPU's at the end. *)

From stdpp Require Import base list gmap sets.
From Stdlib Require Import ZArith Lia.
From S2P Require Import Prelude.
From S2P Require Import Mem.
From S2P Require Import Stack.
From S2P Require Import Heap.

#[local] Coercion Z.of_nat : nat >-> Z.

(** * The code *)

(** KERNEL_STACK_SIZE, enum task_state, and the layout of struct task. *)
Definition KERNEL_STACK_SIZE : Z := 16384.

Definition TASK_READY : Z := 0.
Definition TASK_RUNNING : Z := 1.

Definition task_rsp (t : Z) : Z := t.
Definition task_stack_base (t : Z) : Z := t + 8.
Definition task_id (t : Z) : Z := t + 16.
Definition task_state (t : Z) : Z := t + 20.
Definition task_next (t : Z) : Z := t + 24.
Definition sizeof_task : Z := 32.

(** What a flow of control is when it calls or returns: where it is, its stack
    pointer and the registers the System V ABI makes the callee save.  The other
    registers are the caller's to save, so no C code sees them survive. *)
Record context := {
  rip : Z; rsp : Z;
  rbx : Z; rbp : Z; r12 : Z; r13 : Z; r14 : Z; r15 : Z;
}.

(** The return address is on top of the stack when [context_switch] starts. *)
Definition context_switch (m : mem) (r : context) (old_rsp new_rsp : Z) : outcome (mem * context) :=
  '(m, sp) ← push m (rsp r) (rbp r);
  '(m, sp) ← push m sp (rbx r);
  '(m, sp) ← push m sp (r12 r);
  '(m, sp) ← push m sp (r13 r);
  '(m, sp) ← push m sp (r14 r);
  '(m, sp) ← push m sp (r15 r);
  m ← store64 m old_rsp sp;
  let sp := new_rsp in
  '(r15, sp) ← pop m sp;
  '(r14, sp) ← pop m sp;
  '(r13, sp) ← pop m sp;
  '(r12, sp) ← pop m sp;
  '(rbx, sp) ← pop m sp;
  '(rbp, sp) ← pop m sp;
  '(rip, sp) ← pop m sp;
  Ok (m, {| rip := rip; rsp := sp; rbx := rbx; rbp := rbp; r12 := r12; r13 := r13; r14 := r14; r15 := r15 |}).

(** The context that a call suspends: it will go on at the return address. *)
Definition suspended (r : context) (ret : Z) : context :=
  {| rip := ret; rsp := rsp r; rbx := rbx r; rbp := rbp r;
     r12 := r12 r; r13 := r13 r; r14 := r14 r; r15 := r15 r |}.

(** Where [task_trampoline] is linked. *)
Class SchedText := task_trampoline : Z.

Section code.
Context {H : Type} `{!HeapOps H, !SchedText}.

(** The scheduler's two static variables, and the state it works on: the heap,
    the memory and the registers of the CPU. *)
Record sched := { current : Z; next_id : Z; heap : H; ram : mem; regs : context }.

Implicit Types (σ : sched).

Definition set_heap σ (h : H) m : sched :=
  {| current := current σ; next_id := next_id σ; heap := h; ram := m; regs := regs σ |}.

(** The four stores both [sched_init] and [task_create] fill a node with; [id] is
    [next_id++]. *)
Definition fill_task (m : mem) (t sp stack id state : Z) : outcome mem :=
  m ← store64 m (task_rsp t) sp;
  m ← store64 m (task_stack_base t) stack;
  m ← store32 m (task_id t) id;
  store32 m (task_state t) state.

Definition sched_init σ : outcome sched :=
  '(h, m, t) ← heap_alloc (heap σ) (ram σ) sizeof_task;
  m ← fill_task m t 0 0 (next_id σ) TASK_RUNNING;
  let next_id := u32 (next_id σ + 1) in
  m ← store64 m (task_next t) t;
  Ok {| current := t; next_id := next_id; heap := h; ram := m; regs := regs σ |}.

(** [task_create]: the forged stack, ... *)
Definition forge_stack (m : mem) (stack entry : Z) : outcome (mem * Z) :=
  let top := u64 (stack + KERNEL_STACK_SIZE) in
  let top := Z.land top (u64 (Z.lnot 0xF)) in
  '(m, sp) ← push m top task_trampoline;
  '(m, sp) ← push m sp entry;
  '(m, sp) ← push m sp 0;
  '(m, sp) ← push m sp 0;
  '(m, sp) ← push m sp 0;
  '(m, sp) ← push m sp 0;
  '(m, sp) ← push m sp 0;
  push m sp 0.

(** ... the walk to the tail of the ring, ... *)
Definition find_tail (m : mem) (current : Z) : outcome Z :=
  loop (λ tail, next ← load64 m (task_next tail);
                if next =? current then Ok (inr tail) else Ok (inl next)) current.

(** ... what it writes once it has the node [t] and the stack, ... *)
Definition place_task σ (m : mem) (t stack entry : Z) : outcome mem :=
  '(m, sp) ← forge_stack m stack entry;
  m ← fill_task m t sp stack (next_id σ) TASK_READY;
  tail ← find_tail m (current σ);
  m ← store64 m (task_next tail) t;
  store64 m (task_next t) (current σ).

(** ... and the whole. *)
Definition task_create σ (entry : Z) : outcome (sched * Z) :=
  '(h, m, t) ← heap_alloc (heap σ) (ram σ) sizeof_task;
  if t =? 0 then Ok (set_heap σ h m, 0) else
  '(h, m, stack) ← heap_alloc h m KERNEL_STACK_SIZE;
  if stack =? 0 then '(h, m) ← heap_free h m t; Ok (set_heap σ h m, 0) else
  m ← place_task σ m t stack entry;
  Ok ({| current := current σ; next_id := u32 (next_id σ + 1); heap := h; ram := m; regs := regs σ |}, t).

(** [sched_yield], called with the registers [regs σ]; [ret] is the return
    address its call of [context_switch] pushes. *)
Definition sched_yield σ (ret : Z) : outcome sched :=
  let prev := current σ in
  next ← load64 (ram σ) (task_next prev);
  if next =? prev then Ok σ else
  m ← store32 (ram σ) (task_state prev) TASK_READY;
  m ← store32 m (task_state next) TASK_RUNNING;
  new_rsp ← load64 m (task_rsp next);
  let r := regs σ in
  '(m, sp) ← push m (rsp r) ret;
  '(m, r) ← context_switch m
     {| rip := rip r; rsp := sp; rbx := rbx r; rbp := rbp r; r12 := r12 r; r13 := r13 r; r14 := r14 r; r15 := r15 r |}
     (task_rsp prev) new_rsp;
  Ok {| current := next; next_id := next_id σ; heap := heap σ; ram := m; regs := r |}.

(** The [ret] of a task's entry function. *)
Definition entry_return σ : outcome sched :=
  let r := regs σ in
  '(rip, sp) ← pop (ram σ) (rsp r);
  Ok {| current := current σ; next_id := next_id σ; heap := heap σ; ram := ram σ;
        regs := {| rip := rip; rsp := sp; rbx := rbx r; rbp := rbp r; r12 := r12 r; r13 := r13 r; r14 := r14 r; r15 := r15 r |} |}.

(** [task_trampoline].  The flow is in the loop when it enters the function, and
    again whenever its call is done: at [ret], after the call of [context_switch] with
    which [sched_yield] ends.  From both points the next thing is the call; where no
    switch happens it is done at once. *)
Definition trampoline_step σ (ret : Z) : outcome sched :=
  if (rip (regs σ) =? task_trampoline) || (rip (regs σ) =? ret) then
    σ' ← sched_yield σ ret;
    if current σ' =? current σ then
      Ok {| current := current σ'; next_id := next_id σ'; heap := heap σ'; ram := ram σ';
            regs := suspended (regs σ') ret |}
    else Ok σ'
  else Fault.
End code.
Arguments sched : clear implicits.


(** * Contexts *)

Definition context_words (c : context) : list Z :=
  [rip c; rsp c; rbx c; rbp c; r12 c; r13 c; r14 c; r15 c].

(** The registers hold 64-bit values. *)
Definition context_ok (c : context) : Prop := Forall (λ v, 0 ≤ v < 2 ^ 64) (context_words c).

(** What a suspended context leaves on its stack, below its stack pointer. *)
Definition frame (c : context) : list Z :=
  [r15 c; r14 c; r13 c; r12 c; rbx c; rbp c; rip c].

(** [context_switch] suspends the context in the CPU and resumes the one saved at
    [new]. *)
Lemma context_switch_returns m r ret old new c' :
  context_ok r → 0 ≤ ret < 2 ^ 64 →
  56 ≤ rsp r → backed m (rsp r - 56) 56 →
  backed m old 8 → (∀ x, range old 8 x → ¬ range (rsp r - 56) 56 x) →
  words m new (frame c') → rsp c' = new + 56 → 0 ≤ new → new + 56 < 2 ^ 64 →
  (∀ x, range new 56 x → ¬ range (rsp r - 56) 56 x ∧ ¬ range old 8 x) →
  returns ('(m, sp) ← push m (rsp r) ret;
           context_switch m {| rip := rip r; rsp := sp; rbx := rbx r; rbp := rbp r;
             r12 := r12 r; r13 := r13 r; r14 := r14 r; r15 := r15 r |} old new)
    (λ '(m', c), c = c' ∧ words m' (rsp r - 56) (frame (suspended r ret)) ∧
       load64 m' old = Ok (rsp r - 56) ∧
       mods (λ x, range (rsp r - 56) 56 x ∨ range old 8 x) m m').
Proof.
  intros Hr Hret Hroom Hb Hold Hoap Hnew Hsp Hn0 Hn Hnap.
  unfold context_ok, context_words in Hr. rewrite !Forall_cons in Hr.
  destruct Hr as (_ & Hrsp & Hrbx & Hrbp & H12 & H13 & H14 & H15 & _).
  pose proof (pushed_nil m (rsp r) Hrsp) as Hpu. unfold context_switch.
  push_step Hpu 56 Hb. cbn [rip rsp rbx rbp r12 r13 r14 r15].
  do 6 push_step Hpu 56 Hb.
  destruct Hpu as [-> Hws Hm]. cbn [length] in Hws, Hm. change (8 * 7%nat) with 56 in *.
  match goal with |- context [u64 ?x] => replace x with (rsp r - 56) by done end. rewrite u64_id by lia.
  ret_step store64_returns; [by eapply mods_backed|lia|]. intros m1 [Hm1 Hv].
  assert (words m1 new (frame c')) as Hnew1.
  { eapply words_mods; [exact Hm1| |]. { intros x Hx. apply Hnap. exact Hx. }
    eapply words_mods; [exact Hm| |exact Hnew]. intros x Hx. apply Hnap. exact Hx. }
  cbv zeta. unfold frame in Hnew1.
  do 7 (apply pop_words in Hnew1 as [Hpop Hnew1]; [rewrite Hpop, bind_ok; clear Hpop|lia..]).
  cbn [returns]. split; [|split; [|split; [done|]]].
  - destruct c'. cbn [rip rsp rbx rbp r12 r13 r14 r15] in *. f_equal. lia.
  - eapply words_mods; [exact Hm1| |exact Hws]. intros x Hx Hox. by apply (Hoap x).
  - eapply mods_trans; eapply mods_weaken; [exact Hm| |exact Hm1|]; tauto.
Qed.

(** * The abstract scheduler *)

(** A thread: its node, its id, the stack it owns ([th_base] is 0 for the thread
    that was running at boot, on a stack the scheduler does not own), and, while
    it is suspended, its context and the memory of its stack then. *)
Record thread := { th_node : Z; th_id : Z; th_base : Z; th_ctx : context; th_snap : mem }.

(** Yielding puts the running thread at the end of the queue. *)
Definition suspend (t : thread) (c : context) (m : mem) : thread :=
  {| th_node := th_node t; th_id := th_id t; th_base := th_base t; th_ctx := c; th_snap := m |}.

(** The node [n] and those of [l] are linked in a ring: each to the next, the
    last to [z]. *)
Fixpoint links (m : mem) (l : list Z) (z : Z) : Prop :=
  match l with
  | [] => True
  | t :: l => load64 m (task_next t) = Ok (hd z l) ∧ links m l z
  end.

Lemma links_app m l1 l2 z : links m (l1 ++ l2) z ↔ links m l1 (hd z l2) ∧ links m l2 z.
Proof.
  induction l1 as [|t l1 IH]; cbn; [tauto|]. rewrite IH.
  assert (hd z (l1 ++ l2) = hd (hd z l2) l1) as -> by by destruct l1. tauto.
Qed.

(** A ring reads the same from the next node on. *)
Lemma links_rotate m t l : links m (t :: l) t ↔ links m (l ++ [t]) (hd t l).
Proof. rewrite links_app. cbn. destruct l; cbn; tauto. Qed.

Lemma links_mods P m m' l z :
  mods P m m' → (∀ t x, t ∈ l → range (task_next t) 8 x → ¬ P x) → links m l z → links m' l z.
Proof.
  intros Hm. revert z. induction l as [|t l IH]; intros z HP; cbn; [done|]. intros [Ht Hl]. split.
  - eapply load64_keep; [exact Hm|done|]. intros x. apply HP. by left.
  - apply IH; [|done]. intros u x Hu. apply HP. by right.
Qed.

Section proofs.
Context {H : Type} `{!HeapOps H, !HeapLaws H, !SchedText}.
(** The stack the boot flow runs on. *)
Context (boot : region).

Implicit Types (σ : sched H) (t u : thread) (ts : list thread) (A : list region) (m : mem) (P : Z → Prop).

Definition node_region t : region := (th_node t, sizeof_task).
Definition stack_of t : region :=
  if th_base t =? 0 then boot else (th_base t, KERNEL_STACK_SIZE).

(** What a thread keeps in memory; of that, the objects of the heap. *)
Definition footprint t : list region := [node_region t; stack_of t].
Definition objects t : list region :=
  node_region t :: if th_base t =? 0 then [] else [stack_of t].

(** The fields of the node that the scheduler sets once, and the state. *)
Record node_ok m t (state : Z) : Prop := {
  no_base : load64 m (task_stack_base (th_node t)) = Ok (th_base t);
  no_id : load32 m (task_id (th_node t)) = Ok (th_id t);
  no_state : load32 m (task_state (th_node t)) = Ok state;
}.

(** The stack pointer [sp] lies in the stack, with [n] bytes below it. *)
Definition in_stack t (n sp : Z) : Prop :=
  (stack_of t).1 + n ≤ sp ≤ (stack_of t).1 + (stack_of t).2 ∧ sp < 2 ^ 64.

(** A suspended thread can be resumed. *)
Record saved m t : Prop := {
  sa_sp : load64 m (task_rsp (th_node t)) = Ok (rsp (th_ctx t) - 56);
  sa_frame : words m (rsp (th_ctx t) - 56) (frame (th_ctx t));
  sa_stack : in_stack t 56 (rsp (th_ctx t));
  sa_ctx : context_ok (th_ctx t);
  sa_snap : ∀ x, rsp (th_ctx t) ≤ x < (stack_of t).1 + (stack_of t).2 → m !! x = th_snap t !! x;
}.

(** [rep σ cur ready A]: [cur] runs, [ready] is the queue of the others, the
    first to run next first; [A] is what others keep in the heap. *)
Record rep σ (cur : thread) (ready : list thread) A : Prop := {
  rq_heap : heap_inv (heap σ) (ram σ) (((cur :: ready) ≫= objects) ++ A);
  rq_boot : 0 ≤ boot.1 ∧ boot.1 + boot.2 ≤ 2 ^ 64 ∧ backed (ram σ) boot.1 boot.2 ∧
    ∀ x, in_region boot x → ¬ heap_zone x;
  rq_apart : apart_all ((cur :: ready) ≫= footprint);
  rq_ring : links (ram σ) (th_node <$> cur :: ready) (th_node cur);
  rq_current : current σ = th_node cur;
  rq_running : node_ok (ram σ) cur TASK_RUNNING;
  rq_ready : ∀ t, t ∈ ready → node_ok (ram σ) t TASK_READY ∧ saved (ram σ) t;
  rq_regs : context_ok (regs σ);
  rq_next_id : 0 ≤ next_id σ < 2 ^ 32;
}.

(** ** Footprints *)

Lemma objects_footprint t x : in_regions (objects t) x → in_regions (footprint t) x.
Proof.
  unfold objects, footprint. case_match; rewrite ?in_regions_cons; [|tauto].
  by intros [?|(? & ?%elem_of_nil & _)]; left.
Qed.

Lemma footprint_objects t x : in_regions (footprint t) x → in_regions (objects t) x ∨ in_region boot x.
Proof.
  unfold objects, footprint, stack_of. case_match; rewrite ?in_regions_cons; [|tauto].
  intros [?|[?|(? & ?%elem_of_nil & _)]]; tauto.
Qed.

Lemma in_regions_bind (f : thread → list region) ts x :
  in_regions (ts ≫= f) x ↔ ∃ t, t ∈ ts ∧ in_regions (f t) x.
Proof. unfold in_regions. setoid_rewrite list_elem_of_bind. naive_solver. Qed.

Lemma bind_snoc (f : thread → list region) ts t : (ts ++ [t]) ≫= f = (ts ≫= f) ++ f t.
Proof. rewrite bind_app. f_equal. apply app_nil_r. Qed.

Lemma node_in_footprint t x : range (th_node t) sizeof_task x → in_regions (footprint t) x.
Proof. intros. exists (node_region t). split; [by left|done]. Qed.

Lemma node_in_objects ts t x : t ∈ ts → range (th_node t) sizeof_task x → in_regions (ts ≫= objects) x.
Proof.
  intros Ht Hx. apply in_regions_bind. exists t. split; [done|]. exists (node_region t). split; [by left|done].
Qed.

Lemma stack_in_footprint t x : in_region (stack_of t) x → in_regions (footprint t) x.
Proof. intros. exists (stack_of t). split; [by right; left|done]. Qed.

Lemma stack_in_regions ts t x : t ∈ ts → in_region (stack_of t) x → in_regions (ts ≫= footprint) x.
Proof. intros Ht Hx. apply in_regions_bind. exists t. split; [done|by apply stack_in_footprint]. Qed.

Lemma in_stack_region t n sp x : in_stack t n sp → range (sp - n) n x → in_region (stack_of t) x.
Proof. unfold in_stack, in_region, range. lia. Qed.

(** Writes off a thread's footprint leave it alone. *)
Lemma node_ok_mods P m m' t st :
  mods P m m' → (∀ x, range (th_node t + 8) 16 x → ¬ P x) → node_ok m t st → node_ok m' t st.
Proof.
  intros Hm HP []. split; [eapply load64_keep|eapply load32_keep..]; try exact Hm; try done;
    intros x Hx; apply HP; unfold range, task_stack_base, task_id, task_state in *; lia.
Qed.

Lemma saved_mods P m m' t :
  mods P m m' → (∀ x, range (th_node t) 8 x ∨ in_region (stack_of t) x → ¬ P x) → saved m t → saved m' t.
Proof.
  intros Hm HP []. split; [| |done|done|].
  - eapply load64_keep; [exact Hm|done|]. intros x Hx. apply HP. by left.
  - eapply words_mods; [exact Hm| |done]. intros x Hx. apply HP. right.
    eapply in_stack_region; [done|exact Hx].
  - intros x Hx. rewrite (mods_out _ _ _ Hm); [by apply sa_snap0|]. apply HP. right.
    unfold in_stack, in_region, range in *. lia.
Qed.

Lemma thread_mods P m m' t :
  mods P m m' → (∀ x, in_regions (footprint t) x → ¬ P x) →
  node_ok m t TASK_READY ∧ saved m t → node_ok m' t TASK_READY ∧ saved m' t.
Proof.
  intros Hm HP [Hn Hs]. split.
  - eapply node_ok_mods; [exact Hm| |done]. intros x Hx. apply HP, node_in_footprint.
    unfold range, sizeof_task in *. lia.
  - eapply saved_mods; [exact Hm| |done]. intros x [Hx|Hx]; apply HP.
    + apply node_in_footprint. unfold range, sizeof_task in *. lia.
    + by apply stack_in_footprint.
Qed.

(** A byte has one owner. *)
Lemma footprint_owner ts t u x :
  apart_all (ts ≫= footprint) → t ∈ ts → u ∈ ts → in_regions (footprint t) x → in_regions (footprint u) x → t = u.
Proof.
  intros Hap (ts' & HP)%elem_of_Permutation Hu Hx Hux. rewrite HP in Hu, Hap.
  apply elem_of_cons in Hu as [->|Hu]; [done|exfalso]. rewrite bind_cons in Hap.
  apply apart_all_app in Hap as (_ & _ & Hap). apply (Hap x Hx), in_regions_bind. by exists u.
Qed.

Lemma footprints_apart ts t u x :
  apart_all (ts ≫= footprint) → t ∈ ts → u ∈ ts → t ≠ u →
  in_regions (footprint t) x → ¬ in_regions (footprint u) x.
Proof. intros Hap Ht Hu Hne Hx Hux. by apply Hne, (footprint_owner ts t u x). Qed.

(** The node and the stack of a thread. *)
Lemma own_apart ts t :
  apart_all (ts ≫= footprint) → t ∈ ts →
  ∀ x, range (th_node t) sizeof_task x → ¬ in_region (stack_of t) x.
Proof.
  intros Hap (ts' & HP)%elem_of_Permutation x Hx Hs. rewrite HP in Hap. cbn in Hap.
  destruct Hap as [Hap _]. apply (Hap x Hx), in_regions_cons. by left.
Qed.

Lemma heap_node σ cur ready A t :
  rep σ cur ready A → t ∈ cur :: ready →
  0 < th_node t ∧ th_node t + sizeof_task ≤ 2 ^ 64 ∧ backed (ram σ) (th_node t) sizeof_task.
Proof.
  intros R Ht. destruct (heap_inv_object _ _ _ (th_node t) sizeof_task (rq_heap _ _ _ _ R)) as (? & _ & ? & ?);
    [|done]. apply elem_of_app. left. apply list_elem_of_bind. exists t. split; [by left|done].
Qed.

Lemma heap_stack σ cur ready A t :
  rep σ cur ready A → t ∈ cur :: ready →
  0 ≤ (stack_of t).1 ∧ (stack_of t).1 + (stack_of t).2 ≤ 2 ^ 64 ∧
  backed (ram σ) (stack_of t).1 (stack_of t).2.
Proof.
  intros R Ht. unfold stack_of. destruct (Z.eqb_spec (th_base t) 0) as [Hb|Hb].
  { destruct (rq_boot _ _ _ _ R) as (? & ? & ? & _). done. }
  destruct (heap_inv_object _ _ _ (th_base t) KERNEL_STACK_SIZE (rq_heap _ _ _ _ R)) as (? & _ & ? & ?).
  - apply elem_of_app. left. apply list_elem_of_bind. exists t. split; [|done]. unfold objects, stack_of.
    destruct (Z.eqb_spec (th_base t) 0); [done|]. by right; left.
  - split; [cbn; lia|done].
Qed.

(** * Yielding *)

(** What yielding writes: the two states, the saved stack pointer, and the frame
    it pushes. *)
Definition yield_area σ (cur next : thread) : Z → Prop := λ x,
  range (task_state (th_node cur)) 4 x ∨ range (task_state (th_node next)) 4 x ∨
  range (rsp (regs σ) - 56) 56 x ∨ range (task_rsp (th_node cur)) 8 x.

Lemma yield_area_cur σ cur next x :
  in_stack cur 56 (rsp (regs σ)) → yield_area σ cur next x →
  in_regions (footprint cur) x ∨ range (task_state (th_node next)) 4 x.
Proof.
  intros Hin [Hx|[Hx|[Hx|Hx]]]; [left; apply node_in_footprint|by right| |left; apply node_in_footprint].
  - unfold range, task_state, sizeof_task in *. lia.
  - left. apply stack_in_footprint. by eapply in_stack_region.
  - unfold range, task_rsp, sizeof_task in *. lia.
Qed.

(** What yielding leaves alone. *)
Record yield_keeps σ cur next (rest : list thread) : Prop := {
  yk_next : ∀ x, in_regions (footprint next) x → ¬ range (task_state (th_node next)) 4 x →
    ¬ yield_area σ cur next x;
  yk_rest : ∀ t x, t ∈ rest → in_regions (footprint t) x → ¬ yield_area σ cur next x;
  yk_node : ∀ x, range (th_node cur) sizeof_task x → ¬ range (task_state (th_node cur)) 4 x →
    ¬ range (task_rsp (th_node cur)) 8 x → ¬ yield_area σ cur next x;
  yk_stack : ∀ x, in_region (stack_of cur) x → ¬ range (rsp (regs σ) - 56) 56 x →
    ¬ yield_area σ cur next x;
  yk_apart : ∀ x, in_regions (footprint next) x → ¬ in_regions (footprint cur) x;
}.

Lemma state_in_node (n : Z) x : range (task_state n) 4 x → range n sizeof_task x.
Proof. unfold range, task_state, sizeof_task. lia. Qed.

Lemma rsp_in_node (n : Z) x : range (task_rsp n) 8 x → range n sizeof_task x.
Proof. unfold range, task_rsp, sizeof_task. lia. Qed.

Lemma yield_off σ cur next rest A :
  rep σ cur (next :: rest) A → in_stack cur 56 (rsp (regs σ)) → yield_keeps σ cur next rest.
Proof.
  intros R Hin. pose proof (rq_apart _ _ _ _ R) as Hap. rewrite !bind_cons in Hap.
  apply apart_all_app in Hap as ([Hown _] & Hap & Hc). apply apart_all_app in Hap as (_ & _ & Hn).
  assert (∀ x, range (task_state (th_node next)) 4 x → in_regions (footprint next) x) as Hst.
  { intros x Hx. by apply node_in_footprint, state_in_node. }
  assert (∀ x, in_regions (footprint next) x → ¬ in_regions (footprint cur) x) as Hcn.
  { intros x Hx Hcx. apply (Hc x Hcx), in_regions_app. by left. }
  split.
  - intros x Hx Hnx [Hy|?]%(yield_area_cur _ _ _ _ Hin); [|done]. by apply (Hcn x).
  - intros t x Ht Hx Hy.
    assert (in_regions (rest ≫= footprint) x) as Hrx by (apply in_regions_bind; by exists t).
    destruct (yield_area_cur _ _ _ _ Hin Hy) as [Hcx|Hnx].
    + apply (Hc x Hcx), in_regions_app. by right.
    + by apply (Hn x (Hst x Hnx)).
  - intros x Hx Hs Hr [?|[Hy|[Hy|?]]]; [done| | |done].
    + by apply (Hcn x (Hst x Hy)), node_in_footprint.
    + apply (Hown x Hx), in_regions_cons. left. by eapply in_stack_region.
  - intros x Hx Hfr [Hy|[Hy|[?|Hy]]]; [|by apply (Hcn x (Hst x Hy)), stack_in_footprint|done|].
    + apply (Hown x); [by apply state_in_node|]. apply in_regions_cons. by left.
    + apply (Hown x); [by apply rsp_in_node|]. apply in_regions_cons. by left.
  - done.
Qed.

(** The heap does not notice. *)
Lemma yield_heap σ cur next rest A m' :
  rep σ cur (next :: rest) A → in_stack cur 56 (rsp (regs σ)) →
  mods (yield_area σ cur next) (ram σ) m' →
  heap_inv (heap σ) m' (((cur :: next :: rest) ≫= objects) ++ A).
Proof.
  intros R Hin Hm. eapply heap_inv_mods; [apply R|exact Hm|]. intros x Hx. rewrite in_regions_app.
  assert (∃ t, t ∈ cur :: next :: rest ∧ in_regions (footprint t) x) as (t & Ht & Hfx).
  { destruct (yield_area_cur _ _ _ _ Hin Hx) as [Hcx|Hnx]; [exists cur; split; [by left|done]|].
    exists next. split; [by right; left|]. by apply node_in_footprint, state_in_node. }
  destruct (footprint_objects t x Hfx) as [Hox|Hbx]; [left; left|right; by apply (rq_boot _ _ _ _ R)].
  apply in_regions_bind. by exists t.
Qed.

(** The links are not written, and the ring is read from the next node on. *)
Lemma yield_ring σ cur next rest A m' t :
  rep σ cur (next :: rest) A → in_stack cur 56 (rsp (regs σ)) →
  mods (yield_area σ cur next) (ram σ) m' → th_node t = th_node cur →
  links m' (th_node <$> next :: rest ++ [t]) (th_node next).
Proof.
  intros R Hin Hm Ht. pose proof (yield_off _ _ _ _ _ R Hin) as [Hn Hr Hc _ _].
  rewrite app_comm_cons, fmap_app. cbn [fmap list_fmap]. rewrite Ht.
  apply (links_rotate m' (th_node cur) (th_node next :: (th_node <$> rest))).
  eapply links_mods; [exact Hm| |apply (rq_ring _ _ _ _ R)]. cbn [fmap list_fmap].
  intros n x Hin' Hx.
  assert (range n sizeof_task x ∧ ¬ range (task_state n) 4 x ∧ ¬ range (task_rsp n) 8 x) as (H1 & H2 & H3)
    by (unfold range, task_next, task_state, task_rsp, sizeof_task in *; lia).
  apply elem_of_cons in Hin' as [->|[->|(u & -> & Hu)%list_elem_of_fmap]%elem_of_cons].
  - by apply Hc.
  - apply Hn; [by apply node_in_footprint|done].
  - eapply Hr; [exact Hu|by apply node_in_footprint].
Qed.

(** The thread that yields can be resumed where it was. *)
Lemma yield_saved σ cur next rest A m' ret :
  rep σ cur (next :: rest) A → in_stack cur 56 (rsp (regs σ)) → 0 ≤ ret < 2 ^ 64 →
  mods (yield_area σ cur next) (ram σ) m' →
  load32 m' (task_state (th_node cur)) = Ok TASK_READY →
  load64 m' (task_rsp (th_node cur)) = Ok (rsp (regs σ) - 56) →
  words m' (rsp (regs σ) - 56) (frame (suspended (regs σ) ret)) →
  let cur' := suspend cur (suspended (regs σ) ret) (ram σ) in
  node_ok m' cur' TASK_READY ∧ saved m' cur'.
Proof.
  intros R Hin Hret Hm Hst Hsp Hws. pose proof (yield_off _ _ _ _ _ R Hin) as [_ _ Hc Hs _].
  destruct (rq_running _ _ _ _ R) as [H1 H2 _]. split; split; try done.
  - eapply load64_keep; [exact Hm|done|]. intros x Hx.
    apply Hc; unfold range, task_stack_base, task_state, task_rsp, sizeof_task in *; cbn in *; lia.
  - eapply load32_keep; [exact Hm|done|]. intros x Hx.
    apply Hc; unfold range, task_id, task_state, task_rsp, sizeof_task in *; cbn in *; lia.
  - pose proof (rq_regs _ _ _ _ R) as Hr. unfold context_ok, context_words in *. cbn.
    rewrite !Forall_cons in *. tauto.
  - cbn. intros x Hx. rewrite (mods_out _ _ _ Hm); [done|].
    unfold in_stack in Hin. change (stack_of (suspend _ _ _)) with (stack_of cur) in Hx.
    apply Hs; unfold in_region, range in *; lia.
Qed.

(** The queue after yielding. *)
Lemma yield_rep σ cur next rest A ret m' :
  rep σ cur (next :: rest) A → in_stack cur 56 (rsp (regs σ)) → 0 ≤ ret < 2 ^ 64 →
  mods (yield_area σ cur next) (ram σ) m' →
  load32 m' (task_state (th_node cur)) = Ok TASK_READY →
  load32 m' (task_state (th_node next)) = Ok TASK_RUNNING →
  load64 m' (task_rsp (th_node cur)) = Ok (rsp (regs σ) - 56) →
  words m' (rsp (regs σ) - 56) (frame (suspended (regs σ) ret)) →
  rep {| current := th_node next; next_id := next_id σ; heap := heap σ; ram := m'; regs := th_ctx next |}
    next (rest ++ [suspend cur (suspended (regs σ) ret) (ram σ)]) A.
Proof.
  intros R Hin Hret Hm Hst Hst' Hsp Hws.
  pose proof (yield_saved _ _ _ _ _ _ _ R Hin Hret Hm Hst Hsp Hws) as Hcur. cbv zeta in Hcur.
  set (cur' := suspend cur _ _) in *. pose proof (yield_off _ _ _ _ _ R Hin) as [Hn Hr _ _ _].
  assert (next :: rest ++ [cur'] ≡ₚ cur' :: next :: rest) as HP.
  { rewrite <- Permutation_cons_append. apply Permutation_swap. }
  destruct (rq_ready _ _ _ _ R next) as [Hnode Hsaved]; [by left|].
  split; cbn [heap ram current regs next_id]; [| | |by eapply yield_ring|done| | |apply Hsaved|apply R].
  - eapply heap_inv_perm; [|by eapply yield_heap]. by rewrite HP.
  - destruct (rq_boot _ _ _ _ R) as (? & ? & ? & ?). split; [done|split; [done|split; [|done]]].
    by eapply mods_backed.
  - rewrite HP. apply (rq_apart _ _ _ _ R).
  - destruct Hnode. split; [eapply load64_keep|eapply load32_keep|done]; try exact Hm; try done;
      intros x Hx; (apply Hn; [apply node_in_footprint|]);
      unfold range, task_stack_base, task_id, task_state, sizeof_task in *; lia.
  - intros t [Ht| ->%list_elem_of_singleton]%elem_of_app; [|done].
    eapply thread_mods; [exact Hm| |apply (rq_ready _ _ _ _ R); by right]. intros x Hx. by eapply Hr.
Qed.

(** Alone, a thread keeps the CPU. *)
Lemma sched_yield_alone σ cur A ret : rep σ cur [] A → sched_yield σ ret = Ok σ.
Proof.
  intros R. destruct (rq_ring _ _ _ _ R) as [Hn _]. unfold sched_yield.
  rewrite (rq_current _ _ _ _ R), Hn, bind_ok. cbn. by rewrite Z.eqb_refl.
Qed.

(** The two states. *)
Definition states_area cur next : Z → Prop := λ x,
  range (task_state (th_node cur)) 4 x ∨ range (task_state (th_node next)) 4 x.

Lemma yield_states σ cur next rest A :
  rep σ cur (next :: rest) A → in_stack cur 56 (rsp (regs σ)) →
  returns (m ← store32 (ram σ) (task_state (th_node cur)) TASK_READY;
           store32 m (task_state (th_node next)) TASK_RUNNING)
    (λ m, mods (states_area cur next) (ram σ) m ∧
       load32 m (task_state (th_node cur)) = Ok TASK_READY ∧
       load32 m (task_state (th_node next)) = Ok TASK_RUNNING).
Proof.
  intros R Hin. pose proof (yk_apart _ _ _ _ (yield_off _ _ _ _ _ R Hin)) as Hap.
  destruct (heap_node _ _ _ _ cur R) as (_ & _ & Hbc); [by left|].
  destruct (heap_node _ _ _ _ next R) as (_ & _ & Hbn); [by right; left|].
  ret_step store32_returns; [eapply backed_sub; [exact Hbc|unfold task_state, sizeof_task; lia..]|done|].
  intros m1 [Hm1 Hv1]. eapply returns_mono; [apply store32_returns; [|done]|].
  { eapply mods_backed; [exact Hm1|]. eapply backed_sub; [exact Hbn|unfold task_state, sizeof_task; lia..]. }
  intros m2 [Hm2 Hv2]. split; [|split; [|done]].
  - eapply mods_trans; eapply mods_weaken; [exact Hm1| |exact Hm2|]; unfold states_area; tauto.
  - eapply load32_keep; [exact Hm2|done|]. intros x Hx Hnx.
    apply (Hap x); by apply node_in_footprint, state_in_node.
Qed.

(** The switch proper. *)
Lemma yield_switch σ cur next rest A ret m :
  rep σ cur (next :: rest) A → in_stack cur 56 (rsp (regs σ)) → 0 ≤ ret < 2 ^ 64 →
  mods (states_area cur next) (ram σ) m → let r := regs σ in
  load64 m (task_rsp (th_node next)) = Ok (rsp (th_ctx next) - 56) ∧
  returns ('(m, sp) ← push m (rsp r) ret;
           context_switch m {| rip := rip r; rsp := sp; rbx := rbx r; rbp := rbp r;
             r12 := r12 r; r13 := r13 r; r14 := r14 r; r15 := r15 r |}
             (task_rsp (th_node cur)) (rsp (th_ctx next) - 56))
    (λ '(m', c), c = th_ctx next ∧ words m' (rsp r - 56) (frame (suspended r ret)) ∧
       load64 m' (task_rsp (th_node cur)) = Ok (rsp r - 56) ∧
       mods (λ x, range (rsp r - 56) 56 x ∨ range (task_rsp (th_node cur)) 8 x) m m').
Proof.
  intros R Hin Hret Hm r. pose proof (yield_off _ _ _ _ _ R Hin) as [Hn _ _ _ _].
  assert (cur ∈ cur :: next :: rest) as Hcin by by left. assert (next ∈ cur :: next :: rest) as Hnin by by right; left.
  destruct (heap_node _ _ _ _ _ R Hcin) as (_ & _ & Hbc).
  destruct (heap_stack _ _ _ _ _ R Hcin) as (Hlo & Hhi & Hbs). destruct (heap_stack _ _ _ _ _ R Hnin) as (Hlo' & _ & _).
  destruct (rq_ready _ _ _ _ R next) as [_ [Hsp Hfr Hst _ _]]; [by left|].
  pose proof (own_apart _ _ (rq_apart _ _ _ _ R) Hnin) as Hown'.
  assert (∀ x, range (rsp (th_ctx next) - 56) 56 x → ¬ yield_area σ cur next x) as Hfrx.
  { intros x Hx. assert (in_region (stack_of next) x) as Hsx by by eapply in_stack_region.
    apply Hn; [by apply stack_in_footprint|]. intros Hy. by apply (Hown' x); [apply state_in_node|]. }
  split.
  { eapply load64_keep; [exact Hm|exact Hsp|]. intros x Hx Hy.
    apply (Hn x); [by apply node_in_footprint, rsp_in_node|unfold range, task_rsp, task_state in *; lia|].
    destruct Hy; [by left|by right; left]. }
  pose proof Hin as Hin'. unfold in_stack in Hin, Hst. subst r. eapply context_switch_returns; [apply R|done|lia| | | | |lia|lia|lia|].
  - eapply mods_backed; [exact Hm|]. eapply backed_sub; [exact Hbs|lia..].
  - eapply mods_backed; [exact Hm|]. eapply backed_sub; [exact Hbc|unfold task_rsp, sizeof_task; lia..].
  - intros x Hx Hy. apply (own_apart _ _ (rq_apart _ _ _ _ R) Hcin x); [by apply rsp_in_node|].
    by eapply in_stack_region.
  - eapply words_mods; [exact Hm| |exact Hfr]. intros x Hx Hy. apply (Hfrx x Hx).
    destruct Hy; [by left|by right; left].
  - intros x Hx. split; intros Hy; apply (Hfrx x Hx); [by right; right; left|by right; right; right].
Qed.

Lemma sched_yield_returns σ cur next rest A ret :
  rep σ cur (next :: rest) A → in_stack cur 56 (rsp (regs σ)) → 0 ≤ ret < 2 ^ 64 →
  returns (sched_yield σ ret) (λ σ',
    rep σ' next (rest ++ [suspend cur (suspended (regs σ) ret) (ram σ)]) A ∧
    regs σ' = th_ctx next ∧ heap σ' = heap σ ∧ next_id σ' = next_id σ ∧
    mods (yield_area σ cur next) (ram σ) (ram σ')).
Proof.
  intros R Hin Hret. pose proof (yield_off _ _ _ _ _ R Hin) as [_ _ Hc Hs Hap].
  assert (cur ∈ cur :: next :: rest) as Hcin by by left.
  unfold sched_yield. destruct (rq_ring _ _ _ _ R) as [Hlink _].
  rewrite (rq_current _ _ _ _ R), Hlink, bind_ok. cbn [hd].
  destruct (Z.eqb_spec (th_node next) (th_node cur)) as [Heq|_].
  { exfalso. apply (Hap (th_node cur)); apply node_in_footprint; rewrite ?Heq; unfold range, sizeof_task; lia. }
  pose proof (yield_states _ _ _ _ _ R Hin) as Hstates.
  destruct (store32 (ram σ) (task_state (th_node cur)) TASK_READY) as [m1| | |] in Hstates |- *; [|done..].
  cbn [mbind outcome_bind] in Hstates |- *. ret_step Hstates. intros m2 (Hm & Hst & Hst').
  destruct (yield_switch _ _ _ _ _ ret _ R Hin Hret Hm) as [Hsp Hsw]. rewrite Hsp, bind_ok. cbv zeta.
  destruct (push m2 (rsp (regs σ)) ret) as [[mp sp]| | |] in Hsw |- *; [|done..]. cbn [mbind outcome_bind] in Hsw |- *.
  apply returns_bind. eapply returns_mono; [exact Hsw|]. intros [m' c'] (-> & Hws & Hrsp & Hm').
  cbn [returns regs heap next_id ram].
  assert (mods (yield_area σ cur next) (ram σ) m') as Hall.
  { eapply mods_trans; eapply mods_weaken; [exact Hm| |exact Hm'|]; unfold states_area, yield_area; tauto. }
  split; [|done]. apply yield_rep; try done.
  - eapply load32_keep; [exact Hm'|done|]. intros x Hx [Hy|Hy].
    + apply (own_apart _ _ (rq_apart _ _ _ _ R) Hcin x); [by apply state_in_node|by eapply in_stack_region].
    + unfold range, task_state, task_rsp in *. lia.
  - eapply load32_keep; [exact Hm'|done|]. intros x Hx Hy.
    apply (Hap x); [by apply node_in_footprint, state_in_node|]. destruct Hy as [Hy|Hy].
    + apply stack_in_footprint. by eapply in_stack_region.
    + by apply node_in_footprint, rsp_in_node.
Qed.

(** The resumed stack is as it was left. *)
Lemma yield_stack σ cur next rest A m x :
  rep σ cur (next :: rest) A → in_stack cur 56 (rsp (regs σ)) →
  mods (yield_area σ cur next) (ram σ) m →
  rsp (th_ctx next) ≤ x < (stack_of next).1 + (stack_of next).2 → m !! x = th_snap next !! x.
Proof.
  intros R Hin Hm Hx. destruct (rq_ready _ _ _ _ R next) as [_ [_ _ Hst _ Hsnap]]; [by left|].
  assert (in_region (stack_of next) x) as Hsx by (unfold in_stack, in_region, range in *; lia).
  rewrite (mods_out _ _ _ Hm); [by apply Hsnap|].
  apply (yk_next _ _ _ _ (yield_off _ _ _ _ _ R Hin)); [by apply stack_in_footprint|].
  intros Hy. apply (own_apart _ next (rq_apart _ _ _ _ R) ltac:(by right; left) x); [by apply state_in_node|done].
Qed.

(** * Other changes of memory *)

(** The part of a suspended thread's stack that it does not use. *)
Definition dead_stack t : Z → Prop := λ x, in_region (stack_of t) x ∧ x < rsp (th_ctx t) - 56.

(** Writes to the dead parts of the other threads' stacks, and off their memory and the
    running thread's node otherwise, by anyone who keeps the heap well-formed. *)
Lemma queue_mods_dead P σ cur ready A A' h m r :
  rep σ cur ready A → mods P (ram σ) m →
  (∀ x, P x → (∀ t, t ∈ ready → in_regions (footprint t) x → dead_stack t x) ∧ ¬ range (th_node cur + 8) 24 x) →
  heap_inv h m (((cur :: ready) ≫= objects) ++ A') → context_ok r →
  rep {| current := current σ; next_id := next_id σ; heap := h; ram := m; regs := r |} cur ready A'.
Proof.
  intros R Hm HP Hinv Hr.
  assert (∀ t x, t ∈ ready → range (th_node t) sizeof_task x → ¬ P x) as Hnode.
  { intros t x Ht Hx HPx. destruct (proj1 (HP x HPx) t Ht (node_in_footprint _ _ Hx)) as [Hs _].
    apply (own_apart _ t (rq_apart _ _ _ _ R) ltac:(by right) x Hx Hs). }
  destruct R. split; cbn [heap ram current regs next_id]; try done.
  - destruct rq_boot0 as (? & ? & ? & ?). split; [done|split; [done|split; [|done]]]. by eapply mods_backed.
  - eapply links_mods; [exact Hm| |done]. intros n x Hn Hx.
    cbn [fmap list_fmap] in Hn. apply elem_of_cons in Hn as [->|(t & -> & Ht)%list_elem_of_fmap].
    + intros Hpx. apply (HP x Hpx). unfold range, task_next in *. lia.
    + apply (Hnode t); [done|]. unfold range, task_next, sizeof_task in *. lia.
  - eapply node_ok_mods; [exact Hm| |done]. intros x Hx Hpx. apply (HP x Hpx). unfold range in *. lia.
  - intros t Ht. destruct (rq_ready0 t Ht) as [Hno [Hsp Hfr Hst Hctx Hsnap]].
    assert (∀ x, rsp (th_ctx t) - 56 ≤ x → in_region (stack_of t) x → ¬ P x) as Hlive.
    { intros x Hx Hs HPx. destruct (proj1 (HP x HPx) t Ht (stack_in_footprint _ _ Hs)) as [_ ?]. lia. }
    split; [|split; [| |done|done|]].
    + eapply node_ok_mods; [exact Hm| |done]. intros x Hx. apply (Hnode t _ Ht). unfold range, sizeof_task in *. lia.
    + eapply load64_keep; [exact Hm|done|]. intros x Hx. by apply (Hnode t _ Ht), rsp_in_node.
    + eapply words_mods; [exact Hm| |done]. intros x Hx. apply Hlive; [unfold range in Hx; lia|].
      by eapply in_stack_region.
    + intros x Hx. rewrite (mods_out _ _ _ Hm); [by apply Hsnap|]. apply Hlive; [lia|].
      unfold in_stack, in_region, range in *. lia.
Qed.

Lemma queue_mods P σ cur ready A A' h m r :
  rep σ cur ready A → mods P (ram σ) m →
  (∀ x, P x → ¬ in_regions (ready ≫= footprint) x ∧ ¬ range (th_node cur + 8) 24 x) →
  heap_inv h m (((cur :: ready) ≫= objects) ++ A') → context_ok r →
  rep {| current := current σ; next_id := next_id σ; heap := h; ram := m; regs := r |} cur ready A'.
Proof.
  intros R Hm HP. eapply queue_mods_dead; [exact R|exact Hm|]. intros x Hx. destruct (HP x Hx) as [Hf Hn].
  split; [|done]. intros t Ht Hfx. destruct Hf. apply in_regions_bind. by exists t.
Qed.

(** New objects lie off every footprint. *)
Lemma fresh_apart σ cur ready A h m B :
  rep σ cur ready A → heap_inv h m (B ++ ((cur :: ready) ≫= objects) ++ A) →
  ∀ x, in_regions B x → ¬ in_regions ((cur :: ready) ≫= footprint) x.
Proof.
  intros R Hinv x Hx (t & Ht & Hfx)%in_regions_bind.
  destruct (footprint_objects t x Hfx) as [Hox|Hbx].
  - pose proof (heap_inv_apart _ _ _ Hinv) as Hap. apply apart_all_app in Hap as (_ & _ & Hap).
    apply (Hap x Hx), in_regions_app. left. apply in_regions_bind. by exists t.
  - destruct (rq_boot _ _ _ _ R) as (_ & _ & _ & Hz). apply (Hz x Hbx).
    eapply heap_inv_zone; [exact Hinv|]. apply in_regions_app. by left.
Qed.

(** What the heap writes lies off every footprint. *)
Lemma heap_area_apart σ cur ready A A' x :
  rep σ cur ready A → heap_zone x ∧ ¬ in_regions (((cur :: ready) ≫= objects) ++ A') x →
  ¬ in_regions ((cur :: ready) ≫= footprint) x.
Proof.
  intros R [Hz Hx] (t & Ht & Hfx)%in_regions_bind.
  destruct (footprint_objects t x Hfx) as [Hox|Hbx]; [|by eapply (rq_boot _ _ _ _ R)].
  apply Hx, in_regions_app. left. apply in_regions_bind. by exists t.
Qed.

Lemma rep_heap σ cur ready A A' h m :
  rep σ cur ready A → mods (λ x, ¬ in_regions ((cur :: ready) ≫= footprint) x) (ram σ) m →
  heap_inv h m (((cur :: ready) ≫= objects) ++ A') → rep (set_heap σ h m) cur ready A'.
Proof.
  intros R Hm Hinv. eapply (queue_mods _ σ); [exact R|exact Hm| |exact Hinv|apply R].
  intros x Hx. rewrite bind_cons, in_regions_app in Hx. split; [tauto|]. intros Hn. apply Hx. left.
  apply node_in_footprint. unfold range, sizeof_task in *. lia.
Qed.

Lemma rep_perm σ cur ready A A' : A ≡ₚ A' → rep σ cur ready A → rep σ cur ready A'.
Proof. intros HA []. split; try done. eapply heap_inv_perm; [|done]. by rewrite HA. Qed.

(** Nodes and stacks are in the heap, but for the boot stack. *)
Lemma footprint_zone σ cur ready A t x :
  rep σ cur ready A → t ∈ cur :: ready → in_regions (footprint t) x → heap_zone x ∨ in_region boot x.
Proof.
  intros R Ht Hx. destruct (footprint_objects t x Hx) as [Ho|]; [left|by right].
  eapply heap_inv_zone; [apply (rq_heap _ _ _ _ R)|]. apply in_regions_app. left. apply in_regions_bind. by exists t.
Qed.

(** * Creating a task *)

Lemma forge_stack_returns m stack entry :
  0 < stack → stack mod 16 = 0 → stack + KERNEL_STACK_SIZE ≤ 2 ^ 64 →
  backed m stack KERNEL_STACK_SIZE → 0 ≤ entry < 2 ^ 64 → 0 ≤ task_trampoline < 2 ^ 64 →
  let sp := stack + KERNEL_STACK_SIZE - 64 in
  returns (forge_stack m stack entry) (λ '(m', sp'), sp' = sp ∧
    words m' sp [0; 0; 0; 0; 0; 0; entry; task_trampoline] ∧ mods (range sp 64) m m').
Proof.
  intros Hpos Hal Htop Hb Hentry Htr sp. set (top := stack + KERNEL_STACK_SIZE).
  assert (Z.land (u64 top) (u64 (Z.lnot 15)) = u64 top) as Hland.
  { change 15 with (2 ^ 4 - 1). rewrite land_high_mask by (pose proof (u64_range top); lia).
    change (2 ^ 4) with 16. unfold u64, top, KERNEL_STACK_SIZE. div_lia. }
  unfold forge_stack. cbv zeta. fold top. rewrite Hland.
  assert (pushed m top m (u64 top) []) as Hpu.
  { split; [by rewrite Z.sub_0_r|done|done]. }
  assert (backed m (top - 64) 64) as Hbt.
  { eapply backed_sub; [exact Hb|subst top; unfold KERNEL_STACK_SIZE; lia..]. }
  assert (64 ≤ top ≤ 2 ^ 64 ∧ sp = top - 64) as [Htop' ->] by (subst sp top; unfold KERNEL_STACK_SIZE in *; lia).
  clearbody top.
  do 7 push_step Hpu 64 Hbt.
  eapply returns_mono; [eapply (push_returns _ _ _ _ _ _ 64); [exact Hpu|try (cbn [length]; lia)..|exact Hbt]|].
  intros [m' sp'] [Hsp Hw Hm]. split; [|done]. rewrite Hsp. apply u64_id.
  cbn. lia.
Qed.

(** The context a new task starts in. *)
Definition start_context (stack entry : Z) : context :=
  {| rip := entry; rsp := stack + KERNEL_STACK_SIZE - 8;
     rbx := 0; rbp := 0; r12 := 0; r13 := 0; r14 := 0; r15 := 0 |}.

Definition new_thread (t id stack entry : Z) m : thread :=
  {| th_node := t; th_id := id; th_base := stack; th_ctx := start_context stack entry; th_snap := m |}.

(** ** The tail of the ring *)

Lemma nodes_nodup ts : apart_all (ts ≫= footprint) → NoDup (th_node <$> ts).
Proof.
  induction ts as [|t ts IH]; [intros _; apply NoDup_nil_2|]. rewrite bind_cons, apart_all_app.
  intros (_ & Hts & Hap). apply NoDup_cons. split; [|by apply IH].
  intros (u & Heq & Hu)%list_elem_of_fmap. apply (Hap (th_node t)).
  - apply node_in_footprint. unfold range, sizeof_task. lia.
  - apply in_regions_bind. exists u. split; [done|]. apply node_in_footprint. rewrite Heq.
    unfold range, sizeof_task. lia.
Qed.

(** No list of distinct addresses is longer than the loops' fuel. *)
Lemma nodup_length (l : list Z) : NoDup l → (∀ a, a ∈ l → 0 ≤ a < 2 ^ 64) → length l ≤ 2 ^ 64.
Proof.
  intros Hnd Hl. rewrite <- (size_list_to_set (C := gset Z)) by done.
  replace (2 ^ 64) with (2 ^ 64 - 0) by lia. apply size_bounded; [lia|].
  intros x Hx%elem_of_list_to_set. by apply Hl.
Qed.

Lemma find_tail_returns m c l tail :
  links m (c :: l) c → NoDup (c :: l) → length l ≤ 2 ^ 64 → last (c :: l) = Some tail →
  returns (find_tail m c) (λ r, r = tail).
Proof.
  intros Hl Hnd Hlen Hlast. unfold find_tail.
  apply (loop_rule_var (λ k x, ∃ l1 l2, c :: l = l1 ++ x :: l2 ∧ k = length l2) _ _ (length l)); [|done|].
  { by exists [], l. }
  intros k x (l1 & l2 & Heq & ->). rewrite Heq in Hl, Hlast. apply links_app in Hl as [_ [Hx _]].
  rewrite Hx, bind_ok. rewrite last_app in Hlast. destruct l2 as [|y l2]; cbn [hd].
  - rewrite Z.eqb_refl. cbn in *. congruence.
  - destruct (Z.eqb_spec y c) as [->|Hne].
    + exfalso. rewrite Heq in Hnd. destruct l1 as [|z l1]; injection Heq as -> ->.
      * apply NoDup_cons in Hnd as [Hnd _]. apply Hnd. by left.
      * apply NoDup_cons in Hnd as [Hnd _]. apply Hnd, elem_of_app. right. by right; left.
    + cbn [returns]. exists (length l2). cbn [length]. split; [|lia].
      exists (l1 ++ [x]), l2. by rewrite <- app_assoc.
Qed.

(** Linking a new last node. *)
Lemma links_append m m' l a z P :
  links m l z → mods P m m' → l ≠ [] → NoDup l →
  (∀ n x, n ∈ l → last l ≠ Some n → range (task_next n) 8 x → ¬ P x) →
  (∀ n, last l = Some n → load64 m' (task_next n) = Ok a) → load64 m' (task_next a) = Ok z →
  links m' (l ++ [a]) z.
Proof.
  intros Hl Hm Hne. destruct (exists_last Hne) as (l0 & n & ->).
  rewrite last_snoc. intros Hnd HP Hn Ht. apply links_app. split; [|done].
  apply links_app in Hl as [Hl _]. apply links_app. split; [|split; [by apply Hn|done]].
  eapply links_mods; [exact Hm| |exact Hl]. intros u x Hu Hx. apply (HP u); [by apply elem_of_app; left| |done].
  intros [= ->]. apply NoDup_app in Hnd as (_ & Hnd & _). apply (Hnd u Hu). by left.
Qed.

(** ** The queue after [task_create] *)

(** The tail's link is no other field of any thread. *)
Lemma link_off ts t u x :
  apart_all (ts ≫= footprint) → t ∈ ts → u ∈ ts → range (task_next (th_node u)) 8 x →
  (range (th_node t) 24 x ∨ in_region (stack_of t) x ∨ t ≠ u ∧ in_regions (footprint t) x) → False.
Proof.
  intros Hap Ht Hu Hx Htx.
  assert (range (th_node u) sizeof_task x) as Hux by (unfold range, task_next, sizeof_task in *; lia).
  destruct (decide (th_node t = th_node u)) as [Heq|Hne].
  - assert (t = u) as ->.
    { apply nodes_nodup in Hap. apply list_elem_of_lookup in Ht as (i & Hi), Hu as (j & Hj).
      assert (i = j) as ->; [|congruence]. eapply NoDup_lookup; [exact Hap| |].
      - by rewrite list_lookup_fmap, Hi.
      - by rewrite list_lookup_fmap, Hj, Heq. }
    destruct Htx as [Htx|[Htx|[? _]]]; [|by eapply own_apart|done].
    unfold range, task_next in *. lia.
  - apply (footprints_apart ts t u x Hap Ht Hu); [by intros ->| |by apply node_in_footprint].
    destruct Htx as [Htx|[Htx|[_ Htx]]]; [|by apply stack_in_footprint|done].
    apply node_in_footprint. unfold range, sizeof_task in *. lia.
Qed.

Lemma create_rep σ cur ready A h m new tl id :
  rep σ cur ready A → last (cur :: ready) = Some tl →
  mods (λ x, ¬ in_regions ((cur :: ready) ≫= footprint) x ∨ range (task_next (th_node tl)) 8 x) (ram σ) m →
  heap_inv h m (footprint new ++ ((cur :: ready) ≫= objects) ++ A) →
  node_ok m new TASK_READY → saved m new → th_base new ≠ 0 → 0 ≤ id < 2 ^ 32 →
  load64 m (task_next (th_node tl)) = Ok (th_node new) →
  load64 m (task_next (th_node new)) = Ok (th_node cur) →
  rep {| current := current σ; next_id := id; heap := h; ram := m; regs := regs σ |} cur (ready ++ [new]) A.
Proof.
  intros R Htl Hm Hinv Hnode Hsaved Hbase Hid Hln Hnc. pose proof (rq_apart _ _ _ _ R) as Hap.
  assert (tl ∈ cur :: ready) as Htlin by by eapply last_Some_elem_of.
  assert (∀ t x, t ∈ cur :: ready → (range (th_node t) 24 x ∨ in_region (stack_of t) x) →
    ¬ (¬ in_regions ((cur :: ready) ≫= footprint) x ∨ range (task_next (th_node tl)) 8 x)) as Hoff.
  { intros t x Ht Hx [Hno|Hl]; [|eapply link_off; [exact Hap|exact Ht|exact Htlin|exact Hl|tauto]].
    apply Hno, in_regions_bind. exists t. split; [done|]. destruct Hx as [Hx|Hx]; [|by apply stack_in_footprint].
    apply node_in_footprint. unfold range, sizeof_task in *. lia. }
  split; cbn [heap ram current regs next_id]; try apply R; [| | | | | |done].
  - eapply heap_inv_perm; [|exact Hinv]. rewrite app_comm_cons, bind_snoc.
    assert (objects new = footprint new) as ->.
    { unfold objects, footprint. by destruct (Z.eqb_spec (th_base new) 0). }
    solve_Permutation.
  - destruct (rq_boot _ _ _ _ R) as (? & ? & ? & ?). split; [done|split; [done|split; [|done]]].
    by eapply mods_backed.
  - rewrite app_comm_cons, bind_snoc. apply apart_all_app. split; [done|]. split.
    + pose proof (heap_inv_apart _ _ _ Hinv) as Hnew. by apply apart_all_app in Hnew as [Hnew _].
    + intros x Hx Hnx. by eapply (fresh_apart _ _ _ _ _ _ _ R Hinv).
  - rewrite app_comm_cons, fmap_app. eapply links_append; [apply R|exact Hm|done|by apply nodes_nodup| | |done].
    + intros n x (t & -> & Ht)%list_elem_of_fmap Hlast Hx [Hno|Hl].
      * apply Hno, in_regions_bind. exists t. split; [done|]. apply node_in_footprint.
        unfold range, task_next, sizeof_task in *. lia.
      * eapply link_off; [exact Hap|exact Ht|exact Htlin|exact Hl|]. right; right. split.
        { intros ->. apply Hlast. by rewrite fmap_last, Htl. }
        apply node_in_footprint. unfold range, task_next, sizeof_task in *. lia.
    + intros n. rewrite fmap_last, Htl. cbn. by intros [= <-].
  - eapply node_ok_mods; [exact Hm| |apply (rq_running _ _ _ _ R)]. intros x Hx. apply (Hoff cur); [by left|].
    left. unfold range in *. lia.
  - intros t [Ht| ->%list_elem_of_singleton]%elem_of_app; [|done].
    destruct (rq_ready _ _ _ _ R t Ht) as [Hn Hs]. split.
    + eapply node_ok_mods; [exact Hm| |exact Hn]. intros x Hx. apply (Hoff t); [by right|].
      left. unfold range in *. lia.
    + eapply saved_mods; [exact Hm| |exact Hs]. intros x Hx. apply (Hoff t); [by right|].
      destruct Hx as [Hx|?]; [left|by right]. unfold range in *. lia.
Qed.

Lemma fill_task_returns m (n : Z) sp stack id state :
  backed m n sizeof_task → 0 ≤ sp < 2 ^ 64 → 0 ≤ stack < 2 ^ 64 → 0 ≤ id < 2 ^ 32 → 0 ≤ state < 2 ^ 32 →
  returns (fill_task m n sp stack id state) (λ m', mods (range n 24) m m' ∧
    load64 m' (task_rsp n) = Ok sp ∧ load64 m' (task_stack_base n) = Ok stack ∧
    load32 m' (task_id n) = Ok id ∧ load32 m' (task_state n) = Ok state).
Proof.
  intros Hb Hsp Hst Hid Hstate. unfold fill_task, task_rsp, task_stack_base, task_id, task_state, sizeof_task in *.
  ret_step store64_returns; [by eapply backed_sub; [exact Hb|lia..]|done|]. intros m1 [Hm1 H1].
  assert (mods (range n 24) m m1) as Hm by (eapply mods_weaken; [exact Hm1|unfold range; lia]).
  ret_step store64_returns; [by eapply mods_backed; [exact Hm|eapply backed_sub; [exact Hb|lia..]]|done|].
  intros m2 [Hm2 H2].
  assert (mods (range n 24) m1 m2) as Hm' by (eapply mods_weaken; [exact Hm2|unfold range; lia]).
  pose proof (mods_trans _ _ _ _ Hm Hm') as Hm02.
  ret_step store32_returns; [by eapply mods_backed; [exact Hm02|eapply backed_sub; [exact Hb|lia..]]|done|].
  intros m3 [Hm3 H3].
  assert (mods (range n 24) m2 m3) as Hm'' by (eapply mods_weaken; [exact Hm3|unfold range; lia]).
  pose proof (mods_trans _ _ _ _ Hm02 Hm'') as Hm03.
  eapply returns_mono; [eapply store32_returns; [|done]|].
  { eapply mods_backed; [exact Hm03|]. eapply backed_sub; [exact Hb|lia..]. }
  intros m4 [Hm4 H4]. split; [|split; [|split; [|split; [|done]]]].
  - eapply mods_trans; [exact Hm03|]. eapply mods_weaken; [exact Hm4|unfold range; lia].
  - eapply load64_keep; [exact Hm4| |unfold range; lia]. eapply load64_keep; [exact Hm3| |unfold range; lia].
    eapply load64_keep; [exact Hm2|done|unfold range; lia].
  - eapply load64_keep; [exact Hm4| |unfold range; lia]. eapply load64_keep; [exact Hm3|done|unfold range; lia].
  - eapply load32_keep; [exact Hm4|done|unfold range; lia].
Qed.

(** Appending the node [n] to the ring. *)
Lemma link_task σ cur ready A tl m (n : Z) :
  rep σ cur ready A → last (cur :: ready) = Some tl →
  mods (λ x, ¬ in_regions ((cur :: ready) ≫= footprint) x) (ram σ) m →
  backed m n sizeof_task → 0 ≤ n < 2 ^ 64 →
  (∀ x, range n sizeof_task x → ¬ in_regions ((cur :: ready) ≫= footprint) x) →
  returns (tail ← find_tail m (current σ);
           m ← store64 m (task_next tail) n; store64 m (task_next n) (current σ))
    (λ m', mods (λ x, range (task_next (th_node tl)) 8 x ∨ range (task_next n) 8 x) m m' ∧
       load64 m' (task_next (th_node tl)) = Ok n ∧ load64 m' (task_next n) = Ok (th_node cur)).
Proof.
  intros R Htl Hm Hbn Hn Hap. rewrite (rq_current _ _ _ _ R).
  assert (tl ∈ cur :: ready) as Htlin by by eapply last_Some_elem_of.
  assert (∀ t, t ∈ cur :: ready → 0 ≤ th_node t < 2 ^ 64) as Haddr.
  { intros t Ht. destruct (heap_node _ _ _ _ t R Ht) as (? & ? & _). unfold sizeof_task in *. lia. }
  assert (∀ x, range (task_next (th_node tl)) 8 x → ¬ range n sizeof_task x) as Htn.
  { intros x Hx Hnx. apply (Hap x Hnx), in_regions_bind. exists tl. split; [done|]. apply node_in_footprint.
    unfold range, task_next, sizeof_task in *. lia. }
  ret_step (find_tail_returns m (th_node cur) (th_node <$> ready) (th_node tl)).
  - eapply links_mods; [exact Hm| |apply (rq_ring _ _ _ _ R)]. intros a x Ha Hx Hpx.
    apply (list_elem_of_fmap th_node (cur :: ready)) in Ha as (t & -> & Ht).
    apply Hpx, in_regions_bind. exists t. split; [done|]. apply node_in_footprint.
    unfold range, task_next, sizeof_task in *. lia.
  - apply (nodes_nodup (cur :: ready)), R.
  - pose proof (nodes_nodup (cur :: ready) (rq_apart _ _ _ _ R)) as Hnd.
    apply nodup_length in Hnd; [cbn in Hnd; lia|].
    intros a Ha. apply (list_elem_of_fmap th_node (cur :: ready)) in Ha as (t & -> & Ht). by apply Haddr.
  - change (th_node cur :: (th_node <$> ready)) with (th_node <$> cur :: ready). by rewrite fmap_last, Htl.
  - intros tail ->. destruct (heap_node _ _ _ _ tl R Htlin) as (_ & _ & Hbt).
    ret_step store64_returns; [|done|].
    { eapply mods_backed; [exact Hm|]. eapply backed_sub; [exact Hbt|unfold task_next, sizeof_task; lia..]. }
    intros m1 [Hm1 H1]. eapply returns_mono; [apply store64_returns; [|apply Haddr; by left]|].
    { eapply mods_backed; [exact Hm1|]. eapply backed_sub; [exact Hbn|unfold task_next, sizeof_task; lia..]. }
    intros m2 [Hm2 H2]. split; [|split; [|done]].
    + eapply mods_trans; eapply mods_weaken; [exact Hm1| |exact Hm2|]; tauto.
    + eapply load64_keep; [exact Hm2|done|]. intros x Hx Hnx. apply (Htn x Hx).
      unfold range, task_next, sizeof_task in *. lia.
Qed.

Lemma new_stack_of n id stack entry m : 0 < stack → stack_of (new_thread n id stack entry m) = (stack, KERNEL_STACK_SIZE).
Proof. intros. unfold stack_of. cbn. by destruct (Z.eqb_spec stack 0); [lia|]. Qed.

(** A forged stack is that of a suspended thread. *)
Lemma new_thread_saved m n id stack entry :
  0 < stack → stack + KERNEL_STACK_SIZE ≤ 2 ^ 64 → 0 ≤ entry < 2 ^ 64 →
  load64 m (task_rsp n) = Ok (stack + KERNEL_STACK_SIZE - 64) →
  words m (stack + KERNEL_STACK_SIZE - 64) [0; 0; 0; 0; 0; 0; entry; task_trampoline] →
  saved m (new_thread n id stack entry m).
Proof.
  intros Hs Hs' Hentry Hsp (W1 & W2 & W3 & W4 & W5 & W6 & W7 & _). set (new := new_thread _ _ _ _ m).
  assert (rsp (th_ctx new) - 56 = stack + KERNEL_STACK_SIZE - 64) as Heq by (subst new; cbn; lia).
  split; rewrite ?new_stack_of, ?Heq by done; [done|by repeat split| | |done].
  - unfold in_stack, new. rewrite new_stack_of by done. cbn. unfold KERNEL_STACK_SIZE in *. lia.
  - unfold context_ok, context_words. rewrite !Forall_cons. subst new. cbn. unfold KERNEL_STACK_SIZE in *.
    split; [done|]. split; [lia|]. do 6 (split; [lia|]). apply Forall_nil_2.
Qed.

(** Linking it in touches neither the fields that are set nor its stack. *)
Lemma link_keeps_new σ cur ready A n stack tl x :
  rep σ cur ready A → tl ∈ cur :: ready →
  (∀ y, in_regions [(n, sizeof_task); (stack, KERNEL_STACK_SIZE)] y → ¬ in_regions ((cur :: ready) ≫= footprint) y) →
  (∀ y, range n sizeof_task y → ¬ range stack KERNEL_STACK_SIZE y) →
  range n 24 x ∨ range stack KERNEL_STACK_SIZE x →
  ¬ (range (task_next (th_node tl)) 8 x ∨ range (task_next n) 8 x).
Proof.
  intros R Htl Hfresh Hns Hx [Hy|Hy].
  - apply (Hfresh x).
    + apply in_regions_cons. destruct Hx as [Hx|Hx]; [left|right; exists (stack, KERNEL_STACK_SIZE); split; [by left|done]].
      unfold in_region, range, sizeof_task in *. cbn. lia.
    + apply in_regions_bind. exists tl. split; [done|]. apply node_in_footprint.
      unfold range, task_next, sizeof_task in *. lia.
  - destruct Hx as [Hx|Hx]; [unfold range, task_next in *; lia|]. apply (Hns x); [|done].
    unfold range, task_next, sizeof_task in *. lia.
Qed.

(** What is in memory once a task has been linked in behind [tl]. *)
Record laid σ (cur tl : thread) (n stack entry : Z) (m m' : mem) : Prop := {
  la_sp : load64 m' (task_rsp n) = Ok (stack + KERNEL_STACK_SIZE - 64);
  la_stack : words m' (stack + KERNEL_STACK_SIZE - 64) [0; 0; 0; 0; 0; 0; entry; task_trampoline];
  la_node : node_ok m' (new_thread n (next_id σ) stack entry m') TASK_READY;
  la_tail : load64 m' (task_next (th_node tl)) = Ok n;
  la_next : load64 m' (task_next n) = Ok (th_node cur);
  la_mods : mods (λ x, in_regions [(n, sizeof_task); (stack, KERNEL_STACK_SIZE)] x ∨
    range (task_next (th_node tl)) 8 x) m m';
}.

Lemma new_node_fresh n stack x : range n sizeof_task x → in_regions [(n, sizeof_task); (stack, KERNEL_STACK_SIZE)] x.
Proof. exists (n, sizeof_task). split; [by left|done]. Qed.

Lemma place_task_lays σ cur ready A h m (n : Z) stack entry tl :
  rep σ cur ready A → mods (λ x, ¬ in_regions ((cur :: ready) ≫= footprint) x) (ram σ) m →
  heap_inv h m ([(n, sizeof_task); (stack, KERNEL_STACK_SIZE)] ++ ((cur :: ready) ≫= objects) ++ A) →
  0 ≤ entry < 2 ^ 64 → 0 ≤ task_trampoline < 2 ^ 64 → last (cur :: ready) = Some tl →
  returns (place_task σ m n stack entry) (laid σ cur tl n stack entry m).
Proof.
  intros R Hm Hinv Hentry Htr Htl. set (N := [(n, sizeof_task); (stack, KERNEL_STACK_SIZE)]) in *.
  pose proof (fresh_apart _ _ _ _ _ _ _ R Hinv) as Hfresh. pose proof (new_node_fresh n stack) as HnN. fold N in HnN.
  destruct (heap_inv_object _ _ _ n sizeof_task Hinv) as (Hn & _ & Hn' & Hbn); [by left|].
  destruct (heap_inv_object _ _ _ stack KERNEL_STACK_SIZE Hinv) as (Hs & Hal & Hs' & Hbs); [by right; left|].
  assert (∀ x, range n sizeof_task x → ¬ range stack KERNEL_STACK_SIZE x) as Hns.
  { intros x Hx Hsx. destruct (heap_inv_apart _ _ _ Hinv) as [Hap _].
    apply (Hap x Hx), in_regions_cons. by left. }
  unfold place_task. ret_step forge_stack_returns; [done..|]. intros [m1 sp] (-> & Hws & Hm1).
  ret_step fill_task_returns; [by eapply mods_backed|unfold KERNEL_STACK_SIZE in *; lia..|apply R|unfold TASK_READY; lia|].
  intros m2 (Hm2 & H1 & H2 & H3 & H4).
  assert (mods (in_regions N) m m2) as HmN.
  { eapply mods_trans; eapply mods_weaken; [exact Hm1| |exact Hm2|].
    - intros x Hx. exists (stack, KERNEL_STACK_SIZE). split; [by right; left|].
      unfold in_region, range, KERNEL_STACK_SIZE in *. cbn. lia.
    - intros x Hx. apply HnN. unfold range, sizeof_task in *. lia. }
  eapply returns_mono; [eapply (link_task _ _ _ _ _ _ n R Htl)|].
  { eapply mods_trans; [exact Hm|]. eapply mods_weaken; [exact HmN|exact Hfresh]. }
  { eapply mods_backed; [exact HmN|exact Hbn]. } { unfold sizeof_task in *; lia. } { intros x Hx. by apply Hfresh, HnN. }
  intros m3 (Hm3 & H5 & H6).
  pose proof (λ x, link_keeps_new _ _ _ _ n stack tl x R (last_Some_elem_of _ _ Htl) Hfresh Hns) as Hoff.
  split; [| | |exact H5|exact H6|].
  - eapply load64_keep; [exact Hm3|done|]. intros x Hx. apply Hoff. left. unfold range, task_rsp in *. lia.
  - eapply words_mods; [exact Hm3| |eapply words_mods; [exact Hm2| |exact Hws]]; unfold range, KERNEL_STACK_SIZE in *; cbn.
    + intros x Hx. apply Hoff. right. lia.
    + intros x Hx Hy. apply (Hns x); unfold sizeof_task in *; lia.
  - split; [eapply load64_keep|eapply load32_keep..]; try exact Hm3; try done;
      intros x Hx; apply Hoff; left; unfold range, task_stack_base, task_id, task_state in *; cbn in *; lia.
  - eapply mods_trans; eapply mods_weaken; [exact HmN|tauto|exact Hm3|].
    intros x [Hx|Hx]; [by right|left]. apply HnN. unfold range, task_next, sizeof_task in *. lia.
Qed.

(** A new task whose node and stack have been allocated. *)
Lemma place_task_returns σ cur ready A h m (n : Z) stack entry :
  rep σ cur ready A → mods (λ x, ¬ in_regions ((cur :: ready) ≫= footprint) x) (ram σ) m →
  heap_inv h m ([(n, sizeof_task); (stack, KERNEL_STACK_SIZE)] ++ ((cur :: ready) ≫= objects) ++ A) →
  0 ≤ entry < 2 ^ 64 → 0 ≤ task_trampoline < 2 ^ 64 →
  returns (place_task σ m n stack entry)
    (λ m', let new := new_thread n (next_id σ) stack entry m' in
       rep {| current := current σ; next_id := u32 (next_id σ + 1); heap := h; ram := m'; regs := regs σ |}
         cur (ready ++ [new]) A ∧
       rsp (th_ctx new) mod 16 = 8 ∧ load64 m' (rsp (th_ctx new)) = Ok task_trampoline ∧
       mods (λ x, heap_zone x ∧ ¬ in_region (stack_of cur) x) m m').
Proof.
  intros R Hm Hinv Hentry Htr.
  destruct (last (cur :: ready)) as [tl|] eqn:Htl; [|by rewrite last_None in Htl].
  destruct (heap_inv_object _ _ _ stack KERNEL_STACK_SIZE Hinv) as (Hs & Hal & Hs' & _); [by right; left|].
  pose proof (fresh_apart _ _ _ _ _ _ _ R Hinv) as Hfresh.
  eapply returns_mono; [by eapply place_task_lays|]. intros m3 [Hsp Hws Hno Htail Hnext Hall]. cbv zeta.
  set (new := new_thread _ _ _ _ m3) in *.
  assert (∀ x, range (task_next (th_node tl)) 8 x → in_regions ((cur :: ready) ≫= objects) x) as Hlink.
  { intros x Hx. eapply node_in_objects; [by eapply last_Some_elem_of|]. unfold range, task_next, sizeof_task in *. lia. }
  assert (heap_inv h m3 (footprint new ++ ((cur :: ready) ≫= objects) ++ A)) as Hinv3.
  { unfold footprint, new. rewrite new_stack_of by done. eapply heap_inv_mods; [exact Hinv|exact Hall|].
    intros x [Hx|Hx]; left; apply in_regions_app; [by left|right]. apply in_regions_app. left. by apply Hlink. }
  split; [|split; [|split]].
  - apply (create_rep _ _ _ _ _ _ new tl); try done.
    + eapply mods_trans; eapply mods_weaken; [exact Hm|tauto|exact Hall|]. intros x [Hx|Hx]; [left; by apply Hfresh|by right].
    + by apply new_thread_saved.
    + subst new. cbn. lia.
    + apply u32_range.
  - subst new. cbn. unfold KERNEL_STACK_SIZE. div_lia.
  - destruct Hws as (_ & _ & _ & _ & _ & _ & _ & W8 & _). etransitivity; [|exact W8]. f_equal. subst new. cbn. lia.
  - eapply mods_weaken; [exact Hall|]. intros x Hx. split.
    + eapply heap_inv_zone; [exact Hinv|].
      apply in_regions_app. destruct Hx as [Hx|Hx]; [by left|right]. apply in_regions_app. left. by apply Hlink.
    + intros Hs'x. destruct Hx as [Hx|Hx]; [by apply (Hfresh x Hx), (stack_in_regions _ cur); [left|]|].
      eapply (link_off _ cur tl x (rq_apart _ _ _ _ R)); [by left|by eapply last_Some_elem_of|exact Hx|by right; left].
Qed.

(** The heap refuses the node, or grants it and refuses the stack. *)
Definition no_room σ : Prop := ∃ h m n, heap_alloc (heap σ) (ram σ) sizeof_task = Ok (h, m, n) ∧
  (n = 0 ∨ ∃ h' m', heap_alloc h m KERNEL_STACK_SIZE = Ok (h', m', 0)).

Lemma task_create_returns σ cur ready A entry :
  rep σ cur ready A → 0 ≤ entry < 2 ^ 64 → 0 ≤ task_trampoline < 2 ^ 64 →
  returns (task_create σ entry) (λ '(σ', a),
    current σ' = current σ ∧ regs σ' = regs σ ∧
    mods (λ x, heap_zone x ∧ ¬ in_region (stack_of cur) x) (ram σ) (ram σ') ∧
    ((a = 0 ∧ next_id σ' = next_id σ ∧ rep σ' cur ready A ∧ no_room σ) ∨
     ∃ stack, let new := new_thread a (next_id σ) stack entry (ram σ') in
       a ≠ 0 ∧ stack ≠ 0 ∧ next_id σ' = u32 (next_id σ + 1) ∧ rep σ' cur (ready ++ [new]) A ∧
       rsp (th_ctx new) mod 16 = 8 ∧ load64 (ram σ') (rsp (th_ctx new)) = Ok task_trampoline)).
Proof.
  intros R Hentry Htr. unfold task_create. pose proof (rq_heap _ _ _ _ R) as Hinv.
  destruct (returns_inv _ _ (heap_alloc_law (heap σ) (ram σ) _ sizeof_task Hinv ltac:(unfold sizeof_task; lia)))
    as ([[h m] n] & Hrun & Hs). rewrite Hrun. cbn [mbind outcome_bind].
  destruct Hs as [(-> & -> & ->)|(Hn & Hinv1 & Hm1)].
  { rewrite Z.eqb_refl. split; [done|split; [done|split; [done|left]]]. split; [done|split; [done|split; [by eapply rep_heap|]]].
    exists (heap σ), (ram σ), 0. split; [done|by left]. }
  destruct (Z.eqb_spec n 0) as [?|_]; [done|].
  assert (∀ x A', heap_zone x ∧ ¬ in_regions (((cur :: ready) ≫= objects) ++ A') x →
    heap_zone x ∧ ¬ in_region (stack_of cur) x) as Hw.
  { intros x A' Hx. split; [apply Hx|]. intros Hs. eapply heap_area_apart; [exact R|exact Hx|].
    by apply (stack_in_regions _ cur); [left|]. }
  assert (∀ x, heap_zone x ∧ ¬ in_regions ((n, sizeof_task) :: ((cur :: ready) ≫= objects) ++ A) x →
    heap_zone x ∧ ¬ in_region (stack_of cur) x) as Hw'.
  { intros x [Hz Hx]. apply (Hw x A). split; [done|]. intros Hy. by apply Hx, in_regions_cons; right. }
  assert (mods (λ x, heap_zone x ∧ ¬ in_region (stack_of cur) x) (ram σ) m) as Hz1.
  { eapply mods_weaken; [exact Hm1|]. intros x. apply Hw. }
  assert (mods (λ x, ¬ in_regions ((cur :: ready) ≫= footprint) x) (ram σ) m) as Hoff.
  { eapply mods_weaken; [exact Hm1|]. intros x. by eapply heap_area_apart. }
  destruct (returns_inv _ _ (heap_alloc_law h m _ KERNEL_STACK_SIZE Hinv1 ltac:(unfold KERNEL_STACK_SIZE; lia)))
    as ([[h2 m2] stack] & Hrun2 & Hs2). rewrite Hrun2. cbn [mbind outcome_bind].
  destruct Hs2 as [(-> & -> & ->)|(Hs & Hinv2 & Hm2)].
  { rewrite Z.eqb_refl. ret_step (heap_free_law h m _ n sizeof_task Hinv1). intros [h3 m3] [Hinv3 Hm3].
    cbn [returns]. split; [done|split; [done|split; [|left]]].
    { eapply mods_trans; [exact Hz1|]. eapply mods_weaken; [exact Hm3|]. intros x. apply Hw. }
    split; [done|split; [done|split]].
    2: { exists h, m, n. split; [done|right]. by exists h, m. }
    eapply rep_heap; [exact R| |done]. eapply mods_trans; [exact Hoff|].
    eapply mods_weaken; [exact Hm3|]. intros x. by eapply heap_area_apart. }
  destruct (Z.eqb_spec stack 0) as [?|_]; [done|].
  ret_step (place_task_returns σ cur ready A h2 m2 n stack entry R); [| |done|done|].
  - eapply mods_trans; [exact Hoff|]. eapply mods_weaken; [exact Hm2|]. intros x [Hz Hx].
    eapply heap_area_apart; [exact R|]. split; [done|]. intros Hy. apply Hx, in_regions_cons. by right.
  - eapply heap_inv_perm; [apply perm_swap|exact Hinv2].
  - intros m6 (Hrep & Hal & Htrm & Hm6). cbn [returns]. split; [done|split; [done|split; [|right; by exists stack]]].
    eapply mods_trans; [exact Hz1|]. eapply mods_trans; [|exact Hm6]. eapply mods_weaken; [exact Hm2|exact Hw'].
Qed.

(** * Starting *)

(** The boot flow becomes task 0, if the heap has room for a node. *)
Lemma sched_init_returns σ A :
  heap_inv (heap σ) (ram σ) A → context_ok (regs σ) → 0 ≤ next_id σ < 2 ^ 32 →
  0 ≤ boot.1 → boot.1 + boot.2 ≤ 2 ^ 64 → backed (ram σ) boot.1 boot.2 →
  (∀ x, in_region boot x → ¬ heap_zone x) → ram σ !! 0 = None →
  ∃ h m n, heap_alloc (heap σ) (ram σ) sizeof_task = Ok (h, m, n) ∧
    if decide (n = 0) then sched_init σ = Fault else
    returns (sched_init σ) (λ σ', ∃ cur, th_node cur = n ∧ th_id cur = next_id σ ∧ th_base cur = 0 ∧
      rep σ' cur [] A ∧ next_id σ' = u32 (next_id σ + 1) ∧ regs σ' = regs σ ∧ heap σ' = h ∧
      mods heap_zone (ram σ) (ram σ')).
Proof.
  intros Hinv Hr Hid Hb0 Hb1 Hb2 Hz H0'. unfold sched_init.
  destruct (returns_inv _ _ (heap_alloc_law (heap σ) (ram σ) A sizeof_task Hinv ltac:(unfold sizeof_task; lia)))
    as ([[h m] n] & Hrun & Hs). exists h, m, n. split; [done|]. rewrite Hrun. cbn [mbind outcome_bind].
  destruct Hs as [(-> & -> & ->)|(Hn & Hinv1 & Hm1)].
  { rewrite decide_True by done. unfold fill_task, store64, task_rsp. cbn [store_le]. unfold store8. by rewrite H0'. }
  rewrite decide_False by done. destruct (heap_inv_object _ _ _ n sizeof_task Hinv1) as (Hp & _ & Hn' & Hbn); [by left|].
  ret_step fill_task_returns; [done|lia..|done|unfold TASK_RUNNING; lia|]. intros m2 (Hm2 & H1 & H2 & H3 & H4).
  ret_step store64_returns; [|unfold sizeof_task in *; lia|].
  { eapply mods_backed; [exact Hm2|]. eapply backed_sub; [exact Hbn|unfold task_next, sizeof_task; lia..]. }
  intros m3 [Hm3 H5]. cbn [returns].
  set (cur := {| th_node := n; th_id := next_id σ; th_base := 0; th_ctx := regs σ; th_snap := m3 |}).
  exists cur. do 3 (split; [done|]).
  assert (mods (range n sizeof_task) m m3) as Hm13.
  { eapply mods_trans; eapply mods_weaken; [exact Hm2| |exact Hm3|];
      unfold range, task_next, sizeof_task; lia. }
  split; [|do 3 (split; [done|]); eapply mods_trans; eapply mods_weaken; [exact Hm1|by intros x [? _]|exact Hm13|]].
  2: { intros x Hx. eapply heap_inv_zone; [exact Hinv1|]. apply in_regions_cons. by left. }
  split; cbn [heap ram current regs next_id]; [| | |done|done| |by intros ? []%elem_of_nil|done|apply u32_range].
  - eapply heap_inv_mods; [exact Hinv1|exact Hm13|]. intros x Hx. left. apply in_regions_cons. by left.
  - split; [done|split; [done|split; [|done]]]. eapply mods_backed; [exact Hm13|]. by eapply mods_backed.
  - cbn. split; [|split; [|done]]; [intros x Hx Hy|intros x _ (? & []%elem_of_nil & _)].
    apply in_regions_cons in Hy as [Hy|(? & []%elem_of_nil & _)]. apply (Hz x Hy).
    eapply heap_inv_zone; [exact Hinv1|]. apply in_regions_cons. by left.
  - split; cbn; [eapply load64_keep|eapply load32_keep..]; try exact Hm3; try done;
      unfold range, task_next, task_stack_base, task_id, task_state; lia.
Qed.

(** * Runs *)

(** The stack of the running task, read off its node. *)
Definition own_stack σ (s : region) : Prop := ∃ base,
  load64 (ram σ) (task_stack_base (current σ)) = Ok base ∧
  s = if base =? 0 then boot else (base, KERNEL_STACK_SIZE).

(** [sched_run A n σ σ']: the tasks run from [σ] to [σ'] and yield [n] times on the
    way.  Between calls of the scheduler the running task changes its registers and
    writes to its own stack and to the memory [A]; it calls the scheduler with 56
    bytes of stack left. *)
Inductive sched_run A : nat → sched H → sched H → Prop :=
  | run_start σ : sched_run A 0 σ σ
  | run_compute n σ σ1 s P m r :
      sched_run A n σ σ1 → own_stack σ1 s → mods P (ram σ1) m →
      (∀ x, P x → in_region s x ∨ in_regions A x) → context_ok r →
      sched_run A n σ
        {| current := current σ1; next_id := next_id σ1; heap := heap σ1; ram := m; regs := r |}
  | run_create n σ σ1 entry σ2 a :
      sched_run A n σ σ1 → 0 ≤ entry < 2 ^ 64 → task_create σ1 entry = Ok (σ2, a) →
      sched_run A n σ σ2
  | run_yield n σ σ1 s ret σ2 :
      sched_run A n σ σ1 → own_stack σ1 s → s.1 + 56 ≤ rsp (regs σ1) ≤ s.1 + s.2 →
      0 ≤ ret < 2 ^ 64 → sched_yield σ1 ret = Ok σ2 →
      sched_run A (S n) σ σ2.

Lemma own_stack_of σ cur ready A s : rep σ cur ready A → own_stack σ s → s = stack_of cur.
Proof.
  intros R (base & Hb & ->). rewrite (rq_current _ _ _ _ R) in Hb.
  destruct (rq_running _ _ _ _ R) as [Hb' _ _]. unfold stack_of.
  by assert (base = th_base cur) as -> by congruence.
Qed.

Lemma own_stack_rep σ cur ready A : rep σ cur ready A → own_stack σ (stack_of cur).
Proof.
  intros R. exists (th_base cur). rewrite (rq_current _ _ _ _ R).
  destruct (rq_running _ _ _ _ R). done.
Qed.

Lemma own_in_stack σ cur ready A s :
  rep σ cur ready A → own_stack σ s → s.1 + 56 ≤ rsp (regs σ) ≤ s.1 + s.2 →
  in_stack cur 56 (rsp (regs σ)).
Proof.
  intros R Hs Hroom. rewrite (own_stack_of _ _ _ _ _ R Hs) in Hroom. split; [done|].
  pose proof (rq_regs _ _ _ _ R) as Hr. unfold context_ok, context_words in Hr.
  rewrite !Forall_cons in Hr. tauto.
Qed.

Lemma rep_compute P σ cur ready A m r :
  rep σ cur ready A → mods P (ram σ) m →
  (∀ x, P x → in_region (stack_of cur) x ∨ in_regions A x ∨ ¬ heap_zone x ∧ ¬ in_region boot x ∨
     ∃ t, t ∈ ready ∧ dead_stack t x) → context_ok r →
  rep {| current := current σ; next_id := next_id σ; heap := heap σ; ram := m; regs := r |} cur ready A.
Proof.
  intros R Hm HP Hr. pose proof (rq_heap _ _ _ _ R) as Hinv.
  assert (∀ x, ¬ heap_zone x → ¬ in_region boot x → ¬ in_regions ((cur :: ready) ≫= footprint) x) as Hout.
  { intros x Hz Hb (t & Ht & Hfx)%in_regions_bind. destruct (footprint_objects t x Hfx) as [Hox|?]; [|done].
    apply Hz. eapply heap_inv_zone; [exact Hinv|]. apply in_regions_app. left. apply in_regions_bind. by exists t. }
  assert (∀ x, in_regions A x → ¬ in_regions ((cur :: ready) ≫= footprint) x) as HA.
  { intros x Hx (t & Ht & Hfx)%in_regions_bind.
    destruct (footprint_objects t x Hfx) as [Hox|Hbx].
    - pose proof (heap_inv_apart _ _ _ Hinv) as Hap. apply apart_all_app in Hap as (_ & _ & Hap).
      apply (Hap x); [|done]. apply in_regions_bind. by exists t.
    - destruct (rq_boot _ _ _ _ R) as (_ & _ & _ & Hz). apply (Hz x Hbx).
      eapply heap_inv_zone; [exact Hinv|]. apply in_regions_app. by right. }
  pose proof (rq_apart _ _ _ _ R) as Hap. pose proof (λ t u x, footprint_owner (cur :: ready) t u x Hap) as Howner.
  rewrite bind_cons in Hap. apply apart_all_app in Hap as ([Hown _] & _ & Hap).
  eapply (queue_mods_dead _ σ); [exact R|exact Hm| | |done].
  - assert (∀ x, ¬ in_regions ((cur :: ready) ≫= footprint) x →
      (∀ t, t ∈ ready → in_regions (footprint t) x → dead_stack t x) ∧ ¬ range (th_node cur + 8) 24 x) as Hweak.
    { intros x Hx. rewrite bind_cons, in_regions_app in Hx. split.
      { intros t Ht Hfx. destruct Hx. right. apply in_regions_bind. by exists t. }
      intros Hn. apply Hx. left.
      apply node_in_footprint. unfold range, sizeof_task in *. lia. }
    intros x Hx. destruct (HP x Hx) as [Hs|[HxA|[[Hz Hb]|(t & Ht & Hd)]]]; [|by apply Hweak, HA|by apply Hweak, Hout|].
    2: { pose proof (stack_in_footprint _ _ (proj1 Hd)) as Hfx. split.
         - intros u Hu Hux. by rewrite (Howner u t x ltac:(by right) ltac:(by right) Hux Hfx).
         - intros Hn. apply (Hap x); [|apply in_regions_bind; by exists t].
           apply node_in_footprint. unfold range, sizeof_task in *. lia. }
    + split.
      { intros t Ht Hfx. destruct (Hap x (stack_in_footprint _ _ Hs)). apply in_regions_bind. by exists t. }
      intros Hn.
      apply (Hown x); [unfold in_region, range in *; cbn; unfold sizeof_task; lia|].
      apply in_regions_cons. by left.
  - eapply heap_inv_mods; [exact Hinv|exact Hm|]. intros x Hx. rewrite in_regions_app.
    destruct (HP x Hx) as [Hs|[HxA|[[Hz _]|(t & Ht & Hs & _)]]]; [|by left; right|by right|].
    2: { destruct (footprint_objects t x (stack_in_footprint _ _ Hs)) as [Ho|Hb]; [|right; by apply (rq_boot _ _ _ _ R)].
         left; left. apply in_regions_bind. exists t. split; [by right|done]. }
    destruct (footprint_objects cur x (stack_in_footprint _ _ Hs)) as [Ho|Hb].
    + left; left. apply in_regions_bind. exists cur. split; [by left|done].
    + right. by apply (rq_boot _ _ _ _ R).
Qed.

(** Memory the running task gets from the heap, or gives back. *)
Lemma rep_alloc σ cur ready A size :
  rep σ cur ready A → 0 ≤ size ≤ 2 ^ 63 - 16 →
  returns (heap_alloc (heap σ) (ram σ) size) (λ '(h, m, a),
    mods heap_zone (ram σ) m ∧ rep (set_heap σ h m) cur ready (if a =? 0 then A else (a, size) :: A)).
Proof.
  intros R Hsize. eapply returns_mono; [apply heap_alloc_law; [apply R|done]|].
  intros [[h m] a] [(-> & -> & ->)|(Ha & Hinv & Hm)].
  { split; [apply mods_refl|]. eapply rep_heap; [exact R|apply mods_refl|apply R]. }
  split; [eapply mods_weaken; [exact Hm|tauto]|]. rewrite (proj2 (Z.eqb_neq a 0)) by done.
  eapply rep_heap; [exact R| |].
  - eapply mods_weaken; [exact Hm|]. intros x. by eapply heap_area_apart.
  - eapply heap_inv_perm; [|exact Hinv]. by rewrite <- Permutation_middle.
Qed.

Lemma rep_free σ cur ready A a n :
  rep σ cur ready ((a, n) :: A) →
  returns (heap_free (heap σ) (ram σ) a) (λ '(h, m),
    mods heap_zone (ram σ) m ∧ rep (set_heap σ h m) cur ready A).
Proof.
  intros R. eapply returns_mono.
  { apply (heap_free_law _ _ (((cur :: ready) ≫= objects) ++ A) a n).
    eapply heap_inv_perm; [|apply (rq_heap _ _ _ _ R)]. by rewrite <- Permutation_middle. }
  intros [h m] [Hinv Hm]. split; [eapply mods_weaken; [exact Hm|by intros x [? _]]|].
  eapply rep_heap; [exact R| |exact Hinv]. eapply mods_weaken; [exact Hm|]. intros x. by eapply heap_area_apart.
Qed.

(** A run keeps the queue well-formed; [n] yields take the first [n] threads off
    it, and what is appended stays behind. *)
Lemma run_rep A n σ σ' cur ready :
  0 ≤ task_trampoline < 2 ^ 64 → rep σ cur ready A → sched_run A n σ σ' →
  ∃ cur' ready', rep σ' cur' ready' A ∧ ((n ≤ length ready)%nat → ∃ new, ready' = drop n ready ++ new).
Proof.
  intros Htr R. induction 1 as [σ|n σ σ1 s P m r _ IH Hs Hm HP Hr|n σ σ1 entry σ2 a _ IH Hentry Hrun
    |n σ σ1 s ret σ2 _ IH Hs Hroom Hret Hrun].
  - exists cur, ready. split; [done|]. intros _. exists []. by rewrite app_nil_r.
  - destruct (IH R) as (cur' & ready' & R' & Hq). exists cur', ready'. split; [|done].
    rewrite (own_stack_of _ _ _ _ _ R' Hs) in HP. eapply rep_compute; [exact R'|exact Hm| |exact Hr].
    intros x Hx. destruct (HP x Hx); tauto.
  - destruct (IH R) as (cur' & ready' & R' & Hq).
    pose proof (task_create_returns _ _ _ _ entry R' Hentry Htr) as Hc. rewrite Hrun in Hc. cbn in Hc.
    destruct Hc as (_ & _ & _ & [(_ & _ & R2 & _)|(stack & _ & _ & _ & R2 & _)]); [by exists cur', ready'|].
    eexists cur', _. split; [exact R2|]. intros Hn. destruct (Hq Hn) as (new & ->).
    rewrite <- app_assoc. by eexists.
  - destruct (IH R) as (cur' & ready' & R' & Hq). destruct ready' as [|next rest].
    + rewrite (sched_yield_alone _ _ _ ret R') in Hrun. injection Hrun as <-. exists cur', []. split; [done|].
      intros Hn. destruct Hq as (new & Hq); [lia|]. symmetry in Hq. apply app_nil in Hq as [Hq _].
      apply (f_equal length) in Hq. rewrite length_drop in Hq. cbn in Hq. lia.
    + assert (in_stack cur' 56 (rsp (regs σ1))) as Hin.
      { by eapply own_in_stack. }
      pose proof (sched_yield_returns _ _ _ _ _ ret R' Hin Hret) as Hy. rewrite Hrun in Hy.
      destruct Hy as (R2 & _). eexists next, _. split; [exact R2|]. intros Hn.
      destruct Hq as (new & Hq); [lia|].
      destruct (lookup_lt_is_Some_2 ready n) as [t Ht]; [lia|]. rewrite (drop_S _ t) in Hq by done. injection Hq as -> ->.
      rewrite <- app_assoc. by eexists.
Qed.

(** * One task beside the others *)

(** A step of the running task: it computes, creates a task or yields, as in
    [sched_run], and leaves the bytes of [keep] as they are. *)
Inductive task_step A (keep : region) : sched H → sched H → Prop :=
  | step_compute σ s P m r :
      own_stack σ s → mods P (ram σ) m →
      (∀ x, P x → (in_region s x ∨ in_regions A x) ∧ ¬ in_region keep x) → context_ok r →
      task_step A keep σ
        {| current := current σ; next_id := next_id σ; heap := heap σ; ram := m; regs := r |}
  | step_create σ entry σ' a :
      0 ≤ entry < 2 ^ 64 → task_create σ entry = Ok (σ', a) → task_step A keep σ σ'
  | step_yield σ s ret σ' :
      own_stack σ s → s.1 + 56 ≤ rsp (regs σ) ≤ s.1 + s.2 →
      (∀ x, range (rsp (regs σ) - 56) 56 x → ¬ in_region keep x) →
      0 ≤ ret < 2 ^ 64 → sched_yield σ ret = Ok σ' → task_step A keep σ σ'.

(** [beside A n self σ σ']: all tasks run from [σ] to [σ'], the one with the node [n]
    by the steps [self], the others as they like. *)
Inductive beside A (n : Z) (self : sched H → sched H → Prop) : sched H → sched H → Prop :=
  | beside_start σ : beside A n self σ σ
  | beside_self σ σ1 σ2 :
      beside A n self σ σ1 → current σ1 = n → self σ1 σ2 → beside A n self σ σ2
  | beside_other σ σ1 σ2 :
      beside A n self σ σ1 → current σ1 ≠ n → task_step A (0, 0) σ1 σ2 → beside A n self σ σ2.

(** Where the thread with the node [n] and the stack at [base] stands: while it runs
    [Run] holds of its registers and the memory, while it is suspended [Susp] holds of
    its context and its stack then. *)
Definition tracked (Run Susp : context → mem → Prop) A (n base : Z) σ : Prop := ∃ cur ready,
  rep σ cur ready A ∧
  ((th_node cur = n ∧ th_base cur = base ∧ Run (regs σ) (ram σ)) ∨
   ∃ t, t ∈ ready ∧ th_node t = n ∧ th_base t = base ∧ Susp (th_ctx t) (th_snap t)).

Lemma base_stack base t : base ≠ 0 → th_base t = base → stack_of t = (base, KERNEL_STACK_SIZE).
Proof. intros Hbase <-. unfold stack_of. by destruct (Z.eqb_spec (th_base t) 0). Qed.

Section beside.
Context (Run Susp : context → mem → Prop) (A : list region) (n base : Z).
Context (Htr : 0 ≤ task_trampoline < 2 ^ 64) (Hbase : base ≠ 0).
(** A suspended thread is resumed with its context and its stack. *)
Context (Hresume : ∀ c snap m, Susp c snap →
  (∀ x, rsp c ≤ x < base + KERNEL_STACK_SIZE → m !! x = snap !! x) → Run c m).

Lemma tracked_cur σ cur ready : rep σ cur ready A → tracked Run Susp A n base σ → current σ = n →
  th_node cur = n ∧ th_base cur = base ∧ Run (regs σ) (ram σ).
Proof using.
  intros R (cur' & ready' & R' & Hc) Hn.
  rewrite (rq_current _ _ _ _ R') in Hn. destruct Hc as [(_ & Hb & HR)|(t & Ht & Hnt & _)].
  - rewrite <- (rq_current _ _ _ _ R), (rq_current _ _ _ _ R'). split; [done|split; [|done]].
    pose proof (no_base _ _ _ (rq_running _ _ _ _ R)) as H1. pose proof (no_base _ _ _ (rq_running _ _ _ _ R')) as H2.
    rewrite <- (rq_current _ _ _ _ R) in H1. rewrite <- (rq_current _ _ _ _ R') in H2. congruence.
  - pose proof (nodes_nodup _ (rq_apart _ _ _ _ R')) as Hnd. cbn in Hnd. apply NoDup_cons in Hnd as [Hnd _].
    destruct Hnd. apply list_elem_of_fmap. exists t. split; [congruence|done].
Qed.

(** A yield of another task hands the CPU to the thread, or leaves it in the queue. *)
Lemma tracked_yield σ cur ready t ret :
  rep σ cur ready A → t ∈ ready → th_node t = n → th_base t = base → Susp (th_ctx t) (th_snap t) →
  in_stack cur 56 (rsp (regs σ)) → 0 ≤ ret < 2 ^ 64 →
  returns (sched_yield σ ret) (tracked Run Susp A n base).
Proof using Hbase Hresume.
  intros R Ht Hn Hb HS Hin Hret. destruct ready as [|next rest]; [by apply elem_of_nil in Ht|].
  eapply returns_mono; [by eapply sched_yield_returns|]. intros σ' (R' & Hregs & _ & _ & Hm).
  eexists next, _. split; [exact R'|]. apply elem_of_cons in Ht as [->|Ht].
  - left. split; [done|split; [done|]]. rewrite Hregs. apply (Hresume _ (th_snap next)); [done|].
    intros x Hx. eapply yield_stack; [exact R|exact Hin|exact Hm|]. by rewrite (base_stack base).
  - right. exists t. split; [|done]. apply elem_of_app. by left.
Qed.

Lemma tracked_other σ σ' :
  tracked Run Susp A n base σ → current σ ≠ n → task_step A (0, 0) σ σ' → tracked Run Susp A n base σ'.
Proof using Htr Hbase Hresume.
  intros (cur & ready & R & Hc) Hne Hstep. rewrite (rq_current _ _ _ _ R) in Hne.
  destruct Hc as [(Hn & _)|(t & Ht & Hn & Hb & HS)]; [done|].
  destruct Hstep as [σ s P m r Hs Hm HP Hr|σ entry σ' a Hentry Hrun|σ s ret σ' Hs Hroom _ Hret Hrun].
  - exists cur, ready. split; [|by right; exists t]. rewrite (own_stack_of _ _ _ _ _ R Hs) in HP.
    eapply rep_compute; [exact R|exact Hm| |exact Hr]. intros x Hx. destruct (HP x Hx); tauto.
  - pose proof (task_create_returns _ _ _ _ entry R Hentry Htr) as Hc. rewrite Hrun in Hc. cbn in Hc.
    destruct Hc as (_ & _ & _ & [(_ & _ & R2 & _)|(stack & _ & _ & _ & R2 & _)]); eexists cur, _; (split; [exact R2|]);
      right; exists t; (split; [|done]); [done|apply elem_of_app; by left].
  - pose proof (tracked_yield σ cur ready t ret R Ht Hn Hb HS (own_in_stack _ _ _ _ _ R Hs Hroom) Hret) as Hy.
    by rewrite Hrun in Hy.
Qed.

(** The thread stays tracked if its own steps keep it so. *)
Lemma tracked_beside self σ σ' :
  (∀ σ1 σ2 cur ready, rep σ1 cur ready A → th_node cur = n → th_base cur = base → Run (regs σ1) (ram σ1) →
     self σ1 σ2 → tracked Run Susp A n base σ2) →
  beside A n self σ σ' → tracked Run Susp A n base σ → tracked Run Susp A n base σ'.
Proof using Htr Hbase Hresume.
  intros Hself. induction 1 as [|σ σ1 σ2 _ IH Hn Hs|σ σ1 σ2 _ IH Hne Hs]; intros T; [done| |].
  - specialize (IH T). pose proof IH as (cur & ready & R & _).
    destruct (tracked_cur σ1 cur ready R IH Hn) as (? & ? & ?). by eapply Hself.
  - eapply tracked_other; [by apply IH|done|done].
Qed.

(** Its own yields. *)
Lemma tracked_own_yield σ cur ready ret :
  rep σ cur ready A → th_node cur = n → th_base cur = base → in_stack cur 56 (rsp (regs σ)) → 0 ≤ ret < 2 ^ 64 →
  (ready = [] → Run (regs σ) (ram σ)) → (ready ≠ [] → Susp (suspended (regs σ) ret) (ram σ)) →
  returns (sched_yield σ ret) (tracked Run Susp A n base).
Proof using.
  intros R Hn Hb Hin Hret HR HS. destruct ready as [|next rest].
  { erewrite sched_yield_alone; [|exact R]. exists cur, []. split; [done|]. left. auto. }
  eapply returns_mono; [by eapply sched_yield_returns|]. intros σ' (R' & _).
  eexists next, _. split; [exact R'|]. right. eexists.
  split; [apply elem_of_app; right; by apply list_elem_of_singleton|]. split; [done|split; [done|]]. by apply HS.
Qed.
End beside.

(** ** An entry function, up to its return *)

(** The return address of the entry function, on top of the stack at [base]. *)
Definition return_slot (base : Z) : region := (base + KERNEL_STACK_SIZE - 8, 8).

(** It is the trampoline's, in memory or on the suspended stack. *)
Definition slot_run (base : Z) (_ : context) m : Prop := load64 m (return_slot base).1 = Ok task_trampoline.

Definition slot_susp (base : Z) (c : context) snap : Prop :=
  rsp c ≤ (return_slot base).1 ∧ load64 snap (return_slot base).1 = Ok task_trampoline.

Lemma slot_resume base c snap m :
  slot_susp base c snap → (∀ x, rsp c ≤ x < base + KERNEL_STACK_SIZE → m !! x = snap !! x) → slot_run base c m.
Proof.
  intros [Hle Hl] Hm. unfold slot_run, return_slot, load64 in *. cbn [fst] in *. rewrite <- Hl.
  apply (load_le_agree 8). intros x Hx. apply Hm. unfold range in Hx. lia.
Qed.

Lemma slot_step A n base σ σ' cur ready :
  0 ≤ task_trampoline < 2 ^ 64 → base ≠ 0 → rep σ cur ready A → th_node cur = n → th_base cur = base →
  slot_run base (regs σ) (ram σ) → task_step A (return_slot base) σ σ' →
  tracked (slot_run base) (slot_susp base) A n base σ'.
Proof.
  intros Htr Hbase R Hn Hb HR Hstep. pose proof (base_stack base cur Hbase Hb) as Hstk.
  destruct Hstep as [σ s P m r Hs Hm HP Hr|σ entry σ' a Hentry Hrun|σ s ret σ' Hs Hroom Hk Hret Hrun].
  - exists cur, ready. rewrite (own_stack_of _ _ _ _ _ R Hs) in HP. split.
    { eapply rep_compute; [exact R|exact Hm| |exact Hr]. intros x Hx. destruct (HP x Hx); tauto. }
    left. split; [done|split; [done|]]. eapply load64_keep; [exact Hm|exact HR|]. intros x Hx Hpx. by apply (HP x Hpx).
  - pose proof (task_create_returns _ _ _ _ entry R Hentry Htr) as Hc. rewrite Hrun in Hc. cbn in Hc.
    destruct Hc as (_ & _ & Hm & Hc).
    assert (slot_run base (regs σ') (ram σ')) as HR'.
    { eapply load64_keep; [exact Hm|exact HR|]. intros x Hx [_ Hns]. apply Hns. rewrite Hstk.
      unfold in_region, return_slot, range in *. cbn in *. unfold KERNEL_STACK_SIZE in *. lia. }
    destruct Hc as [(_ & _ & R2 & _)|(stack & _ & _ & _ & R2 & _)]; eexists cur, _; (split; [exact R2|]); by left.
  - rewrite (own_stack_of _ _ _ _ _ R Hs) in Hroom. pose proof Hroom as Hroom'. rewrite Hstk in Hroom'. cbn in Hroom'.
    pose proof (tracked_own_yield (slot_run base) (slot_susp base) A n base σ cur ready ret R Hn Hb) as Hy.
    rewrite Hrun in Hy. cbn [returns] in Hy. apply Hy; [|done|done|].
    + eapply own_in_stack; [exact R|by eapply own_stack_rep|done].
    + intros _. split; [|done]. cbn [suspended rsp return_slot fst] in *.
      destruct (Z_le_gt_dec (rsp (regs σ)) (base + KERNEL_STACK_SIZE - 8)) as [?|Hgt]; [done|exfalso].
      apply (Hk (base + KERNEL_STACK_SIZE - 8)); unfold in_region, return_slot, range; cbn; lia.
Qed.

(** ** A parked task *)

(** It runs the loop, on an empty stack. *)
Definition loop_run (base ret : Z) (c : context) (_ : mem) : Prop :=
  rsp c = base + KERNEL_STACK_SIZE ∧ (rip c = task_trampoline ∨ rip c = ret).

Definition loop_susp (base ret : Z) (c : context) (_ : mem) : Prop :=
  rsp c = base + KERNEL_STACK_SIZE ∧ rip c = ret.

Lemma loop_resume base ret c (snap m : mem) :
  loop_susp base ret c snap → (∀ x, rsp c ≤ x < base + KERNEL_STACK_SIZE → m !! x = snap !! x) → loop_run base ret c m.
Proof. intros [? ?] _. split; [done|by right]. Qed.

(** A turn of the loop: it lets the head of the queue run, or goes on alone. *)
Definition yielded σ cur ready A ret σ' : Prop :=
  match ready with
  | [] => current σ' = current σ ∧ regs σ' = suspended (regs σ) ret ∧ ram σ' = ram σ ∧ rep σ' cur [] A
  | next :: rest => regs σ' = th_ctx next ∧
      rep σ' next (rest ++ [suspend cur (suspended (regs σ) ret) (ram σ)]) A
  end.

Lemma suspended_ok r ret : context_ok r → 0 ≤ ret < 2 ^ 64 → context_ok (suspended r ret).
Proof. unfold context_ok, context_words. rewrite !Forall_cons. cbn. tauto. Qed.

Lemma loop_in_stack base t c : base ≠ 0 → th_base t = base → context_ok c → rsp c = base + KERNEL_STACK_SIZE →
  in_stack t 56 (rsp c).
Proof.
  intros Hbase Hb Hc Hsp. unfold in_stack. rewrite (base_stack base t Hbase Hb). cbn.
  unfold context_ok, context_words in Hc. rewrite !Forall_cons in Hc. unfold KERNEL_STACK_SIZE in *. lia.
Qed.

Lemma trampoline_step_returns base σ cur ready A ret :
  rep σ cur ready A → base ≠ 0 → th_base cur = base → 0 ≤ ret < 2 ^ 64 → loop_run base ret (regs σ) (ram σ) →
  returns (trampoline_step σ ret) (yielded σ cur ready A ret).
Proof.
  intros R Hbase Hb Hret [Hsp Hrip]. unfold trampoline_step.
  assert (((rip (regs σ) =? task_trampoline) || (rip (regs σ) =? ret)) = true) as ->.
  { apply orb_true_iff. rewrite !Z.eqb_eq. tauto. }
  pose proof (loop_in_stack base cur _ Hbase Hb (rq_regs _ _ _ _ R) Hsp) as Hin.
  destruct ready as [|next rest].
  - rewrite (sched_yield_alone _ _ _ ret R), bind_ok, Z.eqb_refl. cbn. split; [done|split; [done|split; [done|]]].
    eapply (rep_compute (λ _, False)); [exact R|apply mods_refl|done|]. apply suspended_ok; [apply R|done].
  - ret_step sched_yield_returns; [exact R|done|done|]. intros σ' (R' & Hregs & _).
    pose proof (nodes_nodup _ (rq_apart _ _ _ _ R)) as Hnd. cbn in Hnd. apply NoDup_cons in Hnd as [Hnd _].
    destruct (Z.eqb_spec (current σ') (current σ)) as [Heq|_]; [|done].
    rewrite (rq_current _ _ _ _ R), (rq_current _ _ _ _ R') in Heq. destruct Hnd. rewrite Heq. by left.
Qed.

Lemma loop_step A n base ret σ σ' cur ready :
  base ≠ 0 → 0 ≤ ret < 2 ^ 64 → rep σ cur ready A → th_node cur = n → th_base cur = base →
  loop_run base ret (regs σ) (ram σ) → trampoline_step σ ret = Ok σ' →
  tracked (loop_run base ret) (loop_susp base ret) A n base σ'.
Proof.
  intros Hbase Hret R Hn Hb HR Hrun. pose proof (trampoline_step_returns base σ cur ready A ret R Hbase Hb Hret HR) as Hy.
  rewrite Hrun in Hy. destruct HR as [Hsp _]. destruct ready as [|next rest]; cbn in Hy.
  - destruct Hy as (_ & Hr & _ & R'). exists cur, []. split; [done|]. left. rewrite Hr.
    split; [done|split; [done|split; [done|by right]]].
  - destruct Hy as (_ & R'). eexists next, _. split; [exact R'|]. right. eexists.
    split; [apply elem_of_app; right; by apply list_elem_of_singleton|]. done.
Qed.

Lemma entry_return_returns σ cur ready A :
  rep σ cur ready A → th_base cur ≠ 0 → th_base cur + KERNEL_STACK_SIZE < 2 ^ 64 →
  rsp (regs σ) = th_base cur + KERNEL_STACK_SIZE - 8 → load64 (ram σ) (rsp (regs σ)) = Ok task_trampoline →
  0 ≤ task_trampoline < 2 ^ 64 →
  returns (entry_return σ) (λ σ', rep σ' cur ready A ∧ rip (regs σ') = task_trampoline ∧
    rsp (regs σ') = th_base cur + KERNEL_STACK_SIZE ∧ rsp (regs σ') mod 16 = 0 ∧ ram σ' = ram σ).
Proof.
  intros R Hbase Htop Hsp Hload Htr.
  assert (stack_of cur = (th_base cur, KERNEL_STACK_SIZE)) as Hstk by (unfold stack_of; by destruct (Z.eqb_spec (th_base cur) 0)).
  destruct (heap_inv_object _ _ _ (th_base cur) KERNEL_STACK_SIZE (rq_heap _ _ _ _ R)) as (Hpos & Hal & _).
  { apply elem_of_app. left. apply list_elem_of_bind. exists cur. split; [|by left]. unfold objects. rewrite Hstk.
    destruct (Z.eqb_spec (th_base cur) 0); [done|]. by right; left. }
  unfold entry_return, pop. cbv zeta. rewrite Hload, !bind_ok. rewrite Hsp, u64_id by (unfold KERNEL_STACK_SIZE in *; lia).
  replace (th_base cur + KERNEL_STACK_SIZE - 8 + 8) with (th_base cur + KERNEL_STACK_SIZE) by lia. cbn [returns regs rip rsp ram].
  split; [|split; [done|split; [done|split; [unfold KERNEL_STACK_SIZE; div_lia|done]]]].
  eapply (rep_compute (λ _, False)); [exact R|apply mods_refl|done|].
  pose proof (rq_regs _ _ _ _ R) as Hr. unfold context_ok, context_words in *. rewrite !Forall_cons in *. cbn.
  unfold KERNEL_STACK_SIZE in *. destruct_and! Hr. by repeat (split; [done || lia|]).
Qed.
(** ** From its creation to the loop *)

Lemma created_tracked σ0 σ cur ready A entry n :
  rep σ0 cur ready A → 0 ≤ entry < 2 ^ 64 → 0 ≤ task_trampoline < 2 ^ 64 → ¬ heap_zone (2 ^ 64 - 1) →
  task_create σ0 entry = Ok (σ, n) → n ≠ 0 →
  ∃ stack, stack ≠ 0 ∧ stack + KERNEL_STACK_SIZE < 2 ^ 64 ∧ load64 (ram σ) (task_stack_base n) = Ok stack ∧
    tracked (slot_run stack) (slot_susp stack) A n stack σ.
Proof.
  intros R Hentry Htr Htop Hrun Hn.
  pose proof (task_create_returns _ _ _ _ entry R Hentry Htr) as Hc. rewrite Hrun in Hc. cbn [returns] in Hc.
  destruct Hc as (_ & _ & _ & [(? & _)|(stack & _ & Hs & _ & R' & _ & Hload)]); [done|].
  set (new := new_thread _ _ _ _ _) in *. exists stack. split; [done|].
  assert (new ∈ cur :: ready ++ [new]) as Hin.
  { right. apply elem_of_app. right. by apply list_elem_of_singleton. }
  split; [|split].
  - assert ((stack, KERNEL_STACK_SIZE) ∈ ((cur :: ready ++ [new]) ≫= objects) ++ A) as Ho.
    { apply elem_of_app. left. apply list_elem_of_bind. exists new. split; [|done]. unfold objects.
      rewrite (base_stack stack new Hs eq_refl). cbn. destruct (Z.eqb_spec stack 0); [done|]. by right; left. }
    destruct (heap_inv_object _ _ _ _ _ (rq_heap _ _ _ _ R') Ho) as (_ & _ & Hle & _).
    destruct (decide (stack + KERNEL_STACK_SIZE = 2 ^ 64)) as [Heq|]; [|lia]. destruct Htop.
    eapply heap_inv_zone; [apply (rq_heap _ _ _ _ R')|]. exists (stack, KERNEL_STACK_SIZE). split; [exact Ho|].
    unfold in_region, range. cbn [fst snd]. unfold KERNEL_STACK_SIZE in *. lia.
  - apply (rq_ready _ _ _ _ R' new). apply elem_of_app. right. by apply list_elem_of_singleton.
  - exists cur, (ready ++ [new]). split; [exact R'|]. right. exists new.
    split; [apply elem_of_app; right; by apply list_elem_of_singleton|]. split; [done|split; [done|]].
    split; [done|]. exact Hload.
Qed.

Lemma slot_returns A n base σ σ1 :
  0 ≤ task_trampoline < 2 ^ 64 → base ≠ 0 → base + KERNEL_STACK_SIZE < 2 ^ 64 →
  tracked (slot_run base) (slot_susp base) A n base σ →
  beside A n (task_step A (return_slot base)) σ σ1 → current σ1 = n → rsp (regs σ1) = (return_slot base).1 →
  ∃ σ2, entry_return σ1 = Ok σ2 ∧ current σ2 = n ∧ rip (regs σ2) = task_trampoline ∧
    rsp (regs σ2) = base + KERNEL_STACK_SIZE ∧ rsp (regs σ2) mod 16 = 0 ∧
    ∀ ret, tracked (loop_run base ret) (loop_susp base ret) A n base σ2.
Proof.
  intros Htr Hbase Htop T B Hc Hsp.
  assert (tracked (slot_run base) (slot_susp base) A n base σ1) as T1.
  { eapply tracked_beside; [done|done|apply slot_resume| |exact B|exact T].
    intros a b cur ready R Hn Hb HR. by apply (slot_step A n base a b cur ready). }
  pose proof T1 as (cur & ready & R & _). destruct (tracked_cur _ _ _ _ _ _ _ _ R T1 Hc) as (Hn & Hb & HR).
  subst base. unfold slot_run in HR. rewrite <- Hsp in HR.
  destruct (returns_inv _ _ (entry_return_returns σ1 cur ready A R Hbase Htop Hsp HR Htr)) as (σ2 & H2 & R2 & Hrip & Hsp2 & Hal & _).
  exists σ2. split; [done|]. split; [by rewrite (rq_current _ _ _ _ R2)|]. do 3 (split; [done|]). intros ret. exists cur, ready. split; [exact R2|]. left. by repeat split; [..|left].
Qed.

Lemma loop_goes_on A n base ret σ σ' :
  0 ≤ task_trampoline < 2 ^ 64 → base ≠ 0 → 0 ≤ ret < 2 ^ 64 →
  tracked (loop_run base ret) (loop_susp base ret) A n base σ →
  beside A n (λ a b, trampoline_step a ret = Ok b) σ σ' → current σ' = n →
  ∃ cur ready σ2, th_node cur = n ∧ rep σ' cur ready A ∧ (rip (regs σ') = task_trampoline ∨ rip (regs σ') = ret) ∧
    trampoline_step σ' ret = Ok σ2 ∧ yielded σ' cur ready A ret σ2.
Proof.
  intros Htr Hbase Hret T B Hc.
  assert (tracked (loop_run base ret) (loop_susp base ret) A n base σ') as T1.
  { eapply tracked_beside; [done|done|apply loop_resume| |exact B|exact T].
    intros a b cur ready R Hn Hb HR. by apply (loop_step A n base ret a b cur ready). }
  pose proof T1 as (cur & ready & R & _). destruct (tracked_cur _ _ _ _ _ _ _ _ R T1 Hc) as (Hn & Hb & HR).
  destruct (returns_inv _ _ (trampoline_step_returns base σ' cur ready A ret R Hbase Hb Hret HR)) as (σ2 & H2 & Hy).
  exists cur, ready, σ2. by destruct HR.
Qed.
End proofs.

(** * A small machine: a bump heap of 128 KiB and a boot stack below it *)

Module sched_demo.
Definition lo : Z := 0x10000.
Definition hi : Z := 0x30000.
Definition boot : region := (0x8000, 0x1000).

#[export] Instance ops0 : HeapOps Z := bump.bump_ops hi.
#[export] Instance laws0 : HeapLaws Z := bump.bump_laws lo hi.
#[export] Instance text0 : SchedText := 0xffffffff80001000.

Definition entry0 : Z := 0xffffffff80002000.
Definition regs0 : context :=
  {| rip := 0xffffffff80000000; rsp := 0x8800; rbx := 1; rbp := 2; r12 := 3; r13 := 4; r14 := 5; r15 := 6 |}.

Definition ram0 : mem := ram_fill boot.1 (Z.to_nat boot.2) (ram_fill lo (Z.to_nat (hi - lo)) ∅).

Definition start (m : mem) : sched Z :=
  {| current := 0; next_id := 0; heap := lo; ram := m; regs := regs0 |}.

Definition booted (m : mem) : Prop := heap_inv lo m [] ∧ backed m boot.1 boot.2 ∧ m !! 0 = None.

Lemma ram0_booted : booted ram0.
Proof.
  unfold ram0. set (n := Z.to_nat boot.2). set (k := Z.to_nat (hi - lo)).
  assert (Z.of_nat n = 0x1000) as Hn by (subst n; rewrite Z2Nat.id; done).
  assert (Z.of_nat k = 0x20000) as Hk by (subst k; rewrite Z2Nat.id; done). clearbody n k.
  split; [split|split].
  - split; [unfold lo, hi; lia|done].
  - split; [done|split; [unfold hi; lia|]]. intros x Hx. rewrite !ram_fill_lookup.
    unfold range, lo, hi in *. case_decide; [done|]. rewrite decide_True by lia. done.
  - by intros a m Ha%elem_of_nil.
  - done.
  - intros x Hx. rewrite !ram_fill_lookup. unfold range in Hx. change boot.2 with 0x1000 in Hx.
    rewrite decide_True by lia. done.
  - rewrite !ram_fill_lookup, !decide_False; [done|unfold lo; lia|unfold boot; cbn; lia].
Qed.

Lemma boot_off_heap x : in_region boot x → ¬ heap_zone x.
Proof. unfold boot, in_region, range. cbn. unfold range, lo, hi. lia. Qed.

Lemma regs0_ok : context_ok regs0.
Proof. unfold context_ok, context_words. rewrite !Forall_cons. cbn. repeat split; try lia. apply Forall_nil_2. Qed.

Lemma alloc_node m : heap_alloc lo m sizeof_task = Ok (lo + 32, m, lo).
Proof. done. Qed.

Lemma alloc_next m : heap_alloc (lo + 32) m sizeof_task = Ok (lo + 64, m, lo + 32).
Proof. done. Qed.

Lemma alloc_stack m : heap_alloc (lo + 64) m KERNEL_STACK_SIZE = Ok (lo + 64 + 16384, m, lo + 64).
Proof. done. Qed.

(** The boot flow alone. *)
Lemma one m : booted m → ∃ σ cur, sched_init (start m) = Ok σ ∧ rep boot σ cur [] [] ∧
  in_stack boot cur 56 (rsp (regs σ)) ∧ heap σ = lo + 32 ∧ stack_of boot cur = boot ∧ regs σ = regs0.
Proof.
  intros (Hinv & Hb & H0).
  destruct (sched_init_returns boot (start m) [] Hinv regs0_ok ltac:(cbn; lia) ltac:(cbn; lia) ltac:(cbn; lia) Hb
    boot_off_heap H0) as (h & m' & n & Hrun & Hs).
  change (heap (start m)) with lo in Hrun. rewrite alloc_node in Hrun. injection Hrun as <- <- <-.
  rewrite decide_False in Hs by done.
  apply returns_inv in Hs as (σ & Hi & cur & _ & _ & Hbase & R & _ & Hregs & Hh & _).
  assert (stack_of boot cur = boot) as Hstk by (unfold stack_of; by rewrite Hbase).
  exists σ, cur. split; [exact Hi|split; [exact R|split; [|split; [exact Hh|split; [exact Hstk|exact Hregs]]]]].
  unfold in_stack. rewrite Hregs, Hstk. cbn. lia.
Qed.

Lemma text0_ok : 0 ≤ task_trampoline < 2 ^ 64.
Proof. change task_trampoline with 0xffffffff80001000. lia. Qed.

(** The boot flow and a task that has not run yet. *)
Lemma two m : booted m → ∃ σ1 σ cur new, task_create σ1 entry0 = Ok (σ, th_node new) ∧
  rep boot σ cur [new] [] ∧ in_stack boot cur 56 (rsp (regs σ)) ∧
  th_snap new = ram σ ∧ rsp (th_ctx new) = th_base new + KERNEL_STACK_SIZE - 8 ∧
  load64 (ram σ) (rsp (th_ctx new)) = Ok task_trampoline ∧ stack_of boot cur = boot ∧ regs σ = regs0 ∧
  rep boot σ1 cur [] [] ∧ th_node new ≠ 0.
Proof.
  intros Hm. destruct (one m Hm) as (σ & cur & _ & R & Hin & Hh & Hstk & Hr0).
  destruct (returns_inv _ _ (task_create_returns boot σ cur [] [] entry0 R ltac:(unfold entry0; lia)
    text0_ok)) as ([σ' a] & Hrun & _ & Hregs & _ & Hs).
  destruct Hs as [(_ & _ & _ & Hno)|(stack & Ha & _ & _ & R' & _ & Hload)].
  - exfalso. destruct Hno as (h & m' & n & Hal & Hno). rewrite Hh, alloc_next in Hal. injection Hal as <- <- <-.
    destruct Hno as [?|(h' & m2 & Hal)]; [done|]. by rewrite alloc_stack in Hal.
  - exists σ, σ', cur, (new_thread a (next_id σ) stack entry0 (ram σ')).
    split; [exact Hrun|split; [exact R'|split; [by rewrite Hregs|]]]. rewrite Hregs.
    split; [done|split; [done|split; [exact Hload|split; [exact Hstk|]]]]. by split.
Qed.
End sched_demo.
#[local] Existing Instance sched_demo.ops0.
#[local] Existing Instance sched_demo.laws0.
#[local] Existing Instance sched_demo.text0.

(** * What the scheduler promises *)

(** C9. sched_yield refines rotating a queue of suspended contexts.  Called with
    56 bytes of stack left, it returns.  If no other task exists nothing changes.
    Otherwise the task at the head of the queue runs: the registers are exactly
    those it was suspended with.  The caller is at the end of the queue, suspended
    at its return address with its own registers, and the memory of its stack is
    kept; the ring, the states and the heap are in order, and only the two states,
    the saved stack pointer and 56 bytes below the stack pointer were written. *)
Theorem sched_yield_correct {H : Type} {O : HeapOps H} {L : HeapLaws H} {Tx : SchedText}
    (boot : region) (σ : sched H) cur ready A ret :
  rep boot σ cur ready A → in_stack boot cur 56 (rsp (regs σ)) → 0 ≤ ret < 2 ^ 64 →
  ∃ σ', sched_yield σ ret = Ok σ' ∧
    match ready with
    | [] => σ' = σ
    | next :: rest =>
        regs σ' = th_ctx next ∧
        (∀ x, rsp (th_ctx next) ≤ x < (stack_of boot next).1 + (stack_of boot next).2 →
           ram σ' !! x = th_snap next !! x) ∧
        rep boot σ' next (rest ++ [suspend cur (suspended (regs σ) ret) (ram σ)]) A ∧
        heap σ' = heap σ ∧ next_id σ' = next_id σ ∧ mods (yield_area σ cur next) (ram σ) (ram σ')
    end.
Proof.
  intros R Hin Hret. destruct ready as [|next rest].
  { exists σ. split; [by eapply sched_yield_alone|done]. }
  destruct (returns_inv _ _ (sched_yield_returns boot σ cur next rest A ret R Hin Hret))
    as (σ' & Hrun & R' & Hregs & Hh & Hid & Hm).
  exists σ'. split; [exact Hrun|split; [exact Hregs|split; [|done]]]. intros x Hx.
  by eapply (yield_stack boot).
Qed.

Lemma sched_yield_correct_witness : ∃ (σ σ' : sched Z) next,
  rip (regs σ') = rip (th_ctx next) ∧ sched_yield σ 0xffffffff80003000 = Ok σ' ∧ current σ' = th_node next.
Proof.
  destruct (sched_demo.two _ sched_demo.ram0_booted) as (σ1 & σ & cur & new & _ & R & Hin & _).
  destruct (sched_yield_correct sched_demo.boot σ cur [new] [] 0xffffffff80003000 R Hin ltac:(lia))
    as (σ' & Hrun & Hregs & _ & R' & _).
  exists σ, σ', new. split; [by rewrite Hregs|split; [exact Hrun|]]. exact (rq_current _ _ _ _ _ R').
Defined.

(** C19. task_create.  It returns.  It returns NULL only when the heap refuses the
    node or the stack, and then the queue is as before, the node given back.
    Otherwise a new READY task is at the end of the queue; the first switch to it
    will start at the entry function with the callee-saved registers 0 and the
    stack pointer 8 modulo 16, as after a call, and at the stack pointer lies the
    address of the trampoline, where the entry function returns to. *)
Theorem task_create_correct {H : Type} {O : HeapOps H} {L : HeapLaws H} {Tx : SchedText}
    (boot : region) (σ : sched H) cur ready A entry :
  rep boot σ cur ready A → 0 ≤ entry < 2 ^ 64 → 0 ≤ task_trampoline < 2 ^ 64 →
  ∃ σ' t, task_create σ entry = Ok (σ', t) ∧ regs σ' = regs σ ∧
    ((t = 0 ∧ no_room σ ∧ next_id σ' = next_id σ ∧ rep boot σ' cur ready A) ∨
     ∃ stack, let new := new_thread t (next_id σ) stack entry (ram σ') in
       t ≠ 0 ∧ stack ≠ 0 ∧ next_id σ' = u32 (next_id σ + 1) ∧ rep boot σ' cur (ready ++ [new]) A ∧
       rsp (th_ctx new) mod 16 = 8 ∧ load64 (ram σ') (rsp (th_ctx new)) = Ok task_trampoline).
Proof.
  intros R Hentry Htr.
  destruct (returns_inv _ _ (task_create_returns boot σ cur ready A entry R Hentry Htr))
    as ([σ' t] & Hrun & _ & Hregs & _ & Hs).
  exists σ', t. split; [exact Hrun|split; [exact Hregs|]]. destruct Hs as [(? & ? & ? & ?)|?]; [by left|by right].
Qed.

Lemma task_create_correct_witness : ∃ (σ : sched Z) σ' t,
  task_create σ sched_demo.entry0 = Ok (σ', t).
Proof.
  destruct (sched_demo.two _ sched_demo.ram0_booted) as (σ1 & σ & cur & new & _ & R & Hin & _).
  destruct (task_create_correct sched_demo.boot σ cur [new] [] sched_demo.entry0 R
    ltac:(unfold sched_demo.entry0; lia) sched_demo.text0_ok) as (σ' & t & Hrun & _).
  exists σ, σ', t. exact Hrun.
Defined.

(** C20. A task whose entry function returns is parked.  Take any task that task_create
    made; let it and the others compute on their own stacks and in the memory [A],
    create tasks and yield with 56 bytes of stack left, as often as they like, the entry
    function without overwriting its own return address.  When it returns, the
    flow reaches [task_trampoline] with an empty stack.  From then on, however the
    others run, whenever the task has the CPU it is in the trampoline's loop, and
    its step does not fault: the next task of the queue runs and this one is at its
    end, or it goes on alone.  (The last byte of the address space is not the heap's;
    the stack pointer would wrap to 0 there.) *)
Theorem returned_task_parks {H : Type} {O : HeapOps H} {L : HeapLaws H} {Tx : SchedText}
    (boot : region) (σ0 σ : sched H) cur ready A entry n ret :
  rep boot σ0 cur ready A → 0 ≤ entry < 2 ^ 64 → 0 ≤ task_trampoline < 2 ^ 64 → 0 ≤ ret < 2 ^ 64 →
  ¬ heap_zone (2 ^ 64 - 1) → task_create σ0 entry = Ok (σ, n) → n ≠ 0 →
  ∃ stack, load64 (ram σ) (task_stack_base n) = Ok stack ∧
    ∀ σ1, beside boot A n (task_step boot A (return_slot stack)) σ σ1 →
      current σ1 = n → rsp (regs σ1) = (return_slot stack).1 →
      ∃ σ2, entry_return σ1 = Ok σ2 ∧ current σ2 = n ∧ rip (regs σ2) = task_trampoline ∧
        rsp (regs σ2) = stack + KERNEL_STACK_SIZE ∧ rsp (regs σ2) mod 16 = 0 ∧
        ∀ σ3, beside boot A n (λ a b, trampoline_step a ret = Ok b) σ2 σ3 → current σ3 = n →
          ∃ cur3 ready3 σ4, th_node cur3 = n ∧ rep boot σ3 cur3 ready3 A ∧
            (rip (regs σ3) = task_trampoline ∨ rip (regs σ3) = ret) ∧
            trampoline_step σ3 ret = Ok σ4 ∧ yielded boot σ3 cur3 ready3 A ret σ4.
Proof.
  intros R Hentry Htr Hret Htop Hrun Hn.
  destruct (created_tracked boot σ0 σ cur ready A entry n R Hentry Htr Htop Hrun Hn) as (stack & Hs & Hlt & Hld & T).
  exists stack. split; [exact Hld|]. intros σ1 B Hc Hsp.
  destruct (slot_returns boot A n stack σ σ1 Htr Hs Hlt T B Hc Hsp) as (σ2 & H2 & Hn2 & Hrip & Hsp2 & Hal & T2).
  exists σ2. do 5 (split; [done|]). intros σ3 B3 Hc3.
  by apply (loop_goes_on boot A n stack ret σ2 σ3).
Qed.

Lemma returned_task_parks_witness : ∃ (σ σ1 σ2 σ3 : sched Z) n,
  task_create σ sched_demo.entry0 = Ok (σ1, n) ∧ entry_return σ2 = Ok σ3 ∧ current σ3 = n ∧
  rip (regs σ3) = task_trampoline ∧ ∃ σ4, trampoline_step σ3 0xffffffff80001010 = Ok σ4.
Proof.
  destruct (sched_demo.two _ sched_demo.ram0_booted)
    as (σ & σ1 & cur & new & Hrun & R & Hin & _ & Hnew & _ & _ & _ & R0 & Hn).
  destruct (returned_task_parks sched_demo.boot σ σ1 cur [] [] sched_demo.entry0 (th_node new) 0xffffffff80001010
    R0 ltac:(unfold sched_demo.entry0; lia) sched_demo.text0_ok ltac:(lia)
    ltac:(cbn; unfold range, sched_demo.lo, sched_demo.hi; lia) Hrun Hn) as (stack & Hld & Hpark).
  destruct (returns_inv _ _ (sched_yield_returns sched_demo.boot σ1 cur new [] [] 0 R Hin ltac:(lia)))
    as (σ2 & Hy & R2 & Hregs & _).
  assert (stack = th_base new) as ->.
  { destruct (rq_ready _ _ _ _ _ R new) as [[Hb _ _] _]; [by left|]. congruence. }
  destruct (Hpark σ2) as (σ3 & H3 & Hc3 & Hrip & _ & _ & Hloop); [|exact (rq_current _ _ _ _ _ R2)|by rewrite Hregs|].
  - eapply beside_other; [apply beside_start| |].
    + rewrite (rq_current _ _ _ _ _ R). pose proof (nodes_nodup _ _ (rq_apart _ _ _ _ _ R)) as Hnd.
      apply NoDup_cons in Hnd as [Hnd _]. intros Heq. apply Hnd. rewrite Heq. by left.
    + apply (step_yield _ _ _ σ1 _ 0 σ2 (own_stack_rep _ _ _ _ _ R) (proj1 Hin)); [|lia|exact Hy].
      intros x _ Hx. unfold in_region, range in Hx. cbn in Hx. lia.
  - destruct (Hloop σ3 ltac:(apply beside_start) Hc3) as (_ & _ & σ4 & _ & _ & _ & H4 & _).
    exists σ, σ1, σ2, σ3, (th_node new). split; [exact Hrun|split; [exact H3|split; [exact Hc3|split; [exact Hrip|]]]].
    exists σ4. exact H4.
Defined.

(** C4. Round robin.  However the tasks run, compute on their own stacks and in the
    memory [A], create tasks and yield: the task at position [k] of the queue gets
    the CPU at the [k+1]-th yield, with the registers it was suspended with and
    its stack as it left it. *)
Theorem sched_round_robin {H : Type} {O : HeapOps H} {L : HeapLaws H} {Tx : SchedText}
    (boot : region) (σ σ1 : sched H) cur ready A k t s ret :
  0 ≤ task_trampoline < 2 ^ 64 → rep boot σ cur ready A → ready !! k = Some t →
  sched_run boot A k σ σ1 →
  own_stack boot σ1 s → s.1 + 56 ≤ rsp (regs σ1) ≤ s.1 + s.2 → 0 ≤ ret < 2 ^ 64 →
  ∃ σ2, sched_yield σ1 ret = Ok σ2 ∧ current σ2 = th_node t ∧ regs σ2 = th_ctx t ∧
    ∀ x, rsp (th_ctx t) ≤ x < (stack_of boot t).1 + (stack_of boot t).2 → ram σ2 !! x = th_snap t !! x.
Proof.
  intros Htr R Hk Hrun Hs Hroom Hret. pose proof (lookup_lt_Some _ _ _ Hk) as Hlt.
  destruct (run_rep boot A k σ σ1 cur ready Htr R Hrun) as (cur' & ready' & R' & Hq).
  destruct Hq as (new & ->); [lia|]. rewrite (drop_S _ t) in R' by done.
  assert (in_stack boot cur' 56 (rsp (regs σ1))) as Hin by by eapply own_in_stack.
  destruct (returns_inv _ _ (sched_yield_returns boot σ1 cur' t _ A ret R' Hin Hret))
    as (σ2 & Hy & R2 & Hregs & _ & _ & Hm).
  exists σ2. split; [exact Hy|split; [exact (rq_current _ _ _ _ _ R2)|split; [exact Hregs|]]].
  intros x Hx. by eapply (yield_stack boot).
Qed.

Lemma sched_round_robin_witness : ∃ (σ : sched Z) σ2 t,
  sched_yield σ 0xffffffff80003000 = Ok σ2 ∧ current σ2 = th_node t ∧ regs σ2 = th_ctx t.
Proof.
  destruct (sched_demo.two _ sched_demo.ram0_booted) as (σ1 & σ & cur & new & _ & R & Hin & _).
  pose proof (own_stack_rep sched_demo.boot σ cur [new] [] R) as Hown.
  destruct (sched_round_robin sched_demo.boot σ σ cur [new] [] 0 new (stack_of sched_demo.boot cur) 0xffffffff80003000
    sched_demo.text0_ok R eq_refl (run_start _ _ σ) Hown (proj1 Hin) ltac:(lia)) as (σ2 & Hrun & Hc & Hr & _).
  exists σ, σ2, new. split; [exact Hrun|split; [exact Hc|exact Hr]].
Defined.

(** The ring in every reachable state.  It is a ring of task nodes that starts
    at [current]; the current task is the only one RUNNING, each other is READY
    and can be resumed; every task is on its own stack and no two tasks share
    a byte of node or stack, nor does the memory of anyone else. *)
Theorem sched_ring_invariant {H : Type} {O : HeapOps H} {L : HeapLaws H} {Tx : SchedText}
    (boot : region) (σ σ' : sched H) cur ready A n :
  0 ≤ task_trampoline < 2 ^ 64 → rep boot σ cur ready A → sched_run boot A n σ σ' →
  ∃ cur' ready', current σ' = th_node cur' ∧
    links (ram σ') (th_node <$> cur' :: ready') (current σ') ∧
    NoDup (th_node <$> cur' :: ready') ∧
    load32 (ram σ') (task_state (current σ')) = Ok TASK_RUNNING ∧
    (∀ t, t ∈ ready' → load32 (ram σ') (task_state (th_node t)) = Ok TASK_READY ∧
       saved boot (ram σ') t) ∧
    apart_all ((cur' :: ready') ≫= footprint boot) ∧
    heap_inv (heap σ') (ram σ') (((cur' :: ready') ≫= objects boot) ++ A).
Proof.
  intros Htr R Hrun. destruct (run_rep boot A n σ σ' cur ready Htr R Hrun) as (cur' & ready' & R' & _).
  exists cur', ready'. rewrite (rq_current _ _ _ _ _ R'). destruct R' as [? ? ? ? ? [] Hready ? ?].
  do 2 (split; [done|]). split; [by apply (nodes_nodup boot)|]. split; [done|]. split; [|done].
  intros t Ht. destruct (Hready t Ht) as [[] ?]. done.
Qed.

Lemma sched_ring_invariant_witness : ∃ (σ σ' : sched Z) ret,
  sched_yield σ ret = Ok σ' ∧ load32 (ram σ') (task_state (current σ')) = Ok TASK_RUNNING.
Proof.
  destruct (sched_demo.two _ sched_demo.ram0_booted) as (σ1 & σ & cur & new & _ & R & Hin & _).
  pose proof (own_stack_rep sched_demo.boot σ cur [new] [] R) as Hown.
  destruct (returns_inv _ _ (sched_yield_returns _ σ cur new [] [] 0 R Hin ltac:(lia))) as (σ2 & Hrun & _).
  destruct (sched_ring_invariant sched_demo.boot σ σ2 cur [new] [] 1 sched_demo.text0_ok R
    (run_yield _ _ 0 σ σ _ 0 σ2 (run_start _ _ σ) Hown (proj1 Hin) ltac:(lia) Hrun))
    as (cur' & ready' & _ & _ & _ & Hst & _).
  exists σ, σ2, 0. split; [exact Hrun|exact Hst].
Defined.

(** sched_init makes the boot flow task 0, alone in its ring and RUNNING.  It
    does not test what [kmalloc] returned: out of memory, it dereferences NULL. *)
Theorem sched_init_correct {H : Type} {O : HeapOps H} {L : HeapLaws H} (boot : region) (σ : sched H) A :
  heap_inv (heap σ) (ram σ) A → context_ok (regs σ) → 0 ≤ next_id σ < 2 ^ 32 →
  0 ≤ boot.1 → boot.1 + boot.2 ≤ 2 ^ 64 → backed (ram σ) boot.1 boot.2 →
  (∀ x, in_region boot x → ¬ heap_zone x) → ram σ !! 0 = None →
  ∃ h m t, heap_alloc (heap σ) (ram σ) sizeof_task = Ok (h, m, t) ∧
    (t = 0 → sched_init σ = Fault) ∧
    (t ≠ 0 → ∃ σ' cur, sched_init σ = Ok σ' ∧ th_node cur = t ∧ th_id cur = next_id σ ∧
       th_base cur = 0 ∧ rep boot σ' cur [] A ∧ next_id σ' = u32 (next_id σ + 1) ∧ regs σ' = regs σ).
Proof.
  intros Hinv Hr Hid Hb0 Hb1 Hb2 Hz H0.
  destruct (sched_init_returns boot σ A Hinv Hr Hid Hb0 Hb1 Hb2 Hz H0) as (h & m & t & Hrun & Hs).
  exists h, m, t. split; [exact Hrun|]. destruct (decide (t = 0)) as [->|Hne]; [by split|]. split; [done|].
  intros _. apply returns_inv in Hs as (σ' & Hi & cur & ? & ? & ? & ? & ? & ? & _). by exists σ', cur.
Qed.

Lemma sched_init_correct_witness : ∃ (σ σ' : sched Z), sched_init σ = Ok σ' ∧ next_id σ' = 1.
Proof.
  pose proof sched_demo.ram0_booted as Hboot. revert Hboot. generalize sched_demo.ram0. intros m0 (Hinv & Hb & H0).
  destruct (sched_init_correct sched_demo.boot (sched_demo.start m0) [] Hinv sched_demo.regs0_ok
    ltac:(cbn; lia) ltac:(cbn; lia) ltac:(cbn; lia) Hb sched_demo.boot_off_heap H0) as (h & m & t & Hrun & _ & Hok).
  change (heap (sched_demo.start _)) with sched_demo.lo in Hrun. rewrite sched_demo.alloc_node in Hrun.
  injection Hrun as _ _ <-. destruct (Hok ltac:(done)) as (σ' & cur & Hi & _ & _ & _ & _ & Hid & _).
  exists (sched_demo.start m0), σ'. split; [exact Hi|exact Hid].
Defined.
