(* ===== verification/Switch.v ===== *)
(** sched_yield step by step: context.asm as a list of instructions, the statements of
    sched_yield before it, and what an interrupt between any two of them does to it.

    Sched.v models [context_switch] and [sched_yield] as functions from the state they
    start in to the state they end in.  Here the same code is a machine that takes one
    statement or instruction at a time; it computes the same, and it goes on to do so
    when the memory that an interrupt may write changes between the steps. *)

From stdpp Require Import base list gmap sets relations.
From Stdlib Require Import ZArith Lia.
From S2P Require Import Prelude.
From S2P Require Import Mem.
From S2P Require Import Stack.
From S2P Require Import Heap.
From S2P Require Import Sched.

#[local] Coercion Z.of_nat : nat >-> Z.
#[local] Abbreviation length := Datatypes.length.

(** * The instructions of context.asm *)

(** The callee-saved registers. *)
Inductive reg := RBX | RBP | R12 | R13 | R14 | R15.

(** [SaveRsp] is [mov [rdi], rsp], [LoadRsp] is [mov rsp, rsi]. *)
Inductive instr := Push (r : reg) | SaveRsp | LoadRsp | Pop (r : reg) | Ret.

#[export] Instance reg_eq_dec : EqDecision reg.
Proof. solve_decision. Defined.
#[export] Instance instr_eq_dec : EqDecision instr.
Proof. solve_decision. Defined.

Definition get (c : context) (r : reg) : Z :=
  match r with RBX => rbx c | RBP => rbp c | R12 => r12 c | R13 => r13 c | R14 => r14 c | R15 => r15 c end.

Definition set (c : context) (r : reg) (v : Z) : context := {|
  rip := rip c; rsp := rsp c;
  rbx := if decide (r = RBX) then v else rbx c; rbp := if decide (r = RBP) then v else rbp c;
  r12 := if decide (r = R12) then v else r12 c; r13 := if decide (r = R13) then v else r13 c;
  r14 := if decide (r = R14) then v else r14 c; r15 := if decide (r = R15) then v else r15 c |}.

Definition set_rsp (c : context) (v : Z) : context := {|
  rip := rip c; rsp := v; rbx := rbx c; rbp := rbp c; r12 := r12 c; r13 := r13 c; r14 := r14 c; r15 := r15 c |}.

Definition set_rip (c : context) (v : Z) : context := {|
  rip := v; rsp := rsp c; rbx := rbx c; rbp := rbp c; r12 := r12 c; r13 := r13 c; r14 := r14 c; r15 := r15 c |}.

(** [old] is in rdi, [new] in rsi. *)
Definition exec_instr (old new : Z) (m : mem) (c : context) (i : instr) : outcome (mem * context) :=
  match i with
  | Push r => '(m, sp) ← push m (rsp c) (get c r); Ok (m, set_rsp c sp)
  | SaveRsp => m ← store64 m old (rsp c); Ok (m, c)
  | LoadRsp => Ok (m, set_rsp c new)
  | Pop r => '(v, sp) ← pop m (rsp c); Ok (m, set (set_rsp c sp) r v)
  | Ret => '(v, sp) ← pop m (rsp c); Ok (m, set_rip (set_rsp c sp) v)
  end.

Definition save_order : list reg := [RBP; RBX; R12; R13; R14; R15].

Definition restore : list instr := (Pop <$> reverse save_order) ++ [Ret].

Definition context_asm : list instr := (Push <$> save_order) ++ [SaveRsp; LoadRsp] ++ restore.

Fixpoint exec_code (old new : Z) (m : mem) (c : context) (l : list instr) : outcome (mem * context) :=
  match l with
  | [] => Ok (m, c)
  | i :: l => '(m, c) ← exec_instr old new m c i; exec_code old new m c l
  end.

(** * The statements of sched_yield *)

(** Where it is: before a statement, before the call (its argument [next->rsp] already
    loaded), or in [context_switch] with some instructions to go. *)
Inductive yield_pc := YNext | YReady | YRunning | YCurrent | YLoad | YCall | YSwitch (l : list instr).

(** Its variables, the static [current], the argument [new_rsp], and the registers. *)
Record yielding := {
  y_pc : yield_pc; y_prev : Z; y_next : Z; y_new : Z; y_current : Z; y_regs : context;
}.

Implicit Types (y : yielding) (m : mem).

Definition at_pc y (pc : yield_pc) : yielding := {|
  y_pc := pc; y_prev := y_prev y; y_next := y_next y; y_new := y_new y; y_current := y_current y; y_regs := y_regs y |}.

Definition at_regs y (pc : yield_pc) (c : context) : yielding := {|
  y_pc := pc; y_prev := y_prev y; y_next := y_next y; y_new := y_new y; y_current := y_current y; y_regs := c |}.

Definition exec_yield (ret : Z) m y : outcome (mem * yielding) :=
  match y_pc y with
  | YNext =>
      next ← load64 m (task_next (y_prev y));
      Ok (m, {| y_pc := if next =? y_prev y then YSwitch [] else YReady; y_prev := y_prev y; y_next := next;
                y_new := y_new y; y_current := y_current y; y_regs := y_regs y |})
  | YReady => m ← store32 m (task_state (y_prev y)) TASK_READY; Ok (m, at_pc y YRunning)
  | YRunning => m ← store32 m (task_state (y_next y)) TASK_RUNNING; Ok (m, at_pc y YCurrent)
  | YCurrent =>
      Ok (m, {| y_pc := YLoad; y_prev := y_prev y; y_next := y_next y; y_new := y_new y;
                y_current := y_next y; y_regs := y_regs y |})
  | YLoad =>
      new ← load64 m (task_rsp (y_next y));
      Ok (m, {| y_pc := YCall; y_prev := y_prev y; y_next := y_next y; y_new := new;
                y_current := y_current y; y_regs := y_regs y |})
  | YCall =>
      '(m, sp) ← push m (rsp (y_regs y)) ret;
      Ok (m, at_regs y (YSwitch context_asm) (set_rsp (y_regs y) sp))
  | YSwitch [] => Ok (m, y)
  | YSwitch (i :: l) =>
      '(m, c) ← exec_instr (task_rsp (y_prev y)) (y_new y) m (y_regs y) i;
      Ok (m, at_regs y (YSwitch l) c)
  end.

Definition finished y : Prop := y_pc y = YSwitch [].

(** The steps to go. *)
Definition remaining y : nat :=
  match y_pc y with
  | YNext => 21 | YReady => 20 | YRunning => 19 | YCurrent => 18 | YLoad => 17 | YCall => 16
  | YSwitch l => length l
  end.

Fixpoint run_yield (ret : Z) (fuel : nat) m y : outcome (mem * yielding) :=
  match y_pc y, fuel with
  | YSwitch [], _ => Ok (m, y)
  | _, O => NoFuel
  | _, S fuel => '(m, y) ← exec_yield ret m y; run_yield ret fuel m y
  end.

Section code.
Context {H : Type} `{!HeapOps H, !SchedText}.
Implicit Types (σ : sched H).

Definition start_yield σ : yielding := {|
  y_pc := YNext; y_prev := current σ; y_next := 0; y_new := 0; y_current := current σ; y_regs := regs σ |}.

(** The scheduler when it has come this far. *)
Definition yield_result σ m y : sched H := {|
  current := y_current y; next_id := next_id σ; heap := heap σ; ram := m; regs := y_regs y |}.
End code.

(** * They are the same code *)

(** Goes through the steps of both sides at once. *)
Ltac same_steps := repeat first
  [ done
  | rewrite !bind_ok
  | match goal with
    | |- context [load64 ?m ?a ≫= _] => destruct (load64 m a); [|done..]
    | |- context [store64 ?m ?a ?v ≫= _] => destruct (store64 m a v); [|done..]
    | |- context [store32 ?m ?a ?v ≫= _] => destruct (store32 m a v); [|done..]
    | |- context [push ?m ?sp ?v ≫= _] => destruct (push m sp v) as [[? ?]| | |]; [|done..]
    | |- context [pop ?m ?sp ≫= _] => destruct (pop m sp) as [[? ?]| | |]; [|done..]
    end
  | progress cbn ].

Lemma exec_context_switch m c old new : exec_code old new m c context_asm = context_switch m c old new.
Proof. unfold context_switch. cbn [context_asm]. unfold context_asm, restore. destruct c. cbn. same_steps. Qed.

Lemma run_yield_step ret fuel m y :
  ¬ finished y → run_yield ret (S fuel) m y = '(m, y) ← exec_yield ret m y; run_yield ret fuel m y.
Proof. unfold finished. cbn [run_yield]. destruct (y_pc y) as [| | | | | |[|i l]]; [done..|tauto|done]. Qed.

Lemma run_yield_finished ret fuel m y : finished y → run_yield ret fuel m y = Ok (m, y).
Proof. unfold finished. intros Hf. destruct fuel; cbn [run_yield]; by rewrite Hf. Qed.

(** Each step brings it nearer to the end. *)
Lemma exec_remaining ret m y m' y' :
  ¬ finished y → exec_yield ret m y = Ok (m', y') → (remaining y' < remaining y)%nat.
Proof.
  intros Hnf. unfold exec_yield, finished, remaining in *. destruct (y_pc y) as [| | | | | |[|i l]]; [..|done|].
  - destruct (load64 m _); [|done..]. rewrite bind_ok. intros [= <- <-]. cbn. destruct (_ =? _); cbn; lia.
  - destruct (store32 m _ _); [|done..]. rewrite bind_ok. intros [= <- <-]. cbn. lia.
  - destruct (store32 m _ _); [|done..]. rewrite bind_ok. intros [= <- <-]. cbn. lia.
  - intros [= <- <-]. cbn. lia.
  - destruct (load64 m _); [|done..]. rewrite bind_ok. intros [= <- <-]. cbn. lia.
  - destruct (push m _ _) as [[m1 sp]| | |]; [|done..]. rewrite bind_ok. intros [= <- <-]. cbn. lia.
  - destruct (exec_instr _ _ _ _ _) as [[m1 c]| | |]; [|done..]. rewrite bind_ok. intros [= <- <-]. cbn. lia.
Qed.

Lemma run_switch ret l m y c :
  run_yield ret (length l) m (at_regs y (YSwitch l) c) =
  '(m, c) ← exec_code (task_rsp (y_prev y)) (y_new y) m c l; Ok (m, at_regs y (YSwitch []) c).
Proof.
  revert m c. induction l as [|i l IH]; intros m c; [done|].
  cbn [length]. rewrite run_yield_step by done. cbn [exec_code y_pc at_regs exec_yield y_prev y_new y_regs].
  destruct (exec_instr _ _ _ _ _) as [[m' c']| | |]; [|done..]. rewrite !bind_ok. apply IH.
Qed.

(** Runs the next statement. *)
Ltac yield_step := rewrite run_yield_step by done;
  cbn [exec_yield start_yield at_pc at_regs y_pc y_prev y_next y_new y_current y_regs].

Section equivalence.
Context {H : Type} `{!HeapOps H, !SchedText}.
Implicit Types (σ : sched H).

(** Every outcome included. *)
Lemma run_yield_sched_yield σ ret :
  sched_yield σ ret = '(m, y) ← run_yield ret 21 (ram σ) (start_yield σ); Ok (yield_result σ m y).
Proof.
  unfold sched_yield. yield_step.
  destruct (load64 (ram σ) (task_next (current σ))) as [next| | |]; [|done..]. rewrite !bind_ok.
  destruct (next =? current σ).
  { rewrite run_yield_finished by done. by destruct σ. }
  yield_step. destruct (store32 (ram σ) _ _) as [m1| | |]; [|done..]. rewrite !bind_ok.
  yield_step. destruct (store32 m1 _ _) as [m2| | |]; [|done..]. rewrite !bind_ok.
  yield_step. rewrite !bind_ok. yield_step. destruct (load64 m2 _) as [new| | |]; [|done..]. rewrite !bind_ok.
  yield_step. destruct (push m2 _ _) as [[m3 sp]| | |]; [|done..]. rewrite !bind_ok.
  change 15%nat with (length context_asm). 
  match goal with |- context [run_yield ret _ m3 ?y] => set (y3 := y) end.
  change y3 with (at_regs y3 (YSwitch context_asm) (y_regs y3)). rewrite run_switch, exec_context_switch.
  cbn [y3 y_prev y_new y_regs]. unfold set_rsp.
  by destruct (context_switch _ _ _ _) as [[m4 c4]| | |].
Qed.
End equivalence.

(** * Interrupts between the steps *)

Section interrupted.
Context {H : Type} `{!HeapOps H, !HeapLaws H, !SchedText} (boot : region).
Context (σ : sched H) (cur next : thread) (rest : list thread) (A : list region) (ret : Z).

(** Memory that is neither the heap's nor the boot stack. *)
Definition outside x : Prop := ¬ heap_zone x ∧ ¬ in_region boot x.

(** What interrupts may have written to when the stack of [cur] is in use from [a] up,
    that of [next] from [b] up. *)
Definition junk (a b : Z) x : Prop :=
  outside x ∨ (in_region (stack_of boot cur) x ∧ x < a) ∨ (in_region (stack_of boot next) x ∧ x < b).

#[local] Abbreviation lo := (rsp (regs σ)).
#[local] Abbreviation new := (rsp (th_ctx next) - 56).
#[local] Abbreviation floor := ((stack_of boot next).1).

(** Where a yield can be, with the two marks.  The stack of [next] is all in use until
    rsp points into it. *)
Inductive stage m y : Z → Z → Prop :=
  | st_next : y_pc y = YNext → load64 m (task_next (th_node cur)) = Ok (th_node next) →
      load64 m (task_rsp (th_node next)) = Ok new → rsp (y_regs y) = lo → stage m y lo floor
  | st_states pc : y_pc y = pc → pc ∈ [YReady; YRunning; YCurrent; YLoad] → y_next y = th_node next →
      load64 m (task_rsp (th_node next)) = Ok new → rsp (y_regs y) = lo → stage m y lo floor
  | st_call : y_pc y = YCall → y_new y = new → rsp (y_regs y) = lo → stage m y lo floor
  | st_push rs : y_pc y = YSwitch ((Push <$> rs) ++ SaveRsp :: LoadRsp :: restore) → (length rs ≤ 6)%nat →
      y_new y = new → rsp (y_regs y) = lo - 56 + 8 * length rs → stage m y (lo - 56 + 8 * length rs) floor
  | st_load : y_pc y = YSwitch (LoadRsp :: restore) → y_new y = new → rsp (y_regs y) = lo - 56 →
      stage m y (lo - 56) floor
  | st_pop rs : y_pc y = YSwitch ((Pop <$> rs) ++ [Ret]) → (length rs ≤ 6)%nat →
      rsp (y_regs y) = new + 48 - 8 * length rs → stage m y (lo - 56) (new + 48 - 8 * length rs)
  | st_done : finished y → stage m y (lo - 56) (new + 56).

Context (R : rep boot σ cur (next :: rest) A).
Context (Hroom : (stack_of boot cur).1 + 248 ≤ lo ≤ (stack_of boot cur).1 + (stack_of boot cur).2).
Context (Hnext : floor + 248 ≤ rsp (th_ctx next)).

Lemma lo_range : (stack_of boot cur).1 + 248 ≤ lo ∧ 248 ≤ lo ∧ lo < 2 ^ 64 ∧ in_stack boot cur 56 lo.
Proof.
  destruct (heap_stack boot _ _ _ _ cur R) as (Hlo & _ & _); [by left|].
  pose proof (rq_regs _ _ _ _ _ R) as Hr. unfold context_ok, context_words in Hr.
  rewrite !Forall_cons in Hr. unfold in_stack. lia.
Qed.

Lemma new_range : 192 ≤ new ∧ floor + 192 ≤ new ∧ new + 56 ≤ floor + (stack_of boot next).2 ∧ new + 56 < 2 ^ 64.
Proof.
  destruct (heap_stack boot _ _ _ _ next R) as (Hlo & _ & _); [by right; left|].
  destruct (rq_ready _ _ _ _ _ R next) as [_ [_ _ [? ?] _ _]]; [by left|]. lia.
Qed.

(** Nodes are not junk, nor is the used part of a stack. *)
Lemma node_not_junk a b t x : t ∈ [cur; next] → range (th_node t) sizeof_task x → ¬ junk a b x.
Proof.
  intros Ht Hx. pose proof (rq_apart _ _ _ _ _ R) as Hap.
  assert (∀ u, u ∈ [cur; next] → u ∈ cur :: next :: rest) as Hin by set_solver.
  pose proof (node_in_footprint boot _ _ Hx) as Hfx. intros [[Hz Hb]|[[Hs _]|[Hs _]]].
  - destruct (footprint_zone boot _ _ _ _ _ _ R (Hin t Ht) Hfx); tauto.
  - pose proof (stack_in_footprint _ _ _ Hs) as Hsx.
    assert (t = cur) as -> by (eapply (footprint_owner boot); [exact Hap|by apply Hin|by left|done|done]).
    by apply (own_apart boot _ cur Hap ltac:(by left) x).
  - pose proof (stack_in_footprint _ _ _ Hs) as Hsx.
    assert (t = next) as -> by (eapply (footprint_owner boot); [exact Hap|by apply Hin|by right; left|done|done]).
    by apply (own_apart boot _ next Hap ltac:(by right; left) x).
Qed.

Lemma next_stack_not_junk a b x : in_region (stack_of boot next) x → b ≤ x → ¬ junk a b x.
Proof.
  intros Hx Hb. pose proof (stack_in_footprint _ _ _ Hx) as Hfx. intros [[Hz Hbx]|[[Hs _]|[_ ?]]]; [| |lia].
  - destruct (footprint_zone boot _ _ _ _ next _ R ltac:(by right; left) Hfx); tauto.
  - pose proof (rq_apart _ _ _ _ _ R) as Hap. cbn [mbind list_bind] in Hap. apply apart_all_app in Hap as (_ & _ & Hap).
    apply (Hap x (stack_in_footprint _ _ _ Hs)), in_regions_app. by left.
Qed.

(** The accesses of a step, in memory without interrupts and in memory with them. *)
Lemma load_same a b mu m p v :
  mods (junk a b) mu m → load64 mu p = Ok v → (∀ x, range p 8 x → ¬ junk a b x) → load64 m p = Ok v.
Proof. apply load64_keep. Qed.

Lemma push_same a b mu m v mu1 sp :
  mods (junk a b) mu m → push mu a v = Ok (mu1, sp) → 8 ≤ a < 2 ^ 64 →
  sp = a - 8 ∧ ∃ m1, push m a v = Ok (m1, sp) ∧ mods (junk (a - 8) b) mu1 m1 ∧ mods (range (a - 8) 8) m m1.
Proof.
  intros Hm Hp Ha. unfold push in *. cbv zeta in *. rewrite u64_id in * by lia.
  destruct (store64 mu (a - 8) v) as [mu2| | |] eqn:Hst; [|done..]. rewrite bind_ok in Hp. injection Hp as <- <-.
  split; [done|]. destruct (store_le_sim 8 _ _ _ _ _ _ Hm Hst) as (m1 & Hst' & Hm1 & _ & Hw).
  exists m1. unfold store64. rewrite Hst', bind_ok. split; [done|]. split; [|exact Hw].
  eapply mods_weaken; [exact Hm1|]. intros x [[?|[[Hs ?]|?]] Hx]; [by left|right; left|right; right; done].
  split; [done|]. unfold range in Hx. lia.
Qed.

Lemma pop_same a b mu m v sp :
  mods (junk a b) mu m → pop mu b = Ok (v, sp) → floor ≤ b → b + 8 ≤ floor + (stack_of boot next).2 →
  0 ≤ b → b + 8 < 2 ^ 64 → sp = b + 8 ∧ pop m b = Ok (v, sp).
Proof.
  intros Hm Hp Hlo Hhi Hb0 Htop. unfold pop in *. destruct (load64 mu b) as [w| | |] eqn:Hl; [|done..].
  rewrite bind_ok in Hp. injection Hp as <- <-. rewrite u64_id by lia. split; [done|].
  erewrite load_same; [|exact Hm|exact Hl|]; [by rewrite bind_ok|].
  intros x Hx. apply next_stack_not_junk; unfold in_region, range in *; lia.
Qed.

(** A store in a field of one of the two nodes. *)
Lemma node_store_same (n : nat) a b mu m t p v mu1 :
  t ∈ [cur; next] → (∀ x, range p n x → range (th_node t) sizeof_task x) →
  mods (junk a b) mu m → store_le n mu p v = Ok mu1 →
  ∃ m1, store_le n m p v = Ok m1 ∧ mods (junk a b) mu1 m1 ∧ mods (range p n) mu mu1 ∧
    mods (λ x, in_regions (footprint boot cur) x ∨ in_regions (footprint boot next) x) m m1.
Proof.
  intros Ht Hp Hm Hst. destruct (store_le_sim n _ _ _ _ _ _ Hm Hst) as (m1 & Hst' & Hm1 & Hw & Hw').
  exists m1. split; [exact Hst'|]. split; [eapply mods_weaken; [exact Hm1|tauto]|]. split; [exact Hw|].
  eapply mods_weaken; [exact Hw'|]. intros x Hx. apply elem_of_cons in Ht as [->|Ht%list_elem_of_singleton]; [left|subst t; right];
    by apply node_in_footprint, Hp.
Qed.

(** What a step from [y] to [y1] in the memory [m] does, [mu1] being the memory without
    the interrupts: the same, and one step less is left. *)
Record stepped (mu1 m m1 : mem) (y y1 : yielding) : Prop := {
  sd_prev : y_prev y1 = th_node cur;
  sd_stage : ∃ a b, stage mu1 y1 a b ∧ mods (junk a b) mu1 m1;
  sd_writes : mods (λ x, in_regions (footprint boot cur) x ∨ in_regions (footprint boot next) x) m m1;
  sd_left : remaining y = S (remaining y1);
}.

Lemma cur_next_differ : th_node next ≠ th_node cur.
Proof.
  intros Heq. pose proof (footprint_owner boot _ cur next (th_node cur) (rq_apart _ _ _ _ _ R) ltac:(by left) ltac:(by right; left)) as Ho.
  assert (∀ t, th_node t = th_node cur → in_regions (footprint boot t) (th_node cur)) as Hin.
  { intros t <-. apply node_in_footprint. unfold range, sizeof_task. lia. }
  specialize (Ho (Hin cur eq_refl) (Hin next Heq)). pose proof (rq_apart _ _ _ _ _ R) as Hap.
  rewrite <- Ho in Hap. cbn [mbind list_bind] in Hap. apply apart_all_app in Hap as (_ & _ & Hap).
  apply (Hap (th_node cur) (Hin cur eq_refl)), in_regions_app. left. by apply Hin.
Qed.

Lemma field_in_node (n : Z) x : range (task_next n) 8 x → range n sizeof_task x.
Proof. unfold range, task_next, sizeof_task. lia. Qed.

Lemma step_next mu m y mu1 y1 :
  y_prev y = th_node cur → y_pc y = YNext → load64 mu (task_next (th_node cur)) = Ok (th_node next) →
  load64 mu (task_rsp (th_node next)) = Ok new → rsp (y_regs y) = lo → mods (junk lo floor) mu m →
  exec_yield ret mu y = Ok (mu1, y1) → ∃ m1, exec_yield ret m y = Ok (m1, y1) ∧ stepped mu1 m m1 y y1.
Proof.
  intros Hprev Hpc Hl Hsp Hrsp Hm. unfold exec_yield. rewrite Hpc, Hprev, Hl, bind_ok. intros [= <- <-].
  rewrite (load_same _ _ _ _ _ _ Hm Hl), bind_ok by (intros x Hx; apply (node_not_junk _ _ cur); [by left|by apply field_in_node]).
  pose proof cur_next_differ as Hne. apply Z.eqb_neq in Hne. rewrite Hne. eexists. split; [done|]. split; [done| |done|].
  - exists lo, floor. split; [|exact Hm]. by eapply (st_states _ _ YReady); [done|by left|done|exact Hsp|exact Hrsp].
  - unfold remaining. by rewrite Hpc.
Qed.

(** The state a thread's node says it is in can be written at any time before the loads
    that matter. *)
Lemma state_keeps_rsp mu mu1 t : t ∈ [cur; next] →
  mods (range (task_state (th_node t)) 4) mu mu1 → load64 mu (task_rsp (th_node next)) = Ok new →
  load64 mu1 (task_rsp (th_node next)) = Ok new.
Proof.
  intros Ht Hm Hl. eapply load64_keep; [exact Hm|exact Hl|]. intros x Hx Hs.
  apply elem_of_cons in Ht as [->|Ht%list_elem_of_singleton].
  - pose proof (footprint_owner boot _ cur next x (rq_apart _ _ _ _ _ R) ltac:(by left) ltac:(by right; left)) as Ho.
    destruct cur_next_differ. rewrite Ho; [done|by apply node_in_footprint, state_in_node|by apply node_in_footprint, rsp_in_node].
  - subst t. unfold range, task_rsp, task_state in *. lia.
Qed.

Lemma step_state mu m y pc mu1 y1 :
  y_prev y = th_node cur → y_pc y = pc → pc ∈ [YReady; YRunning; YCurrent; YLoad] → y_next y = th_node next →
  load64 mu (task_rsp (th_node next)) = Ok new → rsp (y_regs y) = lo → mods (junk lo floor) mu m →
  exec_yield ret mu y = Ok (mu1, y1) → ∃ m1, exec_yield ret m y = Ok (m1, y1) ∧ stepped mu1 m m1 y y1.
Proof.
  intros Hprev Hpc Hin Hn Hsp Hrsp Hm. unfold exec_yield. rewrite Hpc.
  repeat (apply elem_of_cons in Hin as [->|Hin]); [..|by apply elem_of_nil in Hin].
  - destruct (store32 mu _ _) as [mu2| | |] eqn:Hst; [|done..]. rewrite bind_ok. intros [= <- <-]. rewrite Hprev in Hst |- *.
    destruct (node_store_same 4 _ _ _ _ cur _ _ _ ltac:(by left) (state_in_node _) Hm Hst) as (m1 & Hst' & Hm1 & Hw & Hw').
    unfold store32. rewrite Hst', bind_ok. exists m1. split; [done|]. split; [done| |done|unfold remaining; by rewrite Hpc].
    exists lo, floor. split; [|done]. eapply (st_states _ _ YRunning); [done|by right; left|done| |done].
    by eapply (state_keeps_rsp _ _ cur); [left|..].
  - destruct (store32 mu _ _) as [mu2| | |] eqn:Hst; [|done..]. rewrite bind_ok. intros [= <- <-]. rewrite Hn in Hst |- *.
    destruct (node_store_same 4 _ _ _ _ next _ _ _ ltac:(by right; left) (state_in_node _) Hm Hst) as (m1 & Hst' & Hm1 & Hw & Hw').
    unfold store32. rewrite Hst', bind_ok. exists m1. split; [done|]. split; [done| |done|unfold remaining; by rewrite Hpc].
    exists lo, floor. split; [|done]. eapply (st_states _ _ YCurrent); [done|by right; right; left|done| |done].
    by eapply (state_keeps_rsp _ _ next); [right; left|..].
  - intros [= <- <-]. exists m. split; [done|]. split; [done| |done|unfold remaining; by rewrite Hpc].
    exists lo, floor. split; [|done]. eapply (st_states _ _ YLoad); [done|by do 3 right; left|done..].
  - rewrite Hn, Hsp, bind_ok. intros [= <- <-].
    rewrite (load_same _ _ _ _ _ _ Hm Hsp), bind_ok by (intros x Hx; apply (node_not_junk _ _ next); [by right; left|by apply rsp_in_node]).
    exists m. split; [done|]. split; [done| |done|unfold remaining; by rewrite Hpc].
    exists lo, floor. split; [|done]. by apply st_call.
Qed.

(** The pushes: the call's and those of context_switch. *)
Lemma pushed_below (a : Z) m m1 : lo - 48 ≤ a ≤ lo → mods (range (a - 8) 8) m m1 →
  mods (λ x, in_regions (footprint boot cur) x ∨ in_regions (footprint boot next) x) m m1.
Proof.
  intros Ha Hm. eapply mods_weaken; [exact Hm|]. intros x Hx. left. apply stack_in_footprint.
  unfold in_region, range in *. lia.
Qed.

Lemma step_call mu m y mu1 y1 :
  y_prev y = th_node cur → y_pc y = YCall → y_new y = new → rsp (y_regs y) = lo → mods (junk lo floor) mu m →
  exec_yield ret mu y = Ok (mu1, y1) → ∃ m1, exec_yield ret m y = Ok (m1, y1) ∧ stepped mu1 m m1 y y1.
Proof.
  intros Hprev Hpc Hnew Hrsp Hm. unfold exec_yield. rewrite Hpc, Hrsp. pose proof lo_range as (Hlo & H8 & H64 & _).
  destruct (push mu lo ret) as [[mu2 sp]| | |] eqn:Hp; [|done..]. rewrite bind_ok. intros [= <- <-].
  destruct (push_same _ _ _ _ _ _ _ Hm Hp ltac:(lia)) as (-> & m1 & Hp' & Hm1 & Hw).
  rewrite Hp', bind_ok. exists m1. split; [done|]. split; [done| |apply (pushed_below lo); [lia|done]|unfold remaining; by rewrite Hpc].
  exists (lo - 56 + 8 * length save_order), floor. split; [|by replace (lo - 56 + 8 * length save_order) with (lo - 8) by (cbn; lia)].
  apply st_push; [done|cbn; lia|done|cbn; lia].
Qed.

Lemma step_push mu m y rs mu1 y1 :
  y_prev y = th_node cur → y_pc y = YSwitch ((Push <$> rs) ++ SaveRsp :: LoadRsp :: restore) → (length rs ≤ 6)%nat →
  y_new y = new → rsp (y_regs y) = lo - 56 + 8 * length rs → mods (junk (lo - 56 + 8 * length rs) floor) mu m →
  exec_yield ret mu y = Ok (mu1, y1) → ∃ m1, exec_yield ret m y = Ok (m1, y1) ∧ stepped mu1 m m1 y y1.
Proof.
  intros Hprev Hpc Hlen Hnew Hrsp Hm. unfold exec_yield. rewrite Hpc. pose proof lo_range as (Hlo & H8 & H64 & _).
  destruct rs as [|r rs]; cbn [fmap list_fmap app exec_instr].
  - destruct (store64 mu _ _) as [mu2| | |] eqn:Hst; [|done..]. rewrite !bind_ok. intros [= <- <-]. rewrite Hprev in Hst |- *.
    destruct (node_store_same 8 _ _ _ _ cur _ _ _ ltac:(by left) (rsp_in_node _) Hm Hst) as (m1 & Hst' & Hm1 & Hw & Hw').
    unfold store64. rewrite Hst', !bind_ok. exists m1. split; [done|]. split; [done| |done|unfold remaining; by rewrite Hpc].
    cbn [length] in *. replace (lo - 56 + 8 * 0%nat) with (lo - 56) in * by lia.
    exists (lo - 56), floor. split; [|done]. by apply st_load.
  - rewrite length_cons in Hrsp, Hm, Hlen. rewrite Hrsp. set (a := lo - 56 + 8 * S (length rs)) in *.
    destruct (push mu a _) as [[mu2 sp]| | |] eqn:Hp; [|done..]. rewrite !bind_ok. intros [= <- <-].
    destruct (push_same _ _ _ _ _ _ _ Hm Hp ltac:(lia)) as (-> & m1 & Hp' & Hm1 & Hw).
    rewrite Hp', !bind_ok. exists m1. split; [done|]. split; [done| |apply (pushed_below a); [lia|done]|unfold remaining; by rewrite Hpc].
    replace (a - 8) with (lo - 56 + 8 * length rs) in * by lia.
    exists (lo - 56 + 8 * length rs), floor. split; [|done]. apply st_push; [done|lia|done|done].
Qed.

(** From the switch on, rsp is in the stack of [next]. *)
Lemma step_load mu m y mu1 y1 :
  y_prev y = th_node cur → y_pc y = YSwitch (LoadRsp :: restore) → y_new y = new → mods (junk (lo - 56) floor) mu m →
  exec_yield ret mu y = Ok (mu1, y1) → ∃ m1, exec_yield ret m y = Ok (m1, y1) ∧ stepped mu1 m m1 y y1.
Proof.
  intros Hprev Hpc Hnew Hm. unfold exec_yield. rewrite Hpc. cbn [exec_instr]. rewrite !bind_ok. intros [= <- <-].
  pose proof new_range as (_ & Hn & _). exists m. split; [done|]. split; [done| |done|unfold remaining; by rewrite Hpc].
  exists (lo - 56), (new + 48 - 8 * length (reverse save_order)). split; [apply st_pop; [done|cbn; lia|cbn; rewrite Hnew; lia]|].
  eapply mods_weaken; [exact Hm|]. intros x [?|[?|[? ?]]]; [by left|by right; left|right; right]. cbn. split; [done|lia].
Qed.

Lemma step_pop mu m y rs mu1 y1 :
  y_prev y = th_node cur → y_pc y = YSwitch ((Pop <$> rs) ++ [Ret]) → (length rs ≤ 6)%nat →
  rsp (y_regs y) = new + 48 - 8 * length rs → mods (junk (lo - 56) (new + 48 - 8 * length rs)) mu m →
  exec_yield ret mu y = Ok (mu1, y1) → ∃ m1, exec_yield ret m y = Ok (m1, y1) ∧ stepped mu1 m m1 y y1.
Proof.
  intros Hprev Hpc Hlen Hrsp Hm. unfold exec_yield. rewrite Hpc. pose proof new_range as (Hn0 & Hn & Htop & H64).
  destruct rs as [|r rs]; cbn [fmap list_fmap app exec_instr]; rewrite ?length_cons in *; rewrite Hrsp;
    (match goal with |- context [pop mu ?b] => destruct (pop mu b) as [[v sp]| | |] eqn:Hp; [|done..];
       destruct (pop_same _ _ _ _ _ _ Hm Hp ltac:(cbn [length] in *; lia) ltac:(cbn [length] in *; lia)
         ltac:(cbn [length] in *; lia) ltac:(cbn [length] in *; lia)) as [-> Hp'] end);
    rewrite Hp', !bind_ok; intros [= <- <-]; exists m; (split; [done|]);
    (split; [done| |done|unfold remaining; by rewrite Hpc]).
  - exists (lo - 56), (new + 56). split; [by apply st_done|]. eapply mods_weaken; [exact Hm|].
    intros x [?|[?|[? ?]]]; [by left|by right; left|right; right]. cbn [length] in *. split; [done|lia].
  - exists (lo - 56), (new + 48 - 8 * length rs). split; [apply st_pop; [done|lia|cbn; lia]|].
    eapply mods_weaken; [exact Hm|]. intros x [?|[?|[? ?]]]; [by left|by right; left|right; right]. split; [done|lia].
Qed.

Lemma stage_step mu m y a b mu1 y1 :
  y_prev y = th_node cur → stage mu y a b → mods (junk a b) mu m → ¬ finished y →
  exec_yield ret mu y = Ok (mu1, y1) → ∃ m1, exec_yield ret m y = Ok (m1, y1) ∧ stepped mu1 m m1 y y1.
Proof.
  intros Hprev [Hpc Hl Hsp Hrsp|pc Hpc Hin Hn Hsp Hrsp|Hpc Hnew Hrsp|rs Hpc Hlen Hnew Hrsp|Hpc Hnew Hrsp|rs Hpc Hlen Hrsp|Hf] Hm Hnf Hrun.
  - by eapply step_next.
  - by eapply step_state.
  - by eapply step_call.
  - by eapply step_push.
  - by eapply step_load.
  - by eapply step_pop.
  - done.
Qed.

(** A yield under way that, left alone, would have ended as [m_end] and [y_end]. *)
Record inflight (m_end : mem) (y_end : yielding) m y : Prop := {
  fl_prev : y_prev y = th_node cur;
  fl_same : ∃ mu a b, run_yield ret (remaining y) mu y = Ok (m_end, y_end) ∧ stage mu y a b ∧ mods (junk a b) mu m;
  fl_dom : mods (λ _, True) (ram σ) m;
}.

Lemma inflight_start m_end y_end :
  run_yield ret 21 (ram σ) (start_yield σ) = Ok (m_end, y_end) → inflight m_end y_end (ram σ) (start_yield σ).
Proof.
  intros Hrun. split; [exact (rq_current _ _ _ _ _ R)| |done]. exists (ram σ), lo, floor. split; [exact Hrun|]. split; [|done].
  destruct (rq_ring _ _ _ _ _ R) as [Hl _]. destruct (rq_ready _ _ _ _ _ R next) as [_ [Hsp _ _ _ _]]; [by left|].
  by apply st_next.
Qed.

(** The next step is there to be taken, and takes it on. *)
Lemma inflight_step m_end y_end m y :
  inflight m_end y_end m y → ¬ finished y →
  ∃ m1 y1, exec_yield ret m y = Ok (m1, y1) ∧ inflight m_end y_end m1 y1 ∧ remaining y = S (remaining y1) ∧
    mods (λ x, heap_zone x ∨ in_region boot x) m m1.
Proof.
  intros [Hprev (mu & a & b & Hrun & Hst & Hm) Hdom] Hnf. destruct (remaining y) as [|n] eqn:Hn.
  { exfalso. apply Hnf. revert Hn. unfold remaining, finished. destruct (y_pc y) as [| | | | | |[|i l]]; done. }
  rewrite run_yield_step in Hrun by done.
  destruct (exec_yield ret mu y) as [[mu1 y1]| | |] eqn:Hex; [|done..]. rewrite bind_ok in Hrun.
  destruct (stage_step _ _ _ _ _ _ _ Hprev Hst Hm Hnf Hex) as (m1 & Hex' & [Hprev1 (a1 & b1 & Hst1 & Hm1) Hw Hleft]).
  exists m1, y1. assert (n = remaining y1) as -> by lia. split; [exact Hex'|]. split; [|split; [done|]].
  - split; [done|by exists mu1, a1, b1|]. eapply mods_trans; [exact Hdom|]. by eapply mods_weaken.
  - eapply mods_weaken; [exact Hw|]. intros x [Hx|Hx]; eapply (footprint_zone boot); try exact R; try exact Hx; set_solver.
Qed.

(** Where rsp is. *)
Lemma stage_rsp mu y a b : stage mu y a b → ¬ finished y →
  ∃ t, t ∈ [cur; next] ∧ (stack_of boot t).1 + 192 ≤ rsp (y_regs y) ≤ (stack_of boot t).1 + (stack_of boot t).2 ∧
    rsp (y_regs y) < 2 ^ 64 ∧ ∀ x, in_region (stack_of boot t) x → x < rsp (y_regs y) → junk a b x.
Proof.
  pose proof lo_range as (Hlo & _ & H64 & _). pose proof new_range as (_ & Hn & Hnt & Hn64).
  intros [Hpc Hl Hsp Hrsp|pc Hpc Hin Hnx Hsp Hrsp|Hpc Hnew Hrsp|rs Hpc Hlen Hnew Hrsp|Hpc Hnew Hrsp|rs Hpc Hlen Hrsp|Hf] Hnf;
    [exists cur..|exists next|done]; rewrite Hrsp; (split; [set_solver|split; [lia|split; [lia|]]]); intros x Hx ?;
    [right; left; done..|right; right; done].
Qed.

(** Interrupts write below rsp, on the stack it points into, and outside what the
    scheduler and the heap know of. *)
Lemma inflight_noise P m_end y_end m y m' :
  inflight m_end y_end m y → ¬ finished y → mods P m m' →
  (∀ x, P x → outside x ∨ range (rsp (y_regs y) - 192) 192 x) → inflight m_end y_end m' y.
Proof.
  intros [Hprev (mu & a & b & Hrun & Hst & Hm) Hdom] Hnf Hm' HP. split; [done| |].
  - exists mu, a, b. split; [done|split; [done|]]. eapply mods_trans; [exact Hm|]. eapply mods_weaken; [exact Hm'|].
    destruct (stage_rsp _ _ _ _ Hst Hnf) as (t & _ & Hr & _ & Hj). intros x [?|Hx]%HP; [by left|].
    apply Hj; unfold in_region, range in *; lia.
  - eapply mods_trans; [exact Hdom|]. by eapply mods_weaken.
Qed.

Lemma inflight_room m_end y_end m y :
  inflight m_end y_end m y → ¬ finished y →
  192 ≤ rsp (y_regs y) < 2 ^ 64 ∧ backed m (rsp (y_regs y) - 192) 192 ∧
  ∀ x, range (rsp (y_regs y) - 192) 192 x → heap_zone x ∨ in_region boot x.
Proof.
  intros [_ (mu & a & b & _ & Hst & _) Hdom] Hnf. destruct (stage_rsp _ _ _ _ Hst Hnf) as (t & Ht & Hr & H64 & _).
  assert (t ∈ cur :: next :: rest) as Ht' by set_solver.
  destruct (heap_stack boot _ _ _ _ t R Ht') as (Hlo & _ & Hb). split; [lia|]. split.
  - eapply mods_backed; [exact Hdom|]. eapply backed_sub; [exact Hb|lia..].
  - intros x Hx. eapply (footprint_zone boot); [exact R|exact Ht'|]. apply stack_in_footprint.
    unfold in_region, range in *. lia.
Qed.

(** The end is that of the undisturbed yield, but for junk. *)
Lemma inflight_end m_end y_end m y :
  inflight m_end y_end m y → finished y → y = y_end ∧ mods (junk (lo - 56) (new + 56)) m_end m.
Proof.
  intros [_ (mu & a & b & Hrun & Hst & Hm) _] Hf. rewrite run_yield_finished in Hrun by done.
  injection Hrun as -> ->. split; [done|]. revert Hm.
  unfold finished in Hf.
  destruct Hst as [Hpc ? ? ?|pc Hpc Hin ? ? ?|Hpc ? ?|rs Hpc ? ? ?|Hpc ? ?|rs Hpc ? ?|_]; rewrite Hf in Hpc || idtac; try done;
    exfalso.
  - subst pc. repeat (apply elem_of_cons in Hin as [?|Hin]); [done..|by apply elem_of_nil in Hin].
  - by destruct rs.
  - by destruct rs.
Qed.

(** What the queue is then. *)
Lemma inflight_rep m_end y_end m y :
  inflight m_end y_end m y → finished y →
  (let σ' := yield_result σ m_end y_end in
   rep boot σ' next (rest ++ [suspend cur (suspended (regs σ) ret) (ram σ)]) A ∧ regs σ' = th_ctx next) →
  rep boot (yield_result σ m y) next (rest ++ [suspend cur (suspended (regs σ) ret) (ram σ)]) A ∧
  y_regs y = th_ctx next.
Proof.
  intros Hfl Hf [R' Hregs]. destruct (inflight_end _ _ _ _ Hfl Hf) as [-> Hm]. split; [|exact Hregs].
  change (rep boot {| current := current (yield_result σ m_end y_end); next_id := next_id (yield_result σ m_end y_end);
    heap := heap (yield_result σ m_end y_end); ram := m; regs := regs (yield_result σ m_end y_end) |} next
    (rest ++ [suspend cur (suspended (regs σ) ret) (ram σ)]) A).
  eapply rep_compute; [exact R'|exact Hm| |apply (rq_regs _ _ _ _ _ R')].
  intros x [[Hz Hb]|[[Hs Hx]|[Hs Hx]]]; [right; right; by left| |by left].
  right; right; right. exists (suspend cur (suspended (regs σ) ret) (ram σ)).
  split; [apply elem_of_app; right; by left|]. by split.
Qed.
End interrupted.

(** With or without another thread to yield to. *)
Section yields.
Context {H : Type} `{!HeapOps H, !HeapLaws H, !SchedText} (boot : region).
Context (σ : sched H) (cur : thread) (ready : list thread) (A : list region) (ret : Z).

(** Room for an interrupt when the thread is switched to. *)
Definition roomy (t : thread) : Prop := (stack_of boot t).1 + 248 ≤ rsp (th_ctx t).

(** What a yield comes to. *)
Definition rotated m y : Prop :=
  match ready with
  | [] => rep boot (yield_result σ m y) cur [] A ∧ y_regs y = regs σ
  | next :: rest =>
      rep boot (yield_result σ m y) next (rest ++ [suspend cur (suspended (regs σ) ret) (ram σ)]) A ∧
      y_regs y = th_ctx next ∧
      ∀ x, rsp (th_ctx next) ≤ x < (stack_of boot next).1 + (stack_of boot next).2 → m !! x = th_snap next !! x
  end.

Definition under_way m y : Prop :=
  match ready with
  | [] => (y = start_yield σ ∨ finished y ∧ yield_result σ (ram σ) y = σ) ∧
      mods (λ x, outside boot x ∨ in_region (stack_of boot cur) x ∧ x < rsp (regs σ)) (ram σ) m
  | next :: rest => ∃ m_end y_end, rotated m_end y_end ∧ inflight boot σ cur next ret m_end y_end m y
  end.

Context (R : rep boot σ cur ready A) (Hret : 0 ≤ ret < 2 ^ 64).
Context (Hroom : (stack_of boot cur).1 + 248 ≤ rsp (regs σ) ≤ (stack_of boot cur).1 + (stack_of boot cur).2).
Context (Hready : ∀ t, t ∈ ready → roomy t).

Lemma regs_in_stack : 248 ≤ rsp (regs σ) ∧ in_stack boot cur 56 (rsp (regs σ)).
Proof.
  destruct (heap_stack boot _ _ _ _ cur R) as (Hlo & _ & _); [by left|].
  pose proof (rq_regs _ _ _ _ _ R) as Hr. unfold context_ok, context_words in Hr.
  rewrite !Forall_cons in Hr. unfold in_stack. lia.
Qed.

Lemma under_way_start : under_way (ram σ) (start_yield σ).
Proof.
  destruct regs_in_stack as [_ Hin]. unfold under_way, rotated. destruct ready as [|next rest]; [by split; [left|]|].
  destruct (returns_inv _ _ (sched_yield_returns boot σ cur next rest A ret R Hin Hret))
    as (σ' & Hrun & R' & Hregs & _ & _ & Hm).
  rewrite run_yield_sched_yield in Hrun.
  destruct (run_yield ret 21 (ram σ) (start_yield σ)) as [[m_end y_end]| | |] eqn:Hy; [|done..].
  rewrite bind_ok in Hrun. injection Hrun as <-. exists m_end, y_end. split; [|by eapply inflight_start].
  split; [exact R'|split; [exact Hregs|]]. intros x Hx. by eapply (yield_stack boot).
Qed.

Lemma under_way_step m y : under_way m y → ¬ finished y →
  ∃ m1 y1, exec_yield ret m y = Ok (m1, y1) ∧ under_way m1 y1 ∧ (remaining y1 < remaining y)%nat ∧
    mods (λ x, heap_zone x ∨ in_region boot x) m m1.
Proof.
  unfold under_way. destruct ready as [|next rest].
  - intros [[->|[Hf _]] Hm] Hnf; [|done]. destruct (rq_ring _ _ _ _ _ R) as [Hl _]. cbn [hd] in Hl.
    rewrite (eq_sym (rq_current _ _ _ _ _ R)) in Hl.
    assert (load64 m (task_next (current σ)) = Ok (current σ)) as Hl'.
    { eapply load64_keep; [exact Hm|exact Hl|]. intros x Hx [[Hz Hb]|[Hs _]];
        assert (range (th_node cur) sizeof_task x) as Hn
          by (rewrite (rq_current _ _ _ _ _ R) in Hx; unfold range, task_next, sizeof_task in *; lia).
      - destruct (footprint_zone boot _ _ _ _ cur x R ltac:(by left) (node_in_footprint boot _ _ Hn)); tauto.
      - by apply (own_apart boot _ cur (rq_apart _ _ _ _ _ R) ltac:(by left) x). }
    unfold exec_yield. cbn [start_yield y_pc y_prev]. rewrite Hl', bind_ok, Z.eqb_refl. do 2 eexists. split; [done|].
    split; [split; [right; split; [done|by destruct σ]|exact Hm]|]. split; [cbn; lia|apply mods_refl].
  - intros (m_end & y_end & Hr & Hfl) Hnf.
    destruct (inflight_step boot σ cur next rest A ret R Hroom (Hready next ltac:(by left)) _ _ _ _ Hfl Hnf)
      as (m1 & y1 & Hex & Hfl1 & Hleft & Hw).
    exists m1, y1. split; [done|split; [by exists m_end, y_end|split; [lia|done]]].
Qed.

(** What an interrupt at this point may write to. *)
Definition irq_area y x : Prop := outside boot x ∨ range (rsp (y_regs y) - 192) 192 x.

Lemma under_way_noise P m y m' : under_way m y → ¬ finished y → mods P m m' → (∀ x, P x → irq_area y x) → under_way m' y.
Proof.
  unfold under_way. destruct ready as [|next rest].
  - intros [[->|[Hf _]] Hm] Hnf Hm' HP; [|done]. split; [by left|]. eapply mods_trans; [exact Hm|].
    eapply mods_weaken; [exact Hm'|]. intros x [?|Hx]%HP; [by left|right]. cbn [start_yield y_regs] in Hx.
    unfold in_region, range in *. lia.
  - intros (m_end & y_end & Hr & Hfl) Hnf Hm' HP. exists m_end, y_end. split; [done|].
    by eapply (inflight_noise boot σ cur next rest A ret R Hroom (Hready next ltac:(by left))).
Qed.

Lemma under_way_room m y : under_way m y → ¬ finished y →
  192 ≤ rsp (y_regs y) < 2 ^ 64 ∧ backed m (rsp (y_regs y) - 192) 192 ∧
  ∀ x, range (rsp (y_regs y) - 192) 192 x → heap_zone x ∨ in_region boot x.
Proof.
  unfold under_way. destruct regs_in_stack as [H8 Hin]. destruct ready as [|next rest].
  - intros [[->|[Hf _]] Hm] Hnf; [|done]. cbn [start_yield y_regs]. destruct Hin as [_ ?]. split; [lia|].
    destruct (heap_stack boot _ _ _ _ cur R) as (Hlo & _ & Hb); [by left|]. split.
    + eapply mods_backed; [exact Hm|]. eapply backed_sub; [exact Hb|lia..].
    + intros x Hx. eapply (footprint_zone boot); [exact R|by left|]. apply stack_in_footprint.
      unfold in_region, range in *. lia.
  - intros (m_end & y_end & Hr & Hfl) Hnf.
    by eapply (inflight_room boot σ cur next rest A ret R Hroom (Hready next ltac:(by left))).
Qed.

Lemma under_way_end m y : under_way m y → finished y → rotated m y.
Proof.
  unfold under_way, rotated. destruct ready as [|next rest].
  - intros [[->|[_ Hres]] Hm] Hf; [done|]. assert (y_regs y = regs σ) as Hregs by by rewrite <- Hres. split; [|done].
    assert (y_current y = current σ) as Hcur by by rewrite <- Hres.
    unfold yield_result. rewrite Hregs, Hcur. eapply rep_compute; [exact R|exact Hm| |apply (rq_regs _ _ _ _ _ R)].
    intros x [[Hz Hb]|[Hs _]]; [right; right; by left|by left].
  - intros (m_end & y_end & (R' & Hregs & Hsnap) & Hfl) Hf.
    destruct (inflight_rep boot σ cur next rest A ret _ _ _ _ Hfl Hf (conj R' Hregs)) as [R2 Hregs2].
    split; [done|split; [done|]]. intros x Hx. destruct (inflight_end _ _ _ _ _ _ _ _ _ Hfl Hf) as [-> Hm].
    rewrite (mods_out _ _ _ Hm); [by apply Hsnap|]. destruct (rq_ready _ _ _ _ _ R next) as [_ [_ _ [? _] _ _]]; [by left|].
    pose proof (Hready next ltac:(by left)). unfold roomy in *.
    eapply (next_stack_not_junk boot σ cur next rest A R); unfold in_region, range; lia.
Qed.
End yields.

(** Its own steps, and interrupts. *)
Inductive yield_step `{!HeapOps H, !HeapLaws H} (boot : region) (ret : Z) : mem * yielding → mem * yielding → Prop :=
  | ys_step m y m' y' : ¬ finished y → exec_yield ret m y = Ok (m', y') → yield_step boot ret (m, y) (m', y')
  | ys_interrupt P m y m' : ¬ finished y → mods P m m' → (∀ x, P x → irq_area boot y x) →
      yield_step boot ret (m, y) (m', y).

(** A new task has room. *)
Lemma new_roomy boot n id stack entry m : stack ≠ 0 → roomy boot (new_thread n id stack entry m).
Proof.
  intros Hs. unfold roomy, stack_of. cbn. destruct (Z.eqb_spec stack 0); [done|]. cbn. unfold KERNEL_STACK_SIZE. lia.
Qed.

Lemma under_way_steps `{!HeapOps H, !HeapLaws H, !SchedText} boot (σ : sched H) cur ready A ret w w' :
  rep boot σ cur ready A →
  (stack_of boot cur).1 + 248 ≤ rsp (regs σ) ≤ (stack_of boot cur).1 + (stack_of boot cur).2 →
  (∀ t, t ∈ ready → roomy boot t) → 0 ≤ ret < 2 ^ 64 →
  rtc (yield_step boot ret) w w' → under_way boot σ cur ready A ret w.1 w.2 → under_way boot σ cur ready A ret w'.1 w'.2.
Proof.
  intros R Hroom Hready Hret. induction 1 as [|w w1 w2 Hs _ IH]; [done|]. intros Hu. apply IH. clear IH.
  destruct Hs as [m y m' y' Hnf Hex|P m y m' Hnf Hm HP]; cbn [fst snd] in *.
  - destruct (under_way_step boot σ cur ready A ret R Hret Hroom Hready m y Hu Hnf) as (m1 & y1 & Hex1 & Hu1 & _). congruence.
  - by eapply (under_way_noise boot σ cur ready A ret R Hroom Hready).
Qed.

Lemma yield_steps_left `{!HeapOps H, !HeapLaws H} boot ret w w' :
  rtc (yield_step boot ret) w w' → (remaining w'.2 ≤ remaining w.2)%nat.
Proof.
  induction 1 as [|w w1 w2 Hs _ IH]; [done|]. destruct Hs as [m y m' y' Hnf Hex|P m y m' Hnf Hm HP]; cbn [fst snd] in *; [|done].
  pose proof (exec_remaining _ _ _ _ _ Hnf Hex). lia.
Qed.

#[local] Existing Instances sched_demo.ops0 sched_demo.laws0 sched_demo.text0.

(** context.asm and sched_yield, taken apart.  Executed one instruction, or one
    statement, after the other, at most 21 of them, they compute what [context_switch]
    and [sched_yield] do, from any state, faults included. *)
Theorem sched_yield_steps {H : Type} {O : HeapOps H} {Tx : SchedText} (σ : sched H) ret :
  sched_yield σ ret = ('(m, y) ← run_yield ret 21 (ram σ) (start_yield σ); Ok (yield_result σ m y)) ∧
  ∀ m c old new, exec_code old new m c context_asm = context_switch m c old new.
Proof. split; [apply run_yield_sched_yield|]. intros. apply exec_context_switch. Qed.

(** C17. Interrupts inside sched_yield.  With interrupts before, between and after any of
    its statements and the instructions of context.asm, the one that changes the stack
    included, each writing at will to 192 bytes below rsp and outside the heap and the
    boot stack: the next step can always be taken, there are at most 21, and at the end
    the queue has been rotated as without interrupts, the registers are those the next
    task was suspended with, and its stack is as it left it. *)
Theorem yield_interruptible {H : Type} {O : HeapOps H} {L : HeapLaws H} {Tx : SchedText}
    (boot : region) (σ : sched H) cur ready A ret m y :
  rep boot σ cur ready A →
  (stack_of boot cur).1 + 248 ≤ rsp (regs σ) ≤ (stack_of boot cur).1 + (stack_of boot cur).2 →
  (∀ t, t ∈ ready → roomy boot t) → 0 ≤ ret < 2 ^ 64 →
  rtc (yield_step boot ret) (ram σ, start_yield σ) (m, y) →
  (¬ finished y → ∃ m' y', exec_yield ret m y = Ok (m', y') ∧ (remaining y' < remaining y ≤ 21)%nat) ∧
  (finished y → rotated boot σ cur ready A ret m y).
Proof.
  intros R Hroom Hready Hret Hs.
  pose proof (under_way_steps boot σ cur ready A ret _ _ R Hroom Hready Hret Hs (under_way_start boot σ cur ready A ret R Hret Hroom Hready)) as Hu.
  cbn [fst snd] in Hu. split.
  - intros Hnf. destruct (under_way_step boot σ cur ready A ret R Hret Hroom Hready m y Hu Hnf) as (m1 & y1 & Hex & _ & Hlt & _).
    exists m1, y1. split; [done|]. split; [done|]. exact (yield_steps_left _ _ _ _ Hs).
  - by apply (under_way_end boot σ cur ready A ret R Hroom Hready).
Qed.

(** The boot flow yields to a task that has not run yet, with an interrupt at once. *)
Lemma yield_interruptible_witness : ∃ (σ : sched Z) m' y',
  exec_yield 0xffffffff80003000 (ram σ) (start_yield σ) = Ok (m', y') ∧ (remaining y' < 21)%nat.
Proof.
  destruct (sched_demo.two _ sched_demo.ram0_booted) as (σ1 & σ & cur & new & _ & R & Hin & _ & Hsp & _ & Hstk & Hr0 & _).
  assert (∀ t, t ∈ [new] → roomy sched_demo.boot t) as Hready.
  { intros t ->%list_elem_of_singleton. destruct (rq_ready _ _ _ _ _ R new) as [_ [_ _ Hst _ _]]; [by left|].
    unfold roomy, in_stack, stack_of in *. rewrite Hsp in *. destruct (Z.eqb_spec (th_base new) 0) as [Hz|_];
      rewrite ?Hz in *; cbn in *; unfold KERNEL_STACK_SIZE in *; lia. }
  assert (yield_step sched_demo.boot 0xffffffff80003000 (ram σ, start_yield σ) (ram σ, start_yield σ)) as Hirq
    by by apply (ys_interrupt _ _ (λ _, False)).
  destruct (yield_interruptible sched_demo.boot σ cur [new] [] 0xffffffff80003000 (ram σ) (start_yield σ) R
    ltac:(rewrite Hstk, Hr0; cbn; lia) Hready ltac:(lia)
    (rtc_once _ _ Hirq)) as [Hstep _].
  destruct (Hstep ltac:(done)) as (m' & y' & Hex & Hlt & _). exists σ, m', y'. split; [exact Hex|exact Hlt].
Defined.
