(* ===== verification/Paging.v ===== *)
(** kernel/arch/x86_64/paging.c: the 4-level page-table walk.

    The tables are 512-entry arrays of 64-bit words in the shared memory,
    reached through the direct map.  The abstract view of an address space is
    a pair: [T], the table frames by level and address prefix, and [PM], the
    leaf entries by virtual page number; [space] ties it to the memory.  The
    hardware's side is the record [cpu] (cr3, rsp, the TLB) and [mmu_walk], the
    walk the processor makes. *)

From stdpp Require Import base list gmap sets.
From Stdlib Require Import ZArith Lia.
From S2P Require Import Prelude.
From S2P Require Import Mem.
From S2P Require Import LibString.
From S2P Require Import Pmm.

(** * Hardware PTE bits and the neutral flags *)

Definition PTE_PRESENT : Z := Z.shiftl 1 0.
Definition PTE_WRITE : Z := Z.shiftl 1 1.
Definition PTE_USER : Z := Z.shiftl 1 2.
Definition PTE_ADDR_MASK : Z := 0x000ffffffffff000.

Definition VM_WRITE : Z := 0x1.
Definition VM_USER : Z := 0x2.

(** [(x & bit) != 0] *)
Definition has (x bit : Z) : bool := negb (Z.land x bit =? 0).

Implicit Types (v virt pg e f i phys flags : Z) (m : mem).

Definition pml4_index v : Z := Z.land (Z.shiftr v 39) 0x1ff.
Definition pdpt_index v : Z := Z.land (Z.shiftr v 30) 0x1ff.
Definition pd_index v : Z := Z.land (Z.shiftr v 21) 0x1ff.
Definition pt_index v : Z := Z.land (Z.shiftr v 12) 0x1ff.

(** * State *)

(** The virtual page number: what the four indices of an address make up. *)
Definition vpage v : Z := v / 2 ^ 12 mod 2 ^ 36.

(** A cached translation: the frame's address and the rights on the way to it. *)
Record cpu := { cr3 : Z; rsp : Z; tlb : gmap Z (Z * Z) }.

Record vm_state := {
  hhdm_offset : Z;
  pmm : pmm_state;
  ram : mem;
  vcpu : cpu;
}.

Implicit Types (σ : vm_state).

Definition set_pmm σ (ps : pmm_state) m : vm_state := {|
  hhdm_offset := hhdm_offset σ; pmm := ps; ram := m; vcpu := vcpu σ |}.
Definition set_ram σ m : vm_state := set_pmm σ (pmm σ) m.
Definition set_cpu σ (c : cpu) : vm_state := {|
  hhdm_offset := hhdm_offset σ; pmm := pmm σ; ram := ram σ; vcpu := c |}.

Definition paging_set_hhdm σ (offset : Z) : vm_state := {|
  hhdm_offset := offset; pmm := pmm σ; ram := ram σ; vcpu := vcpu σ |}.

Definition table_at σ (table_phys : Z) : Z := u64 (table_phys + hhdm_offset σ).

(** * Control registers and the TLB *)

(** Loading cr3 makes the new tables live and forgets every cached
    translation; invlpg forgets the one of its page. *)
Definition paging_load_cr3 σ (pml4_phys : Z) : vm_state :=
  set_cpu σ {| cr3 := pml4_phys; rsp := rsp (vcpu σ); tlb := ∅ |}.

Definition paging_invlpg σ virt : vm_state :=
  set_cpu σ {| cr3 := cr3 (vcpu σ); rsp := rsp (vcpu σ);
               tlb := base.delete (vpage virt) (tlb (vcpu σ)) |}.

(** * The walk *)

(** A null result is 0. *)
Definition next_level σ (table index : Z) (create : bool) (leaf_user_bit : Z)
  : outcome (vm_state * Z) :=
  entry ← load64 (ram σ) (table + 8 * index);
  if has entry PTE_PRESENT then Ok (σ, table_at σ (Z.land entry PTE_ADDR_MASK)) else
  if negb create then Ok (σ, 0) else
  '(ps, m, frame) ← pmm_alloc_frame (pmm σ) (ram σ);
  let σ := set_pmm σ ps m in
  if frame =? 0 then Ok (σ, 0) else
  '(m, _) ← memset (ram σ) (table_at σ frame) 0 PMM_FRAME_SIZE;
  m ← store64 m (table + 8 * index)
        (Z.lor (Z.lor (Z.lor (Z.land frame PTE_ADDR_MASK) PTE_PRESENT) PTE_WRITE) leaf_user_bit);
  Ok (set_ram σ m, table_at σ frame).

(** The three steps every operation starts with: the table of the lowest level. *)
Definition walk_to_pt σ (pml4_phys : Z) virt (create : bool) (leaf_user : Z)
  : outcome (vm_state * Z) :=
  let pml4 := table_at σ pml4_phys in
  '(σ, pdpt) ← next_level σ pml4 (pml4_index virt) create leaf_user;
  if pdpt =? 0 then Ok (σ, 0) else
  '(σ, pd) ← next_level σ pdpt (pdpt_index virt) create leaf_user;
  if pd =? 0 then Ok (σ, 0) else
  next_level σ pd (pd_index virt) create leaf_user.

(** The leaf entry for a frame and a set of flags. *)
Definition leaf_pte phys flags : Z :=
  let pte := Z.lor (Z.land phys PTE_ADDR_MASK) PTE_PRESENT in
  let pte := if has flags VM_WRITE then Z.lor pte PTE_WRITE else pte in
  if has flags VM_USER then Z.lor pte PTE_USER else pte.

Definition paging_map σ (pml4_phys : Z) virt phys flags : outcome (vm_state * bool) :=
  let leaf_user := if has flags VM_USER then PTE_USER else 0 in
  '(σ, pt) ← walk_to_pt σ pml4_phys virt true leaf_user;
  if pt =? 0 then Ok (σ, false) else
  m ← store64 (ram σ) (pt + 8 * pt_index virt) (leaf_pte phys flags);
  Ok (paging_invlpg (set_ram σ m) virt, true).

Definition paging_unmap σ (pml4_phys : Z) virt : outcome (vm_state * bool) :=
  '(σ, pt) ← walk_to_pt σ pml4_phys virt false 0;
  if pt =? 0 then Ok (σ, false) else
  let i := pt_index virt in
  entry ← load64 (ram σ) (pt + 8 * i);
  if negb (has entry PTE_PRESENT) then Ok (σ, false) else
  m ← store64 (ram σ) (pt + 8 * i) 0;
  Ok (paging_invlpg (set_ram σ m) virt, true).

(** [None] for false, [Some p] for true with [*out_phys = p]. *)
Definition paging_translate σ (pml4_phys : Z) virt : outcome (vm_state * option Z) :=
  '(σ, pt) ← walk_to_pt σ pml4_phys virt false 0;
  if pt =? 0 then Ok (σ, None) else
  entry ← load64 (ram σ) (pt + 8 * pt_index virt);
  if negb (has entry PTE_PRESENT) then Ok (σ, None) else
  Ok (σ, Some (Z.lor (Z.land entry PTE_ADDR_MASK) (Z.land virt 0xfff))).

(** Where the linker put [paging_load_cr3]. *)
Class PagingText := paging_load_cr3_addr : Z.

Definition paging_can_switch_to `{!PagingText} σ (pml4_phys : Z) : outcome (vm_state * bool) :=
  '(σ, r1) ← paging_translate σ pml4_phys (rsp (vcpu σ));
  match r1 with
  | None => Ok (σ, false)
  | Some _ =>
      '(σ, r2) ← paging_translate σ pml4_phys paging_load_cr3_addr;
      Ok (σ, match r2 with Some _ => true | None => false end)
  end.

(** * The processor's walk *)

(** What the MMU does with an address (4-level paging, no large pages): from
    the table at physical address [table], [l] levels to go, follow the entries
    as long as they are present; the rights are those every entry on the way
    grants. *)
Fixpoint mmu_walk m (hhdm : Z) (l : nat) (table v rights : Z) : outcome (option (Z * Z)) :=
  match l with
  | O => Ok (Some (table, rights))
  | S l =>
      e ← load64 m (table + hhdm + 8 * (v / 2 ^ (12 + 9 * Z.of_nat l) mod 512));
      if negb (Z.testbit e 0) then Ok None else
      mmu_walk m hhdm l (e / 2 ^ 12 mod 2 ^ 40 * 2 ^ 12) v (Z.land rights e)
  end.

Definition mmu σ v : outcome (option (Z * Z)) :=
  mmu_walk (ram σ) (hhdm_offset σ) 4 (cr3 (vcpu σ)) v (Z.lor PTE_WRITE PTE_USER).

(** The memory of the model is the direct map's.  The live tables reach [v] if they
    send it to the byte it stands for, [v - hhdm], and let it be written. *)
Definition reached σ v : bool :=
  match mmu σ v with
  | Ok (Some (frame, rights)) => (frame + v mod PMM_FRAME_SIZE =? v - hhdm_offset σ) && has rights PTE_WRITE
  | _ => false
  end.

(** What is left of memory when every access goes through the live tables: anything else
    is a page fault. *)
Definition translated σ : vm_state := set_ram σ (filter (λ b, reached σ b.1 = true) (ram σ)).

(** * Address space, abstractly *)

(** ** Bits of an entry *)

Lemma has_testbit x b : 0 ≤ b → has x (Z.shiftl 1 b) = Z.testbit x b.
Proof.
  intros Hb. unfold has. rewrite Z.shiftl_1_l. destruct (Z.testbit x b) eqn:E.
  - destruct (Z.eqb_spec (Z.land x (2 ^ b)) 0) as [H|]; [|done].
    apply (f_equal (λ z, Z.testbit z b)) in H.
    by rewrite Z.land_spec, Z.pow2_bits_true, E, Z.bits_0 in H by lia.
  - destruct (Z.eqb_spec (Z.land x (2 ^ b)) 0) as [|H]; [done|]. exfalso. apply H.
    apply Z.bits_inj'. intros n Hn. rewrite Z.land_spec, Z.bits_0.
    destruct (decide (b = n)) as [<-|]; [by rewrite E|].
    by rewrite Z.pow2_bits_false, andb_false_r by lia.
Qed.

Lemma land_addr_mask x : Z.land x PTE_ADDR_MASK = x / 2 ^ 12 mod 2 ^ 40 * 2 ^ 12.
Proof.
  change PTE_ADDR_MASK with (Z.shiftl (Z.ones 40) 12).
  rewrite <- (Z.land_ones (x / 2 ^ 12)), <- Z.shiftr_div_pow2, <- Z.shiftl_mul_pow2 by lia.
  rewrite Z.shiftl_land. apply Z.bits_inj'. intros n Hn. rewrite !Z.land_spec.
  destruct (decide (n < 12)).
  - rewrite (Z.shiftl_spec_low (Z.ones 40)), !andb_false_r by lia. done.
  - rewrite (Z.shiftl_spec_high (Z.shiftr x 12)), Z.shiftr_spec by lia. do 2 f_equal. lia.
Qed.

Lemma lor_low q k x : 0 ≤ k → 0 ≤ x < 2 ^ k → Z.lor (q * 2 ^ k) x = q * 2 ^ k + x.
Proof.
  intros Hk Hx. rewrite Z.add_nocarry_lxor, Z.lxor_lor; [done| |].
  all: apply Z.bits_inj'; intros n Hn; rewrite Z.land_spec, Z.bits_0.
  all: destruct (decide (n < k)); [by rewrite Z.mul_pow2_bits_low by lia|].
  all: rewrite <- (Z.mod_small x (2 ^ k)), Z.mod_pow2_bits_high, andb_false_r by lia; done.
Qed.

Lemma index_eq v (k : Z) : 0 ≤ k → Z.land (Z.shiftr v k) 0x1ff = v / 2 ^ k mod 512.
Proof.
  intros Hk. change 0x1ff with (Z.ones 9). rewrite Z.land_ones, Z.shiftr_div_pow2 by lia. done.
Qed.

(** The entry for a lower table: its frame, present, writable, and the user bit. *)
Definition table_entry f (u : bool) : Z := f * 2 ^ 12 + (if u then 7 else 3).

Lemma table_entry_make f (u : bool) : 0 ≤ f < 2 ^ 40 →
  Z.lor (Z.lor (Z.lor (Z.land (f * PMM_FRAME_SIZE) PTE_ADDR_MASK) PTE_PRESENT) PTE_WRITE)
    (if u then PTE_USER else 0) = table_entry f u.
Proof.
  intros Hf. rewrite land_addr_mask. change PMM_FRAME_SIZE with (2 ^ 12).
  rewrite Z.div_mul, Z.mod_small, <- !Z.lor_assoc by lia.
  rewrite lor_low by (destruct u; by vm_compute). unfold table_entry. by destruct u.
Qed.

Lemma table_entry_addr f (u : bool) : 0 ≤ f < 2 ^ 40 →
  Z.land (table_entry f u) PTE_ADDR_MASK = f * PMM_FRAME_SIZE.
Proof.
  intros Hf. rewrite land_addr_mask. unfold table_entry. rewrite Z.div_add_l by lia.
  rewrite (Z.div_small (if u then 7 else 3)) by (destruct u; lia).
  by rewrite Z.add_0_r, Z.mod_small.
Qed.

Lemma low_bit_add x y k b : 0 ≤ b < k → Z.testbit (x * 2 ^ k + y) b = Z.testbit y b.
Proof.
  intros Hb. rewrite <- (Z.mod_pow2_bits_low (x * 2 ^ k + y) k b), <- (Z.mod_pow2_bits_low y k b) by lia.
  f_equal. rewrite Z.add_comm, Z_mod_plus_full. done.
Qed.

Lemma table_entry_present f (u : bool) : has (table_entry f u) PTE_PRESENT = true.
Proof. unfold PTE_PRESENT. rewrite has_testbit by lia. unfold table_entry. rewrite low_bit_add by lia. by destruct u. Qed.

Lemma leaf_pte_eq phys flags : leaf_pte phys flags =
  phys / 2 ^ 12 mod 2 ^ 40 * 2 ^ 12 +
    (1 + (if has flags VM_WRITE then 2 else 0) + (if has flags VM_USER then 4 else 0)).
Proof.
  unfold leaf_pte. rewrite land_addr_mask.
  destruct (has flags VM_WRITE), (has flags VM_USER); rewrite <- ?Z.lor_assoc, lor_low by (try done; by vm_compute); done.
Qed.

(** ** Tables and leaf entries *)

(** A table of level [l] is named [(l, q)], [q] the page number bits above those
    it resolves; entry [q' mod 512] of [(l, q' / 512)] leads to [(l - 1, q')],
    or, at level 1, maps page [q'].  With each table: its frame, and whether the
    entry for it has the user bit. *)
Abbreviation tabs := (gmap (Z * Z) (Z * bool)).
Abbreviation pmap := (gmap Z Z).

Implicit Types (T : tabs) (PM : pmap) (l q : Z).

Definition pre l pg : Z := pg / 512 ^ l.

Lemma pre_step l pg : 1 ≤ l → pre (l - 1) pg / 512 = pre l pg.
Proof.
  intros Hl. unfold pre. rewrite Z.div_div by (try apply Z.pow_nonzero; lia).
  f_equal. rewrite <- (Z.pow_1_r 512) at 2. rewrite <- Z.pow_add_r by lia. f_equal. lia.
Qed.

Definition slot T PM l q : Z :=
  if decide (l = 1) then default 0 (PM !! q)
  else match T !! (l - 1, q) with Some (f, u) => table_entry f u | None => 0 end.

Definition slot_addr (hhdm : Z) f q : Z := f * PMM_FRAME_SIZE + hhdm + 8 * (q mod 512).

(** The bytes of a frame. *)
Definition frame_mem (hhdm : Z) f : Z → Prop := range (f * PMM_FRAME_SIZE + hhdm) PMM_FRAME_SIZE.

Record space m (hhdm : Z) T PM : Prop := {
  sp_key l q t : T !! (l, q) = Some t → 1 ≤ l ≤ 4;
  sp_parent l q t : T !! (l, q) = Some t → l < 4 → is_Some (T !! (l + 1, q / 512));
  sp_frame k f u : T !! k = Some (f, u) →
    0 < f < 2 ^ 40 ∧ (f + 1) * PMM_FRAME_SIZE + hhdm ≤ 2 ^ 64 ∧
    backed m (f * PMM_FRAME_SIZE + hhdm) PMM_FRAME_SIZE;
  sp_inj k k' f u u' : T !! k = Some (f, u) → T !! k' = Some (f, u') → k = k';
  sp_slot l q f u : T !! (l, q / 512) = Some (f, u) →
    load64 m (slot_addr hhdm f q) = Ok (slot T PM l q);
  sp_map pg e : PM !! pg = Some e →
    0 ≤ e < 2 ^ 64 ∧ has e PTE_PRESENT = true ∧ is_Some (T !! (1, pg / 512));
}.

Lemma slot_in_frame hhdm f q x : range (slot_addr hhdm f q) 8 x → frame_mem hhdm f x.
Proof. unfold slot_addr, frame_mem, range, PMM_FRAME_SIZE. pose proof (Z.mod_pos_bound q 512). lia. Qed.

Lemma frames_apart hhdm f f' x : f ≠ f' → frame_mem hhdm f x → ¬ frame_mem hhdm f' x.
Proof. unfold frame_mem, range, PMM_FRAME_SIZE. lia. Qed.

(** Slots of different tables, or different slots of one. *)
Lemma slots_apart m hhdm T PM l q f u l' q' f' u' x :
  space m hhdm T PM → T !! (l, q / 512) = Some (f, u) → T !! (l', q' / 512) = Some (f', u') →
  (l, q) ≠ (l', q') → range (slot_addr hhdm f q) 8 x → ¬ range (slot_addr hhdm f' q') 8 x.
Proof.
  intros Hsp HT HT' Hne Hx Hx'. destruct (decide (f = f')) as [<-|Hff].
  - pose proof (sp_inj _ _ _ _ Hsp _ _ _ _ _ HT HT') as [= <- Hq]. apply Hne. f_equal.
    unfold slot_addr, range in *. pose proof (Z.div_mod q 512). pose proof (Z.div_mod q' 512). lia.
  - apply (frames_apart hhdm f f' x Hff); by eapply slot_in_frame.
Qed.

Lemma space_mods P m m' hhdm T PM :
  space m hhdm T PM → mods P m m' →
  (∀ k f u x, T !! k = Some (f, u) → P x → ¬ frame_mem hhdm f x) → space m' hhdm T PM.
Proof.
  intros Hsp Hm HP. destruct Hsp as [Hk Hp Hf Hi Hs Hmap]. split; try done.
  - intros k f u HT. destruct (Hf k f u HT) as (? & ? & ?). split; [done|split; [done|]].
    by eapply mods_backed.
  - intros l q f u HT. eapply load64_keep; [exact Hm|by eapply Hs|].
    intros x Hx HPx. eapply HP; [exact HT|exact HPx|]. by eapply slot_in_frame.
Qed.

(** The effect of storing in one slot on all slots. *)
Lemma space_store m m' hhdm T PM l q f u w :
  space m hhdm T PM → T !! (l, q / 512) = Some (f, u) → stored64 (slot_addr hhdm f q) w m m' →
  ∀ l' q' f' u', T !! (l', q' / 512) = Some (f', u') →
    load64 m' (slot_addr hhdm f' q') = Ok (if decide ((l', q') = (l, q)) then w else slot T PM l' q').
Proof.
  intros Hsp HT [Hm Hl] l' q' f' u' HT'. case_decide as Hd.
  - injection Hd as -> ->. by simplify_eq.
  - eapply load64_keep; [exact Hm|by eapply sp_slot|].
    intros x Hx. eapply slots_apart; [exact Hsp|exact HT'|exact HT|done|done].
Qed.

Lemma space_frames_mods P m m' hhdm T PM k f u :
  space m hhdm T PM → mods P m m' → T !! k = Some (f, u) →
  0 < f < 2 ^ 40 ∧ (f + 1) * PMM_FRAME_SIZE + hhdm ≤ 2 ^ 64 ∧
  backed m' (f * PMM_FRAME_SIZE + hhdm) PMM_FRAME_SIZE.
Proof.
  intros Hsp Hm HT. destruct (sp_frame _ _ _ _ Hsp k f u HT) as (? & ? & ?).
  split; [done|split; [done|]]. by eapply mods_backed.
Qed.

(** Writing a leaf entry. *)
Lemma space_set_leaf m m' hhdm T PM PM' pg f u :
  space m hhdm T PM → T !! (1, pg / 512) = Some (f, u) →
  stored64 (slot_addr hhdm f pg) (default 0 (PM' !! pg)) m m' →
  (∀ p, p ≠ pg → PM' !! p = PM !! p) →
  (∀ e, PM' !! pg = Some e → 0 ≤ e < 2 ^ 64 ∧ has e PTE_PRESENT = true) →
  space m' hhdm T PM'.
Proof.
  intros Hsp HT Hst Hoth Hpg. split; try apply Hsp.
  - intros k f' u' HT'. eapply space_frames_mods; [exact Hsp|apply Hst|exact HT'].
  - intros l q f' u' HT'. rewrite (space_store _ _ _ _ _ _ _ _ _ _ Hsp HT Hst _ _ _ _ HT').
    case_decide as Hd; [injection Hd as -> ->; by unfold slot; rewrite decide_True|].
    unfold slot. case_decide; [|done]. rewrite Hoth; [done|]. congruence.
  - intros p e He. destruct (decide (p = pg)) as [->|Hne].
    + split; [by apply Hpg|split; [by apply Hpg|by rewrite HT]].
    + rewrite Hoth in He by done. by eapply sp_map.
Qed.

(** Linking in a zeroed frame as a lower table. *)
Lemma space_add m m' hhdm T PM l q f u f' (u' : bool) :
  space m hhdm T PM → T !! (l, q / 512) = Some (f, u) → 2 ≤ l → T !! (l - 1, q) = None →
  (∀ k u1, T !! k ≠ Some (f', u1)) →
  0 < f' < 2 ^ 40 → (f' + 1) * PMM_FRAME_SIZE + hhdm ≤ 2 ^ 64 →
  backed m (f' * PMM_FRAME_SIZE + hhdm) PMM_FRAME_SIZE →
  (∀ q', load64 m (slot_addr hhdm f' q') = Ok 0) →
  stored64 (slot_addr hhdm f q) (table_entry f' u') m m' →
  space m' hhdm (<[(l - 1, q) := (f', u')]> T) PM.
Proof.
  intros Hsp HT Hl Hnone Hfresh Hf' Hhi Hback Hzero Hst.
  assert (∀ l' q', T !! (l', q') = None → l' < 4 → ∀ q2, q2 / 512 = q' → slot T PM l' q2 = 0) as Hempty.
  { intros l' q' Hn Hlt q2 Hq2. unfold slot. case_decide as H1; [subst|].
    - destruct (PM !! q2) as [e|] eqn:He; [|done].
      destruct (sp_map _ _ _ _ Hsp _ _ He) as (_ & _ & [t Ht]). congruence.
    - destruct (T !! (l' - 1, q2)) as [[f2 u2]|] eqn:H2; [|done].
      destruct (sp_parent _ _ _ _ Hsp _ _ _ H2) as [t Ht]; [lia|].
      rewrite Z.sub_add, Hq2, Hn in Ht. done. }
  split.
  - intros l' q' t. rewrite lookup_insert_Some. intros [[[= <- <-] _]|[_ Ht]]; [|by eapply sp_key].
    pose proof (sp_key _ _ _ _ Hsp _ _ _ HT). lia.
  - intros l' q' t. rewrite lookup_insert_Some. intros [[[= <- <-] _]|[_ Ht]] Hlt.
    + rewrite Z.sub_add. apply lookup_insert_is_Some'. right. by rewrite HT.
    + apply lookup_insert_is_Some'. right. by eapply sp_parent.
  - intros k f2 u2. rewrite lookup_insert_Some. intros [[<- [= <- <-]]|[_ Ht]].
    + split; [done|split; [done|]]. eapply mods_backed; [apply Hst|done].
    + eapply space_frames_mods; [exact Hsp|apply Hst|exact Ht].
  - intros k k' f2 u2 u3. rewrite !lookup_insert_Some.
    intros [[<- [= <- <-]]|[Hk Ht]] [[<- [= ?]]|[Hk' Ht']]; subst; try done.
    all: try (exfalso; by eapply Hfresh). by eapply sp_inj.
  - intros l' q' f2 u2. rewrite lookup_insert_Some. intros [[[= <- Hq] [= <- <-]]|[Hk Ht]].
    + assert (slot (<[(l - 1, q) := (f', u')]> T) PM (l - 1) q' = 0) as ->.
      { transitivity (slot T PM (l - 1) q').
        2: { apply (Hempty (l - 1) q Hnone); [|done]. pose proof (sp_key _ _ _ _ Hsp _ _ _ HT). lia. }
        unfold slot. case_decide; [done|]. rewrite lookup_insert_ne; [done|]. intros [= ? ?]. lia. }
      eapply load64_keep; [apply Hst|apply Hzero|]. intros x Hx Hx'.
      apply (frames_apart hhdm f f' x); [|by eapply slot_in_frame..]. intros ->. by eapply Hfresh.
    + rewrite (space_store _ _ _ _ _ _ _ _ _ _ Hsp HT Hst _ _ _ _ Ht). f_equal.
      unfold slot. case_decide as Hd.
      * injection Hd as -> ->. rewrite decide_False by lia. by rewrite lookup_insert_eq.
      * case_decide; [done|]. rewrite lookup_insert_ne; [done|]. intros [= ? ?]. apply Hd. f_equal; lia.
  - intros pg e He. destruct (sp_map _ _ _ _ Hsp _ _ He) as (? & ? & ?).
    split; [done|split; [done|]]. apply lookup_insert_is_Some'. by right.
Qed.

(** ** The invariant of the paging layer *)

Implicit Types (U F : gset Z) (root : Z).

(** [U]: the usable frames, [F]: the free ones, [root]: the top-level table's
    frame.  Table frames come out of the frame allocator and stay out. *)
Record vm_inv σ U F root T PM : Prop := {
  vi_pmm : pmm_rep (pmm σ) (ram σ) U F;
  vi_arena : arena (pmm σ) (ram σ) (hhdm_offset σ) F;
  vi_phys f : f ∈ U → f < 2 ^ 40;
  vi_root : T !! (4, 0) = Some (root, true);
  vi_space : space (ram σ) (hhdm_offset σ) T PM;
  vi_tables k f u : T !! k = Some (f, u) → f ∈ U ∧ ¬ (f ∈ F) ∧
    ∀ x, frame_mem (hhdm_offset σ) f x → ¬ bitmap_area (pmm σ) x;
}.

(** What an operation may write: the frame bitmap and the table frames. *)
Definition vm_area σ T : Z → Prop := λ x,
  bitmap_area (pmm σ) x ∨ ∃ k f u, T !! k = Some (f, u) ∧ frame_mem (hhdm_offset σ) f x.

(** [σ'] is [σ] after operations that took frames of [F] for new tables, with
    keys in [K] and entries with user bit [ub], and left [F'] free. *)
Record grown (K : Z * Z → Prop) σ F T (ub : bool) σ' F' T' : Prop := {
  gr_hhdm : hhdm_offset σ' = hhdm_offset σ;
  gr_bitmap : bitmap_area (pmm σ') = bitmap_area (pmm σ);
  gr_cpu : vcpu σ' = vcpu σ;
  gr_tabs : T ⊆ T';
  gr_free : F' ⊆ F;
  gr_new k f u : T' !! k = Some (f, u) → T !! k = Some (f, u) ∨ (T !! k = None ∧ f ∈ F ∧ u = ub ∧ K k);
  gr_count : (size F + size T = size F' + size T')%nat;
  gr_taken f : f ∈ F → ¬ (f ∈ F') → ∃ k u, T' !! k = Some (f, u);
  gr_mods : mods (vm_area σ T') (ram σ) (ram σ');
}.

Lemma vm_area_mono σ σ' T T' x :
  hhdm_offset σ' = hhdm_offset σ → bitmap_area (pmm σ') = bitmap_area (pmm σ) →
  T ⊆ T' → vm_area σ T x → vm_area σ' T' x.
Proof.
  intros Hh Hb Hsub [Hx|(k & f & u & HT & Hx)]; [left; by rewrite Hb|right].
  exists k, f, u. rewrite Hh. split; [|done]. by eapply lookup_weaken.
Qed.

Lemma grown_refl K σ F T ub : grown K σ F T ub σ F T.
Proof. split; try done; by left. Qed.

Lemma grown_trans K σ F T ub σ1 F1 T1 σ2 F2 T2 :
  grown K σ F T ub σ1 F1 T1 → grown K σ1 F1 T1 ub σ2 F2 T2 → grown K σ F T ub σ2 F2 T2.
Proof.
  intros G1 G2. destruct G1, G2. split.
  - congruence.
  - congruence.
  - congruence.
  - by transitivity T1.
  - by transitivity F1.
  - intros k f u [HT|(HT & Hf & -> & HK)]%gr_new1; [by apply gr_new0|].
    right. split; [|split; [by apply gr_free0|done]].
    destruct (T !! k) eqn:HTk; [|done]. by rewrite (lookup_weaken _ _ _ _ HTk gr_tabs0) in HT.
  - lia.
  - intros f Hf Hf2. destruct (decide (f ∈ F1)); [by apply gr_taken1|].
    destruct (gr_taken0 f Hf ltac:(done)) as (k & u & HT). exists k, u. by eapply lookup_weaken.
  - eapply mods_trans; (eapply mods_weaken; [eassumption|]); intros x;
      apply vm_area_mono; try congruence; done.
Qed.

Lemma table_at_ok σ U F root T PM k f (u : bool) :
  vm_inv σ U F root T PM → T !! k = Some (f, u) →
  table_at σ (f * PMM_FRAME_SIZE) = f * PMM_FRAME_SIZE + hhdm_offset σ ∧
  0 < f * PMM_FRAME_SIZE + hhdm_offset σ.
Proof.
  intros V HT. destruct (sp_frame _ _ _ _ (vi_space _ _ _ _ _ _ V) _ _ _ HT) as (Hf & Hhi & _).
  pose proof (ar_hhdm _ _ _ _ (vi_arena _ _ _ _ _ _ V)). unfold table_at, PMM_FRAME_SIZE in *.
  rewrite u64_id by lia. lia.
Qed.

(** A frame cleared by memset reads as zero entries. *)
Lemma load_le_zero (n : nat) m a :
  (∀ i, 0 ≤ i < Z.of_nat n → load8 m (a + i) = Ok 0) → load_le n m a = Ok 0.
Proof.
  revert a. induction n as [|n IH]; intros a Hz; [done|]. cbn [load_le].
  rewrite <- (Z.add_0_r a) at 1. rewrite Hz, bind_ok by lia.
  rewrite IH, bind_ok; [done|]. intros i Hi. rewrite <- Z.add_assoc. apply Hz. lia.
Qed.

Lemma zeroed_slots m hhdm f :
  (∀ i, 0 ≤ i < PMM_FRAME_SIZE → load8 m (f * PMM_FRAME_SIZE + hhdm + i) = Ok 0) →
  ∀ q, load64 m (slot_addr hhdm f q) = Ok 0.
Proof.
  intros Hz q. apply (load_le_zero 8). intros i Hi. unfold slot_addr. rewrite <- Z.add_assoc.
  apply Hz. pose proof (Z.mod_pos_bound q 512). unfold PMM_FRAME_SIZE. lia.
Qed.

(** Taking a frame from the frame allocator keeps the invariant. *)
Lemma alloc_keeps σ U F root T PM ps m i :
  vm_inv σ U F root T PM → i ∈ F → pmm_rep ps m U (F ∖ {[i]}) →
  mods (bitmap_area (pmm σ)) (ram σ) m → bitmap_area ps = bitmap_area (pmm σ) →
  vm_inv (set_pmm σ ps m) U (F ∖ {[i]}) root T PM.
Proof.
  intros V Hi R Hm Hb. destruct V as [R0 [Hh Har] Hp Hr Hs Ht]. split; cbn; try done.
  - split; [done|]. intros f Hf. destruct (Har f) as (? & ? & ?); [clear -Hf; set_solver|].
    split; [done|]. split; [by eapply mods_backed|by rewrite Hb].
  - eapply space_mods; [exact Hs|exact Hm|]. intros k f u x HT Hx Hfx. by apply (Ht _ _ _ HT) in Hfx.
  - intros k f u HT. destruct (Ht k f u HT) as (? & ? & ?). rewrite Hb.
    split; [done|split; [|done]]. by intros [? _]%elem_of_difference.
Qed.

(** ** One step of the walk *)

Lemma index_slot v l : 1 ≤ l →
  v / 2 ^ (12 + 9 * (l - 1)) mod 512 = pre (l - 1) (v / 2 ^ 12) mod 512.
Proof.
  intros Hl. unfold pre. rewrite Z.pow_add_r, <- Z.div_div by (try apply Z.pow_nonzero; lia).
  change 512 with (2 ^ 9) at 2. by rewrite <- Z.pow_mul_r by lia.
Qed.

(** The bits above bit 47 do not matter. *)
Lemma pre_vpage v l : 1 ≤ l ≤ 4 →
  pre (l - 1) (vpage v) mod 512 = pre (l - 1) (v / 2 ^ 12) mod 512.
Proof.
  intros Hl. unfold vpage, pre. set (p := v / 2 ^ 12). clearbody p. change (2 ^ 36) with 68719476736.
  destruct (decide (l = 1)) as [->|]; [change (512 ^ (1 - 1)) with 1; div_lia|].
  destruct (decide (l = 2)) as [->|]; [change (512 ^ (2 - 1)) with 512; div_lia|].
  destruct (decide (l = 3)) as [->|]; [change (512 ^ (3 - 1)) with 262144; div_lia|].
  assert (l = 4) as -> by lia. change (512 ^ (4 - 1)) with 134217728. div_lia.
Qed.

Lemma vpage_root v : pre 4 (vpage v) = 0.
Proof.
  unfold pre, vpage. apply Z.div_small. change (512 ^ 4) with (2 ^ 36). apply Z.mod_pos_bound. lia.
Qed.

Lemma entry_slot_addr (hhdm : Z) f v l :
  1 ≤ l ≤ 4 →
  f * PMM_FRAME_SIZE + hhdm + 8 * (v / 2 ^ (12 + 9 * (l - 1)) mod 512)
    = slot_addr hhdm f (pre (l - 1) (vpage v)).
Proof. intros Hl. unfold slot_addr. by rewrite pre_vpage, index_slot by lia. Qed.

(** A frame taken for a table that the memory [m2] has: what changes in the invariant. *)
Lemma table_added (K : Z * Z → Prop) σ U F root T PM l q f u (ub : bool) ps m m2 i :
  vm_inv σ U F root T PM → T !! (l, q / 512) = Some (f, u) → T !! (l - 1, q) = None →
  i ∈ F → pmm_rep ps m U (F ∖ {[i]}) → mods (bitmap_area (pmm σ)) (ram σ) m →
  bitmap_area ps = bitmap_area (pmm σ) → K (l - 1, q) →
  let T' := <[(l - 1, q) := (i, ub)]> T in
  space m2 (hhdm_offset σ) T' PM → mods (vm_area σ T') m m2 → (∀ x, bitmap_area (pmm σ) x → m2 !! x = m !! x) →
  let σ' := set_ram (set_pmm σ ps m) m2 in
  vm_inv σ' U (F ∖ {[i]}) root T' PM ∧ grown K σ F T ub σ' (F ∖ {[i]}) T'.
Proof.
  intros V HT Hnone Hi R Hm Hb HK T' Hsp Hm2 Hbits. subst T'.
  pose proof (vi_arena _ _ _ _ _ _ V) as [Hh Har]. destruct (Har i Hi) as (_ & _ & Hbm).
  assert (i ∈ U) as HiU by by apply (rep_sub _ _ _ _ (vi_pmm _ _ _ _ _ _ V)).
  split; [split; cbn|split; cbn; try done].
  - eapply (rep_mods (λ x, ¬ bitmap_area (pmm σ) x)); [exact R| |by rewrite Hb].
    split; [intros x; by rewrite (mods_dom _ _ _ Hm2)|]. intros x Hx. apply Hbits.
    destruct (decide (bitmap ps ≤ x < bitmap ps + bitmap_bytes ps)) as [Hin|Hin].
    { rewrite <- Hb. exact Hin. } exfalso. apply Hx. rewrite <- Hb. exact Hin.
  - split; [done|]. intros j Hj. destruct (Har j) as (? & ? & ?); [clear -Hj; set_solver|].
    split; [done|]. split; [|by rewrite Hb]. eapply mods_backed; [exact Hm2|]. by eapply mods_backed.
  - apply V.
  - rewrite lookup_insert_ne; [apply V|].
    intros [= ? ?]. pose proof (sp_key _ _ _ _ (vi_space _ _ _ _ _ _ V) _ _ _ HT). lia.
  - exact Hsp.
  - intros k f1 u1. rewrite Hb, lookup_insert_Some. intros [[<- [= <- <-]]|[_ Hk]].
    + split; [done|split; [clear; set_solver|done]].
    + destruct (vi_tables _ _ _ _ _ _ V _ _ _ Hk) as (? & ? & ?).
      split; [done|split; [|done]]. by intros [? _]%elem_of_difference.
  - by apply insert_subseteq.
  - clear. set_solver.
  - intros k f1 u1. rewrite lookup_insert_Some. intros [[<- [= <- <-]]|[_ Hk]]; [by right|by left].
  - rewrite map_size_insert_None by done. pose proof (size_remove F i Hi). lia.
  - intros f1 Hf1 Hn. exists (l - 1, q), ub. rewrite lookup_insert_eq. do 2 f_equal.
    destruct (decide (f1 = i)) as [->|]; [done|]. exfalso. apply Hn. clear -Hf1 n. set_solver.
  - eapply mods_trans; [|exact Hm2]. eapply mods_weaken; [exact Hm|]. by left.
Qed.

(** A fresh table: allocate, clear, link. *)
Lemma new_table_returns (K : Z * Z → Prop) σ U F root T PM l q f u (ub : bool) ps m i :
  vm_inv σ U F root T PM → T !! (l, q / 512) = Some (f, u) → 2 ≤ l → T !! (l - 1, q) = None →
  i ∈ F → pmm_rep ps m U (F ∖ {[i]}) → mods (bitmap_area (pmm σ)) (ram σ) m →
  bitmap_area ps = bitmap_area (pmm σ) → K (l - 1, q) →
  returns ('(m, _) ← memset m (table_at σ (i * PMM_FRAME_SIZE)) 0 PMM_FRAME_SIZE;
           m ← store64 m (slot_addr (hhdm_offset σ) f q) (table_entry i ub);
           Ok (set_ram (set_pmm σ ps m) m, table_at σ (i * PMM_FRAME_SIZE))) (λ '(σ', r),
    let T' := <[(l - 1, q) := (i, ub)]> T in
    r = i * PMM_FRAME_SIZE + hhdm_offset σ ∧
    vm_inv σ' U (F ∖ {[i]}) root T' PM ∧ grown K σ F T ub σ' (F ∖ {[i]}) T').
Proof.
  intros V HT Hl Hnone Hi R Hm Hb HK.
  pose proof (alloc_keeps _ _ _ _ _ _ _ _ _ V Hi R Hm Hb) as V1.
  pose proof (vi_arena _ _ _ _ _ _ V) as [Hh Har]. destruct (Har i Hi) as (Hhi & Hback & Hbm).
  assert (i ∈ U) as HiU by by apply (rep_sub _ _ _ _ (vi_pmm _ _ _ _ _ _ V)).
  pose proof (rep_range _ _ _ _ (vi_pmm _ _ _ _ _ _ V) i HiU) as [Hi0 _].
  pose proof (vi_phys _ _ _ _ _ _ V i HiU) as Hi40.
  assert (table_at σ (i * PMM_FRAME_SIZE) = i * PMM_FRAME_SIZE + hhdm_offset σ) as ->.
  { unfold table_at, PMM_FRAME_SIZE in *. apply u64_id. lia. }
  assert (∀ k u1, T !! k ≠ Some (i, u1)) as Hfresh.
  { intros k u1 Hk. by apply (vi_tables _ _ _ _ _ _ V) in Hk as (_ & ? & _). }
  ret_step memset_returns; [unfold PMM_FRAME_SIZE; lia|by eapply mods_backed|].
  intros [m1 r1] (-> & Hm1 & Hz). change (u8 0) with 0 in Hz.
  assert (space m1 (hhdm_offset σ) T PM) as Hsp1.
  { eapply space_mods; [apply V1|exact Hm1|]. intros k f1 u1 x Hk Hx. cbn.
    apply (frames_apart _ i f1); [|exact Hx]. intros ->. by eapply Hfresh. }
  pose proof (sp_slot _ _ _ _ Hsp1 _ _ _ _ HT) as Hslot.
  ret_step store64_returns; [by eapply load64_backed|unfold table_entry; destruct ub; lia|].
  intros m2 Hst. cbn. split; [done|].
  assert (mods (vm_area σ (<[(l - 1, q) := (i, ub)]> T)) m m2) as Hm2.
  { eapply mods_trans; (eapply mods_weaken; [first [exact Hm1|apply Hst]|]); intros x Hx; right.
    - exists (l - 1, q), i, ub. rewrite lookup_insert_eq. done.
    - exists (l, q / 512), f, u. rewrite lookup_insert_ne by (intros [= ? ?]; lia).
      split; [done|]. by eapply slot_in_frame. }
  assert (∀ x, bitmap_area (pmm σ) x → m2 !! x = m !! x) as Hbits.
  { intros x Hx. rewrite (mods_out _ _ _ (proj1 Hst)), (mods_out _ _ _ Hm1); [done|..].
    - intros Hr. by apply (Hbm x).
    - intros Hr. apply (vi_tables _ _ _ _ _ _ V _ _ _ HT) in Hx; [done|]. by eapply slot_in_frame. }
  apply (table_added K σ U F root T PM l q f u ub ps m m2 i); try done.
  eapply space_add; [exact Hsp1|exact HT|done|done|done|lia|done| | |exact Hst].
  - eapply mods_backed; [exact Hm1|]. by eapply mods_backed.
  - by apply zeroed_slots.
Qed.

(** What [next_level] finds or makes at entry [q] of table [(l, q / 512)]. *)
Lemma next_level_returns (K : Z * Z → Prop) σ U F root T PM l q f u (create ub : bool) :
  vm_inv σ U F root T PM → T !! (l, q / 512) = Some (f, u) → 2 ≤ l → K (l - 1, q) →
  returns (next_level σ (f * PMM_FRAME_SIZE + hhdm_offset σ) (q mod 512) create
             (if ub then PTE_USER else 0)) (λ '(σ', r), ∃ F' T',
    vm_inv σ' U F' root T' PM ∧ grown K σ F T ub σ' F' T' ∧
    (create = false → σ' = σ ∧ F' = F ∧ T' = T) ∧ (size F ≤ size F' + 1)%nat ∧
    ((r = 0 ∧ T' !! (l - 1, q) = None ∧ (create = true → F' = ∅ ∧ F = ∅)) ∨
     ∃ f' u', T' !! (l - 1, q) = Some (f', u') ∧ r = f' * PMM_FRAME_SIZE + hhdm_offset σ)).
Proof.
  intros V HT Hl HK. unfold next_level. fold (slot_addr (hhdm_offset σ) f q).
  rewrite (sp_slot _ _ _ _ (vi_space _ _ _ _ _ _ V) _ _ _ _ HT), bind_ok.
  unfold slot. rewrite decide_False by lia.
  destruct (T !! (l - 1, q)) as [[f' u']|] eqn:Hq.
  { rewrite table_entry_present. pose proof (table_at_ok _ _ _ _ _ _ _ _ _ V Hq) as [Hat _].
    destruct (sp_frame _ _ _ _ (vi_space _ _ _ _ _ _ V) _ _ _ Hq) as (Hf' & _).
    rewrite table_entry_addr, Hat by lia. exists F, T. split; [done|split; [apply grown_refl|split; [done|split; [lia|]]]].
    right. by exists f', u'. }
  change (has 0 PTE_PRESENT) with false. cbv iota.
  destruct create; cbn [negb]; cbv iota.
  2: { exists F, T. split; [done|split; [apply grown_refl|split; [done|split; [lia|by left]]]]. }
  ret_step pmm_alloc_frame_returns; [apply V|].
  intros [[ps m] phys] [(-> & -> & -> & ->)|(i & [Hi _] & -> & Hne & R & Hm & _ & Hb)].
  { cbn. exists ∅, T. split; [by destruct σ|]. split; [by destruct σ; apply grown_refl|].
    split; [done|]. split; [lia|]. by left. }
  destruct (Z.eqb_spec (i * PMM_FRAME_SIZE) 0) as [?|_]; [done|].
  assert (i ∈ U) as HiU by by apply (rep_sub _ _ _ _ (vi_pmm _ _ _ _ _ _ V)).
  rewrite table_entry_make
    by (pose proof (rep_range _ _ _ _ (vi_pmm _ _ _ _ _ _ V) i HiU); pose proof (vi_phys _ _ _ _ _ _ V i HiU); lia).
  eapply returns_mono; [by eapply (new_table_returns K σ)|].
  intros [σ' r] (-> & V' & G). exists (F ∖ {[i]}), (<[(l - 1, q) := (i, ub)]> T).
  split; [done|split; [done|split; [done|split; [|right]]]].
  { pose proof (size_remove F i Hi). lia. }
  exists i, ub. by rewrite lookup_insert_eq.
Qed.

(** The tables an address goes through below the root. *)
Definition path_key pg : Z * Z → Prop := λ '(l, q), 1 ≤ l ≤ 3 ∧ q = pre l pg.

(** An absent table at one level means absent ones below. *)
Lemma absent_below m hhdm T PM pg :
  space m hhdm T PM → T !! (3, pre 3 pg) = None ∨ T !! (2, pre 2 pg) = None → T !! (1, pg / 512) = None.
Proof.
  intros Hsp Hn. destruct (T !! (1, pg / 512)) as [t|] eqn:E1; [exfalso|done].
  destruct (sp_parent _ _ _ _ Hsp _ _ _ E1) as [t2 E2]; [lia|].
  destruct (sp_parent _ _ _ _ Hsp _ _ _ E2) as [t3 E3]; [lia|].
  replace (pg / 512 / 512) with (pre 2 pg) in E2, E3 by (unfold pre; rewrite Z.div_div by lia; done).
  change (2 - 1) with 1 in *. replace (pre 2 pg / 512) with (pre 3 pg) in E3 by (by rewrite <- (pre_step 3)).
  change (1 + 1) with 2 in E2. change (1 + 1 + 1) with 3 in E3. destruct Hn; congruence.
Qed.

(** The three steps. *)
Lemma walk_returns σ U F root T PM v (create ub : bool) :
  vm_inv σ U F root T PM →
  returns (walk_to_pt σ (root * PMM_FRAME_SIZE) v create (if ub then PTE_USER else 0)) (λ '(σ', r), ∃ F' T',
    vm_inv σ' U F' root T' PM ∧ grown (path_key (vpage v)) σ F T ub σ' F' T' ∧
    (create = false → σ' = σ ∧ F' = F ∧ T' = T) ∧
    ((r = 0 ∧ T' !! (1, vpage v / 512) = None ∧ (create = true → F' = ∅ ∧ (size F ≤ 2)%nat)) ∨
     ∃ f u, T' !! (1, vpage v / 512) = Some (f, u) ∧ r ≠ 0 ∧ r = f * PMM_FRAME_SIZE + hhdm_offset σ)).
Proof.
  intros V. unfold walk_to_pt. set (pg := vpage v).
  assert (∀ l, 1 ≤ l ≤ 4 → v / 2 ^ (12 + 9 * (l - 1)) mod 512 = pre (l - 1) pg mod 512) as Hidx.
  { intros l Hl. unfold pg. by rewrite pre_vpage, index_slot by lia. }
  unfold pml4_index, pdpt_index, pd_index. rewrite !index_eq by lia.
  change 39 with (12 + 9 * (4 - 1)). change 30 with (12 + 9 * (3 - 1)). change 21 with (12 + 9 * (2 - 1)).
  rewrite !Hidx by lia.
  assert (∀ l, 1 ≤ l → pre (l - 1) pg / 512 = pre l pg) as Hpre by (intros; by apply pre_step).
  pose proof (vi_root _ _ _ _ _ _ V) as H4. rewrite <- (vpage_root v), <- Hpre in H4 by lia.
  rewrite (proj1 (table_at_ok _ _ _ _ _ _ _ _ _ V H4)).
  ret_step (next_level_returns (path_key pg)); [exact V|exact H4|lia|by cbn|].
  intros [σ1 r1] (F1 & T1 & V1 & G1 & Hc1 & Hs1 & [(-> & Hn1 & Ho1)|(f1 & u1 & H3 & ->)]).
  { change (0 =? 0) with true. cbv iota. exists F1, T1. split; [done|split; [done|split; [done|left]]].
    split; [done|split; [eapply absent_below; [exact (vi_space _ _ _ _ _ _ V1)|by left]|]].
    intros Hc. destruct (Ho1 Hc) as [? ->]. split; [done|]. rewrite size_empty. lia. }
  pose proof (proj2 (table_at_ok _ _ _ _ _ _ _ _ _ V1 H3)) as Hpos1. rewrite (gr_hhdm _ _ _ _ _ _ _ _ G1) in Hpos1.
  destruct (Z.eqb_spec (f1 * PMM_FRAME_SIZE + hhdm_offset σ) 0) as [?|_]; [lia|].
  change (4 - 1) with 3 in H3. rewrite <- Hpre in H3 by lia. rewrite <- (gr_hhdm _ _ _ _ _ _ _ _ G1).
  ret_step (next_level_returns (path_key pg)); [exact V1|exact H3|lia|by cbn|].
  intros [σ2 r2] (F2 & T2 & V2 & G2 & Hc2 & Hs2 & Hr2). pose proof (grown_trans _ _ _ _ _ _ _ _ _ _ _ G1 G2) as G12.
  assert (create = false → σ2 = σ ∧ F2 = F ∧ T2 = T) as Hc12 by naive_solver.
  destruct Hr2 as [(-> & Hn2 & Ho2)|(f2 & u2 & H2 & ->)].
  { change (0 =? 0) with true. cbv iota. exists F2, T2. split; [done|split; [done|split; [done|left]]].
    split; [done|split; [eapply absent_below; [exact (vi_space _ _ _ _ _ _ V2)|by right]|]].
    intros Hc. destruct (Ho2 Hc) as [? ->]. split; [done|]. rewrite size_empty in Hs1. lia. }
  pose proof (proj2 (table_at_ok _ _ _ _ _ _ _ _ _ V2 H2)) as Hpos2. rewrite (gr_hhdm _ _ _ _ _ _ _ _ G2) in Hpos2.
  destruct (Z.eqb_spec (f2 * PMM_FRAME_SIZE + hhdm_offset σ1) 0) as [?|_]; [lia|].
  change (3 - 1) with 2 in H2. rewrite <- Hpre in H2 by lia. rewrite <- (gr_hhdm _ _ _ _ _ _ _ _ G2).
  eapply returns_mono; [eapply (next_level_returns (path_key pg)); [exact V2|exact H2|lia|by cbn]|].
  intros [σ3 r3] (F3 & T3 & V3 & G3 & Hc3 & Hs3 & Hr3). pose proof (grown_trans _ _ _ _ _ _ _ _ _ _ _ G12 G3) as G13.
  exists F3, T3. split; [done|split; [done|split; [naive_solver|]]].
  change (2 - 1) with 1 in Hr3. replace (pre 1 pg) with (pg / 512) in Hr3 by (unfold pre; done).
  destruct Hr3 as [(-> & Hn3 & Ho3)|(f3 & u3 & Hf3 & ->)]; [left|right].
  { split; [done|split; [done|]]. intros Hc. destruct (Ho3 Hc) as [? ->]. split; [done|].
    rewrite size_empty in Hs2. lia. } exists f3, u3. split; [done|].
  pose proof (proj2 (table_at_ok _ _ _ _ _ _ _ _ _ V3 Hf3)) as Hpos3.
  rewrite (gr_hhdm _ _ _ _ _ _ _ _ G3) in Hpos3. split; [lia|]. by rewrite (gr_hhdm _ _ _ _ _ _ _ _ G12).
Qed.

(** ** The operations *)

Lemma pt_slot_addr σ f v :
  f * PMM_FRAME_SIZE + hhdm_offset σ + 8 * pt_index v = slot_addr (hhdm_offset σ) f (vpage v).
Proof.
  unfold pt_index. rewrite index_eq by lia. change 12 with (12 + 9 * (1 - 1)).
  rewrite entry_slot_addr by lia. unfold pre. change (512 ^ (1 - 1)) with 1. by rewrite Z.div_1_r.
Qed.

Lemma vm_inv_cpu σ U F root T PM c : vm_inv σ U F root T PM → vm_inv (set_cpu σ c) U F root T PM.
Proof. intros V. destruct V. by split. Qed.

(** Storing a leaf entry keeps the invariant. *)
Lemma store_leaf_returns σ U F root T PM PM' pg f u w :
  vm_inv σ U F root T PM → T !! (1, pg / 512) = Some (f, u) →
  0 ≤ w < 2 ^ 64 → w = default 0 (PM' !! pg) → (∀ p, p ≠ pg → PM' !! p = PM !! p) →
  (∀ e, PM' !! pg = Some e → has e PTE_PRESENT = true) →
  returns (store64 (ram σ) (slot_addr (hhdm_offset σ) f pg) w) (λ m,
    vm_inv (set_ram σ m) U F root T PM' ∧ mods (vm_area σ T) (ram σ) m).
Proof.
  intros V HT Hw Heq Hoth Hpres. pose proof (vi_space _ _ _ _ _ _ V) as Hsp.
  eapply returns_mono; [apply store64_returns; [eapply load64_backed, sp_slot; [exact Hsp|exact HT]|done]|].
  intros m Hst. pose proof Hst as [Hm _].
  assert (∀ x, range (slot_addr (hhdm_offset σ) f pg) 8 x → ¬ bitmap_area (pmm σ) x) as Hap.
  { intros x Hx%slot_in_frame. by apply (vi_tables _ _ _ _ _ _ V _ _ _ HT). }
  split.
  - destruct V as [R [Hh Har] Hp Hr _ Ht]. split; cbn; try done.
    + eapply rep_mods; [exact R|exact Hm|exact Hap].
    + split; [done|]. intros j Hj. destruct (Har j Hj) as (? & ? & ?).
      split; [done|split; [|done]]. by eapply mods_backed.
    + rewrite Heq in Hst. eapply space_set_leaf; [exact Hsp|exact HT|exact Hst|exact Hoth|].
      intros e He. split; [|by apply Hpres]. rewrite He in Heq. by subst.
  - eapply mods_weaken; [exact Hm|]. intros x Hx%slot_in_frame. right. by exists (1, pg / 512), f, u.
Qed.

(** What translation comes to in the abstract view. *)
Definition xlate PM v : option Z :=
  (λ e, Z.lor (Z.land e PTE_ADDR_MASK) (Z.land v 0xfff)) <$> PM !! vpage v.

Lemma paging_translate_returns σ U F root T PM v :
  vm_inv σ U F root T PM → paging_translate σ (root * PMM_FRAME_SIZE) v = Ok (σ, xlate PM v).
Proof.
  intros V. pose proof (vi_space _ _ _ _ _ _ V) as Hsp. unfold paging_translate, xlate.
  destruct (returns_inv _ _ (walk_returns _ _ _ _ _ _ v false false V))
    as ([σ' pt] & Hrun & F' & T' & _ & _ & Hc & Hr). rewrite Hrun, bind_ok.
  destruct (Hc ltac:(done)) as (-> & -> & ->).
  destruct Hr as [(-> & Hnone & _)|(f & u & HT & Hne & ->)].
  - change (0 =? 0) with true. cbv iota. destruct (PM !! vpage v) eqn:He; [exfalso|done].
    destruct (sp_map _ _ _ _ Hsp _ _ He) as (_ & _ & [t Ht]). congruence.
  - destruct (Z.eqb_spec (f * PMM_FRAME_SIZE + hhdm_offset σ) 0) as [?|_]; [done|].
    rewrite pt_slot_addr, (sp_slot _ _ _ _ Hsp _ _ _ _ HT), bind_ok. unfold slot. rewrite decide_True by done.
    destruct (PM !! vpage v) as [e|] eqn:He; [|done].
    destruct (sp_map _ _ _ _ Hsp _ _ He) as (_ & Hpres & _). cbn. by rewrite Hpres.
Qed.

Lemma leaf_pte_range phys flags : 0 ≤ leaf_pte phys flags < 2 ^ 64.
Proof.
  rewrite leaf_pte_eq. pose proof (Z.mod_pos_bound (phys / 2 ^ 12) (2 ^ 40) ltac:(lia)).
  destruct (has flags VM_WRITE), (has flags VM_USER); lia.
Qed.

Lemma leaf_pte_present phys flags : has (leaf_pte phys flags) PTE_PRESENT = true.
Proof.
  unfold PTE_PRESENT. rewrite has_testbit, leaf_pte_eq, low_bit_add by lia.
  by destruct (has flags VM_WRITE), (has flags VM_USER).
Qed.

(** Only the TLB's entry for [v] may have gone. *)
Definition flushed (c : cpu) v (c' : cpu) : Prop :=
  c' = {| cr3 := cr3 c; rsp := rsp c; tlb := base.delete (vpage v) (tlb c) |}.

Lemma paging_map_returns σ U F root T PM v phys flags :
  vm_inv σ U F root T PM →
  returns (paging_map σ (root * PMM_FRAME_SIZE) v phys flags) (λ '(σ', b), ∃ F' T',
    ∃ σ1, grown (path_key (vpage v)) σ F T (has flags VM_USER) σ1 F' T' ∧
    hhdm_offset σ' = hhdm_offset σ ∧ bitmap_area (pmm σ') = bitmap_area (pmm σ) ∧
    mods (vm_area σ T') (ram σ) (ram σ') ∧
    ((b = false ∧ σ' = σ1 ∧ vm_inv σ' U F' root T' PM ∧ (size F ≤ 2)%nat ∧ F' = ∅ ∧ T' !! (1, vpage v / 512) = None) ∨
     (b = true ∧ flushed (vcpu σ) v (vcpu σ') ∧ is_Some (T' !! (1, vpage v / 512)) ∧
       vm_inv σ' U F' root T' (<[vpage v := leaf_pte phys flags]> PM)))).
Proof.
  intros V. unfold paging_map.
  ret_step (walk_returns σ U F root T PM v true (has flags VM_USER)); [done|].
  intros [σ1 pt] (F' & T' & V1 & G & _ & Hr). pose proof G as [Hh Hb Hcpu _ _ _ _ _ Hm].
  destruct Hr as [(-> & Hnone & Ho)|(f & u & HT & Hne & ->)].
  { cbn. exists F', T', σ1. do 4 (split; [done|]). left. by destruct (Ho ltac:(done)) as [-> ?]. }
  destruct (Z.eqb_spec (f * PMM_FRAME_SIZE + hhdm_offset σ) 0) as [?|_]; [done|].
  rewrite <- Hh, pt_slot_addr.
  ret_step (store_leaf_returns σ1 U F' root T' PM (<[vpage v := leaf_pte phys flags]> PM)).
  - exact V1.
  - exact HT.
  - apply leaf_pte_range.
  - by rewrite lookup_insert_eq.
  - intros p Hp. by rewrite lookup_insert_ne.
  - intros e. rewrite lookup_insert_eq. intros [= <-]. apply leaf_pte_present.
  - intros m [V2 Hm2]. exists F', T', σ1. split; [done|]. split; [done|split; [done|]]. split.
    { eapply mods_trans; [exact Hm|]. eapply mods_weaken; [exact Hm2|]. intros x.
      apply vm_area_mono; [congruence..|done]. }
    right. split; [done|]. split; [unfold flushed; cbn; by rewrite Hcpu|]. split; [by rewrite HT|].
    by apply vm_inv_cpu.
Qed.

Lemma paging_unmap_returns σ U F root T PM v :
  vm_inv σ U F root T PM →
  returns (paging_unmap σ (root * PMM_FRAME_SIZE) v) (λ '(σ', b),
    b = bool_decide (is_Some (PM !! vpage v)) ∧
    vm_inv σ' U F root T (base.delete (vpage v) PM) ∧ pmm σ' = pmm σ ∧ hhdm_offset σ' = hhdm_offset σ ∧
    mods (vm_area σ T) (ram σ) (ram σ') ∧
    if b then flushed (vcpu σ) v (vcpu σ') else σ' = σ).
Proof.
  intros V. pose proof (vi_space _ _ _ _ _ _ V) as Hsp. unfold paging_unmap.
  ret_step (walk_returns σ U F root T PM v false false); [done|].
  intros [σ' pt] (F' & T' & _ & _ & Hc & Hr). destruct (Hc ltac:(done)) as (-> & -> & ->).
  assert (∀ E : PM !! vpage v = None, false = bool_decide (is_Some (PM !! vpage v)) ∧
    vm_inv σ U F root T (base.delete (vpage v) PM) ∧ pmm σ = pmm σ ∧ hhdm_offset σ = hhdm_offset σ ∧
    mods (vm_area σ T) (ram σ) (ram σ) ∧ σ = σ) as Hno.
  { intros E. rewrite E, delete_id by done. by rewrite bool_decide_false by (by intros []). }
  destruct Hr as [(-> & Hnone & _)|(f & u & HT & Hne & ->)].
  { change (0 =? 0) with true. apply Hno. destruct (PM !! vpage v) eqn:He; [exfalso|done].
    destruct (sp_map _ _ _ _ Hsp _ _ He) as (_ & _ & [t Ht]). congruence. }
  destruct (Z.eqb_spec (f * PMM_FRAME_SIZE + hhdm_offset σ) 0) as [?|_]; [done|].
  cbv zeta. rewrite pt_slot_addr, (sp_slot _ _ _ _ Hsp _ _ _ _ HT), bind_ok.
  unfold slot. rewrite decide_True by done.
  destruct (PM !! vpage v) as [e|] eqn:He; [|by apply Hno].
  destruct (sp_map _ _ _ _ Hsp _ _ He) as (_ & Hpres & _). change (default 0 (Some e)) with e. rewrite Hpres. cbn [negb]; cbv iota.
  ret_step (store_leaf_returns σ U F root T PM (base.delete (vpage v) PM)).
  - exact V.
  - exact HT.
  - lia.
  - by rewrite lookup_delete_eq.
  - intros p Hp. by rewrite lookup_delete_ne.
  - intros e'. by rewrite lookup_delete_eq.
  - intros m [V2 Hm2]. split; [by rewrite bool_decide_true by eauto|]. split; [by apply vm_inv_cpu|]. done.
Qed.

(** ** The processor's side *)

(** The tables above page [pg], below the one of level [l], all have the user bit. *)
Fixpoint path_user T pg (l : nat) : bool :=
  match l with
  | S (S _ as l) =>
      match T !! (Z.of_nat l, pre (Z.of_nat l) pg) with
      | Some (_, u) => u && path_user T pg l
      | None => false
      end
  | _ => true
  end.

(** Write and user rights, or write alone. *)
Definition rights (b : bool) : Z := if b then Z.lor PTE_WRITE PTE_USER else PTE_WRITE.

(** A leaf entry as the processor sees it, [b] telling if the path has the user bit. *)
Definition cached (b : bool) e : Z * Z := (Z.land e PTE_ADDR_MASK, Z.land (rights b) e).

Lemma rights_table_entry (b : bool) f (u : bool) :
  Z.land (rights b) (table_entry f u) = rights (b && u).
Proof.
  assert (∀ c, rights c = Z.land (rights c) (Z.ones 3)) as Hr by by intros [].
  rewrite (Hr b), <- Z.land_assoc, (Z.land_comm (Z.ones 3)), Z.land_ones by lia.
  unfold table_entry. change (2 ^ 12) with (2 ^ 9 * 2 ^ 3).
  rewrite Z.mul_assoc, Z.add_comm, Z_mod_plus_full. by destruct b, u.
Qed.

Lemma mmu_walk_eq σ U F root T PM v (l : nat) f (u b : bool) :
  vm_inv σ U F root T PM → (1 ≤ l)%nat → T !! (Z.of_nat l, pre (Z.of_nat l) (vpage v)) = Some (f, u) →
  mmu_walk (ram σ) (hhdm_offset σ) l (f * PMM_FRAME_SIZE) v (rights b) =
    Ok (cached (b && path_user T (vpage v) l) <$> PM !! vpage v).
Proof.
  intros V. pose proof (vi_space _ _ _ _ _ _ V) as Hsp.
  revert f u b. induction l as [|l IH]; intros f u b Hl HT; [lia|].
  pose proof (sp_key _ _ _ _ Hsp _ _ _ HT) as Hk.
  rewrite <- pre_step in HT by lia. unfold mmu_walk; fold mmu_walk.
  replace (Z.of_nat l) with (Z.of_nat (S l) - 1) by lia. rewrite entry_slot_addr by lia.
  rewrite (sp_slot _ _ _ _ Hsp _ _ _ _ HT), bind_ok. unfold slot.
  destruct l as [|l].
  - rewrite decide_True by lia. change (Z.of_nat 1 - 1) with 0. unfold pre.
    change (512 ^ 0) with 1. rewrite Z.div_1_r.
    destruct (PM !! vpage v) as [e|] eqn:He; [|done]. change (default 0 (Some e)) with e.
    destruct (sp_map _ _ _ _ Hsp _ _ He) as (_ & Hpres & _).
    unfold PTE_PRESENT in Hpres. rewrite has_testbit in Hpres by lia. rewrite Hpres. cbn [negb].
    cbn [mmu_walk fmap option_fmap option_map]. unfold cached. by rewrite land_addr_mask, andb_true_r.
  - rewrite decide_False by lia. replace (Z.of_nat (S (S l)) - 1) with (Z.of_nat (S l)) by lia.
    cbn [path_user]. set (k := (Z.of_nat (S l), pre (Z.of_nat (S l)) (vpage v))).
    destruct (T !! k) as [[f' u']|] eqn:Hk'.
    + pose proof (table_entry_present f' u') as Hpres. unfold PTE_PRESENT in Hpres.
      rewrite has_testbit in Hpres by lia. rewrite Hpres. cbn [negb]. cbv iota.
      destruct (sp_frame _ _ _ _ Hsp _ _ _ Hk') as (Hf' & _).
      rewrite <- land_addr_mask, table_entry_addr, rights_table_entry by lia.
      rewrite (IH f' u'); [by rewrite andb_assoc|lia|exact Hk'].
    + cbn. destruct (PM !! vpage v) as [e|] eqn:He; [exfalso|done].
      destruct (sp_map _ _ _ _ Hsp _ _ He) as (_ & _ & [t1 H1]).
      assert (∀ j : nat, (j ≤ 2)%nat → is_Some (T !! (1 + Z.of_nat j, pre (1 + Z.of_nat j) (vpage v)))) as Hup.
      { induction j as [|j IHj]; intros Hj; [by exists t1|]. destruct (IHj ltac:(lia)) as [t Ht].
        destruct (sp_parent _ _ _ _ Hsp _ _ _ Ht) as [t' Ht']; [lia|]. exists t'. rewrite <- Ht'.
        replace (1 + Z.of_nat j) with (1 + Z.of_nat (S j) - 1) at 2 by lia.
        rewrite pre_step by lia. do 2 f_equal. lia. }
      destruct (Hup l) as [t Ht]; [lia|]. unfold k in Hk'.
      replace (Z.of_nat (S l)) with (1 + Z.of_nat l) in Hk' by lia. congruence.
Qed.

Lemma mmu_eq σ U F root T PM v :
  vm_inv σ U F root T PM → cr3 (vcpu σ) = root * PMM_FRAME_SIZE →
  mmu σ v = Ok (cached (path_user T (vpage v) 4) <$> PM !! vpage v).
Proof.
  intros V Hcr3. unfold mmu. rewrite Hcr3. change (Z.lor PTE_WRITE PTE_USER) with (rights true).
  rewrite (mmu_walk_eq σ U F root T PM v 4 root true true V); [done|lia|].
  change (Z.of_nat 4) with 4. rewrite vpage_root. apply V.
Qed.

(** The user bits on the way to a mapped page do not change as tables are added. *)
Lemma path_user_grown σ U F root T T' PM pg e :
  vm_inv σ U F root T PM → T ⊆ T' → PM !! pg = Some e → path_user T' pg 4 = path_user T pg 4.
Proof.
  intros V Hsub He. pose proof (vi_space _ _ _ _ _ _ V) as Hsp.
  destruct (sp_map _ _ _ _ Hsp _ _ He) as (_ & _ & [[f1 u1] H1]).
  destruct (sp_parent _ _ _ _ Hsp _ _ _ H1) as [[f2 u2] H2]; [lia|].
  destruct (sp_parent _ _ _ _ Hsp _ _ _ H2) as [[f3 u3] H3]; [lia|].
  rewrite !Z.div_div in H3 by lia. rewrite Z.div_div in H2 by lia.
  change (pg / 512) with (pre 1 pg) in H1. change (pg / (512 * 512)) with (pre 2 pg) in H2.
  change (pg / (512 * (512 * 512))) with (pre 3 pg) in H3.
  change (1 + 1) with 2 in *. change (2 + 1) with 3 in *. cbn [path_user].
  change (Z.of_nat 3) with 3. change (Z.of_nat 2) with 2. change (Z.of_nat 1) with 1.
  rewrite H1, H2, H3. by rewrite !(lookup_weaken _ _ _ _ H1 Hsub), (lookup_weaken _ _ _ _ H2 Hsub),
    (lookup_weaken _ _ _ _ H3 Hsub).
Qed.

(** ** A machine running on its tables *)

(** Every cached translation is the one the tables give. *)
Definition tlb_ok (c : cpu) T PM : Prop := ∀ pg x, tlb c !! pg = Some x →
  cached (path_user T pg 4) <$> PM !! pg = Some x.

(** The machine, and the frames handed out to others than the paging layer. *)
Record vm_world := { vw_vm : vm_state; vw_held : list Z }.

(** The kernel maps and unmaps pages of the live space, the processor caches
    translations, frames are allocated, freed, and written by their holders. *)
Inductive vm_step : vm_world → vm_world → Prop :=
  | vs_map σ σ' held v phys flags (b : bool) :
      paging_map σ (cr3 (vcpu σ)) v phys flags = Ok (σ', b) →
      vm_step {| vw_vm := σ; vw_held := held |} {| vw_vm := σ'; vw_held := held |}
  | vs_unmap σ σ' held v (b : bool) :
      paging_unmap σ (cr3 (vcpu σ)) v = Ok (σ', b) →
      vm_step {| vw_vm := σ; vw_held := held |} {| vw_vm := σ'; vw_held := held |}
  | vs_fill σ held v x :
      mmu σ v = Ok (Some x) →
      vm_step {| vw_vm := σ; vw_held := held |}
        {| vw_vm := set_cpu σ {| cr3 := cr3 (vcpu σ); rsp := rsp (vcpu σ);
                                 tlb := <[vpage v := x]> (tlb (vcpu σ)) |}; vw_held := held |}
  | vs_alloc σ held ps m phys :
      pmm_alloc_frame (pmm σ) (ram σ) = Ok (ps, m, phys) → phys ≠ 0 →
      vm_step {| vw_vm := σ; vw_held := held |} {| vw_vm := set_pmm σ ps m; vw_held := phys :: held |}
  | vs_free σ before phys after ps m :
      pmm_free_frame (pmm σ) (ram σ) phys = Ok (ps, m) →
      vm_step {| vw_vm := σ; vw_held := before ++ phys :: after |}
        {| vw_vm := set_pmm σ ps m; vw_held := before ++ after |}
  | vs_write σ held P m :
      mods P (ram σ) m →
      (∀ x, P x → ∃ phys, phys ∈ held ∧ range (phys + hhdm_offset σ) PMM_FRAME_SIZE x) →
      vm_step {| vw_vm := σ; vw_held := held |} {| vw_vm := set_ram σ m; vw_held := held |}.

(** A frame someone else holds. *)
Record held_ok σ U F T f : Prop := {
  ho_used : f ∈ U ∧ ¬ (f ∈ F);
  ho_high : (f + 1) * PMM_FRAME_SIZE + hhdm_offset σ ≤ 2 ^ 64;
  ho_backed : backed (ram σ) (f * PMM_FRAME_SIZE + hhdm_offset σ) PMM_FRAME_SIZE;
  ho_bitmap : ∀ x, frame_mem (hhdm_offset σ) f x → ¬ bitmap_area (pmm σ) x;
  ho_table : ∀ k u, T !! k ≠ Some (f, u);
}.

Definition vm_world_inv U root (w : vm_world) : Prop := ∃ F T PM (fs : list Z),
  vm_inv (vw_vm w) U F root T PM ∧ cr3 (vcpu (vw_vm w)) = root * PMM_FRAME_SIZE ∧
  tlb_ok (vcpu (vw_vm w)) T PM ∧ vw_held w = (λ f, f * PMM_FRAME_SIZE) <$> fs ∧ NoDup fs ∧
  ∀ f, f ∈ fs → held_ok (vw_vm w) U F T f.

(** A held frame stays one while only tables and the bitmap are written. *)
Lemma held_keep σ σ' U F F' T T' P f :
  held_ok σ U F T f → hhdm_offset σ' = hhdm_offset σ → bitmap_area (pmm σ') = bitmap_area (pmm σ) →
  mods P (ram σ) (ram σ') → ¬ (f ∈ F') → (∀ k u, T' !! k ≠ Some (f, u)) → held_ok σ' U F' T' f.
Proof.
  intros [[? ?] Hhi Hb Hbm Ht] Hh Ha Hm HF HT. split; rewrite ?Hh, ?Ha; try done.
  by eapply mods_backed.
Qed.

Lemma held_grown K σ σ1 σ' U F F' T T' ub P f :
  held_ok σ U F T f → grown K σ F T ub σ1 F' T' → hhdm_offset σ' = hhdm_offset σ →
  bitmap_area (pmm σ') = bitmap_area (pmm σ) → mods P (ram σ) (ram σ') → held_ok σ' U F' T' f.
Proof.
  intros Ho G Hh Hb Hm. eapply held_keep; [exact Ho|exact Hh|exact Hb|exact Hm| |].
  - intros Hf. by apply (gr_free _ _ _ _ _ _ _ _ G), (ho_used _ _ _ _ _ Ho) in Hf.
  - intros k u HT. apply (gr_new _ _ _ _ _ _ _ _ G) in HT as [HT|(_ & Hf & _)].
    + by apply (ho_table _ _ _ _ _ Ho) in HT.
    + by apply (ho_used _ _ _ _ _ Ho) in Hf.
Qed.

Lemma flushed_tlb c v c' T PM T' PM' :
  tlb_ok c T PM → flushed c v c' →
  (∀ pg e, pg ≠ vpage v → PM !! pg = Some e → PM' !! pg = Some e ∧ path_user T' pg 4 = path_user T pg 4) →
  tlb_ok c' T' PM'.
Proof.
  intros Ht -> Hpm pg x. cbn [tlb]. rewrite lookup_delete_Some. intros [Hne Hx]. apply Ht in Hx.
  destruct (PM !! pg) as [e|] eqn:He; [|done]. destruct (Hpm pg e) as [-> ->]; done.
Qed.

Lemma pmm_free_frame_area ps m phys ps' m' :
  pmm_free_frame ps m phys = Ok (ps', m') → bitmap_area ps' = bitmap_area ps.
Proof.
  unfold pmm_free_frame. destruct (bit_test _ _ _) as [[]| | |]; cbn; try done; [|by intros [= <- <-]].
  destruct (bit_clear _ _ _); cbn; try done. by intros [= <- <-].
Qed.

(** Putting a frame back keeps the invariant. *)
Lemma free_keeps σ U F root T PM ps m f :
  vm_inv σ U F root T PM → held_ok σ U F T f →
  pmm_rep ps m U ({[f]} ∪ F) → mods (bitmap_area (pmm σ)) (ram σ) m →
  bitmap_area ps = bitmap_area (pmm σ) → vm_inv (set_pmm σ ps m) U ({[f]} ∪ F) root T PM.
Proof.
  intros V Ho R Hm Hb. destruct Ho as [[HfU _] Hhi Hback Hbm Hno].
  destruct V as [R0 [Hh Har] Hp Hr Hs Ht]. split; cbn; try done.
  - split; [done|]. intros j [->%elem_of_singleton|Hj]%elem_of_union.
    + split; [done|]. split; [by eapply mods_backed|by rewrite Hb].
    + destruct (Har j Hj) as (? & ? & ?). split; [done|]. split; [by eapply mods_backed|by rewrite Hb].
  - eapply space_mods; [exact Hs|exact Hm|]. intros k f1 u x HT Hx Hfx. by apply (Ht _ _ _ HT) in Hfx.
  - intros k f1 u HT. destruct (Ht k f1 u HT) as (? & ? & ?). rewrite Hb.
    split; [done|split; [|done]]. intros [->%elem_of_singleton|?]%elem_of_union; [|done]. by eapply Hno.
Qed.

Lemma vm_inv_write σ U F root T PM P m :
  vm_inv σ U F root T PM → mods P (ram σ) m →
  (∀ x, P x → ¬ bitmap_area (pmm σ) x ∧ ∀ k f u, T !! k = Some (f, u) → ¬ frame_mem (hhdm_offset σ) f x) →
  vm_inv (set_ram σ m) U F root T PM.
Proof.
  intros [R0 [Hh Har] Hp Hr Hs Ht] Hm HP. split; cbn; try done.
  - eapply rep_mods; [exact R0|exact Hm|]. intros x Hx. by apply HP.
  - split; [done|]. intros j Hj. destruct (Har j Hj) as (? & ? & ?).
    split; [done|split; [|done]]. by eapply mods_backed.
  - eapply space_mods; [exact Hs|exact Hm|]. intros k f u x HT Hx. by eapply HP.
Qed.

Lemma frame_addr_inj (fs : list Z) f :
  f * PMM_FRAME_SIZE ∈ (λ f, f * PMM_FRAME_SIZE) <$> fs → f ∈ fs.
Proof. intros (g & Heq & Hg)%list_elem_of_fmap. unfold PMM_FRAME_SIZE in Heq. by replace f with g by lia. Qed.

Lemma vm_step_map U root σ σ' held v phys flags (b : bool) :
  vm_world_inv U root {| vw_vm := σ; vw_held := held |} →
  paging_map σ (cr3 (vcpu σ)) v phys flags = Ok (σ', b) →
  vm_world_inv U root {| vw_vm := σ'; vw_held := held |}.
Proof.
  intros (F & T & PM & fs & V & Hcr3 & Ht & Hheld & Hnd & Hok) Hrun. cbn [vw_vm vw_held] in *.
  rewrite Hcr3 in Hrun. pose proof (paging_map_returns _ _ _ _ _ _ v phys flags V) as Hs.
  rewrite Hrun in Hs. destruct Hs as (F' & T' & σ1 & G & Hh & Hb & Hm & Hs).
  assert (∀ f, f ∈ fs → held_ok σ' U F' T' f) as Hok'.
  { intros f Hf. eapply held_grown; [by apply Hok|exact G|done|done|exact Hm]. }
  assert (∀ pg e, PM !! pg = Some e → path_user T' pg 4 = path_user T pg 4) as Hpath.
  { intros pg e He. eapply path_user_grown; [exact V|apply G|exact He]. }
  destruct Hs as [(_ & -> & V' & _)|(_ & Hfl & _ & V')].
  - exists F', T', PM, fs. split; [exact V'|]. cbn [vw_vm vw_held]. rewrite (gr_cpu _ _ _ _ _ _ _ _ G).
    do 1 (split; [done|]). split; [|done]. intros pg x Hx%Ht.
    destruct (PM !! pg) as [e|] eqn:He; [|done]. by rewrite (Hpath _ _ He).
  - exists F', T', (<[vpage v := leaf_pte phys flags]> PM), fs. split; [exact V'|]. cbn [vw_vm vw_held].
    split; [by rewrite Hfl|]. split; [|done]. eapply flushed_tlb; [exact Ht|exact Hfl|].
    intros pg e Hne He. rewrite lookup_insert_ne by done. split; [done|by eapply Hpath].
Qed.

Lemma vm_step_unmap U root σ σ' held v (b : bool) :
  vm_world_inv U root {| vw_vm := σ; vw_held := held |} →
  paging_unmap σ (cr3 (vcpu σ)) v = Ok (σ', b) →
  vm_world_inv U root {| vw_vm := σ'; vw_held := held |}.
Proof.
  intros (F & T & PM & fs & V & Hcr3 & Ht & Hheld & Hnd & Hok) Hrun. cbn [vw_vm vw_held] in *.
  rewrite Hcr3 in Hrun. pose proof (paging_unmap_returns _ _ _ _ _ _ v V) as Hs.
  rewrite Hrun in Hs. destruct Hs as (-> & V' & Hp & Hh & Hm & Hfl).
  assert (∀ f, f ∈ fs → held_ok σ' U F T f) as Hok'.
  { intros f Hf. pose proof (Hok f Hf) as Ho. eapply held_keep; [exact Ho|done|by rewrite Hp|exact Hm|apply Ho|apply Ho]. }
  exists F, T, (base.delete (vpage v) PM), fs. split; [exact V'|]. cbn [vw_vm vw_held].
  case_bool_decide as Hmapped.
  - split; [by rewrite Hfl|]. split; [|done]. eapply flushed_tlb; [exact Ht|exact Hfl|].
    intros pg e Hne He. by rewrite lookup_delete_ne.
  - subst σ'. split; [done|]. split; [|done]. rewrite delete_id; [done|].
    destruct (PM !! vpage v) eqn:E; [|done]. exfalso. by apply Hmapped.
Qed.

Lemma vm_step_alloc U root σ held ps m phys :
  vm_world_inv U root {| vw_vm := σ; vw_held := held |} →
  pmm_alloc_frame (pmm σ) (ram σ) = Ok (ps, m, phys) → phys ≠ 0 →
  vm_world_inv U root {| vw_vm := set_pmm σ ps m; vw_held := phys :: held |}.
Proof.
  intros (F & T & PM & fs & V & Hcr3 & Ht & Hheld & Hnd & Hok) Hrun Hne. cbn [vw_vm vw_held] in *. subst held.
  pose proof (pmm_alloc_frame_returns _ _ _ _ (vi_pmm _ _ _ _ _ _ V)) as Hs. rewrite Hrun in Hs.
  destruct Hs as [(_ & -> & _)|(i & [Hi _] & -> & _ & R & Hm & _ & Hb)]; [done|].
  pose proof (alloc_keeps _ _ _ _ _ _ _ _ _ V Hi R Hm Hb) as V'.
  destruct (ar_frames _ _ _ _ (vi_arena _ _ _ _ _ _ V) i Hi) as (Hhi & Hback & Hbm).
  exists (F ∖ {[i]}), T, PM, (i :: fs). split; [exact V'|split; [exact Hcr3|split; [exact Ht|]]].
  split; [done|]. split.
  { apply NoDup_cons. split; [|done]. intros Hin. by apply Hok, ho_used in Hin as [_ ?]. }
  intros f [->|Hf]%elem_of_cons.
  - split; cbn; try done.
    + split; [by apply (rep_sub _ _ _ _ (vi_pmm _ _ _ _ _ _ V))|clear; set_solver].
    + by eapply mods_backed.
    + by rewrite Hb.
    + intros k u Hk. by apply (vi_tables _ _ _ _ _ _ V) in Hk as (_ & ? & _).
  - pose proof (Hok f Hf) as Ho. eapply held_keep; [exact Ho|done|exact Hb|exact Hm| |apply Ho].
    intros [? _]%elem_of_difference. by apply Ho.
Qed.

Lemma vm_step_free U root σ before phys after ps m :
  vm_world_inv U root {| vw_vm := σ; vw_held := before ++ phys :: after |} →
  pmm_free_frame (pmm σ) (ram σ) phys = Ok (ps, m) →
  vm_world_inv U root {| vw_vm := set_pmm σ ps m; vw_held := before ++ after |}.
Proof.
  intros (F & T & PM & fs & V & Hcr3 & Ht & Hheld & Hnd & Hok) Hrun. cbn [vw_vm vw_held] in *.
  symmetry in Hheld. apply fmap_app_inv in Hheld as (fb & fa & -> & Hfa & ->).
  symmetry in Hfa. apply fmap_cons_inv in Hfa as (f & fa' & -> & -> & ->).
  pose proof (Hok f) as Ho. specialize (Ho ltac:(apply elem_of_app; right; by left)).
  pose proof (rep_range _ _ _ _ (vi_pmm _ _ _ _ _ _ V) f (proj1 (ho_used _ _ _ _ _ Ho))) as [Hf0 _].
  assert (f * PMM_FRAME_SIZE / PMM_FRAME_SIZE = f) as Hdiv by (apply frame_index; lia).
  pose proof (pmm_free_frame_returns _ _ _ _ (f * PMM_FRAME_SIZE) (vi_pmm _ _ _ _ _ _ V)) as Hs.
  rewrite Hdiv, Hrun in Hs. destruct (Hs (proj1 (ho_used _ _ _ _ _ Ho))) as (R & Hm & _).
  pose proof (pmm_free_frame_area _ _ _ _ _ Hrun) as Hb.
  apply NoDup_app in Hnd as (Hnb & Hap & [Hnf Hna]%NoDup_cons).
  exists ({[f]} ∪ F), T, PM, (fb ++ fa'). split; [by eapply free_keeps|].
  split; [done|split; [done|split; [by rewrite fmap_app|]]]. split.
  { apply NoDup_app. split; [done|split; [|done]]. intros x Hx Hx'. apply (Hap x Hx). by right. }
  intros g Hg. assert (g ∈ fb ++ f :: fa' ∧ g ≠ f) as [Hg' Hne].
  { apply elem_of_app in Hg as [Hg|Hg]; (split; [apply elem_of_app|]).
    - by left.
    - intros ->. apply (Hap f Hg). by left.
    - right. by right.
    - by intros ->. }
  pose proof (Hok g Hg') as Hog. eapply held_keep; [exact Hog|done|exact Hb|exact Hm| |apply Hog].
  intros [?%elem_of_singleton|?]%elem_of_union; [done|by apply Hog].
Qed.

Lemma vm_step_write U root σ held P m :
  vm_world_inv U root {| vw_vm := σ; vw_held := held |} →
  mods P (ram σ) m →
  (∀ x, P x → ∃ phys, phys ∈ held ∧ range (phys + hhdm_offset σ) PMM_FRAME_SIZE x) →
  vm_world_inv U root {| vw_vm := set_ram σ m; vw_held := held |}.
Proof.
  intros (F & T & PM & fs & V & Hcr3 & Ht & Hheld & Hnd & Hok) Hm HP. cbn [vw_vm vw_held] in *. subst held.
  exists F, T, PM, fs. split; [|split; [done|split; [done|split; [done|split; [done|]]]]].
  - eapply vm_inv_write; [exact V|exact Hm|]. intros x Hx.
    destruct (HP x Hx) as (phys & (f & -> & Hf)%list_elem_of_fmap & Hr). split.
    + by apply (Hok f Hf).
    + intros k g u Hk. apply (frames_apart _ f g); [|exact Hr]. intros ->.
      by apply (ho_table _ _ _ _ _ (Hok g Hf) k u).
  - intros f Hf. pose proof (Hok f Hf) as Ho. eapply held_keep; [exact Ho|done|done|exact Hm|apply Ho|apply Ho].
Qed.

Lemma vm_world_step U root w w' : vm_world_inv U root w → vm_step w w' → vm_world_inv U root w'.
Proof.
  intros H Hs. destruct Hs.
  - by eapply vm_step_map.
  - by eapply vm_step_unmap.
  - destruct H as (F & T & PM & fs & V & Hcr3 & Ht & Hheld). exists F, T, PM, fs.
    destruct Hheld as (? & ? & Hok).
    split; [by apply vm_inv_cpu|]. split; [done|]. split.
    2: { split; [done|split; [done|]]. intros f Hf. destruct (Hok f Hf). by split. }
    intros pg y. cbn. rewrite lookup_insert_Some. intros [[<- <-]|[_ Hy]]; [|by apply Ht].
    pose proof (mmu_eq _ _ _ _ _ _ v V Hcr3) as He. cbn [vw_vm] in He.
    match goal with Hmmu : mmu _ _ = Ok (Some _) |- _ => rewrite Hmmu in He end. by injection He as <-.
  - by eapply vm_step_alloc.
  - by eapply vm_step_free.
  - by eapply vm_step_write.
Qed.

Lemma vm_world_steps U root w w' : rtc vm_step w w' → vm_world_inv U root w → vm_world_inv U root w'.
Proof. induction 1; eauto using vm_world_step. Qed.

(** ** A new address space *)

(** A frame just taken and cleared is the root of an empty space. *)
Lemma root_space σ U F ps m i m1 :
  pmm_rep (pmm σ) (ram σ) U F → arena (pmm σ) (ram σ) (hhdm_offset σ) F →
  (∀ f, f ∈ U → f < 2 ^ 40) → i ∈ F → pmm_rep ps m U (F ∖ {[i]}) →
  mods (bitmap_area (pmm σ)) (ram σ) m → bitmap_area ps = bitmap_area (pmm σ) →
  mods (frame_mem (hhdm_offset σ) i) m m1 →
  (∀ j, 0 ≤ j < PMM_FRAME_SIZE → load8 m1 (i * PMM_FRAME_SIZE + hhdm_offset σ + j) = Ok 0) →
  vm_inv (set_ram (set_pmm σ ps m) m1) U (F ∖ {[i]}) i {[(4, 0) := (i, true)]} ∅.
Proof.
  intros R [Hh Har] Hp Hi R1 Hm Hb Hm1 Hz. destruct (Har i Hi) as (Hhi & Hback & Hbm).
  assert (i ∈ U) as HiU by by apply (rep_sub _ _ _ _ R). pose proof (rep_range _ _ _ _ R i HiU) as [Hi0 _].
  assert (∀ k f u, ({[(4, 0) := (i, true)]} : tabs) !! k = Some (f, u) → k = (4, 0) ∧ f = i ∧ u = true) as HT.
  { intros k f u [<- [= <- <-]]%lookup_singleton_Some. done. }
  split; cbn; try done.
  - eapply rep_mods; [exact R1|exact Hm1|]. intros x Hx. rewrite Hb. by apply Hbm.
  - split; [done|]. intros f Hf. destruct (Har f) as (? & ? & ?); [clear -Hf; set_solver|].
    split; [done|split; [|by rewrite Hb]]. eapply mods_backed; [exact Hm1|]. by eapply mods_backed.
  - split.
    + intros l q [f u] ([= -> ->] & -> & ->)%HT. lia.
    + intros l q [f u] ([= -> ->] & -> & ->)%HT. lia.
    + intros k f u (-> & -> & ->)%HT. split; [specialize (Hp i HiU); lia|split; [done|]].
      eapply mods_backed; [exact Hm1|]. by eapply mods_backed.
    + intros k k' f u u' (-> & -> & ->)%HT (-> & _)%HT. done.
    + intros l q f u ([= -> Hq] & -> & ->)%HT. rewrite zeroed_slots by done. unfold slot.
      rewrite decide_False, lookup_singleton_ne by (try (intros [= ?]); lia). done.
    + intros pg e He. by apply lookup_empty_Some in He.
  - intros k f u (-> & -> & ->)%HT. split; [done|split; [clear; set_solver|by rewrite Hb]].
Qed.

(** ** Rights *)

Lemma has_land x y b : 0 ≤ b → has (Z.land x y) (Z.shiftl 1 b) = has x (Z.shiftl 1 b) && has y (Z.shiftl 1 b).
Proof. intros. by rewrite !has_testbit, Z.land_spec. Qed.

Lemma leaf_pte_rights phys flags :
  has (leaf_pte phys flags) PTE_WRITE = has flags VM_WRITE ∧
  has (leaf_pte phys flags) PTE_USER = has flags VM_USER.
Proof.
  unfold PTE_WRITE, PTE_USER. rewrite !has_testbit, leaf_pte_eq, !low_bit_add by lia.
  by destruct (has flags VM_WRITE), (has flags VM_USER).
Qed.

Lemma path_user_all T pg :
  (∀ l, 1 ≤ l ≤ 3 → is_Some (T !! (l, pre l pg))) →
  path_user T pg 4 = true ↔ ∀ l f u, 1 ≤ l ≤ 3 → T !! (l, pre l pg) = Some (f, u) → u = true.
Proof.
  intros Hall. cbn [path_user]. change (Z.of_nat 3) with 3. change (Z.of_nat 2) with 2. change (Z.of_nat 1) with 1.
  destruct (Hall 3) as [[f3 u3] H3]; [lia|]. destruct (Hall 2) as [[f2 u2] H2]; [lia|].
  destruct (Hall 1) as [[f1 u1] H1]; [lia|]. rewrite H1, H2, H3, andb_true_r, !andb_true_iff. split.
  - intros (-> & -> & ->) l f u Hl Hk.
    assert (l = 1 ∨ l = 2 ∨ l = 3) as [->|[->| ->]] by lia; congruence.
  - intros Hu. split; [by eapply (Hu 3)|split; [by eapply (Hu 2)|by eapply (Hu 1)]].
Qed.

(** A table of level 1 has all the tables above it. *)
Lemma path_tables σ U F root T PM pg :
  vm_inv σ U F root T PM → is_Some (T !! (1, pg / 512)) →
  ∀ l, 1 ≤ l ≤ 3 → is_Some (T !! (l, pre l pg)).
Proof.
  intros V [t1 H1] l Hl. pose proof (vi_space _ _ _ _ _ _ V) as Hsp.
  destruct (sp_parent _ _ _ _ Hsp _ _ _ H1) as [t2 H2]; [lia|].
  destruct (sp_parent _ _ _ _ Hsp _ _ _ H2) as [t3 H3]; [lia|].
  rewrite !Z.div_div in H3 by lia. rewrite Z.div_div in H2 by lia.
  assert (l = 1 ∨ l = 2 ∨ l = 3) as [->|[->| ->]] by lia; by eexists.
Qed.

(** ** The safety gate *)

Lemma can_switch_returns `{!PagingText} σ U F root T PM :
  vm_inv σ U F root T PM →
  ∃ b, paging_can_switch_to σ (root * PMM_FRAME_SIZE) = Ok (σ, b) ∧
    (b = true ↔ is_Some (PM !! vpage (rsp (vcpu σ))) ∧ is_Some (PM !! vpage paging_load_cr3_addr)).
Proof.
  intros V. unfold paging_can_switch_to. rewrite (paging_translate_returns _ _ _ _ _ _ _ V), bind_ok.
  unfold xlate at 1. destruct (PM !! vpage (rsp (vcpu σ))) as [e|] eqn:He; cbn [fmap option_fmap option_map].
  2: { exists false. split; [done|]. split; [done|]. intros [[? ?] _]. done. }
  rewrite (paging_translate_returns _ _ _ _ _ _ _ V), bind_ok. unfold xlate.
  destruct (PM !! vpage paging_load_cr3_addr) as [e'|] eqn:He'; cbn [fmap option_fmap option_map].
  - exists true. split; [done|]. by eauto.
  - exists false. split; [done|]. split; [done|]. intros [_ [? ?]]. done.
Qed.

(** What is reached is a matter of the space, not of the rest of memory. *)
Lemma reached_same σ σ' U F U' F' root T PM v :
  vm_inv σ U F root T PM → vm_inv σ' U' F' root T PM → cr3 (vcpu σ) = root * PMM_FRAME_SIZE →
  cr3 (vcpu σ') = root * PMM_FRAME_SIZE → hhdm_offset σ' = hhdm_offset σ → reached σ' v = reached σ v.
Proof.
  intros V V' Hc Hc' Hh. unfold reached. by rewrite (mmu_eq _ _ _ _ _ _ v V Hc), (mmu_eq _ _ _ _ _ _ v V' Hc'), Hh.
Qed.

(** Where all of memory is reached, translation makes no difference. *)
Definition all_reached σ : Prop := ∀ v, is_Some (ram σ !! v) → reached σ v = true.

Lemma translated_id σ : all_reached σ → translated σ = σ.
Proof.
  intros Hall. unfold translated. rewrite map_filter_id; [by destruct σ|].
  intros v b Hv. apply Hall. by exists b.
Qed.

Lemma all_reached_mods P σ σ' U F U' F' root T PM :
  vm_inv σ U F root T PM → vm_inv σ' U' F' root T PM → cr3 (vcpu σ) = root * PMM_FRAME_SIZE →
  cr3 (vcpu σ') = root * PMM_FRAME_SIZE → hhdm_offset σ' = hhdm_offset σ → mods P (ram σ) (ram σ') →
  all_reached σ → all_reached σ'.
Proof.
  intros V V' Hc Hc' Hh Hm Hall v Hv. rewrite (reached_same σ σ' U F U' F' root T PM) by done.
  apply Hall. by apply (mods_dom _ _ _ Hm).
Qed.

(** A mapped address resolves once the space is loaded. *)
Lemma mmu_loaded σ U F root T PM v :
  vm_inv σ U F root T PM → is_Some (PM !! vpage v) →
  ∃ x, mmu (paging_load_cr3 σ (root * PMM_FRAME_SIZE)) v = Ok (Some x).
Proof.
  intros V [e He]. set (σ' := paging_load_cr3 σ (root * PMM_FRAME_SIZE)).
  assert (vm_inv σ' U F root T PM) as V' by by apply vm_inv_cpu.
  rewrite (mmu_eq _ _ _ _ _ _ v V' eq_refl), He. by eexists.
Qed.

(** * A small machine: frame 2 is the root table, 3, 6 and 7 are free *)

Module paging_demo.
#[local] Existing Instance demo.limine0.

Definition start_state (ps : pmm_state) m : vm_state := {|
  hhdm_offset := demo.hhdm; pmm := ps; ram := m;
  vcpu := {| cr3 := 0x2000; rsp := demo.hhdm + 0x3000; tlb := ∅ |} |}.

Lemma start : ∃ σ F, vm_inv σ demo.U F 2 {[(4, 0) := (2, true)]} ∅ ∧
  cr3 (vcpu σ) = 2 * PMM_FRAME_SIZE ∧ tlb (vcpu σ) = ∅ ∧ (size F = 3)%nat.
Proof.
  destruct demo.boot_frames as (ps0 & m0 & Hinit & R0 & _ & Har).
  destruct demo.init as (ps & m & Hinit' & Hhint & _). rewrite Hinit in Hinit'. injection Hinit' as <- <-.
  set (σ := start_state ps0 m0).
  destruct (returns_inv _ _ (pmm_alloc_frame_returns ps0 m0 _ _ R0)) as ([[ps1 m1] phys] & Hal & Hff).
  assert (2 ∈ demo.U ∖ {[1]}) as H2 by (apply (bool_decide_unpack _); by vm_compute).
  destruct Hff as [(HF & _)|(i & [Hi Hmin] & -> & _ & R1 & Hm1 & _ & Hb)].
  { rewrite HF in H2. by apply not_elem_of_empty in H2. }
  assert (i = 2) as ->.
  { rewrite Hhint in Hmin. assert (i ∈ demo.U ∧ i ≠ 1) as [HiU Hi1] by (clear -Hi; set_solver).
    pose proof (rep_range _ _ _ _ R0 i HiU).
    destruct Hmin as [[_ Hmin]|[? _]]; [|lia]. specialize (Hmin 2 H2 ltac:(lia)). lia. }
  destruct (ar_frames _ _ _ _ Har 2 Hi) as (_ & Hback & _).
  assert (backed m1 (2 * PMM_FRAME_SIZE + demo.hhdm) PMM_FRAME_SIZE) as Hback1 by (eapply mods_backed; [exact Hm1|exact Hback]).
  assert (0 ≤ PMM_FRAME_SIZE < 2 ^ 64) as Hsz by (unfold PMM_FRAME_SIZE; lia).
  pose proof (memset_returns _ _ 0 _ Hsz Hback1) as Hms.
  apply returns_inv in Hms as ([m2 r] & _ & _ & Hm2 & Hz).
  exists (set_ram (set_pmm σ ps1 m1) m2), (demo.U ∖ {[1]} ∖ {[2]}).
  split; [|split; [done|split; [done|]]].
  - eapply (root_space σ); [exact R0|exact Har| |exact Hi|exact R1|exact Hm1|exact Hb|exact Hm2|exact Hz].
    clear. unfold demo.U. intros f Hl. rewrite elem_of_list_to_set in Hl.
    rewrite !elem_of_cons, elem_of_nil in Hl. lia.
  - by vm_compute.
Qed.

(** Three free frames are enough to map any page. *)
Lemma mapped v phys flags : ∃ σ F σ1, vm_inv σ demo.U F 2 {[(4, 0) := (2, true)]} ∅ ∧
  cr3 (vcpu σ) = 2 * PMM_FRAME_SIZE ∧ tlb (vcpu σ) = ∅ ∧
  paging_map σ (2 * PMM_FRAME_SIZE) v phys flags = Ok (σ1, true).
Proof.
  destruct start as (σ & F & V & Hcr3 & Htlb & Hsz).
  destruct (returns_inv _ _ (paging_map_returns _ _ _ _ _ _ v phys flags V))
    as ([σ1 b] & Hrun & F' & T' & σ2 & _ & _ & _ & _ & [(_ & _ & _ & Hle & _)|(-> & _)]); [lia|].
  by exists σ, F, σ1.
Qed.
End paging_demo.

(** * What the paging layer promises *)

(** C15. Translation is the processor's.  In the live space [paging_translate]
    changes nothing and answers for every address exactly what the MMU's own
    walk finds: false when the walk meets a non-present entry, otherwise the
    frame the walk ends at, with the page offset. *)
Theorem paging_translate_correct σ U F root T PM v :
  vm_inv σ U F root T PM → cr3 (vcpu σ) = root * PMM_FRAME_SIZE →
  ∃ r, mmu σ v = Ok r ∧
    paging_translate σ (cr3 (vcpu σ)) v =
      Ok (σ, (λ '(frame, _), Z.lor frame (Z.land v 0xfff)) <$> r).
Proof.
  intros V Hcr3. exists (cached (path_user T (vpage v) 4) <$> PM !! vpage v).
  rewrite (mmu_eq _ _ _ _ _ _ v V Hcr3), Hcr3, (paging_translate_returns _ _ _ _ _ _ v V).
  split; [done|]. unfold xlate. by destruct (PM !! vpage v).
Qed.

Lemma paging_translate_correct_witness :
  ∃ σ, paging_translate σ (cr3 (vcpu σ)) 0x5123 = Ok (σ, None).
Proof.
  destruct paging_demo.start as (σ & F & V & Hcr3 & _). exists σ.
  destruct (paging_translate_correct σ _ _ _ _ _ 0x5123 V Hcr3) as (r & Hr & ->).
  rewrite (mmu_eq _ _ _ _ _ _ 0x5123 V Hcr3) in Hr. injection Hr as <-. reflexivity.
Defined.

(** C14. Mapping.  [paging_map] always returns.  It answers false only when
    at most two frames were free and they did not do for the tables the page lacks,
    and then no page's mapping changed.  Otherwise exactly the page of [v] gets the entry for the frame and
    the flags.  Either way new tables come out of the free frames, tables are
    never lost, and no byte outside the tables and the frame bitmap is written. *)
Theorem paging_map_correct σ U F root T PM v phys flags :
  vm_inv σ U F root T PM →
  ∃ σ' b F' T', paging_map σ (root * PMM_FRAME_SIZE) v phys flags = Ok (σ', b) ∧
    vm_inv σ' U F' root T' (if (b : bool) then <[vpage v := leaf_pte phys flags]> PM else PM) ∧
    (b = false → (size F ≤ 2)%nat ∧ F' = ∅ ∧ T' !! (1, vpage v / 512) = None) ∧
    F' ⊆ F ∧ T ⊆ T' ∧ (∀ k f u, T' !! k = Some (f, u) → T !! k = Some (f, u) ∨ f ∈ F) ∧
    (∀ f, f ∈ F → f ∉ F' → ∃ k u, T' !! k = Some (f, u)) ∧
    mods (vm_area σ T') (ram σ) (ram σ').
Proof.
  intros V. destruct (returns_inv _ _ (paging_map_returns σ U F root T PM v phys flags V))
    as ([σ' b] & Hrun & F' & T' & σ1 & G & _ & _ & Hm & Hs).
  exists σ', b, F', T'. split; [done|]. split; [|split].
  - by destruct Hs as [(-> & _ & ? & _)|(-> & _ & _ & ?)].
  - intros ->. destruct Hs as [(_ & _ & _ & ? & ? & ?)|(? & _)]; done.
  - split; [apply G|]. split; [apply G|]. split; [|split; [apply G|done]].
    intros k f u [?|(_ & ? & _)]%(gr_new _ _ _ _ _ _ _ _ G); [by left|by right].
Qed.

Lemma paging_map_correct_witness :
  ∃ σ σ' b, paging_map σ 0x2000 0x400000 0x6000 VM_WRITE = Ok (σ', b).
Proof.
  destruct paging_demo.start as (σ & F & V & _).
  destruct (paging_map_correct σ _ _ _ _ _ 0x400000 0x6000 VM_WRITE V) as (σ' & b & F' & T' & Hrun & _).
  exists σ, σ', b. exact Hrun.
Defined.

(** Unmapping.  [paging_unmap] returns, answers whether the page was mapped,
    unmaps that page and no other, writes nothing but a table entry, and flushes
    the page from the TLB when it changed the entry. *)
Theorem paging_unmap_correct σ U F root T PM v :
  vm_inv σ U F root T PM →
  ∃ σ' b, paging_unmap σ (root * PMM_FRAME_SIZE) v = Ok (σ', b) ∧
    (b = true ↔ is_Some (PM !! vpage v)) ∧
    vm_inv σ' U F root T (base.delete (vpage v) PM) ∧ pmm σ' = pmm σ ∧
    mods (vm_area σ T) (ram σ) (ram σ') ∧
    (b = true → tlb (vcpu σ') !! vpage v = None) ∧ (b = false → σ' = σ).
Proof.
  intros V. destruct (returns_inv _ _ (paging_unmap_returns σ U F root T PM v V))
    as ([σ' b] & Hrun & -> & V' & Hp & _ & Hm & Hfl).
  exists σ', (bool_decide (is_Some (PM !! vpage v))). split; [done|]. split; [apply bool_decide_eq_true|].
  split; [done|split; [done|split; [done|]]]. case_bool_decide; [|done].
  split; [|done]. intros _. rewrite Hfl. cbn [tlb]. apply lookup_delete_eq.
Qed.

Lemma paging_unmap_correct_witness :
  ∃ σ σ' b, paging_unmap σ 0x2000 0x400000 = Ok (σ', b).
Proof.
  destruct paging_demo.start as (σ & F & V & _).
  destruct (paging_unmap_correct σ _ _ _ _ _ 0x400000 V) as (σ' & b & Hrun & _).
  exists σ, σ', b. exact Hrun.
Defined.

(** C32. Map, translate, unmap.  After a successful map every address of the page
    translates to the frame with its own offset and every other address as
    before; unmapping the page then succeeds and, when the page was not mapped
    before, all translations are back to what they were. *)
Theorem paging_map_unmap σ U F root T PM v phys flags σ1 :
  vm_inv σ U F root T PM →
  paging_map σ (root * PMM_FRAME_SIZE) v phys flags = Ok (σ1, true) →
  (∀ w, paging_translate σ1 (root * PMM_FRAME_SIZE) w = Ok (σ1,
     if decide (vpage w = vpage v)
     then Some (phys / 2 ^ 12 mod 2 ^ 40 * 2 ^ 12 + w mod 2 ^ 12) else xlate PM w)) ∧
  ∃ σ2, paging_unmap σ1 (root * PMM_FRAME_SIZE) v = Ok (σ2, true) ∧
    (PM !! vpage v = None → ∀ w, paging_translate σ2 (root * PMM_FRAME_SIZE) w = Ok (σ2, xlate PM w)).
Proof.
  intros V Hrun. pose proof (paging_map_returns σ U F root T PM v phys flags V) as Hs.
  rewrite Hrun in Hs. destruct Hs as (F' & T' & σ0 & _ & _ & _ & _ & [(? & _)|(_ & _ & _ & V1)]); [done|]. split.
  - intros w. rewrite (paging_translate_returns _ _ _ _ _ _ w V1). do 2 f_equal. unfold xlate.
    case_decide as Hw.
    + rewrite Hw, lookup_insert_eq. cbn [fmap option_fmap option_map]. f_equal.
      rewrite land_addr_mask, leaf_pte_eq, Z.div_add_l by lia.
      rewrite (Z.div_small (1 + _ + _)) by (destruct (has flags VM_WRITE), (has flags VM_USER); lia).
      rewrite Z.add_0_r, Z.mod_mod by lia. change 0xfff with (Z.ones 12). rewrite Z.land_ones by lia.
      apply lor_low; [lia|]. by apply Z.mod_pos_bound.
    + by rewrite lookup_insert_ne.
  - destruct (returns_inv _ _ (paging_unmap_returns σ1 U F' root T' _ v V1))
      as ([σ2 b] & Hrun2 & -> & V2 & _). rewrite bool_decide_true in Hrun2 by (rewrite lookup_insert_eq; eauto).
    exists σ2. split; [done|]. intros Hnone w. rewrite (paging_translate_returns _ _ _ _ _ _ w V2).
    by rewrite delete_insert_eq, delete_id.
Qed.

Lemma paging_map_unmap_witness :
  ∃ σ1 σ2, paging_translate σ1 0x2000 0x400123 = Ok (σ1, Some 0x6123) ∧
    paging_unmap σ1 0x2000 0x400000 = Ok (σ2, true) ∧
    paging_translate σ2 0x2000 0x400123 = Ok (σ2, None).
Proof.
  destruct (paging_demo.mapped 0x400000 0x6000 VM_WRITE) as (σ & F & σ1 & V & _ & _ & Hrun).
  destruct (paging_map_unmap σ _ _ _ _ _ _ _ _ σ1 V Hrun) as (Htr & σ2 & Hun & Hback).
  exists σ1, σ2. split; [exact (Htr 0x400123)|]. split; [exact Hun|]. exact (Hback eq_refl 0x400123).
Defined.

(** C7. The TLB never goes stale.  However the kernel maps and unmaps pages of
    the live space, frames are allocated, freed and written by their holders and
    the processor caches translations, in any order, every cached translation is
    the one, with the rights, that a walk of the current tables gives. *)
Theorem paging_tlb_coherent U root w0 w v x :
  vm_world_inv U root w0 → rtc vm_step w0 w →
  tlb (vcpu (vw_vm w)) !! vpage v = Some x → mmu (vw_vm w) v = Ok (Some x).
Proof.
  intros Hinv Hsteps Hx. destruct (vm_world_steps U root w0 w Hsteps Hinv)
    as (F & T & PM & fs & V & Hcr3 & Ht & _).
  rewrite (mmu_eq _ _ _ _ _ _ v V Hcr3). f_equal. by apply Ht.
Qed.

(** Map a page and let the processor cache it. *)
Lemma paging_tlb_coherent_witness :
  ∃ w v x, tlb (vcpu (vw_vm w)) !! vpage v = Some x ∧ mmu (vw_vm w) v = Ok (Some x).
Proof.
  destruct (paging_demo.mapped 0x400000 0x6000 VM_WRITE) as (σ & F & σ1 & V & Hcr3 & Htlb & Hrun).
  set (w0 := {| vw_vm := σ; vw_held := [] |}). set (w1 := {| vw_vm := σ1; vw_held := [] |}).
  assert (vm_world_inv demo.U 2 w0) as H0.
  { exists F, {[(4, 0) := (2, true)]}, ∅, []. split; [exact V|split; [exact Hcr3|]].
    split; [intros pg y Hy; cbn in Hy; rewrite Htlb in Hy; done|].
    split; [done|split; [apply NoDup_nil_2|]]. intros f Hf. by apply elem_of_nil in Hf. }
  rewrite <- Hcr3 in Hrun. assert (vm_step w0 w1) as Hs1 by exact (vs_map _ _ _ _ _ _ _ Hrun).
  pose proof (vm_world_step _ _ _ _ H0 Hs1) as (F1 & T1 & PM1 & fs & V1 & Hcr31 & _).
  cbn [vw_vm] in V1, Hcr31. change (vw_vm w1) with σ1 in V1, Hcr31.
  rewrite Hcr3 in Hrun. pose proof (proj1 (paging_map_unmap σ _ _ _ _ _ _ _ _ σ1 V Hrun) 0x400000) as Htr.
  rewrite (paging_translate_returns _ _ _ _ _ _ 0x400000 V1) in Htr. injection Htr as Htr.
  pose proof (mmu_eq _ _ _ _ _ _ 0x400000 V1 Hcr31) as Hmmu. unfold xlate in Htr.
  destruct (PM1 !! vpage 0x400000) as [e|]; [|done]. cbn [fmap option_fmap option_map] in Hmmu.
  set (x := cached _ e) in Hmmu. pose proof (vs_fill σ1 [] 0x400000 x Hmmu) as Hs2.
  match type of Hs2 with vm_step _ ?w => set (w2 := w) in Hs2 end.
  assert (tlb (vcpu (vw_vm w2)) !! vpage 0x400000 = Some x) as Hx by (cbn; apply lookup_insert_eq).
  exists w2, 0x400000, x. split; [exact Hx|].
  exact (paging_tlb_coherent demo.U 2 w0 w2 0x400000 x H0 (rtc_l _ _ _ _ Hs1 (rtc_once _ _ Hs2)) Hx).
Defined.

(** C33. Rights.  After a successful map in the live space the MMU lets the page
    be written exactly when VM_WRITE was asked for.  Ring 3 reaches it exactly
    when VM_USER was asked for and none of the tables that were already there for
    its addresses had been made for a supervisor page: [next_level] gives the user
    bit to the tables it creates, never to one it finds. *)
Theorem paging_map_rights σ U F root T PM v phys flags σ' :
  vm_inv σ U F root T PM → cr3 (vcpu σ) = root * PMM_FRAME_SIZE →
  paging_map σ (root * PMM_FRAME_SIZE) v phys flags = Ok (σ', true) →
  ∃ frame r, mmu σ' v = Ok (Some (frame, r)) ∧ has r PTE_WRITE = has flags VM_WRITE ∧
    (has r PTE_USER = true ↔ has flags VM_USER = true ∧
       ∀ l f u, 1 ≤ l ≤ 3 → T !! (l, pre l (vpage v)) = Some (f, u) → u = true).
Proof.
  intros V Hcr3 Hrun. pose proof (paging_map_returns σ U F root T PM v phys flags V) as Hs.
  rewrite Hrun in Hs. destruct Hs as (F' & T' & σ0 & G & _ & _ & _ & [(? & _)|(_ & Hfl & H1 & V1)]); [done|].
  assert (cr3 (vcpu σ') = root * PMM_FRAME_SIZE) as Hcr3' by by rewrite Hfl.
  rewrite (mmu_eq _ _ _ _ _ _ v V1 Hcr3'), lookup_insert_eq. do 2 eexists. split; [done|].
  pose proof (path_tables _ _ _ _ _ _ _ V1 H1) as Hall. destruct (leaf_pte_rights phys flags) as [Hw Hu].
  unfold PTE_WRITE, PTE_USER in *. rewrite !has_land, Hw, Hu by lia. split.
  { by destruct (path_user _ _ _). }
  assert (∀ b, has (rights b) (Z.shiftl 1 2) = b) as -> by by intros [].
  rewrite andb_true_iff, path_user_all by done. split.
  - intros [Hp Huser]. split; [done|]. intros l f u Hl Hk.
    eapply (Hp l f u Hl). eapply lookup_weaken; [exact Hk|apply G].
  - intros [Huser Hp]. split; [|done]. intros l f u Hl Hk.
    apply (gr_new _ _ _ _ _ _ _ _ G) in Hk as [Hk|(_ & _ & -> & _)]; [by eapply Hp|done].
Qed.

Lemma paging_map_rights_witness :
  ∃ σ' frame r, mmu σ' 0x400000 = Ok (Some (frame, r)) ∧ has r PTE_WRITE = false ∧ has r PTE_USER = true.
Proof.
  destruct (paging_demo.mapped 0x400000 0x6000 VM_USER) as (σ & F & σ1 & V & Hcr3 & _ & Hrun).
  destruct (paging_map_rights σ _ _ _ _ _ _ _ _ σ1 V Hcr3 Hrun) as (frame & r & Hm & Hw & Hu).
  exists σ1, frame, r. split; [exact Hm|split; [exact Hw|]]. apply Hu. split; [reflexivity|].
  intros l f u Hl Hk. apply lookup_singleton_Some in Hk as [Hk _]. exfalso. injection Hk. lia.
Defined.

(** C34. The safety gate.  [paging_can_switch_to] changes nothing and says true
    exactly when both the stack pointer and the paging code are mapped; then,
    once the space is loaded, the processor's walk resolves them both. *)
Theorem paging_can_switch_to_correct {Tx : PagingText} σ U F root T PM :
  vm_inv σ U F root T PM →
  ∃ b, paging_can_switch_to σ (root * PMM_FRAME_SIZE) = Ok (σ, b) ∧
    (b = true ↔ is_Some (PM !! vpage (rsp (vcpu σ))) ∧ is_Some (PM !! vpage paging_load_cr3_addr)) ∧
    (b = true → let σ' := paging_load_cr3 σ (root * PMM_FRAME_SIZE) in
       ∀ v, v = rsp (vcpu σ') ∨ v = paging_load_cr3_addr → ∃ x, mmu σ' v = Ok (Some x)).
Proof.
  intros V. destruct (can_switch_returns σ U F root T PM V) as (b & Hrun & Hb).
  exists b. split; [done|split; [done|]]. intros Hs. apply Hb in Hs as [H1 H2]. cbv zeta. intros v Hv.
  eapply mmu_loaded; [exact V|]. by destruct Hv as [->| ->].
Qed.

(** With the stack's page mapped and no code page the gate stays shut. *)
Lemma paging_can_switch_to_correct_witness :
  ∃ σ, @paging_can_switch_to 0xffffffff80001000 σ (2 * PMM_FRAME_SIZE) = Ok (σ, false).
Proof.
  destruct paging_demo.start as (σ & F & V & _). exists σ.
  destruct (paging_can_switch_to_correct (Tx := 0xffffffff80001000) σ _ _ _ _ _ V) as (b & Hrun & Hb & _).
  destruct b; [|exact Hrun]. exfalso. destruct (proj1 Hb eq_refl) as [[e He] _]. discriminate He.
Defined.
