(* ===== verification/Io.v ===== *)
(** kernel/arch/x86_64/io.h: port I/O and the other instructions the kernel
    talks to the machine with.

    Everything a component does to the outside is an [event] appended to the
    trace [io]; a read of a port returns what the device answers, and the
    devices are a parameter: [port_in t port] is the byte [port] yields after
    the events [t].  The devices see the whole trace, so any device behaviour
    that depends on what happened so far fits. *)

From stdpp Require Import base list gmap sets.
From Stdlib Require Import ZArith Lia String Ascii.
From S2P Require Import Prelude.

(** [Lseg]: the far return and the moves that reload the segment registers;
    [Inta]: the CPU acknowledges an interrupt of a PIC line; [Iret]: it returns
    from one. *)
Inductive event :=
  | In (port value : Z)
  | Out (port value : Z)
  | Lgdt (limit base : Z) (table : list Z)
  | Lseg (cs ds : Z)
  | Lidt (limit base : Z)
  | Wrmsr (msr lo hi : Z)
  | Cli
  | Sti
  | Hlt
  | Inta (irq : Z)
  | Iret.

Abbreviation io := (list event).

(** The machine's answers: bytes read from ports, the two halves of a model
    specific register, the fault address register. *)
Class Machine := {
  port_in : io → Z → Z;
  msr_in : io → Z → Z * Z;
  cr2_in : io → Z;
}.

Implicit Types (t : io) (port value : Z).

(** [outb] keeps the low byte. *)
Definition outb t port value : io := t ++ [Out port (u8 value)].

Definition inb `{!Machine} t port : io * Z :=
  let v := u8 (port_in t port) in (t ++ [In port v], v).

Definition io_wait t : io := t ++ [Out 0x80 0].

(** * Strings *)

(** A C string: its bytes up to, and without, the terminating NUL. *)
Definition cstring := list Z.

(** A literal. *)
Fixpoint c (s : string) : cstring :=
  match s with
  | EmptyString => []
  | String a s => Z.of_N (N_of_ascii a) :: c s
  end.
Bind Scope string_scope with string.
Arguments c s%_string.

Definition chr_nl : Z := 10.
Definition chr_cr : Z := 13.

(** Bytes that can stand in a C string. *)
Definition no_nul (s : cstring) : Prop := Forall (λ b, 0 < b < 256) s.

(** * Decimal numerals *)

(** The value of a numeral in base [b], most significant digit first, a digit
    being the character [digit d] for [d < b]. *)
Definition numeral_value (b : Z) (value_of : Z → Z) (s : cstring) : Z :=
  foldl (λ n ch, b * n + value_of ch) 0 s.

Lemma numeral_value_snoc b f s ch :
  numeral_value b f (s ++ [ch]) = b * numeral_value b f s + f ch.
Proof. unfold numeral_value. by rewrite foldl_app. Qed.
