(* ===== verification/Serial.v ===== *)
(** kernel/lib/serial.c: the COM1 UART driver.

    [uart] replays a trace the way a 16550 takes it in: with the divisor latch
    open the first two registers set the divisor, with it closed a write to the
    first one transmits a byte.  [sent] is what went out on the line. *)

From stdpp Require Import base list gmap sets.
From Stdlib Require Import ZArith Lia String Ascii.
From S2P Require Import Prelude.
From S2P Require Import Io.

Definition COM1 : Z := 0x3F8.

Implicit Types (t : io) (s : cstring) (ch : Z).

(** * The driver *)

Section code.
Context `{!Machine}.

Definition serial_init t : io :=
  let t := outb t (COM1 + 1) 0x00 in
  let t := outb t (COM1 + 3) 0x80 in
  let t := outb t (COM1 + 0) 0x01 in
  let t := outb t (COM1 + 1) 0x00 in
  let t := outb t (COM1 + 3) 0x03 in
  let t := outb t (COM1 + 2) 0xC7 in
  outb t (COM1 + 4) 0x0B.

Definition serial_putc t ch : outcome io :=
  t ← loop (λ t,
        let '(t, lsr) := inb t (COM1 + 5) in
        if Z.land lsr 0x20 =? 0 then Ok (inl t) else Ok (inr t)) t;
  Ok (outb t COM1 ch).

Fixpoint serial_write t s : outcome io :=
  match s with
  | [] => Ok t
  | ch :: s =>
      t ← (if ch =? chr_nl then serial_putc t chr_cr else Ok t);
      t ← serial_putc t ch;
      serial_write t s
  end.
End code.

(** * The UART *)

Record uart := {
  dlab : bool;
  divisor : Z;
  line : Z;       (* LCR without DLAB: 3 is 8N1 *)
  ier : Z;
  sent : list Z;
}.

Definition uart_reset : uart := {| dlab := false; divisor := 0; line := 0; ier := 0; sent := [] |}.

Definition uart_step (u : uart) (e : event) : uart :=
  match e with
  | Out port v =>
      if port =? COM1 then
        if dlab u then {| dlab := true; divisor := divisor u / 256 * 256 + v; line := line u;
                          ier := ier u; sent := sent u |}
        else {| dlab := false; divisor := divisor u; line := line u; ier := ier u; sent := sent u ++ [v] |}
      else if port =? COM1 + 1 then
        if dlab u then {| dlab := true; divisor := divisor u mod 256 + 256 * v; line := line u;
                          ier := ier u; sent := sent u |}
        else {| dlab := false; divisor := divisor u; line := line u; ier := v; sent := sent u |}
      else if port =? COM1 + 3 then
        {| dlab := Z.testbit v 7; divisor := divisor u; line := v mod 128; ier := ier u; sent := sent u |}
      else u
  | _ => u
  end.

Definition uart_of t : uart := foldl uart_step uart_reset t.

Lemma uart_of_app t1 t2 : uart_of (t1 ++ t2) = foldl uart_step (uart_of t1) t2.
Proof. apply foldl_app. Qed.

(** Events the UART does not listen to. *)
Definition uart_silent (e : event) : Prop :=
  match e with Out port _ => port < COM1 ∨ COM1 + 3 < port | _ => True end.

Lemma uart_silent_step u e : uart_silent e → uart_step u e = u.
Proof.
  destruct e as [| port v | | | | | | | | |]; try done. cbn [uart_silent uart_step]. intros Hp.
  by rewrite !(proj2 (Z.eqb_neq _ _)) by lia.
Qed.

Lemma uart_silent_steps u tail : Forall uart_silent tail → foldl uart_step u tail = u.
Proof.
  intros HF. revert u. induction HF as [|e tail He _ IH]; intros u; [done|].
  cbn [foldl]. by rewrite uart_silent_step.
Qed.

(** The registers [serial_init] writes. *)
Lemma uart_step_dll d l i bs v :
  uart_step {| dlab := true; divisor := d; line := l; ier := i; sent := bs |} (Out (COM1 + 0) v) =
  {| dlab := true; divisor := d / 256 * 256 + v; line := l; ier := i; sent := bs |}.
Proof. done. Qed.
Lemma uart_step_dlm (b : bool) d l i bs v :
  uart_step {| dlab := b; divisor := d; line := l; ier := i; sent := bs |} (Out (COM1 + 1) v) =
  {| dlab := b; divisor := if b then d mod 256 + 256 * v else d; line := l;
     ier := if b then i else v; sent := bs |}.
Proof. by destruct b. Qed.
Lemma uart_step_lcr (b : bool) d l i bs v :
  uart_step {| dlab := b; divisor := d; line := l; ier := i; sent := bs |} (Out (COM1 + 3) v) =
  {| dlab := Z.testbit v 7; divisor := d; line := v mod 128; ier := i; sent := bs |}.
Proof. done. Qed.
Lemma uart_step_other u off v : off = 2 ∨ off = 4 → uart_step u (Out (COM1 + off) v) = u.
Proof. by intros [->| ->]. Qed.

Lemma serial_init_uart `{!Machine} t :
  uart_of (serial_init t) = {| dlab := false; divisor := 1; line := 3;
    ier := if dlab (uart_of t) then ier (uart_of t) else 0; sent := sent (uart_of t) |}.
Proof.
  unfold serial_init, outb. rewrite !uart_of_app.
  destruct (uart_of t) as [b d l i bs]. cbn [foldl sent]. rewrite uart_step_dlm, uart_step_lcr.
  change (Z.testbit (u8 0x80) 7) with true. rewrite uart_step_dll, uart_step_dlm, uart_step_lcr.
  rewrite !uart_step_other by auto. cbn [dlab ier]. f_equal.
  change (u8 1) with 1. change (256 * u8 0) with 0. rewrite Z.add_0_r, Z.add_comm. apply Z_mod_plus_full.
Qed.

(** * What it relies on *)

(** The transmitter empties: however often the line status register has been
    read, after some number of further reads, fewer than [2 ^ 64], its THRE bit
    is up. *)
Fixpoint polled `{!Machine} t (n : nat) : io :=
  match n with
  | O => t
  | S n => polled (inb t (COM1 + 5)).1 n
  end.

Class Uart `{!Machine} : Prop := {
  uart_ready t : ∃ n : nat, Z.of_nat n < 2 ^ 64 ∧
    Z.land (inb (polled t n) (COM1 + 5)).2 0x20 ≠ 0;
}.

(** * Lemmas *)

(** The byte stream a terminal expects: CR before every LF. *)
Fixpoint crlf s : list Z :=
  match s with
  | [] => []
  | ch :: s => (if ch =? chr_nl then [chr_cr] else []) ++ ch :: crlf s
  end.

Lemma crlf_app s1 s2 : crlf (s1 ++ s2) = crlf s1 ++ crlf s2.
Proof. induction s1 as [|ch s1 IH]; [done|]. cbn. by rewrite IH, <- app_assoc. Qed.

(** [t'] is [t] and then traffic that sends exactly [bs] on an open line. *)
Definition sends t (bs : list Z) t' : Prop :=
  uart_of t' = {| dlab := false; divisor := divisor (uart_of t); line := line (uart_of t);
                  ier := ier (uart_of t); sent := sent (uart_of t) ++ bs |} ∧
  ∃ tail, t' = t ++ tail ∧
    Forall (λ e, match e with In p _ => p = COM1 + 5 | Out p _ => p = COM1 | _ => False end) tail.

Lemma sends_nil t : dlab (uart_of t) = false → sends t [] t.
Proof.
  intros Hd. split; [|exists []; by rewrite app_nil_r].
  rewrite app_nil_r. destruct (uart_of t). cbn in *. by subst.
Qed.

Lemma sends_app t1 t2 t3 bs1 bs2 : sends t1 bs1 t2 → sends t2 bs2 t3 → sends t1 (bs1 ++ bs2) t3.
Proof.
  intros [H1 (l1 & -> & HF1)] [H2 (l2 & -> & HF2)]. split.
  - rewrite H2, H1. cbn. by rewrite app_assoc.
  - exists (l1 ++ l2). rewrite app_assoc. split; [done|]. by apply Forall_app.
Qed.

Lemma sends_dlab t bs t' : sends t bs t' → dlab (uart_of t') = false.
Proof. intros [-> _]. done. Qed.

Section proofs.
Context `{!Machine, !Uart}.

Lemma polled_S t n : polled t (S n) = (inb (polled t n) (COM1 + 5)).1.
Proof. revert t. induction n as [|n IH]; intros t; [done|]. apply (IH (inb t (COM1 + 5)).1). Qed.

Lemma polled_uart t n :
  uart_of (polled t n) = uart_of t ∧
  ∃ tail, polled t n = t ++ tail ∧ Forall (λ e, ∃ v, e = In (COM1 + 5) v) tail.
Proof.
  induction n as [|n [IH (tail & Heq & HF)]]; [by split; [|exists []; rewrite app_nil_r]|].
  rewrite polled_S. cbn [inb fst]. split; [by rewrite uart_of_app|].
  eexists. rewrite Heq at 1. rewrite <- app_assoc. split; [done|].
  apply Forall_app. split; [done|]. apply Forall_singleton. by eexists.
Qed.

Lemma serial_putc_returns t ch :
  dlab (uart_of t) = false → returns (serial_putc t ch) (sends t [u8 ch]).
Proof.
  intros Hd. unfold serial_putc. destruct (uart_ready t) as (n & Hn & Hset).
  set (I := λ (k : Z) t', ∃ i : nat, (i ≤ n)%nat ∧ t' = polled t i ∧ k = Z.of_nat (n - i)).
  apply returns_bind, (returns_mono _ (λ t', ∃ i : nat, t' = polled t (S i))).
  { apply (loop_rule_var I) with (k := Z.of_nat n).
    - exists O. split; [lia|split; [done|lia]].
    - lia.
    - intros k t' (i & Hi & -> & ->). cbv beta. destruct (inb (polled t i) (COM1 + 5)) as [t1 v] eqn:Hin.
      destruct (Z.eqb_spec (Z.land v 0x20) 0) as [Hz|_]; cbn [returns].
      + assert (i ≠ n). { intros ->. by rewrite Hin in Hset. }
        exists (Z.of_nat (n - S i)). split; [|lia]. exists (S i). rewrite polled_S, Hin. split; [lia|done].
      + exists i. by rewrite polled_S, Hin. }
  intros t' (i & ->). cbn [returns]. destruct (polled_uart t (S i)) as [Hu (tail & Heq & HF)]. unfold outb. split.
  - rewrite uart_of_app, Hu. cbn. by rewrite Hd.
  - exists (tail ++ [Out COM1 (u8 ch)]). rewrite Heq, app_assoc. split; [done|].
    apply Forall_app. split; [|by apply Forall_singleton].
    eapply Forall_impl; [exact HF|]. by intros e [v ->].
Qed.

Lemma serial_write_returns t s :
  dlab (uart_of t) = false → Forall (λ b, 0 ≤ b < 256) s →
  returns (serial_write t s) (sends t (crlf s)).
Proof.
  revert t. induction s as [|ch s IH]; intros t Hd Hs; [by apply sends_nil|].
  apply Forall_cons in Hs as [Hch Hs]. cbn [serial_write crlf].
  apply returns_bind. apply (returns_mono _ (sends t (if ch =? chr_nl then [chr_cr] else []))).
  { destruct (ch =? chr_nl); [by apply serial_putc_returns|by apply sends_nil]. }
  intros t1 H1. ret_step serial_putc_returns; [by eapply sends_dlab|]. intros t2 H2.
  rewrite u8_id in H2 by done. eapply returns_mono; [apply IH; [by eapply sends_dlab|done]|].
  intros t3 H3. eapply sends_app; [exact H1|]. exact (sends_app _ _ _ _ _ H2 H3).
Qed.
End proofs.

(** * A UART that is always ready *)

Module serial_demo.
#[export] Instance machine0 : Machine := {
  port_in := λ _ _, 0xFF; msr_in := λ _ _, (0xFEE00900, 0); cr2_in := λ _, 0 }.

Lemma uart0 : Uart.
Proof. split. intros t. exists O. done. Qed.
End serial_demo.
#[local] Existing Instances serial_demo.machine0 serial_demo.uart0.

(** * What the driver promises *)

(** C38. Serial output.  Whatever happened before, [serial_init] leaves the UART at
    divisor 1 (115200 baud), 8 data bits, no parity, interrupts off (unless the
    latch was left open), having transmitted nothing; from then on [serial_write] of any string returns, and the
    bytes on the line are exactly the string's with a CR before every LF. *)
Theorem serial_write_correct `{!Machine, !Uart} t0 s :
  Forall (λ b, 0 ≤ b < 256) s →
  let u := uart_of (serial_init t0) in
  u = {| dlab := false; divisor := 1; line := 3;
         ier := if dlab (uart_of t0) then ier (uart_of t0) else 0; sent := sent (uart_of t0) |} ∧
  ∃ t', serial_write (serial_init t0) s = Ok t' ∧
    sent (uart_of t') = sent (uart_of t0) ++ crlf s ∧ divisor (uart_of t') = 1 ∧ line (uart_of t') = 3.
Proof.
  intros Hs u. assert (u = {| dlab := false; divisor := 1; line := 3;
    ier := if dlab (uart_of t0) then ier (uart_of t0) else 0; sent := sent (uart_of t0) |}) as Hu by apply serial_init_uart.
  split; [done|]. destruct (returns_inv _ _ (serial_write_returns (serial_init t0) s ltac:(by fold u; rewrite Hu) Hs))
    as (t' & Hrun & H' & _).
  exists t'. split; [done|]. rewrite H'. cbn. fold u. by rewrite Hu.
Qed.

Lemma serial_write_correct_witness :
  ∃ t', serial_write (serial_init []) (c "ok") = Ok t' ∧ sent (uart_of t') = [111; 107].
Proof.
  assert (Forall (λ b, 0 ≤ b < 256) (c "ok")) as Hs by (repeat constructor; lia).
  destruct (serial_write_correct [] (c "ok") Hs) as (_ & t' & Hrun & Hsent & _).
  exists t'. split; [exact Hrun|exact Hsent].
Defined.
