(* ===== verification/Pic.v ===== *)
(** kernel/arch/x86_64/pic.c: the two 8259A interrupt controllers.

    [pics] replays a trace the way the pair of chips takes it in: a command with
    bit 4 starts the initialisation sequence, the data port then takes the
    initialisation words in order and is the mask register from then on, and the
    non-specific end of interrupt clears the highest-priority line in service. *)

From stdpp Require Import base list gmap sets.
From Stdlib Require Import ZArith Lia.
From S2P Require Import Prelude.
From S2P Require Import Io.

Implicit Types (t : io) (irq : Z).

(** * The driver *)

Definition PIC1_CMD : Z := 0x20.
Definition PIC1_DATA : Z := 0x21.
Definition PIC2_CMD : Z := 0xA0.
Definition PIC2_DATA : Z := 0xA1.
Definition ICW1_INIT : Z := 0x10.
Definition ICW1_ICW4 : Z := 0x01.
Definition ICW4_8086 : Z := 0x01.
Definition PIC_EOI : Z := 0x20.

Definition pic_remap t : io :=
  let t := io_wait (outb t PIC1_CMD (Z.lor ICW1_INIT ICW1_ICW4)) in
  let t := io_wait (outb t PIC2_CMD (Z.lor ICW1_INIT ICW1_ICW4)) in
  let t := io_wait (outb t PIC1_DATA 0x20) in
  let t := io_wait (outb t PIC2_DATA 0x28) in
  let t := io_wait (outb t PIC1_DATA 0x04) in
  let t := io_wait (outb t PIC2_DATA 0x02) in
  let t := io_wait (outb t PIC1_DATA ICW4_8086) in
  let t := io_wait (outb t PIC2_DATA ICW4_8086) in
  let t := outb t PIC1_DATA 0xFF in
  outb t PIC2_DATA 0xFF.

Definition pic_send_eoi t irq : io :=
  let t := if 8 <=? irq then outb t PIC2_CMD PIC_EOI else t in
  outb t PIC1_CMD PIC_EOI.

(** [1u << irq] is undefined from 32 on. *)
Definition pic_unmask_irq `{!Machine} t irq : outcome io :=
  let '(port, irq) := if irq <? 8 then (PIC1_DATA, irq) else (PIC2_DATA, u8 (irq - 8)) in
  let '(t, v) := inb t port in
  if 32 <=? irq then Fault else
  let mask := u8 (Z.land v (Z.lnot (u8 (u32 (Z.shiftl 1 irq))))) in
  Ok (outb t port mask).

(** * The chips *)

(** What a chip's data port takes next. *)
Inductive icw := Icw2 (with_icw4 : bool) | Icw3 (with_icw4 : bool) | Icw4 | Operational.

Record i8259 := {
  expects : icw;
  vector_base : Z;    (* ICW2, the low three bits replaced by the line *)
  wiring : Z;         (* ICW3 *)
  mode : Z;           (* ICW4 *)
  imr : Z;            (* mask register: a set bit holds the line back *)
  in_service : Z;     (* in-service register *)
}.

(** Clears the least set bit: line 0 has the highest priority. *)
Definition clear_highest (s : Z) : Z := Z.land s (s - 1).

Definition command (p : i8259) (v : Z) : i8259 :=
  if Z.testbit v 4 then
    {| expects := Icw2 (Z.testbit v 0); vector_base := vector_base p; wiring := wiring p;
       mode := 0; imr := 0; in_service := 0 |}
  else if Z.land v 0xF8 =? 0x20 then
    {| expects := expects p; vector_base := vector_base p; wiring := wiring p; mode := mode p;
       imr := imr p; in_service := clear_highest (in_service p) |}
  else p.

Definition data (p : i8259) (v : Z) : i8259 :=
  match expects p with
  | Icw2 b => {| expects := Icw3 b; vector_base := Z.land v 0xF8; wiring := wiring p;
                 mode := mode p; imr := imr p; in_service := in_service p |}
  | Icw3 b => {| expects := if b then Icw4 else Operational; vector_base := vector_base p;
                 wiring := v; mode := mode p; imr := imr p; in_service := in_service p |}
  | Icw4 => {| expects := Operational; vector_base := vector_base p; wiring := wiring p;
               mode := v; imr := imr p; in_service := in_service p |}
  | Operational => {| expects := Operational; vector_base := vector_base p; wiring := wiring p;
                      mode := mode p; imr := v; in_service := in_service p |}
  end.

(** The master and the slave. *)
Abbreviation pics := (i8259 * i8259)%type.

(** The interrupt acknowledge cycle marks the line in service, on both chips for a
    line of the slave. *)
Definition serve (p : i8259) irq : i8259 :=
  {| expects := expects p; vector_base := vector_base p; wiring := wiring p; mode := mode p;
     imr := imr p; in_service := Z.setbit (in_service p) irq |}.

Definition acknowledge (p : pics) irq : pics :=
  if irq <? 8 then (serve p.1 irq, p.2) else (serve p.1 2, serve p.2 (irq - 8)).

Definition pic_step (p : pics) (e : event) : pics :=
  match e with
  | Out port v =>
      if port =? PIC1_CMD then (command p.1 v, p.2)
      else if port =? PIC1_DATA then (data p.1 v, p.2)
      else if port =? PIC2_CMD then (p.1, command p.2 v)
      else if port =? PIC2_DATA then (p.1, data p.2 v)
      else p
  | Inta irq => acknowledge p irq
  | _ => p
  end.

Definition pic_reset : pics :=
  let p := {| expects := Operational; vector_base := 8; wiring := 4; mode := 1; imr := 0; in_service := 0 |} in
  (p, p).

Definition pic_of t : pics := foldl pic_step pic_reset t.

Lemma pic_of_app t1 t2 : pic_of (t1 ++ t2) = foldl pic_step (pic_of t1) t2.
Proof. apply foldl_app. Qed.

(** [line_open p irq]: nothing between the device of line [irq] and the CPU holds
    it back; lines 8 to 15 come through line 2 of the master. *)
Definition line_open (p : pics) irq : bool :=
  if irq <? 8 then negb (Z.testbit (imr p.1) irq)
  else negb (Z.testbit (imr p.2) (irq - 8)) && negb (Z.testbit (imr p.1) 2).

(** The vector the CPU is given for a line. *)
Definition line_vector (p : pics) irq : Z :=
  if irq <? 8 then vector_base p.1 + irq else vector_base p.2 + (irq - 8).

(** ** After [pic_remap] *)

Definition remapped (masks : Z * Z) : pics :=
  ({| expects := Operational; vector_base := 0x20; wiring := 4; mode := 1; imr := masks.1; in_service := 0 |},
   {| expects := Operational; vector_base := 0x28; wiring := 2; mode := 1; imr := masks.2; in_service := 0 |}).

Lemma pic_remap_state t : pic_of (pic_remap t) = remapped (0xFF, 0xFF).
Proof.
  unfold pic_remap, io_wait, outb. rewrite !pic_of_app. by destruct (pic_of t).
Qed.

(** Events no controller listens to. *)
Definition pic_silent (e : event) : Prop :=
  match e with Out port _ => port ∉ [PIC1_CMD; PIC1_DATA; PIC2_CMD; PIC2_DATA] | Inta _ => False | _ => True end.

Lemma pic_silent_step p e : pic_silent e → pic_step p e = p.
Proof.
  destruct e as [| port v | | | | | | | | |]; try done. cbn [pic_silent pic_step]. rewrite !not_elem_of_cons.
  intros (H1 & H2 & H3 & H4 & _). by rewrite !(proj2 (Z.eqb_neq _ _)) by done.
Qed.

Lemma pic_silent_steps p tail : Forall pic_silent tail → foldl pic_step p tail = p.
Proof.
  intros HF. revert p. induction HF as [|e tail He _ IH]; intros p; [done|].
  cbn [foldl]. by rewrite pic_silent_step.
Qed.

(** ** End of interrupt *)

(** With nothing else in service, the end of interrupt undoes the acknowledge
    cycle: the controllers are as before the interrupt. *)
Lemma eoi_undoes p irq :
  0 ≤ irq < 16 → in_service p.1 = 0 → in_service p.2 = 0 →
  foldl pic_step (acknowledge p irq) (pic_send_eoi [] irq) = p.
Proof.
  intros Hirq H1 H2. destruct p as [[e1 b1 w1 m1 i1 s1] [e2 b2 w2 m2 i2 s2]]. cbn in H1, H2. subst.
  assert (∀ v, 0 ≤ v < 8 → clear_highest (Z.setbit 0 v) = 0) as Hclear.
  { intros v Hv. assert (v = 0 ∨ v = 1 ∨ v = 2 ∨ v = 3 ∨ v = 4 ∨ v = 5 ∨ v = 6 ∨ v = 7)
      as [->|[->|[->|[->|[->|[->|[->| ->]]]]]]] by lia; done. }
  unfold pic_send_eoi, acknowledge, outb. destruct (Z.ltb_spec irq 8).
  - rewrite (proj2 (Z.leb_gt 8 irq)) by lia.
    cbn -[clear_highest Z.setbit]. unfold serve, command. cbn -[clear_highest Z.setbit]. by rewrite Hclear by lia.
  - rewrite (proj2 (Z.leb_le 8 irq)) by lia.
    cbn -[clear_highest Z.setbit Z.sub]. unfold serve, command. cbn -[clear_highest Z.setbit Z.sub]. by rewrite !Hclear by lia.
Qed.

Lemma pic_send_eoi_app t irq : pic_send_eoi t irq = t ++ pic_send_eoi [] irq.
Proof. unfold pic_send_eoi, outb. by destruct (8 <=? irq); rewrite ?app_nil_l, <- ?app_assoc. Qed.

(** ** The mask register *)

(** An operational controller's data port reads its mask register back. *)
Class Pic `{!Machine} : Prop := {
  pic_imr1 t : expects (pic_of t).1 = Operational → port_in t PIC1_DATA = imr (pic_of t).1;
  pic_imr2 t : expects (pic_of t).2 = Operational → port_in t PIC2_DATA = imr (pic_of t).2;
}.

(** Opens line [irq] in a pair of masks. *)
Definition open_line (masks : Z * Z) irq : Z * Z :=
  if irq <? 8 then (Z.clearbit masks.1 irq, masks.2) else (masks.1, Z.clearbit masks.2 (irq - 8)).

Section unmask.
Context `{!Machine, !Pic}.

Lemma clearbit_range v irq : 0 ≤ irq → 0 ≤ v < 256 → 0 ≤ Z.clearbit v irq < 256.
Proof.
  intros Hirq Hv. assert (Z.clearbit v irq = Z.clearbit v irq mod 2 ^ 8) as ->; [|apply Z.mod_pos_bound; lia].
  apply Z.bits_inj'. intros n Hn. destruct (decide (n < 8)).
  - by rewrite Z.mod_pow2_bits_low by lia.
  - rewrite Z.mod_pow2_bits_high, Z.clearbit_eqb by lia. rewrite <- (Z.mod_small v (2 ^ 8)) by lia.
    by rewrite Z.mod_pow2_bits_high by lia.
Qed.

Lemma mask_clear v irq : 0 ≤ v < 256 → 0 ≤ irq < 8 →
  u8 (Z.land v (Z.lnot (u8 (u32 (Z.shiftl 1 irq))))) = Z.clearbit v irq.
Proof.
  intros Hv Hirq. pose proof (clearbit_range v irq ltac:(lia) Hv) as Hr. rewrite Z.clearbit_spec' in *.
  rewrite Z.shiftl_1_l. assert (2 ^ irq < 2 ^ 8) by (apply Z.pow_lt_mono_r; lia). pose proof (pow2_pos irq ltac:(lia)).
  rewrite (u32_id (2 ^ irq)), (u8_id (2 ^ irq)) by lia. rewrite <- Z.ldiff_land. by apply u8_id.
Qed.

Lemma pic_unmask_returns t masks irq :
  0 ≤ irq < 16 → 0 ≤ masks.1 < 256 → 0 ≤ masks.2 < 256 → pic_of t = remapped masks →
  returns (pic_unmask_irq t irq) (λ t', pic_of t' = remapped (open_line masks irq) ∧
    ∃ port v w, t' = t ++ [In port v; Out port w] ∧ port ∈ [PIC1_DATA; PIC2_DATA]).
Proof.
  intros Hirq Hm1 Hm2 Hp. unfold pic_unmask_irq, open_line. destruct (Z.ltb_spec irq 8).
  - unfold inb. cbv zeta beta iota. rewrite pic_imr1, Hp by by rewrite Hp. cbn [remapped fst imr].
    rewrite (proj2 (Z.leb_gt 32 irq)), (u8_id masks.1) by lia. rewrite mask_clear by lia. cbn [returns]. unfold outb.
    rewrite u8_id by (apply clearbit_range; lia). split.
    + by rewrite !pic_of_app, Hp.
    + eexists _, _, _. rewrite <- app_assoc. split; [done|set_solver].
  - unfold inb. rewrite (u8_id (irq - 8)) by lia. cbv zeta beta iota. rewrite pic_imr2, Hp by by rewrite Hp. cbn [remapped snd imr].
    rewrite (proj2 (Z.leb_gt 32 (irq - 8))), (u8_id masks.2) by lia. rewrite mask_clear by lia. cbn [returns]. unfold outb.
    rewrite u8_id by (apply clearbit_range; lia). split.
    + by rewrite !pic_of_app, Hp.
    + eexists _, _, _. rewrite <- app_assoc. split; [done|set_solver].
Qed.
End unmask.
