(* ===== verification/Arch.v ===== *)
(** kernel/arch/x86_64/gdt.c, idt.c, irq.c, arch.c and the table setup of isr.c:
    bringing the CPU up, and dispatching hardware interrupts.

    [cpu_of] replays a trace into the registers that say where the CPU finds its
    tables; [decode_gate] and [decode_segment] read table entries as the CPU does.
    The stub tables of isr_stubs.asm and the addresses the linker gives the two
    tables are the parameter [ArchText]. *)

From stdpp Require Import base list gmap sets.
From Stdlib Require Import ZArith Lia.
From S2P Require Import Prelude.
From S2P Require Import Io.
From S2P Require Import Serial.
From S2P Require Import Pic.

#[local] Coercion Z.of_nat : nat >-> Z.
#[local] Abbreviation length := Datatypes.length.
Implicit Types (t : io) (irq : Z).

(** * The code *)

Definition GDT_KERNEL_CODE_SELECTOR : Z := 0x08.
Definition GDT_KERNEL_DATA_SELECTOR : Z := 0x10.
Definition IDT_GATE_INTERRUPT : Z := 0x8E.
Definition IA32_APIC_BASE : Z := 0x1B.
Definition APIC_BASE_ENABLE : Z := Z.shiftl 1 11.
Definition IRQ_COUNT : Z := 16.
Definition IRQ_VECTOR_BASE : Z := 32.

Record idt_entry := {
  offset_low : Z; selector : Z; ist : Z; type_attr : Z; offset_mid : Z; offset_high : Z; zero : Z }.

(** The static tables of the layer; [handlers] holds what [H] has for a function
    pointer, [None] for NULL. *)
Record arch {H : Type} := {
  gdt : list Z;
  idt : list idt_entry;
  handlers : list (option H);
}.
Arguments arch H : clear implicits.

(** What the assembler and the linker provide. *)
Class ArchText := {
  gdt_addr : Z;
  idt_addr : Z;
  isr_stub_table : list Z;
  irq_stub_table : list Z;
  isr_stubs : length isr_stub_table = 32%nat;
  irq_stubs : length irq_stub_table = 16%nat;
  stubs_addr : Forall (λ x, 0 ≤ x < 2 ^ 64) (isr_stub_table ++ irq_stub_table);
}.

Section code.
Context {H : Type} `{!Machine, !ArchText}.
Implicit Types (a : arch H).

Definition gdt_descriptor (access flags : Z) : Z :=
  let desc := 0 in
  let desc := Z.lor desc 0xFFFF in
  let desc := Z.lor desc (u64 (Z.shiftl access 40)) in
  let desc := Z.lor desc (Z.shiftl 0xF 48) in
  Z.lor desc (u64 (Z.shiftl (Z.land flags 0xF) 52)).

Definition gdt_load t (limit base : Z) (table : list Z) : io :=
  t ++ [Lgdt limit base table; Lseg GDT_KERNEL_CODE_SELECTOR GDT_KERNEL_DATA_SELECTOR].

Definition gdt_init a t : arch H * io :=
  let table := [0; gdt_descriptor 0x9A 0xA; gdt_descriptor 0x92 0xA] in
  ({| gdt := table; idt := idt a; handlers := handlers a |},
   gdt_load t (u16 (8 * Z.of_nat (length table) - 1)) gdt_addr table).

Definition set_idt a (table : list idt_entry) : arch H :=
  {| gdt := gdt a; idt := table; handlers := handlers a |}.

Definition gate_entry (addr flags : Z) : idt_entry := {|
  offset_low := u16 (Z.land addr 0xFFFF); selector := GDT_KERNEL_CODE_SELECTOR; ist := 0;
  type_attr := flags; offset_mid := u16 (Z.land (Z.shiftr addr 16) 0xFFFF);
  offset_high := u32 (Z.shiftr addr 32); zero := 0 |}.

Definition idt_set_gate a (vector handler flags : Z) : outcome (arch H) :=
  table ← arr_set (idt a) vector (gate_entry handler flags);
  Ok (set_idt a table).

(** [sizeof(idt)] is 256 entries of 16 bytes. *)
Definition idt_init t : io := t ++ [Lidt (u16 (16 * 256 - 1)) idt_addr].

Definition isr_init a : outcome (arch H) :=
  for_each 0 32 (λ v a,
    stub ← arr_get isr_stub_table v;
    idt_set_gate a v stub IDT_GATE_INTERRUPT) a.

Definition irq_init a : outcome (arch H) :=
  for_each 0 IRQ_COUNT (λ i a,
    stub ← arr_get irq_stub_table i;
    idt_set_gate a (u8 (IRQ_VECTOR_BASE + i)) stub IDT_GATE_INTERRUPT) a.

Definition irq_install_handler a irq (h : H) : outcome (arch H) :=
  if irq <? IRQ_COUNT then
    hs ← arr_set (handlers a) irq (Some h);
    Ok {| gdt := gdt a; idt := idt a; handlers := hs |}
  else Ok a.

Definition lapic_disable t : io :=
  let '(lo, hi) := msr_in t IA32_APIC_BASE in
  let lo := Z.land lo (u32 (Z.lnot APIC_BASE_ENABLE)) in
  t ++ [Wrmsr IA32_APIC_BASE lo hi].

Definition arch_init a t : outcome (arch H * io) :=
  let '(a, t) := gdt_init a t in
  let t := idt_init t in
  a ← isr_init a;
  let t := lapic_disable t in
  let t := pic_remap t in
  a ← irq_init a;
  Ok (a, t).

Definition arch_enable_irqs t : outcome io :=
  t ← pic_unmask_irq t 0;
  t ← pic_unmask_irq t 1;
  Ok (t ++ [Sti]).

(** [run h] is the call of the function [h] points to, on the rest of the kernel's
    state. *)
Definition irq_dispatch {K : Type} (run : H → K → io → outcome (K * io)) a (k : K) t (vector : Z)
  : outcome (K * io) :=
  let irq := u8 (vector - IRQ_VECTOR_BASE) in
  '(k, t) ← (if irq <? IRQ_COUNT then
               h ← arr_get (handlers a) irq;
               match h with Some h => run h k t | None => Ok (k, t) end
             else Ok (k, t));
  Ok (k, pic_send_eoi t irq).
End code.

(** * What the CPU reads *)

Definition field (w lo n : Z) : Z := Z.shiftr w lo mod 2 ^ n.

(** A gate as a 128-bit little-endian word. *)
Definition entry_word (e : idt_entry) : Z :=
  offset_low e + 2 ^ 16 * selector e + 2 ^ 32 * ist e + 2 ^ 40 * type_attr e +
  2 ^ 48 * offset_mid e + 2 ^ 64 * offset_high e + 2 ^ 96 * zero e.

Record gate := { g_offset : Z; g_selector : Z; g_ist : Z; g_type : Z; g_dpl : Z }.

(** [None]: not present. *)
Definition decode_gate (w : Z) : option gate :=
  if Z.testbit w 47 then
    Some {| g_offset := field w 0 16 + 2 ^ 16 * field w 48 16 + 2 ^ 32 * field w 64 32;
            g_selector := field w 16 16; g_ist := field w 32 3;
            g_type := field w 40 4; g_dpl := field w 45 2 |}
  else None.

(** A 64-bit interrupt gate of ring 0. *)
Definition interrupt_gate (addr : Z) : gate :=
  {| g_offset := addr; g_selector := GDT_KERNEL_CODE_SELECTOR; g_ist := 0; g_type := 0xE; g_dpl := 0 |}.

Record segment := { s_code : bool; s_long : bool; s_dpl : Z; s_rw : bool }.

Definition decode_segment (d : Z) : option segment :=
  if Z.testbit d 47 && Z.testbit d 44 then
    Some {| s_code := Z.testbit d 43; s_long := Z.testbit d 53; s_dpl := field d 45 2; s_rw := Z.testbit d 41 |}
  else None.

(** The registers that say where the tables are, and the interrupt flag. *)
Record cpu_regs := {
  gdtr : option (Z * Z * list Z);
  idtr : option (Z * Z);
  cs : Z;
  ds : Z;
  apic_base : option (Z * Z);
  iflag : bool;
}.

Definition with_iflag (c : cpu_regs) (b : bool) : cpu_regs :=
  {| gdtr := gdtr c; idtr := idtr c; cs := cs c; ds := ds c; apic_base := apic_base c; iflag := b |}.

Definition cpu_step (c : cpu_regs) (e : event) : cpu_regs :=
  match e with
  | Lgdt limit base table => {| gdtr := Some (limit, base, table); idtr := idtr c; cs := cs c; ds := ds c;
                                apic_base := apic_base c; iflag := iflag c |}
  | Lseg c1 d1 => {| gdtr := gdtr c; idtr := idtr c; cs := c1; ds := d1;
                     apic_base := apic_base c; iflag := iflag c |}
  | Lidt limit base => {| gdtr := gdtr c; idtr := Some (limit, base); cs := cs c; ds := ds c;
                          apic_base := apic_base c; iflag := iflag c |}
  | Wrmsr msr lo hi => if msr =? IA32_APIC_BASE
      then {| gdtr := gdtr c; idtr := idtr c; cs := cs c; ds := ds c; apic_base := Some (lo, hi); iflag := iflag c |}
      else c
  | Cli | Inta _ => with_iflag c false
  | Sti | Iret => with_iflag c true
  | _ => c
  end.

(** Interrupts are off when the boot loader hands over. *)
Definition cpu_reset : cpu_regs :=
  {| gdtr := None; idtr := None; cs := 0; ds := 0; apic_base := None; iflag := false |}.

Definition cpu_of t : cpu_regs := foldl cpu_step cpu_reset t.

Lemma cpu_of_app t1 t2 : cpu_of (t1 ++ t2) = foldl cpu_step (cpu_of t1) t2.
Proof. apply foldl_app. Qed.

(** Device traffic does not concern the CPU's registers. *)
Definition port_only (e : event) : Prop := match e with In _ _ | Out _ _ => True | _ => False end.

Lemma port_only_steps c tail : Forall port_only tail → foldl cpu_step c tail = c.
Proof. intros HF. revert c. induction HF as [|e tail He _ IH]; intros c; [done|]. destruct e; try done; apply IH. Qed.

(** [has_tail t P t']: [t'] is [t] and then events of [P]. *)
Definition has_tail (P : event → Prop) t t' : Prop := ∃ tail, t' = t ++ tail ∧ Forall P tail.

Lemma has_tail_refl P t : has_tail P t t.
Proof. exists []. by rewrite app_nil_r. Qed.

Lemma has_tail_trans P t1 t2 t3 : has_tail P t1 t2 → has_tail P t2 t3 → has_tail P t1 t3.
Proof.
  intros (l1 & -> & H1) (l2 & -> & H2). exists (l1 ++ l2). rewrite app_assoc.
  split; [done|]. by apply Forall_app.
Qed.

Lemma has_tail_mono (P Q : event → Prop) t t' : (∀ e, P e → Q e) → has_tail P t t' → has_tail Q t t'.
Proof. intros HPQ (l & -> & HF). exists l. split; [done|]. by eapply Forall_impl. Qed.

Lemma has_tail_snoc (P : event → Prop) t t' e : P e → has_tail P t t' → has_tail P t (t' ++ [e]).
Proof. intros He Ht. eapply has_tail_trans; [exact Ht|]. exists [e]. split; [done|]. by apply Forall_singleton. Qed.

(** Traffic on the serial port. *)
Definition serial_event (e : event) : Prop :=
  match e with In p _ => p = COM1 + 5 | Out p _ => p = COM1 | _ => False end.

Lemma serial_event_silent e : serial_event e → port_only e ∧ pic_silent e.
Proof.
  destruct e as [p v|p v| | | | | | | | |]; cbn; try done. intros ->. split; [done|].
  apply (bool_decide_unpack _). by vm_compute.
Qed.

Lemma has_tail_cpu t t' : has_tail port_only t t' → cpu_of t' = cpu_of t.
Proof. intros (l & -> & HF). rewrite cpu_of_app. by apply port_only_steps. Qed.

Lemma has_tail_pic t t' : has_tail pic_silent t t' → pic_of t' = pic_of t.
Proof. intros (l & -> & HF). rewrite pic_of_app. by apply pic_silent_steps. Qed.

Lemma has_tail_uart t t' : has_tail uart_silent t t' → uart_of t' = uart_of t.
Proof. intros (l & -> & HF). rewrite uart_of_app. by apply uart_silent_steps. Qed.

(** * Lemmas *)

(** ** Gates *)

Lemma gate_entry_decodes addr : 0 ≤ addr < 2 ^ 64 →
  decode_gate (entry_word (gate_entry addr IDT_GATE_INTERRUPT)) = Some (interrupt_gate addr).
Proof.
  intros Ha. unfold gate_entry, entry_word. cbn [offset_low selector ist type_attr offset_mid offset_high zero].
  change 0xFFFF with (Z.ones 16). rewrite !Z.land_ones, !Z.shiftr_div_pow2 by lia.
  unfold u16, u32. rewrite !Z.mod_mod by lia. change GDT_KERNEL_CODE_SELECTOR with 8. change IDT_GATE_INTERRUPT with 142.
  rewrite !Z.mul_0_r, !Z.add_0_r.
  set (lo := addr mod 2 ^ 16). set (mid := (addr / 2 ^ 16) mod 2 ^ 16). set (hi := (addr / 2 ^ 32) mod 2 ^ 32).
  assert (addr = lo + 2 ^ 16 * mid + 2 ^ 32 * hi) as Haddr by (subst lo mid hi; div_lia).
  assert (0 ≤ lo < 2 ^ 16) by (apply Z.mod_pos_bound; lia).
  assert (0 ≤ mid < 2 ^ 16) by (apply Z.mod_pos_bound; lia).
  assert (0 ≤ hi < 2 ^ 32) by (apply Z.mod_pos_bound; lia).
  clearbody lo mid hi. subst addr.
  set (w := lo + 2 ^ 16 * 8 + 2 ^ 40 * 142 + 2 ^ 48 * mid + 2 ^ 64 * hi).
  assert (∀ q n r, 0 ≤ q → 0 ≤ n → 0 ≤ r < 2 ^ q → ∀ v, w = r + 2 ^ q * v → field w q n = v mod 2 ^ n) as Hf.
  { intros q n r Hq Hn Hr v ->. unfold field. rewrite Z.shiftr_div_pow2 by lia. f_equal.
    rewrite (Z.mul_comm (2 ^ q)), Z.div_add, Z.div_small by lia. lia. }
  assert (Z.testbit w 47 = true) as Hp.
  { apply Z.testbit_true; [lia|]. subst w. clear Hf. div_lia. }
  unfold decode_gate. rewrite Hp. unfold interrupt_gate.
  rewrite (Hf 0 16 0 ltac:(lia) ltac:(lia) ltac:(lia) w ltac:(lia)).
  rewrite (Hf 48 16 (lo + 2 ^ 16 * 8 + 2 ^ 40 * 142) ltac:(lia) ltac:(lia) ltac:(lia) (mid + 2 ^ 16 * hi) ltac:(subst w; lia)).
  rewrite (Hf 64 32 (lo + 2 ^ 16 * 8 + 2 ^ 40 * 142 + 2 ^ 48 * mid) ltac:(lia) ltac:(lia) ltac:(lia) hi ltac:(subst w; lia)).
  rewrite (Hf 16 16 lo ltac:(lia) ltac:(lia) ltac:(lia) (8 + 2 ^ 24 * 142 + 2 ^ 32 * mid + 2 ^ 48 * hi) ltac:(subst w; lia)).
  rewrite (Hf 32 3 (lo + 2 ^ 16 * 8) ltac:(lia) ltac:(lia) ltac:(lia) (2 ^ 8 * 142 + 2 ^ 16 * mid + 2 ^ 32 * hi) ltac:(subst w; lia)).
  rewrite (Hf 40 4 (lo + 2 ^ 16 * 8) ltac:(lia) ltac:(lia) ltac:(lia) (142 + 2 ^ 8 * mid + 2 ^ 24 * hi) ltac:(subst w; lia)).
  rewrite (Hf 45 2 (lo + 2 ^ 16 * 8 + 2 ^ 40 * 14) ltac:(lia) ltac:(lia) ltac:(lia) (4 + 2 ^ 3 * mid + 2 ^ 19 * hi) ltac:(subst w; lia)).
  clear Hf Hp. subst w. f_equal. f_equal; [div_lia|change GDT_KERNEL_CODE_SELECTOR with 8; div_lia|div_lia..].
Qed.

Definition zero_entry : idt_entry := {|
  offset_low := 0; selector := 0; ist := 0; type_attr := 0; offset_mid := 0; offset_high := 0; zero := 0 |}.

(** ** The table *)

(** The stub vector [v] is meant for. *)
Definition stub_of `{!ArchText} (v : nat) : option Z :=
  if decide (v < 32)%nat then isr_stub_table !! v else irq_stub_table !! (v - 32)%nat.

Section proofs.
Context {H : Type} `{!Machine, !ArchText}.
Implicit Types (a : arch H).

(** [a'] is [a] with the gates of the vectors in [lo, hi) set to their stubs. *)
Definition gates_set a (lo hi : Z) a' : Prop :=
  gdt a' = gdt a ∧ handlers a' = handlers a ∧ length (idt a') = length (idt a) ∧
  ∀ v : nat, (v < length (idt a))%nat → idt a' !! v =
    if decide (lo ≤ Z.of_nat v < hi) then (λ x, gate_entry x IDT_GATE_INTERRUPT) <$> stub_of v else idt a !! v.

Lemma gates_set_none a lo : gates_set a lo lo a.
Proof. do 3 (split; [done|]). intros v _. by rewrite decide_False by lia. Qed.

Lemma gates_set_one a a' lo (v : nat) stub :
  lo ≤ v → (v < length (idt a))%nat → stub_of v = Some stub → gates_set a lo v a' →
  returns (idt_set_gate a' v stub IDT_GATE_INTERRUPT) (gates_set a lo (v + 1)).
Proof.
  intros Hlo Hv Hstub (Hg & Hh & Hlen & Hall). unfold idt_set_gate.
  rewrite arr_set_lt by lia. cbn [mbind outcome_bind returns set_idt]. split; [done|split; [done|split]].
  - cbn. by rewrite length_insert.
  - intros w Hw. cbn [idt set_idt]. destruct (decide (w = v)) as [->|Hne].
    + rewrite list_lookup_insert_eq by lia. rewrite decide_True by lia. by rewrite Hstub.
    + rewrite list_lookup_insert_ne by done. rewrite Hall by done. do 2 case_decide; lia || done.
Qed.

Lemma isr_init_returns a : length (idt a) = 256%nat → returns (isr_init a) (gates_set a 0 32).
Proof.
  intros Hlen. apply (for_each_rule (λ i, gates_set a 0 i)); [lia|lia|apply gates_set_none|].
  intros i a' Hi Ha'. cbv beta. destruct (lookup_lt_is_Some_2 isr_stub_table (Z.to_nat i)) as [x Hx].
  { rewrite isr_stubs. lia. }
  replace i with (Z.of_nat (Z.to_nat i)) in Ha' |- * by lia. rewrite (arr_get_Some _ _ _ Hx). cbn [mbind outcome_bind].
  apply gates_set_one; [lia|lia| |done]. unfold stub_of. by rewrite decide_True by lia.
Qed.

Lemma irq_init_returns a : length (idt a) = 256%nat → returns (irq_init a) (gates_set a 32 48).
Proof.
  intros Hlen. apply (for_each_rule (λ i, gates_set a 32 (32 + i))); [unfold IRQ_COUNT; lia..|apply gates_set_none|].
  intros i a' Hi Ha'. change IRQ_COUNT with 16 in Hi. cbv beta.
  destruct (lookup_lt_is_Some_2 irq_stub_table (Z.to_nat i)) as [x Hx].
  { rewrite irq_stubs. lia. }
  rewrite <- (Z2Nat.id i) at 1 by lia. rewrite (arr_get_Some _ _ _ Hx). cbn [mbind outcome_bind].
  change IRQ_VECTOR_BASE with 32. rewrite u8_id by lia.
  assert (∃ v : nat, 32 + i = v) as [v Hv] by (exists (Z.to_nat (32 + i)); lia).
  replace (32 + (i + 1)) with (v + 1) by lia. rewrite Hv in *.
  apply gates_set_one; [lia|lia| |done]. unfold stub_of. rewrite decide_False by lia.
  by replace (v - 32)%nat with (Z.to_nat i) by lia.
Qed.

(** Vector [v] of the table leads to its stub, or is not present. *)
Definition vectors_ok a : Prop := ∀ v : nat, (v < 256)%nat → ∃ e, idt a !! v = Some e ∧
  decode_gate (entry_word e) = if decide (v < 48)%nat then interrupt_gate <$> stub_of v else None.

Lemma stub_addr v x : stub_of v = Some x → 0 ≤ x < 2 ^ 64.
Proof.
  pose proof stubs_addr as HF. apply Forall_app in HF as [HF1 HF2]. unfold stub_of. case_decide; intros Hx.
  - by eapply Forall_lookup_1 in HF1.
  - by eapply Forall_lookup_1 in HF2.
Qed.

Lemma gates_vectors_ok a a1 a2 :
  idt a = replicate 256 zero_entry → gates_set a 0 32 a1 → gates_set a1 32 48 a2 → vectors_ok a2.
Proof.
  intros Hz (_ & _ & Hl1 & G1) (_ & _ & Hl2 & G2) v Hv.
  assert (length (idt a) = 256%nat) as Hl by (rewrite Hz; apply length_replicate).
  rewrite G2 by lia. rewrite G1 by lia.
  destruct (decide (v < 48)%nat).
  - assert (is_Some (stub_of v)) as [x Hx].
    { unfold stub_of. case_decide; apply lookup_lt_is_Some_2; [rewrite isr_stubs|rewrite irq_stubs]; lia. }
    exists (gate_entry x IDT_GATE_INTERRUPT). rewrite Hx. split; [case_decide; [done|case_decide; [done|lia]]|].
    by apply gate_entry_decodes, (stub_addr v).
  - exists zero_entry. rewrite !decide_False by lia. split; [|done]. rewrite Hz. by apply lookup_replicate.
Qed.

(** ** The whole bring-up *)

(** What [arch_init] leaves behind: the CPU on the kernel's own tables, the local
    APIC off, the controllers remapped to vectors 32 to 47 and masked. *)
Record arch_up (iflag0 : bool) a t : Prop := {
  up_vectors : vectors_ok a;
  up_idt : idtr (cpu_of t) = Some (4095, idt_addr);
  up_gdt : gdtr (cpu_of t) = Some (23, gdt_addr, gdt a);
  up_cs : cs (cpu_of t) = GDT_KERNEL_CODE_SELECTOR;
  up_ds : ds (cpu_of t) = GDT_KERNEL_DATA_SELECTOR;
  up_null : gdt a !! 0%nat = Some 0;
  up_code : decode_segment <$> gdt a !! 1%nat =
    Some (Some {| s_code := true; s_long := true; s_dpl := 0; s_rw := true |});
  up_data : decode_segment <$> gdt a !! 2%nat =
    Some (Some {| s_code := false; s_long := true; s_dpl := 0; s_rw := true |});
  up_apic : ∃ lo hi, apic_base (cpu_of t) = Some (lo, hi) ∧ Z.testbit lo 11 = false;
  up_iflag : iflag (cpu_of t) = iflag0;
}.

Lemma lapic_off lo : Z.testbit (Z.land lo (u32 (Z.lnot APIC_BASE_ENABLE))) 11 = false.
Proof. rewrite Z.land_spec. change (Z.testbit (u32 (Z.lnot APIC_BASE_ENABLE)) 11) with false. apply andb_false_r. Qed.

Lemma pic_remap_tail t : has_tail (λ e, port_only e ∧ uart_silent e) t (pic_remap t).
Proof.
  unfold pic_remap, io_wait, outb.
  repeat (apply has_tail_snoc; [split; [done|left; by vm_compute]|]). apply has_tail_refl.
Qed.

Lemma arch_init_returns a t :
  idt a = replicate 256 zero_entry →
  returns (arch_init a t) (λ '(a', t'), arch_up (iflag (cpu_of t)) a' t' ∧ handlers a' = handlers a ∧
    pic_of t' = remapped (0xFF, 0xFF) ∧ uart_of t' = uart_of t).
Proof.
  intros Hz. unfold arch_init. destruct (gdt_init a t) as [a0 t0] eqn:Hg. injection Hg as Ha0 Ht0. cbv zeta.
  assert (idt a0 = replicate 256 zero_entry) as Hz0 by by subst a0.
  assert (length (idt a0) = 256%nat) as Hl0 by (rewrite Hz0; apply length_replicate).
  ret_step isr_init_returns; [done|]. intros a1 G1.
  ret_step irq_init_returns; [by destruct G1 as (_ & _ & -> & _)|]. intros a2 G2. cbn [returns].
  set (t1 := lapic_disable (idt_init t0)).
  assert (cpu_of (pic_remap t1) = cpu_of t1) as Hcpu by (eapply has_tail_cpu, has_tail_mono, pic_remap_tail; by intros e [? _]).
  assert (gdt a2 = gdt a0) as Hgdt by (destruct G1 as [G1 _], G2 as [G2 _]; congruence).
  assert (handlers a2 = handlers a) as Hh.
  { destruct G1 as (_ & G1 & _), G2 as (_ & G2 & _). rewrite G2, G1. by subst a0. }
  assert (∃ lo hi, cpu_of t1 = {| gdtr := Some (23, gdt_addr, gdt a0); idtr := Some (4095, idt_addr);
    cs := GDT_KERNEL_CODE_SELECTOR; ds := GDT_KERNEL_DATA_SELECTOR; apic_base := Some (lo, hi);
    iflag := iflag (cpu_of t) |} ∧ Z.testbit lo 11 = false) as (lo & hi & Hc & Hlo).
  { subst t1 t0 a0. unfold lapic_disable. destruct (msr_in _ _) as [lo hi]. eexists _, hi.
    unfold gdt_load, idt_init. rewrite !cpu_of_app. split; [done|]. apply lapic_off. }
  split; [|split; [done|split; [apply pic_remap_state|]]].
  - split; rewrite ?Hcpu, ?Hc, ?Hgdt; try done; [by eapply gates_vectors_ok|..]; try (by subst a0).
    by exists lo, hi.
  - rewrite (has_tail_uart t1) by (eapply has_tail_mono, pic_remap_tail; by intros e [_ ?]).
    unfold t1, lapic_disable. destruct (msr_in _ _). subst t0. unfold gdt_load, idt_init. by rewrite !uart_of_app.
Qed.

Lemma irq_install_returns a irq h :
  0 ≤ irq < 16 → length (handlers a) = 16%nat →
  irq_install_handler a irq h = Ok {| gdt := gdt a; idt := idt a; handlers := <[Z.to_nat irq := Some h]> (handlers a) |}.
Proof.
  intros Hirq Hlen. unfold irq_install_handler. change IRQ_COUNT with 16. rewrite (proj2 (Z.ltb_lt irq 16)) by lia.
  unfold arr_set. by rewrite decide_True by lia.
Qed.

(** ** Interrupts *)

(** One interrupt from beginning to end: the acknowledge cycle, the stub of the
    vector, which pushes its number, and the return. *)
Definition take_interrupt {K} (run : H → K → io → outcome (K * io)) a (k : K) t irq : outcome (K * io) :=
  '(k, t) ← irq_dispatch run a k (t ++ [Inta irq]) (line_vector (pic_of t) irq);
  Ok (k, t ++ [Iret]).

(** The controllers give lines 0 to 15 vectors 32 to 47 and are waiting for
    nothing. *)
Record pic_idle (p : pics) : Prop := {
  pi_master : vector_base p.1 = 0x20;
  pi_slave : vector_base p.2 = 0x28;
  pi_none1 : in_service p.1 = 0;
  pi_none2 : in_service p.2 = 0;
}.

(** What a handler may do to the outside: ports, but not the controllers'. *)
Definition handler_event (e : event) : Prop := port_only e ∧ pic_silent e.

Lemma handler_tail_pic t t' : has_tail handler_event t t' → pic_of t' = pic_of t.
Proof. intros Ht. eapply has_tail_pic, has_tail_mono, Ht. by intros e [_ ?]. Qed.

Lemma handler_tail_cpu t t' : has_tail handler_event t t' → cpu_of t' = cpu_of t.
Proof. intros Ht. eapply has_tail_cpu, has_tail_mono, Ht. by intros e [? _]. Qed.

Lemma pic_send_eoi_ports t irq : has_tail port_only t (pic_send_eoi t irq).
Proof.
  unfold pic_send_eoi, outb. destruct (8 <=? irq); repeat (apply has_tail_snoc; [done|]); apply has_tail_refl.
Qed.

Lemma line_vector_idle p irq : pic_idle p → 0 ≤ irq < 16 → line_vector p irq = 32 + irq.
Proof. intros [Hm Hs _ _] Hirq. unfold line_vector. rewrite Hm, Hs. destruct (Z.ltb_spec irq 8); lia. Qed.

Lemma take_interrupt_returns {K} (run : H → K → io → outcome (K * io)) a k t irq (P : K → io → Prop) :
  0 ≤ irq < 16 → length (handlers a) = 16%nat → pic_idle (pic_of t) →
  (∀ h, handlers a !! Z.to_nat irq = Some (Some h) →
     returns (run h k (t ++ [Inta irq])) (λ '(k', t'), P k' t' ∧ has_tail handler_event (t ++ [Inta irq]) t')) →
  (handlers a !! Z.to_nat irq = Some None → P k (t ++ [Inta irq])) →
  returns (take_interrupt run a k t irq) (λ '(k', t'),
    (∃ t1, P k' t1 ∧ t' = pic_send_eoi t1 irq ++ [Iret]) ∧
    pic_of t' = pic_of t ∧ cpu_of t' = with_iflag (cpu_of t) true).
Proof.
  intros Hirq Hlen Hidle Hsome Hnone. unfold take_interrupt, irq_dispatch. cbv zeta.
  rewrite (line_vector_idle _ _ Hidle Hirq). change IRQ_VECTOR_BASE with 32. change IRQ_COUNT with 16.
  replace (32 + irq - 32) with irq by lia. rewrite (u8_id irq) by lia. rewrite (proj2 (Z.ltb_lt irq 16)) by lia.
  destruct (lookup_lt_is_Some_2 (handlers a) (Z.to_nat irq)) as [h Hh]; [lia|].
  apply returns_bind, returns_bind. eapply returns_mono.
  - instantiate (1 := λ '(k', t'), P k' t' ∧ has_tail handler_event (t ++ [Inta irq]) t').
    assert (arr_get (handlers a) irq = Ok h) as -> by (rewrite <- (Z2Nat.id irq) by lia; by apply arr_get_Some).
    cbn [mbind outcome_bind].
    destruct h as [h|]; [by apply Hsome|]. split; [by apply Hnone|apply has_tail_refl].
  - intros [k1 t1] [Hk Ht]. cbn [returns]. split; [by exists t1|]. split.
    + rewrite pic_of_app, pic_send_eoi_app, pic_of_app, (handler_tail_pic _ _ Ht), pic_of_app.
      destruct Hidle. cbn [foldl pic_step]. by apply eoi_undoes.
    + rewrite cpu_of_app, (has_tail_cpu _ _ (pic_send_eoi_ports t1 irq)), (handler_tail_cpu _ _ Ht), cpu_of_app.
      done.
Qed.
End proofs.

Section enable.
Context `{!Machine, !Pic}.

(** Only the timer and the keyboard get through. *)
Lemma arch_enable_returns t :
  pic_of t = remapped (0xFF, 0xFF) →
  returns (arch_enable_irqs t) (λ t', pic_of t' = remapped (0xFC, 0xFF) ∧
    cpu_of t' = with_iflag (cpu_of t) true ∧ uart_of t' = uart_of t ∧ last t' = Some Sti).
Proof.
  intros Hp. unfold arch_enable_irqs.
  assert (∀ t t', (∃ port v w, t' = t ++ [In port v; Out port w] ∧ port ∈ [PIC1_DATA; PIC2_DATA]) →
    has_tail (λ e, port_only e ∧ uart_silent e) t t') as Htail.
  { intros u u' (port & v & w & -> & Hport). exists [In port v; Out port w]. split; [done|].
    repeat (constructor; [split; [done|]|]); [done|left|constructor].
    assert (port = PIC1_DATA ∨ port = PIC2_DATA) as [->| ->] by set_solver; by vm_compute. }
  ret_step (pic_unmask_returns t (0xFF, 0xFF) 0); [lia|cbn; lia|cbn; lia|done|]. intros t1 [Hp1 H1]. cbn in Hp1.
  ret_step (pic_unmask_returns t1 (0xFE, 0xFF) 1); [lia|cbn; lia|cbn; lia|done|]. intros t2 [Hp2 H2]. cbn [returns].
  pose proof (has_tail_trans _ _ _ _ (Htail _ _ H1) (Htail _ _ H2)) as Ht.
  split; [|split; [|split]].
  - rewrite pic_of_app, Hp2. done.
  - rewrite cpu_of_app, (has_tail_cpu t t2); [done|]. eapply has_tail_mono, Ht. by intros e [? _].
  - rewrite uart_of_app, (has_tail_uart t t2); [done|]. eapply has_tail_mono, Ht. by intros e [_ ?].
  - by rewrite last_snoc.
Qed.
End enable.

(** * A machine with the three devices *)

Module arch_demo.
(** The mask registers read back, the UART is always ready, the keyboard holds the
    scancode of the key A. *)
#[export] Instance machine : Machine := {
  port_in := λ t port, if port =? PIC1_DATA then imr (pic_of t).1
                       else if port =? PIC2_DATA then imr (pic_of t).2
                       else if port =? 0x60 then 0x1E else 0xFF;
  msr_in := λ _ _, (0xFEE00900, 0);
  cr2_in := λ _, 0xdeadb000 }.

Lemma machine_pic : Pic.
Proof. by split. Qed.

Lemma machine_uart : Uart.
Proof. split. intros t. by exists O. Qed.

(** Sixteen bytes of code per stub. *)
#[export, program] Instance text : ArchText := {
  gdt_addr := 0xffffffff80105000; idt_addr := 0xffffffff80106000;
  isr_stub_table := (λ i, 0xffffffff80100000 + 16 * i) <$> seqZ 0 32;
  irq_stub_table := (λ i, 0xffffffff80101000 + 16 * i) <$> seqZ 0 16 }.
Next Obligation. done. Qed.
Next Obligation. done. Qed.
Next Obligation. apply (bool_decide_unpack _). by vm_compute. Qed.

(** The zeroed tables of the image. *)
Definition arch0 (H : Type) : arch H :=
  {| gdt := [0; 0; 0]; idt := replicate 256 zero_entry; handlers := replicate 16 None |}.
End arch_demo.
#[local] Existing Instances arch_demo.machine arch_demo.machine_pic arch_demo.text.

(** * What the layer promises *)

(** C21. Bringing the CPU up.  With the table zeroed, as the image has it, [arch_init]
    returns.  The CPU then runs on the kernel's own GDT, with 64-bit ring-0 code and
    data segments selected, and on the kernel's own IDT, in which the CPU reads, for
    each of the vectors 0 to 47, a ring-0 interrupt gate to that vector's stub and for
    every other vector no gate.  The local APIC is off and the interrupt flag as it
    was; the two PICs deliver lines 0 to 15 as vectors 32 to 47, whose gates lead to
    the IRQ stubs, and hold all of them back. *)
Theorem arch_init_correct {H : Type} {M : Machine} {T : ArchText} (a : arch H) t :
  idt a = replicate 256 zero_entry →
  ∃ a' t', arch_init a t = Ok (a', t') ∧ arch_up (iflag (cpu_of t)) a' t' ∧
    handlers a' = handlers a ∧
    ∀ irq, 0 ≤ irq < 16 → line_open (pic_of t') irq = false ∧ ∃ stub e,
      irq_stub_table !! Z.to_nat irq = Some stub ∧
      idt a' !! Z.to_nat (line_vector (pic_of t') irq) = Some e ∧
      decode_gate (entry_word e) = Some (interrupt_gate stub).
Proof.
  intros Hz. destruct (returns_inv _ _ (arch_init_returns a t Hz)) as ([a' t'] & Hrun & Hup & Hh & Hp & _).
  exists a', t'. split; [done|split; [done|split; [done|]]]. intros irq Hirq. rewrite Hp.
  rewrite line_vector_idle by first [lia|by split]. split.
  - unfold line_open. destruct (Z.ltb_spec irq 8); cbn [remapped fst snd imr].
    + apply negb_false_iff. change 0xFF with (Z.ones 8). apply Z.ones_spec_low. lia.
    + apply andb_false_r.
  - destruct (up_vectors _ _ _ Hup (Z.to_nat (32 + irq)) ltac:(lia)) as (e & He & Hd).
    destruct (lookup_lt_is_Some_2 irq_stub_table (Z.to_nat irq)) as [x Hx]; [rewrite irq_stubs; lia|].
    exists x, e. split; [done|split; [done|]]. rewrite Hd, decide_True by lia.
    unfold stub_of. rewrite decide_False by lia.
    replace (Z.to_nat (32 + irq) - 32)%nat with (Z.to_nat irq) by lia. by rewrite Hx.
Qed.

Lemma arch_init_correct_witness : ∃ a' t', arch_init (arch_demo.arch0 Empty_set) [] = Ok (a', t') ∧
  (∃ e, idt a' !! 14%nat = Some e ∧ decode_gate (entry_word e) = Some (interrupt_gate 0xffffffff801000e0)) ∧
  cs (cpu_of t') = 8 ∧ iflag (cpu_of t') = false.
Proof.
  destruct (arch_init_correct (arch_demo.arch0 Empty_set) [] eq_refl) as (a' & t' & Hrun & Hup & _).
  exists a', t'. split; [exact Hrun|]. destruct (up_vectors _ _ _ Hup 14%nat ltac:(lia)) as (e & He & Hd).
  split; [exists e; split; [exact He|exact Hd]|]. split; [exact (up_cs _ _ _ Hup)|exact (up_iflag _ _ _ Hup)].
Defined.

(** Going live.  If the PICs are as [arch_init] left them, [arch_enable_irqs]
    returns, having opened the timer's line and the keyboard's and no other, and
    then, as its last step, set the interrupt flag. *)
Theorem arch_enable_irqs_correct {M : Machine} {P : Pic} t :
  pic_of t = remapped (0xFF, 0xFF) →
  ∃ t', arch_enable_irqs t = Ok t' ∧ last t' = Some Sti ∧ cpu_of t' = with_iflag (cpu_of t) true ∧
    pic_idle (pic_of t') ∧
    ∀ irq, 0 ≤ irq < 16 → line_open (pic_of t') irq = bool_decide (irq = 0 ∨ irq = 1).
Proof.
  intros Hp. destruct (returns_inv _ _ (arch_enable_returns t Hp)) as (t' & Hrun & Hp' & Hc & _ & Hl).
  exists t'. split; [done|split; [done|split; [done|]]]. rewrite Hp'. split; [done|].
  assert (Forall (λ irq, line_open (remapped (0xFC, 0xFF)) irq = bool_decide (irq = 0 ∨ irq = 1)) (seqZ 0 16)) as HF
    by (apply (bool_decide_unpack _); by vm_compute).
  intros irq Hirq. rewrite Forall_forall in HF. apply HF, elem_of_seqZ. lia.
Qed.

Lemma arch_enable_irqs_correct_witness : ∃ t', arch_enable_irqs (pic_remap []) = Ok t' ∧ last t' = Some Sti.
Proof.
  destruct (arch_enable_irqs_correct (pic_remap []) eq_refl) as (t' & Hrun & Hl & _).
  exists t'. split; [exact Hrun|exact Hl].
Defined.

(** C22. Hardware interrupts.  With the PICs remapped and nothing in service, and a
    handler that returns without touching the PICs or the CPU's tables, an interrupt
    of any line is handled to the end: the registered handler runs once and no other
    does, or none where none is registered; then the end-of-interrupt commands
    take the line out of service again on every PIC that had it, so the PICs are
    as before the interrupt and the next one can come; interrupts are on again
    and the CPU's tables as before. *)
Theorem irq_dispatch_correct {H K : Type} {M : Machine} (run : H → K → io → outcome (K * io)) (a : arch H) (k : K) t irq :
  0 ≤ irq < 16 → length (handlers a) = 16%nat → pic_idle (pic_of t) →
  (∀ h, handlers a !! Z.to_nat irq = Some (Some h) →
     ∃ k1 t1, run h k (t ++ [Inta irq]) = Ok (k1, t1) ∧ has_tail handler_event (t ++ [Inta irq]) t1) →
  ∃ k' t', take_interrupt run a k t irq = Ok (k', t') ∧
    match handlers a !! Z.to_nat irq with
    | Some (Some h) => ∃ t1, run h k (t ++ [Inta irq]) = Ok (k', t1)
    | _ => k' = k
    end ∧ pic_of t' = pic_of t ∧ cpu_of t' = with_iflag (cpu_of t) true.
Proof.
  intros Hirq Hlen Hidle Hh.
  set (P := λ k' (_ : io), match handlers a !! Z.to_nat irq with
    | Some (Some h) => ∃ t1, run h k (t ++ [Inta irq]) = Ok (k', t1)
    | _ => k' = k
    end).
  assert (returns (take_interrupt run a k t irq) (λ '(k', t'),
    (∃ t1, P k' t1 ∧ t' = pic_send_eoi t1 irq ++ [Iret]) ∧ pic_of t' = pic_of t ∧
    cpu_of t' = with_iflag (cpu_of t) true)) as Hret.
  { apply take_interrupt_returns; [done..| |].
    - intros h Hl. destruct (Hh h Hl) as (k1 & t1 & Hr & Ht). rewrite Hr. cbn [returns]. split; [|done].
      unfold P. rewrite Hl. by exists t1.
    - intros Hl. unfold P. by rewrite Hl. }
  destruct (returns_inv _ _ Hret) as ([k' t'] & Hrun & (t1 & HP & _) & Hp & Hc). by exists k', t'.
Qed.

(** The slave's line 12, with a handler that counts. *)
Lemma irq_dispatch_correct_witness :
  let count := λ (h : unit) (n : nat) (t : io), Ok (S n, outb t 0x70 1) in
  let a := {| gdt := []; idt := []; handlers := <[12%nat := Some ()]> (replicate 16 None) |} in
  ∃ t', take_interrupt count a 41%nat (pic_remap []) 12 = Ok (42%nat, t') ∧ pic_of t' = remapped (0xFF, 0xFF).
Proof.
  intros count a.
  destruct (irq_dispatch_correct count a 41%nat (pic_remap []) 12 ltac:(lia) eq_refl ltac:(by split)) as (k' & t' & Hrun & [t1 Hk] & Hp & _).
  - intros h _. eexists _, _. split; [reflexivity|]. unfold outb. apply has_tail_snoc; [|apply has_tail_refl].
    split; [done|]. apply (bool_decide_unpack _). by vm_compute.
  - injection Hk as <-. exists t'. split; [exact Hrun|exact Hp].
Defined.
