(* ===== verification/Format.v ===== *)
(** The number printers: [put_dec] and [put_hex] of kernel/kernel.c (drivers/timer.c
    has its own copy of [put_dec]) and [put_hex64] of kernel/arch/x86_64/isr.c.
    The first two fill a buffer from the least significant digit up and send it
    backwards; the theorems give the numeral that goes out, and that the buffer
    never overflows. *)

From stdpp Require Import base list gmap sets.
From Stdlib Require Import ZArith Lia String Ascii.
From S2P Require Import Prelude.
From S2P Require Import Io.
From S2P Require Import Serial.

#[local] Abbreviation length := Datatypes.length.

Implicit Types (t : io) (v i d : Z) (buf : list Z).

(** * The printers *)

Section code.
Context `{!Machine}.

(** [while (i-- > 0) serial_putc(buf[i]);] *)
Definition put_back t buf i : outcome io :=
  loop (λ '(i, t),
    if 0 <? i then ch ← arr_get buf (i - 1); t ← serial_putc t ch; Ok (inl (i - 1, t))
    else Ok (inr t)) (i, t).

Definition put_dec t v : outcome io :=
  if v =? 0 then serial_putc t 48 else
  '(buf, i) ← loop (λ '(v, buf, i),
      if 0 <? v then buf ← arr_set buf i (48 + v mod 10); Ok (inl (v / 10, buf, i + 1))
      else Ok (inr (buf, i))) (v, replicate 20 0, 0);
  put_back t buf i.

Definition put_hex t v : outcome io :=
  t ← serial_write t (c "0x");
  '(buf, i) ← loop (λ '(v, buf, i),
      let nib := Z.land v 0xF in
      buf ← arr_set buf i (if nib <? 10 then 48 + nib else 97 + (nib - 10));
      let v := Z.shiftr v 4 in
      if 0 <? v then Ok (inl (v, buf, i + 1)) else Ok (inr (buf, i + 1))) (v, replicate 16 0, 0);
  put_back t buf i.

Definition hex_digits : cstring := c "0123456789abcdef".

Definition put_hex64 t v : outcome io :=
  '(buf, _) ← loop (λ '(i, buf, v),
      if 0 <=? i then
        ch ← arr_get hex_digits (Z.land v 0xF);
        buf ← arr_set buf i ch;
        Ok (inl (i - 1, buf, Z.shiftr v 4))
      else Ok (inr (buf, v))) (15, replicate 16 0, v);
  t ← serial_putc t 48;
  t ← serial_putc t 120;
  for_each 0 16 (λ i t, ch ← arr_get buf i; serial_putc t ch) t.
End code.

(** * Digits *)

(** A positional system: base [b], the character [dig d] of each digit and its
    value back. *)
Record digits_ok (b : Z) (dig val : Z → Z) : Prop := {
  do_base : 1 < b;
  do_char d : 0 ≤ d < b → 0 < dig d < 256;
  do_val d : 0 ≤ d < b → val (dig d) = d;
}.

Lemma numeral_value_cons b f ch (s : cstring) :
  numeral_value b f (ch :: s) = f ch * b ^ Z.of_nat (length s) + numeral_value b f s.
Proof.
  revert ch. induction s as [|x s IH] using rev_ind; intros ch.
  { unfold numeral_value. cbn. lia. }
  rewrite app_comm_cons, !numeral_value_snoc, IH, length_app. cbn [length].
  rewrite Nat2Z.inj_add, Z.pow_add_r by lia. lia.
Qed.

(** [s] is the numeral of [v]: its digits, most significant first, no leading zero. *)
Definition numeral_of (b : Z) (dig val : Z → Z) v (s : cstring) : Prop :=
  numeral_value b val s = v ∧ Forall (λ ch, ∃ d, 0 ≤ d < b ∧ ch = dig d) s ∧
  (length s = 1%nat ∨ ∃ ch s', s = ch :: s' ∧ ch ≠ dig 0).

(** The buffer while it is filled: [i] digits of [v0] are in it, [v] is left. *)
Record filled (b : Z) (dig val : Z → Z) (n : nat) v0 v buf i : Prop := {
  fi_len : length buf = n;
  fi_pos : 0 ≤ i ≤ Z.of_nat n;
  fi_left : 0 ≤ v;
  fi_value : v0 = v * b ^ i + numeral_value b val (reverse (take (Z.to_nat i) buf));
  fi_digits : Forall (λ ch, ∃ d, 0 ≤ d < b ∧ ch = dig d) (take (Z.to_nat i) buf);
  fi_lead : v = 0 → 0 < i → i = 1 ∨ ∃ ch s', reverse (take (Z.to_nat i) buf) = ch :: s' ∧ ch ≠ dig 0;
}.

Lemma numeral_value_nonneg b dig val (s : cstring) :
  digits_ok b dig val → Forall (λ ch, ∃ d, 0 ≤ d < b ∧ ch = dig d) s → 0 ≤ numeral_value b val s.
Proof.
  intros Hok Hs. induction s as [|ch s IH]; [done|]. apply Forall_cons in Hs as [(d & Hd & ->) Hs].
  rewrite numeral_value_cons, (do_val _ _ _ Hok) by done. pose proof (do_base _ _ _ Hok).
  pose proof (Z.pow_nonneg b (Z.of_nat (length s)) ltac:(lia)). specialize (IH Hs). nia.
Qed.

Section filling.
Context (b : Z) (dig val : Z → Z) (n : nat) (Hok : digits_ok b dig val).

Lemma filled_start v0 buf : length buf = n → 0 ≤ v0 → filled b dig val n v0 v0 buf 0.
Proof.
  intros Hlen Hv. split; [done|lia|done| |done|lia].
  change (take (Z.to_nat 0) buf) with (@nil Z). unfold numeral_value. cbn. lia.
Qed.

(** There is room for one more digit, and writing it keeps the invariant. *)
Lemma filled_push v0 v buf i :
  filled b dig val n v0 v buf i → v0 < b ^ Z.of_nat n → (0 < n)%nat → 0 < v ∨ i = 0 →
  ∃ buf', arr_set buf i (dig (v mod b)) = Ok buf' ∧ filled b dig val n v0 (v / b) buf' (i + 1).
Proof.
  intros H Hv0 Hn Hv. pose proof H as [Hlen Hi Hv' Hval Hds Hlead]. pose proof (do_base _ _ _ Hok) as Hb.
  pose proof (Z.mod_pos_bound v b ltac:(lia)) as Hmod. set (k := Z.to_nat i). replace i with (Z.of_nat k) in * by lia.
  assert (k < n)%nat as Hk.
  { destruct Hv as [Hv|Hv]; [|lia]. enough (Z.of_nat k ≠ Z.of_nat n) by lia. intros Heq.
    assert (Forall (λ ch, ∃ d, 0 ≤ d < b ∧ ch = dig d) (reverse (take k buf))) as Hr.
    { rewrite Nat2Z.id in Hds. by apply Forall_reverse. }
    pose proof (numeral_value_nonneg _ _ _ _ Hok Hr). rewrite Nat2Z.id, Heq in Hval.
    pose proof (Z.pow_nonneg b (Z.of_nat n) ltac:(lia)). nia. }
  rewrite arr_set_lt by lia. eexists. split; [done|].
  replace (Z.of_nat k + 1) with (Z.of_nat (S k)) by lia. rewrite Nat2Z.id in *.
  assert (take (S k) (<[k := dig (v mod b)]> buf) = take k buf ++ [dig (v mod b)]) as Htake.
  { rewrite (take_S_r _ _ (dig (v mod b))) by (apply list_lookup_insert_eq; lia). by rewrite take_insert_ge by lia. }
  split; rewrite ?Nat2Z.id, ?Htake, ?reverse_snoc.
  - by rewrite length_insert.
  - lia.
  - apply Z.div_pos; lia.
  - rewrite numeral_value_cons, length_reverse, length_take_le by lia.
    rewrite (do_val _ _ _ Hok) by done. rewrite Hval. rewrite Nat2Z.inj_succ, Z.pow_succ_r by lia.
    pose proof (Z.div_mod v b ltac:(lia)). nia.
  - apply Forall_app. split; [done|]. apply Forall_singleton. by exists (v mod b).
  - intros Hz _. apply Z.div_small_iff in Hz; [|lia]. destruct (decide (k = 0%nat)) as [->|]; [by left|right].
    exists (dig (v mod b)), (reverse (take k buf)). split; [done|]. intros Hd.
    apply (f_equal val) in Hd. rewrite !(do_val _ _ _ Hok), Z.mod_small in Hd by lia. lia.
Qed.

(** When nothing is left the buffer holds the numeral, backwards. *)
Lemma filled_done v0 buf i :
  filled b dig val n v0 0 buf i → 0 < i →
  numeral_of b dig val v0 (reverse (take (Z.to_nat i) buf)).
Proof.
  intros [Hlen Hi _ Hval Hds Hlead] Hpos. split; [lia|]. split; [by apply Forall_reverse|].
  destruct (Hlead eq_refl Hpos) as [->|H]; [left|by right].
  rewrite length_reverse, length_take_le; [done|lia].
Qed.
End filling.

Section proofs.
Context `{!Machine, !Uart}.

Lemma put_back_returns t buf i :
  dlab (uart_of t) = false → 0 ≤ i ≤ Z.of_nat (length buf) → Z.of_nat (length buf) ≤ 2 ^ 64 →
  Forall (λ ch, 0 ≤ ch < 256) (take (Z.to_nat i) buf) →
  returns (put_back t buf i) (sends t (reverse (take (Z.to_nat i) buf))).
Proof.
  intros Hd Hi Hlen Hch. unfold put_back.
  set (I := λ '(j, t'), 0 ≤ j ≤ i ∧
    sends t (reverse (drop (Z.to_nat j) (take (Z.to_nat i) buf))) t').
  apply (loop_rule I) with (μ := λ '(j, _), j); [|lia|].
  - split; [lia|]. rewrite drop_ge by (rewrite length_take; lia). by apply sends_nil.
  - intros [j t1] [Hj Ht1]. destruct (Z.ltb_spec 0 j).
    2: { cbn [returns]. assert (j = 0) as -> by lia. exact Ht1. }
    destruct (lookup_lt_is_Some_2 buf (Z.to_nat (j - 1))) as [ch Hl]; [lia|].
    pose proof (arr_get_Some _ _ _ Hl) as Hg. rewrite Z2Nat.id in Hg by lia. rewrite Hg, bind_ok.
    assert (take (Z.to_nat i) buf !! Z.to_nat (j - 1) = Some ch) as Hl' by (rewrite lookup_take_lt by lia; done).
    pose proof (proj1 (Forall_lookup _ _) Hch _ _ Hl') as Hc.
    ret_step serial_putc_returns; [by eapply sends_dlab|]. intros t2 Ht2. rewrite u8_id in Ht2 by done.
    cbn [returns]. split; [|lia]. split; [lia|].
    rewrite (drop_S _ _ _ Hl'). replace (S (Z.to_nat (j - 1))) with (Z.to_nat j) by lia.
    rewrite reverse_cons. by eapply sends_app.
Qed.

Definition dec_digit d : Z := 48 + d.
Definition dec_value (ch : Z) : Z := ch - 48.
Definition hex_digit d : Z := if d <? 10 then 48 + d else 97 + (d - 10).
Definition hex_value (ch : Z) : Z := if ch <? 97 then ch - 48 else ch - 97 + 10.

Lemma dec_ok : digits_ok 10 dec_digit dec_value.
Proof. unfold dec_digit, dec_value. split; intros; lia. Qed.

Lemma hex_ok : digits_ok 16 hex_digit hex_value.
Proof.
  unfold hex_digit, hex_value. split; [lia| |].
  - intros d Hd. destruct (Z.ltb_spec d 10); lia.
  - intros d Hd. destruct (Z.ltb_spec d 10); case_match; lia.
Qed.

Lemma digits_bytes b dig val (s : cstring) : digits_ok b dig val →
  Forall (λ ch, ∃ d, 0 ≤ d < b ∧ ch = dig d) s → Forall (λ ch, 0 ≤ ch < 256) s.
Proof.
  intros Hok Hs. eapply Forall_impl; [exact Hs|]. intros ch (d & Hd & ->).
  pose proof (do_char _ _ _ Hok d Hd). lia.
Qed.

Lemma put_dec_returns t v :
  dlab (uart_of t) = false → 0 ≤ v < 2 ^ 64 →
  returns (put_dec t v) (λ t', ∃ s, sends t s t' ∧ numeral_of 10 dec_digit dec_value v s ∧ (length s ≤ 20)%nat).
Proof.
  intros Hd Hv. unfold put_dec. destruct (Z.eqb_spec v 0) as [->|Hne].
  { eapply returns_mono; [by apply serial_putc_returns|]. intros t' Ht'. exists [48].
    split; [done|]. split; [|cbn; lia]. split; [done|split; [|by left]]. apply Forall_singleton. by exists 0. }
  set (I := λ '(v', buf, i), filled 10 dec_digit dec_value 20 v v' buf i ∧ (v' = 0 → 0 < i)).
  apply returns_bind, (returns_mono _ (λ '(buf, i), filled 10 dec_digit dec_value 20 v 0 buf i ∧ 0 < i)).
  { apply (loop_rule I) with (μ := λ '(v', _, _), v'); [|lia|].
    - split; [apply filled_start; [done|lia]|lia].
    - intros [[v' buf] i] [Hf Hi]. destruct (Z.ltb_spec 0 v').
      + destruct (filled_push _ _ _ _ dec_ok _ _ _ _ Hf) as (buf' & Hset & Hf'); [lia|lia|by left|].
        unfold dec_digit in Hset. rewrite Hset, bind_ok. cbn [returns]. pose proof (fi_pos _ _ _ _ _ _ _ _ Hf).
        split; [split; [done|lia]|]. div_lia.
      + cbn [returns]. pose proof (fi_left _ _ _ _ _ _ _ _ Hf). assert (v' = 0) as -> by lia. auto. }
  intros [buf i] [Hf Hpos]. pose proof (fi_pos _ _ _ _ _ _ _ _ Hf) as Hi. pose proof (fi_len _ _ _ _ _ _ _ _ Hf) as Hl.
  eapply returns_mono; [apply put_back_returns; [done|lia|lia|]|].
  { eapply digits_bytes; [exact dec_ok|apply Hf]. }
  intros t' Ht'. exists (reverse (take (Z.to_nat i) buf)). split; [done|].
  split; [by eapply filled_done|]. rewrite length_reverse, length_take. lia.
Qed.

Lemma nibble v : Z.land v 0xF = v mod 16.
Proof. change 0xF with (Z.ones 4). by rewrite Z.land_ones. Qed.

Lemma prefix_ok : Forall (λ b, 0 ≤ b < 256) (c "0x").
Proof. repeat constructor; lia. Qed.

Lemma put_hex_returns t v :
  dlab (uart_of t) = false → 0 ≤ v < 2 ^ 64 →
  returns (put_hex t v) (λ t', ∃ s, sends t (c "0x" ++ s) t' ∧
    numeral_of 16 hex_digit hex_value v s ∧ (length s ≤ 16)%nat).
Proof.
  intros Hd Hv. unfold put_hex. ret_step serial_write_returns; [done|apply prefix_ok|].
  intros t1 Ht1. change (crlf (c "0x")) with (c "0x") in Ht1.
  set (I := λ '(v', buf, i), filled 16 hex_digit hex_value 16 v v' buf i ∧ (0 < v' ∨ i = 0)).
  apply returns_bind, (returns_mono _ (λ '(buf, i), filled 16 hex_digit hex_value 16 v 0 buf i ∧ 0 < i)).
  { apply (loop_rule I) with (μ := λ '(v', _, _), v'); [|lia|].
    - split; [apply filled_start; [done|lia]|by right].
    - intros [[v' buf] i] [Hf Hi].
      destruct (filled_push _ _ _ _ hex_ok _ _ _ _ Hf) as (buf' & Hset & Hf'); [lia|lia|done|].
      unfold hex_digit in Hset. rewrite !nibble, Hset, bind_ok. rewrite Z.shiftr_div_pow2 by lia.
      change (2 ^ 4) with 16. pose proof (fi_pos _ _ _ _ _ _ _ _ Hf). pose proof (fi_left _ _ _ _ _ _ _ _ Hf).
      destruct (Z.ltb_spec 0 (v' / 16)); cbn [returns].
      + split; [split; [done|by left]|]. div_lia.
      + assert (v' / 16 = 0) as Hz by div_lia. rewrite Hz in Hf'. split; [done|lia]. }
  intros [buf i] [Hf Hpos]. pose proof (fi_pos _ _ _ _ _ _ _ _ Hf) as Hi. pose proof (fi_len _ _ _ _ _ _ _ _ Hf) as Hl.
  eapply returns_mono; [apply put_back_returns; [by eapply sends_dlab|lia|lia|]|].
  { eapply digits_bytes; [exact hex_ok|apply Hf]. }
  intros t' Ht'. exists (reverse (take (Z.to_nat i) buf)). split; [by eapply sends_app|].
  split; [by eapply filled_done|]. rewrite length_reverse, length_take. lia.
Qed.

(** The fixed-width printer: the buffer is filled from its end. *)
Record aligned_digits v0 v buf i : Prop := {
  al_len : length buf = 16%nat;
  al_pos : -1 ≤ i ≤ 15;
  al_left : 0 ≤ v;
  al_value : v0 = v * 16 ^ (15 - i) + numeral_value 16 hex_value (drop (Z.to_nat (i + 1)) buf);
  al_bound : v < 16 ^ (i + 1);
  al_digits : Forall (λ ch, ∃ d, 0 ≤ d < 16 ∧ ch = hex_digit d) (drop (Z.to_nat (i + 1)) buf);
}.

Lemma hex_digits_lookup d : 0 ≤ d < 16 → arr_get hex_digits d = Ok (hex_digit d).
Proof.
  intros Hd. assert (d ∈ seqZ 0 16) as Hin by (apply elem_of_seqZ; lia).
  clear Hd. revert d Hin. apply Forall_forall. cbn. repeat constructor.
Qed.

Lemma aligned_push v0 v buf i :
  aligned_digits v0 v buf i → 0 ≤ i →
  ∃ buf', arr_set buf i (hex_digit (v mod 16)) = Ok buf' ∧ aligned_digits v0 (v / 16) buf' (i - 1).
Proof.
  intros [Hlen Hi Hv Hval Hb Hds] Hpos. pose proof (Z.mod_pos_bound v 16 ltac:(lia)) as Hm.
  set (k := Z.to_nat i). replace i with (Z.of_nat k) in * by lia. rewrite arr_set_lt by lia.
  eexists. split; [done|].
  assert (drop k (<[k := hex_digit (v mod 16)]> buf) = hex_digit (v mod 16) :: drop (S k) buf) as Hdrop.
  { erewrite drop_S by (apply list_lookup_insert_eq; lia). by rewrite drop_insert_lt by lia. }
  replace (Z.to_nat (Z.of_nat k + 1)) with (S k) in * by lia.
  split; rewrite ?Z.sub_add, ?Nat2Z.id, ?Hdrop.
  - by rewrite length_insert.
  - lia.
  - apply Z.div_pos; lia.
  - rewrite numeral_value_cons, length_drop, (do_val _ _ _ hex_ok), Hval by done.
    replace (Z.of_nat (length buf - S k)) with (15 - Z.of_nat k) by lia.
    replace (15 - (Z.of_nat k - 1)) with (Z.succ (15 - Z.of_nat k)) by lia.
    rewrite Z.pow_succ_r by lia. pose proof (Z.div_mod v 16 ltac:(lia)). nia.
  - apply Z.div_lt_upper_bound; [lia|]. rewrite <- Z.pow_succ_r by lia. by rewrite <- Z.add_1_r.
  - constructor; [by exists (v mod 16)|done].
Qed.

Lemma put_hex64_returns t v :
  dlab (uart_of t) = false → 0 ≤ v < 2 ^ 64 →
  returns (put_hex64 t v) (λ t', ∃ s, sends t (c "0x" ++ s) t' ∧ length s = 16%nat ∧
    numeral_value 16 hex_value s = v ∧ Forall (λ ch, ∃ d, 0 ≤ d < 16 ∧ ch = hex_digit d) s).
Proof.
  intros Hd Hv. unfold put_hex64.
  set (I := λ '(i, buf, v'), aligned_digits v v' buf i).
  apply returns_bind, (returns_mono _ (λ '(buf, v'), aligned_digits v v' buf (-1))).
  { apply (loop_rule I) with (μ := λ '(i, _, _), i + 1); [|lia|].
    - assert (drop (Z.to_nat (15 + 1)) (replicate 16 0) = []) as Hnil by done.
      split; rewrite ?Hnil; [done|lia|lia| |lia|by constructor].
      change (16 ^ (15 - 15)) with 1. change (numeral_value 16 hex_value []) with 0. lia.
    - intros [[i buf] v'] Ha. pose proof (al_pos _ _ _ _ Ha). destruct (Z.leb_spec 0 i).
      + pose proof (Z.mod_pos_bound v' 16 ltac:(lia)).
        rewrite nibble, hex_digits_lookup, bind_ok by done.
        destruct (aligned_push _ _ _ _ Ha) as (buf' & Hset & Ha'); [done|].
        rewrite Hset, bind_ok. cbn [returns]. rewrite Z.shiftr_div_pow2 by lia. split; [done|lia].
      + cbn [returns]. by replace (-1) with i by lia. }
  intros [buf v'] [Hlen _ Hv' Hval Hb Hds]. assert (v' = 0) as -> by (cbn in Hb; lia).
  change (Z.to_nat (-1 + 1)) with 0%nat in *. rewrite drop_0 in *.
  ret_step serial_putc_returns; [done|]. intros t1 Ht1. ret_step serial_putc_returns; [by eapply sends_dlab|].
  intros t2 Ht2. pose proof (sends_app _ _ _ _ _ Ht1 Ht2) as H12.
  eapply returns_mono; [apply (for_each_rule (λ i t', sends t2 (take (Z.to_nat i) buf) t'))|]; [lia|lia|..].
  - apply sends_nil. by eapply sends_dlab.
  - intros i t3 Hi Ht3. destruct (lookup_lt_is_Some_2 buf (Z.to_nat i)) as [ch Hl]; [lia|].
    pose proof (arr_get_Some _ _ _ Hl) as Hg. rewrite Z2Nat.id in Hg by lia. rewrite Hg, bind_ok.
    pose proof (proj1 (Forall_lookup _ _) (digits_bytes _ _ _ _ hex_ok Hds) _ _ Hl) as Hc. cbn in Hc.
    eapply returns_mono; [apply serial_putc_returns; by eapply sends_dlab|]. intros t4 Ht4.
    rewrite u8_id in Ht4 by done. replace (Z.to_nat (i + 1)) with (S (Z.to_nat i)) by lia.
    rewrite (take_S_r _ _ _ Hl). by eapply sends_app.
  - intros t' Ht'. change (Z.to_nat 16) with 16%nat in Ht'. rewrite take_ge in Ht' by lia.
    exists buf. split; [by eapply sends_app|]. split; [done|split; [lia|done]].
Qed.

(** ** The texts, as functions *)

(** [n] digits in base 16, padded with zeros. *)
Fixpoint fixed_hex (n : nat) v : cstring :=
  match n with
  | O => []
  | S n => fixed_hex n (v / 16) ++ [hex_digit (v mod 16)]
  end.

Definition hex64 v : cstring := c "0x" ++ fixed_hex 16 v.

Lemma fixed_hex_unique s v :
  Forall (λ ch, ∃ d, 0 ≤ d < 16 ∧ ch = hex_digit d) s → numeral_value 16 hex_value s = v → s = fixed_hex (length s) v.
Proof.
  revert v. induction s as [|ch s IH] using rev_ind; intros v Hs Hv; [done|].
  apply Forall_app in Hs as [Hs Hch]. apply Forall_singleton in Hch as (d & Hd & ->).
  rewrite numeral_value_snoc, (do_val _ _ _ hex_ok) in Hv by done.
  rewrite length_app, Nat.add_1_r. cbn [fixed_hex]. subst v.
  assert ((16 * numeral_value 16 hex_value s + d) / 16 = numeral_value 16 hex_value s) as -> by div_lia.
  assert ((16 * numeral_value 16 hex_value s + d) mod 16 = d) as -> by div_lia.
  f_equal. by apply IH.
Qed.

(** At most [n + 1] decimal digits, no leading zero. *)
Fixpoint decimal (n : nat) v : cstring :=
  match n with
  | O => [dec_digit v]
  | S n => if v <? 10 then [dec_digit v] else decimal n (v / 10) ++ [dec_digit (v mod 10)]
  end.

Definition dec v : cstring := decimal 19 v.

Lemma leading_positive s : Forall (λ ch, ∃ d, 0 ≤ d < 10 ∧ ch = dec_digit d) s →
  (∃ ch s', s = ch :: s' ∧ ch ≠ dec_digit 0) → 0 < numeral_value 10 dec_value s.
Proof.
  intros Hs (ch & s' & -> & Hne). apply Forall_cons in Hs as [(d & Hd & ->) Hs].
  rewrite numeral_value_cons, (do_val _ _ _ dec_ok) by done.
  pose proof (numeral_value_nonneg _ _ _ _ dec_ok Hs). assert (0 < d) by (unfold dec_digit in Hne; lia).
  pose proof (Z.pow_pos_nonneg 10 (Z.of_nat (length s')) ltac:(lia) ltac:(lia)). nia.
Qed.

Lemma decimal_unique n s v :
  (length s ≤ S n)%nat → numeral_of 10 dec_digit dec_value v s → s = decimal n v.
Proof.
  revert s v. induction n as [|n IH]; intros s v Hlen (Hv & Hs & Hlead).
  all: destruct s as [|x s _] using rev_ind; [by destruct Hlead as [H1|(? & ? & H1 & _)]|].
  all: pose proof Hs as Hall; apply Forall_app in Hs as [Hs Hx]; apply Forall_singleton in Hx as (d & Hd & ->).
  all: rewrite numeral_value_snoc, (do_val _ _ _ dec_ok) in Hv by done; rewrite length_app in Hlen; cbn [length] in Hlen.
  - assert (s = []) as -> by (destruct s; [done|cbn in Hlen; lia]). cbn in *. change (numeral_value 10 dec_value []) with 0 in Hv.
    by replace v with d by lia.
  - cbn [decimal]. destruct s as [|ch s].
    + change (numeral_value 10 dec_value []) with 0 in Hv. rewrite (proj2 (Z.ltb_lt v 10)) by lia.
      by replace v with d by lia.
    + assert (ch ≠ dec_digit 0) as Hne.
      { destruct Hlead as [H1|(? & ? & [= <- _] & Hne)]; [|done]. rewrite length_app in H1. cbn in H1. lia. }
      pose proof (leading_positive (ch :: s) Hs ltac:(by exists ch, s)) as Hpos.
      rewrite (proj2 (Z.ltb_ge v 10)) by lia. f_equal.
      * apply IH; [lia|]. split; [div_lia|split; [done|right; by exists ch, s]].
      * do 2 f_equal. div_lia.
Qed.

(** ** Programs that print *)

(** From any open line [o] returns, having sent exactly [bs]. *)
Definition prints (o : io → outcome io) (bs : list Z) : Prop :=
  ∀ t, dlab (uart_of t) = false → returns (o t) (sends t bs).

Lemma prints_bind o1 o2 b1 b2 : prints o1 b1 → prints o2 b2 → prints (λ t, t ← o1 t; o2 t) (b1 ++ b2).
Proof.
  intros H1 H2 t Hd. ret_step H1; [done|]. intros t1 Ht1.
  eapply returns_mono; [by eapply H2, sends_dlab|]. intros t2 Ht2. by eapply sends_app.
Qed.

Lemma c_bytes s : Forall (λ b, 0 ≤ b < 256) (c s).
Proof. induction s as [|a s IH]; constructor; [|done]. pose proof (N_ascii_bounded a). lia. Qed.

Lemma prints_write s : Forall (λ b, 0 ≤ b < 256) s → prints (λ t, serial_write t s) (crlf s).
Proof. intros Hs t Hd. by apply serial_write_returns. Qed.

Lemma prints_putc ch : 0 ≤ ch < 256 → prints (λ t, serial_putc t ch) [ch].
Proof.
  intros Hch t Hd. eapply returns_mono; [by apply serial_putc_returns|]. intros t'. by rewrite u8_id.
Qed.

Lemma prints_hex64 v : 0 ≤ v < 2 ^ 64 → prints (λ t, put_hex64 t v) (hex64 v).
Proof.
  intros Hv t Hd. eapply returns_mono; [by apply put_hex64_returns|]. intros t' (s & Hs & Hlen & Hval & Hds).
  unfold hex64. rewrite <- Hlen. by rewrite <- (fixed_hex_unique s v Hds Hval).
Qed.

Lemma prints_dec v : 0 ≤ v < 2 ^ 64 → prints (λ t, put_dec t v) (dec v).
Proof.
  intros Hv t Hd. eapply returns_mono; [by apply put_dec_returns|]. intros t' (s & Hs & Hnum & Hlen).
  unfold dec. by rewrite <- (decimal_unique 19 s v ltac:(lia) Hnum).
Qed.

Lemma prints_if (b : bool) o1 o2 b1 b2 :
  prints o1 b1 → prints o2 b2 → prints (λ t, if b then o1 t else o2 t) (if b then b1 else b2).
Proof. by destruct b. Qed.

Lemma prints_nothing : prints (λ t, Ok t) [].
Proof. intros t Hd. by apply sends_nil. Qed.
End proofs.
#[local] Existing Instances serial_demo.machine0 serial_demo.uart0.

(** * What the printers promise *)

(** C39. put_dec.  On an open line printing any 64-bit value returns and sends
    exactly its decimal numeral: the digits read back as the value, there is no
    leading zero, and there are at most 20 of them, so the 20-byte buffer is never
    overrun. *)
Theorem put_dec_correct `{!Machine, !Uart} t v :
  dlab (uart_of t) = false → 0 ≤ v < 2 ^ 64 →
  ∃ t' s, put_dec t v = Ok t' ∧ sent (uart_of t') = sent (uart_of t) ++ s ∧
    numeral_value 10 dec_value s = v ∧ Forall (λ ch, 48 ≤ ch ≤ 57) s ∧
    (v ≠ 0 → ∃ ch s', s = ch :: s' ∧ ch ≠ 48) ∧ (1 ≤ length s ≤ 20)%nat.
Proof.
  intros Hd Hv. destruct (returns_inv _ _ (put_dec_returns t v Hd Hv))
    as (t' & Hrun & s & [Hs _] & (Hval & Hds & Hlead) & Hlen).
  exists t', s. split; [done|]. split; [by rewrite Hs|]. split; [done|]. split.
  { eapply Forall_impl; [exact Hds|]. intros ch (d & Hd' & ->). unfold dec_digit. lia. }
  destruct Hlead as [H1|(ch & s' & -> & Hne)].
  - split; [|lia]. destruct s as [|ch []]; try done. intros Hv0. exists ch, []. split; [done|].
    rewrite numeral_value_cons in Hval. unfold numeral_value, dec_value in Hval. cbn in Hval. lia.
  - split; [|cbn in *; lia]. intros _. by exists ch, s'.
Qed.

Lemma put_dec_correct_witness :
  ∃ t' s, put_dec (serial_init []) 2026 = Ok t' ∧ sent (uart_of t') = s ∧ numeral_value 10 dec_value s = 2026.
Proof.
  destruct (put_dec_correct (serial_init []) 2026 eq_refl ltac:(lia)) as (t' & s & Hrun & Hs & Hval & _).
  exists t', s. split; [exact Hrun|split; [exact Hs|exact Hval]].
Defined.

(** put_hex and put_hex64.  On an open line both return and send "0x" and then
    hexadecimal digits that read back as the value: [put_hex] without leading
    zeros, [put_hex64] always sixteen of them. *)
Theorem put_hex_correct `{!Machine, !Uart} t v :
  dlab (uart_of t) = false → 0 ≤ v < 2 ^ 64 →
  (∃ t' s, put_hex t v = Ok t' ∧ sent (uart_of t') = sent (uart_of t) ++ c "0x" ++ s ∧
     numeral_value 16 hex_value s = v ∧ (length s = 1%nat ∨ ∃ ch s', s = ch :: s' ∧ ch ≠ 48)) ∧
  (∃ t' s, put_hex64 t v = Ok t' ∧ sent (uart_of t') = sent (uart_of t) ++ c "0x" ++ s ∧
     numeral_value 16 hex_value s = v ∧ length s = 16%nat).
Proof.
  intros Hd Hv. split.
  - destruct (returns_inv _ _ (put_hex_returns t v Hd Hv)) as (t' & Hrun & s & [Hs _] & (Hval & _ & Hlead) & _).
    exists t', s. split; [done|split; [by rewrite Hs|split; [done|exact Hlead]]].
  - destruct (returns_inv _ _ (put_hex64_returns t v Hd Hv)) as (t' & Hrun & s & [Hs _] & Hlen & Hval & _).
    exists t', s. split; [done|split; [by rewrite Hs|done]].
Qed.

Lemma put_hex_correct_witness :
  ∃ t', put_hex64 (serial_init []) 0xdeadbeef = Ok t'.
Proof.
  destruct (put_hex_correct (serial_init []) 0xdeadbeef eq_refl ltac:(lia)) as [_ (t' & s & Hrun & _)].
  exists t'. exact Hrun.
Defined.
