(* ===== verification/Isr.v ===== *)
(** kernel/arch/x86_64/isr.c: the crash screen.

    Every CPU exception ends in [isr_handler], which prints the frame the stub
    built and parks the CPU.  [crash_text] is the report as text. *)

From stdpp Require Import base list gmap sets.
From Stdlib Require Import ZArith Lia String.
From S2P Require Import Prelude.
From S2P Require Import Io.
From S2P Require Import Serial.
From S2P Require Import Format.

#[local] Abbreviation length := Datatypes.length.
Implicit Types (t : io).

(** * The code *)

(** struct interrupt_frame, lowest address first. *)
Record interrupt_frame := {
  rax : Z; rbx : Z; rcx : Z; rdx : Z; rsi : Z; rdi : Z; rbp : Z;
  r8 : Z; r9 : Z; r10 : Z; r11 : Z; r12 : Z; r13 : Z; r14 : Z; r15 : Z;
  vector : Z;
  error_code : Z;
  rip : Z; cs : Z; rflags : Z; rsp : Z; ss : Z;
}.

Implicit Types (f : interrupt_frame).

Definition exception_names : list cstring := map c [
  "#DE Divide Error";
  "#DB Debug";
  "NMI Non-Maskable Interrupt";
  "#BP Breakpoint";
  "#OF Overflow";
  "#BR BOUND Range Exceeded";
  "#UD Invalid Opcode";
  "#NM Device Not Available";
  "#DF Double Fault";
  "Coprocessor Segment Overrun";
  "#TS Invalid TSS";
  "#NP Segment Not Present";
  "#SS Stack-Segment Fault";
  "#GP General Protection Fault";
  "#PF Page Fault";
  "(reserved)";
  "#MF x87 FPU Floating-Point Error";
  "#AC Alignment Check";
  "#MC Machine Check";
  "#XM SIMD Floating-Point Exception";
  "#VE Virtualization Exception";
  "#CP Control Protection Exception";
  "(reserved)"; "(reserved)"; "(reserved)"; "(reserved)";
  "(reserved)"; "(reserved)"; "(reserved)";
  "#VC VMM Communication Exception";
  "#SX Security Exception";
  "(reserved)"]%string.

(** A string literal that ends in a newline. *)
Definition ln (s : string) : cstring := c s ++ [chr_nl].
Arguments ln s%_string.

Section code.
Context `{!Machine}.

Definition paging_read_cr2 t : Z := u64 (cr2_in t).

Definition dump_pair t (na : cstring) (a : Z) (nb : cstring) (b : Z) : outcome io :=
  t ← serial_write t (c "  ");
  t ← serial_write t na; t ← serial_putc t 32; t ← put_hex64 t a;
  t ← serial_write t (c "   ");
  t ← serial_write t nb; t ← serial_putc t 32; t ← put_hex64 t b;
  serial_write t (ln "").

(** The report up to the fault frame. *)
Definition report_frame t f : outcome io :=
  name ← (if vector f <? 32 then arr_get exception_names (vector f) else Ok (c "(unknown)"));
  t ← serial_write t (ln "");
  t ← serial_write t (ln "================= CPU EXCEPTION =================");
  t ← serial_write t (c "  vector ");
  t ← put_hex64 t (vector f);
  t ← serial_write t (c "  ");
  t ← serial_write t name;
  t ← serial_write t (ln "");
  t ← serial_write t (c "  error  ");
  t ← put_hex64 t (error_code f);
  t ← serial_write t (ln "");
  t ← serial_write t (ln "  -- registers --");
  t ← dump_pair t (c "rax") (rax f) (c "rbx") (rbx f);
  t ← dump_pair t (c "rcx") (rcx f) (c "rdx") (rdx f);
  t ← dump_pair t (c "rsi") (rsi f) (c "rdi") (rdi f);
  t ← dump_pair t (c "rbp") (rbp f) (c "rsp") (rsp f);
  t ← dump_pair t (c "r8 ") (r8 f) (c "r9 ") (r9 f);
  t ← dump_pair t (c "r10") (r10 f) (c "r11") (r11 f);
  t ← dump_pair t (c "r12") (r12 f) (c "r13") (r13 f);
  t ← dump_pair t (c "r14") (r14 f) (c "r15") (r15 f);
  t ← serial_write t (ln "  -- fault frame --");
  t ← dump_pair t (c "rip") (rip f) (c "cs ") (cs f);
  dump_pair t (c "rfl") (rflags f) (c "ss ") (ss f).

(** [(ec & (1u << b)) ? yes : no] *)
Definition pick (ec b : Z) (yes no : cstring) : cstring :=
  if Z.land ec (Z.shiftl 1 b) =? 0 then no else yes.

Definition report_page_fault t f : outcome io :=
  let cr2 := paging_read_cr2 t in
  let ec := error_code f in
  t ← serial_write t (ln "  -- page fault --");
  t ← serial_write t (c "  cr2 (faulting addr) ");
  t ← put_hex64 t cr2;
  t ← serial_write t (ln "");
  t ← serial_write t (c "  cause: ");
  t ← serial_write t (pick ec 0 (c "protection-violation") (c "page-not-present"));
  t ← serial_write t (c ", ");
  t ← serial_write t (pick ec 1 (c "write") (c "read"));
  t ← serial_write t (c ", ");
  t ← serial_write t (pick ec 2 (c "user") (c "supervisor"));
  t ← (if Z.land ec (Z.shiftl 1 3) =? 0 then Ok t else serial_write t (c ", reserved-bit-set"));
  t ← (if Z.land ec (Z.shiftl 1 4) =? 0 then Ok t else serial_write t (c ", instruction-fetch"));
  serial_write t (ln "").

(** Everything [isr_handler] does before it parks the CPU. *)
Definition isr_report t f : outcome io :=
  t ← report_frame t f;
  t ← (if vector f =? 14 then report_page_fault t f else Ok t);
  t ← serial_write t (ln "  system halted.");
  serial_write t (ln "================================================").

Definition isr_handler t f : outcome io :=
  t ← isr_report t f;
  Halted.
End code.

(** * The report as text *)

Definition exception_name (v : Z) : cstring := default (c "(unknown)") (exception_names !! Z.to_nat v).

Definition pair_text (na : string) (a : Z) (nb : string) (b : Z) : cstring :=
  c "  " ++ c na ++ c " " ++ hex64 a ++ c "   " ++ c nb ++ c " " ++ hex64 b ++ ln "".
Arguments pair_text na%_string a nb%_string b.

Definition frame_text f : cstring :=
  ln "" ++ ln "================= CPU EXCEPTION =================" ++
  (c "  vector " ++ hex64 (vector f) ++ c "  " ++ exception_name (vector f) ++ ln "") ++
  (c "  error  " ++ hex64 (error_code f) ++ ln "") ++
  ln "  -- registers --" ++
  pair_text "rax" (rax f) "rbx" (rbx f) ++ pair_text "rcx" (rcx f) "rdx" (rdx f) ++
  pair_text "rsi" (rsi f) "rdi" (rdi f) ++ pair_text "rbp" (rbp f) "rsp" (rsp f) ++
  pair_text "r8 " (r8 f) "r9 " (r9 f) ++ pair_text "r10" (r10 f) "r11" (r11 f) ++
  pair_text "r12" (r12 f) "r13" (r13 f) ++ pair_text "r14" (r14 f) "r15" (r15 f) ++
  ln "  -- fault frame --" ++
  pair_text "rip" (rip f) "cs " (cs f) ++ pair_text "rfl" (rflags f) "ss " (ss f).

(** The cause a page fault's error code stands for, bit by bit. *)
Definition cause_text (ec : Z) : cstring :=
  (if Z.testbit ec 0 then c "protection-violation" else c "page-not-present") ++ c ", " ++
  (if Z.testbit ec 1 then c "write" else c "read") ++ c ", " ++
  (if Z.testbit ec 2 then c "user" else c "supervisor") ++
  (if Z.testbit ec 3 then c ", reserved-bit-set" else []) ++
  (if Z.testbit ec 4 then c ", instruction-fetch" else []).

Definition page_fault_text (ec cr2 : Z) : cstring :=
  ln "  -- page fault --" ++ (c "  cr2 (faulting addr) " ++ hex64 cr2 ++ ln "") ++
  (c "  cause: " ++ cause_text ec ++ ln "").

Definition crash_text f (cr2 : Z) : cstring :=
  frame_text f ++ (if vector f =? 14 then page_fault_text (error_code f) cr2 else []) ++
  ln "  system halted." ++ ln "================================================".

(** Every field is a 64-bit word. *)
Definition frame_ok f : Prop :=
  Forall (λ v, 0 ≤ v < 2 ^ 64) [rax f; rbx f; rcx f; rdx f; rsi f; rdi f; rbp f; r8 f; r9 f; r10 f; r11 f;
    r12 f; r13 f; r14 f; r15 f; vector f; error_code f; rip f; cs f; rflags f; rsp f; ss f].

(** * Lemmas *)

Lemma ln_bytes s : Forall (λ b, 0 ≤ b < 256) (ln s).
Proof. apply Forall_app. split; [apply c_bytes|]. apply Forall_singleton. by unfold chr_nl. Qed.

(** Digits need no carriage return. *)
Lemma crlf_no_nl s : chr_nl ∉ s → crlf s = s.
Proof.
  induction s as [|ch s IH]; [done|]. rewrite not_elem_of_cons. intros [Hne Hs]. cbn [crlf].
  rewrite (proj2 (Z.eqb_neq ch chr_nl)) by done. cbn [app]. by rewrite IH.
Qed.

Lemma fixed_hex_no_nl n v : chr_nl ∉ fixed_hex n v.
Proof.
  revert v. induction n as [|n IH]; intros v; [by apply not_elem_of_nil|]. cbn [fixed_hex].
  rewrite not_elem_of_app, list_elem_of_singleton. split; [apply IH|].
  pose proof (Z.mod_pos_bound v 16 ltac:(lia)). unfold hex_digit, chr_nl. case_match; lia.
Qed.

Lemma crlf_hex64 v : crlf (hex64 v) = hex64 v.
Proof.
  apply crlf_no_nl. unfold hex64. rewrite not_elem_of_app. split; [|apply fixed_hex_no_nl].
  apply (bool_decide_unpack _). by vm_compute.
Qed.

Lemma land_bit x b : 0 ≤ b → (Z.land x (Z.shiftl 1 b) =? 0) = negb (Z.testbit x b).
Proof.
  intros Hb. rewrite Z.shiftl_1_l. destruct (Z.testbit x b) eqn:Hx; cbn [negb].
  - apply Z.eqb_neq. intros Hz. apply (f_equal (λ v, Z.testbit v b)) in Hz.
    rewrite Z.land_spec, Hx, Z.pow2_bits_true, Z.bits_0 in Hz by done. done.
  - apply Z.eqb_eq. apply Z.bits_inj'. intros n Hn. rewrite Z.land_spec, Z.bits_0.
    destruct (decide (n = b)) as [->|]; [by rewrite Hx|]. by rewrite Z.pow2_bits_false, andb_false_r by done.
Qed.

Lemma name_lookup v : 0 ≤ v →
  (if v <? 32 then arr_get exception_names v else Ok (c "(unknown)")) = Ok (exception_name v).
Proof.
  intros Hv. unfold exception_name. assert (length exception_names = 32%nat) as Hlen by done.
  destruct (Z.ltb_spec v 32).
  - destruct (lookup_lt_is_Some_2 exception_names (Z.to_nat v)) as [x Hx]; [lia|].
    rewrite Hx. cbn [default]. rewrite <- (Z2Nat.id v) by done. by apply arr_get_Some.
  - by rewrite lookup_ge_None_2 by lia.
Qed.

Lemma name_bytes v : Forall (λ b, 0 ≤ b < 256) (exception_name v).
Proof.
  unfold exception_name. destruct (exception_names !! Z.to_nat v) as [x|] eqn:Hx; cbn [default]; [|apply c_bytes].
  apply list_elem_of_lookup_2, list_elem_of_In in Hx. unfold exception_names in Hx. apply in_map_iff in Hx as (y & <- & _).
  apply c_bytes.
Qed.

(** Bytes of a text, as they go down the line. *)
Section proofs.
Context `{!Machine, !Uart}.

Lemma prints_c s : prints (λ t, serial_write t (c s)) (crlf (c s)).
Proof. apply prints_write, c_bytes. Qed.

Lemma prints_ln s : prints (λ t, serial_write t (ln s)) (crlf (ln s)).
Proof. apply prints_write, ln_bytes. Qed.

Lemma prints_hex v : 0 ≤ v < 2 ^ 64 → prints (λ t, put_hex64 t v) (crlf (hex64 v)).
Proof. rewrite crlf_hex64. apply prints_hex64. Qed.

Lemma prints_space : prints (λ t, serial_putc t 32) (crlf (c " ")).
Proof. apply (prints_putc 32). lia. Qed.

Lemma prints_text o1 o2 s1 s2 :
  prints o1 (crlf s1) → prints o2 (crlf s2) → prints (λ t, t ← o1 t; o2 t) (crlf (s1 ++ s2)).
Proof. rewrite crlf_app. apply prints_bind. Qed.

Lemma prints_pair na a nb b : 0 ≤ a < 2 ^ 64 → 0 ≤ b < 2 ^ 64 →
  prints (λ t, dump_pair t (c na) a (c nb) b) (crlf (pair_text na a nb b)).
Proof.
  intros Ha Hb. unfold pair_text, dump_pair.
  repeat first [apply prints_text; [first [apply prints_c|apply prints_space|by apply prints_hex]|]|apply prints_ln].
Qed.

#[local] Opaque c ln crlf hex64 pair_text serial_write serial_putc put_hex64 dump_pair exception_name.

(** The sequence of prints of a text, split as the text is. *)
Ltac print_text :=
  repeat first
    [ apply prints_text; [print_piece|] | print_piece ]
with print_piece :=
  first [apply prints_c | apply prints_ln | apply prints_space
        | apply prints_hex; lia | apply prints_pair; lia
        | apply prints_write, name_bytes].

Lemma report_frame_prints f : frame_ok f → prints (λ t, report_frame t f) (crlf (frame_text f)).
Proof.
  intros Hf t Hd. unfold report_frame.
  pose proof Hf as HF. unfold frame_ok in HF. rewrite !Forall_cons in HF. destruct_and! HF.
  rewrite name_lookup, bind_ok by lia. revert t Hd.
  unfold frame_text. rewrite <- !app_assoc. print_text.
Qed.

Lemma pick_text ec b yes no : 0 ≤ b → pick ec b yes no = if Z.testbit ec b then yes else no.
Proof. intros Hb. unfold pick. rewrite land_bit by done. by destruct (Z.testbit ec b). Qed.

Lemma prints_either (b : bool) s1 s2 :
  prints (λ t, serial_write t (if b then c s1 else c s2)) (crlf (if b then c s1 else c s2)).
Proof. destruct b; apply prints_c. Qed.

Lemma prints_also (b : bool) s :
  prints (λ t, if negb b then Ok t else serial_write t (c s)) (crlf (if b then c s else [])).
Proof. destruct b; [apply prints_c|apply prints_nothing]. Qed.

Lemma report_page_fault_returns t f : frame_ok f → dlab (uart_of t) = false →
  returns (report_page_fault t f) (sends t (crlf (page_fault_text (error_code f) (paging_read_cr2 t)))).
Proof.
  intros Hf Hd. unfold report_page_fault, page_fault_text, cause_text. cbv zeta.
  pose proof (u64_range (cr2_in t)) as Hcr2. change (u64 (cr2_in t)) with (paging_read_cr2 t) in Hcr2.
  generalize dependent (paging_read_cr2 t). intros cr2 Hcr2.
  rewrite !pick_text, !land_bit by lia. rewrite <- !app_assoc. revert t Hd.
  repeat first [apply prints_text; [first [print_piece|apply prints_either|apply prints_also]|]|print_piece].
Qed.

(** The whole report; [t1] is where the fault address is read. *)
Lemma isr_report_returns t f : frame_ok f → dlab (uart_of t) = false →
  returns (isr_report t f) (λ t', ∃ t1, sends t (crlf (frame_text f)) t1 ∧
    sends t (crlf (crash_text f (paging_read_cr2 t1))) t').
Proof.
  intros Hf Hd. unfold isr_report. ret_step report_frame_prints; [done|done|]. intros t1 H1.
  apply returns_bind. apply (returns_mono _ (sends t1 (crlf
    (if vector f =? 14 then page_fault_text (error_code f) (paging_read_cr2 t1) else [])))).
  { case_match; [by apply report_page_fault_returns; [|eapply sends_dlab]|by eapply sends_nil, sends_dlab]. }
  intros t2 H2. ret_step prints_ln; [by eapply sends_dlab|]. intros t3 H3.
  eapply returns_mono; [by eapply prints_ln, sends_dlab|]. intros t4 H4. exists t1. split; [done|].
  unfold crash_text. rewrite !crlf_app. eapply sends_app; [done|]. eapply sends_app; [done|]. by eapply sends_app.
Qed.
End proofs.

#[local] Existing Instances serial_demo.machine0 serial_demo.uart0.

(** * What the crash screen promises *)

(** C27. The crash screen.  On an open serial line any exception, whatever the frame
    holds, ends in the report and then in a halted CPU: the report returns, and what
    went out is exactly the text of the frame, that is the exception's name, every
    register, and for a page fault the fault address as it stood when the registers
    were out and the cause decoded from the error code's bits. *)
Theorem isr_handler_correct {M : Machine} {U : Uart} t f :
  frame_ok f → dlab (uart_of t) = false →
  isr_handler t f = Halted ∧
  ∃ t1 t', isr_report t f = Ok t' ∧ sends t (crlf (frame_text f)) t1 ∧
    sent (uart_of t') = sent (uart_of t) ++ crlf (crash_text f (paging_read_cr2 t1)).
Proof.
  intros Hf Hd. destruct (returns_inv _ _ (isr_report_returns t f Hf Hd)) as (t' & Hrun & t1 & H1 & H2).
  unfold isr_handler. rewrite Hrun. split; [done|]. exists t1, t'. split; [done|split; [done|]].
  destruct H2 as [-> _]. done.
Qed.

(** A write to an unmapped page. *)
Lemma isr_handler_correct_witness :
  let f := {| rax := 1; rbx := 2; rcx := 3; rdx := 4; rsi := 5; rdi := 6; rbp := 7; r8 := 8; r9 := 9; r10 := 10;
    r11 := 11; r12 := 12; r13 := 13; r14 := 14; r15 := 15; vector := 14; error_code := 2; rip := 0xffffffff80000000;
    cs := 8; rflags := 0x202; rsp := 0xffff800000010000; ss := 16 |} in
  isr_handler (serial_init []) f = Halted ∧
  exception_name 14 = c "#PF Page Fault" ∧ cause_text 2 = c "page-not-present, write, supervisor".
Proof.
  intros f. destruct (isr_handler_correct (serial_init []) f ltac:(apply (bool_decide_unpack _); by vm_compute) eq_refl)
    as [Hrun _].
  split; [exact Hrun|split; reflexivity].
Defined.
