(* ===== verification/Vmm.v ===== *)
(** kernel/core/mm/vmm.c: the kernel's address space.

    [vmm_init] takes a frame for the top-level table, mirrors every region of
    the memory map into the direct map, maps the kernel image, checks the
    safety gate and loads cr3.  The abstract side is the list of pages it sets
    out to map, [kernel_space]; the theorem is that, with frames enough for the
    tables these pages need, it returns running on an address space that is
    exactly that list, and what the processor then makes of an address. *)

From stdpp Require Import base list gmap sets.
From Stdlib Require Import ZArith Lia String.
From S2P Require Import Prelude.
From S2P Require Import Mem.
From S2P Require Import LibString.
From S2P Require Import Pmm.
From S2P Require Import Paging.
From S2P Require Import Io.
From S2P Require Import Serial.

Implicit Types (t : io) (σ : vm_state) (v p virt phys flags base length hhdm : Z).

(** * State and parameters *)

Record vmm := { vmm_vm : vm_state; kernel_pml4 : Z }.

Implicit Types (k : vmm).

(** The bounds of the kernel image, from the linker script. *)
Class KernelImage := { __kernel_start : Z; __data_start : Z; __kernel_end : Z }.

(** struct limine_executable_address_response (the fields read). *)
Record kernel_address := { virtual_base : Z; physical_base : Z }.

(** * The code *)

Section code.
Context `{!Machine}.

Definition vmm_panic {A} t (msg : cstring) : outcome A :=
  t ← serial_write t (c "vmm panic: ");
  t ← serial_write t msg;
  t ← serial_write t [chr_nl];
  Halted.

Definition vmm_map k virt phys flags : outcome (vmm * bool) :=
  '(σ, b) ← paging_map (vmm_vm k) (kernel_pml4 k) virt phys flags;
  Ok ({| vmm_vm := σ; kernel_pml4 := kernel_pml4 k |}, b).

Definition vmm_unmap k virt : outcome (vmm * bool) :=
  '(σ, b) ← paging_unmap (vmm_vm k) (kernel_pml4 k) virt;
  Ok ({| vmm_vm := σ; kernel_pml4 := kernel_pml4 k |}, b).

Definition vmm_translate k virt : outcome (vmm * option Z) :=
  '(σ, r) ← paging_translate (vmm_vm k) (kernel_pml4 k) virt;
  Ok ({| vmm_vm := σ; kernel_pml4 := kernel_pml4 k |}, r).

Definition frame_floor x : Z := Z.land x (u64 (Z.lnot (PMM_FRAME_SIZE - 1))).

Definition map_hhdm_range t k base length hhdm : outcome vmm :=
  let start := frame_floor base in
  let end_ := frame_floor (u64 (base + length + PMM_FRAME_SIZE - 1)) in
  loop (λ '(p, k),
    if p <? end_ then
      '(k, b) ← vmm_map k (u64 (p + hhdm)) p VM_WRITE;
      if negb b then vmm_panic t (c "out of frames mapping the HHDM")
      else Ok (inl (u64 (p + PMM_FRAME_SIZE), k))
    else Ok (inr k)) (start, k).

Definition map_kernel_range t k (virt_start virt_end vbase pbase : Z) flags : outcome vmm :=
  loop (λ '(v, k),
    if v <? virt_end then
      let phys := u64 (v - vbase + pbase) in
      '(k, b) ← vmm_map k v phys flags;
      if negb b then vmm_panic t (c "out of frames mapping the kernel image")
      else Ok (inl (u64 (v + PMM_FRAME_SIZE), k))
    else Ok (inr k)) (virt_start, k).

(** Step 1: every region of the memory map. *)
Fixpoint map_regions t k hhdm (memmap : list limine_memmap_entry) : outcome vmm :=
  match memmap with
  | [] => Ok k
  | e :: rest =>
      k ← map_hhdm_range t k (Pmm.base e) (length_ e) hhdm;
      map_regions t k hhdm rest
  end.

Definition vmm_init `{!KernelImage, !PagingText} t k (kaddr : kernel_address)
    (memmap : list limine_memmap_entry) hhdm : outcome (io * vmm) :=
  let σ := paging_set_hhdm (vmm_vm k) hhdm in
  '(ps, m, root) ← pmm_alloc_frame (pmm σ) (ram σ);
  let σ := set_pmm σ ps m in
  if root =? 0 then vmm_panic t (c "no frame for the kernel PML4") else
  '(m, _) ← memset (ram σ) (u64 (root + hhdm)) 0 PMM_FRAME_SIZE;
  let k := {| vmm_vm := set_ram σ m; kernel_pml4 := root |} in
  k ← map_regions t k hhdm memmap;
  let vbase := virtual_base kaddr in
  let pbase := physical_base kaddr in
  k ← map_kernel_range t k __kernel_start __data_start vbase pbase 0;
  k ← map_kernel_range t k __data_start __kernel_end vbase pbase VM_WRITE;
  '(σ, ok) ← paging_can_switch_to (vmm_vm k) (kernel_pml4 k);
  if negb ok then vmm_panic t (c "new tables don't map the live code/stack — refusing cr3 load") else
  let k := {| vmm_vm := paging_load_cr3 σ (kernel_pml4 k); kernel_pml4 := kernel_pml4 k |} in
  t ← serial_write t (c "ScrapOS: now running on our own page tables" ++ [chr_nl]);
  Ok (t, k).
End code.

(** * The pages to map *)

(** Virtual address, frame, flags. *)
Definition page : Type := Z * Z * Z.

Definition add_page (PM : pmap) (pa : page) : pmap := <[vpage pa.1.1 := leaf_pte pa.1.2 pa.2]> PM.
Definition add_pages (PM : pmap) (l : list page) : pmap := foldl add_page PM l.

Definition page_count (lo hi : Z) : Z := (hi - lo + PMM_FRAME_SIZE - 1) / PMM_FRAME_SIZE.

(** The pages of [[lo, hi)], one every 4096 bytes from [lo] on, at [phys] of each. *)
Definition range_pages (lo hi : Z) (virt_of phys_of : Z → Z) flags : list page :=
  (λ i, let a := lo + i * PMM_FRAME_SIZE in (virt_of a, phys_of a, flags)) <$> seqZ 0 (page_count lo hi).

(** First and last frame boundary around a region. *)
Definition region_start (e : limine_memmap_entry) : Z := Pmm.base e - Pmm.base e mod PMM_FRAME_SIZE.
Definition region_end (e : limine_memmap_entry) : Z :=
  let top := Pmm.base e + length_ e + PMM_FRAME_SIZE - 1 in top - top mod PMM_FRAME_SIZE.

Definition region_pages hhdm (e : limine_memmap_entry) : list page :=
  range_pages (region_start e) (region_end e) (λ p, u64 (p + hhdm)) (λ p, p) VM_WRITE.

Definition image_pages (kaddr : kernel_address) (lo hi : Z) flags : list page :=
  range_pages lo hi (λ v, v) (λ v, u64 (v - virtual_base kaddr + physical_base kaddr)) flags.

Definition kernel_space `{!KernelImage} kaddr memmap hhdm : list page :=
  (memmap ≫= region_pages hhdm) ++ image_pages kaddr __kernel_start __data_start 0 ++
  image_pages kaddr __data_start __kernel_end VM_WRITE.

(** The tables below the root these pages go through. *)
Definition page_tables (pa : page) : list (Z * Z) :=
  (λ l, (l, pre l (vpage pa.1.1))) <$> [3; 2; 1].
Definition tables_for (l : list page) : gset (Z * Z) := list_to_set (l ≫= page_tables).

(** * Building the space *)

Section building.
Context (hhdm : Z) (U F0 : gset Z) (ps0 : pmm_state) (m0 : mem) (c0 : cpu) (root : Z).

(** What may be written: the frame bitmap and frames that were free. *)
Definition build_area : Z → Prop := λ x,
  bitmap_area ps0 x ∨ ∃ f, f ∈ F0 ∧ frame_mem hhdm f x.

(** Half way: the space maps [PM], its tables are among [K], and every frame is
    either still free or a table. *)
Definition built (K : gset (Z * Z)) (PM : pmap) k : Prop := ∃ F T,
  vm_inv (vmm_vm k) U F root T PM ∧ kernel_pml4 k = root * PMM_FRAME_SIZE ∧
  hhdm_offset (vmm_vm k) = hhdm ∧ bitmap_area (pmm (vmm_vm k)) = bitmap_area ps0 ∧
  rsp (vcpu (vmm_vm k)) = rsp c0 ∧
  (∀ q f u, T !! q = Some (f, u) → (q = (4, 0) ∨ q ∈ K) ∧ f ∈ F0) ∧ F ⊆ F0 ∧
  (size K + 1 ≤ size F0)%nat ∧ (size F + size T = size F0)%nat ∧ mods build_area m0 (ram (vmm_vm k)).

Lemma build_area_tables σ T x :
  hhdm_offset σ = hhdm → bitmap_area (pmm σ) = bitmap_area ps0 →
  (∀ q f u, T !! q = Some (f, u) → f ∈ F0) → vm_area σ T x → build_area x.
Proof.
  intros Hh Hb HT [Hx|(q & f & u & Hq & Hx)]; [left; by rewrite <- Hb|right].
  exists f. rewrite <- Hh. split; [by eapply HT|done].
Qed.

Lemma size_drop_one (K : gset (Z * Z)) q r :
  q ∈ K → (size ({[r]} ∪ K ∖ {[q]}) ≤ size K)%nat.
Proof.
  intros Hq. rewrite size_union_alt, size_singleton.
  assert (size ((K ∖ {[q]}) ∖ {[r]}) ≤ size (K ∖ {[q]}))%nat by (apply subseteq_size; clear; set_solver).
  assert ({[q]} ⊆ K) as Hsub by (clear -Hq; set_solver). rewrite (size_difference K {[q]} Hsub), size_singleton in *.
  apply subseteq_size in Hsub. rewrite size_singleton in Hsub. lia.
Qed.

Lemma tables_bound (K : gset (Z * Z)) (T : tabs) :
  (∀ q f u, T !! q = Some (f, u) → (q = (4, 0) ∨ q ∈ K) ∧ f ∈ F0) → (size T ≤ size K + 1)%nat.
Proof.
  intros HT. rewrite <- (size_dom (D := gset (Z * Z))).
  assert (dom T ⊆ {[(4, 0)]} ∪ K) as Hsub.
  { intros q [[f u] Hq]%elem_of_dom. destruct (HT _ _ _ Hq) as [[->|HqK] _]; [clear|clear -HqK]; set_solver. }
  apply subseteq_size in Hsub. etransitivity; [exact Hsub|]. rewrite size_union_alt, size_singleton.
  assert (size (K ∖ {[(4%Z, 0%Z)]}) ≤ size K)%nat by (apply subseteq_size; clear; set_solver). lia.
Qed.

(** As long as the tables a page needs are in [K] mapping it cannot fail. *)
Lemma vmm_map_built `{!Machine} K PM k virt phys flags :
  built K PM k → (∀ q, path_key (vpage virt) q → q ∈ K) →
  returns (vmm_map k virt phys flags) (λ '(k', b),
    b = true ∧ built K (<[vpage virt := leaf_pte phys flags]> PM) k').
Proof.
  intros (F & T & V & Hr & Hh & Hb & Hrsp & HT & HF & HK0 & Hcount & Hm) HK. unfold vmm_map. rewrite Hr.
  ret_step (paging_map_returns _ _ _ _ _ _ virt phys flags V). intros [σ' b] (F' & T' & σ1 & G & Hh' & Hb' & Hm' & Hs).
  cbn [returns].
  assert (∀ q f u, T' !! q = Some (f, u) → (q = (4, 0) ∨ q ∈ K) ∧ f ∈ F0) as HT'.
  { intros q f u [?|(_ & Hf & _ & Hq)]%(gr_new _ _ _ _ _ _ _ _ G); [by eapply HT|].
    split; [right; by apply HK|by apply HF]. }
  destruct Hs as [(-> & -> & V' & _ & -> & Hnone)|(-> & Hfl & _ & V')].
  { exfalso. pose proof (gr_count _ _ _ _ _ _ _ _ G) as Hc. rewrite size_empty in Hc.
    set (q1 := (1, vpage virt / 512)) in *. assert (q1 ∈ K) as HinK by (apply HK; done).
    assert (dom T' ⊆ {[(4, 0)]} ∪ K ∖ {[q1]}) as Hsub.
    { intros q [[f u] Hq]%elem_of_dom. destruct (HT' _ _ _ Hq) as [[->|HqK] _]; [clear; set_solver|].
      apply elem_of_union. right. apply elem_of_difference. split; [done|].
      intros ->%elem_of_singleton. congruence. }
    apply subseteq_size in Hsub. rewrite size_dom in Hsub.
    pose proof (size_drop_one K q1 (4, 0) HinK). lia. }
  split; [done|]. exists F', T'. cbn [vmm_vm kernel_pml4].
  split; [done|]. split; [done|]. split; [congruence|]. split; [congruence|].
  split; [by rewrite Hfl|]. split; [done|].
  split; [transitivity F; [apply G|done]|]. split; [done|]. split; [pose proof (gr_count _ _ _ _ _ _ _ _ G); lia|].
  eapply mods_trans; [exact Hm|]. eapply mods_weaken; [exact Hm'|].
  intros x. apply build_area_tables; [done|done|]. intros q f u Hq. by eapply HT'.
Qed.

Lemma page_tables_path pa q : path_key (vpage pa.1.1) q ↔ q ∈ page_tables pa.
Proof.
  destruct q as [l q]. unfold page_tables. cbn [path_key]. rewrite list_elem_of_fmap. split.
  - intros [Hl ->]. exists l. split; [done|]. rewrite !elem_of_cons, elem_of_nil. lia.
  - intros (l' & [= -> ->] & Hl). rewrite !elem_of_cons, elem_of_nil in Hl. split; [lia|done].
Qed.

Lemma tables_for_page pa l q : pa ∈ l → path_key (vpage pa.1.1) q → q ∈ tables_for l.
Proof.
  intros Hpa Hq%page_tables_path. unfold tables_for. apply elem_of_list_to_set, list_elem_of_bind. by exists pa.
Qed.

Lemma add_pages_app PM l1 l2 : add_pages PM (l1 ++ l2) = add_pages (add_pages PM l1) l2.
Proof. apply foldl_app. Qed.

Lemma seqZ_snoc lo j : 0 ≤ j → seqZ lo (j + 1) = seqZ lo j ++ [lo + j].
Proof. intros. by rewrite seqZ_app by lia. Qed.

Lemma page_count_spec lo hi i :
  0 ≤ i → lo + i * PMM_FRAME_SIZE < hi ↔ i < page_count lo hi.
Proof. unfold page_count, PMM_FRAME_SIZE. intros. div_lia. Qed.

(** Both mapping loops: page [i] of the range in round [i]. *)
Lemma map_range_built `{!Machine} t msg K PM k lo hi virt_of phys_of flags body :
  let pages := range_pages lo hi virt_of phys_of flags in
  built K PM k → tables_for pages ⊆ K → 0 ≤ lo → hi + PMM_FRAME_SIZE ≤ 2 ^ 64 →
  (∀ a k, lo ≤ a → body (a, k) =
    if a <? hi then
      '(k, b) ← vmm_map k (virt_of a) (phys_of a) flags;
      if negb b then vmm_panic t msg else Ok (inl (u64 (a + PMM_FRAME_SIZE), k))
    else Ok (inr k)) →
  returns (loop (R := vmm) body (lo, k)) (built K (add_pages PM pages)).
Proof.
  intros pages Hk HK Hlo Hhi Hbody.
  set (page_at := λ i, let a := lo + i * PMM_FRAME_SIZE in (virt_of a, phys_of a, flags) : page).
  set (I := λ '(a, k'), ∃ i, 0 ≤ i ∧ (i = 0 ∨ i ≤ page_count lo hi) ∧ a = lo + i * PMM_FRAME_SIZE ∧
    built K (add_pages PM (page_at <$> seqZ 0 i)) k').
  apply (loop_rule I) with (μ := λ '(a, _), Z.max 0 (hi + PMM_FRAME_SIZE - a)).
  - exists 0. split; [done|split; [by left|split; [lia|exact Hk]]].
  - unfold PMM_FRAME_SIZE in *. lia.
  - intros [a k'] (i & Hi & Hic & -> & Hb). rewrite Hbody by (unfold PMM_FRAME_SIZE; lia).
    destruct (Z.ltb_spec (lo + i * PMM_FRAME_SIZE) hi) as [Hlt|Hge].
    + apply page_count_spec in Hlt as Hcount; [|done].
      ret_step vmm_map_built; [exact Hb| |].
      { intros q Hq. apply HK, (tables_for_page (page_at i)); [|exact Hq].
        apply list_elem_of_fmap. exists i. split; [done|]. apply elem_of_seqZ. lia. }
      intros [k2 b] [-> Hb2]. cbn [negb returns]. rewrite u64_id by (unfold PMM_FRAME_SIZE in *; lia).
      split; [|unfold PMM_FRAME_SIZE in *; lia]. exists (i + 1). split; [lia|split; [lia|split; [lia|]]].
      rewrite seqZ_snoc, fmap_app, add_pages_app by done. exact Hb2.
    + cbn [returns]. assert (seqZ 0 i = seqZ 0 (page_count lo hi)) as Heq.
      { pose proof (page_count_spec lo hi i Hi) as Hc.
        destruct (decide (i ≤ page_count lo hi)); [f_equal; lia|].
        assert (i = 0) as -> by lia. rewrite !seqZ_nil by lia. done. }
      rewrite Heq in Hb. exact Hb.
Qed.

Lemma frame_floor_eq x : 0 ≤ x < 2 ^ 64 → frame_floor x = x - x mod PMM_FRAME_SIZE.
Proof. intros Hx. unfold frame_floor. change PMM_FRAME_SIZE with (2 ^ 12). by apply land_high_mask. Qed.

(** A region lies in the first 64 TiB of physical memory. *)
Definition region_ok (e : limine_memmap_entry) : Prop :=
  0 ≤ Pmm.base e ∧ 0 ≤ length_ e ∧ Pmm.base e + length_ e ≤ 2 ^ 46.

Lemma map_regions_built `{!Machine} t K PM k memmap :
  built K PM k → tables_for (memmap ≫= region_pages hhdm) ⊆ K → Forall region_ok memmap →
  returns (map_regions t k hhdm memmap) (built K (add_pages PM (memmap ≫= region_pages hhdm))).
Proof.
  revert PM k. induction memmap as [|e rest IH]; intros PM k Hk HK Hok; [done|].
  apply Forall_cons in Hok as [(Hb & Hl & Htop) Hok]. cbn [map_regions].
  assert (tables_for (region_pages hhdm e) ⊆ K ∧ tables_for (rest ≫= region_pages hhdm) ⊆ K) as [HK1 HK2].
  { unfold tables_for in *. rewrite bind_cons, bind_app, list_to_set_app in HK.
    by apply union_subseteq in HK. }
  unfold map_hhdm_range.
  rewrite (u64_id (Pmm.base e + length_ e + _ - 1)) by (unfold PMM_FRAME_SIZE; lia).
  rewrite !frame_floor_eq by (unfold PMM_FRAME_SIZE; lia).
  apply returns_bind. eapply returns_mono.
  { eapply (map_range_built t _ K PM k (region_start e) (region_end e) (λ p, u64 (p + hhdm)) (λ p, p) VM_WRITE);
      [exact Hk|exact HK1| | |].
    - unfold region_start, PMM_FRAME_SIZE. div_lia.
    - unfold region_end, PMM_FRAME_SIZE in *. div_lia.
    - intros a k' _. reflexivity. }
  intros k1 Hk1. cbv beta in Hk1. rewrite bind_cons, add_pages_app. by apply IH.
Qed.

Lemma map_kernel_built `{!Machine} t K PM k kaddr lo hi flags :
  built K PM k → tables_for (image_pages kaddr lo hi flags) ⊆ K → 0 ≤ lo → hi + PMM_FRAME_SIZE ≤ 2 ^ 64 →
  returns (map_kernel_range t k lo hi (virtual_base kaddr) (physical_base kaddr) flags)
    (built K (add_pages PM (image_pages kaddr lo hi flags))).
Proof.
  intros Hk HK Hlo Hhi. unfold map_kernel_range.
  eapply (map_range_built t _ K PM k lo hi (λ v, v) (λ v, u64 (v - virtual_base kaddr + physical_base kaddr)) flags);
    [exact Hk|exact HK|done|done|]. intros a k' _. reflexivity.
Qed.
End building.

(** [page] is mapped by one of the pages. *)
Definition covers (l : list page) v : Prop := ∃ pa, pa ∈ l ∧ vpage pa.1.1 = vpage v.

Lemma add_pages_covers l PM v : covers l v → is_Some (add_pages PM l !! vpage v).
Proof.
  revert PM. induction l as [|pa l IH] using rev_ind; intros PM (qa & Hq & Hv); [by apply elem_of_nil in Hq|].
  rewrite add_pages_app. cbn. unfold add_page. rewrite lookup_insert_is_Some'.
  apply elem_of_app in Hq as [Hq| ->%list_elem_of_singleton]; [right|by left]. apply IH. by exists qa.
Qed.

Lemma vmm_init_returns `{!Machine, !Uart, !KernelImage, !PagingText} t k kaddr memmap hhdm U F :
  let σ := paging_set_hhdm (vmm_vm k) hhdm in
  let pages := kernel_space kaddr memmap hhdm in
  dlab (uart_of t) = false → pmm_rep (pmm σ) (ram σ) U F → arena (pmm σ) (ram σ) hhdm F →
  (∀ f, f ∈ U → f < 2 ^ 40) → Forall region_ok memmap →
  0 ≤ __kernel_start → __kernel_start ≤ __data_start → __data_start ≤ __kernel_end →
  __kernel_end + PMM_FRAME_SIZE ≤ 2 ^ 64 →
  (size (tables_for pages) + 1 ≤ size F)%nat →
  covers pages (rsp (vcpu σ)) → covers pages paging_load_cr3_addr →
  returns (vmm_init t k kaddr memmap hhdm) (λ '(t', k'), ∃ F' T root,
    let σ' := vmm_vm k' in
    vm_inv σ' U F' root T (add_pages ∅ pages) ∧ F' ⊆ F ∧ (∀ q f u, T !! q = Some (f, u) → f ∈ F) ∧
    (size F' + size T = size F ∧ size T ≤ size (tables_for pages) + 1)%nat ∧
    kernel_pml4 k' = root * PMM_FRAME_SIZE ∧ cr3 (vcpu σ') = root * PMM_FRAME_SIZE ∧
    tlb (vcpu σ') = ∅ ∧ rsp (vcpu σ') = rsp (vcpu σ) ∧
    hhdm_offset σ' = hhdm ∧ bitmap_area (pmm σ') = bitmap_area (pmm σ) ∧
    sends t (crlf (c "ScrapOS: now running on our own page tables" ++ [chr_nl])) t' ∧
    mods (build_area hhdm F (pmm σ)) (ram σ) (ram σ')).
Proof.
  intros σ pages Hd R Har Hphys Hok Hks Hkd Hde Hke Hcount Hrsp Hcode. unfold vmm_init. fold σ.
  ret_step pmm_alloc_frame_returns; [exact R|].
  intros [[ps m] phys] [(-> & _)|(i & [Hi _] & -> & Hne & R1 & Hm & _ & Hb)]; [rewrite size_empty in Hcount; lia|].
  cbv zeta. destruct (Z.eqb_spec (i * PMM_FRAME_SIZE) 0) as [?|_]; [done|].
  destruct (ar_frames _ _ _ _ Har i Hi) as (Hhi & Hback & Hbm).
  assert (i ∈ U) as HiU by by apply (rep_sub _ _ _ _ R). pose proof (rep_range _ _ _ _ R i HiU) as [Hi0 _].
  pose proof (ar_hhdm _ _ _ _ Har) as Hh0.
  rewrite (u64_id (i * PMM_FRAME_SIZE + hhdm)) by (unfold PMM_FRAME_SIZE in *; lia).
  ret_step memset_returns; [unfold PMM_FRAME_SIZE; lia|by eapply mods_backed|].
  intros [m1 r] (_ & Hm1 & Hz). change (u8 0) with 0 in Hz.
  assert (built hhdm U F (pmm σ) (ram σ) (vcpu σ) i (tables_for pages) ∅
    {| vmm_vm := set_ram (set_pmm σ ps m) m1; kernel_pml4 := i * PMM_FRAME_SIZE |}) as Hb0.
  { exists (F ∖ {[i]}), {[(4, 0) := (i, true)]}. split.
    { eapply (root_space σ); [exact R|exact Har|done|done|exact R1|exact Hm|exact Hb|exact Hm1|exact Hz]. }
    do 4 (split; [done|]). split.
    { intros q f u [<- [= <- <-]]%lookup_singleton_Some. split; [by left|done]. }
    split; [clear; set_solver|]. split; [done|]. split.
    { rewrite map_size_singleton. pose proof (size_remove F i Hi). lia. }
    eapply mods_trans; (eapply mods_weaken; [first [exact Hm|exact Hm1]|]); intros x Hx; [by left|right; by exists i]. }
  assert (tables_for (memmap ≫= region_pages hhdm) ⊆ tables_for pages ∧
    tables_for (image_pages kaddr __kernel_start __data_start 0) ⊆ tables_for pages ∧
    tables_for (image_pages kaddr __data_start __kernel_end VM_WRITE) ⊆ tables_for pages) as (HK1 & HK2 & HK3).
  { unfold pages, kernel_space, tables_for. rewrite !bind_app, !list_to_set_app.
    split; [apply union_subseteq_l|]. split; [|etransitivity; [apply union_subseteq_r|apply union_subseteq_r]].
    etransitivity; [apply union_subseteq_l|apply union_subseteq_r]. }
  ret_step map_regions_built; [exact Hb0|exact HK1|exact Hok|]. intros k1 Hb1.
  ret_step map_kernel_built; [exact Hb1|exact HK2|lia|unfold PMM_FRAME_SIZE in *; lia|]. intros k2 Hb2.
  ret_step map_kernel_built; [exact Hb2|exact HK3|lia|done|]. intros k3 Hb3.
  rewrite <- !add_pages_app in Hb3. fold (kernel_space kaddr memmap hhdm) in Hb3. fold pages in Hb3.
  destruct Hb3 as (F3 & T & V & Hr3 & Hh3 & Hb3 & Hrsp3 & HT & HF & _ & Hcount3 & Hmods).
  rewrite Hr3. destruct (can_switch_returns _ _ _ _ _ _ V) as (b & Hgate & Hb').
  rewrite Hgate, bind_ok. assert (b = true) as ->.
  { apply Hb'. rewrite Hrsp3. split; by apply add_pages_covers. }
  cbn [negb]. ret_step serial_write_returns; [done| |].
  { apply Forall_forall. intros x Hx. apply (bool_decide_unpack _). revert x Hx. by apply Forall_forall; repeat constructor. }
  intros t' Ht'. cbn [returns vmm_vm kernel_pml4]. exists F3, T, i.
  split; [by apply vm_inv_cpu|]. split; [done|]. split; [intros q f u Hq; by eapply HT|].
  split; [split; [exact Hcount3|by eapply tables_bound]|].
  do 3 (split; [done|]). split; [exact Hrsp3|]. split; [exact Hh3|split; [exact Hb3|]]. split; [exact Ht'|exact Hmods].
Qed.

(** * Reading the space *)

Lemma add_pages_other PM l v : ¬ covers l v → add_pages PM l !! vpage v = PM !! vpage v.
Proof.
  induction l as [|pa l IH] using rev_ind; intros Hc; [done|].
  rewrite add_pages_app. cbn. unfold add_page. rewrite lookup_insert_ne.
  - apply IH. intros (qa & Hq & Hv). apply Hc. exists qa. split; [|done]. apply elem_of_app. by left.
  - intros Hv. apply Hc. exists pa. split; [|done]. apply elem_of_app. right. by left.
Qed.

Lemma add_pages_lookup PM l v e :
  covers l v → (∀ pa, pa ∈ l → vpage pa.1.1 = vpage v → leaf_pte pa.1.2 pa.2 = e) →
  add_pages PM l !! vpage v = Some e.
Proof.
  revert PM. induction l as [|pa l IH] using rev_ind; intros PM Hc Hsame.
  { destruct Hc as (? & Hq & _). by apply elem_of_nil in Hq. }
  rewrite add_pages_app. cbn. unfold add_page. destruct (decide (vpage pa.1.1 = vpage v)) as [Heq|Hne].
  - rewrite Heq, lookup_insert_eq. f_equal. apply Hsame; [|done]. apply elem_of_app. right. by left.
  - rewrite lookup_insert_ne by done. apply IH.
    + destruct Hc as (qa & [Hq| ->%list_elem_of_singleton]%elem_of_app & Hv); [by exists qa|done].
    + intros qa Hq. apply Hsame. apply elem_of_app. by left.
Qed.

Lemma range_pages_elem lo hi virt_of phys_of flags pa :
  pa ∈ range_pages lo hi virt_of phys_of flags ↔ ∃ i, 0 ≤ i ∧ lo + i * PMM_FRAME_SIZE < hi ∧
    pa = (virt_of (lo + i * PMM_FRAME_SIZE), phys_of (lo + i * PMM_FRAME_SIZE), flags).
Proof.
  unfold range_pages. rewrite list_elem_of_fmap. split.
  - intros (i & -> & Hi%elem_of_seqZ). exists i. split; [lia|]. split; [apply page_count_spec; lia|done].
  - intros (i & Hi & Hlt & ->). exists i. split; [done|]. apply elem_of_seqZ.
    apply page_count_spec in Hlt; lia.
Qed.

Lemma vpage_u64 v : vpage (u64 v) = vpage v.
Proof. unfold vpage, u64. div_lia. Qed.

(** Two addresses of one page, closer than the span of the page numbers. *)
Lemma vpage_same v w : vpage v = vpage w → v mod 2 ^ 12 = 0 → w - 2 ^ 47 - 2 ^ 13 ≤ v ≤ w + 2 ^ 47 + 2 ^ 13 →
  v = w - w mod 2 ^ 12.
Proof.
  unfold vpage. change (2 ^ 12) with 4096. change (2 ^ 36) with 68719476736. change (2 ^ 47) with 140737488355328.
  change (2 ^ 13) with 8192. intros H Hv Hr. div_lia.
Qed.

(** What the processor sees of a supervisor page. *)
Lemma cached_leaf (b : bool) phys flags :
  has flags VM_USER = false → 0 ≤ phys < 2 ^ 52 →
  cached b (leaf_pte phys flags) = (phys - phys mod 2 ^ 12, if has flags VM_WRITE then PTE_WRITE else 0).
Proof.
  intros Hu Hp. unfold cached. f_equal.
  - rewrite land_addr_mask, leaf_pte_eq, Z.div_add_l by lia.
    rewrite (Z.div_small (1 + _ + _)) by (destruct (has flags VM_WRITE), (has flags VM_USER); lia).
    rewrite Z.add_0_r, Z.mod_mod by lia. rewrite Z.mod_small by div_lia. pose proof (Z.div_mod phys (2 ^ 12)). lia.
  - destruct (leaf_pte_rights phys flags) as [Hw' Hu'].
    unfold PTE_WRITE, PTE_USER in Hw', Hu'. rewrite has_testbit, Hu in Hu' by lia. rewrite has_testbit in Hw' by lia.
    apply Z.bits_inj'. intros n Hn. rewrite Z.land_spec.
    assert (∀ x m, Z.testbit (Z.shiftl 1 m) x = bool_decide (x = m) ∨ m < 0) as Hbit.
    { intros x m. destruct (decide (0 ≤ m)); [left|right; lia]. rewrite Z.shiftl_1_l.
      case_bool_decide; [subst; by apply Z.pow2_bits_true|by apply Z.pow2_bits_false]. }
    assert (Z.testbit (rights b) n = bool_decide (n = 1) || (b && bool_decide (n = 2))) as ->.
    { destruct b; unfold rights, PTE_WRITE, PTE_USER; rewrite ?Z.lor_spec, ?orb_false_r;
        destruct (Hbit n 1) as [->|?]; try lia; [|done]. destruct (Hbit n 2) as [->|?]; [done|lia]. }
    destruct (decide (n = 1)) as [->|H1].
    { cbn [bool_decide]. rewrite (bool_decide_true (1 = 1)) by done. cbn [orb andb]. rewrite Hw'.
      by destruct (has flags VM_WRITE). }
    rewrite (bool_decide_false (n = 1)) by done. cbn [orb].
    assert (Z.testbit (if has flags VM_WRITE then PTE_WRITE else 0) n = false) as ->.
    { destruct (has flags VM_WRITE); [|apply Z.bits_0]. unfold PTE_WRITE. destruct (Hbit n 1) as [->|?]; [|lia].
      by apply bool_decide_false. }
    case_bool_decide as H2; [|by rewrite andb_false_r]. subst n. by rewrite Hu', andb_false_r.
Qed.

(** The page of a range that an address falls in. *)
Lemma range_page lo v :
  lo mod PMM_FRAME_SIZE = 0 → lo ≤ v →
  0 ≤ (v - lo) / PMM_FRAME_SIZE ∧ lo + (v - lo) / PMM_FRAME_SIZE * PMM_FRAME_SIZE = v - v mod PMM_FRAME_SIZE.
Proof. unfold PMM_FRAME_SIZE. intros. div_lia. Qed.

Lemma vpage_floor v : vpage (v - v mod PMM_FRAME_SIZE) = vpage v.
Proof. unfold vpage, PMM_FRAME_SIZE. f_equal. change (2 ^ 12) with 4096. div_lia. Qed.

Lemma floor_sub v w : w mod PMM_FRAME_SIZE = 0 → (v + w) mod PMM_FRAME_SIZE = v mod PMM_FRAME_SIZE.
Proof. intros Hw. by rewrite Z.add_mod, Hw, Z.add_0_r, Z.mod_mod by done. Qed.

Lemma floor_le x : 0 ≤ x → 0 ≤ x - x mod PMM_FRAME_SIZE ≤ x.
Proof. unfold PMM_FRAME_SIZE. intros. div_lia. Qed.

Lemma floor_floor x :
  (x - x mod PMM_FRAME_SIZE) - (x - x mod PMM_FRAME_SIZE) mod 2 ^ 12 = x - x mod PMM_FRAME_SIZE.
Proof. change (2 ^ 12) with 4096. unfold PMM_FRAME_SIZE. div_lia. Qed.

Lemma region_bounds e : region_ok e →
  region_start e mod PMM_FRAME_SIZE = 0 ∧ 0 ≤ region_start e ≤ Pmm.base e ∧
  Pmm.base e + length_ e ≤ region_end e ≤ 2 ^ 46.
Proof.
  intros (Hb & Hl & Ht). unfold region_start, region_end, PMM_FRAME_SIZE. change (2 ^ 46) with 70368744177664 in *. div_lia.
Qed.

Lemma direct_map_page hhdm memmap e a :
  hhdm mod PMM_FRAME_SIZE = 0 → 0 ≤ hhdm → hhdm + 2 ^ 46 + PMM_FRAME_SIZE ≤ 2 ^ 64 → Forall region_ok memmap →
  e ∈ memmap → Pmm.base e ≤ a < Pmm.base e + length_ e →
  let l := memmap ≫= region_pages hhdm in
  covers l (a + hhdm) ∧
  ∀ pa, pa ∈ l → vpage pa.1.1 = vpage (a + hhdm) →
    leaf_pte pa.1.2 pa.2 = leaf_pte (a - a mod PMM_FRAME_SIZE) VM_WRITE.
Proof.
  intros Hal Hh Hhi Hok He Ha l. pose proof (proj1 (Forall_forall _ _) Hok) as Hall. split.
  - destruct (region_bounds e (Hall e He)) as (Hs0 & [_ Hsb] & [Hse _]).
    destruct (range_page (region_start e) a Hs0 ltac:(lia)) as [Hi Heq].
    exists (u64 (a - a mod PMM_FRAME_SIZE + hhdm), a - a mod PMM_FRAME_SIZE, VM_WRITE). split.
    + unfold l. apply list_elem_of_bind. exists e. split; [|done]. apply range_pages_elem. eexists.
      split; [exact Hi|]. rewrite Heq. split; [|done]. pose proof (Z.mod_pos_bound a PMM_FRAME_SIZE). unfold PMM_FRAME_SIZE in *. lia.
    + cbn [fst snd]. rewrite vpage_u64. rewrite <- (floor_sub a hhdm Hal).
      replace (a - (a + hhdm) mod PMM_FRAME_SIZE + hhdm) with (a + hhdm - (a + hhdm) mod PMM_FRAME_SIZE) by lia.
      apply vpage_floor.
  - intros pa (e' & Hpa & He')%list_elem_of_bind Hv. apply range_pages_elem in Hpa as (i & Hi & Hlt & ->).
    cbn [fst snd] in *. rewrite vpage_u64 in Hv. destruct (Hall e He) as (Hb & Hl & Htop).
    destruct (region_bounds e' (Hall e' He')) as (Hs0 & [Hs1 _] & [_ Hse]). f_equal.
    set (p := region_start e' + i * PMM_FRAME_SIZE) in *.
    assert (p mod PMM_FRAME_SIZE = 0) as Hp by (unfold p; by rewrite Z.mod_add by done).
    assert (0 ≤ p) as Hp0 by (unfold p, PMM_FRAME_SIZE; lia).
    clearbody p. apply vpage_same in Hv.
    + change (2 ^ 12) with PMM_FRAME_SIZE in Hv. rewrite (floor_sub a hhdm Hal) in Hv. lia.
    + change (2 ^ 12) with PMM_FRAME_SIZE. by rewrite floor_sub.
    + lia.
Qed.

(** A page of an image range, and the entry every page there with its number has. *)
Lemma image_page kaddr lo hi flags v :
  lo mod PMM_FRAME_SIZE = 0 → virtual_base kaddr mod PMM_FRAME_SIZE = 0 → physical_base kaddr mod PMM_FRAME_SIZE = 0 →
  lo ≤ v < hi → hi - lo ≤ 2 ^ 47 → virtual_base kaddr ≤ lo → 0 ≤ physical_base kaddr →
  hi - virtual_base kaddr + physical_base kaddr ≤ 2 ^ 52 →
  let l := image_pages kaddr lo hi flags in
  let phys := v - virtual_base kaddr + physical_base kaddr in
  covers l v ∧ ∀ pa, pa ∈ l → vpage pa.1.1 = vpage v → leaf_pte pa.1.2 pa.2 = leaf_pte (phys - phys mod PMM_FRAME_SIZE) flags.
Proof.
  intros Hlo Hvb Hpb Hv Hsz Hvlo Hp0 Htop l phys. split.
  - destruct (range_page lo v Hlo ltac:(lia)) as [Hi Heq]. eexists. split.
    + apply range_pages_elem. eexists. split; [exact Hi|]. rewrite Heq. split; [|reflexivity].
      pose proof (Z.mod_pos_bound v PMM_FRAME_SIZE). unfold PMM_FRAME_SIZE in *. lia.
    + apply vpage_floor.
  - intros pa (i & Hi & Hlt & ->)%range_pages_elem Heq. cbn [fst snd] in *. f_equal. set (w := lo + i * PMM_FRAME_SIZE) in *.
    assert (w mod PMM_FRAME_SIZE = 0) as Hw by (unfold w; by rewrite Z.mod_add by done).
    assert (lo ≤ w) as Hw0 by (unfold w, PMM_FRAME_SIZE; lia). clearbody w.
    apply vpage_same in Heq; [|exact Hw|lia]. change (2 ^ 12) with PMM_FRAME_SIZE in Heq.
    rewrite u64_id by lia. unfold phys.
    assert ((v + (physical_base kaddr - virtual_base kaddr)) mod PMM_FRAME_SIZE = v mod PMM_FRAME_SIZE) as Hmod.
    { apply floor_sub. by rewrite Zminus_mod, Hvb, Hpb. }
    replace (v - virtual_base kaddr + physical_base kaddr) with (v + (physical_base kaddr - virtual_base kaddr)) by lia.
    rewrite Hmod. lia.
Qed.

Lemma covers_app l1 l2 v : covers (l1 ++ l2) v ↔ covers l1 v ∨ covers l2 v.
Proof.
  unfold covers. split.
  - intros (pa & [?|?]%elem_of_app & Hv); [left|right]; by exists pa.
  - intros [(pa & ? & Hv)|(pa & ? & Hv)]; exists pa; (split; [apply elem_of_app; auto|done]).
Qed.

(** An address of the image that has a page in a range of it lies within a page of the range. *)
Lemma image_pages_inside kaddr lo hi flags v pa :
  lo mod PMM_FRAME_SIZE = 0 → hi - 2 ^ 47 ≤ v ≤ lo + 2 ^ 47 →
  pa ∈ image_pages kaddr lo hi flags → vpage pa.1.1 = vpage v → lo ≤ v - v mod PMM_FRAME_SIZE < hi.
Proof.
  intros Hlo Hv (i & Hi & Hlt & ->)%range_pages_elem Heq. cbn [fst snd] in Heq.
  assert ((lo + i * PMM_FRAME_SIZE) mod PMM_FRAME_SIZE = 0) as Hw by by rewrite Z.mod_add.
  apply vpage_same in Heq; [|exact Hw|unfold PMM_FRAME_SIZE in *; lia].
  change (2 ^ 12) with PMM_FRAME_SIZE in Heq. unfold PMM_FRAME_SIZE in *. lia.
Qed.
(** * What vmm_init relies on *)

Section spec.
Context `{!KernelImage, !PagingText}.

(** The kernel image is laid out in whole pages, and Limine loaded it contiguously. *)
Record image_ok kaddr : Prop := {
  im_start : __kernel_start mod PMM_FRAME_SIZE = 0;
  im_data : __data_start mod PMM_FRAME_SIZE = 0;
  im_order : virtual_base kaddr ≤ __kernel_start ≤ __data_start;
  im_end : __data_start ≤ __kernel_end;
  im_high : 0 ≤ __kernel_start ∧ __kernel_end + PMM_FRAME_SIZE ≤ 2 ^ 64;
  im_size : __kernel_end - __kernel_start ≤ 2 ^ 47;
  im_virt : virtual_base kaddr mod PMM_FRAME_SIZE = 0;
  im_phys : physical_base kaddr mod PMM_FRAME_SIZE = 0 ∧ 0 ≤ physical_base kaddr;
  im_top : __kernel_end - virtual_base kaddr + physical_base kaddr ≤ 2 ^ 52;
}.

Record vmm_ready t k kaddr memmap hhdm (U F : gset Z) : Prop := {
  vr_line : dlab (uart_of t) = false;
  vr_pmm : pmm_rep (pmm (vmm_vm k)) (ram (vmm_vm k)) U F;
  vr_arena : arena (pmm (vmm_vm k)) (ram (vmm_vm k)) hhdm F;
  vr_phys f : f ∈ U → f < 2 ^ 40;
  vr_hhdm : hhdm mod PMM_FRAME_SIZE = 0 ∧ 0 ≤ hhdm ∧ hhdm + 2 ^ 46 + PMM_FRAME_SIZE ≤ 2 ^ 64;
  vr_regions : Forall region_ok memmap;
  vr_image : image_ok kaddr;
  (** the image is not linked into the direct map *)
  vr_apart : ∀ e a v, e ∈ memmap → Pmm.base e ≤ a < Pmm.base e + length_ e →
    __kernel_start ≤ v < __kernel_end → vpage (a + hhdm) ≠ vpage v;
  (** a frame for the root and for each table the pages need *)
  vr_frames : (size (tables_for (kernel_space kaddr memmap hhdm)) + 1 ≤ size F)%nat;
  (** the boot stack lies in physical memory, the paging code in the image *)
  vr_stack : ∃ e a, e ∈ memmap ∧ Pmm.base e ≤ a < Pmm.base e + length_ e ∧ rsp (vcpu (vmm_vm k)) = a + hhdm;
  vr_code : __kernel_start ≤ paging_load_cr3_addr < __kernel_end;
}.

Implicit Types (U F : gset Z).

(** The entries of the finished space: direct map, text, data. *)
Lemma space_direct t k kaddr memmap hhdm U F e a :
  vmm_ready t k kaddr memmap hhdm U F → e ∈ memmap → Pmm.base e ≤ a < Pmm.base e + length_ e →
  let pages := kernel_space kaddr memmap hhdm in
  covers pages (a + hhdm) ∧
  add_pages ∅ pages !! vpage (a + hhdm) = Some (leaf_pte (a - a mod PMM_FRAME_SIZE) VM_WRITE).
Proof.
  intros R He Ha pages. destruct (vr_hhdm _ _ _ _ _ _ _ R) as (Hal & Hh & Hhi). pose proof (vr_image _ _ _ _ _ _ _ R) as Him.
  destruct (direct_map_page hhdm memmap e a Hal Hh Hhi (vr_regions _ _ _ _ _ _ _ R) He Ha) as [Hc Hsame].
  unfold pages, kernel_space. split; [apply covers_app; by left|].
  rewrite add_pages_app, add_pages_other; [by apply add_pages_lookup|].
  intros [(pa & Hpa & Hv)|(pa & Hpa & Hv)]%covers_app.
  all: apply range_pages_elem in Hpa as (i & Hi & Hlt & ->); cbn [fst snd] in Hv.
  all: symmetry in Hv; revert Hv; eapply (vr_apart _ _ _ _ _ _ _ R); [exact He|exact Ha|].
  all: destruct Him; unfold PMM_FRAME_SIZE in *; lia.
Qed.

Lemma space_image t k kaddr memmap hhdm U F v :
  vmm_ready t k kaddr memmap hhdm U F → __kernel_start ≤ v < __kernel_end →
  let pages := kernel_space kaddr memmap hhdm in
  let phys := v - virtual_base kaddr + physical_base kaddr in
  covers pages v ∧ add_pages ∅ pages !! vpage v =
    Some (leaf_pte (phys - phys mod PMM_FRAME_SIZE) (if decide (v < __data_start) then 0 else VM_WRITE)).
Proof.
  intros R Hv pages phys. destruct (vr_image _ _ _ _ _ _ _ R) as [Hs Hd Ho He Hhi Hsz Hvb [Hpb Hp0] Htop].
  unfold pages, kernel_space. rewrite !add_pages_app. case_decide as Hdata.
  - destruct (image_page kaddr __kernel_start __data_start 0 v Hs Hvb Hpb) as [Hc Hsame]; try lia.
    split; [apply covers_app; right; apply covers_app; by left|].
    rewrite add_pages_other; [by apply add_pages_lookup|]. intros (pa & Hpa & Heq).
    apply (image_pages_inside kaddr __data_start __kernel_end VM_WRITE v) in Hpa; [|done|lia|done].
    pose proof (Z.mod_pos_bound v PMM_FRAME_SIZE). unfold PMM_FRAME_SIZE in *. lia.
  - destruct (image_page kaddr __data_start __kernel_end VM_WRITE v Hd Hvb Hpb) as [Hc Hsame]; try lia.
    split; [apply covers_app; right; apply covers_app; by right|]. by apply add_pages_lookup.
Qed.

(** In that space the memory of the regions is reached. *)
Lemma space_reached t k kaddr memmap hhdm U F σ U' F' root T :
  vmm_ready t k kaddr memmap hhdm U F →
  vm_inv σ U' F' root T (add_pages ∅ (kernel_space kaddr memmap hhdm)) →
  cr3 (vcpu σ) = root * PMM_FRAME_SIZE → hhdm_offset σ = hhdm →
  (∀ v, is_Some (ram σ !! v) → ∃ e, e ∈ memmap ∧ range (Pmm.base e + hhdm) (length_ e) v) → all_reached σ.
Proof.
  intros R V Hc Hh Hin v Hv. destruct (Hin v Hv) as (e & He & Hr). set (a := v - hhdm).
  destruct (proj1 (Forall_forall _ _) (vr_regions _ _ _ _ _ _ _ R) e He) as (? & ? & ?).
  destruct (vr_hhdm _ _ _ _ _ _ _ R) as (Hal & _ & _).
  assert (Pmm.base e ≤ a < Pmm.base e + length_ e) as Ha by (unfold range, a in *; lia).
  unfold reached. rewrite (mmu_eq _ _ _ _ _ _ v V Hc). replace v with (a + hhdm) by (unfold a; lia).
  destruct (space_direct _ _ _ _ _ _ _ _ _ R He Ha) as [_ ->]. cbn [fmap option_fmap option_map].
  pose proof (floor_le a ltac:(lia)). rewrite cached_leaf by (try done; lia). rewrite floor_floor, floor_sub, Hh by done.
  replace (a - a mod PMM_FRAME_SIZE + a mod PMM_FRAME_SIZE) with (a + hhdm - hhdm) by lia. by rewrite Z.eqb_refl.
Qed.

(** [vmm_init] from a ready state. *)
Lemma vmm_init_ready `{!Machine, !Uart} t k kaddr memmap hhdm U F :
  vmm_ready t k kaddr memmap hhdm U F →
  returns (vmm_init t k kaddr memmap hhdm) (λ '(t', k'), ∃ F' T root,
    let σ := vmm_vm k in let σ' := vmm_vm k' in
    vm_inv σ' U F' root T (add_pages ∅ (kernel_space kaddr memmap hhdm)) ∧ F' ⊆ F ∧
    (∀ q f u, T !! q = Some (f, u) → f ∈ F) ∧
    (size F' + size T = size F ∧ size T ≤ size (tables_for (kernel_space kaddr memmap hhdm)) + 1)%nat ∧
    kernel_pml4 k' = root * PMM_FRAME_SIZE ∧ cr3 (vcpu σ') = root * PMM_FRAME_SIZE ∧
    tlb (vcpu σ') = ∅ ∧ rsp (vcpu σ') = rsp (vcpu σ) ∧
    hhdm_offset σ' = hhdm ∧ bitmap_area (pmm σ') = bitmap_area (pmm σ) ∧
    sends t (crlf (c "ScrapOS: now running on our own page tables" ++ [chr_nl])) t' ∧
    mods (build_area hhdm F (pmm σ)) (ram σ) (ram σ')).
Proof.
  intros R. pose proof (vr_image _ _ _ _ _ _ _ R) as [? ? ? ? [Hk0 Hke] ? ? [? ?] ?].
  destruct (vr_stack _ _ _ _ _ _ _ R) as (es & as_ & Hes & Has & Hrsp).
  apply (vmm_init_returns t k kaddr memmap hhdm U F
    (vr_line _ _ _ _ _ _ _ R) (vr_pmm _ _ _ _ _ _ _ R) (vr_arena _ _ _ _ _ _ _ R) (vr_phys _ _ _ _ _ _ _ R)
    (vr_regions _ _ _ _ _ _ _ R) Hk0 ltac:(lia) ltac:(lia) Hke (vr_frames _ _ _ _ _ _ _ R)
    ltac:(cbn [paging_set_hhdm vcpu]; rewrite Hrsp; by eapply space_direct)
    ltac:(by eapply space_image; [exact R|exact (vr_code _ _ _ _ _ _ _ R)])).
Qed.
End spec.

(** * A small machine: four free frames, root table and the three tables of one 2 MiB span *)

Module vmm_demo.
#[export] Instance image0 : KernelImage := {|
  __kernel_start := demo.hhdm + 0x100000; __data_start := demo.hhdm + 0x101000;
  __kernel_end := demo.hhdm + 0x102000 |}.
#[export] Instance text0 : PagingText := demo.hhdm + 0x100010.
Definition kaddr0 : kernel_address := {|
  virtual_base := demo.hhdm + 0x100000; physical_base := 0x100000 |}.

Definition state0 (ps : pmm_state) (m : mem) : vmm := {|
  vmm_vm := {| hhdm_offset := 0; pmm := ps; ram := m;
               vcpu := {| cr3 := 0; rsp := demo.hhdm + 0x3ff8; tlb := ∅ |} |};
  kernel_pml4 := 0 |}.

Lemma image_ok0 : image_ok kaddr0.
Proof. split; repeat apply conj; by vm_compute. Qed.

Lemma apart0 e a v : e ∈ demo.memmap → Pmm.base e ≤ a < Pmm.base e + length_ e →
  __kernel_start ≤ v < __kernel_end → vpage (a + demo.hhdm) ≠ vpage v.
Proof.
  intros He Ha Hv Heq.
  assert (0x1000 ≤ a < 0x8000) as Ha'.
  { repeat (apply elem_of_cons in He as [->|He]); [cbn in Ha; lia..|by apply elem_of_nil in He]. }
  cbn [__kernel_start __kernel_end image0] in Hv. clear He Ha. revert Heq. unfold vpage, demo.hhdm in *.
  change (2 ^ 12) with 4096. change (2 ^ 36) with 68719476736. div_lia.
Qed.

Lemma ready : ∃ k, vmm_ready (serial_init []) k kaddr0 demo.memmap demo.hhdm demo.U (demo.U ∖ {[1]}).
Proof.
  destruct demo.boot_frames as (ps & m & _ & R & _ & Har). exists (state0 ps m). split.
  - done.
  - exact R.
  - exact Har.
  - unfold demo.U. clear. intros f Hl. rewrite elem_of_list_to_set in Hl.
    rewrite !elem_of_cons, elem_of_nil in Hl. lia.
  - unfold demo.hhdm, PMM_FRAME_SIZE. clear. split; [reflexivity|lia].
  - repeat constructor; cbn; lia.
  - exact image_ok0.
  - exact apart0.
  - clear. apply (bool_decide_unpack _). by vm_compute.
  - eexists _, 0x3ff8. split; [apply elem_of_cons; by left|]. split; [cbn; lia|reflexivity].
  - cbn. unfold paging_load_cr3_addr, text0. lia.
Qed.
End vmm_demo.
#[local] Existing Instances serial_demo.machine0 serial_demo.uart0 vmm_demo.image0 vmm_demo.text0.

(** * What vmm_init promises *)

(** C8. The kernel's address space.  With the memory map and image as Limine
    lays them out, a frame for every table needed, the stack in physical memory and
    the paging code in the image, [vmm_init] returns (it does not panic), running
    on the new tables with an empty TLB.  In the new space the processor finds
    every byte of every region at its direct-map address, writable and for the
    kernel only; the image at its link addresses, where Limine loaded it, data
    writable, text and constants not.  The tables were built from free frames, no
    byte outside these and the frame bitmap was written, and the paging invariant holds. *)
Theorem vmm_init_correct `{!Machine, !Uart, !KernelImage, !PagingText} t k kaddr memmap hhdm U F :
  vmm_ready t k kaddr memmap hhdm U F →
  ∃ t' k' F' T PM root, vmm_init t k kaddr memmap hhdm = Ok (t', k') ∧
    let σ' := vmm_vm k' in
    vm_inv σ' U F' root T PM ∧ F' ⊆ F ∧ (∀ q f u, T !! q = Some (f, u) → f ∈ F) ∧
    kernel_pml4 k' = cr3 (vcpu σ') ∧ cr3 (vcpu σ') = root * PMM_FRAME_SIZE ∧ tlb (vcpu σ') = ∅ ∧
    (∀ e a, e ∈ memmap → Pmm.base e ≤ a < Pmm.base e + length_ e →
       mmu σ' (a + hhdm) = Ok (Some (a - a mod PMM_FRAME_SIZE, PTE_WRITE))) ∧
    (∀ v, __kernel_start ≤ v < __kernel_end →
       let phys := v - virtual_base kaddr + physical_base kaddr in
       mmu σ' v = Ok (Some (phys - phys mod PMM_FRAME_SIZE,
                            if decide (v < __data_start) then 0 else PTE_WRITE))) ∧
    mods (build_area hhdm F (pmm (vmm_vm k))) (ram (vmm_vm k)) (ram σ').
Proof.
  intros R. destruct (vr_hhdm _ _ _ _ _ _ _ R) as (Hal & Hh & Hhi).
  pose proof (vr_image _ _ _ _ _ _ _ R) as Him. pose proof Him as [? ? ? ? [Hk0 Hke] ? ? [? ?] ?].
  destruct (returns_inv _ _ (vmm_init_ready t k kaddr memmap hhdm U F R))
    as ([t' k'] & Hrun & F' & T & root & V & HF & HT & _ & Hpml4 & Hcr3 & Htlb & _ & _ & _ & _ & Hm).
  exists t', k', F', T, (add_pages ∅ (kernel_space kaddr memmap hhdm)), root. split; [exact Hrun|]. cbv zeta.
  split; [exact V|]. do 2 (split; [done|]). split; [congruence|]. do 2 (split; [done|]).
  assert (∀ x, 0 ≤ x → 0 ≤ x - x mod PMM_FRAME_SIZE ≤ x) as Hfl by exact floor_le.
  assert (∀ x, (x - x mod PMM_FRAME_SIZE) - (x - x mod PMM_FRAME_SIZE) mod 2 ^ 12 = x - x mod PMM_FRAME_SIZE) as Hid.
  { intros x. apply floor_floor. }
  split; [|split; [|exact Hm]].
  - intros e a He Ha. destruct (proj1 (Forall_forall _ _) (vr_regions _ _ _ _ _ _ _ R) e He) as (? & ? & ?).
    rewrite (mmu_eq _ _ _ _ _ _ _ V Hcr3). destruct (space_direct _ _ _ _ _ _ _ _ _ R He Ha) as [_ ->].
    cbn [fmap option_fmap option_map]. specialize (Hfl a ltac:(lia)). rewrite cached_leaf by (try done; lia). by rewrite Hid.
  - intros v Hv. set (phys := v - virtual_base kaddr + physical_base kaddr). rewrite (mmu_eq _ _ _ _ _ _ _ V Hcr3). destruct (space_image _ _ _ _ _ _ _ _ R Hv) as [_ ->].
    cbn [fmap option_fmap option_map]. specialize (Hfl phys ltac:(unfold phys; lia)).
    case_decide; rewrite cached_leaf by (try done; unfold phys in *; lia); by rewrite Hid.
Qed.


Lemma vmm_init_correct_witness :
  ∃ k t' k', vmm_init (serial_init []) k vmm_demo.kaddr0 demo.memmap demo.hhdm = Ok (t', k') ∧
    mmu (vmm_vm k') (0x2abc + demo.hhdm) = Ok (Some (0x2000, PTE_WRITE)) ∧
    mmu (vmm_vm k') (demo.hhdm + 0x100123) = Ok (Some (0x100000, 0)).
Proof.
  destruct vmm_demo.ready as (k & R).
  destruct (vmm_init_correct (serial_init []) k _ _ _ _ _ R)
    as (t' & k' & F' & T & PM & root & Hrun & _ & _ & _ & _ & _ & _ & Hdirect & Himage & _).
  exists k, t', k'. split; [exact Hrun|]. split.
  - apply (Hdirect {| base := 0x1000; length_ := 0x3000; type := 0 |} 0x2abc); [by left|cbn; lia].
  - apply (Himage (demo.hhdm + 0x100123)). cbn. lia.
Defined.
