(* ===== verification/Console.v ===== *)
(** kernel/drivers/console.c and font_psf.h: the framebuffer text console.

    The model keeps the console's static variables in a record and draws into the
    shared memory, pixel by pixel.  What it refines is a terminal: a grid of cells,
    each with a glyph, and a cursor; the framebuffer always shows the grid. *)

From stdpp Require Import base list gmap sets.
From Stdlib Require Import ZArith Lia String Ascii.
From S2P Require Import Prelude.
From S2P Require Import Mem.
From S2P Require Import LibString.
From S2P Require Import Io.
From S2P Require Import Serial.

#[local] Coercion Z.of_nat : nat >-> Z.
#[local] Abbreviation length := Datatypes.length.

(** * The font *)

(** Hexadecimal text, blanks aside, as bytes. *)
Definition hex_nibble (a : ascii) : option Z :=
  let n := Z.of_N (N_of_ascii a) in
  if (48 <=? n) && (n <=? 57) then Some (n - 48) else if (97 <=? n) && (n <=? 102) then Some (n - 87) else None.

Fixpoint unhex (high : option Z) (s : string) : list Z :=
  match s with
  | EmptyString => []
  | String a s =>
      match hex_nibble a, high with
      | None, _ => unhex high s
      | Some d, None => unhex (Some d) s
      | Some d, Some h => 16 * h + d :: unhex None s
      end
  end.

(** The embedded PSF2 file: a header of 32 bytes and 128 glyphs of 8 bytes. *)
Definition font_psf : list Z := unhex None "
   72b54a8600000000200000000000000080000000080000000800000008000000
   0000000000000000000000000000000000000000000000000000000000000000
   0000000000000000000000000000000000000000000000000000000000000000
   0000000000000000000000000000000000000000000000000000000000000000
   0000000000000000000000000000000000000000000000000000000000000000
   0000000000000000000000000000000000000000000000000000000000000000
   0000000000000000000000000000000000000000000000000000000000000000
   0000000000000000000000000000000000000000000000000000000000000000
   0000000000000000000000000000000000000000000000000000000000000000
   0000000000000000183c3c18180018006c6c0000000000006c6cfe6cfe6c6c00
   307cc0780cf8300000c6cc183066c600386c3876dccc76006060c00000000000
   1830606060301800603018181830600000663cff3c660000003030fc30300000
   0000000000303060000000fc000000000000000000303000060c183060c08000
   7cc6cedef6e67c00307030303030fc0078cc0c3860ccfc0078cc0c380ccc7800
   1c3c6cccfe0c1e00fcc0f80c0ccc78003860c0f8cccc7800fccc0c1830303000
   78cccc78cccc780078cccc7c0c18700000303000003030000030300000303060
   183060c0603018000000fc0000fc00006030180c1830600078cc0c1830003000
   7cc6dededec078003078ccccfccccc00fc66667c6666fc003c66c0c0c0663c00
   f86c6666666cf800fe6268786862fe00fe6268786860f0003c66c0c0ce663e00
   ccccccfccccccc0078303030303078001e0c0c0ccccc7800e6666c786c66e600
   f06060606266fe00c6eefefed6c6c600c6e6f6decec6c600386cc6c6c66c3800
   fc66667c6060f00078ccccccdc781c00fc66667c6c66e60078cce0701ccc7800
   fcb4303030307800ccccccccccccfc00cccccccccc783000c6c6c6d6feeec600
   c6c66c38386cc600cccccc7830307800fec68c183266fe007860606060607800
   c06030180c060200781818181818780010386cc60000000000000000000000ff
   30301800000000000000780c7ccc7600e060607c6666dc00000078ccc0cc7800
   1c0c0c7ccccc7600000078ccfcc07800386c60f06060f000000076cccc7c0cf8
   e0606c766666e60030007030303078000c000c0c0ccccc78e060666c786ce600
   70303030303078000000ccfefed6c6000000f8cccccccc00000078cccccc7800
   0000dc66667c60f0000076cccc7c0c1e0000dc766660f00000007cc0780cf800
   10307c30303418000000cccccccc76000000cccccc7830000000c6d6fefe6c00
   0000c66c386cc6000000cccccc7c0cf80000fc983064fc001c3030e030301c00
   1818180018181800e030301c3030e00076dc0000000000000000000000000000".

(** A little-endian word of the file. *)
Definition font_word (i : Z) : outcome Z :=
  b0 ← arr_get font_psf i; b1 ← arr_get font_psf (i + 1);
  b2 ← arr_get font_psf (i + 2); b3 ← arr_get font_psf (i + 3);
  Ok (b0 + 2 ^ 8 * b1 + 2 ^ 16 * b2 + 2 ^ 24 * b3).

Record psf2_header := {
  psf_magic : Z; psf_version : Z; psf_headersize : Z; psf_flags : Z;
  psf_length : Z; psf_charsize : Z; psf_height : Z; psf_width : Z;
}.

Definition read_header : outcome psf2_header :=
  magic ← font_word 0; version ← font_word 4; headersize ← font_word 8; flags ← font_word 12;
  length ← font_word 16; charsize ← font_word 20; height ← font_word 24; width ← font_word 28;
  Ok {| psf_magic := magic; psf_version := version; psf_headersize := headersize; psf_flags := flags;
        psf_length := length; psf_charsize := charsize; psf_height := height; psf_width := width |}.

Definition PSF2_MAGIC : Z := 0x864ab572.

(** * The code *)

Definition fg : Z := 0x00c8f0c8.
Definition bg : Z := 0x00060f0a.

(** The static variables; [glyph_data] as an offset into [font_psf]. *)
Record console := {
  fb_base : Z; fb_width : Z; fb_height : Z; fb_pitch : Z; fb_bytes_pp : Z;
  glyph_data : Z; glyph_count : Z; glyph_w : Z; glyph_h : Z; glyph_bytes : Z; gw_bytes : Z;
  cols : Z; rows : Z; cur_col : Z; cur_row : Z; ready : bool;
}.

Implicit Types (k : console) (m : mem) (t : io) (x y ch col row colour : Z).

Definition set_cursor k col row : console := {|
  fb_base := fb_base k; fb_width := fb_width k; fb_height := fb_height k;
  fb_pitch := fb_pitch k; fb_bytes_pp := fb_bytes_pp k;
  glyph_data := glyph_data k; glyph_count := glyph_count k; glyph_w := glyph_w k; glyph_h := glyph_h k;
  glyph_bytes := glyph_bytes k; gw_bytes := gw_bytes k;
  cols := cols k; rows := rows k; cur_col := col; cur_row := row; ready := ready k;
|}.

Definition put_pixel k m x y colour : outcome mem :=
  store32 m (u64 (fb_base k + u64 (y * fb_pitch k) + u64 (x * fb_bytes_pp k))) colour.

Definition draw_cell k m ch col row : outcome mem :=
  let ch := if glyph_count k <=? ch then 0 else ch in
  let g := glyph_data k + u32 (ch * glyph_bytes k) in
  let px0 := u32 (col * glyph_w k) in
  let py0 := u32 (row * glyph_h k) in
  for_each 0 (glyph_h k) (λ r m,
    for_each 0 (glyph_w k) (λ cx m,
      byte ← arr_get font_psf (g + u32 (r * gw_bytes k + Z.shiftr cx 3));
      let bit := Z.land (Z.shiftr byte (7 - Z.land cx 7)) 1 in
      put_pixel k m (u32 (px0 + cx)) (u32 (py0 + r)) (if bit =? 0 then bg else fg)) m) m.

Definition clear_cell k m col row : outcome mem := draw_cell k m 0 col row.

Definition paint_cursor k m colour : outcome mem :=
  let y := u32 (u32 (cur_row k * glyph_h k) + u32 (glyph_h k - 1)) in
  let x0 := u32 (cur_col k * glyph_w k) in
  for_each 0 (glyph_w k) (λ x m, put_pixel k m (u32 (x0 + x)) y colour) m.

Definition draw_cursor k m : outcome mem := paint_cursor k m fg.
Definition erase_cursor k m : outcome mem := paint_cursor k m bg.

Definition scroll k m : outcome mem :=
  let row_px := glyph_h k in
  let move_bytes := u64 (u32 (fb_height k - row_px) * fb_pitch k) in
  '(m, _) ← memmove m (fb_base k) (u64 (fb_base k + u64 (row_px * fb_pitch k))) move_bytes;
  for_each (u32 (u32 (rows k - 1) * glyph_h k)) (fb_height k) (λ y m,
    for_each 0 (fb_width k) (λ x m, put_pixel k m x y bg) m) m.

Definition newline k m : outcome (console * mem) :=
  let row := u32 (cur_row k + 1) in
  if rows k <=? row then
    m ← scroll k m; Ok (set_cursor k 0 (u32 (rows k - 1)), m)
  else Ok (set_cursor k 0 row, m).

(** A font that does not parse leaves the console off. *)
Definition set_ready k (b : bool) : console := {|
  fb_base := fb_base k; fb_width := fb_width k; fb_height := fb_height k;
  fb_pitch := fb_pitch k; fb_bytes_pp := fb_bytes_pp k;
  glyph_data := glyph_data k; glyph_count := glyph_count k; glyph_w := glyph_w k; glyph_h := glyph_h k;
  glyph_bytes := glyph_bytes k; gw_bytes := gw_bytes k;
  cols := cols k; rows := rows k; cur_col := cur_col k; cur_row := cur_row k; ready := b;
|}.

Definition console_init `{!Machine} k m t (base width height pitch bpp : Z) : outcome (console * mem * io) :=
  h ← read_header;
  if negb (psf_magic h =? PSF2_MAGIC) || (psf_width h =? 0) || (psf_height h =? 0) then
    t ← serial_write t (c "console: bad PSF2 font magic/geometry — console disabled" ++ [chr_nl]);
    Ok (set_ready k false, m, t)
  else
  let k := {|
    fb_base := base; fb_width := width; fb_height := height; fb_pitch := pitch; fb_bytes_pp := bpp / 8;
    glyph_data := psf_headersize h; glyph_count := psf_length h;
    glyph_w := psf_width h; glyph_h := psf_height h; glyph_bytes := psf_charsize h;
    gw_bytes := u32 (psf_width h + 7) / 8;
    cols := width / psf_width h; rows := height / psf_height h;
    cur_col := 0; cur_row := 0; ready := ready k;
  |} in
  m ← for_each 0 (fb_height k) (λ y m, for_each 0 (fb_width k) (λ x m, put_pixel k m x y bg) m) m;
  let k := set_ready k true in
  m ← draw_cursor k m;
  Ok (k, m, t).

(** The body of [case '\t']: blank the cells up to [target], or to the end of the
    line. *)
Definition tab_stop k m (target : Z) : outcome (console * mem) :=
  loop (λ '(k, m),
    if cur_col k <? target then
      m ← clear_cell k m (cur_col k) (cur_row k);
      let k := set_cursor k (u32 (cur_col k + 1)) (cur_row k) in
      if cols k <=? cur_col k then '(k, m) ← newline k m; Ok (inr (k, m))
      else Ok (inl (k, m))
    else Ok (inr (k, m))) (k, m).

(** [ch]: the character as an unsigned byte. *)
Definition console_putc k m ch : outcome (console * mem) :=
  if negb (ready k) then Ok (k, m) else
  m ← erase_cursor k m;
  '(k, m) ←
    (if ch =? 10 then newline k m
     else if ch =? 13 then Ok (set_cursor k 0 (cur_row k), m)
     else if ch =? 8 then
       let k := if 0 <? cur_col k then set_cursor k (u32 (cur_col k - 1)) (cur_row k)
                else if 0 <? cur_row k then set_cursor k (u32 (cols k - 1)) (u32 (cur_row k - 1))
                else k in
       m ← clear_cell k m (cur_col k) (cur_row k); Ok (k, m)
     else if ch =? 9 then
       tab_stop k m (u32 (Z.land (cur_col k) (u32 (Z.lnot 7)) + 8))
     else if 0x20 <=? ch then
       m ← draw_cell k m ch (cur_col k) (cur_row k);
       let k := set_cursor k (u32 (cur_col k + 1)) (cur_row k) in
       if cols k <=? cur_col k then newline k m else Ok (k, m)
     else Ok (k, m));
  m ← draw_cursor k m;
  Ok (k, m).

Fixpoint console_write k m (s : cstring) : outcome (console * mem) :=
  match s with
  | [] => Ok (k, m)
  | ch :: s => '(k, m) ← console_putc k m ch; console_write k m s
  end.

(** * Pixels *)

(** The geometry [console_init] sets up from a 32-bit framebuffer that holds a
    grid of at least one cell, and a cursor on the grid. *)
Record geometry k : Prop := {
  ge_base : 0 ≤ fb_base k ∧ fb_base k + fb_height k * fb_pitch k < 2 ^ 64;
  ge_pitch : 4 * fb_width k ≤ fb_pitch k < 2 ^ 32;
  ge_width : 8 ≤ fb_width k < 2 ^ 32;
  ge_height : 8 ≤ fb_height k < 2 ^ 32;
  ge_bytes_pp : fb_bytes_pp k = 4;
  ge_font : glyph_data k = 32 ∧ glyph_count k = 128 ∧ glyph_w k = 8 ∧ glyph_h k = 8 ∧
    glyph_bytes k = 8 ∧ gw_bytes k = 1;
  ge_grid : cols k = fb_width k / 8 ∧ rows k = fb_height k / 8;
  ge_cursor : 0 ≤ cur_col k < cols k ∧ 0 ≤ cur_row k < rows k;
}.

Definition pix k x y : Z := fb_base k + y * fb_pitch k + 4 * x.

Definition framebuffer k : Z → Prop := range (fb_base k) (fb_height k * fb_pitch k).

Definition on_screen k x y : Prop := 0 ≤ x < fb_width k ∧ 0 ≤ y < fb_height k.

Lemma pix_inside k x y : geometry k → on_screen k x y →
  fb_base k ≤ pix k x y ∧ pix k x y + 4 ≤ fb_base k + fb_height k * fb_pitch k.
Proof.
  intros [] [Hx Hy]. unfold pix.
  assert (0 ≤ y * fb_pitch k) by nia. assert ((y + 1) * fb_pitch k ≤ fb_height k * fb_pitch k) by nia. lia.
Qed.

Lemma pix_apart k x y x' y' : geometry k → on_screen k x y → on_screen k x' y' → (x, y) ≠ (x', y') →
  ∀ a, range (pix k x' y') 4 a → ¬ range (pix k x y) 4 a.
Proof.
  intros [] [Hx Hy] [Hx' Hy'] Hne a Ha Ha'. unfold pix, range in *.
  destruct (decide (y = y')) as [->|Hy'']; [apply Hne; f_equal; lia|].
  destruct (decide (y < y')); [assert ((y + 1) * fb_pitch k ≤ y' * fb_pitch k) by nia
    |assert ((y' + 1) * fb_pitch k ≤ y * fb_pitch k) by nia]; lia.
Qed.

Lemma put_pixel_eq k m x y colour : geometry k → on_screen k x y →
  put_pixel k m x y colour = store32 m (pix k x y) colour.
Proof.
  intros G Hs. pose proof (pix_inside k x y G Hs) as [H1 H2]. destruct G, Hs as [Hx Hy]. unfold put_pixel.
  assert (0 ≤ y * fb_pitch k) by nia. unfold pix in *. rewrite ge_bytes_pp0.
  rewrite (u64_id (y * fb_pitch k)), (u64_id (x * 4)), u64_id by lia. f_equal. lia.
Qed.

(** * Pictures *)

(** [shown k m pic]: the framebuffer shows the picture. *)
Record shown k m (pic : Z → Z → Z) : Prop := {
  sh_backed : backed m (fb_base k) (fb_height k * fb_pitch k);
  sh_pixels : ∀ x y, on_screen k x y → load32 m (pix k x y) = Ok (pic x y);
}.

Lemma shown_ext k m pic pic' :
  shown k m pic → (∀ x y, on_screen k x y → pic x y = pic' x y) → shown k m pic'.
Proof. intros [Hb Hp] Heq. split; [done|]. intros x y Hs. rewrite Hp by done. by rewrite Heq. Qed.

(** What drawing does: it returns, the framebuffer shows [pic], and only the
    framebuffer was written. *)
Definition draws k m (o : outcome mem) (pic : Z → Z → Z) : Prop :=
  returns o (λ m', shown k m' pic ∧ mods (framebuffer k) m m').

Lemma put_pixel_returns k m pic x y colour :
  geometry k → on_screen k x y → 0 ≤ colour < 2 ^ 32 → shown k m pic →
  draws k m (put_pixel k m x y colour) (λ x' y', if decide (x' = x ∧ y' = y) then colour else pic x' y').
Proof.
  intros G Hs Hc [Hb Hp]. pose proof (pix_inside k x y G Hs) as [H1 H2]. unfold draws.
  rewrite put_pixel_eq by done. eapply returns_mono; [apply store32_returns; [|done]|].
  { eapply backed_sub; [exact Hb|lia..]. }
  intros m' [Hm Hl]. split.
  - split; [by eapply mods_backed|]. intros x' y' Hs'. case_decide as Hxy; [by destruct Hxy as [-> ->]|].
    eapply load32_keep; [exact Hm|by apply Hp|]. apply (pix_apart k x y x' y' G Hs Hs'). intros [= -> ->]. by apply Hxy.
  - eapply mods_weaken; [exact Hm|]. unfold framebuffer, range. lia.
Qed.

(** A row of pixels, [lo] to [hi] at [X]. *)
Lemma paint_row k m pic (body : Z → mem → outcome mem) lo hi X y (colour : Z → Z) :
  geometry k → shown k m pic → 0 ≤ lo ≤ hi → 0 ≤ X + lo → X + hi ≤ fb_width k → 0 ≤ y < fb_height k →
  (∀ j, 0 ≤ colour j < 2 ^ 32) → hi ≤ 2 ^ 32 →
  (∀ j m, lo ≤ j < hi → body j m = put_pixel k m (X + j) y (colour j)) →
  draws k m (for_each lo hi body m) (λ x' y',
    if (y' =? y) && (X + lo <=? x') && (x' <? X + hi) then colour (x' - X) else pic x' y').
Proof.
  intros G Hs Hlo HX Hhi Hy Hc Hbig Hbody. unfold draws.
  apply (for_each_rule (λ j m', shown k m' (λ x' y',
      if (y' =? y) && (X + lo <=? x') && (x' <? X + j) then colour (x' - X) else pic x' y') ∧
    mods (framebuffer k) m m')); [lia|lia| |].
  - split; [|done]. eapply shown_ext; [exact Hs|]. intros x' y' _.
    by destruct (Z.eqb_spec y' y), (Z.leb_spec (X + lo) x'), (Z.ltb_spec x' (X + lo)); try lia.
  - intros j m1 Hj [Hs1 Hm1]. rewrite Hbody by done.
    eapply returns_mono; [apply put_pixel_returns; [done|split; lia|apply Hc|exact Hs1]|].
    intros m2 [Hs2 Hm2]. split; [|by eapply mods_trans]. eapply shown_ext; [exact Hs2|].
    intros x' y' _. cbn beta. case_decide as Hxy.
    + destruct Hxy as [-> ->]. rewrite Z.eqb_refl, (proj2 (Z.leb_le _ _)), (proj2 (Z.ltb_lt _ _)) by lia.
      cbn. f_equal. lia.
    + destruct (Z.eqb_spec y' y) as [->|]; [|done]. cbn. destruct (Z.leb_spec (X + lo) x'); [|done]. cbn.
      destruct (Z.ltb_spec x' (X + j)), (Z.ltb_spec x' (X + (j + 1))); try done; [lia|].
      exfalso. apply Hxy. split; [lia|done].
Qed.

(** A rectangle, row by row. *)
Lemma paint_rect k m pic (body : Z → mem → outcome mem) lo hi Y x0 x1 (colour : Z → Z → Z) :
  geometry k → shown k m pic → 0 ≤ lo ≤ hi → hi ≤ 2 ^ 32 →
  (∀ i m pic, lo ≤ i < hi → shown k m pic → draws k m (body i m) (λ x' y',
     if (y' =? Y + i) && (x0 <=? x') && (x' <? x1) then colour i x' else pic x' y')) →
  draws k m (for_each lo hi body m) (λ x' y',
    if (Y + lo <=? y') && (y' <? Y + hi) && (x0 <=? x') && (x' <? x1) then colour (y' - Y) x' else pic x' y').
Proof.
  intros G Hs Hlo Hbig Hbody. unfold draws.
  apply (for_each_rule (λ i m', shown k m' (λ x' y',
      if (Y + lo <=? y') && (y' <? Y + i) && (x0 <=? x') && (x' <? x1) then colour (y' - Y) x' else pic x' y') ∧
    mods (framebuffer k) m m')); [lia|lia| |].
  - split; [|done]. eapply shown_ext; [exact Hs|]. intros x' y' _.
    by destruct (Z.leb_spec (Y + lo) y'), (Z.ltb_spec y' (Y + lo)); try lia.
  - intros i m1 Hi [Hs1 Hm1]. eapply returns_mono; [by eapply Hbody|]. intros m2 [Hs2 Hm2].
    split; [|by eapply mods_trans]. eapply shown_ext; [exact Hs2|]. intros x' y' _. cbn beta.
    destruct (Z.eqb_spec y' (Y + i)) as [->|Hne].
    + rewrite (proj2 (Z.leb_le (Y + lo) (Y + i))) by lia. destruct (Z.ltb_spec (Y + i) (Y + i)); [lia|].
      rewrite (proj2 (Z.ltb_lt (Y + i) (Y + (i + 1)))) by lia. cbn. by replace (Y + i - Y) with i by lia.
    + cbn. destruct (Z.ltb_spec y' (Y + i)), (Z.ltb_spec y' (Y + (i + 1))); try done; lia.
Qed.

(** * The font's contents *)

Lemma header_ok : read_header = Ok {| psf_magic := PSF2_MAGIC; psf_version := 0; psf_headersize := 32;
  psf_flags := 0; psf_length := 128; psf_charsize := 8; psf_height := 8; psf_width := 8 |}.
Proof. by vm_compute. Qed.

Lemma font_length : length font_psf = 1056%nat.
Proof. by vm_compute. Qed.

Definition font_byte (i : Z) : Z := font_psf !!! Z.to_nat i.

Lemma font_get i : 0 ≤ i < 1056 → arr_get font_psf i = Ok (font_byte i).
Proof.
  intros Hi. replace i with (Z.of_nat (Z.to_nat i)) at 1 by lia. apply arr_get_Some.
  apply list_lookup_lookup_total_lt. rewrite font_length. lia.
Qed.

(** Pixel [cx] of row [r] of glyph [g]: the leftmost is the high bit. *)
Definition glyph_bit (g r cx : Z) : bool := Z.testbit (font_byte (32 + g * 8 + r)) (7 - cx).

(** * The terminal *)

(** A cell holds a glyph; [true] when the cursor has wiped the bottom row of its
    pixels. *)
Record terminal := { t_col : Z; t_row : Z; t_cell : Z → Z → Z * bool }.

Section terminal.
(** The grid. *)
Context (nc nr : Z).

Implicit Types (s : terminal).

Definition set_cell s c0 r0 (v : Z * bool) : terminal := {|
  t_col := t_col s; t_row := t_row s;
  t_cell := λ c r, if (c =? c0) && (r =? r0) then v else t_cell s c r |}.

Definition at_cursor s col row : terminal := {| t_col := col; t_row := row; t_cell := t_cell s |}.

(** Taking the cursor down wipes the bottom row of the cell under it. *)
Definition t_erase s : terminal := set_cell s (t_col s) (t_row s) ((t_cell s (t_col s) (t_row s)).1, true).

Definition glyph_of (ch : Z) : Z := if 128 <=? ch then 0 else ch.

Definition t_put s (ch : Z) : terminal := set_cell s (t_col s) (t_row s) (glyph_of ch, false).

(** Below the last row the text moves up one row. *)
Definition t_newline s : terminal :=
  if nr <=? t_row s + 1 then
    {| t_col := 0; t_row := nr - 1;
       t_cell := λ c r, if nr - 1 <=? r then (0, false) else t_cell s c (r + 1) |}
  else at_cursor s 0 (t_row s + 1).

Definition t_advance s : terminal :=
  let s := at_cursor s (t_col s + 1) (t_row s) in
  if nc <=? t_col s then t_newline s else s.

Definition t_back s : terminal :=
  if 0 <? t_col s then at_cursor s (t_col s - 1) (t_row s)
  else if 0 <? t_row s then at_cursor s (nc - 1) (t_row s - 1) else s.

(** [n] more blanks, unless the line ends. *)
Fixpoint t_tab (n : nat) s : terminal :=
  match n with
  | O => s
  | S n => let s := t_put s 0 in
           if nc <=? t_col s + 1 then t_advance s else t_tab n (t_advance s)
  end.

Definition t_putc s (ch : Z) : terminal :=
  let s := t_erase s in
  if ch =? 10 then t_newline s
  else if ch =? 13 then at_cursor s 0 (t_row s)
  else if ch =? 8 then t_put (t_back s) 0
  else if ch =? 9 then t_tab (Z.to_nat (8 - t_col s mod 8)) s
  else if 0x20 <=? ch then t_advance (t_put s ch)
  else s.

Definition t_write s (str : cstring) : terminal := foldl t_putc s str.

(** ** What the terminal looks like *)

Definition glyph_pixel (g r cx : Z) : Z := if glyph_bit g r cx then fg else bg.

Definition cell_pixel (v : Z * bool) (r cx : Z) : Z :=
  if v.2 && (r =? 7) then bg else glyph_pixel v.1 r cx.

(** The cells, and background where there is none. *)
Definition render_cells s x y : Z :=
  if (x / 8 <? nc) && (y / 8 <? nr) then cell_pixel (t_cell s (x / 8) (y / 8)) (y mod 8) (x mod 8) else bg.

(** The cursor underlines its cell. *)
Definition under_cursor s x y : bool := (x / 8 =? t_col s) && (y / 8 =? t_row s) && (y mod 8 =? 7).

Definition render s x y : Z := if under_cursor s x y then fg else render_cells s x y.
End terminal.

(** The console and the terminal agree, the cursor being down ... *)
Record drawn k m (s : terminal) : Prop := {
  dr_geometry : geometry k;
  dr_ready : ready k = true;
  dr_cursor : cur_col k = t_col s ∧ cur_row k = t_row s;
  dr_shown : shown k m (render_cells (cols k) (rows k) s);
}.

(** ... or up, as between calls. *)
Record displays k m (s : terminal) : Prop := {
  di_geometry : geometry k;
  di_ready : ready k = true;
  di_cursor : cur_col k = t_col s ∧ cur_row k = t_row s;
  di_shown : shown k m (render (cols k) (rows k) s);
}.

(** * The operations *)

Lemma cell_iff x c : 0 ≤ x → (8 * c <=? x) && (x <? 8 * c + 8) = (x / 8 =? c).
Proof.
  intros. pose proof (Z.div_mod x 8). pose proof (Z.mod_pos_bound x 8).
  destruct (Z.leb_spec (8 * c) x), (Z.ltb_spec x (8 * c + 8)), (Z.eqb_spec (x / 8) c); cbn; try done; lia.
Qed.

Lemma cell_pos x c : 0 ≤ x → x / 8 = c → x - 8 * c = x mod 8.
Proof. intros _ <-. pose proof (Z.div_mod x 8). lia. Qed.

Lemma cell_fits k col row : geometry k → 0 ≤ col < cols k → 0 ≤ row < rows k →
  8 * col + 8 ≤ fb_width k ∧ 8 * row + 8 ≤ fb_height k.
Proof.
  intros [] Hc Hr. destruct ge_grid0 as [Hw Hh]. pose proof (Z.div_mod (fb_width k) 8).
  pose proof (Z.mod_pos_bound (fb_width k) 8). pose proof (Z.div_mod (fb_height k) 8).
  pose proof (Z.mod_pos_bound (fb_height k) 8). lia.
Qed.

(** One pixel of the glyph loop. *)
Lemma glyph_body k m g r cx col row :
  geometry k → 0 ≤ g < 128 → 0 ≤ r < 8 → 0 ≤ cx < 8 →
  8 * col + 8 ≤ 2 ^ 32 → 0 ≤ col → 8 * row + 8 ≤ 2 ^ 32 → 0 ≤ row →
  (byte ← arr_get font_psf (32 + g * 8 + u32 (r * 1 + Z.shiftr cx 3));
   let bit := Z.land (Z.shiftr byte (7 - Z.land cx 7)) 1 in
   put_pixel k m (u32 (col * 8 + cx)) (u32 (row * 8 + r)) (if bit =? 0 then bg else fg)) =
  put_pixel k m (8 * col + cx) (8 * row + r) (glyph_pixel g r cx).
Proof.
  intros G Hg Hr Hcx Hc0 Hc1 Hr0 Hr1.
  rewrite Z.shiftr_div_pow2, (Z.div_small cx) by lia. rewrite (u32_id (r * 1 + 0)) by lia.
  replace (32 + g * 8 + (r * 1 + 0)) with (32 + g * 8 + r) by lia. rewrite font_get, bind_ok by lia. cbv zeta.
  change 7 with (Z.ones 3) at 2. rewrite Z.land_ones, (Z.mod_small cx) by lia.
  rewrite testbit_shiftr_land by lia. unfold glyph_pixel, glyph_bit.
  rewrite !u32_id by lia. replace (col * 8) with (8 * col) by lia. replace (row * 8) with (8 * row) by lia.
  by destruct (Z.testbit _ _).
Qed.

(** Drawing a glyph paints its cell. *)
Lemma draw_cell_returns k m pic ch col row :
  geometry k → shown k m pic → 0 ≤ ch < 256 → 0 ≤ col < cols k → 0 ≤ row < rows k →
  draws k m (draw_cell k m ch col row) (λ x y,
    if (y / 8 =? row) && (x / 8 =? col) then glyph_pixel (glyph_of ch) (y mod 8) (x mod 8) else pic x y).
Proof.
  intros G Hs Hch Hc Hr. destruct (cell_fits k col row G Hc Hr) as [Hfw Hfh].
  destruct (ge_font _ G) as (Hg & Hn & Hw & Hh & Hb & Hgb). pose proof (ge_width _ G). pose proof (ge_height _ G).
  unfold draw_cell. rewrite Hg, Hn, Hw, Hh, Hb, Hgb. fold (glyph_of ch).
  assert (0 ≤ glyph_of ch < 128) as Hgl by (unfold glyph_of; destruct (Z.leb_spec 128 ch); lia).
  rewrite (u32_id (col * 8)), (u32_id (row * 8)), (u32_id (glyph_of ch * 8)) by lia. cbv zeta.
  eapply returns_mono; [apply (paint_rect k m pic _ 0 8 (8 * row) (8 * col) (8 * col + 8)
    (λ r x, glyph_pixel (glyph_of ch) r (x - 8 * col)) G Hs); [lia|lia|]|].
  - intros r m1 pic1 Hr' Hs1. unfold draws.
    eapply returns_mono; [apply (paint_row k m1 pic1 _ 0 8 (8 * col) (8 * row + r) (glyph_pixel (glyph_of ch) r) G Hs1);
      [lia|lia|lia|lia| |lia|]|].
    + intros j. unfold glyph_pixel. case_match; unfold fg, bg; lia.
    + intros cx m2 Hcx. apply glyph_body; [done|lia..].
    + intros m2 [Hs2 Hm2]. split; [|done]. eapply shown_ext; [exact Hs2|]. intros x y _. cbn beta.
      by rewrite Z.add_0_r.
  - intros m' [Hs' Hm']. split; [|done]. eapply shown_ext; [exact Hs'|]. intros x y [Hx Hy]. cbn beta.
    rewrite Z.add_0_r, <- andb_assoc, !cell_iff by lia.
    destruct (Z.eqb_spec (y / 8) row) as [Hyr|]; [|done]. destruct (Z.eqb_spec (x / 8) col) as [Hxc|]; [|done].
    cbn. by rewrite (cell_pos x col), (cell_pos y row) by (done || lia).
Qed.

(** The cursor is the bottom row of its cell. *)
Lemma paint_cursor_returns k m pic colour :
  geometry k → shown k m pic → 0 ≤ colour < 2 ^ 32 →
  draws k m (paint_cursor k m colour) (λ x y,
    if (x / 8 =? cur_col k) && (y / 8 =? cur_row k) && (y mod 8 =? 7) then colour else pic x y).
Proof.
  intros G Hs Hc. pose proof (ge_cursor _ G) as [Hcol Hrow]. destruct (cell_fits k _ _ G Hcol Hrow) as [Hfw Hfh].
  destruct (ge_font _ G) as (_ & _ & Hw & Hh & _). pose proof (ge_width _ G). pose proof (ge_height _ G).
  unfold paint_cursor. rewrite Hw, Hh. change (u32 (8 - 1)) with 7.
  rewrite (u32_id (cur_row k * 8)), (u32_id (cur_row k * 8 + 7)), (u32_id (cur_col k * 8)) by lia. cbv zeta.
  eapply returns_mono; [apply (paint_row k m pic _ 0 8 (8 * cur_col k) (cur_row k * 8 + 7) (λ _, colour) G Hs);
    [lia|lia|lia|lia|done|lia|]|].
  - intros j m1 Hj. rewrite u32_id by lia. f_equal. lia.
  - intros m' [Hs' Hm']. split; [|done]. eapply shown_ext; [exact Hs'|]. intros x y [Hx Hy]. cbn beta.
    rewrite Z.add_0_r, <- andb_assoc, cell_iff by lia.
    pose proof (Z.div_mod y 8). pose proof (Z.mod_pos_bound y 8).
    assert ((y =? cur_row k * 8 + 7) = (y / 8 =? cur_row k) && (y mod 8 =? 7)) as ->.
    { destruct (Z.eqb_spec y (cur_row k * 8 + 7)), (Z.eqb_spec (y / 8) (cur_row k)), (Z.eqb_spec (y mod 8) 7); cbn; try done; lia. }
    by destruct (x / 8 =? cur_col k), (y / 8 =? cur_row k), (y mod 8 =? 7).
Qed.

Lemma under_cursor_eq k s x y : cur_col k = t_col s → cur_row k = t_row s →
  (x / 8 =? cur_col k) && (y / 8 =? cur_row k) && (y mod 8 =? 7) = under_cursor s x y.
Proof. by intros -> ->. Qed.

Lemma draw_cursor_returns k m s : drawn k m s →
  returns (draw_cursor k m) (λ m', displays k m' s ∧ mods (framebuffer k) m m').
Proof.
  intros [G Hr [Hc1 Hc2] Hs].
  eapply returns_mono; [apply (paint_cursor_returns k m _ fg G Hs); unfold fg; lia|].
  intros m' [Hs' Hm']. split; [|done]. split; [done..|]. eapply shown_ext; [exact Hs'|]. intros x y _. cbn beta.
  by rewrite (under_cursor_eq k s).
Qed.

Lemma erase_cursor_returns k m s : displays k m s →
  returns (erase_cursor k m) (λ m', drawn k m' (t_erase s) ∧ mods (framebuffer k) m m').
Proof.
  intros [G Hr [Hc1 Hc2] Hs]. pose proof (ge_cursor _ G) as [Hcol Hrow].
  eapply returns_mono; [apply (paint_cursor_returns k m _ bg G Hs); unfold bg; lia|].
  intros m' [Hs' Hm']. split; [|done]. split; [done..|]. eapply shown_ext; [exact Hs'|]. intros x y _. cbn beta.
  rewrite (under_cursor_eq k s) by done. unfold render, render_cells, under_cursor, t_erase. cbn [set_cell t_cell].
  destruct (Z.eqb_spec (x / 8) (t_col s)) as [->|], (Z.eqb_spec (y / 8) (t_row s)) as [->|]; cbn; try done.
  rewrite (proj2 (Z.ltb_lt (t_col s) (cols k))), (proj2 (Z.ltb_lt (t_row s) (rows k))) by lia. cbn.
  unfold cell_pixel. cbn. destruct (y mod 8 =? 7); cbn; [done|by rewrite andb_false_r].
Qed.

(** A glyph at the cursor. *)
Lemma draw_at_cursor k m s ch : drawn k m s → 0 ≤ ch < 256 →
  returns (draw_cell k m ch (cur_col k) (cur_row k)) (λ m', drawn k m' (t_put s ch) ∧ mods (framebuffer k) m m').
Proof.
  intros [G Hr [Hc1 Hc2] Hs] Hch. pose proof (ge_cursor _ G) as [Hcol Hrow].
  eapply returns_mono; [by apply (draw_cell_returns k m _ ch _ _ G Hs)|].
  intros m' [Hs' Hm']. split; [|done]. split; [done..|]. eapply shown_ext; [exact Hs'|]. intros x y _. cbn beta.
  unfold render_cells, t_put. cbn [set_cell t_cell]. rewrite Hc1, Hc2, andb_comm.
  destruct (Z.eqb_spec (x / 8) (t_col s)) as [->|], (Z.eqb_spec (y / 8) (t_row s)) as [->|]; cbn; try done.
  by rewrite (proj2 (Z.ltb_lt (t_col s) (cols k))), (proj2 (Z.ltb_lt (t_row s) (rows k))) by lia.
Qed.

(** Moving the cursor draws nothing. *)
Lemma set_cursor_geometry k col row :
  geometry k → 0 ≤ col < cols k → 0 ≤ row < rows k → geometry (set_cursor k col row).
Proof. intros [] Hc Hr. by split. Qed.

Lemma move_cursor k m s col row :
  drawn k m s → 0 ≤ col < cols k → 0 ≤ row < rows k →
  drawn (set_cursor k col row) m (at_cursor s col row).
Proof.
  intros [G Hr _ Hs] Hc Hrw. split; [by apply set_cursor_geometry|done|done|].
  destruct Hs as [Hb Hp]. by split.
Qed.

(** * Scrolling *)

Lemma load_le_shift (n : nat) m m' a b :
  (∀ i, 0 ≤ i < n → load8 m' (a + i) = load8 m (b + i)) → load_le n m' a = load_le n m b.
Proof.
  revert a b. induction n as [|n IH]; intros a b Heq; [done|]. cbn [load_le].
  pose proof (Heq 0 ltac:(lia)) as H0. rewrite !Z.add_0_r in H0. rewrite H0.
  rewrite (IH (a + 1) (b + 1)); [done|]. intros i Hi. rewrite <- !Z.add_assoc. apply Heq. lia.
Qed.

Definition scrolled k (pic : Z → Z → Z) x y : Z := if 8 * (rows k - 1) <=? y then bg else pic x (y + 8).

Lemma scroll_returns k m pic : geometry k → shown k m pic → draws k m (scroll k m) (scrolled k pic).
Proof.
  intros G Hs. destruct (ge_font _ G) as (_ & _ & Hw & Hh & _). pose proof (ge_width _ G). pose proof (ge_height _ G).
  pose proof (ge_base _ G) as [Hb0 Hb1]. pose proof (ge_pitch _ G). destruct (ge_grid _ G) as [_ Hrows].
  pose proof (ge_cursor _ G) as [_ Hcr]. destruct Hs as [Hback Hpix].
  assert (0 ≤ 8 * fb_pitch k) by lia.
  assert ((fb_height k - 8) * fb_pitch k + 8 * fb_pitch k = fb_height k * fb_pitch k) as Hsplit by ring.
  assert (0 ≤ (fb_height k - 8) * fb_pitch k) by nia.
  unfold scroll. rewrite Hh. rewrite (u32_id (fb_height k - 8)), (u64_id ((fb_height k - 8) * fb_pitch k)),
    (u64_id (8 * fb_pitch k)), (u64_id (fb_base k + _)) by nia. cbv zeta.
  destruct (memmove_correct m (fb_base k) (fb_base k + 8 * fb_pitch k) ((fb_height k - 8) * fb_pitch k))
    as (m1 & Hrun & Hm1 & Hbytes); [lia|eapply backed_sub; [exact Hback|lia..]|eapply backed_sub; [exact Hback|lia..]|].
  rewrite Hrun. cbn [mbind outcome_bind].
  assert (mods (framebuffer k) m m1) as Hfb.
  { eapply mods_weaken; [exact Hm1|]. unfold framebuffer, range. lia. }
  set (pic1 := λ x y, if y <? fb_height k - 8 then pic x (y + 8) else pic x y).
  assert (shown k m1 pic1) as Hs1.
  { split; [by eapply mods_backed|]. intros x y [Hx Hy]. subst pic1. cbn beta.
    destruct (Z.ltb_spec y (fb_height k - 8)) as [Hlt|Hge].
    - rewrite <- (Hpix x (y + 8)) by (split; lia). apply (load_le_shift 4). intros i Hi. unfold pix.
      replace (fb_base k + y * fb_pitch k + 4 * x + i) with (fb_base k + (y * fb_pitch k + 4 * x + i)) by lia.
      rewrite Hbytes by nia. f_equal. lia.
    - eapply load32_keep; [exact Hm1|by apply Hpix|]. intros a Ha Ha'. unfold pix, range in *.
      assert ((fb_height k - 8) * fb_pitch k ≤ y * fb_pitch k) by nia. lia. }
  rewrite (u32_id (rows k - 1)), (u32_id ((rows k - 1) * 8)) by (rewrite Hrows; div_lia).
  assert (0 ≤ (rows k - 1) * 8 ≤ fb_height k - 8) as Hlo by (rewrite Hrows; div_lia).
  unfold draws. eapply returns_mono; [apply (paint_rect k m1 pic1 _ ((rows k - 1) * 8) (fb_height k) 0 0 (fb_width k)
    (λ _ _, bg) G Hs1); [lia|lia|]|].
  - intros y m2 pic2 Hy Hs2. eapply returns_mono; [apply (paint_row k m2 pic2 _ 0 (fb_width k) 0 y (λ _, bg) G Hs2);
      [lia|lia|lia|lia|unfold bg; lia|lia|]|].
    + intros x m3 Hx. by rewrite Z.add_0_l.
    + intros m3 [Hs3 Hm3]. split; [|done]. eapply shown_ext; [exact Hs3|]. intros x' y' _. cbn beta.
      by rewrite !Z.add_0_l.
  - intros m2 [Hs2 Hm2]. split; [|by eapply mods_trans]. eapply shown_ext; [exact Hs2|]. intros x y [Hx Hy]. cbn beta.
    rewrite !Z.add_0_l, (proj2 (Z.ltb_lt y (fb_height k))), (proj2 (Z.leb_le 0 x)), (proj2 (Z.ltb_lt x (fb_width k))) by lia.
    rewrite !andb_true_r. unfold scrolled, pic1. replace (8 * (rows k - 1)) with ((rows k - 1) * 8) by lia.
    destruct (Z.leb_spec ((rows k - 1) * 8) y); [done|]. by destruct (Z.ltb_spec y (fb_height k - 8)); [|lia].
Qed.

(** Glyph 0 is blank. *)
Lemma glyph_0 r cx : 0 ≤ r < 8 → 0 ≤ cx → glyph_pixel 0 r cx = bg.
Proof.
  intros Hr Hcx. unfold glyph_pixel, glyph_bit.
  assert (font_byte (32 + 0 * 8 + r) = 0) as ->; [|by rewrite Z.testbit_0_l].
  assert (r = 0 ∨ r = 1 ∨ r = 2 ∨ r = 3 ∨ r = 4 ∨ r = 5 ∨ r = 6 ∨ r = 7) as Hcases by lia.
  repeat destruct Hcases as [->|Hcases]; [..|subst r]; by vm_compute.
Qed.

Lemma newline_returns k m s : drawn k m s →
  returns (newline k m) (λ '(k', m'), drawn k' m' (t_newline (rows k) s) ∧
    mods (framebuffer k) m m' ∧ ∃ col row, k' = set_cursor k col row).
Proof.
  intros D. pose proof D as [G Hr [Hc1 Hc2] Hs]. pose proof (ge_cursor _ G) as [Hcol Hrow].
  pose proof (ge_grid _ G) as [_ Hrows]. pose proof (ge_height _ G).
  assert (0 < rows k ≤ 2 ^ 29) as Hrb by (rewrite Hrows; div_lia).
  unfold newline, t_newline. rewrite u32_id by lia. rewrite <- Hc2.
  destruct (Z.leb_spec (rows k) (cur_row k + 1)) as [Hle|Hgt].
  - ret_step (scroll_returns k m _ G Hs). intros m' [Hs' Hm']. cbn [returns]. rewrite u32_id by lia.
    split; [|split; [done|by eexists _, _]].
    split; [apply set_cursor_geometry; [done|lia..]|done|done|]. destruct Hs' as [Hb Hp]. split; [done|].
    intros x y Hxy. cbn [set_cursor cols rows] in *. change (pix (set_cursor _ _ _) x y) with (pix k x y).
    rewrite Hp by done. f_equal. unfold scrolled, render_cells. cbn [t_cell]. destruct Hxy as [Hx Hy].
    cbn in Hx, Hy. pose proof (Z.mod_pos_bound y 8 ltac:(lia)). pose proof (Z.mod_pos_bound x 8 ltac:(lia)).
    assert ((8 * (rows k - 1) <=? y) = (rows k - 1 <=? y / 8)) as ->.
    { destruct (Z.leb_spec (8 * (rows k - 1)) y), (Z.leb_spec (rows k - 1) (y / 8)); try done; div_lia. }
    assert ((y + 8) / 8 = y / 8 + 1 ∧ (y + 8) mod 8 = y mod 8) as [-> ->] by (split; div_lia).
    destruct (Z.leb_spec (rows k - 1) (y / 8)).
    + case_match; [|done]. unfold cell_pixel. cbn. symmetry. apply glyph_0; lia.
    + by rewrite (proj2 (Z.ltb_lt (y / 8) (rows k))), (proj2 (Z.ltb_lt (y / 8 + 1) (rows k))) by lia.
  - cbn [returns]. split; [|split; [done|by eexists _, _]]. apply move_cursor; [done|lia..].
Qed.

(** [newline] and moves keep the size of the grid. *)
Definition same_grid k k' : Prop := ∃ col row, k' = set_cursor k col row.

Lemma same_grid_trans k1 k2 k3 : same_grid k1 k2 → same_grid k2 k3 → same_grid k1 k3.
Proof. intros (c1 & r1 & ->) (c2 & r2 & ->). by exists c2, r2. Qed.

(** What the calls below do: from the terminal [s] to [s'], in the framebuffer. *)
Definition refines k m (o : outcome (console * mem)) (s' : terminal) : Prop :=
  returns o (λ '(k', m'), drawn k' m' s' ∧ mods (framebuffer k) m m' ∧ same_grid k k').

Lemma advance_returns k m s : drawn k m s →
  refines k m (let k := set_cursor k (u32 (cur_col k + 1)) (cur_row k) in
    if cols k <=? cur_col k then newline k m else Ok (k, m)) (t_advance (cols k) (rows k) s).
Proof.
  intros D. pose proof D as [G Hr [Hc1 Hc2] Hs]. pose proof (ge_cursor _ G) as [Hcol Hrow].
  pose proof (ge_grid _ G) as [Hcols _]. pose proof (ge_width _ G).
  assert (cols k ≤ 2 ^ 29) as Hcb by (rewrite Hcols; div_lia).
  unfold refines, t_advance. cbv zeta.
  change (newline (set_cursor k (u32 (cur_col k + 1)) (cur_row k)) m) with (newline k m).
  cbn [set_cursor cols cur_col at_cursor t_col t_row]. rewrite u32_id by lia. rewrite <- Hc1.
  destruct (Z.leb_spec (cols k) (cur_col k + 1)) as [Hle|Hgt].
  - change (t_newline (rows k) (at_cursor s (cur_col k + 1) (t_row s))) with (t_newline (rows k) s).
    by apply newline_returns.
  - rewrite <- Hc2. cbn [returns]. split; [apply move_cursor; [done|lia..]|]. split; [done|by eexists _, _].
Qed.

Lemma refines_grid k m k' m' o s' :
  refines k' m' o s' → mods (framebuffer k) m m' → same_grid k k' → refines k m o s'.
Proof.
  intros Hr Hm Hg. eapply returns_mono; [exact Hr|]. intros [k2 m2] (D & Hm2 & Hg2).
  split; [done|]. split; [|by eapply same_grid_trans]. eapply mods_trans; [exact Hm|].
  destruct Hg as (col & row & ->). exact Hm2.
Qed.

(** A glyph and one step to the right. *)
Lemma print_returns k m s ch : drawn k m s → 0 ≤ ch < 256 →
  refines k m (m ← draw_cell k m ch (cur_col k) (cur_row k);
    let k := set_cursor k (u32 (cur_col k + 1)) (cur_row k) in
    if cols k <=? cur_col k then newline k m else Ok (k, m)) (t_advance (cols k) (rows k) (t_put s ch)).
Proof.
  intros D Hch. unfold refines. ret_step (draw_at_cursor k m s ch D Hch). intros m1 [D1 Hm1].
  apply (refines_grid k m k m1); [by apply advance_returns|done|]. destruct k. by eexists _, _.
Qed.

(** Stepping back. *)
Lemma back_drawn k m s : drawn k m s →
  drawn (if 0 <? cur_col k then set_cursor k (u32 (cur_col k - 1)) (cur_row k)
         else if 0 <? cur_row k then set_cursor k (u32 (cols k - 1)) (u32 (cur_row k - 1)) else k)
    m (t_back (cols k) s).
Proof.
  intros D. pose proof D as [G Hr [Hc1 Hc2] Hs]. pose proof (ge_cursor _ G) as [Hcol Hrow].
  pose proof (ge_grid _ G) as [Hcols Hrows]. pose proof (ge_width _ G). pose proof (ge_height _ G).
  assert (cols k ≤ 2 ^ 29 ∧ rows k ≤ 2 ^ 29) as [Hcb Hrb] by (rewrite Hcols, Hrows; split; div_lia).
  unfold t_back. rewrite <- Hc1, <- Hc2.
  destruct (Z.ltb_spec 0 (cur_col k)); [|destruct (Z.ltb_spec 0 (cur_row k)); [|done]];
    rewrite ?u32_id by lia; apply move_cursor; try done; lia.
Qed.

(** Blanks up to a tab stop. *)
Lemma tab_returns k m s (n : nat) : drawn k m s → n ≤ 8 →
  refines k m (tab_stop k m (cur_col k + n)) (t_tab (cols k) (rows k) n s).
Proof.
  intros D Hn. unfold refines, tab_stop.
  apply (loop_rule_var (λ v '(k', m'), ∃ (j : nat) s', v = j ∧ j ≤ n ∧ drawn k' m' s' ∧
    mods (framebuffer k) m m' ∧ same_grid k k' ∧ cur_col k' + j = cur_col k + n ∧
    t_tab (cols k) (rows k) j s' = t_tab (cols k) (rows k) n s) _ _ n); [|lia|].
  { exists n, s. split; [done|split; [lia|split; [done|split; [done|split; [|done]]]]]. destruct k. by eexists _, _. }
  intros v [k1 m1] (j & s1 & -> & Hj & D1 & Hm1 & Hg1 & Hcol & Heq).
  pose proof D1 as [G1 _ [Hc1 Hc2] _]. destruct j as [|j].
  { destruct (Z.ltb_spec (cur_col k1) (cur_col k + n)); [lia|]. cbn [returns]. rewrite <- Heq. done. }
  destruct (Z.ltb_spec (cur_col k1) (cur_col k + n)); [|lia].
  unfold clear_cell. ret_step (draw_at_cursor k1 m1 s1 0 D1); [lia|]. intros m2 [D2 Hm2]. cbv zeta.
  pose proof (advance_returns k1 m2 (t_put s1 0) D2) as Hadv. cbv zeta in Hadv.
  destruct Hg1 as (gc & gr & Hk1). assert (cols k1 = cols k ∧ rows k1 = rows k) as [Hck Hrk] by (by rewrite Hk1).
  cbn [t_tab] in Heq. cbv zeta in Heq. rewrite <- Hck in Heq.
  pose proof (ge_cursor _ G1) as [Hcur _]. pose proof (ge_grid _ G1) as [Hcols _]. pose proof (ge_width _ G1).
  assert (u32 (cur_col k1 + 1) = cur_col k1 + 1) as Hu by (apply u32_id; rewrite Hcols in Hcur; div_lia).
  change (cols (set_cursor k1 _ _)) with (cols k1) in *. change (cur_col (set_cursor k1 (u32 (cur_col k1 + 1)) (cur_row k1))) with (u32 (cur_col k1 + 1)) in *.
  rewrite Hu in *. change (t_col (t_put s1 0)) with (t_col s1) in Heq. rewrite <- Hc1 in Heq.
  assert (mods (framebuffer k) m m2) as Hm12 by (eapply mods_trans; [exact Hm1|]; rewrite Hk1 in Hm2; exact Hm2).
  revert Heq Hadv. destruct (Z.leb_spec (cols k1) (cur_col k1 + 1)); intros Heq Hadv.
  - apply returns_bind. eapply returns_mono; [exact Hadv|]. intros [k3 m3] (D3 & Hm3 & Hg3). cbn [returns].
    rewrite <- Hck, <- Heq, <- Hrk. split; [done|]. split; [eapply mods_trans; [exact Hm12|]; rewrite Hk1 in Hm3; exact Hm3|].
    eapply same_grid_trans; [by eexists _, _|exact Hg3].
  - cbn [returns] in Hadv |- *. destruct Hadv as (D3 & _ & Hg3). exists j. split; [|lia].
    exists j, (t_advance (cols k1) (rows k1) (t_put s1 0)). split; [done|split; [lia|split; [done|split; [done|]]]].
    split; [eapply same_grid_trans; [by eexists _, _|exact Hg3]|]. split; [cbn; lia|].
    rewrite <- Hck, <- Heq. by rewrite <- Hrk.
Qed.

Lemma tab_target x : 0 ≤ x < 2 ^ 29 → u32 (Z.land x (u32 (Z.lnot 7)) + 8) = x + (8 - x mod 8).
Proof.
  intros Hx. change 7 with (2 ^ 3 - 1). unfold u32 at 2. rewrite land_high_mask_w by lia. change (2 ^ 3) with 8.
  pose proof (Z.mod_pos_bound x 8 ltac:(lia)). rewrite u32_id; lia.
Qed.

(** One character, between taking the cursor down and bringing it up. *)
Lemma console_char_returns k m s ch : drawn k m s → 0 ≤ ch < 256 →
  refines k m
    (if ch =? 10 then newline k m
     else if ch =? 13 then Ok (set_cursor k 0 (cur_row k), m)
     else if ch =? 8 then
       let k := if 0 <? cur_col k then set_cursor k (u32 (cur_col k - 1)) (cur_row k)
                else if 0 <? cur_row k then set_cursor k (u32 (cols k - 1)) (u32 (cur_row k - 1))
                else k in
       m ← clear_cell k m (cur_col k) (cur_row k); Ok (k, m)
     else if ch =? 9 then
       tab_stop k m (u32 (Z.land (cur_col k) (u32 (Z.lnot 7)) + 8))
     else if 0x20 <=? ch then
       m ← draw_cell k m ch (cur_col k) (cur_row k);
       let k := set_cursor k (u32 (cur_col k + 1)) (cur_row k) in
       if cols k <=? cur_col k then newline k m else Ok (k, m)
     else Ok (k, m))
    (if ch =? 10 then t_newline (rows k) s
     else if ch =? 13 then at_cursor s 0 (t_row s)
     else if ch =? 8 then t_put (t_back (cols k) s) 0
     else if ch =? 9 then t_tab (cols k) (rows k) (Z.to_nat (8 - t_col s mod 8)) s
     else if 0x20 <=? ch then t_advance (cols k) (rows k) (t_put s ch)
     else s).
Proof.
  intros D Hch. pose proof D as [G Hr [Hc1 Hc2] Hs]. pose proof (ge_cursor _ G) as [Hcol Hrow].
  pose proof (ge_grid _ G) as [Hcols _]. pose proof (ge_width _ G).
  assert (same_grid k k) as Hkk by (destruct k; by eexists _, _).
  destruct (Z.eqb_spec ch 10); [by apply newline_returns|]. destruct (Z.eqb_spec ch 13).
  { unfold refines. cbn [returns]. rewrite <- Hc2. split; [apply move_cursor; [done|lia..]|]. split; [done|by eexists _, _]. }
  destruct (Z.eqb_spec ch 8).
  { pose proof (back_drawn k m s D) as Db. cbv zeta.
    assert (same_grid k (if 0 <? cur_col k then set_cursor k (u32 (cur_col k - 1)) (cur_row k)
      else if 0 <? cur_row k then set_cursor k (u32 (cols k - 1)) (u32 (cur_row k - 1)) else k)) as Hg.
    { repeat case_match; [by eexists _, _|by eexists _, _|done]. }
    revert Db Hg. generalize (if 0 <? cur_col k then set_cursor k (u32 (cur_col k - 1)) (cur_row k)
      else if 0 <? cur_row k then set_cursor k (u32 (cols k - 1)) (u32 (cur_row k - 1)) else k).
    intros k1 Db Hg. unfold refines, clear_cell. ret_step (draw_at_cursor k1 m _ 0 Db); [lia|].
    intros m1 [D1 Hm1]. cbn [returns]. split; [done|split; [|done]]. destruct Hg as (a & b & ->). exact Hm1. }
  destruct (Z.eqb_spec ch 9).
  { pose proof (Z.mod_pos_bound (cur_col k) 8 ltac:(lia)). rewrite tab_target by (rewrite Hcols in Hcol; split; [lia|div_lia]).
    rewrite <- Hc1. replace (8 - cur_col k mod 8) with (Z.of_nat (Z.to_nat (8 - cur_col k mod 8))) at 1 by lia.
    apply tab_returns; [done|lia]. }
  destruct (Z.leb_spec 0x20 ch); [by apply print_returns|]. split; [done|split; done].
Qed.

Lemma console_putc_returns k m s ch : displays k m s → 0 ≤ ch < 256 →
  returns (console_putc k m ch) (λ '(k', m'), displays k' m' (t_putc (cols k) (rows k) s ch) ∧
    mods (framebuffer k) m m' ∧ same_grid k k').
Proof.
  intros D Hch. unfold console_putc. rewrite (di_ready _ _ _ D). cbn [negb].
  ret_step (erase_cursor_returns k m s D). intros m1 [D1 Hm1].
  ret_step (console_char_returns k m1 _ ch D1 Hch). intros [k2 m2] (D2 & Hm2 & Hg).
  ret_step (draw_cursor_returns k2 m2 _ D2). intros m3 [D3 Hm3]. cbn [returns]. split; [exact D3|split; [|done]].
  eapply mods_trans; [exact Hm1|]. eapply mods_trans; [exact Hm2|]. destruct Hg as (a & b & ->). exact Hm3.
Qed.

Lemma console_write_returns k m s str : displays k m s → Forall (λ ch, 0 ≤ ch < 256) str →
  returns (console_write k m str) (λ '(k', m'), displays k' m' (t_write (cols k) (rows k) s str) ∧
    mods (framebuffer k) m m' ∧ same_grid k k').
Proof.
  revert k m s. induction str as [|ch str IH]; intros k m s D Hstr.
  { cbn. split; [done|split; [done|]]. destruct k. by eexists _, _. }
  apply Forall_cons in Hstr as [Hch Hstr]. cbn [console_write].
  ret_step (console_putc_returns k m s ch D Hch). intros [k1 m1] (D1 & Hm1 & Hg1).
  eapply returns_mono; [by apply (IH k1 m1 _ D1)|]. intros [k2 m2] (D2 & Hm2 & Hg2).
  pose proof Hg1 as (a & b & Hk1). subst k1. split; [exact D2|].
  split; [eapply mods_trans; [exact Hm1|exact Hm2]|eapply same_grid_trans; [exact Hg1|exact Hg2]].
Qed.

(** * Starting *)

(** A framebuffer the console can use. *)
Record framebuffer_ok m (base width height pitch : Z) : Prop := {
  fo_base : 0 ≤ base ∧ base + height * pitch < 2 ^ 64;
  fo_pitch : 4 * width ≤ pitch < 2 ^ 32;
  fo_width : 8 ≤ width < 2 ^ 32;
  fo_height : 8 ≤ height < 2 ^ 32;
  fo_backed : backed m base (height * pitch);
}.

(** A blank grid with the cursor in its corner. *)
Definition blank : terminal := {| t_col := 0; t_row := 0; t_cell := λ _ _, (0, false) |}.

Lemma console_init_returns `{!Machine} k m t base width height pitch :
  framebuffer_ok m base width height pitch →
  returns (console_init k m t base width height pitch 32) (λ '(k', m', t'), t' = t ∧
    fb_base k' = base ∧ fb_width k' = width ∧ fb_height k' = height ∧ fb_pitch k' = pitch ∧
    cols k' = width / 8 ∧ rows k' = height / 8 ∧
    displays k' m' blank ∧ mods (range base (height * pitch)) m m').
Proof.
  intros []. unfold console_init. rewrite header_ok, bind_ok. cbn [psf_magic psf_width psf_height psf_headersize psf_length psf_charsize].
  change (negb (PSF2_MAGIC =? PSF2_MAGIC) || (8 =? 0) || (8 =? 0)) with false. cbv zeta.
  change (32 / 8) with 4. change (u32 (8 + 7) / 8) with 1. set (k0 := {| fb_base := base |}).
  assert (geometry k0) as G.
  { subst k0. split; cbn; try done. split; (split; [lia|div_lia]). }
  pose proof (ge_width _ G) as Hw. pose proof (ge_height _ G) as Hh.
  assert (shown k0 m (λ x y, match load32 m (pix k0 x y) with Ok v => v | _ => 0 end)) as Hs.
  { split; [done|]. intros x y Hxy. destruct (pix_inside k0 x y G Hxy) as [H1 H2].
    destruct (returns_inv _ _ (load_le_returns 4 m (pix k0 x y) ltac:(eapply backed_sub; [exact fo_backed0|cbn in *; lia..])))
      as (v & Hv & _). unfold load32. by rewrite Hv. }
  apply returns_bind. eapply returns_mono; [apply (paint_rect k0 m _ _ 0 (fb_height k0) 0 0 (fb_width k0)
    (λ _ _, bg) G Hs); [lia|lia|]|].
  - intros y m1 pic1 Hy Hs1. eapply returns_mono; [apply (paint_row k0 m1 pic1 _ 0 (fb_width k0) 0 y (λ _, bg) G Hs1);
      [lia|lia|lia|lia|unfold bg; lia|lia|]|].
    + intros x m2 Hx. by rewrite Z.add_0_l.
    + intros m2 [Hs2 Hm2]. split; [|done]. eapply shown_ext; [exact Hs2|]. intros x' y' _. cbn beta.
      by rewrite !Z.add_0_l.
  - intros m1 [Hs1 Hm1]. assert (drawn (set_ready k0 true) m1 blank) as D1.
    { split; [by destruct G|done|done|]. destruct Hs1 as [Hb Hp]. split; [done|]. intros x y Hxy.
      change (pix (set_ready k0 true) x y) with (pix k0 x y). rewrite Hp by done. destruct Hxy as [Hx Hy]. cbn in Hx, Hy.
      rewrite !Z.add_0_l, (proj2 (Z.leb_le 0 x)), (proj2 (Z.leb_le 0 y)) by lia.
      change (fb_width k0) with width. change (fb_height k0) with height.
      rewrite (proj2 (Z.ltb_lt x width)), (proj2 (Z.ltb_lt y height)) by lia. cbn [andb]. f_equal.
      unfold render_cells, blank, cell_pixel. cbn [t_cell fst snd andb]. case_match; [|done].
      pose proof (Z.mod_pos_bound y 8 ltac:(lia)). pose proof (Z.mod_pos_bound x 8 ltac:(lia)).
      symmetry. apply glyph_0; lia. }
    ret_step (draw_cursor_returns _ _ _ D1). intros m2 [D2 Hm2]. cbn [returns].
    do 7 (split; [done|]). split; [exact D2|]. by eapply mods_trans.
Qed.

(** * Text on the terminal *)

Lemma put_char nc nr s ch : 0x20 ≤ ch < 128 → t_col s + 1 < nc →
  let s' := t_putc nc nr s ch in
  t_col s' = t_col s + 1 ∧ t_row s' = t_row s ∧
  ∀ c r, t_cell s' c r = if (c =? t_col s) && (r =? t_row s) then (ch, false) else t_cell s c r.
Proof.
  intros Hch Hc. unfold t_putc. do 4 (rewrite (proj2 (Z.eqb_neq ch _)) by lia).
  rewrite (proj2 (Z.leb_le 0x20 ch)) by lia. unfold t_advance, t_put.
  assert (glyph_of ch = ch) as -> by (unfold glyph_of; by rewrite (proj2 (Z.leb_gt 128 ch)) by lia). cbn [t_put t_erase set_cell at_cursor t_col t_row].
  rewrite (proj2 (Z.leb_gt nc (t_col s + 1))) by lia. cbn [at_cursor set_cell t_col t_row t_cell].
  split; [done|split; [done|]]. intros c r.
  unfold t_erase. cbn [set_cell t_cell]. by destruct ((c =? t_col s) && (r =? t_row s)).
Qed.

(** Printable text that fits on the line stands in consecutive cells; the rest of
    the screen is untouched. *)
Lemma put_text nc nr str s :
  Forall (λ ch, 0x20 ≤ ch < 128) str → t_col s + length str < nc →
  let s' := t_write nc nr s str in
  t_col s' = t_col s + length str ∧ t_row s' = t_row s ∧
  (∀ (i : nat) ch, str !! i = Some ch → t_cell s' (t_col s + i) (t_row s) = (ch, false)) ∧
  ∀ c r, ¬ (r = t_row s ∧ t_col s ≤ c < t_col s + length str) → t_cell s' c r = t_cell s c r.
Proof.
  unfold t_write. revert s. induction str as [|ch str IH]; intros s Hstr Hfit.
  { cbn. split; [lia|split; [done|split; [done|done]]]. }
  apply Forall_cons in Hstr as [Hch Hstr]. cbn [foldl length] in *.
  destruct (put_char nc nr s ch Hch) as (Hc & Hr & Hcell); [lia|].
  destruct (IH (t_putc nc nr s ch) Hstr) as (Hc' & Hr' & Hin & Hout); [rewrite Hc; lia|]. cbv zeta.
  rewrite Hc in *. rewrite Hr in *. split; [lia|split; [done|split]].
  - intros [|i] c Hi; cbn in Hi.
    + injection Hi as <-. rewrite Hout by lia. rewrite Hcell. change (Z.of_nat 0) with 0. rewrite Z.add_0_r.
      by rewrite !Z.eqb_refl.
    + rewrite <- (Hin i c Hi). f_equal; lia.
  - intros c r Hcr. rewrite Hout by lia. rewrite Hcell.
    destruct (Z.eqb_spec c (t_col s)) as [->|], (Z.eqb_spec r (t_row s)) as [->|]; cbn; try done. exfalso. apply Hcr. lia.
Qed.

(** Moving the cursor back over text damages it: after an underscore and a
    carriage return, taking the cursor down leaves nothing of the underscore. *)
Lemma cursor_wipes_glyphs x y : 0 ≤ x < 8 → 0 ≤ y < 8 →
  let s := t_write 80 25 blank [95; 13; 10] in
  (t_cell s 0 0).1 = 95 ∧ render 80 25 s x y = bg.
Proof.
  intros Hx Hy s. split; [by vm_compute|].
  assert (∀ v, 0 ≤ v < 8 → v = 0 ∨ v = 1 ∨ v = 2 ∨ v = 3 ∨ v = 4 ∨ v = 5 ∨ v = 6 ∨ v = 7) as Hcases by lia.
  destruct (Hcases x Hx) as [->|[->|[->|[->|[->|[->|[->| ->]]]]]]], (Hcases y Hy) as [->|[->|[->|[->|[->|[->|[->| ->]]]]]]];
    by vm_compute.
Qed.

(** * A small screen *)

Module console_demo.
Definition base : Z := 0xffffffff90000000.

(** The console before it is initialised. *)
Definition off : console := {|
  fb_base := 0; fb_width := 0; fb_height := 0; fb_pitch := 0; fb_bytes_pp := 0;
  glyph_data := 0; glyph_count := 0; glyph_w := 0; glyph_h := 0; glyph_bytes := 0; gw_bytes := 0;
  cols := 0; rows := 0; cur_col := 0; cur_row := 0; ready := false |}.

(** 80 by 16 pixels, ten columns and two rows; the scan lines are padded. *)
Lemma screen : ∃ m, framebuffer_ok m base 80 16 384.
Proof.
  exists (ram_fill base (Z.to_nat 6144) ∅). split; [unfold base; lia|lia|lia|lia|]. apply ram_fill_backed; lia.
Qed.
End console_demo.

(** * What the console promises *)

(** C16. The framebuffer is a terminal.  On a 32-bit framebuffer that holds at least
    one cell, [console_init] and then [console_write] of any bytes return.  Every
    visible pixel is then the one the terminal specifies, its grid starting blank:
    newline, carriage return, backspace, tab stops, printing, wrapping at the right
    edge and scrolling at the bottom, and the underline cursor.  The cursor is on
    the grid, and no byte outside the framebuffer was written. *)
Theorem console_write_correct {Mach : Machine} k m t base width height pitch str :
  framebuffer_ok m base width height pitch → Forall (λ ch, 0 ≤ ch < 256) str →
  ∃ k0 m0 k' m', console_init k m t base width height pitch 32 = Ok (k0, m0, t) ∧
    console_write k0 m0 str = Ok (k', m') ∧
    let s := t_write (width / 8) (height / 8) blank str in
    (∀ x y, 0 ≤ x < width → 0 ≤ y < height →
       load32 m' (base + y * pitch + 4 * x) = Ok (render (width / 8) (height / 8) s x y)) ∧
    0 ≤ t_col s < width / 8 ∧ 0 ≤ t_row s < height / 8 ∧
    mods (range base (height * pitch)) m m'.
Proof.
  intros Hfb Hstr.
  destruct (returns_inv _ _ (console_init_returns k m t base width height pitch Hfb))
    as ([[k0 m0] t0] & Hi & -> & Hbase & Hwd & Hht & Hpt & Hcols & Hrows & D0 & Hm0).
  destruct (returns_inv _ _ (console_write_returns k0 m0 blank str D0 Hstr)) as ([k' m'] & Hw & D' & Hm' & Hg).
  exists k0, m0, k', m'. split; [exact Hi|split; [exact Hw|]]. cbv zeta. rewrite <- Hcols, <- Hrows.
  destruct Hg as (a & b & ->). destruct D' as [G _ [Hc Hr] [_ Hpix]]. destruct (ge_cursor _ G) as [Hcur1 Hcur2].
  rewrite Hc in Hcur1. rewrite Hr in Hcur2. split; [|split; [exact Hcur1|split; [exact Hcur2|]]].
  - intros x y Hx Hy. rewrite <- Hbase, <- Hpt. apply (Hpix x y). split; cbn; lia.
  - eapply mods_trans; [exact Hm0|]. unfold framebuffer in Hm'. by rewrite Hbase, Hht, Hpt in Hm'.
Qed.

Lemma console_write_correct_witness : ∃ m k0 m0 k' m',
  console_write k0 m0 (c "hello") = Ok (k', m') ∧ load32 m' (console_demo.base + 7 * 384 + 4 * 40) = Ok fg ∧
  framebuffer_ok m console_demo.base 80 16 384.
Proof.
  destruct console_demo.screen as [m Hm].
  destruct (console_write_correct (Mach := serial_demo.machine0) console_demo.off m [] console_demo.base 80 16 384 (c "hello") Hm
    ltac:(apply (bool_decide_unpack _); by vm_compute)) as (k0 & m0 & k' & m' & _ & Hw & Hpix & _).
  exists m, k0, m0, k', m'. split; [exact Hw|split; [|exact Hm]].
  rewrite (Hpix 40 7 ltac:(lia) ltac:(lia)). f_equal.
Defined.

(** Text on the screen.  Writing printable characters that fit on the line
    returns and leaves the framebuffer showing each in its own cell, in order,
    whole; the cursor is after them and every other cell is as it was. *)
Theorem console_text_correct k m s str :
  displays k m s → Forall (λ ch, 0x20 ≤ ch < 128) str → t_col s + length str < cols k →
  ∃ k' m' s', console_write k m str = Ok (k', m') ∧ displays k' m' s' ∧
    t_col s' = t_col s + length str ∧ t_row s' = t_row s ∧
    (∀ (i : nat) ch, str !! i = Some ch → t_cell s' (t_col s + i) (t_row s) = (ch, false)) ∧
    (∀ col row, ¬ (row = t_row s ∧ t_col s ≤ col < t_col s + length str) → t_cell s' col row = t_cell s col row) ∧
    mods (framebuffer k) m m'.
Proof.
  intros D Hstr Hfit. assert (Forall (λ ch, 0 ≤ ch < 256) str) as Hbytes.
  { eapply Forall_impl; [exact Hstr|]. intros ch ?. cbn in *. lia. }
  destruct (returns_inv _ _ (console_write_returns k m s str D Hbytes)) as ([k' m'] & Hw & D' & Hm' & Hg).
  destruct (put_text (cols k) (rows k) str s Hstr Hfit) as (Hc & Hr & Hin & Hout).
  exists k', m', (t_write (cols k) (rows k) s str).
  split; [exact Hw|]. assert (cols k' = cols k ∧ rows k' = rows k) as [Hck Hrk] by (by destruct Hg as (a & b & ->)).
  done.
Qed.

Lemma console_text_correct_witness : ∃ k m k' m' s',
  console_write k m (c "ok") = Ok (k', m') ∧ displays k' m' s' ∧ t_cell s' 1 0 = (107, false).
Proof.
  destruct console_demo.screen as [m Hm].
  destruct (returns_inv _ _ (console_init_returns (H := serial_demo.machine0) console_demo.off m [] console_demo.base 80 16 384 Hm))
    as ([[k0 m0] t0] & _ & _ & _ & _ & _ & _ & Hcols & _ & D0 & _).
  destruct (console_text_correct k0 m0 blank (c "ok") D0
    ltac:(apply (bool_decide_unpack _); by vm_compute) ltac:(rewrite Hcols; vm_compute; reflexivity))
    as (k' & m' & s' & Hw & D' & _ & _ & Hin & _).
  exists k0, m0, k', m', s'. split; [exact Hw|split; [exact D'|]]. exact (Hin 1%nat 107 eq_refl).
Defined.
