(* ===== verification/Drivers.v ===== *)
(** kernel/drivers/timer.c and keyboard.c: the two interrupt-driven devices.

    [pit_of] replays a trace into channel 0 of the timer chip.  Both drivers
    register a handler with the interrupt layer and do their work in it; what the
    handlers may rely on is what [take_interrupt] gives them. *)

From stdpp Require Import base list gmap sets.
From Stdlib Require Import ZArith Lia String.
From S2P Require Import Prelude.
From S2P Require Import Mem.
From S2P Require Import Io.
From S2P Require Import Serial.
From S2P Require Import Pic.
From S2P Require Import Arch.
From S2P Require Import Format.
From S2P Require Import Isr.
From S2P Require Import Console.

#[local] Abbreviation length := Datatypes.length.
Implicit Types (t : io) (k : console) (m : mem).

(** The functions the kernel registers as handlers. *)
Inductive irq_handler := TimerIrq | KeyboardIrq.

(** * The timer *)

Definition PIT_CH0_DATA : Z := 0x40.
Definition PIT_CMD : Z := 0x43.
Definition PIT_BASE_HZ : Z := 1193182.
Definition PIT_CMD_CH0_RATEGEN : Z := 0x36.

Record timer := { ticks : Z; tick_hz : Z }.

Implicit Types (tm : timer).

Section timer.
Context `{!Machine}.

(** timer.c has its own copy of the printer, line for line that of kernel.c. *)
Definition timer_put_dec t v : outcome io := put_dec t v.

Definition timer_irq tm t : outcome (timer * io) :=
  let tm := {| ticks := u64 (ticks tm + 1); tick_hz := tick_hz tm |} in
  t ← (if negb (tick_hz tm =? 0) && (ticks tm mod tick_hz tm =? 0) then
         t ← serial_write t (c "[timer] tick ");
         t ← timer_put_dec t (ticks tm / tick_hz tm);
         serial_write t (ln "s")
       else Ok t);
  Ok (tm, t).

Definition timer_init (a : arch irq_handler) tm t (frequency : Z) : outcome (arch irq_handler * timer * io) :=
  let tm := {| ticks := ticks tm; tick_hz := frequency |} in
  if frequency =? 0 then Fault else
  let divisor := u16 (PIT_BASE_HZ / frequency) in
  let t := outb t PIT_CMD PIT_CMD_CH0_RATEGEN in
  let t := outb t PIT_CH0_DATA (u8 (Z.land divisor 0xFF)) in
  let t := outb t PIT_CH0_DATA (u8 (Z.land (Z.shiftr divisor 8) 0xFF)) in
  a ← irq_install_handler a 0 TimerIrq;
  Ok (a, tm, t).

Definition timer_ticks tm : Z := ticks tm.
End timer.

(** ** Channel 0 of the chip *)

(** [pit_latch]: the low byte of a count half written. *)
Record pit := { pit_mode : Z; pit_access : Z; pit_latch : option Z; pit_reload : Z }.

Definition pit_step (p : pit) (e : event) : pit :=
  match e with
  | Out port v =>
      if port =? PIT_CMD then
        if Z.shiftr v 6 =? 0 then
          {| pit_mode := Z.land (Z.shiftr v 1) 7; pit_access := Z.land (Z.shiftr v 4) 3;
             pit_latch := None; pit_reload := pit_reload p |}
        else p
      else if (port =? PIT_CH0_DATA) && (pit_access p =? 3) then
        match pit_latch p with
        | None => {| pit_mode := pit_mode p; pit_access := 3; pit_latch := Some v; pit_reload := pit_reload p |}
        | Some lo => {| pit_mode := pit_mode p; pit_access := 3; pit_latch := None; pit_reload := lo + 256 * v |}
        end
      else p
  | _ => p
  end.

Definition pit_reset : pit := {| pit_mode := 0; pit_access := 0; pit_latch := None; pit_reload := 0 |}.

Lemma pit_program p lo hi :
  foldl pit_step (foldl pit_step (foldl pit_step p [Out PIT_CMD (u8 PIT_CMD_CH0_RATEGEN)]) [Out PIT_CH0_DATA lo])
    [Out PIT_CH0_DATA hi] =
  {| pit_mode := 3; pit_access := 3; pit_latch := None; pit_reload := lo + 256 * hi |}.
Proof. done. Qed.

Definition pit_of t : pit := foldl pit_step pit_reset t.

(** The period of the square wave, in input clocks, once mode 3 has its whole count.  A
    count of zero stands for 65536; the least count of mode 3 is 2, with 1 the chip's
    output is not defined. *)
Definition pit_period t : option Z :=
  let p := pit_of t in
  match pit_latch p with
  | Some _ => None
  | None =>
      if negb (pit_mode p =? 3) then None
      else if pit_reload p =? 0 then Some 65536
      else if pit_reload p =? 1 then None
      else Some (pit_reload p)
  end.

(** * The keyboard *)

Definition PS2_DATA : Z := 0x60.

Definition scancode_ascii : list Z :=
  [0; 0] ++ c "1234567890-=" ++ [8; 9] ++ c "qwertyuiop[]" ++ [10; 0] ++ c "asdfghjkl;'`" ++ [0] ++
  c "\zxcvbnm,./" ++ [0] ++ c "*" ++ [0] ++ c " " ++ [0] ++ replicate 69 0.

Section keyboard.
Context `{!Machine}.

Definition keyboard_irq k m t : outcome (console * mem * io) :=
  let '(t, scancode) := inb t PS2_DATA in
  if negb (Z.land scancode 0x80 =? 0) then Ok (k, m, t) else
  ch ← arr_get scancode_ascii scancode;
  if negb (ch =? 0) then
    '(k, m) ← console_putc k m ch;
    t ← (if ch =? chr_nl then serial_putc t chr_cr else Ok t);
    t ← serial_putc t ch;
    Ok (k, m, t)
  else Ok (k, m, t).

Definition keyboard_init (a : arch irq_handler) : outcome (arch irq_handler) :=
  irq_install_handler a 1 KeyboardIrq.
End keyboard.

(** The character a byte from the keyboard stands for, 0 for none: a release, or a
    key without one. *)
Definition key_char (scancode : Z) : Z :=
  if Z.testbit scancode 7 then 0 else scancode_ascii !!! Z.to_nat scancode.

(** * Lemmas *)

Lemma scancodes : length scancode_ascii = 128%nat.
Proof. done. Qed.

Lemma scancode_chars : Forall (λ ch, 0 ≤ ch < 128) scancode_ascii.
Proof. apply (bool_decide_unpack _). by vm_compute. Qed.

Lemma key_char_range sc : 0 ≤ sc < 256 → 0 ≤ key_char sc < 128.
Proof.
  intros Hsc. unfold key_char. destruct (Z.testbit sc 7) eqn:Hb; [lia|].
  assert (sc < 128).
  { apply Z.testbit_false in Hb; [|lia]. change (2 ^ 7) with 128 in Hb. div_lia. }
  destruct (lookup_lt_is_Some_2 scancode_ascii (Z.to_nat sc)) as [x Hx]; [rewrite scancodes; lia|].
  rewrite (list_lookup_total_correct _ _ _ Hx). pose proof scancode_chars as HF. by eapply Forall_lookup_1 in HF.
Qed.

Lemma high_bit sc : 0 ≤ sc < 256 → (Z.land sc 0x80 =? 0) = negb (Z.testbit sc 7).
Proof. intros _. change 0x80 with (Z.shiftl 1 7). by apply land_bit. Qed.

Lemma key_lookup sc : 0 ≤ sc < 256 → Z.testbit sc 7 = false → arr_get scancode_ascii sc = Ok (key_char sc).
Proof.
  intros Hsc Hb. unfold key_char. rewrite Hb. apply Z.testbit_false in Hb; [|lia]. change (2 ^ 7) with 128 in Hb.
  destruct (lookup_lt_is_Some_2 scancode_ascii (Z.to_nat sc)) as [x Hx]; [rewrite scancodes; div_lia|].
  rewrite (list_lookup_total_correct _ _ _ Hx). rewrite <- (Z2Nat.id sc) by lia. by apply arr_get_Some.
Qed.

(** What a key puts on the serial line. *)
Definition echo (ch : Z) : list Z := if ch =? 0 then [] else crlf [ch].

(** What a tick puts on the serial line: a line per second. *)
Definition heartbeat (ticks hz : Z) : list Z :=
  if negb (hz =? 0) && (ticks mod hz =? 0) then crlf (c "[timer] tick ") ++ dec (ticks / hz) ++ crlf (ln "s") else [].

(** What the keyboard does to the terminal. *)
Definition type_key (nc nr : Z) (s : terminal) (ch : Z) : terminal := if ch =? 0 then s else t_putc nc nr s ch.

Section proofs.
Context `{!Machine, !Uart}.

Lemma timer_irq_returns tm t :
  dlab (uart_of t) = false → 0 ≤ tick_hz tm →
  returns (timer_irq tm t) (λ '(tm', t'),
    tm' = {| ticks := u64 (ticks tm + 1); tick_hz := tick_hz tm |} ∧
    sends t (heartbeat (ticks tm') (tick_hz tm)) t').
Proof.
  intros Hd Hhz. unfold timer_irq, heartbeat. cbv zeta. cbn [ticks tick_hz].
  pose proof (u64_range (ticks tm + 1)) as Hr. set (n := u64 (ticks tm + 1)) in *.
  apply returns_bind. apply (returns_mono _ (sends t (heartbeat n (tick_hz tm)))); [|by intros t' Ht'].
  unfold heartbeat. destruct (Z.eqb_spec (tick_hz tm) 0) as [|Hne]; cbn [negb andb]; [by apply sends_nil|].
  destruct (n mod tick_hz tm =? 0); [|by apply sends_nil].
  ret_step prints_c; [done|]. intros t1 H1. ret_step (prints_dec (n / tick_hz tm)).
  { split; [apply Z.div_pos; lia|]. apply (Z.le_lt_trans _ n); [apply Z.div_le_upper_bound; nia|lia]. }
  { by eapply sends_dlab. }
  intros t2 H2. eapply returns_mono; [by eapply prints_ln, sends_dlab|]. intros t3 H3.
  eapply sends_app; [done|]. by eapply sends_app.
Qed.

Lemma keyboard_irq_returns k m t s :
  dlab (uart_of t) = false → displays k m s →
  returns (keyboard_irq k m t) (λ '(k', m', t'), ∃ sc, 0 ≤ sc < 256 ∧ sc = u8 (port_in t PS2_DATA) ∧
    displays k' m' (type_key (cols k) (rows k) s (key_char sc)) ∧ mods (framebuffer k) m m' ∧ same_grid k k' ∧
    sends (t ++ [In PS2_DATA sc]) (echo (key_char sc)) t').
Proof.
  intros Hd D. unfold keyboard_irq, inb. cbv zeta beta iota. set (sc := u8 (port_in t PS2_DATA)).
  pose proof (u8_range (port_in t PS2_DATA)) as Hsc. change (u8 (port_in t PS2_DATA)) with sc in Hsc.
  assert (dlab (uart_of (t ++ [In PS2_DATA sc])) = false) as Hd1 by (rewrite uart_of_app; done).
  assert (same_grid k k) as Hrefl by (destruct k; by eexists _, _).
  rewrite high_bit, negb_involutive by done. destruct (Z.testbit sc 7) eqn:Hb.
  { cbn [returns]. exists sc. assert (key_char sc = 0) as -> by (unfold key_char; by rewrite Hb).
    do 2 (split; [done|]). split; [done|split; [done|split; [done|by apply sends_nil]]]. }
  rewrite key_lookup, bind_ok by done. pose proof (key_char_range sc Hsc) as Hch. set (ch := key_char sc) in *.
  unfold type_key, echo.
  destruct (ch =? 0) eqn:Hceq; cbn [negb].
  { cbn [returns]. exists sc. fold ch. rewrite Hceq. do 2 (split; [done|]).
    split; [done|split; [done|split; [done|by apply sends_nil]]]. }
  ret_step (console_putc_returns k m s ch D); [lia|]. intros [k1 m1] (D1 & Hm1 & Hg1).
  apply returns_bind, (returns_mono _ (sends (t ++ [In PS2_DATA sc]) (if ch =? chr_nl then [chr_cr] else []))).
  { destruct (ch =? chr_nl); [by apply (serial_putc_returns _ chr_cr)|by apply sends_nil]. }
  intros t1 H1. ret_step serial_putc_returns; [by eapply sends_dlab|]. intros t2 H2. cbn [returns].
  rewrite u8_id in H2 by lia. exists sc. fold ch. rewrite Hceq. do 2 (split; [done|]).
  split; [done|split; [done|split; [done|]]].
  cbn [crlf]. change (ch :: []) with ([ch]) . by eapply sends_app.
Qed.

Lemma timer_init_returns a tm t frequency :
  0 < frequency < 2 ^ 32 → length (handlers a) = 16%nat →
  returns (timer_init a tm t frequency) (λ '(a', tm', t'),
    a' = {| gdt := gdt a; idt := idt a; handlers := <[0%nat := Some TimerIrq]> (handlers a) |} ∧
    tm' = {| ticks := ticks tm; tick_hz := frequency |} ∧
    pit_mode (pit_of t') = 3 ∧ pit_latch (pit_of t') = None ∧
    pit_reload (pit_of t') = PIT_BASE_HZ / frequency mod 2 ^ 16 ∧
    has_tail (λ e, handler_event e ∧ uart_silent e) t t').
Proof.
  intros Hf Hlen. unfold timer_init. rewrite (proj2 (Z.eqb_neq frequency 0)) by lia. cbv zeta.
  rewrite irq_install_returns by (done || lia). cbn [mbind outcome_bind returns].
  split; [done|split; [done|]]. set (d := u16 (PIT_BASE_HZ / frequency)).
  pose proof (u16_range (PIT_BASE_HZ / frequency)) as Hd. change (u16 (PIT_BASE_HZ / frequency)) with d in Hd.
  change 0xFF with (Z.ones 8). rewrite !Z.land_ones, Z.shiftr_div_pow2 by lia. unfold u8. rewrite !Z.mod_mod by lia.
  unfold pit_of, outb. rewrite !foldl_app, pit_program. cbn [pit_mode pit_latch pit_reload].
  split; [done|split; [done|split]].
  - unfold u8. rewrite !Z.mod_mod by lia.
    enough (d mod 2 ^ 8 + 256 * (d / 2 ^ 8 mod 2 ^ 8) = d) as -> by done. change (2 ^ 16) with 65536 in Hd. div_lia.
  - repeat (apply has_tail_snoc; [split; [split; [done|apply (bool_decide_unpack _); by vm_compute]|left; by vm_compute]|]).
    apply has_tail_refl.
Qed.
End proofs.
#[local] Existing Instances arch_demo.machine arch_demo.machine_uart arch_demo.text.

(** * What the drivers promise *)

(** C40. Programming the timer, for every frequency.  A frequency of zero is a division
    by zero; otherwise [timer_init] returns, with the tick handler registered for line 0
    and no other.  From 19 Hz to half the timer's own clock (596591 Hz) channel 0 is then
    a square-wave generator whose period is the whole number of input clocks per tick.
    Below 19 Hz the count is cut to 16 bits.  Above half the clock the count is 1, which
    mode 3 does not have, and above the clock it is 0, which stands for 65536: the
    timer's slowest rate. *)
Theorem timer_init_correct {M : Machine} {U : Uart} (a : arch irq_handler) tm t frequency :
  length (handlers a) = 16%nat → 0 ≤ frequency < 2 ^ 32 →
  (frequency = 0 → timer_init a tm t frequency = Fault) ∧
  (0 < frequency → ∃ a' t', timer_init a tm t frequency = Ok (a', {| ticks := ticks tm; tick_hz := frequency |}, t') ∧
    pit_mode (pit_of t') = 3 ∧ pit_reload (pit_of t') = (PIT_BASE_HZ / frequency) mod 65536 ∧
    (19 ≤ frequency ≤ PIT_BASE_HZ / 2 → ∃ period, pit_period t' = Some period ∧
       period * frequency ≤ PIT_BASE_HZ < (period + 1) * frequency) ∧
    (PIT_BASE_HZ / 2 < frequency ≤ PIT_BASE_HZ → pit_period t' = None) ∧
    (PIT_BASE_HZ < frequency → pit_period t' = Some 65536) ∧
    handlers a' = <[0%nat := Some TimerIrq]> (handlers a) ∧ gdt a' = gdt a ∧ idt a' = idt a ∧
    pic_of t' = pic_of t ∧ cpu_of t' = cpu_of t ∧ uart_of t' = uart_of t).
Proof.
  intros Hlen Hf. split; [by intros ->|]. intros Hpos.
  destruct (returns_inv _ _ (timer_init_returns a tm t frequency ltac:(lia) Hlen))
    as ([[a' tm'] t'] & Hrun & -> & -> & Hmode & Hlatch & Hreload & Htail).
  eexists _, t'. split; [done|split; [done|split; [done|]]].
  unfold pit_period. rewrite Hlatch, Hmode, Hreload. cbn [negb Z.eqb Pos.eqb].
  change (PIT_BASE_HZ / 2) with 596591. change (2 ^ 16) with 65536. unfold PIT_BASE_HZ.
  pose proof (Z.div_mod 1193182 frequency ltac:(lia)). pose proof (Z.mod_pos_bound 1193182 frequency ltac:(lia)).
  set (q := 1193182 / frequency) in *. split; [|split; [|split]].
  - intros [H19 Hhi]. assert (2 ≤ q < 65536) as Hq by nia. rewrite Z.mod_small by lia.
    rewrite (proj2 (Z.eqb_neq q 0)), (proj2 (Z.eqb_neq q 1)) by lia. exists q. split; [done|lia].
  - intros [Hlo Hhi]. assert (q = 1) as -> by nia. done.
  - intros Hhi. assert (q = 0) as -> by nia. done.
  - do 3 (split; [done|]). split; [|split].
    + apply handler_tail_pic. eapply has_tail_mono, Htail. by intros e [? _].
    + apply handler_tail_cpu. eapply has_tail_mono, Htail. by intros e [? _].
    + apply has_tail_uart. eapply has_tail_mono, Htail. by intros e [_ ?].
Qed.

Lemma timer_init_correct_witness : ∃ a' t',
  timer_init (arch_demo.arch0 irq_handler) {| ticks := 0; tick_hz := 0 |} [] 100 = Ok (a', {| ticks := 0; tick_hz := 100 |}, t') ∧
  pit_reload (pit_of t') = 11931.
Proof.
  destruct (timer_init_correct (arch_demo.arch0 irq_handler) {| ticks := 0; tick_hz := 0 |} [] 100 eq_refl
    ltac:(lia)) as [_ Hpos].
  destruct (Hpos ltac:(lia)) as (a' & t' & Hrun & _ & Hreload & _).
  exists a', t'. split; [exact Hrun|exact Hreload].
Defined.

(** C28. The echo.  With an open serial line and a console that is up, the keyboard's
    handler reads one byte and returns.  A key release and a key without a character
    change nothing; any other key goes to the terminal at the cursor, with newline,
    backspace and tab interpreted, and to the serial line, a carriage return before a
    newline.  Only the framebuffer is written. *)
Theorem keyboard_irq_correct {M : Machine} {U : Uart} k m t s :
  dlab (uart_of t) = false → displays k m s →
  ∃ k' m' t', keyboard_irq k m t = Ok (k', m', t') ∧
    let sc := u8 (port_in t PS2_DATA) in
    displays k' m' (if key_char sc =? 0 then s else t_putc (cols k) (rows k) s (key_char sc)) ∧
    sent (uart_of t') = sent (uart_of t) ++ (if key_char sc =? 0 then [] else crlf [key_char sc]) ∧
    mods (framebuffer k) m m'.
Proof.
  intros Hd D. destruct (returns_inv _ _ (keyboard_irq_returns k m t s Hd D))
    as ([[k' m'] t'] & Hrun & sc & _ & -> & D' & Hm & _ & [Hs _]).
  exists k', m', t'. split; [done|]. cbv zeta. split; [exact D'|split; [|done]].
  rewrite Hs, uart_of_app. done.
Qed.

(** The key A on a small screen. *)
Lemma keyboard_irq_correct_witness : ∃ k m k' m' t',
  keyboard_irq k m (serial_init []) = Ok (k', m', t') ∧ sent (uart_of t') = [97] ∧
  displays k' m' (t_putc (cols k) (rows k) blank 97).
Proof.
  destruct console_demo.screen as [m Hm].
  destruct (returns_inv _ _ (console_init_returns console_demo.off m [] console_demo.base 80 16 384 Hm))
    as ([[k0 m0] t0] & _ & _ & _ & _ & _ & _ & _ & _ & D0 & _).
  destruct (keyboard_irq_correct k0 m0 (serial_init []) blank eq_refl D0) as (k' & m' & t' & Hrun & D' & Hs & _).
  exists k0, m0, k', m', t'. split; [exact Hrun|split; [exact Hs|exact D']].
Defined.
