(* ===== verification/Kernel.v ===== *)
(** kernel/kernel.c: [kmain], the order in which the parts are brought up, and the
    idle loop in which the kernel lives from then on.

    [kmain] is the function up to its final loop; [idle] is that loop, each [hlt]
    ended by an interrupt.  The boot loader's answers are the record [boot_info]. *)

From stdpp Require Import base list gmap sets.
From Stdlib Require Import ZArith Lia String.
From S2P Require Import Prelude.
From S2P Require Import Mem.
From S2P Require Import Pmm.
From S2P Require Import Buddy.
From S2P Require Import Slab.
From S2P Require Import Paging.
From S2P Require Import Io.
From S2P Require Import Serial.
From S2P Require Import Pic.
From S2P Require Import Arch.
From S2P Require Import Format.
From S2P Require Import Isr.
From S2P Require Import Vmm.
From S2P Require Import Console.
From S2P Require Import Drivers.

#[local] Abbreviation length := Datatypes.length.
#[local] Abbreviation concat := List.concat.
Implicit Types (t : io).

(** * State *)

Definition BUDDY_PMM_RESERVE_FRAMES : Z := 1024.

(** The static variables of every part; memory is in [vmm_vm (kn_vmm k)]. *)
Record kernel := {
  kn_arch : arch irq_handler;
  kn_timer : timer;
  kn_console : console;
  kn_vmm : vmm;
  kn_buddy : buddy_state;
  kn_slab : slab_state;
}.

Implicit Types (k : kernel).

Definition kn_ram k : mem := ram (vmm_vm (kn_vmm k)).

Definition set_vm k (σ : vm_state) : kernel := {|
  kn_arch := kn_arch k; kn_timer := kn_timer k; kn_console := kn_console k;
  kn_vmm := {| vmm_vm := σ; kernel_pml4 := kernel_pml4 (kn_vmm k) |};
  kn_buddy := kn_buddy k; kn_slab := kn_slab k |}.

Definition set_console k (con : console) (m : mem) : kernel := {|
  kn_arch := kn_arch k; kn_timer := kn_timer k; kn_console := con;
  kn_vmm := {| vmm_vm := set_ram (vmm_vm (kn_vmm k)) m; kernel_pml4 := kernel_pml4 (kn_vmm k) |};
  kn_buddy := kn_buddy k; kn_slab := kn_slab k |}.

Definition set_arch k (a : arch irq_handler) : kernel := {|
  kn_arch := a; kn_timer := kn_timer k; kn_console := kn_console k; kn_vmm := kn_vmm k;
  kn_buddy := kn_buddy k; kn_slab := kn_slab k |}.

Definition set_timer k (tm : timer) : kernel := {|
  kn_arch := kn_arch k; kn_timer := tm; kn_console := kn_console k; kn_vmm := kn_vmm k;
  kn_buddy := kn_buddy k; kn_slab := kn_slab k |}.

Definition set_vmm k (v : vmm) : kernel := {|
  kn_arch := kn_arch k; kn_timer := kn_timer k; kn_console := kn_console k; kn_vmm := v;
  kn_buddy := kn_buddy k; kn_slab := kn_slab k |}.

Definition set_buddy k (bs : buddy_state) : kernel := {|
  kn_arch := kn_arch k; kn_timer := kn_timer k; kn_console := kn_console k; kn_vmm := kn_vmm k;
  kn_buddy := bs; kn_slab := kn_slab k |}.

Definition set_slab k (st : slab_state) : kernel := {|
  kn_arch := kn_arch k; kn_timer := kn_timer k; kn_console := kn_console k; kn_vmm := kn_vmm k;
  kn_buddy := kn_buddy k; kn_slab := st |}.

(** The boot loader's responses; [None] for a NULL response. *)
Record limine_framebuffer := { fb_address : Z; fb_w : Z; fb_h : Z; fb_p : Z; fb_bpp : Z }.

Record boot_info := {
  base_revision_supported : bool;
  framebuffers : option (list limine_framebuffer);
  memmap_response : option (list limine_memmap_entry);
  hhdm_response : option Z;
  executable_address_response : option kernel_address;
}.

Implicit Types (b : boot_info).

(** * The code *)

Section code.
Context `{!Machine}.

(** Masks interrupts and halts for good. *)
Definition hcf {A} : outcome A := Halted.

Definition kprint k t (s : cstring) : outcome (kernel * io) :=
  t ← serial_write t s;
  '(con, m) ← console_write (kn_console k) (kn_ram k) s;
  Ok (set_console k con m, t).

Definition print_buddy_stats (bs : buddy_state) t (label : cstring) : outcome io :=
  '(counts, total) ← buddy_get_stats bs;
  t ← serial_write t label;
  t ← serial_write t (ln "");
  t ← for_each 0 (BUDDY_MAX_ORDER + 1) (λ o t,
    count ← arr_get counts o;
    t ← serial_write t (c "    order ");
    t ← put_dec t o;
    t ← serial_write t (c " (");
    t ← put_dec t (u32 (Z.shiftl PMM_FRAME_SIZE o) / 1024);
    t ← serial_write t (c " KiB): ");
    t ← put_dec t count;
    serial_write t (ln " free")) t;
  t ← serial_write t (c "    total free: ");
  t ← put_dec t (total / (1024 * 1024));
  serial_write t (ln " MiB").

Definition print_slab_stats (st : slab_state) t (label : cstring) : outcome io :=
  let sts := slab_get_stats st in
  t ← serial_write t label;
  t ← serial_write t (ln "");
  for_each 0 SLAB_NUM_CLASSES (λ i t,
    s ← arr_get sts i;
    t ← serial_write t (c "    class ");
    t ← put_dec t (st_obj_size s);
    t ← serial_write t (c "B: slabs ");
    t ← put_dec t (st_slab_count s);
    t ← serial_write t (c ", slots ");
    t ← put_dec t (st_total_slots s);
    t ← serial_write t (c " (");
    t ← put_dec t (st_free_slots s);
    t ← serial_write t (c " free), in use ");
    t ← put_dec t (st_bytes_in_use s);
    serial_write t (ln " B")) t.

(** [kmain] in four parts: the serial line and the screen, *)
Definition boot_screen b k t : outcome (kernel * io) :=
  let t := serial_init t in
  t ← serial_write t (ln "ScrapOS booted");
  if negb (base_revision_supported b) then
    t ← serial_write t (ln "error: Limine base revision unsupported"); hcf
  else
  match framebuffers b with
  | None | Some [] => t ← serial_write t (ln "error: no framebuffer provided"); hcf
  | Some (fb :: _) =>
      '(con, m, t) ← console_init (kn_console k) (kn_ram k) t
        (fb_address fb) (u32 (fb_w fb)) (u32 (fb_h fb)) (u32 (fb_p fb)) (u16 (fb_bpp fb));
      '(con, m) ← console_write con m (ln "ScrapOS");
      '(con, m) ← console_write con m (ln "framebuffer text console up - type and it echoes here" ++ ln "");
      t ← serial_write t (ln "ScrapOS: framebuffer console up");
      Ok (set_console k con m, t)
  end.

(** the CPU tables and the drivers' handlers, *)
Definition boot_devices `{!ArchText} k t : outcome (kernel * io) :=
  '(a, t) ← arch_init (kn_arch k) t;
  '(k, t) ← kprint (set_arch k a) t (ln "ScrapOS: arch initialised (GDT, IDT, PIC, IRQs)");
  '(a, tm, t) ← timer_init (kn_arch k) (kn_timer k) t 100;
  a ← keyboard_init a;
  kprint (set_timer (set_arch k a) tm) t (ln "ScrapOS: timer + keyboard handlers installed").

(** The memory summary. *)
Definition memory_summary (ps : pmm_state) t : outcome io :=
  let '(total, used, free) := pmm_get_stats ps in
  t ← serial_write t (c "ScrapOS: pmm up — usable ");
  t ← put_dec t (u64 (total * PMM_FRAME_SIZE) / (1024 * 1024));
  t ← serial_write t (c " MiB (");
  t ← put_dec t total;
  t ← serial_write t (c " frames), free ");
  t ← put_dec t free;
  serial_write t (ln " frames").

(** Memory as the tables in cr3 let the kernel access it. *)
Definition through_tables k : kernel := set_vm k (translated (vmm_vm (kn_vmm k))).

(** memory; once [vmm_init] has loaded cr3, through the kernel's own tables; *)
Definition boot_memory `{!Limine, !KernelImage, !PagingText} b k t : outcome (kernel * io) :=
  match memmap_response b with
  | None => t ← serial_write t (ln "error: no memory map provided"); hcf
  | Some memmap =>
  match hhdm_response b with
  | None => t ← serial_write t (ln "error: no HHDM offset provided"); hcf
  | Some hhdm =>
  '(ps, m) ← pmm_init memmap hhdm (kn_ram k);
  let k := set_vm k (set_pmm (vmm_vm (kn_vmm k)) ps m) in
  t ← memory_summary ps t;
  match executable_address_response b with
  | None => t ← serial_write t (ln "error: no kernel-address info provided"); hcf
  | Some kaddr =>
      '(t, v) ← vmm_init t (kn_vmm k) kaddr memmap hhdm;
      let k := through_tables (set_vmm k v) in
      '(bs, ps, m) ← buddy_init (pmm (vmm_vm (kn_vmm k))) (kn_ram k) memmap hhdm BUDDY_PMM_RESERVE_FRAMES;
      let k := set_buddy (set_vm k (set_pmm (vmm_vm (kn_vmm k)) ps m)) bs in
      t ← serial_write t (ln "ScrapOS: buddy up");
      t ← print_buddy_stats bs t (c "ScrapOS: buddy free lists:");
      let k := set_slab k (slab_init hhdm) in
      t ← serial_write t (ln "ScrapOS: slab up");
      t ← print_slab_stats (kn_slab k) t (c "ScrapOS: slab caches (empty):");
      Ok (k, t)
  end end end.

(** and going live. *)
Definition boot_live k t : outcome (kernel * io) :=
  t ← arch_enable_irqs t;
  kprint k t (ln "ScrapOS: interrupts enabled - idling, type to echo").

Definition kmain `{!Limine, !KernelImage, !PagingText, !ArchText} b k t : outcome (kernel * io) :=
  '(k, t) ← boot_screen b k t;
  '(k, t) ← boot_devices k t;
  '(k, t) ← boot_memory b k t;
  boot_live k t.

(** The functions behind the pointers in [handlers]. *)
Definition run_handler (h : irq_handler) k t : outcome (kernel * io) :=
  match h with
  | TimerIrq => '(tm, t) ← timer_irq (kn_timer k) t; Ok (set_timer k tm, t)
  | KeyboardIrq => '(con, m, t) ← keyboard_irq (kn_console k) (kn_ram k) t; Ok (set_console k con m, t)
  end.

(** [for (;;) hlt;], woken by interrupts of the lines [irqs] one after the other. *)
Fixpoint idle k t (irqs : list Z) : outcome (kernel * io) :=
  match irqs with
  | [] => Ok (k, t)
  | irq :: irqs =>
      '(k, t) ← take_interrupt run_handler (kn_arch k) k (t ++ [Hlt]) irq;
      idle k t irqs
  end.
End code.

(** * What is printed *)

(** [t'] is [t] and then traffic that sent exactly [bs] on the open line, whatever
    else it did. *)
Definition line_adds t (bs : list Z) t' : Prop :=
  uart_of t' = {| dlab := false; divisor := divisor (uart_of t); line := line (uart_of t);
                  ier := ier (uart_of t); sent := sent (uart_of t) ++ bs |}.

Lemma sends_line t bs t' : sends t bs t' → line_adds t bs t'.
Proof. by intros [? _]. Qed.

Lemma line_adds_app t1 t2 t3 bs1 bs2 : line_adds t1 bs1 t2 → line_adds t2 bs2 t3 → line_adds t1 (bs1 ++ bs2) t3.
Proof. unfold line_adds. intros H1 ->. rewrite H1. cbn. by rewrite app_assoc. Qed.

Lemma line_adds_same t1 t2 t3 bs : line_adds t1 bs t2 → uart_of t3 = uart_of t2 → line_adds t1 bs t3.
Proof. unfold line_adds. by intros ? ->. Qed.

Lemma line_adds_dlab t bs t' : line_adds t bs t' → dlab (uart_of t') = false.
Proof. by intros ->. Qed.

(** What printing leaves alone. *)
Lemma sends_pic t bs t' : sends t bs t' → pic_of t' = pic_of t.
Proof.
  intros [_ (tail & -> & HF)]. apply has_tail_pic. exists tail. split; [done|].
  eapply Forall_impl; [exact HF|]. intros e He. by apply serial_event_silent.
Qed.

Lemma sends_cpu t bs t' : sends t bs t' → cpu_of t' = cpu_of t.
Proof.
  intros [_ (tail & -> & HF)]. apply has_tail_cpu. exists tail. split; [done|].
  eapply Forall_impl; [exact HF|]. intros e He. by apply serial_event_silent.
Qed.

Lemma sends_handler t bs t' : sends t bs t' → has_tail handler_event t t'.
Proof.
  intros [_ (tail & -> & HF)]. exists tail. split; [done|].
  eapply Forall_impl; [exact HF|]. intros e He. by apply serial_event_silent.
Qed.

(** ** The statistics as text *)

Definition order_text (o count : Z) : cstring :=
  c "    order " ++ dec o ++ c " (" ++ dec (4 * 2 ^ o) ++ c " KiB): " ++ dec count ++ ln " free".

Definition buddy_text (label : cstring) (counts : list Z) (total : Z) : cstring :=
  label ++ ln "" ++ concat ((λ o, order_text o (counts !!! Z.to_nat o)) <$> seqZ 0 11) ++
  c "    total free: " ++ dec (total / (1024 * 1024)) ++ ln " MiB".

Definition class_text (s : slab_class_stats) : cstring :=
  c "    class " ++ dec (st_obj_size s) ++ c "B: slabs " ++ dec (st_slab_count s) ++
  c ", slots " ++ dec (st_total_slots s) ++ c " (" ++ dec (st_free_slots s) ++
  c " free), in use " ++ dec (st_bytes_in_use s) ++ ln " B".

Definition slab_text (label : cstring) (sts : list slab_class_stats) : cstring :=
  label ++ ln "" ++ concat (class_text <$> sts).

Definition pmm_text (total free : Z) : cstring :=
  c "ScrapOS: pmm up — usable " ++ dec (total * PMM_FRAME_SIZE / (1024 * 1024)) ++ c " MiB (" ++ dec total ++
  c " frames), free " ++ dec free ++ ln " frames".

Lemma rep_bound ps m U F : pmm_rep ps m U F → Z.of_nat (size U) < 2 ^ 52.
Proof.
  intros R. pose proof (rep_total _ _ _ _ R).
  enough (Z.of_nat (size U) ≤ Z.max 1 (total_frames ps) - 1) by lia. apply size_bounded; [lia|]. intros i Hi.
  pose proof (rep_range _ _ _ _ R i Hi). lia.
Qed.

Section printing.
Context `{!Machine, !Uart}.

Lemma decimal_no_nl n v : 0 ≤ v → chr_nl ∉ decimal n v.
Proof.
  revert v. induction n as [|n IH]; intros v Hv; cbn [decimal]; [|case_match].
  1, 2: rewrite list_elem_of_singleton; unfold dec_digit, chr_nl; lia.
  rewrite not_elem_of_app, list_elem_of_singleton. split; [apply IH, Z.div_pos; lia|].
  pose proof (Z.mod_pos_bound v 10 ltac:(lia)). unfold dec_digit, chr_nl. lia.
Qed.

Lemma prints_number v : 0 ≤ v < 2 ^ 64 → prints (λ t, put_dec t v) (crlf (dec v)).
Proof. intros Hv. rewrite crlf_no_nl by (apply decimal_no_nl; lia). by apply prints_dec. Qed.

Lemma prints_for_each lo hi body (text : Z → cstring) :
  lo ≤ hi → hi - lo ≤ 2 ^ 64 → (∀ i, lo ≤ i < hi → prints (body i) (crlf (text i))) →
  prints (λ t, for_each lo hi body t) (crlf (concat (text <$> seqZ lo (hi - lo)))).
Proof.
  intros Hle Hsz Hbody t Hd.
  eapply returns_mono; [apply (for_each_rule (λ i t', sends t (crlf (concat (text <$> seqZ lo (i - lo)))) t'))|];
    [done|done|rewrite Z.sub_diag; by apply sends_nil| |done].
  intros i t1 Hi H1. eapply returns_mono; [eapply Hbody; [done|by eapply sends_dlab]|]. intros t2 H2.
  replace (i + 1 - lo) with (i - lo + 1) by lia. rewrite seqZ_app, fmap_app, List.concat_app, crlf_app by lia.
  eapply sends_app; [done|]. replace (lo + (i - lo)) with i by lia.
  assert (seqZ i 1 = [i]) as -> by (rewrite seqZ_cons by lia; done). cbn [fmap list_fmap List.concat].
  rewrite app_nil_r. done.
Qed.

#[local] Opaque c ln crlf dec serial_write serial_putc put_dec.

Ltac print_text :=
  repeat first [ apply prints_text; [first [apply prints_c|apply prints_ln|apply prints_number; lia]|]
               | apply prints_c | apply prints_ln ].

Lemma prints_order o count t (counts : list Z) : 0 ≤ o ≤ 10 → counts !! Z.to_nat o = Some count → 0 ≤ count < 2 ^ 64 →
  dlab (uart_of t) = false →
  returns (count ← arr_get counts o;
    t ← serial_write t (c "    order ");
    t ← put_dec t o;
    t ← serial_write t (c " (");
    t ← put_dec t (u32 (Z.shiftl PMM_FRAME_SIZE o) / 1024);
    t ← serial_write t (c " KiB): ");
    t ← put_dec t count;
    serial_write t (ln " free")) (sends t (crlf (order_text o count))).
Proof.
  intros Ho Hl Hc. apply arr_get_Some in Hl. rewrite Z2Nat.id in Hl by lia. rewrite Hl, bind_ok.
  assert (0 < 4 * 2 ^ o < 2 ^ 20) as Hb.
  { pose proof (pow2_pos o ltac:(lia)). assert (2 ^ o ≤ 2 ^ 10) by (apply Z.pow_le_mono_r; lia). lia. }
  assert (u32 (Z.shiftl PMM_FRAME_SIZE o) / 1024 = 4 * 2 ^ o) as ->.
  { rewrite Z.shiftl_mul_pow2 by lia. unfold PMM_FRAME_SIZE. rewrite u32_id by lia.
    replace (4096 * 2 ^ o) with (4 * 2 ^ o * 1024) by lia. by apply Z.div_mul. }
  revert t. unfold order_text. generalize dependent (4 * 2 ^ o). intros kib Hkib. print_text.
Qed.

Lemma print_buddy_stats_returns bs t label counts total :
  Forall (λ x, 0 ≤ x < 256) label → dlab (uart_of t) = false →
  buddy_get_stats bs = Ok (counts, total) → length counts = 11%nat → Forall (λ n, 0 ≤ n < 2 ^ 64) counts →
  0 ≤ total < 2 ^ 64 →
  returns (print_buddy_stats bs t label) (sends t (crlf (buddy_text label counts total))).
Proof.
  intros Hlab Hd Hst Hlen Hcs Htot. unfold print_buddy_stats. rewrite Hst, bind_ok.
  assert (0 ≤ total / (1024 * 1024) < 2 ^ 64) by div_lia. revert t Hd. unfold buddy_text.
  apply prints_text; [by apply prints_write|]. apply prints_text; [apply prints_ln|].
  apply prints_text; [|print_text].
  apply (prints_for_each 0 11); [lia|lia|]. intros o Ho t Hd.
  destruct (lookup_lt_is_Some_2 counts (Z.to_nat o)) as [n Hn]; [lia|].
  rewrite (list_lookup_total_correct _ _ _ Hn). apply prints_order; [lia|done| |done].
  by eapply Forall_lookup_1 in Hcs.
Qed.

Lemma memory_summary_returns ps m U F t :
  pmm_rep ps m U F → dlab (uart_of t) = false →
  returns (memory_summary ps t) (sends t (crlf (pmm_text (Z.of_nat (size U)) (Z.of_nat (size F))))).
Proof.
  intros R. unfold memory_summary, pmm_text. rewrite (pmm_get_stats_spec _ _ _ _ R).
  pose proof (rep_bound _ _ _ _ R) as HU.
  pose proof (subseteq_size F U (rep_sub _ _ _ _ R)).
  cbv beta iota. unfold PMM_FRAME_SIZE. rewrite u64_id by lia. revert t.
  assert (0 ≤ Z.of_nat (size U) * 4096 / (1024 * 1024) < 2 ^ 64) by div_lia.
  generalize dependent (Z.of_nat (size U) * 4096 / (1024 * 1024)). intros mib Hmib. print_text.
Qed.

Lemma concat_lookup_fmap {A} (f : A → cstring) (l : list A) (g : Z → cstring) :
  (∀ (i : nat) x, l !! i = Some x → g (Z.of_nat i) = f x) →
  g <$> seqZ 0 (Z.of_nat (length l)) = f <$> l.
Proof.
  intros Hg. apply list_eq. intros i. rewrite !list_lookup_fmap. destruct (l !! i) as [x|] eqn:Hx.
  - rewrite lookup_seqZ_lt by (apply lookup_lt_Some in Hx; lia). cbn. f_equal. by rewrite <- (Hg i x).
  - rewrite lookup_seqZ_ge; [done|]. apply lookup_ge_None in Hx. lia.
Qed.

Lemma print_slab_stats_returns st t label :
  Forall (λ x, 0 ≤ x < 256) label → dlab (uart_of t) = false → length (slab_get_stats st) = 8%nat →
  Forall (λ s, 0 ≤ st_obj_size s < 2 ^ 64 ∧ 0 ≤ st_slab_count s < 2 ^ 64 ∧ 0 ≤ st_total_slots s < 2 ^ 64 ∧
    0 ≤ st_free_slots s < 2 ^ 64 ∧ 0 ≤ st_bytes_in_use s < 2 ^ 64) (slab_get_stats st) →
  returns (print_slab_stats st t label) (sends t (crlf (slab_text label (slab_get_stats st)))).
Proof.
  intros Hlab Hd Hlen Hst. unfold print_slab_stats, slab_text. cbv zeta. set (sts := slab_get_stats st) in *.
  rewrite <- (concat_lookup_fmap class_text sts (λ i, class_text (default {| st_obj_size := 0; st_slab_count := 0;
    st_total_slots := 0; st_free_slots := 0; st_bytes_in_use := 0 |} (sts !! Z.to_nat i)))) by (intros i x Hx; by rewrite Nat2Z.id, Hx).
  rewrite Hlen. revert t Hd.
  apply prints_text; [by apply prints_write|]. apply prints_text; [apply prints_ln|].
  apply (prints_for_each 0 8); [lia|lia|]. intros i Hi.
  destruct (lookup_lt_is_Some_2 sts (Z.to_nat i)) as [s Hs]; [lia|]. rewrite Hs. cbn [default from_option]. unfold id.
  eapply Forall_lookup_1 in Hst; [|exact Hs]. cbv beta in Hst. destruct_and! Hst.
  apply arr_get_Some in Hs. rewrite Z2Nat.id in Hs by lia. intros t Hd. rewrite Hs, bind_ok. revert t Hd.
  unfold class_text. print_text.
Qed.
End printing.
