(* ===== verification/Boot.v ===== *)
(** The boot as a whole: what [kmain] needs from the boot loader, what it leaves
    behind, and what the kernel does from then on.

    The theorems put the components' own together: the memory managers own
    disjoint frames and the page tables are built from frames neither hands out;
    the framebuffer lies outside usable memory, so neither the boot nor an
    interrupt disturbs the other's data; the interrupt lines are opened last. *)

From stdpp Require Import base list gmap sets.
From Stdlib Require Import ZArith Lia String.
From S2P Require Import Prelude.
From S2P Require Import Mem.
From S2P Require Import Pmm.
From S2P Require Import Blocks.
From S2P Require Import Buddy.
From S2P Require Import BlockAlloc.
From S2P Require Import Slab.
From S2P Require Import Paging.
From S2P Require Import Io.
From S2P Require Import Serial.
From S2P Require Import Pic.
From S2P Require Import Arch.
From S2P Require Import Format.
From S2P Require Import Isr.
From S2P Require Import Vmm.
From S2P Require Import Console.
From S2P Require Import Drivers.
From S2P Require Import Kernel.

#[local] Coercion Z.of_nat : nat >-> Z.
#[local] Abbreviation length := Datatypes.length.
Implicit Types (t : io) (k : kernel) (b : boot_info) (s : terminal) (U F M : gset Z) (memmap : list limine_memmap_entry).

(** * Memory after the boot *)

(** No byte of [P] is in a frame of [U]. *)
Definition off_frames (hhdm : Z) U (P : Z → Prop) : Prop := ∀ x f, P x → f ∈ U → ¬ frame_mem hhdm f x.

(** [F]: the frames the frame allocator still has, [M]: those the buddy allocator
    took over, [T]: the page tables and their frames. *)
Record memory_up `{!SlabLayout} (hhdm : Z) U F M (root : Z) (T : tabs) (PM : pmap) k : Prop := {
  mu_vm : vm_inv (vmm_vm (kn_vmm k)) U F root T PM;
  mu_hhdm : hhdm_offset (vmm_vm (kn_vmm k)) = hhdm;
  mu_cr3 : cr3 (vcpu (vmm_vm (kn_vmm k))) = root * PMM_FRAME_SIZE ∧ tlb (vcpu (vmm_vm (kn_vmm k))) = ∅ ∧
    kernel_pml4 (kn_vmm k) = root * PMM_FRAME_SIZE;
  mu_bitmap x : bitmap_area (pmm (vmm_vm (kn_vmm k))) x → ∃ f, f ∈ U ∧ (f ∉ M) ∧ frame_mem hhdm f x;
  mu_slab : slab_rep (BlockLaws0 := buddy_laws hhdm M) hhdm (kn_slab k) (kn_buddy k) (kn_ram k)
    (replicate classes []) [];
  mu_owned : F ⊆ U ∧ M ⊆ U ∧ M ## F ∧ ∀ q f u, T !! q = Some (f, u) → f ∉ M;
  mu_reached : all_reached (vmm_vm (kn_vmm k));
}.

Section memory.
Context `{!SlabLayout}.

Lemma no_blocks : all_blocks (replicate classes []) [] = [].
Proof. done. Qed.

(** Frames keep the address space valid when the allocator gives some away and
    memory changes outside the tables. *)
Lemma vm_inv_keep σ U F F1 root T PM ps' m' P :
  vm_inv σ U F root T PM → pmm_rep ps' m' U F1 → F1 ⊆ F → bitmap_area ps' = bitmap_area (pmm σ) →
  mods P (ram σ) m' → (∀ q f u x, T !! q = Some (f, u) → P x → ¬ frame_mem (hhdm_offset σ) f x) →
  vm_inv (set_pmm σ ps' m') U F1 root T PM.
Proof.
  intros [Hp Ha Hph Hr Hs Ht] R HF Hb Hm HP. split; cbn [set_pmm pmm ram hhdm_offset]; try done.
  - destruct Ha as [Hh Hf]. split; [done|]. intros f HfF. destruct (Hf f (HF f HfF)) as (H1 & H2 & H3).
    split; [done|split; [by eapply mods_backed|]]. by rewrite Hb.
  - eapply space_mods; [exact Hs|exact Hm|]. intros q f u x Hq HPx. by eapply HP.
  - intros q f u Hq. destruct (Ht q f u Hq) as (H1 & H2 & H3). split; [done|split; [|by rewrite Hb]].
    intros HfF. by apply H2, HF.
Qed.

(** Writes outside usable memory do not concern it. *)
Lemma memory_up_mods hhdm U F M root T PM k con m P :
  memory_up hhdm U F M root T PM k → mods P (kn_ram k) m → off_frames hhdm U P →
  memory_up hhdm U F M root T PM (set_console k con m).
Proof.
  intros [V Hh Hc Hb Hs Ho Hre] Hm HP. pose proof V as [Hp Ha Hph Hr Hsp Ht].
  assert (vm_inv (set_ram (vmm_vm (kn_vmm k)) m) U F root T PM) as V'.
  { eapply (vm_inv_keep _ _ _ _ _ _ _ (pmm (vmm_vm (kn_vmm k)))); [exact V| |done|done|exact Hm|].
    + eapply rep_mods; [exact Hp|exact Hm|]. intros x HPx Hx. destruct (Hb x Hx) as (f & Hf & _ & Hfx). by apply (HP x f).
    + intros q f u x Hq HPx. rewrite Hh. destruct (Ht q f u Hq) as (HfU & _). by apply HP. }
  split; try done.
  - eapply slab_rep_mods; [exact Hs|exact Hm|]. intros x HPx. rewrite no_blocks. split.
    + right. intros (f & Hf & Hx). destruct Ho as (_ & HMU & _). by apply (HP x f HPx); [apply HMU|].
    + intros [(i & gs & g & [-> _]%lookup_replicate & Hg & _)|(bl & Hbl & _)]; by apply elem_of_nil in Hg || apply elem_of_nil in Hbl.
  - destruct Hc as [Hc _]. exact (all_reached_mods P _ (set_ram (vmm_vm (kn_vmm k)) m) _ _ _ _ _ _ _ V V' Hc Hc eq_refl Hm Hre).
Qed.
End memory.

(** * What the boot loader provides *)

(** The frames that are free once the frame allocator's bitmap has its place. *)
Definition free_at_boot `{!Limine} memmap : gset Z :=
  list_to_set (memmap_frames memmap) ∖ bitmap_frames (bitmap_region (bitmap_size memmap) memmap) (bitmap_size memmap).

(** The requests were answered; the framebuffer is a 32-bit one in memory of its
    own; the memory map is as the protocol guarantees it, all the memory there is lies
    in its regions (the framebuffer's and the boot stack's included), and usable memory
    can hold the bitmap and the page tables; the image is loaded in whole pages outside
    the direct map, with the boot stack in physical memory; the static tables are
    zeroed. *)
Record boot_ok `{!Limine, !KernelImage, !PagingText} b k t (fb : limine_framebuffer) memmap (hhdm : Z)
    (kaddr : kernel_address) : Prop := {
  bo_revision : base_revision_supported b = true;
  bo_fb : ∃ rest, framebuffers b = Some (fb :: rest);
  bo_memmap : memmap_response b = Some memmap;
  bo_hhdm : hhdm_response b = Some hhdm;
  bo_kaddr : executable_address_response b = Some kaddr;
  bo_screen : framebuffer_ok (kn_ram k) (fb_address fb) (fb_w fb) (fb_h fb) (fb_p fb) ∧ fb_bpp fb = 32;
  bo_apart : off_frames hhdm (list_to_set (memmap_frames memmap)) (range (fb_address fb) (fb_h fb * fb_p fb));
  bo_map : memmap_ok memmap ∧ Forall region_ok memmap;
  bo_memory v : is_Some (kn_ram k !! v) → ∃ e, e ∈ memmap ∧ range (Pmm.base e + hhdm) (length_ e) v;
  bo_backed : hhdm_backs (kn_ram k) hhdm memmap;
  bo_fits : bitmap_region (bitmap_size memmap) memmap ≠ 0;
  bo_direct : hhdm mod PMM_FRAME_SIZE = 0 ∧ 0 ≤ hhdm ∧ hhdm + 2 ^ 46 + PMM_FRAME_SIZE ≤ 2 ^ 64;
  bo_image : image_ok kaddr;
  bo_image_apart : ∀ e a v, e ∈ memmap → Pmm.base e ≤ a < Pmm.base e + length_ e →
    __kernel_start ≤ v < __kernel_end → vpage (a + hhdm) ≠ vpage v;
  bo_tables : (size (tables_for (kernel_space kaddr memmap hhdm)) + 1 ≤ size (free_at_boot memmap))%nat;
  bo_stack : ∃ e a, e ∈ memmap ∧ Pmm.base e ≤ a < Pmm.base e + length_ e ∧
    Paging.rsp (vcpu (vmm_vm (kn_vmm k))) = a + hhdm;
  bo_code : __kernel_start ≤ paging_load_cr3_addr < __kernel_end;
  bo_statics : idt (kn_arch k) = replicate 256 zero_entry ∧ handlers (kn_arch k) = replicate 16 None;
  bo_off : iflag (cpu_of t) = false;
}.

(** * After the boot *)

(** The interrupt lines and the CPU, the handlers, and the line to the terminal. *)
Record running `{!ArchText} k t : Prop := {
  ru_arch : arch_up true (kn_arch k) t;
  ru_handlers : handlers (kn_arch k) = <[1%nat := Some KeyboardIrq]> (<[0%nat := Some TimerIrq]> (replicate 16 None));
  ru_pic : pic_of t = remapped (0xFC, 0xFF);
  ru_line : dlab (uart_of t) = false;
  ru_hz : tick_hz (kn_timer k) = 100;
}.

(** The geometry the console was given, and the screen it shows. *)
Definition fb_range (fb : limine_framebuffer) : Z → Prop := range (fb_address fb) (fb_h fb * fb_p fb).

Record screen_up (fb : limine_framebuffer) k s : Prop := {
  su_shown : displays (kn_console k) (kn_ram k) s;
  su_range : framebuffer (kn_console k) = fb_range fb;
  su_grid : cols (kn_console k) = fb_w fb / 8 ∧ rows (kn_console k) = fb_h fb / 8;
}.

(** What writing text does to it. *)
Definition write_text (fb : limine_framebuffer) s (str : cstring) : terminal :=
  t_write (fb_w fb / 8) (fb_h fb / 8) s str.

(** Where the frames went that were free: each is a page table, the buddy
    allocator's or still the frame allocator's, which keeps at most 1024. *)
Record frames_shared `{!Limine, !KernelImage} memmap (hhdm : Z) (kaddr : kernel_address) F M (T : tabs) : Prop := {
  fs_total : (size F + size M + size T = size (free_at_boot memmap))%nat;
  fs_tables : (size T ≤ size (tables_for (kernel_space kaddr memmap hhdm)) + 1)%nat;
  fs_reserve : (size F ≤ 1024)%nat ∧ (M = ∅ ∨ size F = 1024%nat);
}.

(** From [k] to [k'] memory changed in [P] only. *)
Definition ram_after (P : Z → Prop) k k' : Prop :=
  ∃ m, vmm_vm (kn_vmm k') = set_ram (vmm_vm (kn_vmm k)) m ∧ mods P (kn_ram k) m.

(** * Lemmas *)

Lemma ram_after_trans P k1 k2 k3 : ram_after P k1 k2 → ram_after P k2 k3 → ram_after P k1 k3.
Proof.
  unfold ram_after, kn_ram. intros (m1 & H1 & Hm1) (m2 & H2 & Hm2). exists m2. rewrite H2, H1. split; [done|].
  rewrite H1 in Hm2. cbn in Hm2. by eapply mods_trans.
Qed.

Lemma ram_after_same P k k' : vmm_vm (kn_vmm k') = vmm_vm (kn_vmm k) → ram_after P k k'.
Proof. intros H. exists (kn_ram k). split; [|done]. rewrite H. unfold kn_ram. by destruct (vmm_vm (kn_vmm k)). Qed.

Lemma ram_after_ram P k k' : ram_after P k k' → mods P (kn_ram k) (kn_ram k').
Proof. unfold ram_after, kn_ram. by intros (m & -> & Hm). Qed.

Lemma same_grid_screen con con' :
  same_grid con con' → framebuffer con' = framebuffer con ∧ cols con' = cols con ∧ rows con' = rows con.
Proof. by intros (c1 & r1 & ->). Qed.

(** Writes elsewhere do not show. *)
Lemma displays_mods con m m' s P :
  displays con m s → mods P m m' → (∀ x, P x → ¬ framebuffer con x) → displays con m' s.
Proof.
  intros [G Hr Hc [Hb Hp]] Hm HP. split; [done..|]. split; [by eapply mods_backed|].
  intros x y Hxy. eapply load32_keep; [exact Hm|by apply Hp|]. intros a Ha HPa. apply (HP a HPa).
  destruct (pix_inside con x y G Hxy). unfold framebuffer, range in *. lia.
Qed.

Lemma arch_up_ext `{!ArchText} i (a : arch irq_handler) t t' :
  arch_up i a t → cpu_of t' = with_iflag (cpu_of t) (iflag (cpu_of t')) → arch_up (iflag (cpu_of t')) a t'.
Proof. intros [] Hc. split; try done; rewrite Hc; done. Qed.

Lemma arch_up_same `{!ArchText} i (a : arch irq_handler) t t' : arch_up i a t → cpu_of t' = cpu_of t → arch_up i a t'.
Proof. intros [] Hc. split; try done; rewrite Hc; done. Qed.

Section stages.
Context {Ma : Machine} {Ua : Uart}.

Lemma kprint_returns k t str fb s :
  dlab (uart_of t) = false → screen_up fb k s → Forall (λ x, 0 ≤ x < 256) str →
  returns (kprint k t str) (λ '(k', t'), ∃ con m, k' = set_console k con m ∧
    mods (fb_range fb) (kn_ram k) m ∧ screen_up fb k' (write_text fb s str) ∧ sends t (crlf str) t').
Proof.
  intros Hd [D Hf [Hc Hr]] Hs. unfold kprint. ret_step serial_write_returns; [done|done|]. intros t' Ht'.
  ret_step console_write_returns; [exact D|done|]. intros [con m] (D' & Hm & Hg). cbn [returns].
  rewrite Hf in Hm. apply same_grid_screen in Hg as (Hf' & Hc' & Hr').
  exists con, m. split; [done|split; [done|split; [|done]]].
  split; cbn; [unfold write_text; by rewrite <- Hc, <- Hr|congruence|split; congruence].
Qed.

(** The banner. *)
Definition banner : cstring :=
  ln "ScrapOS" ++ ln "framebuffer text console up - type and it echoes here" ++ ln "".

Lemma serial_init_cpu t : cpu_of (serial_init t) = cpu_of t.
Proof.
  apply has_tail_cpu. unfold serial_init, outb. repeat (apply has_tail_snoc; [done|]). apply has_tail_refl.
Qed.

Lemma text_bytes (l1 l2 : cstring) :
  Forall (λ x, 0 ≤ x < 256) l1 → Forall (λ x, 0 ≤ x < 256) l2 → Forall (λ x, 0 ≤ x < 256) (l1 ++ l2).
Proof. intros. by apply Forall_app. Qed.

Lemma write_text_app fb s (l1 l2 : cstring) : write_text fb s (l1 ++ l2) = write_text fb (write_text fb s l1) l2.
Proof. apply foldl_app. Qed.

#[local] Opaque c ln crlf t_write.

Lemma boot_screen_returns b k t fb rest :
  base_revision_supported b = true → framebuffers b = Some (fb :: rest) →
  framebuffer_ok (kn_ram k) (fb_address fb) (fb_w fb) (fb_h fb) (fb_p fb) → fb_bpp fb = 32 →
  returns (boot_screen b k t) (λ '(k', t'), ∃ con m, k' = set_console k con m ∧
    mods (fb_range fb) (kn_ram k) m ∧ screen_up fb k' (write_text fb blank banner) ∧
    line_adds (serial_init t) (crlf (ln "ScrapOS booted" ++ ln "ScrapOS: framebuffer console up")) t' ∧
    cpu_of t' = cpu_of t).
Proof.
  intros Hrev Hfb Hok Hbpp. unfold boot_screen. cbv zeta. rewrite Hrev, Hfb. cbn [negb].
  ret_step prints_ln; [by rewrite serial_init_uart|]. intros t1 H1. rewrite Hbpp. change (u16 32) with 32.
  pose proof Hok as [Hb Hp Hw Hh Hback].
  assert (0 ≤ fb_w fb) by lia. rewrite !u32_id by lia.
  ret_step console_init_returns; [exact Hok|].
  intros [[con0 m0] t2] (-> & Hbase & _ & Hht & Hpt & Hcols & Hrows & D0 & Hm0).
  assert (framebuffer con0 = fb_range fb) as Hf by (unfold framebuffer, fb_range; congruence).
  ret_step console_write_returns; [exact D0|apply ln_bytes|]. intros [con1 m1] (D1 & Hm1 & G1).
  ret_step console_write_returns; [exact D1|apply text_bytes; apply ln_bytes|]. intros [con2 m2] (D2 & Hm2 & G2).
  ret_step prints_ln; [by eapply sends_dlab|]. intros t3 H3. cbn [returns].
  apply same_grid_screen in G1 as (Hf1 & Hc1 & Hr1). apply same_grid_screen in G2 as (Hf2 & Hc2 & Hr2).
  rewrite Hf1 in Hm2. rewrite Hf in Hm1, Hm2. exists con2, m2. split; [done|split; [|split; [|split]]].
  - eapply mods_trans; [exact Hm0|]. by eapply mods_trans.
  - split; [|by cbn; congruence|by cbn; split; congruence].
    change (displays con2 m2 (write_text fb blank banner)). unfold banner. rewrite write_text_app. unfold write_text.
    rewrite Hc1, Hr1, Hcols, Hrows in D2. exact D2.
  - rewrite crlf_app. eapply line_adds_app; eapply sends_line; [exact H1|exact H3].
  - by rewrite (sends_cpu _ _ _ H3), (sends_cpu _ _ _ H1), serial_init_cpu.
Qed.

Definition devices_text : cstring :=
  ln "ScrapOS: arch initialised (GDT, IDT, PIC, IRQs)" ++ ln "ScrapOS: timer + keyboard handlers installed".

Lemma boot_devices_returns `{!ArchText} k t fb s :
  idt (kn_arch k) = replicate 256 zero_entry → handlers (kn_arch k) = replicate 16 None →
  dlab (uart_of t) = false → screen_up fb k s →
  returns (boot_devices k t) (λ '(k', t'), ram_after (fb_range fb) k k' ∧
    arch_up (iflag (cpu_of t)) (kn_arch k') t' ∧
    handlers (kn_arch k') = <[1%nat := Some KeyboardIrq]> (<[0%nat := Some TimerIrq]> (replicate 16 None)) ∧
    kn_timer k' = {| ticks := ticks (kn_timer k); tick_hz := 100 |} ∧ pic_of t' = remapped (0xFF, 0xFF) ∧
    screen_up fb k' (write_text fb s devices_text) ∧ line_adds t (crlf devices_text) t').
Proof.
  intros Hz Hh Hd S. unfold boot_devices. ret_step (arch_init_returns (kn_arch k)); [exact Hz|].
  intros [a1 t1] (Hup1 & Hh1 & Hp1 & Hu1). rewrite Hh in Hh1.
  assert (screen_up fb (set_arch k a1) s) as S1 by (by destruct S).
  ret_step kprint_returns; [by rewrite Hu1|exact S1|apply ln_bytes|].
  intros [k2 t2] (con & m & -> & Hm2 & S2 & H2). cbn [kn_arch set_console set_arch kn_timer].
  ret_step timer_init_returns; [lia|by rewrite Hh1|].
  intros [[a3 tm3] t3] (-> & -> & _ & _ & _ & Ht3). unfold keyboard_init.
  rewrite irq_install_returns by (cbn; rewrite ?length_insert, ?Hh1; done || lia). cbn [mbind outcome_bind handlers].
  set (k3 := set_timer _ _). assert (screen_up fb k3 (write_text fb s (ln "ScrapOS: arch initialised (GDT, IDT, PIC, IRQs)")))
    as S3 by (by destruct S2).
  assert (uart_of t3 = uart_of t2) as Hu3 by (eapply has_tail_uart, has_tail_mono, Ht3; by intros e [_ ?]).
  eapply returns_mono; [apply kprint_returns; [|exact S3|apply ln_bytes]|].
  { rewrite Hu3. by eapply sends_dlab. }
  intros [k4 t4] (con4 & m4 & -> & Hm4 & S4 & H4).
  assert (cpu_of t4 = cpu_of t1) as Hc.
  { rewrite (sends_cpu _ _ _ H4), (handler_tail_cpu t2 t3), (sends_cpu _ _ _ H2); [done|].
    eapply has_tail_mono, Ht3. by intros e [? _]. }
  split; [|split; [|split; [|split; [done|split; [|split]]]]].
  - eapply (ram_after_trans _ _ (set_console (set_arch k a1) con m)); [by exists m|]. exists m4. by split.
  - cbn. eapply arch_up_same; [|exact Hc]. by destruct Hup1.
  - cbn. by rewrite Hh1.
  - rewrite (sends_pic _ _ _ H4), (handler_tail_pic t2 t3), (sends_pic _ _ _ H2); [done|].
    eapply has_tail_mono, Ht3. by intros e [? _].
  - unfold devices_text. rewrite write_text_app. exact S4.
  - unfold devices_text. rewrite crlf_app. eapply line_adds_app.
    + eapply line_adds_same; [|exact Hu3]. pose proof (sends_line _ _ _ H2) as Hl. unfold line_adds in *. by rewrite <- Hu1.
    + by apply sends_line.
Qed.

Definition live_text : cstring := ln "ScrapOS: interrupts enabled - idling, type to echo".

Lemma boot_live_returns `{!Pic} k t fb s :
  dlab (uart_of t) = false → screen_up fb k s → pic_of t = remapped (0xFF, 0xFF) →
  returns (boot_live k t) (λ '(k', t'), ∃ con m, k' = set_console k con m ∧ mods (fb_range fb) (kn_ram k) m ∧
    screen_up fb k' (write_text fb s live_text) ∧ pic_of t' = remapped (0xFC, 0xFF) ∧
    cpu_of t' = with_iflag (cpu_of t) true ∧ line_adds t (crlf live_text) t').
Proof.
  intros Hd S Hp. unfold boot_live. ret_step arch_enable_returns; [exact Hp|]. intros t1 (Hp1 & Hc1 & Hu1 & _).
  eapply returns_mono; [apply kprint_returns; [by rewrite Hu1|exact S|apply ln_bytes]|].
  intros [k2 t2] (con & m & -> & Hm & S2 & H2). exists con, m. do 3 (split; [done|]).
  rewrite (sends_pic _ _ _ H2), (sends_cpu _ _ _ H2). do 2 (split; [done|]).
  pose proof (sends_line _ _ _ H2) as Hl. unfold line_adds in *. by rewrite <- Hu1.
Qed.

(** ** Memory *)

Definition memory_text (total free : Z) (counts : list Z) (bytes : Z) : cstring :=
  pmm_text total free ++ ln "ScrapOS: now running on our own page tables" ++ ln "ScrapOS: buddy up" ++
  buddy_text (c "ScrapOS: buddy free lists:") counts bytes ++ ln "ScrapOS: slab up" ++
  slab_text (c "ScrapOS: slab caches (empty):") (slab_get_stats (slab_init 0)).

(** The bytes of the frames [U]. *)
Definition frames_mem (hhdm : Z) U : Z → Prop := λ x, ∃ f, f ∈ U ∧ frame_mem hhdm f x.

Lemma usable_below `{!Limine} memmap f :
  memmap_ok memmap → Forall region_ok memmap → f ∈ memmap_frames memmap → 0 < f ∧ (f + 1) * PMM_FRAME_SIZE ≤ 2 ^ 46.
Proof.
  intros Hok Hreg (e & He & Hu & Hf)%elem_of_memmap_frames.
  destruct (usable_frame_range memmap e f Hok He Hu Hf) as [Hpos Hhi].
  destruct (proj1 (Forall_forall _ _) Hreg e He) as (_ & _ & ?). lia.
Qed.

(** The bitmap lies in usable memory. *)
Lemma bitmap_in_frames `{!Limine} memmap hhdm x :
  memmap_ok memmap → Forall region_ok memmap → 0 ≤ hhdm → hhdm + 2 ^ 46 + PMM_FRAME_SIZE ≤ 2 ^ 64 →
  bitmap_region (bitmap_size memmap) memmap ≠ 0 →
  range (u64 (bitmap_region (bitmap_size memmap) memmap + hhdm)) (bitmap_size memmap) x →
  frames_mem hhdm (list_to_set (memmap_frames memmap)) x.
Proof.
  intros Hok Hreg Hh Hhi Hne Hx.
  destruct (bitmap_region_spec (bitmap_size memmap) memmap Hok) as [[? _]|(e & He & Hu & Hlen & Heq & _)]; [done|].
  rewrite Heq in Hx. destruct (mm_entries _ Hok e He Hu) as (Hb0 & Hba & Hl0 & Hla & _).
  destruct (proj1 (Forall_forall _ _) Hreg e He) as (_ & _ & ?).
  unfold range, PMM_FRAME_SIZE in *. rewrite u64_id in Hx by lia.
  exists ((x - hhdm) / 4096). split.
  - apply elem_of_list_to_set, elem_of_memmap_frames. exists e. split; [done|split; [done|]]. unfold PMM_FRAME_SIZE. div_lia.
  - unfold frame_mem, range, PMM_FRAME_SIZE. div_lia.
Qed.

Section memory_stage.
Context {Lim : Limine} {KI : KernelImage} {PT : PagingText} {SL : SlabLayout}.

Lemma free_lists_bounded bs m L A M :
  heap bs m L A M → Forall (λ n, 0 ≤ n < 2 ^ 64) ((λ l, Z.of_nat (length l)) <$> L).
Proof.
  intros [R _ _]. apply Forall_forall. intros n (l & -> & Hl)%list_elem_of_fmap. split; [lia|].
  assert (NoDup l) as Hnd.
  { pose proof (br_nodup _ _ _ R) as Hnd. apply list_elem_of_lookup_1 in Hl as [o Ho].
    rewrite (concat_lookup o l L Ho) in Hnd. by apply NoDup_app in Hnd as [? _]. }
  rewrite <- (size_list_to_set (C := gset Z)) by done.
  enough (Z.of_nat (size (list_to_set l : gset Z)) ≤ 2 ^ 64 - 1) by lia.
  apply size_bounded; [lia|]. intros p Hp%elem_of_list_to_set.
  destruct (br_addrs _ _ _ R p) as (? & _ & ?).
  { apply list_elem_of_In, in_concat. exists l. split; by apply list_elem_of_In. }
  pose proof (br_hhdm _ _ _ R). unfold PMM_FRAME_SIZE in *. lia.
Qed.

Lemma slab_stats_initial hhdm : slab_get_stats (slab_init hhdm) = slab_get_stats (slab_init 0).
Proof. done. Qed.

(** The four allocators on top of each other: the buddy allocator has taken [M] out of
    the free frames [F1] that building the page tables left. *)
Lemma memory_assembled k v bs ps m L F1 M root T PM U hhdm :
  vm_inv (vmm_vm v) U F1 root T PM → hhdm_offset (vmm_vm v) = hhdm →
  cr3 (vcpu (vmm_vm v)) = root * PMM_FRAME_SIZE ∧ tlb (vcpu (vmm_vm v)) = ∅ ∧ kernel_pml4 v = root * PMM_FRAME_SIZE →
  (∀ x, bitmap_area (pmm (vmm_vm v)) x → frames_mem hhdm U x) → F1 ⊆ U →
  Buddy.heap bs m L [] M → M ⊆ F1 → pmm_rep ps m U (F1 ∖ M) → g_hhdm bs = hhdm →
  bitmap_area ps = bitmap_area (pmm (vmm_vm v)) →
  mods (λ x, bitmap_area (pmm (vmm_vm v)) x ∨ ∃ f, f ∈ F1 ∧ range (f * PMM_FRAME_SIZE + hhdm) PMM_FRAME_SIZE x)
    (ram (vmm_vm v)) m →
  hhdm mod PMM_FRAME_SIZE = 0 → all_reached (vmm_vm v) →
  memory_up hhdm U (F1 ∖ M) M root T PM
    (set_slab (set_buddy (set_vm (set_vmm k v) (set_pmm (vmm_vm v) ps m)) bs) (slab_init hhdm)).
Proof.
  intros V Hhh Hcr3 Hbits HF1 Hheap HM R Hgh Hba Hm Hal Hre.
  assert (vm_inv (set_pmm (vmm_vm v) ps m) U (F1 ∖ M) root T PM) as V'.
  { eapply vm_inv_keep; [exact V|exact R|clear; set_solver|exact Hba|exact Hm|].
    intros q f u x Hq. rewrite Hhh. destruct (vi_tables _ _ _ _ _ _ V q f u Hq) as (_ & HnF & Hnb). rewrite Hhh in Hnb.
    intros [Hx|(g & Hg & Hx)] Hfx; [by apply (Hnb x)|]. by apply (frames_apart hhdm f g x); [intros ->|..]. }
  split; cbn [set_slab set_buddy set_vm set_vmm kn_vmm kn_slab kn_buddy vmm_vm kernel_pml4 set_pmm hhdm_offset vcpu pmm];
    [exact V'|exact Hhh|exact Hcr3| | | |].
  - rewrite Hba. intros x Hx. destruct (Hbits x Hx) as (f & Hf & Hfx). exists f. split; [done|split; [|done]]. intros HfM.
    pose proof (vi_arena _ _ _ _ _ _ V) as Har. rewrite Hhh in Har.
    destruct (ar_frames _ _ _ _ Har f (HM f HfM)) as (_ & _ & Hno). by apply (Hno x).
  - apply (slab_init_rep (BlockLaws0 := buddy_laws hhdm M) hhdm bs m Hal).
    split; [exact Hgh|]. by exists L.
  - split; [clear -HF1; set_solver|]. split; [clear -HF1 HM; set_solver|]. split; [clear; set_solver|].
    intros q f u Hq HfM. destruct (vi_tables _ _ _ _ _ _ V q f u Hq) as (_ & HnF & _). apply HnF. by apply HM.
  - destruct Hcr3 as [Hc _]. exact (all_reached_mods _ _ (set_pmm (vmm_vm v) ps m) _ _ _ _ _ _ _ V V' Hc Hc eq_refl Hm Hre).
Qed.

(** They have shared the frames that were free at boot. *)
Lemma frames_divided memmap (hhdm : Z) (kaddr : kernel_address) F1 M (T : tabs) :
  (size F1 + size T = size (free_at_boot memmap) ∧ size T ≤ size (tables_for (kernel_space kaddr memmap hhdm)) + 1)%nat →
  M ⊆ F1 → Z.of_nat (size M) = Z.max 0 (Z.of_nat (size F1) - BUDDY_PMM_RESERVE_FRAMES) →
  frames_shared memmap hhdm kaddr (F1 ∖ M) M T.
Proof.
  intros [Hcnt Htabs] HM Hsize. pose proof (subseteq_size _ _ HM). unfold BUDDY_PMM_RESERVE_FRAMES in Hsize.
  split; [|exact Htabs|]; rewrite size_difference by done; [lia|]. split; [lia|].
  destruct (decide (size M = 0%nat)) as [Hz|]; [left; by apply leibniz_equiv, size_empty_inv|right; lia].
Qed.

(** What they wrote, one after the other, is memory of usable frames. *)
Lemma allocators_wrote hhdm U F0 F1 ba (m0 m1 m2 m3 : mem) :
  mods ba m0 m1 → mods (λ x, ba x ∨ frames_mem hhdm F0 x) m1 m2 → mods (λ x, ba x ∨ frames_mem hhdm F1 x) m2 m3 →
  (∀ x, ba x → frames_mem hhdm U x) → F0 ⊆ U → F1 ⊆ F0 → mods (frames_mem hhdm U) m0 m3.
Proof.
  intros H1 H2 H3 Hba HF0 HF1. eapply mods_trans; [by eapply mods_weaken|].
  eapply mods_trans; (eapply mods_weaken; [eassumption|]); intros x [Hx|(f & Hf & Hx)]; [by apply Hba| |by apply Hba|];
    (exists f; split; [set_solver|exact Hx]).
Qed.

Lemma boot_memory_returns b k t memmap hhdm kaddr :
  memmap_response b = Some memmap → hhdm_response b = Some hhdm → executable_address_response b = Some kaddr →
  memmap_ok memmap → Forall region_ok memmap → hhdm_backs (kn_ram k) hhdm memmap →
  (∀ v, is_Some (kn_ram k !! v) → ∃ e, e ∈ memmap ∧ range (Pmm.base e + hhdm) (length_ e) v) →
  bitmap_region (bitmap_size memmap) memmap ≠ 0 →
  hhdm mod PMM_FRAME_SIZE = 0 → 0 ≤ hhdm → hhdm + 2 ^ 46 + PMM_FRAME_SIZE ≤ 2 ^ 64 →
  image_ok kaddr →
  (∀ e a v, e ∈ memmap → Pmm.base e ≤ a < Pmm.base e + length_ e →
    __kernel_start ≤ v < __kernel_end → vpage (a + hhdm) ≠ vpage v) →
  (size (tables_for (kernel_space kaddr memmap hhdm)) + 1 ≤ size (free_at_boot memmap))%nat →
  (∃ e a, e ∈ memmap ∧ Pmm.base e ≤ a < Pmm.base e + length_ e ∧ Paging.rsp (vcpu (vmm_vm (kn_vmm k))) = a + hhdm) →
  __kernel_start ≤ paging_load_cr3_addr < __kernel_end → dlab (uart_of t) = false →
  returns (boot_memory b k t) (λ '(k', t'), ∃ F M root T counts,
    let U := list_to_set (memmap_frames memmap) in
    memory_up hhdm U F M root T (add_pages ∅ (kernel_space kaddr memmap hhdm)) k' ∧
    frames_shared memmap hhdm kaddr F M T ∧
    kn_arch k' = kn_arch k ∧ kn_timer k' = kn_timer k ∧ kn_console k' = kn_console k ∧
    mods (frames_mem hhdm U) (kn_ram k) (kn_ram k') ∧
    buddy_get_stats (kn_buddy k') = Ok (counts, PMM_FRAME_SIZE * Z.of_nat (size M)) ∧
    sends t (crlf (memory_text (Z.of_nat (size U)) (Z.of_nat (size (free_at_boot memmap))) counts
      (PMM_FRAME_SIZE * Z.of_nat (size M)))) t').
Proof.
  intros Hm Hh Hka Hok Hreg Hback Hall Hfit Hal Hh0 Hhi Him Hapart Htab Hstack Hcode Hd.
  unfold boot_memory. rewrite Hm, Hh, Hka. set (U := list_to_set (memmap_frames memmap) : gset Z).
  destruct (returns_inv _ _ (pmm_init_returns memmap hhdm (kn_ram k) Hok Hback Hfit))
    as ([ps m1] & Hrun & _ & _ & Hm1 & Hbm & Hby & _).
  destruct (pmm_init_arena memmap hhdm (kn_ram k) ps m1 Hok Hback Hh0) as (F0 & R0 & HF0 & A0 & Heq0); [|done|done|].
  { intros e He _. destruct (proj1 (Forall_forall _ _) Hreg e He) as (_ & _ & ?). unfold PMM_FRAME_SIZE in *. lia. }
  change (F0 = free_at_boot memmap) in Heq0. rewrite <- Heq0 in *. fold U in R0, HF0.
  assert (∀ x, bitmap_area ps x → frames_mem hhdm U x) as Hbits.
  { intros x Hx. unfold bitmap_area in Hx. rewrite Hbm, Hby in Hx. by eapply bitmap_in_frames. }
  rewrite Hrun, bind_ok. cbv zeta. set (k1 := set_vm k _).
  ret_step memory_summary_returns; [exact R0|exact Hd|]. intros t1 H1.
  assert (vmm_ready t1 (kn_vmm k1) kaddr memmap hhdm U F0) as Ready.
  { split; try done; [by eapply sends_dlab|].
    intros f Hf%elem_of_list_to_set. destruct (usable_below memmap f Hok Hreg Hf). unfold PMM_FRAME_SIZE in *. lia. }
  ret_step vmm_init_ready; [exact Ready|].
  intros [t2 v2] (F1 & T & root & V & HF1 & HT & Hcnt & Hpml4 & Hcr3 & Htlb & _ & Hhh & Hba & H2 & Hm2).
  change (bitmap_area (pmm (vmm_vm (kn_vmm k1)))) with (bitmap_area ps) in Hba.
  assert (all_reached (vmm_vm v2)) as Hre.
  { eapply space_reached; [exact Ready|exact V|by rewrite Hcr3|exact Hhh|]. intros v Hv. apply Hall.
    apply (mods_dom _ _ _ Hm1), (mods_dom _ _ _ Hm2). exact Hv. }
  assert (through_tables (set_vmm k1 v2) = set_vmm k1 v2) as ->.
  { unfold through_tables. cbn [set_vmm kn_vmm]. rewrite translated_id by done. by destruct v2. }
  cbn [kn_vmm set_vmm].
  ret_step buddy_init_returns; [exact (vi_pmm _ _ _ _ _ _ V)|exact Hok| | |done|].
  { by transitivity F0. }
  { rewrite <- Hhh. exact (vi_arena _ _ _ _ _ _ V). }
  intros [[bs ps2] m2] (M & L & Hheap & _ & HM & Hsize & R2 & Hghh & Hba2 & Hm3).
  pose proof (buddy_get_stats_returns bs m2 L [] M Hheap) as Hst. change (weight []) with 0 in Hst. rewrite Z.sub_0_r in Hst.
  pose proof (memory_assembled k1 v2 bs ps2 m2 L F1 M root T _ U hhdm V Hhh ltac:(by rewrite Hpml4) ltac:(rewrite Hba; exact Hbits)
    ltac:(by transitivity F0) Hheap HM R2 Hghh Hba2 Hm3 Hal Hre) as Up.
  ret_step prints_ln; [by eapply sends_dlab|]. intros t3 H3.
  ret_step print_buddy_stats_returns; [apply c_bytes|by eapply sends_dlab|exact Hst| | | |].
  { rewrite length_fmap. exact (br_len _ _ _ (hp_rep _ _ _ _ _ Hheap)). }
  { by eapply free_lists_bounded. }
  { pose proof (rep_bound _ _ _ _ R0). pose proof (subseteq_size M U ltac:(clear -HF0 HF1 HM; set_solver)).
    unfold PMM_FRAME_SIZE. lia. }
  intros t4 H4. ret_step prints_ln; [by eapply sends_dlab|]. intros t5 H5.
  ret_step print_slab_stats_returns; [apply c_bytes|by eapply sends_dlab|done| |].
  { cbn [set_slab kn_slab]. rewrite slab_stats_initial. apply (bool_decide_unpack _). by vm_compute. }
  intros t6 H6. cbn [returns]. exists (F1 ∖ M), M, root, T, ((λ l, Z.of_nat (length l)) <$> L). cbv zeta.
  split; [exact Up|]. split.
  { apply (frames_divided _ _ _ F1); [by rewrite <- Heq0|exact HM|exact Hsize]. }
  do 3 (split; [done|]). split; [|split; [exact Hst|]].
  - rewrite Hba in Hm3. exact (allocators_wrote hhdm U F0 F1 _ _ _ _ _ Hm1 Hm2 Hm3 Hbits HF0 HF1).
  - cbn [set_slab kn_slab] in H6. rewrite slab_stats_initial in H6. unfold memory_text. rewrite !crlf_app.
    eapply sends_app; [exact H1|]. eapply sends_app; [exact H2|]. eapply sends_app; [exact H3|].
    eapply sends_app; [exact H4|]. by eapply sends_app.
Qed.
(** ** All of it *)

Definition boot_log (total free : Z) (counts : list Z) (bytes : Z) : cstring :=
  (ln "ScrapOS booted" ++ ln "ScrapOS: framebuffer console up") ++ devices_text ++
  memory_text total free counts bytes ++ live_text.

Lemma kmain_returns `{!ArchText, !Pic} b k t fb memmap hhdm kaddr :
  boot_ok b k t fb memmap hhdm kaddr →
  returns (kmain b k t) (λ '(k', t'), ∃ F M root T counts,
    let U := list_to_set (memmap_frames memmap) in
    running k' t' ∧ screen_up fb k' (write_text fb blank (banner ++ devices_text ++ live_text)) ∧
    memory_up hhdm U F M root T (add_pages ∅ (kernel_space kaddr memmap hhdm)) k' ∧
    frames_shared memmap hhdm kaddr F M T ∧
    mods (λ x, fb_range fb x ∨ frames_mem hhdm U x) (kn_ram k) (kn_ram k') ∧
    buddy_get_stats (kn_buddy k') = Ok (counts, PMM_FRAME_SIZE * Z.of_nat (size M)) ∧
    line_adds (serial_init t) (crlf (boot_log (Z.of_nat (size U)) (Z.of_nat (size (free_at_boot memmap))) counts
      (PMM_FRAME_SIZE * Z.of_nat (size M)))) t' ∧
    ticks (kn_timer k') = ticks (kn_timer k)).
Proof.
  intros [Hrev [rest Hfb] Hmm Hhh Hka [Hsc Hbpp] Hapart [Hok Hreg] Hall Hback Hfit (Hal & Hh0 & Hhi) Him Hima Htab Hst Hcode
    [Hz Hhs] Hoff].
  set (U := list_to_set (memmap_frames memmap) : gset Z). unfold kmain.
  ret_step boot_screen_returns; [exact Hrev|exact Hfb|exact Hsc|exact Hbpp|].
  intros [k1 t1] (con1 & m1 & -> & Hm1 & S1 & L1 & C1). set (k1 := set_console k con1 m1) in *.
  ret_step boot_devices_returns; [exact Hz|exact Hhs|by eapply line_adds_dlab|exact S1|].
  intros [k2 t2] (Hm2 & A2 & Hh2 & Hz2 & P2 & S2 & L2).
  assert (ram_after (fb_range fb) k k2) as (m2 & Hvm2 & Hmods2).
  { eapply ram_after_trans; [|exact Hm2]. by exists m1. }
  assert (kn_ram k2 = m2) as Hram2 by (unfold kn_ram; by rewrite Hvm2).
  ret_step boot_memory_returns; [exact Hmm|exact Hhh|exact Hka|exact Hok|exact Hreg| | |exact Hfit|exact Hal|exact Hh0
    |exact Hhi|exact Him|exact Hima|exact Htab|by rewrite Hvm2|exact Hcode|by eapply line_adds_dlab|].
  { intros e He Hu. rewrite Hram2. eapply mods_backed; [exact Hmods2|by apply Hback]. }
  { intros v Hv. rewrite Hram2 in Hv. apply Hall. by apply (mods_dom _ _ _ Hmods2). }
  intros [k3 t3] (F & M & root & T & counts & Up & HF & Ha3 & Ht3 & Hc3 & Hm3 & Hst3 & H3). fold U in Up, Hm3, H3.
  assert (∀ x, frames_mem hhdm U x → ¬ fb_range fb x) as Hout.
  { intros x (f & Hf & Hx) Hfbx. by apply (Hapart x f). }
  assert (screen_up fb k3 (write_text fb (write_text fb blank banner) devices_text)) as S3.
  { destruct S2 as [D2 R2 G2]. split; rewrite Hc3; [|done|done]. eapply displays_mods; [exact D2|exact Hm3|].
    intros x Hx. rewrite R2. by apply Hout. }
  eapply returns_mono; [apply boot_live_returns; [by eapply sends_dlab|exact S3|by rewrite (sends_pic _ _ _ H3)]|].
  intros [k4 t4] (con4 & m4 & -> & Hm4 & S4 & P4 & C4 & L4).
  exists F, M, root, T, counts. cbv zeta. split; [|split; [|split; [|split; [exact HF|split; [|split; [exact Hst3|split]]]]]].
  - split; cbn [set_console kn_arch kn_timer].
    + rewrite Ha3. pose proof (arch_up_same _ _ _ t3 A2 (sends_cpu _ _ _ H3)) as A3.
      assert (iflag (cpu_of t4) = true) as Hi by (by rewrite C4). rewrite <- Hi.
      eapply arch_up_ext; [exact A3|]. by rewrite Hi.
    + by rewrite Ha3.
    + exact P4.
    + by eapply line_adds_dlab.
    + by rewrite Ht3, Hz2.
  - rewrite !write_text_app. exact S4.
  - eapply memory_up_mods; [exact Up|exact Hm4|exact Hapart].
  - eapply mods_trans; [eapply mods_weaken; [exact Hmods2|by left]|]. rewrite <- Hram2.
    eapply mods_trans; (eapply mods_weaken; [first [exact Hm3|exact Hm4]|]); [by right|by left].
  - unfold boot_log. rewrite !(crlf_app (_ ++ _)), (crlf_app devices_text), (crlf_app (memory_text _ _ _ _)).
    eapply line_adds_app; [exact L1|]. eapply line_adds_app; [exact L2|].
    eapply line_adds_app; [by apply sends_line|exact L4].
  - cbn [set_console kn_timer]. by rewrite Ht3, Hz2.
Qed.
End memory_stage.

(** * The idle loop *)

(** What reaches the kernel from outside. *)
Inductive input := Tick | Key (scancode : Z).

(** The inputs of a trace: a timer interrupt, a byte read from the keyboard. *)
Definition input_of (e : event) : option input :=
  match e with
  | Inta irq => if irq =? 0 then Some Tick else None
  | In port v => if port =? PS2_DATA then Some (Key v) else None
  | _ => None
  end.

Definition inputs t : list input := omap input_of t.

Definition line_of (i : input) : Z := match i with Tick => 0 | Key _ => 1 end.

(** The kernel as its user sees it. *)
Record view := { vw_ticks : Z; vw_screen : terminal; vw_line : list Z }.

Definition view_step (fb : limine_framebuffer) (v : view) (i : input) : view :=
  match i with
  | Tick =>
      let n := u64 (vw_ticks v + 1) in
      {| vw_ticks := n; vw_screen := vw_screen v; vw_line := vw_line v ++ heartbeat n 100 |}
  | Key sc =>
      {| vw_ticks := vw_ticks v;
         vw_screen := type_key (fb_w fb / 8) (fb_h fb / 8) (vw_screen v) (key_char sc);
         vw_line := vw_line v ++ echo (key_char sc) |}
  end.

Section awake_stage.
Context {AT : ArchText} (fb : limine_framebuffer).

(** The kernel takes interrupts, and shows [v]. *)
Record awake k t (v : view) : Prop := {
  aw_running : running k t;
  aw_screen : screen_up fb k (vw_screen v);
  aw_ticks : ticks (kn_timer k) = vw_ticks v;
  aw_line : sent (uart_of t) = vw_line v;
}.

(** From [k] to [k'] the drivers' variables changed, and memory in [P]. *)
Definition drivers_only (P : Z → Prop) k k' : Prop :=
  ∃ tm con m, k' = set_timer (set_console k con m) tm ∧ mods P (kn_ram k) m.

Lemma drivers_only_timer P k tm : drivers_only P k (set_timer k tm).
Proof. exists tm, (kn_console k), (kn_ram k). split; [by destruct k as [? ? ? [[] ?] ? ?]|apply mods_refl]. Qed.

Lemma drivers_only_ram P k k' : drivers_only P k k' → mods P (kn_ram k) (kn_ram k').
Proof. by intros (tm & con & m & -> & Hm). Qed.

Lemma drivers_only_arch P k k' : drivers_only P k k' → kn_arch k' = kn_arch k.
Proof. by intros (tm & con & m & -> & _). Qed.

Lemma inputs_app t1 t2 : inputs (t1 ++ t2) = inputs t1 ++ inputs t2.
Proof. apply omap_app. Qed.

Lemma sends_inputs t bs t' : sends t bs t' → ∃ tail, t' = t ++ tail ∧ inputs tail = [].
Proof.
  intros [_ (tail & -> & HF)]. exists tail. split; [done|].
  induction HF as [|e tail He _ IH]; [done|]. destruct e as [p v| | | | | | | | | |]; cbn in *; try done. by subst p.
Qed.

Lemma sends_same t bs t' t0 : uart_of t = uart_of t0 → sends t bs t' → line_adds t0 bs t'.
Proof. unfold line_adds. intros <- [-> _]. done. Qed.

Lemma eoi_inputs t irq : ∃ tail, pic_send_eoi t irq ++ [Iret] = t ++ tail ∧ inputs tail = [] ∧ Forall uart_silent tail.
Proof.
  rewrite pic_send_eoi_app. exists (pic_send_eoi [] irq ++ [Iret]). rewrite app_assoc. split; [done|].
  unfold pic_send_eoi. destruct (8 <=? irq); (split; [done|]); repeat (constructor; [done || (left; by vm_compute)|]); constructor.
Qed.

Lemma running_idle k t : running k t → pic_idle (pic_of t).
Proof. intros []. by rewrite ru_pic0. Qed.

(** Waiting changes nothing. *)
Lemma awake_hlt k t v : awake k t v → awake k (t ++ [Hlt]) v.
Proof.
  intros [[] Hs Ht Hl]. split; [split|..]; rewrite ?uart_of_app, ?pic_of_app; try done.
  eapply arch_up_same; [exact ru_arch0|]. by rewrite cpu_of_app.
Qed.

(** What a handler does before the end of interrupt. *)
Definition handled k t (irq : Z) v k' t1 : Prop := ∃ i tail, line_of i = irq ∧ t1 = t ++ tail ∧ inputs tail = [i] ∧
  tick_hz (kn_timer k') = tick_hz (kn_timer k) ∧ screen_up fb k' (vw_screen (view_step fb v i)) ∧
  ticks (kn_timer k') = vw_ticks (view_step fb v i) ∧
  dlab (uart_of t1) = false ∧ sent (uart_of t1) = vw_line (view_step fb v i) ∧ drivers_only (fb_range fb) k k'.

Lemma timer_handled k t v :
  awake k t v → let t0 := t ++ [Inta 0] in
  returns (run_handler TimerIrq k t0) (λ '(k', t1), handled k t 0 v k' t1 ∧ has_tail handler_event t0 t1).
Proof.
  intros [R S Ht Hl] t0. assert (uart_of t0 = uart_of t) as Hu by (unfold t0; by rewrite uart_of_app).
  unfold run_handler. ret_step timer_irq_returns; [by rewrite Hu; apply R|rewrite (ru_hz _ _ R); lia|].
  intros [tm t1] [-> H1]. cbn [returns]. split; [|by eapply sends_handler].
  destruct (sends_inputs _ _ _ H1) as (tail & Heq & Hin).
  pose proof (sends_same _ _ _ t Hu H1) as L1. rewrite (ru_hz _ _ R) in *. cbn [ticks] in *.
  exists Tick, ([Inta 0] ++ tail). split; [done|]. split; [rewrite Heq; unfold t0; by rewrite <- !app_assoc|].
  split; [rewrite !inputs_app, Hin; reflexivity|]. split; [by cbn; rewrite (ru_hz _ _ R)|]. split; [by destruct S|].
  cbn [view_step vw_ticks vw_line set_timer kn_timer ticks]. rewrite <- Ht, <- Hl. split; [done|].
  split; [by eapply line_adds_dlab|]. split; [by rewrite L1|apply drivers_only_timer].
Qed.

Lemma keyboard_handled k t v :
  awake k t v → let t0 := t ++ [Inta 1] in
  returns (run_handler KeyboardIrq k t0) (λ '(k', t1), handled k t 1 v k' t1 ∧ has_tail handler_event t0 t1).
Proof.
  intros [R [D Hr [Hc Hw]] Ht Hl] t0. assert (uart_of t0 = uart_of t) as Hu by (unfold t0; by rewrite uart_of_app).
  unfold run_handler. ret_step keyboard_irq_returns; [by rewrite Hu; apply R|exact D|].
  intros [[con m] t1] (sc & Hsc & _ & D' & Hm & Hg & H1). cbn [returns]. apply same_grid_screen in Hg as (Hr' & Hc' & Hw').
  assert (uart_of (t0 ++ [In PS2_DATA sc]) = uart_of t) as Hu' by (by rewrite uart_of_app, <- Hu).
  pose proof (sends_same _ _ _ t Hu' H1) as L1. destruct (sends_inputs _ _ _ H1) as (tail & Heq & Hin). split.
  - exists (Key sc), ([Inta 1] ++ [In PS2_DATA sc] ++ tail). split; [done|].
    split; [rewrite Heq; unfold t0; by rewrite <- !app_assoc|]. split; [rewrite !inputs_app, Hin; reflexivity|].
    split; [done|]. rewrite Hr in Hm. rewrite Hc, Hw in D'.
    split; [split; cbn [set_console kn_console]; [exact D'|congruence|split; congruence]|].
    split; [done|]. split; [by eapply line_adds_dlab|]. split; [rewrite L1; cbn; by rewrite <- Hl|].
    exists (kn_timer k), con, m. by split.
  - eapply has_tail_trans; [|by eapply sends_handler]. apply has_tail_snoc; [|apply has_tail_refl]. done.
Qed.

(** An interrupt of either line. *)
Lemma take_returns k t v irq :
  awake k t v → irq = 0 ∨ irq = 1 →
  returns (take_interrupt run_handler (kn_arch k) k t irq) (λ '(k', t'), ∃ i tail,
    t' = t ++ tail ∧ inputs tail = [i] ∧ line_of i = irq ∧ awake k' t' (view_step fb v i) ∧ drivers_only (fb_range fb) k k').
Proof.
  intros L Hirq. pose proof L as [R S Ht Hl]. pose proof (ru_handlers _ _ R) as Hh.
  eapply returns_mono; [apply (take_interrupt_returns run_handler (kn_arch k) k t irq (handled k t irq v))|].
  - lia.
  - rewrite Hh. done.
  - by eapply running_idle.
  - intros h Hlook. rewrite Hh in Hlook. destruct Hirq as [->| ->]; vm_compute in Hlook;
      injection Hlook as <-; [by apply timer_handled|by apply keyboard_handled].
  - intros Hlook. rewrite Hh in Hlook. by destruct Hirq as [->| ->].
  - intros [k' t'] ((t1 & (i & tail & Hi & -> & Hin & Hz & S' & Ht' & Hd & Hs & Hdr) & Ht1) & Hp & Hc).
    destruct (eoi_inputs (t ++ tail) irq) as (tail2 & Heq & Hin2 & Hsil). rewrite Heq in Ht1.
    assert (uart_of t' = uart_of (t ++ tail)) as Hu.
    { rewrite Ht1. apply has_tail_uart. by exists tail2. }
    exists i, (tail ++ tail2). split; [by rewrite Ht1, app_assoc|]. split; [by rewrite inputs_app, Hin, Hin2|].
    split; [done|]. split; [|exact Hdr]. split; try done; rewrite ?Hu; try done. pose proof (drivers_only_arch _ _ _ Hdr) as Ha.
    destruct R. split; rewrite ?Ha, ?Hz, ?Hp, ?Hu; try done.
    pose proof (up_iflag _ _ _ ru_arch0) as Hif.
    assert (iflag (cpu_of t') = true) as Hi' by (by rewrite Hc). rewrite <- Hi'. eapply arch_up_ext; [done|]. by rewrite Hi'.
Qed.
End awake_stage.

Section idle_stage.
Context {AT : ArchText} {SL : SlabLayout}.
Context (fb : limine_framebuffer) (hhdm : Z) (U F M : gset Z) (root : Z) (T : tabs) (PM : pmap).
Context (Hapart : off_frames hhdm U (fb_range fb)).

(** The kernel is up, its memory managers as the boot left them. *)
Record live k t (v : view) : Prop := {
  lv_awake : awake fb k t v;
  lv_memory : memory_up hhdm U F M root T PM k;
}.

Lemma memory_up_drivers P k k' :
  off_frames hhdm U P → memory_up hhdm U F M root T PM k → drivers_only P k k' → memory_up hhdm U F M root T PM k'.
Proof.
  intros HP Up (tm & con & m & -> & Hm). destruct (memory_up_mods hhdm U F M root T PM k con m P Up Hm HP). by split.
Qed.

(** One round of the loop. *)
Lemma idle_round k t v irq :
  live k t v → irq = 0 ∨ irq = 1 →
  returns (take_interrupt run_handler (kn_arch k) k (t ++ [Hlt]) irq) (λ '(k', t'), ∃ i tail,
    t' = t ++ tail ∧ inputs tail = [i] ∧ line_of i = irq ∧ live k' t' (view_step fb v i)).
Proof.
  intros [L Up] Hirq. eapply returns_mono; [apply take_returns; [by apply awake_hlt|exact Hirq]|].
  intros [k' t'] (i & tail & -> & Hin & Hi & L' & Hdr). exists i, ([Hlt] ++ tail). split; [by rewrite app_assoc|].
  do 2 (split; [done|]). split; [done|]. by eapply memory_up_drivers.
Qed.

Lemma idle_returns irqs : ∀ k t v,
  live k t v → Forall (λ irq, irq = 0 ∨ irq = 1) irqs →
  returns (idle k t irqs) (λ '(k', t'), ∃ tail, t' = t ++ tail ∧ line_of <$> inputs tail = irqs ∧
    live k' t' (foldl (view_step fb) v (inputs tail))).
Proof.
  induction irqs as [|irq irqs IH]; intros k t v L HF.
  { exists []. rewrite app_nil_r. done. }
  apply Forall_cons in HF as [Hirq HF]. cbn [idle]. ret_step idle_round; [exact L|exact Hirq|].
  intros [k1 t1] (i & tail1 & -> & Hin & Hi & L1). eapply returns_mono; [by eapply IH|].
  intros [k2 t2] (tail2 & -> & Hirqs & L2). exists (tail1 ++ tail2). rewrite inputs_app, Hin.
  split; [by rewrite app_assoc|]. split; [cbn; congruence|done].
Qed.
End idle_stage.
End stages.

(** * A small machine *)

Module boot_demo.
#[local] Existing Instances demo.limine0 vmm_demo.image0 vmm_demo.text0.

(** The small memory map, and what the boot loader adds to it: its stack, which it has
    called [kmain] on, and the framebuffer. *)
Definition stack_region : limine_memmap_entry := {| Pmm.base := 0x8000; length_ := 0x2000; type := 5 |}.
Definition fb_region : limine_memmap_entry := {| Pmm.base := 0x10000; length_ := 0x2000; type := 7 |}.
Definition memmap : list limine_memmap_entry := demo.memmap ++ [stack_region; fb_region].

Definition fb0 : limine_framebuffer :=
  {| fb_address := demo.hhdm + 0x10000; fb_w := 80; fb_h := 16; fb_p := 384; fb_bpp := 32 |}.

Definition info memmap : boot_info := {|
  base_revision_supported := true; framebuffers := Some [fb0]; memmap_response := Some memmap;
  hhdm_response := Some demo.hhdm; executable_address_response := Some vmm_demo.kaddr0 |}.

Definition info0 : boot_info := info memmap.

(** The image's static variables, memory [m], and the boot stack. *)
Definition kernel0 (m : mem) : kernel := {|
  kn_arch := arch_demo.arch0 irq_handler; kn_timer := {| ticks := 0; tick_hz := 0 |};
  kn_console := console_demo.off;
  kn_vmm := {|
    vmm_vm := {| hhdm_offset := 0;
                 pmm := {| bitmap := 0; bitmap_bytes := 0; total_frames := 0; usable_frames := 0;
                           free_frames := 0; next_hint := 0 |};
                 ram := m; vcpu := {| cr3 := 0; Paging.rsp := demo.hhdm + 0x9f00; tlb := ∅ |} |};
    kernel_pml4 := 0 |};
  kn_buddy := {| free_list := []; free_count := []; g_hhdm := 0 |};
  kn_slab := {| caches := []; slab_hhdm := 0 |} |}.

(** Memory [m] is that of a map the image fits beside, with a framebuffer and a stack. *)
Record machine_ok memmap m : Prop := {
  ma_fb : backed m (demo.hhdm + 0x10000) (16 * 384);
  ma_ram : hhdm_backs m demo.hhdm memmap;
  ma_map : memmap_ok memmap ∧ Forall region_ok memmap;
  ma_memory v : is_Some (m !! v) → ∃ e, e ∈ memmap ∧ range (Pmm.base e + demo.hhdm) (length_ e) v;
  ma_frames : ∀ f, f ∈ memmap_frames memmap → 0 ≤ f < 8 ∨ 512 ≤ f < 2048;
  ma_fits : bitmap_region (bitmap_size memmap) memmap ≠ 0;
  ma_apart : ∀ e a, e ∈ memmap → Pmm.base e ≤ a < Pmm.base e + length_ e → 0x1000 ≤ a < 0x100000 ∨ 0x200000 ≤ a < 0x800000;
  ma_tables : (size (tables_for (kernel_space vmm_demo.kaddr0 memmap demo.hhdm)) + 1 ≤ size (free_at_boot memmap))%nat;
  ma_stack : stack_region ∈ memmap;
}.

Lemma image_apart a v : 0x1000 ≤ a < 0x100000 ∨ 0x200000 ≤ a < 0x800000 →
  __kernel_start ≤ v < __kernel_end → vpage (a + demo.hhdm) ≠ vpage v.
Proof.
  intros Ha Hv Heq. cbn [__kernel_start __kernel_end vmm_demo.image0] in Hv. revert Heq. unfold vpage, demo.hhdm in *.
  change (2 ^ 12) with 4096. change (2 ^ 36) with 68719476736. destruct Ha; div_lia.
Qed.

Lemma machine_boot_ok memmap m :
  machine_ok memmap m → boot_ok (info memmap) (kernel0 m) [] fb0 memmap demo.hhdm vmm_demo.kaddr0.
Proof.
  intros [Hfb Hram Hmap Hin Hfr Hfit Hap Htab Hst]. split; try done.
  - by exists [].
  - intros x f Hx Hf Hfx. apply elem_of_list_to_set in Hf. specialize (Hfr f Hf).
    unfold frame_mem, range, demo.hhdm, PMM_FRAME_SIZE in *. cbn in Hx. unfold demo.hhdm in Hx. lia.
  - intros e a v He Ha. by eapply image_apart, Hap.
  - exists stack_region, 0x9f00. split; [exact Hst|]. split; [cbn; lia|reflexivity].
Qed.

(** Filling in more memory takes none away. *)
Lemma backs_fill a (n : nat) memmap m : hhdm_backs m demo.hhdm memmap → hhdm_backs (ram_fill a n m) demo.hhdm memmap.
Proof.
  intros Hb e He Hu x Hx. rewrite ram_fill_lookup. case_decide; [by eexists|]. by apply (Hb e He Hu x).
Qed.

#[local] Strategy 100 [ram_fill].

(** Memory for the stack and the framebuffer, on top of [m]. *)
Definition add_ram (m : mem) : mem :=
  ram_fill (demo.hhdm + 0x8000) (Z.to_nat 0x2000) (ram_fill (demo.hhdm + 0x10000) (Z.to_nat 0x2000) m).

Lemma add_ram_backed m a n :
  (demo.hhdm + 0x8000 ≤ a ∧ a + n ≤ demo.hhdm + 0xa000) ∨ (demo.hhdm + 0x10000 ≤ a ∧ a + n ≤ demo.hhdm + 0x12000) →
  backed (add_ram m) a n.
Proof.
  intros Ha x Hx. unfold add_ram. rewrite !ram_fill_lookup. unfold range in Hx.
  repeat case_decide; first [by eexists|exfalso; lia].
Qed.

(** All of the small machine's memory is in its map. *)
Lemma in_region_of (l : list limine_memmap_entry) v a (n : nat) e : e ∈ l → Pmm.base e + demo.hhdm = a → length_ e = Z.of_nat n →
  range a (Z.of_nat n) v → ∃ e, e ∈ l ∧ range (Pmm.base e + demo.hhdm) (length_ e) v.
Proof. intros He Ha Hn Hv. exists e. split; [done|]. by rewrite Ha, Hn. Qed.

Lemma add_ram_in (l : list limine_memmap_entry) (m : mem) v : stack_region ∈ l → fb_region ∈ l →
  (is_Some (m !! v) → ∃ e, e ∈ l ∧ range (Pmm.base e + demo.hhdm) (length_ e) v) →
  is_Some (add_ram m !! v) → ∃ e, e ∈ l ∧ range (Pmm.base e + demo.hhdm) (length_ e) v.
Proof.
  intros Hs Hf Hm [Hv|[Hv|Hv]%ram_fill_in]%ram_fill_in; [| |by apply Hm].
  - eapply (in_region_of l v _ _ stack_region Hs); [reflexivity| |exact Hv]. by rewrite Z2Nat.id by lia.
  - eapply (in_region_of l v _ _ fb_region Hf); [reflexivity| |exact Hv]. by rewrite Z2Nat.id by lia.
Qed.

Lemma demo_ram_in (l : list limine_memmap_entry) v : (∀ e, e ∈ demo.memmap → e ∈ l) → is_Some (demo.ram !! v) →
  ∃ e, e ∈ l ∧ range (Pmm.base e + demo.hhdm) (length_ e) v.
Proof.
  intros Hl [Hv|[Hv|Hv]%ram_fill_in]%ram_fill_in; [| |by rewrite lookup_empty in Hv; destruct Hv].
  - eapply in_region_of; [apply Hl; by left|reflexivity| |exact Hv]. by rewrite Z2Nat.id by lia.
  - eapply in_region_of; [apply Hl; by do 2 right; left|reflexivity| |exact Hv]. by rewrite Z2Nat.id by lia.
Qed.

Lemma boot_map_ok : Pmm.memmap_ok memmap.
Proof.
  split; [|apply (bool_decide_unpack _); by vm_compute].
  intros e Hin Hu. repeat (apply elem_of_cons in Hin as [->|Hin]); [..|by apply not_elem_of_nil in Hin]; done.
Qed.

Lemma backs : hhdm_backs (add_ram demo.ram) demo.hhdm memmap.
Proof.
  intros e [He|He]%elem_of_app Hu; [exact (backs_fill _ _ _ _ (backs_fill _ _ _ _ demo.hhdm_backs) e He Hu)|].
  repeat (apply elem_of_cons in He as [->|He]); [done..|by apply elem_of_nil in He].
Qed.

(** The small machine. *)
Lemma machine0 : machine_ok memmap (add_ram demo.ram).
Proof.
  split; [apply add_ram_backed; lia|exact backs| | | | | | |by do 3 right; left].
  - split; [exact boot_map_ok|]. repeat constructor; cbn; lia.
  - intros v. apply add_ram_in; [by do 3 right; left|by do 4 right; left|].
    apply demo_ram_in. intros e He. apply elem_of_app. by left.
  - clear. apply Forall_forall, (bool_decide_unpack _). by vm_compute.
  - clear. by vm_compute.
  - intros e a He Ha. left. repeat (apply elem_of_cons in He as [->|He]); [cbn in Ha; lia..|by apply elem_of_nil in He].
  - clear. apply (bool_decide_unpack _). by vm_compute.
Qed.

Lemma loaded : ∃ m, boot_ok info0 (kernel0 m) [] fb0 memmap demo.hhdm vmm_demo.kaddr0.
Proof. exists (add_ram demo.ram). apply machine_boot_ok, machine0. Qed.

#[export] Instance layout0 : SlabLayout := 0xffffffff80110000.
End boot_demo.
#[local] Existing Instances demo.limine0 vmm_demo.image0 vmm_demo.text0 arch_demo.machine arch_demo.machine_pic
  arch_demo.machine_uart arch_demo.text boot_demo.layout0.

(** * What the kernel promises *)

(** The lines that are open once the kernel runs. *)
Lemma open_lines `{!ArchText} k t irqs :
  running k t → Forall (λ irq, 0 ≤ irq < 16 ∧ line_open (pic_of t) irq = true) irqs →
  Forall (λ irq, irq = 0 ∨ irq = 1) irqs.
Proof.
  intros R HF. eapply Forall_impl; [exact HF|]. intros irq [Hirq Hopen]. rewrite (ru_pic _ _ R) in Hopen.
  assert (Forall (λ irq, line_open (remapped (0xFC, 0xFF)) irq = true → irq = 0 ∨ irq = 1) (seqZ 0 16)) as Hall
    by (apply (bool_decide_unpack _); by vm_compute).
  rewrite Forall_forall in Hall. apply Hall; [|exact Hopen]. apply elem_of_seqZ. lia.
Qed.

(** C2. The boot.  Given what the boot loader guarantees, [kmain] reaches its idle
    loop: no step faults, panics or loops.  The screen then shows the boot messages
    and nothing else, and exactly the boot log went down the serial line, its numbers
    those of the allocators.  The CPU runs on the kernel's page tables, which map what
    the kernel's address space lists; from the load of cr3 on every access goes through
    them (what they do not reach is gone from memory), and they reach all the memory
    there is, the framebuffer included.  The memory managers are well-formed in one
    memory: the frame allocator keeps a reserve of 1024 frames unless there are
    fewer, the buddy allocator owns the rest, all free, the slab allocator on top of
    it is empty, no frame has two owners and none is lost, and no page table lies in
    a frame that can be handed out.  Nothing but the framebuffer and usable memory was
    written.  The timer and the keyboard, and no other line, can interrupt,
    each with its handler in place, and interrupts are on. *)
Theorem kmain_correct {Ma : Machine} {Ua : Uart} {Pi : Pic} {Lim : Limine} {KI : KernelImage} {PT : PagingText}
    {SL : SlabLayout} {AT : ArchText} b k t fb memmap hhdm kaddr :
  boot_ok b k t fb memmap hhdm kaddr →
  ∃ k' t' F M root T counts, kmain b k t = Ok (k', t') ∧
    let U := list_to_set (memmap_frames memmap) in
    running k' t' ∧ screen_up fb k' (write_text fb blank (banner ++ devices_text ++ live_text)) ∧
    memory_up hhdm U F M root T (add_pages ∅ (kernel_space kaddr memmap hhdm)) k' ∧
    all_reached (vmm_vm (kn_vmm k')) ∧ (∀ x, fb_range fb x → reached (vmm_vm (kn_vmm k')) x = true) ∧
    frames_shared memmap hhdm kaddr F M T ∧
    mods (λ x, fb_range fb x ∨ frames_mem hhdm U x) (kn_ram k) (kn_ram k') ∧
    buddy_get_stats (kn_buddy k') = Ok (counts, PMM_FRAME_SIZE * Z.of_nat (size M)) ∧
    sent (uart_of t') = sent (uart_of t) ++ crlf (boot_log (Z.of_nat (size U))
      (Z.of_nat (size (free_at_boot memmap))) counts (PMM_FRAME_SIZE * Z.of_nat (size M))).
Proof.
  intros B. destruct (returns_inv _ _ (kmain_returns b k t fb memmap hhdm kaddr B))
    as ([k' t'] & Hrun & F & M & root & T & counts & R & S & Up & HF & Hk & Hst & Hl & _).
  exists k', t', F, M, root, T, counts. split; [exact Hrun|]. cbv zeta.
  pose proof (mu_reached _ _ _ _ _ _ _ _ Up) as Hre. do 4 (split; [assumption|]). split.
  { intros x Hx. apply Hre. destruct (bo_screen _ _ _ _ _ _ _ B) as [Hfb _].
    exact (mods_backed _ _ _ _ _ Hk (fo_backed _ _ _ _ _ Hfb) x Hx). }
  do 3 (split; [assumption|]). rewrite Hl, serial_init_uart. reflexivity.
Qed.

Lemma kmain_correct_witness : ∃ m k' t', kmain boot_demo.info0 (boot_demo.kernel0 m) [] = Ok (k', t') ∧
  iflag (cpu_of t') = true ∧ displays (kn_console k') (kn_ram k') (write_text boot_demo.fb0 blank (banner ++ devices_text ++ live_text)).
Proof.
  destruct boot_demo.loaded as [m B].
  destruct (kmain_correct _ _ _ _ _ _ _ B) as (k' & t' & F & M & root & T & counts & Hrun & R & S & _).
  exists m, k', t'. split; [exact Hrun|]. split; [exact (up_iflag _ _ _ (ru_arch _ _ R))|exact (su_shown _ _ _ S)].
Defined.

(** Life after the boot.  From then on, whichever of the open lines interrupt and
    in whatever order, every interrupt is served to the end and the kernel is back in
    its idle loop with the next one possible.  The tick count is the number of timer
    interrupts (modulo 2^64), a line a second reports it; every byte read from the
    keyboard has its effect on the screen and its echo on the serial line, in order;
    nothing else is shown or sent, and the memory managers, the page tables and the
    CPU's tables are as the boot left them. *)
Theorem idle_correct {Ma : Machine} {Ua : Uart} {SL : SlabLayout} {AT : ArchText}
    fb hhdm U F M root T PM k t v irqs :
  off_frames hhdm U (fb_range fb) → live fb hhdm U F M root T PM k t v →
  Forall (λ irq, 0 ≤ irq < 16 ∧ line_open (pic_of t) irq = true) irqs →
  ∃ k' tail, idle k t irqs = Ok (k', t ++ tail) ∧ line_of <$> inputs tail = irqs ∧
    live fb hhdm U F M root T PM k' (t ++ tail) (foldl (view_step fb) v (inputs tail)).
Proof.
  intros Hapart L HF. pose proof (open_lines _ _ irqs (aw_running _ _ _ _ (lv_awake _ _ _ _ _ _ _ _ _ _ _ L)) HF) as HF'.
  destruct (returns_inv _ _ (idle_returns fb hhdm U F M root T PM Hapart irqs k t v L HF')) as ([k' t'] & Hrun & tail & -> & Hin & L').
  by exists k', tail.
Qed.

(** Two ticks and a key on the small machine. *)
Lemma idle_correct_witness : ∃ k t k' tail,
  idle k t [0; 1; 0] = Ok (k', t ++ tail) ∧ line_of <$> inputs tail = [0; 1; 0] ∧ ticks (kn_timer k') = 2.
Proof.
  destruct boot_demo.loaded as [m B].
  destruct (returns_inv _ _ (kmain_returns _ _ _ _ _ _ _ B))
    as ([k t] & _ & F & M & root & T & counts & R & S & Up & _).
  set (k0 := set_timer k {| ticks := 0; tick_hz := 100 |}).
  assert (live boot_demo.fb0 demo.hhdm (list_to_set (memmap_frames boot_demo.memmap)) F M root T
    (add_pages ∅ (kernel_space vmm_demo.kaddr0 boot_demo.memmap demo.hhdm)) k0 t
    {| vw_ticks := 0; vw_screen := write_text boot_demo.fb0 blank (banner ++ devices_text ++ live_text);
       vw_line := sent (uart_of t) |}) as L.
  { split; [split; [by destruct R|by destruct S|reflexivity|reflexivity]|by destruct Up]. }
  destruct (idle_correct _ _ _ _ _ _ _ _ k0 t _ [0; 1; 0] (bo_apart _ _ _ _ _ _ _ B) L)
    as (k' & tail & Hrun & Hin & L').
  { rewrite (ru_pic _ _ R). repeat constructor; lia. }
  exists k0, t, k', tail. split; [exact Hrun|split; [exact Hin|]]. rewrite (aw_ticks _ _ _ _ (lv_awake _ _ _ _ _ _ _ _ _ _ _ L')).
  destruct (inputs tail) as [|[|] [|[|] [|[|] [|]]]]; try discriminate Hin. reflexivity.
Defined.
