(* ===== verification/Stubs.v ===== *)
(** kernel/arch/x86_64/isr_stubs.asm: the way into the C handlers and back.

    [cpu_entry] is what the CPU pushes when it takes vector [v]; the stubs and
    the common tails are the instructions of the file.  The C handler is given
    the address of what is then on top of the stack as a struct
    interrupt_frame ([load_frame]). *)

From stdpp Require Import base list gmap sets.
From Stdlib Require Import ZArith Lia.
From S2P Require Import Prelude.
From S2P Require Import Mem.
From S2P Require Import Stack.
From S2P Require Import Isr.

#[local] Coercion Z.of_nat : nat >-> Z.
#[local] Abbreviation length := Datatypes.length.
Implicit Types (m : mem) (sp v irq : Z).

(** * The code *)

(** Every register an interrupted program could miss. *)
Record regs := {
  g_rax : Z; g_rbx : Z; g_rcx : Z; g_rdx : Z; g_rsi : Z; g_rdi : Z; g_rbp : Z;
  g_r8 : Z; g_r9 : Z; g_r10 : Z; g_r11 : Z; g_r12 : Z; g_r13 : Z; g_r14 : Z; g_r15 : Z;
  g_rip : Z; g_cs : Z; g_rflags : Z; g_rsp : Z; g_ss : Z;
}.

Implicit Types (r : regs).

(** The vectors for which the CPU pushes an error code (Intel SDM). *)
Definition cpu_error_code v : bool :=
  bool_decide (v ∈ [8; 10; 11; 12; 13; 14; 17; 21; 29; 30]).

(** The CPU, in 64-bit mode, without a change of stack. *)
Definition cpu_entry m r v (err : Z) : outcome (mem * Z) :=
  let sp := Z.land (g_rsp r) (u64 (Z.lnot 0xF)) in
  '(m, sp) ← push m sp (g_ss r);
  '(m, sp) ← push m sp (g_rsp r);
  '(m, sp) ← push m sp (g_rflags r);
  '(m, sp) ← push m sp (g_cs r);
  '(m, sp) ← push m sp (g_rip r);
  if cpu_error_code v then push m sp err else Ok (m, sp).

(** The macro each of the 32 exception stubs is an instance of. *)
Inductive stub_macro := ISR_NOERR | ISR_ERR.

Definition isr_stub_macros : list stub_macro := [
  ISR_NOERR; ISR_NOERR; ISR_NOERR; ISR_NOERR; ISR_NOERR; ISR_NOERR; ISR_NOERR; ISR_NOERR;
  ISR_ERR; ISR_NOERR; ISR_ERR; ISR_ERR; ISR_ERR; ISR_ERR; ISR_ERR; ISR_NOERR;
  ISR_NOERR; ISR_ERR; ISR_NOERR; ISR_NOERR; ISR_NOERR; ISR_ERR; ISR_NOERR; ISR_NOERR;
  ISR_NOERR; ISR_NOERR; ISR_NOERR; ISR_NOERR; ISR_NOERR; ISR_ERR; ISR_ERR; ISR_NOERR ].

Definition isr_stub m sp v : outcome (mem * Z) :=
  macro ← arr_get isr_stub_macros v;
  '(m, sp) ← match macro with ISR_NOERR => push m sp 0 | ISR_ERR => Ok (m, sp) end;
  push m sp v.

Definition irq_stub m sp irq : outcome (mem * Z) :=
  '(m, sp) ← push m sp 0;
  push m sp (32 + irq).

(** The pushes of [isr_common] and [irq_common]. *)
Definition save_regs m r sp : outcome (mem * Z) :=
  '(m, sp) ← push m sp (g_r15 r);
  '(m, sp) ← push m sp (g_r14 r);
  '(m, sp) ← push m sp (g_r13 r);
  '(m, sp) ← push m sp (g_r12 r);
  '(m, sp) ← push m sp (g_r11 r);
  '(m, sp) ← push m sp (g_r10 r);
  '(m, sp) ← push m sp (g_r9 r);
  '(m, sp) ← push m sp (g_r8 r);
  '(m, sp) ← push m sp (g_rbp r);
  '(m, sp) ← push m sp (g_rdi r);
  '(m, sp) ← push m sp (g_rsi r);
  '(m, sp) ← push m sp (g_rdx r);
  '(m, sp) ← push m sp (g_rcx r);
  '(m, sp) ← push m sp (g_rbx r);
  push m sp (g_rax r).

(** Up to the call of the C handler: memory, the frame's address ([rbp]) and the
    aligned stack pointer of the call. *)
Definition take_exception m r v (err : Z) : outcome (mem * Z * Z) :=
  '(m, sp) ← cpu_entry m r v err;
  '(m, sp) ← isr_stub m sp v;
  '(m, sp) ← save_regs m r sp;
  Ok (m, sp, Z.land sp (u64 (Z.lnot 0xF))).

Definition take_irq m r irq : outcome (mem * Z * Z) :=
  '(m, sp) ← cpu_entry m r (32 + irq) 0;
  '(m, sp) ← irq_stub m sp irq;
  '(m, sp) ← save_regs m r sp;
  Ok (m, sp, Z.land sp (u64 (Z.lnot 0xF))).

(** [interrupt_return], with [rbp] as the frame's address. *)
Definition interrupt_return m (rbp : Z) : outcome regs :=
  let sp := rbp in
  '(rax, sp) ← pop m sp;
  '(rbx, sp) ← pop m sp;
  '(rcx, sp) ← pop m sp;
  '(rdx, sp) ← pop m sp;
  '(rsi, sp) ← pop m sp;
  '(rdi, sp) ← pop m sp;
  '(rbp, sp) ← pop m sp;
  '(r8, sp) ← pop m sp;
  '(r9, sp) ← pop m sp;
  '(r10, sp) ← pop m sp;
  '(r11, sp) ← pop m sp;
  '(r12, sp) ← pop m sp;
  '(r13, sp) ← pop m sp;
  '(r14, sp) ← pop m sp;
  '(r15, sp) ← pop m sp;
  let sp := u64 (sp + 16) in
  '(rip, sp) ← pop m sp;
  '(cs, sp) ← pop m sp;
  '(rflags, sp) ← pop m sp;
  '(rsp, sp) ← pop m sp;
  '(ss, sp) ← pop m sp;
  Ok {| g_rax := rax; g_rbx := rbx; g_rcx := rcx; g_rdx := rdx; g_rsi := rsi; g_rdi := rdi; g_rbp := rbp;
        g_r8 := r8; g_r9 := r9; g_r10 := r10; g_r11 := r11; g_r12 := r12; g_r13 := r13; g_r14 := r14; g_r15 := r15;
        g_rip := rip; g_cs := cs; g_rflags := rflags; g_rsp := rsp; g_ss := ss |}.

(** The struct at [p], field by field. *)
Definition load_frame m (p : Z) : outcome interrupt_frame :=
  rax ← load64 m p; rbx ← load64 m (p + 8); rcx ← load64 m (p + 16); rdx ← load64 m (p + 24);
  rsi ← load64 m (p + 32); rdi ← load64 m (p + 40); rbp ← load64 m (p + 48);
  r8 ← load64 m (p + 56); r9 ← load64 m (p + 64); r10 ← load64 m (p + 72); r11 ← load64 m (p + 80);
  r12 ← load64 m (p + 88); r13 ← load64 m (p + 96); r14 ← load64 m (p + 104); r15 ← load64 m (p + 112);
  vector ← load64 m (p + 120); error_code ← load64 m (p + 128);
  rip ← load64 m (p + 136); cs ← load64 m (p + 144); rflags ← load64 m (p + 152);
  rsp ← load64 m (p + 160); ss ← load64 m (p + 168);
  Ok {| Isr.rax := rax; Isr.rbx := rbx; Isr.rcx := rcx; Isr.rdx := rdx; Isr.rsi := rsi; Isr.rdi := rdi; Isr.rbp := rbp;
        Isr.r8 := r8; Isr.r9 := r9; Isr.r10 := r10; Isr.r11 := r11; Isr.r12 := r12; Isr.r13 := r13;
        Isr.r14 := r14; Isr.r15 := r15; Isr.vector := vector; Isr.error_code := error_code;
        Isr.rip := rip; Isr.cs := cs; Isr.rflags := rflags; Isr.rsp := rsp; Isr.ss := ss |}.

(** [irq_common] as a whole: in, the C side ([irq_dispatch], given the frame) and out
    through [interrupt_return]. *)
Definition irq_common (dispatch : interrupt_frame → mem → outcome mem) m r irq : outcome (mem * regs) :=
  '(m, rbp, sp) ← take_irq m r irq;
  f ← load_frame m rbp;
  m ← dispatch f m;
  r ← interrupt_return m rbp;
  Ok (m, r).

(** * The frame *)

(** What the C handler should see of [r]. *)
Definition frame_of r (v err : Z) : interrupt_frame := {|
  Isr.rax := g_rax r; Isr.rbx := g_rbx r; Isr.rcx := g_rcx r; Isr.rdx := g_rdx r; Isr.rsi := g_rsi r;
  Isr.rdi := g_rdi r; Isr.rbp := g_rbp r; Isr.r8 := g_r8 r; Isr.r9 := g_r9 r; Isr.r10 := g_r10 r; Isr.r11 := g_r11 r;
  Isr.r12 := g_r12 r; Isr.r13 := g_r13 r; Isr.r14 := g_r14 r; Isr.r15 := g_r15 r;
  Isr.vector := v; Isr.error_code := err;
  Isr.rip := g_rip r; Isr.cs := g_cs r; Isr.rflags := g_rflags r; Isr.rsp := g_rsp r; Isr.ss := g_ss r |}.

(** The words of a frame, lowest address first. *)
Definition frame_words r (v err : Z) : list Z :=
  [g_rax r; g_rbx r; g_rcx r; g_rdx r; g_rsi r; g_rdi r; g_rbp r; g_r8 r; g_r9 r; g_r10 r; g_r11 r; g_r12 r;
   g_r13 r; g_r14 r; g_r15 r; v; err; g_rip r; g_cs r; g_rflags r; g_rsp r; g_ss r].

(** Registers are 64 bits wide, and there is room for a frame below the aligned
    stack pointer. *)
Record can_enter m r : Prop := {
  ce_words : Forall (λ x, 0 ≤ x < 2 ^ 64) [g_rax r; g_rbx r; g_rcx r; g_rdx r; g_rsi r; g_rdi r; g_rbp r; g_r8 r; g_r9 r;
    g_r10 r; g_r11 r; g_r12 r; g_r13 r; g_r14 r; g_r15 r; g_rip r; g_cs r; g_rflags r; g_rsp r; g_ss r];
  ce_room : 176 ≤ g_rsp r - g_rsp r mod 16;
  ce_backed : backed m (g_rsp r - g_rsp r mod 16 - 176) 176;
}.

Lemma align16 x : 0 ≤ x < 2 ^ 64 → Z.land x (u64 (Z.lnot 0xF)) = x - x mod 16.
Proof. intros Hx. change 0xF with (2 ^ 4 - 1). by rewrite land_high_mask by lia. Qed.

Section entry.
Context m r (Hce : can_enter m r).
#[local] Abbreviation top := (g_rsp r - g_rsp r mod 16).

Lemma top_range : 176 ≤ top ∧ top < 2 ^ 64 ∧ Z.land (g_rsp r) (u64 (Z.lnot 0xF)) = top.
Proof.
  destruct Hce as [Hw Hroom _]. rewrite Forall_forall in Hw.
  assert (0 ≤ g_rsp r < 2 ^ 64) as Hr by (apply Hw; set_solver).
  pose proof (Z.mod_pos_bound (g_rsp r) 16 ltac:(lia)). split; [done|split; [lia|by apply align16]].
Qed.

Lemma cpu_entry_returns v err : 0 ≤ err < 2 ^ 64 →
  returns (cpu_entry m r v err) (λ '(m', sp), pushed m top m' sp
    ((if cpu_error_code v then [err] else []) ++ [g_rip r; g_cs r; g_rflags r; g_rsp r; g_ss r])).
Proof.
  intros Herr. destruct top_range as (H1 & H2 & H3). pose proof (ce_backed _ _ Hce) as Hb.
  pose proof (ce_words _ _ Hce) as Hw. rewrite !Forall_cons in Hw. destruct_and! Hw.
  unfold cpu_entry. rewrite H3. cbv zeta. pose proof (pushed_nil m top ltac:(lia)) as P.
  do 5 push_step P 176 Hb. destruct (cpu_error_code v); [|exact P].
  eapply (push_returns _ _ _ _ _ _ 176); [exact P|lia|cbn [length]; lia|lia|exact Hb].
Qed.

(** From the vector on. *)
Lemma save_regs_returns m1 sp v err :
  pushed m top m1 sp [v; err; g_rip r; g_cs r; g_rflags r; g_rsp r; g_ss r] →
  returns (save_regs m1 r sp) (λ '(m', sp), pushed m top m' sp (frame_words r v err)).
Proof.
  intros P. destruct top_range as (H1 & H2 & _). pose proof (ce_backed _ _ Hce) as Hb.
  pose proof (ce_words _ _ Hce) as Hw. rewrite !Forall_cons in Hw. destruct_and! Hw.
  unfold save_regs. do 14 push_step P 176 Hb.
  eapply (push_returns _ _ _ _ _ _ 176); [exact P|lia|cbn [length]; lia|lia|exact Hb].
Qed.

(** The frame is where the handler looks for it, aligned as the ABI wants. *)
Lemma pushed_frame m' sp v err : pushed m top m' sp (frame_words r v err) →
  sp = top - 176 ∧ Z.land sp (u64 (Z.lnot 0xF)) = sp ∧ words m' sp (frame_words r v err) ∧ mods (range sp 176) m m'.
Proof.
  intros [Hsp Hw Hm]. destruct top_range as (H1 & H2 & _). cbn [frame_words length] in Hsp, Hw, Hm.
  change (8 * 22%nat) with 176 in *. rewrite u64_id in Hsp by lia. rewrite <- Hsp in Hw, Hm.
  assert (0 ≤ sp < 2 ^ 64) as Hr by lia. split; [done|split; [|done]]. rewrite align16 by done.
  assert (sp mod 16 = 0) as ->; [|lia]. rewrite Hsp. div_lia.
Qed.

(** The error code word, whoever pushed it. *)
#[local] Abbreviation code v err := (if cpu_error_code v then err else 0).

Lemma stub_of v : 0 ≤ v < 32 →
  arr_get isr_stub_macros v = Ok (if cpu_error_code v then ISR_ERR else ISR_NOERR).
Proof.
  intros Hv.
  assert (Forall (λ v, arr_get isr_stub_macros v = Ok (if cpu_error_code v then ISR_ERR else ISR_NOERR)) (seqZ 0 32))
    as HF by (vm_compute; repeat constructor).
  rewrite Forall_forall in HF. apply HF, elem_of_seqZ. lia.
Qed.

(** What both paths do once the error code's slot is filled. *)
Lemma finish_entry m1 sp v err :
  0 ≤ v < 2 ^ 64 → pushed m top m1 sp [err; g_rip r; g_cs r; g_rflags r; g_rsp r; g_ss r] →
  returns (push m1 sp v) (λ '(m1, sp), returns ('(m', sp) ← save_regs m1 r sp; Ok (m', sp, Z.land sp (u64 (Z.lnot 0xF))))
    (λ '(m', p, sp), p = top - 176 ∧ sp = p ∧ words m' p (frame_words r v err) ∧ mods (range p 176) m m')).
Proof.
  intros Hv P. destruct top_range as (H1 & H2 & _). pose proof (ce_backed _ _ Hce) as Hb.
  eapply returns_mono.
  { eapply (push_returns _ _ _ _ _ _ 176); [exact P|lia|cbn [length]; lia|lia|exact Hb]. }
  intros [m2 sp2] P2. ret_step save_regs_returns; [exact P2|]. intros [m3 sp3] P3. by apply pushed_frame.
Qed.

Lemma take_exception_returns v err : 0 ≤ v < 32 → 0 ≤ err < 2 ^ 64 →
  returns (take_exception m r v err) (λ '(m', p, sp), p = top - 176 ∧ sp = p ∧
    words m' p (frame_words r v (code v err)) ∧ mods (range p 176) m m').
Proof.
  intros Hv Herr. unfold take_exception. ret_step cpu_entry_returns; [exact Herr|]. intros [m1 sp1] P.
  destruct top_range as (H1 & H2 & _). pose proof (ce_backed _ _ Hce) as Hb.
  unfold isr_stub. rewrite stub_of by done. rewrite bind_ok.
  destruct (cpu_error_code v); cbn [app] in P.
  - rewrite bind_ok. apply returns_bind. by eapply returns_mono; [apply finish_entry; [lia|exact P]|intros []].
  - apply returns_bind. push_step P 176 Hb.
    by eapply returns_mono; [apply finish_entry; [lia|exact P]|intros []].
Qed.

Lemma take_irq_returns irq : 0 ≤ irq < 16 →
  returns (take_irq m r irq) (λ '(m', p, sp), p = top - 176 ∧ sp = p ∧
    words m' p (frame_words r (32 + irq) 0) ∧ mods (range p 176) m m').
Proof.
  intros Hirq. unfold take_irq. ret_step cpu_entry_returns; [lia|]. intros [m1 sp1] P.
  destruct top_range as (H1 & H2 & _). pose proof (ce_backed _ _ Hce) as Hb.
  assert (cpu_error_code (32 + irq) = false) as Hc.
  { unfold cpu_error_code. apply bool_decide_eq_false. rewrite !elem_of_cons, elem_of_nil. lia. }
  rewrite Hc in P. cbn [app] in P. unfold irq_stub. apply returns_bind. push_step P 176 Hb.
  by eapply returns_mono; [apply finish_entry; [lia|exact P]|intros []].
Qed.

(** ** Reading the frame *)

Lemma load_frame_words m' p v err :
  words m' p (frame_words r v err) → load_frame m' p = Ok (frame_of r v err).
Proof.
  clear Hce m. unfold frame_words, load_frame. cbn [words]. intros Hw. destruct_and! Hw.
  repeat match goal with H : load64 _ ?a = Ok _ |- context [load64 _ ?b] =>
    replace b with a by lia; rewrite H, bind_ok; clear H end. done.
Qed.

Lemma interrupt_return_words m' p v err :
  0 ≤ p → p + 176 < 2 ^ 64 → words m' p (frame_words r v err) → interrupt_return m' p = Ok r.
Proof.
  clear Hce m. intros H0 H1 Hw. unfold interrupt_return, frame_words in *. cbv zeta.
  do 15 (eapply pop_words in Hw as [Hp Hw]; [rewrite Hp, bind_ok; clear Hp|lia..]).
  destruct Hw as (_ & _ & Hw). rewrite u64_id by lia.
  rewrite <- (Z.add_assoc _ 8 8) in Hw. change (8 + 8) with 16 in Hw.
  do 5 (eapply pop_words in Hw as [Hp Hw]; [rewrite Hp, bind_ok; clear Hp|lia..]).
  by destruct r.
Qed.
End entry.

(** * Properties *)

(** C23. Whatever exception the CPU takes, with or without an error code, the stub leaves
    the C handler the same struct: the interrupted registers, the vector and the error
    code (0 where the CPU pushes none), at a 16-byte aligned stack pointer.  Only the
    176 bytes of the frame are written. *)
Theorem exception_frame_correct m r v err :
  can_enter m r → 0 ≤ v < 32 → 0 ≤ err < 2 ^ 64 →
  returns (take_exception m r v err) (λ '(m', p, sp),
    load_frame m' p = Ok (frame_of r v (if cpu_error_code v then err else 0)) ∧
    p = g_rsp r - g_rsp r mod 16 - 176 ∧ sp mod 16 = 0 ∧ sp ≤ p ∧ mods (range p 176) m m').
Proof.
  intros Hce Hv Herr. destruct (top_range m r Hce) as (Hlo & _ & _).
  eapply returns_mono; [by apply take_exception_returns|]. intros [[m' p] sp] (Hp & -> & Hw & Hm).
  split; [by eapply load_frame_words|]. split; [done|]. split; [subst p; div_lia|]. split; [lia|done].
Qed.

(** An interrupt is invisible to the program it interrupts: the dispatcher sees the
    frame of IRQ [irq] (vector 32 + irq, error code 0), and when it leaves the frame's
    bytes alone every register, the flags, the stack pointer and the instruction
    pointer are restored. *)
Theorem irq_entry_exit dispatch m r irq :
  can_enter m r → 0 ≤ irq < 16 →
  let frame := range (g_rsp r - g_rsp r mod 16 - 176) 176 in
  (∀ m', mods frame m m' →
    returns (dispatch (frame_of r (32 + irq) 0) m') (λ m'', mods (λ x, ¬ frame x) m' m'')) →
  returns (irq_common dispatch m r irq) (λ '(_, r'), r' = r).
Proof.
  intros Hce Hirq frame Hd. destruct (top_range m r Hce) as (Hlo & Htop & _). unfold irq_common.
  ret_step take_irq_returns; [exact Hce|done|]. intros [[m' p] sp] (-> & _ & Hw & Hm).
  rewrite (load_frame_words _ _ _ _ _ Hw), bind_ok.
  ret_step Hd; [exact Hm|]. intros m'' Hm''.
  assert (words m'' (g_rsp r - g_rsp r mod 16 - 176) (frame_words r (32 + irq) 0)) as Hw'.
  { eapply words_mods; [exact Hm''| |exact Hw]. intros x Hx Hn. by apply Hn. }
  assert (interrupt_return m'' (g_rsp r - g_rsp r mod 16 - 176) = Ok r) as ->; [|done].
  eapply interrupt_return_words; [lia|lia|exact Hw'].
Qed.

(** A page fault and a breakpoint, and a key, over 4 KiB of stack. *)
Module stubs_demo.
Definition stack : mem := ram_fill 0x1000 4096 ∅.
Definition r : regs := {|
  g_rax := 1; g_rbx := 2; g_rcx := 3; g_rdx := 4; g_rsi := 5; g_rdi := 6; g_rbp := 7; g_r8 := 8; g_r9 := 9;
  g_r10 := 10; g_r11 := 11; g_r12 := 12; g_r13 := 13; g_r14 := 14; g_r15 := 15;
  g_rip := 0xFFFFFFFF80001234; g_cs := 0x28; g_rflags := 0x202; g_rsp := 0x1FF8; g_ss := 0x30 |}.

Lemma r_can_enter : can_enter stack r.
Proof.
  split; [apply (bool_decide_unpack _); by vm_compute|done|].
  apply ram_fill_backed; vm_compute; by intros.
Qed.

(** The dispatcher of the example writes elsewhere on the stack. *)
Lemma scribble P m0 m1 x a : 0 ≤ x < 2 ^ 64 → backed m0 a 8 → mods P m0 m1 →
  returns (store64 m1 a x) (λ m2, mods (range a 8) m1 m2).
Proof.
  intros Hx Hb Hm. eapply returns_mono; [apply store64_returns; [by eapply mods_backed|done]|].
  by intros m2 [H _].
Qed.

Lemma stack_backed : backed stack 0x1800 8.
Proof. apply ram_fill_backed; lia. Qed.
End stubs_demo.

Lemma exception_frame_correct_witness :
  ∃ m' p sp, take_exception stubs_demo.stack stubs_demo.r 14 6 = Ok (m', p, sp) ∧
    load_frame m' p = Ok (frame_of stubs_demo.r 14 6).
Proof.
  destruct (returns_inv _ _ (exception_frame_correct stubs_demo.stack stubs_demo.r 14 6 stubs_demo.r_can_enter
    ltac:(lia) ltac:(lia))) as ([[m' p] sp] & Hrun & Hf & _).
  exists m', p, sp. split; [exact Hrun|exact Hf].
Defined.

Lemma irq_entry_exit_witness :
  ∃ m', irq_common (λ f m, store64 m 0x1800 (vector f)) stubs_demo.stack stubs_demo.r 1 = Ok (m', stubs_demo.r).
Proof.
  pose proof (irq_entry_exit (λ f m, store64 m 0x1800 (vector f)) stubs_demo.stack stubs_demo.r 1
    stubs_demo.r_can_enter ltac:(lia)) as Hret. cbv zeta in Hret.
  apply returns_inv in Hret as ([m' r'] & Hrun & Heq).
  - exists m'. by rewrite Heq in Hrun.
  - intros m1 Hm1. eapply returns_mono; [|intros m2 Hm2; eapply mods_weaken; [exact Hm2|]].
    + refine (stubs_demo.scribble _ _ m1 33 0x1800 _ stubs_demo.stack_backed Hm1). lia.
    + change (g_rsp stubs_demo.r - g_rsp stubs_demo.r mod 16 - 176) with 0x1F40. unfold range. lia.
Defined.
