(* ===== verification/System.v ===== *)
(** The kernel on the machine: interrupts from the interrupted instruction and back,
    and the scheduler on the heap the boot leaves behind.

    [interrupt] puts isr_stubs.asm around the dispatcher of irq.c, on the memory the
    kernel runs in; [kernel_sched] gives sched.c the kmalloc of slab.c over the pages
    of buddy.c.  Nothing in this file is new code: it is where the interfaces meet. *)

From stdpp Require Import base list gmap sets.
From Stdlib Require Import ZArith Lia.
From S2P Require Import Prelude.
From S2P Require Import Mem.
From S2P Require Import Stack.
From S2P Require Import Pmm.
From S2P Require Import Blocks.
From S2P Require Import Buddy.
From S2P Require Import BlockAlloc.
From S2P Require Import Slab.
From S2P Require Import Heap.
From S2P Require Import Sched.
From S2P Require Import Paging.
From S2P Require Import Io.
From S2P Require Import Serial.
From S2P Require Import Pic.
From S2P Require Import Arch.
From S2P Require Import Isr.
From S2P Require Import Vmm.
From S2P Require Import Console.
From S2P Require Import Drivers.
From S2P Require Import Kernel.
From S2P Require Import Boot.
From S2P Require Import Stubs.

#[local] Coercion Z.of_nat : nat >-> Z.
#[local] Abbreviation length := Datatypes.length.
Implicit Types (t : io) (k : kernel) (r : Stubs.regs) (U F M : gset Z).

(** * Interrupts *)

Section code.
Context `{!Machine, !ArchText}.

(** The CPU takes an interrupt of line [irq] with the registers [r]: the controller
    names the vector, whose stub builds the frame; the dispatcher runs on it; the
    registers are taken back from the stack.  All of it goes through the page tables
    that are live at the time. *)
Definition interrupt k t r irq : outcome (kernel * io * Stubs.regs) :=
  let k := through_tables k in
  '(m, rbp, sp) ← take_irq (kn_ram k) r (line_vector (pic_of t) irq - IRQ_VECTOR_BASE);
  f ← load_frame m rbp;
  '(k, t) ← irq_dispatch run_handler (kn_arch k) (set_console k (kn_console k) m) (t ++ [Inta irq]) (Isr.vector f);
  let k := through_tables k in
  r ← interrupt_return (kn_ram k) rbp;
  Ok (k, t ++ [Iret], r).

(** The loop of [kmain], its registers at the [hlt] being [r]. *)
Fixpoint hw_idle k t r (irqs : list Z) : outcome (kernel * io * Stubs.regs) :=
  match irqs with
  | [] => Ok (k, t, r)
  | irq :: irqs =>
      '(k, t, r) ← interrupt k (t ++ [Hlt]) r irq;
      hw_idle k t r irqs
  end.
End code.

(** Where the frame of an interrupt goes. *)
Definition frame_area r : Z → Prop := range (g_rsp r - g_rsp r mod 16 - 176) 176.

(** The kernel after writes to memory. *)
Definition with_ram k (m : mem) : kernel := set_console k (kn_console k) m.

(** Registers are 64 bits wide. *)
Definition words_ok r : Prop := Forall (λ x, 0 ≤ x < 2 ^ 64)
  [g_rax r; g_rbx r; g_rcx r; g_rdx r; g_rsi r; g_rdi r; g_rbp r; g_r8 r; g_r9 r; g_r10 r;
   g_r11 r; g_r12 r; g_r13 r; g_r14 r; g_r15 r; g_rip r; g_cs r; g_rflags r; g_rsp r; g_ss r].

(** Where the tables reach all of memory they make no difference. *)
Lemma through_tables_id k : all_reached (vmm_vm (kn_vmm k)) → through_tables k = k.
Proof. intros Hre. unfold through_tables. rewrite translated_id by done. by destruct k as [? ? ? []]. Qed.

Section proofs.
Context `{!Machine, !Uart, !ArchText} (fb : limine_framebuffer).

(** Writes off the framebuffer change nothing anyone sees. *)
Lemma awake_ram P k t v m :
  awake fb k t v → mods P (kn_ram k) m → (∀ x, P x → ¬ fb_range fb x) → awake fb (with_ram k m) t v.
Proof.
  intros [R [D Hr Hg] Ht Hl] Hm HP. split; [by destruct R| |done|done].
  split; [|done|done]. eapply displays_mods; [exact D|exact Hm|]. intros x Hx Hin. apply (HP x Hx). by rewrite <- Hr.
Qed.

Lemma drivers_only_with_ram P Q k m k' :
  mods Q (kn_ram k) m → drivers_only P (with_ram k m) k' → drivers_only (λ x, P x ∨ Q x) k k'.
Proof.
  intros HQ (tm & con & m' & -> & Hm). exists tm, con, m'. split; [by destruct k|].
  eapply mods_trans; eapply mods_weaken; [exact HQ|by right|exact Hm|by left].
Qed.

(** An interrupt of either line, on a stack off the framebuffer. *)
Lemma interrupt_returns k t v r irq :
  awake fb k t v → can_enter (kn_ram k) r → (∀ x, frame_area r x → ¬ fb_range fb x) → irq = 0 ∨ irq = 1 →
  (∀ k', drivers_only (λ x, fb_range fb x ∨ frame_area r x) k k' → all_reached (vmm_vm (kn_vmm k'))) →
  returns (interrupt k t r irq) (λ '(k', t', r'), ∃ i tail,
    t' = t ++ tail ∧ inputs tail = [i] ∧ line_of i = irq ∧ r' = r ∧ awake fb k' t' (view_step fb v i) ∧
    drivers_only (λ x, fb_range fb x ∨ frame_area r x) k k').
Proof.
  intros L Hce Hoff Hirq Hre. pose proof (running_idle _ _ (aw_running _ _ _ _ L)) as Hidle.
  unfold interrupt. rewrite (through_tables_id k) by (apply Hre; exists (kn_timer k), (kn_console k), (kn_ram k);
    split; [by destruct k as [? ? ? [[] ?] ? ?]|apply mods_refl]).
  cbv zeta. rewrite (line_vector_idle _ irq Hidle) by lia. change IRQ_VECTOR_BASE with 32.
  replace (32 + irq - 32) with irq by lia.
  ret_step take_irq_returns; [exact Hce|lia|]. intros [[m p] sp] (Hp & _ & Hw & Hm).
  rewrite (load_frame_words _ _ _ _ _ Hw), bind_ok. cbn [frame_of Isr.vector].
  assert (mods (frame_area r) (kn_ram k) m) as Hm1 by (unfold frame_area; by rewrite <- Hp).
  pose proof (awake_ram _ k t v m L Hm1 Hoff) as L1.
  change (set_console k (kn_console k) m) with (with_ram k m).
  pose proof (take_returns fb (with_ram k m) t v irq L1 Hirq) as Hround.
  unfold take_interrupt in Hround. rewrite (line_vector_idle _ irq Hidle) in Hround by lia.
  change (kn_arch (with_ram k m)) with (kn_arch k) in Hround.
  destruct (irq_dispatch _ _ _ _ _) as [[k2 t2]| | |] eqn:Hdis in Hround |- *; try done.
  rewrite bind_ok. cbn [mbind outcome_bind returns] in Hround.
  destruct Hround as (i & tail & Ht & Hin & Hi & L2 & Hdr).
  pose proof (top_range _ _ Hce) as (Hlo & Htop & _).
  pose proof (drivers_only_with_ram _ _ _ _ _ Hm1 Hdr) as Hdr'. rewrite (through_tables_id k2) by by apply Hre.
  assert (interrupt_return (kn_ram k2) p = Ok r) as ->.
  { eapply interrupt_return_words; [lia|lia|]. eapply words_mods; [apply drivers_only_ram, Hdr| |exact Hw].
    intros x Hx. apply Hoff. unfold frame_area. by rewrite <- Hp. }
  cbn [mbind outcome_bind returns]. exists i, tail. do 5 (split; [done|]). exact Hdr'.
Qed.
End proofs.

Section idle.
Context `{!Machine, !Uart, !ArchText, !SlabLayout}.
Context (fb : limine_framebuffer) (hhdm : Z) (U F M : gset Z) (root : Z) (T : tabs) (PM : pmap).
Context (Hapart : off_frames hhdm U (fb_range fb)).

(** The boot stack: physical memory that is none of the memory managers', nor the screen's. *)
Record stack_ok (s : region) k r : Prop := {
  so_words : words_ok r;
  so_room : s.1 + 192 ≤ g_rsp r ≤ s.1 + s.2;
  so_range : 0 ≤ s.1;
  so_backed : backed (kn_ram k) s.1 s.2;
  so_screen : ∀ x, in_region s x → ¬ fb_range fb x;
  so_frames : off_frames hhdm U (in_region s);
}.

Lemma stack_frame s k r x : stack_ok s k r → frame_area r x → in_region s x.
Proof. intros [_ Hroom _ _ _ _]. unfold frame_area, in_region, range. pose proof (Z.mod_pos_bound (g_rsp r) 16). lia. Qed.

Lemma stack_can_enter s k r : stack_ok s k r → can_enter (kn_ram k) r.
Proof.
  intros [Hw Hroom Hlo Hb _ _]. pose proof (Z.mod_pos_bound (g_rsp r) 16 ltac:(lia)).
  split; [exact Hw|lia|]. eapply backed_sub; [exact Hb|lia..].
Qed.

Lemma stack_ok_after P s k k' r : stack_ok s k r → mods P (kn_ram k) (kn_ram k') → stack_ok s k' r.
Proof. intros [Hw Hroom Hlo Hb Hs Hf] Hm. split; try done. by eapply mods_backed. Qed.

Lemma hw_idle_returns s irqs : ∀ k t v r,
  live fb hhdm U F M root T PM k t v → stack_ok s k r → Forall (λ irq, irq = 0 ∨ irq = 1) irqs →
  returns (hw_idle k t r irqs) (λ '(k', t', r'), ∃ tail, t' = t ++ tail ∧ line_of <$> inputs tail = irqs ∧
    r' = r ∧ live fb hhdm U F M root T PM k' t' (foldl (view_step fb) v (inputs tail))).
Proof.
  induction irqs as [|irq irqs IH]; intros k t v r L So HF.
  { exists []. rewrite app_nil_r. done. }
  apply Forall_cons in HF as [Hirq HF]. cbn [hw_idle]. destruct L as [L Up].
  assert (∀ k1, drivers_only (λ x, fb_range fb x ∨ frame_area r x) k k1 → memory_up hhdm U F M root T PM k1) as Hup.
  { intros k1 Hdr. eapply memory_up_drivers; [|exact Up|exact Hdr].
    intros x f [Hx|Hx]; [by apply Hapart|]. apply (so_frames _ _ _ So). by eapply stack_frame. }
  ret_step interrupt_returns; [by apply awake_hlt|by eapply stack_can_enter| |exact Hirq| |].
  { intros x Hx. apply (so_screen _ _ _ So). by eapply stack_frame. }
  { intros k1 Hdr. by apply Hup in Hdr as [_ _ _ _ _ _ Hre]. }
  intros [[k1 t1] r1] (i & tail1 & -> & Hin & Hi & -> & L1 & Hdr). pose proof (Hup k1 Hdr) as Up1.
  eapply returns_mono; [eapply IH; [by split|by eapply stack_ok_after, drivers_only_ram|done]|].
  intros [[k2 t2] r2] (tail2 & -> & Hirqs & -> & L2). exists ([Hlt] ++ tail1 ++ tail2).
  rewrite !inputs_app, Hin. split; [by rewrite !app_assoc|]. split; [cbn; congruence|]. split; [done|exact L2].
Qed.
End idle.

(** * The scheduler on the kernel's heap *)

Section scheduler.
Context `{!SlabLayout}.

(** The boot flow about to call [sched_init], with the registers [c]. *)
Definition kernel_sched k (c : context) : sched (slab_state * buddy_state) := {|
  Sched.current := 0; Sched.next_id := 0; Sched.heap := (kn_slab k, kn_buddy k); Sched.ram := kn_ram k;
  Sched.regs := c |}.

(** The heap of the kernel whose buddy allocator has the frames [M]. *)
#[local] Instance kernel_heap hhdm M : HeapLaws (slab_state * buddy_state) :=
  slab_heap_laws hhdm (BlockLaws0 := buddy_laws hhdm M).

Lemma heap_up hhdm U F M root T PM k :
  memory_up hhdm U F M root T PM k →
  heap_inv (HeapLaws := kernel_heap hhdm M) (kn_slab k, kn_buddy k) (kn_ram k) [].
Proof.
  intros [_ _ _ _ R _ _]. exists (replicate classes []), []. split; [exact R|]. split; [apply NoDup_nil_2|].
  split; [by intros a size ?%elem_of_nil|]. intros a n [(i & gs & g & [-> _]%lookup_replicate & Hg & _)|(b & Hb & _)].
  - by apply elem_of_nil in Hg.
  - by apply elem_of_nil in Hb.
Qed.

Lemma page_available bs (m : mem) L M bs' m' p :
  Buddy.heap bs m L [] M → M ≠ ∅ → buddy_alloc bs m 0 = Ok (bs', m', p) → p ≠ 0.
Proof.
  intros Hp (f & Hf)%set_choose_L Hal ->. pose proof (hp_tiled _ _ _ _ _ Hp) as HT.
  pose proof (buddy_alloc_returns bs m L [] M 0 Hp ltac:(unfold orders; lia)) as Hr. change (Z.of_nat 0) with 0 in Hr. rewrite Hal in Hr.
  cbn [returns] in Hr. destruct (spec_alloc 0 L) as [[p L']|] eqn:Hsp.
  { destruct Hr as (<- & H' & _). destruct (heap_block_backed _ _ _ _ _ _ _ H' (list_elem_of_here _ _)) as (_ & _ & ? & _). lia. }
  destruct (tiles_cover _ _ _ (ti_tiles _ _ _ HT) Hf) as ([q o] & Hb & _). rewrite app_nil_r in Hb.
  by eapply spec_alloc_none; [exact HT|exact Hsp|apply Nat.le_0_l|exact Hb].
Qed.

(** While the buddy allocator has a frame at all, a small object can be had. *)
Lemma node_available hhdm U F M root T PM k h m n :
  memory_up hhdm U F M root T PM k → M ≠ ∅ →
  heap_alloc (kn_slab k, kn_buddy k) (kn_ram k) sizeof_task = Ok (h, m, n) → n ≠ 0.
Proof.
  intros [_ _ _ _ R _ _] HM Hal ->. cbn [heap_alloc slab_heap fst snd] in Hal.
  destruct (returns_inv _ _ (kmalloc_returns (BlockLaws0 := buddy_laws hhdm M) hhdm _ _ _ _ _ sizeof_task R
    ltac:(unfold sizeof_task; lia))) as ([[[st bs] m1] z] & Hrun & Hs).
  rewrite Hrun in Hal. injection Hal as _ _ ->.
  destruct Hs as [(_ & _ & _ & _ & [?|(o & Ho & Hnone)])|(G' & LG' & n & _ & ? & _)]; [done| |lia].
  destruct Ho as [[_ ->]|[? _]]; [|unfold sizeof_task in *; lia].
  destruct (sr_inv _ _ _ _ _ _ R) as (_ & L & Hp). by eapply page_available.
Qed.
Context (fb : limine_framebuffer) (hhdm : Z) (U F M : gset Z) (root : Z) (T : tabs) (PM : pmap) (stack : region).

(** The stack [kmain] was called on: physical memory that is none of the memory
    managers' nor the screen's. *)
Record boot_stack_ok k : Prop := {
  bs_range : 0 ≤ stack.1 ∧ stack.1 + stack.2 ≤ 2 ^ 64;
  bs_backed : backed (kn_ram k) stack.1 stack.2;
  bs_frames : off_frames hhdm U (in_region stack);
  bs_screen : ∀ x, in_region stack x → ¬ fb_range fb x;
  bs_null : kn_ram k !! 0 = None;
  bs_kmain : stack.1 ≤ Paging.rsp (vcpu (vmm_vm (kn_vmm k))) ≤ stack.1 + stack.2;
}.

Lemma boot_stack_idle k r : boot_stack_ok k → words_ok r → stack.1 + 192 ≤ g_rsp r ≤ stack.1 + stack.2 →
  stack_ok fb hhdm U stack k r.
Proof. intros [[Hlo _] Hb Hf Hs _ _] Hw Hroom. by split. Qed.

Lemma null_after P k k' : kn_ram k !! 0 = None → mods P (kn_ram k) (kn_ram k') → kn_ram k' !! 0 = None.
Proof.
  intros Hnull Hm. destruct (kn_ram k' !! 0) as [x|] eqn:Hx; [|done]. exfalso.
  destruct (proj2 (mods_dom _ _ _ Hm 0)) as [y Hy]; [by exists x|]. congruence.
Qed.

#[local] Existing Instance kernel_heap.
Lemma sched_up `{!SchedText} P k0 k c :
  memory_up hhdm U F M root T PM k → M ≠ ∅ → boot_stack_ok k0 → mods P (kn_ram k0) (kn_ram k) → context_ok c →
  ∃ σ cur, sched_init (kernel_sched k c) = Ok σ ∧ th_id cur = 0 ∧ th_base cur = 0 ∧
    Sched.regs σ = c ∧ rep (HeapLaws0 := kernel_heap hhdm M) stack σ cur [] [] ∧
    mods (heap_zone (HeapLaws := kernel_heap hhdm M)) (kn_ram k) (Sched.ram σ).
Proof.
  intros Up HM [[Hlo Hhi] Hb0 Hf _ Hnull0 _] Hm0 Hc. set (σ := kernel_sched k c).
  pose proof (mods_backed _ _ _ _ _ Hm0 Hb0) as Hb. pose proof (null_after _ _ _ Hnull0 Hm0) as Hnull.
  destruct (sched_init_returns (HeapLaws0 := kernel_heap hhdm M) stack σ [] (heap_up _ _ _ _ _ _ _ _ Up) Hc
    ltac:(cbn; lia) Hlo Hhi Hb) as (h & m & n & Hal & Hs); [|exact Hnull|].
  { intros x Hx (f & HfM & Hfx). destruct (mu_owned _ _ _ _ _ _ _ _ Up) as (_ & HMU & _).
    by apply (Hf x f Hx); [apply HMU|]. }
  rewrite decide_False in Hs by (by eapply node_available).
  apply returns_inv in Hs as (σ' & Hrun & cur & _ & Hid & Hbase & R & _ & Hregs & _ & Hm).
  by exists σ', cur.
Qed.
End scheduler.

(** * A machine with 6 MiB more *)

Module system_demo.
#[local] Existing Instances demo.limine0 vmm_demo.image0 vmm_demo.text0.

(** The small machine's memory, and frames enough for the buddy allocator to get some. *)
Definition high_region : limine_memmap_entry := {| Pmm.base := 0x200000; length_ := 0x600000; type := 0 |}.
Definition memmap : list limine_memmap_entry := boot_demo.memmap ++ [high_region].

Lemma large_map_ok : Pmm.memmap_ok memmap.
Proof.
  split; [|apply (bool_decide_unpack _); by vm_compute].
  intros e Hin Hu. repeat (apply elem_of_cons in Hin as [->|Hin]); [..|by apply not_elem_of_nil in Hin];
    done.
Qed.

Lemma frames_small f : f ∈ memmap_frames memmap → 0 ≤ f < 8 ∨ 512 ≤ f < 2048.
Proof. revert f. apply Forall_forall, (bool_decide_unpack _). by vm_compute. Qed.

Lemma space_ok : (1024 + size (tables_for (kernel_space vmm_demo.kaddr0 memmap demo.hhdm)) + 1 < size (free_at_boot memmap))%nat.
Proof. apply (bool_decide_unpack _). by vm_compute. Qed.

Lemma small_in e : e ∈ boot_demo.memmap → e ∈ memmap.
Proof. intros He. apply elem_of_app. by left. Qed.

(** A memory with all that. *)
Lemma memory : ∃ m, boot_demo.machine_ok memmap m ∧ backed m (demo.hhdm + 0x8000) 0x2000 ∧ m !! 0 = None.
Proof.
  destruct (Z_of_nat_complete 0x600000 ltac:(lia)) as [n Hn].
  set (m0 := ram_fill (demo.hhdm + 0x200000) n demo.ram). exists (boot_demo.add_ram m0).
  assert (boot_demo.stack_region ∈ memmap ∧ boot_demo.fb_region ∈ memmap) as [Hs Hf]
    by (split; apply small_in; [by do 3 right; left|by do 4 right; left]).
  assert (∀ v, is_Some (boot_demo.add_ram m0 !! v) → ∃ e, e ∈ memmap ∧ range (Pmm.base e + demo.hhdm) (length_ e) v) as Hin.
  { intros v. apply boot_demo.add_ram_in; [done|done|]. intros [Hv|Hv]%ram_fill_in.
    - rewrite <- Hn in Hv. exists high_region. split; [by do 5 right; left|exact Hv].
    - apply boot_demo.demo_ram_in; [|exact Hv]. intros e He. apply small_in, elem_of_app. by left. }
  assert (hhdm_backs m0 demo.hhdm memmap) as Hback.
  { intros e [[He|He]%elem_of_app|He]%elem_of_app Hu; [exact (boot_demo.backs_fill _ _ _ _ demo.hhdm_backs e He Hu)| |].
    - repeat (apply elem_of_cons in He as [->|He]); [done..|by apply elem_of_nil in He].
    - apply list_elem_of_singleton in He as ->. cbn [Pmm.base length_ high_region].
      change (u64 (0x200000 + demo.hhdm)) with (demo.hhdm + 0x200000). apply ram_fill_backed; lia. }
  clearbody m0. split; [|split; [by apply boot_demo.add_ram_backed; lia|]].
  - split; [apply boot_demo.add_ram_backed; lia|by do 2 apply boot_demo.backs_fill| |exact Hin|exact frames_small| | | |done].
    + split; [exact large_map_ok|]. repeat constructor; cbn; lia.
    + clear. by vm_compute.
    + clear. intros e a He Ha. repeat (apply elem_of_cons in He as [->|He]); [cbn in Ha; lia..|by apply elem_of_nil in He].
    + clear. pose proof space_ok. lia.
  - apply eq_None_not_Some. intros Hv. destruct (Hin 0 Hv) as (e & He & Hx). clear -He Hx.
    repeat (apply elem_of_cons in He as [->|He]); [unfold range, demo.hhdm in Hx; cbn in Hx; lia..|by apply elem_of_nil in He].
Qed.

(** The boot stack, with the registers of [kmain]'s loop on it. *)
Definition stack : region := (demo.hhdm + 0x8000, 0x2000).
Definition r : Stubs.regs := {|
  g_rax := 1; g_rbx := 2; g_rcx := 3; g_rdx := 4; g_rsi := 5; g_rdi := 6; g_rbp := 7; g_r8 := 8; g_r9 := 9;
  g_r10 := 10; g_r11 := 11; g_r12 := 12; g_r13 := 13; g_r14 := 14; g_r15 := 15;
  g_rip := 0xFFFFFFFF80001234; g_cs := 0x28; g_rflags := 0x202; g_rsp := demo.hhdm + 0x9ef8; g_ss := 0x30 |}.

Definition regs0 : context := {|
  Sched.rip := 0xFFFFFFFF80001234; Sched.rsp := demo.hhdm + 0x9ef8; Sched.rbx := 1; Sched.rbp := 2;
  Sched.r12 := 3; Sched.r13 := 4; Sched.r14 := 5; Sched.r15 := 6 |}.

Lemma boot_regs_ok : context_ok regs0.
Proof. apply (bool_decide_unpack _). by vm_compute. Qed.

Lemma r_ok : words_ok r.
Proof. apply (bool_decide_unpack _). by vm_compute. Qed.

Lemma boot_stack_ok0 m : backed m (demo.hhdm + 0x8000) 0x2000 → m !! 0 = None →
  boot_stack_ok boot_demo.fb0 demo.hhdm (list_to_set (memmap_frames memmap)) stack (boot_demo.kernel0 m).
Proof.
  intros Hb Hnull. split; [done|exact Hb| | |exact Hnull|done].
  - intros x f Hx Hf Hfx. apply elem_of_list_to_set in Hf. pose proof (frames_small f Hf).
    unfold frame_mem, in_region, range, demo.hhdm, PMM_FRAME_SIZE in *. cbn in Hx. unfold demo.hhdm in Hx. lia.
  - intros x. unfold in_region, fb_range, range. cbn. lia.
Qed.
End system_demo.
#[local] Existing Instances demo.limine0 vmm_demo.image0 vmm_demo.text0 arch_demo.machine arch_demo.machine_pic
  arch_demo.machine_uart arch_demo.text boot_demo.layout0 sched_demo.text0.

(** * What the parts promise together *)

(** What a user sees when the boot is done. *)
Definition first_view (fb : limine_framebuffer) k t : view := {|
  vw_ticks := ticks (kn_timer k);
  vw_screen := write_text fb blank (banner ++ devices_text ++ live_text);
  vw_line := sent (uart_of t) |}.

(** C3. From power-on to any moment after it.  [kmain] reaches its loop, on the boot
    stack; from then on every interrupt of an open line that finds the loop's registers,
    with 192 bytes of that stack left, taken by the CPU through the stubs, the
    dispatcher, the driver and the end of interrupt, returns to the very registers it
    interrupted, has the effect of its input on tick count, screen and serial line and
    no other, and leaves the kernel ready for the next.  From the load of cr3 in
    vmm_init on, all of it, frames and framebuffer included, goes through the page
    tables the kernel made, which at every moment reach all the memory there is. *)
Theorem kernel_runs {Ma : Machine} {Ua : Uart} {Pi : Pic} {Lim : Limine} {KI : KernelImage} {PT : PagingText}
    {SL : SlabLayout} {AT : ArchText} b k t fb memmap hhdm kaddr stack r :
  let U := list_to_set (memmap_frames memmap) in
  boot_ok b k t fb memmap hhdm kaddr → boot_stack_ok fb hhdm U stack k →
  words_ok r → stack.1 + 192 ≤ g_rsp r ≤ stack.1 + stack.2 →
  ∃ k' t' F M root T, kmain b k t = Ok (k', t') ∧ running k' t' ∧
    ∀ irqs, Forall (λ irq, 0 ≤ irq < 16 ∧ line_open (pic_of t') irq = true) irqs →
    ∃ k2 tail, hw_idle k' t' r irqs = Ok (k2, t' ++ tail, r) ∧ line_of <$> inputs tail = irqs ∧
      all_reached (vmm_vm (kn_vmm k2)) ∧
      live fb hhdm U F M root T (add_pages ∅ (kernel_space kaddr memmap hhdm)) k2 (t' ++ tail)
        (foldl (view_step fb) (first_view fb k' t') (inputs tail)).
Proof.
  intros U B Bs Hw Hroom. destruct (returns_inv _ _ (kmain_returns b k t fb memmap hhdm kaddr B))
    as ([k' t'] & Hrun & F & M & root & T & counts & R & S & Up & _ & Hk & _).
  exists k', t', F, M, root, T. split; [exact Hrun|]. split; [exact R|]. intros irqs HF.
  assert (live fb hhdm U F M root T (add_pages ∅ (kernel_space kaddr memmap hhdm)) k' t' (first_view fb k' t')) as L
    by (split; [by split|exact Up]).
  pose proof (open_lines _ _ irqs R HF) as HF'. pose proof (boot_stack_idle fb hhdm U stack k r Bs Hw Hroom) as So.
  destruct (returns_inv _ _ (hw_idle_returns fb hhdm U F M root T _ (bo_apart _ _ _ _ _ _ _ B) stack irqs k' t' _ r L
    (stack_ok_after _ _ _ _ _ _ _ _ So Hk) HF')) as ([[k2 t2] r2] & Hidle & tail & -> & Hin & -> & L2).
  exists k2, tail. do 2 (split; [done|]). split; [|exact L2]. exact (mu_reached _ _ _ _ _ _ _ _ (lv_memory _ _ _ _ _ _ _ _ _ _ _ L2)).
Qed.

(** Keys and ticks. *)
Lemma kernel_runs_witness : ∃ m k' t' k2 tail,
  kmain (boot_demo.info system_demo.memmap) (boot_demo.kernel0 m) [] = Ok (k', t') ∧
  hw_idle k' t' system_demo.r [1; 0; 1] = Ok (k2, t' ++ tail, system_demo.r) ∧ line_of <$> inputs tail = [1; 0; 1].
Proof.
  destruct system_demo.memory as (m & Hok & Hb & Hnull). exists m.
  destruct (kernel_runs _ _ _ _ _ _ _ system_demo.stack system_demo.r (boot_demo.machine_boot_ok _ _ Hok)
    (system_demo.boot_stack_ok0 m Hb Hnull) system_demo.r_ok ltac:(cbn; lia)) as (k' & t' & F & M & root & T & Hrun & R & Hall).
  destruct (Hall [1; 0; 1]) as (k2 & tail & Hidle & Hin & _).
  { rewrite (ru_pic _ _ R). repeat constructor; lia. }
  exists k', t', k2, tail. split; [exact Hrun|split; [exact Hidle|exact Hin]].
Defined.
