(* ===== verification/World.v ===== *)
(** Everything at once: tasks that compute, use the heap, are created and yield, and
    interrupts that come between and inside the yields, on the kernel as [kmain] leaves it.

    A [world] is the kernel's state with the scheduler's variables and the CPU's
    registers; [world_step] is one thing that can happen.  The scheduler runs on the
    kernel's own memory and heap, interrupts come in through the stubs on the stack of
    the task that runs.  A yield is not one step of the kernel but a run of [yield_on]:
    the steps of Switch.v with interrupts between them.  The invariant puts the
    components' invariants together. *)

From stdpp Require Import base list gmap sets relations.
From Stdlib Require Import ZArith Lia.
From S2P Require Import Prelude.
From S2P Require Import Mem.
From S2P Require Import Stack.
From S2P Require Import Pmm.
From S2P Require Import Blocks.
From S2P Require Import Buddy.
From S2P Require Import BlockAlloc.
From S2P Require Import Slab.
From S2P Require Import Heap.
From S2P Require Import Sched.
From S2P Require Import Switch.
From S2P Require Import Paging.
From S2P Require Import Io.
From S2P Require Import Serial.
From S2P Require Import Pic.
From S2P Require Import Arch.
From S2P Require Import Isr.
From S2P Require Import Vmm.
From S2P Require Import Console.
From S2P Require Import Drivers.
From S2P Require Import Kernel.
From S2P Require Import Boot.
From S2P Require Import Stubs.
From S2P Require Import System.

#[local] Coercion Z.of_nat : nat >-> Z.
Implicit Types (t : io) (k : kernel) (r : Stubs.regs) (U F M : gset Z) (A : list region).

(** * The world *)

(** The kernel, the trace of its I/O, the scheduler's variables, the CPU's registers,
    and the objects [kmalloc] handed to tasks. *)
Record world := {
  w_kernel : kernel;
  w_trace : io;
  w_current : Z;
  w_next_id : Z;
  w_regs : context;
  w_objects : list region;
}.

Implicit Types (w : world).

(** The scheduler's view of it, and the world after the scheduler or the heap ran. *)
Definition sched_of w : sched (slab_state * buddy_state) := {|
  Sched.current := w_current w; Sched.next_id := w_next_id w;
  Sched.heap := (kn_slab (w_kernel w), kn_buddy (w_kernel w)); Sched.ram := kn_ram (w_kernel w);
  Sched.regs := w_regs w |}.

Definition after_sched w (σ : sched (slab_state * buddy_state)) A : world := {|
  w_kernel := set_slab (set_buddy (with_ram (w_kernel w) (Sched.ram σ)) (Sched.heap σ).2) (Sched.heap σ).1;
  w_trace := w_trace w; w_current := Sched.current σ; w_next_id := Sched.next_id σ; w_regs := Sched.regs σ;
  w_objects := A |}.

Definition after_compute w (m : mem) (c : context) : world := {|
  w_kernel := with_ram (w_kernel w) m; w_trace := w_trace w; w_current := w_current w; w_next_id := w_next_id w;
  w_regs := c; w_objects := w_objects w |}.

(** The registers a context switch deals with. *)
Definition callee_saved r : context := {|
  Sched.rip := g_rip r; Sched.rsp := g_rsp r; Sched.rbx := g_rbx r; Sched.rbp := g_rbp r;
  Sched.r12 := g_r12 r; Sched.r13 := g_r13 r; Sched.r14 := g_r14 r; Sched.r15 := g_r15 r |}.

Definition after_interrupt w k t r : world := {|
  w_kernel := k; w_trace := t; w_current := w_current w; w_next_id := w_next_id w;
  w_regs := callee_saved r; w_objects := w_objects w |}.

(** The world once a yield has ended as [y]. *)
Definition after_yield w k t (y : yielding) : world := {|
  w_kernel := k; w_trace := t; w_current := y_current y; w_next_id := w_next_id w;
  w_regs := y_regs y; w_objects := w_objects w |}.

(** The CPU's registers while the current task runs, with room on its stack [s] for
    the frame of an interrupt, alignment included. *)
Record interrupted w (s : region) r : Prop := {
  in_words : words_ok r;
  in_room : s.1 + 192 ≤ g_rsp r ≤ s.1 + s.2;
  in_task : callee_saved r = w_regs w;
}.

(** What a yield goes on with after an interrupt.  Its rip is the [y_pc]. *)
Definition resumed (y : yielding) r : yielding :=
  at_regs y (y_pc y) (set_rip (callee_saved r) (Sched.rip (y_regs y))).

Section steps.
Context `{!Machine, !ArchText, !SlabLayout, !SchedText} (boot : region).

(** A yield on the kernel: its steps, and interrupts of open lines between them. *)
Inductive yield_on (ret : Z) : kernel * io * yielding → kernel * io * yielding → Prop :=
  | yo_step k t y m y' :
      ¬ finished y → exec_yield ret (kn_ram k) y = Ok (m, y') → yield_on ret (k, t, y) (with_ram k m, t, y')
  | yo_interrupt k t y r irq k' t' r' :
      ¬ finished y → words_ok r → resumed y r = y → 0 ≤ irq < 16 → line_open (pic_of t) irq = true →
      interrupt k t r irq = Ok (k', t', r') → yield_on ret (k, t, y) (k', t', resumed y r').

(** Where the yield of a world begins. *)
Definition yield_from w : kernel * io * yielding := (w_kernel w, w_trace w, start_yield (sched_of w)).

(** What can happen: the running task computes, on its stack and in its objects; it
    allocates or frees memory; it creates a task; it yields, with interrupts on the way;
    or an interrupt of an open line comes while it computes. *)
Inductive world_step : world → world → Prop :=
  | ws_compute w s P m c :
      own_stack boot (sched_of w) s → mods P (kn_ram (w_kernel w)) m →
      (∀ x, P x → in_region s x ∨ in_regions (w_objects w) x) → context_ok c →
      world_step w (after_compute w m c)
  | ws_alloc w size h m a :
      0 ≤ size ≤ 2 ^ 63 - 16 → heap_alloc (heap (sched_of w)) (kn_ram (w_kernel w)) size = Ok (h, m, a) →
      world_step w (after_sched w (set_heap (sched_of w) h m)
        (if a =? 0 then w_objects w else (a, size) :: w_objects w))
  | ws_free w a n A h m :
      w_objects w ≡ₚ (a, n) :: A → heap_free (heap (sched_of w)) (kn_ram (w_kernel w)) a = Ok (h, m) →
      world_step w (after_sched w (set_heap (sched_of w) h m) A)
  | ws_create w entry σ a :
      0 ≤ entry < 2 ^ 64 → task_create (sched_of w) entry = Ok (σ, a) →
      world_step w (after_sched w σ (w_objects w))
  | ws_yield w s ret k t y :
      own_stack boot (sched_of w) s → s.1 + 248 ≤ Sched.rsp (w_regs w) ≤ s.1 + s.2 → 0 ≤ ret < 2 ^ 64 →
      rtc (yield_on ret) (yield_from w) (k, t, y) → finished y → world_step w (after_yield w k t y)
  | ws_interrupt w s r irq k t r' :
      own_stack boot (sched_of w) s → interrupted w s r →
      0 ≤ irq < 16 → line_open (pic_of (w_trace w)) irq = true →
      interrupt (w_kernel w) (w_trace w) r irq = Ok (k, t, r') →
      world_step w (after_interrupt w k t r').

(** At any point of a yield its next step can be taken, with fewer to go then, and an
    interrupt returns to the very registers it interrupted. *)
Definition yield_goes_on ret (p : kernel * io * yielding) : Prop :=
  let '(k, t, y) := p in
  ¬ finished y →
  (∃ m y', exec_yield ret (kn_ram k) y = Ok (m, y') ∧ (remaining y' < remaining y)%nat) ∧
  ∀ r irq, words_ok r → resumed y r = y → 0 ≤ irq < 16 → line_open (pic_of t) irq = true →
    ∃ k' t', interrupt k t r irq = Ok (k', t', r).

(** Whatever is called, however it is called, comes back; an interrupt to the very
    registers it interrupted. *)
Record calls_return w : Prop := {
  cr_alloc size : 0 ≤ size ≤ 2 ^ 63 - 16 →
    ∃ h m a, heap_alloc (heap (sched_of w)) (kn_ram (w_kernel w)) size = Ok (h, m, a);
  cr_free a n : (a, n) ∈ w_objects w →
    ∃ h m, heap_free (heap (sched_of w)) (kn_ram (w_kernel w)) a = Ok (h, m);
  cr_create entry : 0 ≤ entry < 2 ^ 64 → ∃ σ a, task_create (sched_of w) entry = Ok (σ, a);
  cr_yield s ret p : own_stack boot (sched_of w) s → s.1 + 248 ≤ Sched.rsp (w_regs w) ≤ s.1 + s.2 →
    0 ≤ ret < 2 ^ 64 → rtc (yield_on ret) (yield_from w) p → yield_goes_on ret p;
  cr_interrupt s r irq : own_stack boot (sched_of w) s → interrupted w s r →
    0 ≤ irq < 16 → line_open (pic_of (w_trace w)) irq = true →
    ∃ k t, interrupt (w_kernel w) (w_trace w) r irq = Ok (k, t, r);
}.
End steps.

(** The boot flow about to call [sched_init]. *)
Definition boot_world k t (c : context) : world := {|
  w_kernel := k; w_trace := t; w_current := 0; w_next_id := 0; w_regs := c; w_objects := [] |}.

Lemma sched_of_after w σ A : sched_of (after_sched w σ A) = σ.
Proof. by destruct σ as [? ? [] ? ?]. Qed.

Lemma kn_ram_after w σ A : kn_ram (w_kernel (after_sched w σ A)) = Sched.ram σ.
Proof. done. Qed.

(** * The invariant *)

Section invariant.
Context `{!Machine, !Uart, !ArchText, !SlabLayout, !SchedText}.
Context (fb : limine_framebuffer) (hhdm : Z) (U F M : gset Z) (root : Z) (T : tabs) (PM : pmap) (stack : region).
Context (t0 : io) (v0 : view).

#[local] Instance heap0 : HeapLaws (slab_state * buddy_state) := kernel_heap hhdm M.

(** The memory managers below the heap. *)
Record vm_up (vm : vmm) : Prop := {
  vu_vm : vm_inv (vmm_vm vm) U F root T PM;
  vu_hhdm : hhdm_offset (vmm_vm vm) = hhdm;
  vu_cpu : cr3 (vcpu (vmm_vm vm)) = root * PMM_FRAME_SIZE ∧ tlb (vcpu (vmm_vm vm)) = ∅ ∧
    kernel_pml4 vm = root * PMM_FRAME_SIZE;
  vu_bitmap x : bitmap_area (pmm (vmm_vm vm)) x → ∃ f, f ∈ U ∧ (f ∉ M) ∧ frame_mem hhdm f x;
  vu_reached : all_reached (vmm_vm vm);
}.

(** After the boot and [t0], the user saw [v0]; [tail] has happened since. *)
Record kernel_up k t : Prop := {
  ku_seen : ∃ tail, t = t0 ++ tail ∧ awake fb k t (foldl (view_step fb) v0 (inputs tail));
  ku_vm : vm_up (kn_vmm k);
}.

(** Threads that do not run have room for an interrupt when they are resumed. *)
Record world_ok w : Prop := {
  wo_up : kernel_up (w_kernel w) (w_trace w);
  wo_tasks : ∃ cur ready, rep stack (sched_of w) cur ready (w_objects w) ∧ ∀ u, u ∈ ready → roomy stack u;
}.

(** What the boot stack and the memory managers' frames are apart from. *)
Record apart_ok : Prop := {
  ao_screen : off_frames hhdm U (fb_range fb);
  ao_stack : off_frames hhdm U (in_region stack);
  ao_both x : in_region stack x → ¬ fb_range fb x;
  ao_heap : M ⊆ U;
  ao_tables q f u : T !! q = Some (f, u) → f ∉ M;
}.

Context (Hap : apart_ok) (Htr : 0 ≤ task_trampoline < 2 ^ 64).

(** What tasks may write to. *)
#[local] Abbreviation task_memory x := (heap_zone x ∨ in_region stack x).

Lemma task_memory_screen x : task_memory x → ¬ fb_range fb x.
Proof.
  intros [(f & Hf & Hfx)|Hx]; [|by apply (ao_both Hap)]. intros Hfb.
  apply (ao_screen Hap x f Hfb); [by apply (ao_heap Hap)|exact Hfx].
Qed.

(** Neither it nor the framebuffer is memory that physical or virtual memory management
    relies on. *)
Lemma task_memory_frames x f : task_memory x ∨ fb_range fb x → f ∈ U → f ∉ M → ¬ frame_mem hhdm f x.
Proof.
  intros [[(g & Hg & Hgx)|Hx]|Hx] HU HM Hfx.
  - apply (frames_apart hhdm f g x); [by intros ->|done|exact Hgx].
  - by apply (ao_stack Hap x f).
  - by apply (ao_screen Hap x f).
Qed.

Lemma vm_up_mods P k m :
  vm_up (kn_vmm k) → mods P (kn_ram k) m → (∀ x, P x → task_memory x ∨ fb_range fb x) → vm_up (kn_vmm (with_ram k m)).
Proof.
  intros [V Hh Hc Hb Hre] Hm HP.
  assert (vm_inv (vmm_vm (kn_vmm (with_ram k m))) U F root T PM) as V'.
  { eapply (vm_inv_keep _ _ _ _ _ _ _ (pmm (vmm_vm (kn_vmm k)))); [exact V| |done|done|exact Hm|].
    - eapply rep_mods; [apply (vi_pmm _ _ _ _ _ _ V)|exact Hm|]. intros x HPx Hx. destruct (Hb x Hx) as (f & Hf & HfM & Hfx).
      by apply (task_memory_frames x f); [apply HP|..].
    - intros q f u x Hq HPx. rewrite Hh. destruct (vi_tables _ _ _ _ _ _ V q f u Hq) as (HfU & _).
      apply task_memory_frames; [by apply HP|done|by eapply (ao_tables Hap)]. }
  split; [exact V'|done..|]. destruct Hc as [Hc _].
  exact (all_reached_mods P _ (vmm_vm (kn_vmm (with_ram k m))) _ _ _ _ _ _ _ V V' Hc Hc eq_refl Hm Hre).
Qed.

Lemma awake_heap k t v bs st : awake fb k t v → awake fb (set_slab (set_buddy k bs) st) t v.
Proof. intros [R [D Hr Hg] Ht Hl]. split; [by destruct R|by split|done|done]. Qed.

(** Writes to the tasks' memory. *)
Lemma kernel_up_mods P k t m :
  kernel_up k t → mods P (kn_ram k) m → (∀ x, P x → task_memory x) → kernel_up (with_ram k m) t.
Proof.
  intros [(tail & Ht & Haw) Hvm] Hm HP. split.
  - exists tail. split; [done|]. eapply awake_ram; [exact Haw|exact Hm|]. intros x Hx. by apply task_memory_screen, HP.
  - eapply vm_up_mods; [done|exact Hm|]. intros x Hx. left. by apply HP.
Qed.

(** Whatever the scheduler and the heap then are. *)
Lemma after_sched_ok P w σ A cur ready :
  kernel_up (w_kernel w) (w_trace w) → mods P (kn_ram (w_kernel w)) (Sched.ram σ) → (∀ x, P x → task_memory x) →
  rep stack σ cur ready A → (∀ u, u ∈ ready → roomy stack u) → world_ok (after_sched w σ A).
Proof.
  intros Hup Hm HP R Hroom. destruct (kernel_up_mods _ _ _ _ Hup Hm HP) as [(tail & Ht & Haw) Hvm]. split; [split|].
  - exists tail. split; [done|]. by apply awake_heap.
  - exact Hvm.
  - exists cur, ready. by rewrite sched_of_after.
Qed.

(** Interrupts, on a stack in the tasks' memory. *)
Lemma kernel_interrupt_returns k t r irq :
  kernel_up k t → can_enter (kn_ram k) r → (∀ x, frame_area r x → task_memory x) →
  0 ≤ irq < 16 → line_open (pic_of t) irq = true →
  returns (interrupt k t r irq) (λ '(k', t', r'), r' = r ∧ kernel_up k' t' ∧
    drivers_only (λ x, fb_range fb x ∨ frame_area r x) k k').
Proof.
  intros [(tail & Ht & Haw) Hvm] Hce Htask Hirq Hopen.
  assert (Forall (λ irq, irq = 0 ∨ irq = 1) [irq]) as HF.
  { eapply open_lines; [apply (aw_running _ _ _ _ Haw)|]. by constructor. }
  eapply returns_mono; [apply (interrupt_returns fb); [exact Haw|exact Hce| |by apply Forall_inv in HF|]|].
  { intros x Hx. by apply task_memory_screen, Htask. }
  { intros k' (tm & con & m & -> & Hm). apply (vu_reached (kn_vmm (with_ram k m))). eapply vm_up_mods; [done|exact Hm|].
    intros x [Hx|Hx]; [by right|left; by apply Htask]. }
  intros [[k' t'] r'] (i & tail' & -> & Hin & _ & -> & Haw' & Hdr). split; [done|]. split; [|exact Hdr].
  destruct Hdr as (tm & con & m & -> & Hm). split.
  - exists (tail ++ tail'). rewrite Ht, <- app_assoc. split; [done|].
    rewrite inputs_app, foldl_app, Hin. by rewrite Ht, <- app_assoc in Haw'.
  - change (vm_up (kn_vmm (with_ram k m))). eapply vm_up_mods; [done|exact Hm|].
    intros x [Hx|Hx]; [by right|left; by apply Htask].
Qed.

Lemma compute_ok P w s m c :
  world_ok w → own_stack stack (sched_of w) s → mods P (kn_ram (w_kernel w)) m →
  (∀ x, P x → in_region s x ∨ in_regions (w_objects w) x) → context_ok c → world_ok (after_compute w m c).
Proof.
  intros W Hs Hm HP Hc. pose proof W as [_ (cur & ready & R & Hready)]. rewrite (own_stack_of _ _ _ _ _ _ R Hs) in HP.
  change (world_ok (after_sched w {| Sched.current := w_current w; Sched.next_id := w_next_id w;
    Sched.heap := heap (sched_of w); Sched.ram := m; Sched.regs := c |} (w_objects w))).
  eapply after_sched_ok; [apply W|exact Hm| |eapply (rep_compute stack P (sched_of w)); [exact R|exact Hm| |exact Hc]|exact Hready].
  - intros x Hx. destruct (HP x Hx) as [Hs'|HA].
    + eapply footprint_zone; [exact R|by left|by apply stack_in_footprint].
    + left. eapply heap_inv_zone; [apply (rq_heap _ _ _ _ _ R)|]. apply in_regions_app. by right.
  - intros x Hx. destruct (HP x Hx); tauto.
Qed.

Lemma alloc_returns w size :
  world_ok w → 0 ≤ size ≤ 2 ^ 63 - 16 →
  returns (heap_alloc (heap (sched_of w)) (kn_ram (w_kernel w)) size) (λ '(h, m, a),
    world_ok (after_sched w (set_heap (sched_of w) h m) (if a =? 0 then w_objects w else (a, size) :: w_objects w))).
Proof.
  intros W Hsize. pose proof W as [_ (cur & ready & R & Hready)].
  eapply returns_mono; [by apply (rep_alloc stack (sched_of w) cur ready)|]. intros [[h m] a] [Hm R'].
  eapply after_sched_ok; [apply W|exact Hm|by left|exact R'|exact Hready].
Qed.

Lemma free_returns w a n A :
  world_ok w → w_objects w ≡ₚ (a, n) :: A →
  returns (heap_free (heap (sched_of w)) (kn_ram (w_kernel w)) a) (λ '(h, m),
    world_ok (after_sched w (set_heap (sched_of w) h m) A)).
Proof.
  intros W HA. pose proof W as [_ (cur & ready & R & Hready)].
  eapply returns_mono; [eapply (rep_free stack (sched_of w) cur ready A a n), rep_perm; [exact HA|exact R]|].
  intros [h m] [Hm R']. eapply after_sched_ok; [apply W|exact Hm|by left|exact R'|exact Hready].
Qed.

Lemma create_returns w entry :
  world_ok w → 0 ≤ entry < 2 ^ 64 →
  returns (task_create (sched_of w) entry) (λ '(σ, _), world_ok (after_sched w σ (w_objects w))).
Proof.
  intros W Hentry. pose proof W as [_ (cur & ready & R & Hready)].
  eapply returns_mono; [by apply (task_create_returns stack (sched_of w) cur ready)|].
  intros [σ a] (_ & _ & Hm & Hcase).
  assert (mods heap_zone (Sched.ram (sched_of w)) (Sched.ram σ)) as Hz by (eapply mods_weaken; [exact Hm|by intros x [? _]]).
  destruct Hcase as [(_ & _ & R' & _)|(st & _ & Hst & _ & R' & _)];
    (eapply after_sched_ok; [apply W|exact Hz|by left|exact R'|]); [exact Hready|].
  intros t [Ht| ->%list_elem_of_singleton]%elem_of_app; [by apply Hready|]. by apply new_roomy.
Qed.

(** An interrupt's frame goes on the task's stack. *)
Lemma frame_on_stack w s r x : interrupted w s r → frame_area r x → in_region s x.
Proof. intros [_ Hroom _]. unfold frame_area, in_region, range. pose proof (Z.mod_pos_bound (g_rsp r) 16). lia. Qed.

Lemma interrupted_can_enter w s r cur ready A :
  rep stack (sched_of w) cur ready A → own_stack stack (sched_of w) s → interrupted w s r →
  can_enter (kn_ram (w_kernel w)) r.
Proof.
  intros R Hs [Hw Hroom _]. rewrite (own_stack_of _ _ _ _ _ _ R Hs) in Hroom.
  pose proof (Z.mod_pos_bound (g_rsp r) 16 ltac:(lia)).
  destruct (heap_stack stack _ _ _ _ cur R) as (Hlo & _ & Hb); [by left|].
  split; [exact Hw|lia|]. eapply backed_sub; [exact Hb|lia..].
Qed.

Lemma world_interrupt_returns w s r irq :
  world_ok w → own_stack stack (sched_of w) s → interrupted w s r →
  0 ≤ irq < 16 → line_open (pic_of (w_trace w)) irq = true →
  returns (interrupt (w_kernel w) (w_trace w) r irq) (λ '(k, t, r'), r' = r ∧ world_ok (after_interrupt w k t r')).
Proof.
  intros W Hs Hi Hirq Hopen. pose proof W as [Hup (cur & ready & R & Hready)].
  assert (∀ x, frame_area r x → in_region (stack_of stack cur) x) as Hon.
  { intros x Hx. rewrite <- (own_stack_of _ _ _ _ _ _ R Hs). by eapply frame_on_stack. }
  eapply returns_mono; [apply kernel_interrupt_returns; [exact Hup|by eapply interrupted_can_enter| |exact Hirq|exact Hopen]|].
  { intros x Hx. eapply footprint_zone; [exact R|by left|]. by apply stack_in_footprint, Hon. }
  intros [[k t] r'] (-> & Hup' & tm & con & m & -> & Hm). split; [done|]. split; [exact Hup'|].
  exists cur, ready. split; [|exact Hready]. change (rep stack {| Sched.current := Sched.current (sched_of w);
    Sched.next_id := Sched.next_id (sched_of w); Sched.heap := heap (sched_of w); Sched.ram := m;
    Sched.regs := callee_saved r |} cur ready (w_objects w)).
  eapply rep_compute; [exact R|exact Hm| |].
  - intros x [Hx|Hx]; [right; right; left|left; by apply Hon].
    split; intros Hy; by apply (task_memory_screen x); [tauto|].
  - rewrite (in_task _ _ _ Hi). apply (rq_regs _ _ _ _ _ R).
Qed.

(** A yield of [w] that has come to [p]: the kernel is up, the heap has not changed, and
    the yield is under way. *)
Section yields.
Context w (cur : thread) (ready : list thread) (ret : Z).
Context (R : rep stack (sched_of w) cur ready (w_objects w)) (Hready : ∀ u, u ∈ ready → roomy stack u).
Context (Hroom : (stack_of stack cur).1 + 248 ≤ Sched.rsp (w_regs w) ≤ (stack_of stack cur).1 + (stack_of stack cur).2).
Context (Hret : 0 ≤ ret < 2 ^ 64).

Record yield_ok (p : kernel * io * yielding) : Prop := {
  yk_up : kernel_up p.1.1 p.1.2;
  yk_heap : kn_slab p.1.1 = kn_slab (w_kernel w) ∧ kn_buddy p.1.1 = kn_buddy (w_kernel w);
  yk_way : under_way stack (sched_of w) cur ready (w_objects w) ret (kn_ram p.1.1) p.2;
}.

Lemma yield_exec_returns k t y : yield_ok (k, t, y) → ¬ finished y →
  ∃ m y', exec_yield ret (kn_ram k) y = Ok (m, y') ∧ yield_ok (with_ram k m, t, y').
Proof.
  intros [Hup Hh Hy] Hnf.
  destruct (under_way_step stack (sched_of w) cur ready (w_objects w) ret R Hret Hroom Hready _ _ Hy Hnf)
    as (m & y' & Hex & Hy' & _ & Hm).
  exists m, y'. split; [exact Hex|]. split; [|exact Hh|exact Hy']. by eapply kernel_up_mods.
Qed.

(** Where the frame goes: rsp is that of the yield. *)
Lemma yield_frame y r x : resumed y r = y → frame_area r x → range (Sched.rsp (y_regs y) - 192) 192 x.
Proof.
  intros Hr. assert (Sched.rsp (y_regs y) = g_rsp r) as -> by by rewrite <- Hr.
  unfold frame_area, range. pose proof (Z.mod_pos_bound (g_rsp r) 16). lia.
Qed.

Lemma yield_interrupt_returns k t y r irq :
  yield_ok (k, t, y) → ¬ finished y → words_ok r → resumed y r = y →
  0 ≤ irq < 16 → line_open (pic_of t) irq = true →
  returns (interrupt k t r irq) (λ '(k', t', r'), r' = r ∧ yield_ok (k', t', y)).
Proof.
  intros [Hup Hh Hy] Hnf Hw Hr Hirq Hopen. cbn [fst snd] in *.
  destruct (under_way_room stack (sched_of w) cur ready (w_objects w) ret R Hroom Hready _ _ Hy Hnf) as (H8 & Hb & Hzone).
  pose proof (λ x, yield_frame y r x Hr) as Hframe.
  assert (Sched.rsp (y_regs y) = g_rsp r) as Hsp by by rewrite <- Hr. rewrite Hsp in H8, Hb.
  pose proof (Z.mod_pos_bound (g_rsp r) 16 ltac:(lia)).
  assert (can_enter (kn_ram k) r) as Hce.
  { split; [exact Hw|lia|]. eapply backed_sub; [exact Hb|lia..]. }
  eapply returns_mono; [apply kernel_interrupt_returns; [exact Hup|exact Hce| |exact Hirq|exact Hopen]|].
  { intros x Hx. by apply Hzone, Hframe. }
  intros [[k' t'] r'] (-> & Hup' & tm & con & m & -> & Hm). split; [done|]. split; [exact Hup'|exact Hh|].
  eapply (under_way_noise stack (sched_of w) cur ready (w_objects w) ret R Hroom Hready); [exact Hy|exact Hnf|exact Hm|].
  intros x [Hx|Hx]; [left|right; by apply Hframe]. split; intros Hz; by apply (task_memory_screen x); [tauto|].
Qed.

Lemma yield_on_ok p p' : yield_on ret p p' → yield_ok p → yield_ok p'.
Proof.
  intros [k t y m y' Hnf Hex|k t y r irq k' t' r' Hnf Hw Hr Hirq Hopen Hrun] Y.
  - destruct (yield_exec_returns k t y Y Hnf) as (m1 & y1 & Hex1 & Y1). rewrite Hex1 in Hex. injection Hex as <- <-. exact Y1.
  - pose proof (yield_interrupt_returns k t y r irq Y Hnf Hw Hr Hirq Hopen) as Hi. rewrite Hrun in Hi.
    destruct Hi as [-> Y']. by rewrite Hr.
Qed.

Lemma yield_from_ok p : kernel_up (w_kernel w) (w_trace w) → rtc (yield_on ret) (yield_from w) p → yield_ok p.
Proof.
  intros Hup. assert (yield_ok (yield_from w)) as Hstart.
  { split; [done|done|]. exact (under_way_start stack (sched_of w) cur ready (w_objects w) ret R Hret Hroom Hready). }
  revert p. apply rtc_ind_r; [exact Hstart|]. intros p p' _ Hs. by apply yield_on_ok.
Qed.

Lemma yield_ok_goes_on p : yield_ok p → yield_goes_on ret p.
Proof.
  destruct p as [[k t] y]. intros Y Hnf. split.
  - destruct (yield_exec_returns k t y Y Hnf) as (m & y' & Hex & _). exists m, y'. split; [done|]. by eapply exec_remaining.
  - intros r irq Hw Hr Hirq Hopen.
    destruct (returns_inv _ _ (yield_interrupt_returns k t y r irq Y Hnf Hw Hr Hirq Hopen)) as ([[k' t'] r'] & Hrun & -> & _).
    by exists k', t'.
Qed.

(** The next thread runs; the one that yielded had room. *)
Lemma yield_ends k t y : yield_ok (k, t, y) → finished y → world_ok (after_yield w k t y).
Proof.
  intros [Hup [Hs Hb] Hy] Hf. cbn [fst snd] in *. split; [exact Hup|].
  pose proof (under_way_end stack (sched_of w) cur ready (w_objects w) ret R Hroom Hready _ _ Hy Hf) as Hrot.
  assert (sched_of (after_yield w k t y) = yield_result (sched_of w) (kn_ram k) y) as Hso
    by (unfold sched_of, yield_result; cbn; by rewrite Hs, Hb).
  rewrite Hso. unfold rotated in Hrot. destruct ready as [|next rest].
  - destruct Hrot as [R' _]. by exists cur, [].
  - destruct Hrot as (R' & _ & _). eexists next, _. split; [exact R'|].
    intros u [Hu| ->%list_elem_of_singleton]%elem_of_app; [apply Hready; by right|].
    unfold roomy. cbn. change (stack_of stack (suspend _ _ _)) with (stack_of stack cur). lia.
Qed.
End yields.

(** Every step keeps the invariant. *)
Lemma step_ok w w' : world_step stack w w' → world_ok w → world_ok w'.
Proof.
  intros Hs W. destruct Hs as [w s P m c Hs Hm HP Hc|w size h m a Hsize Hrun|w a n A h m HA Hrun|w entry σ a Hentry Hrun
    |w s ret k t y Hs Hroom Hret Hrun Hf|w s r irq k t r' Hs Hi Hirq Hopen Hrun].
  - by eapply compute_ok.
  - pose proof (alloc_returns w size W Hsize) as Hr. by rewrite Hrun in Hr.
  - pose proof (free_returns w a n A W HA) as Hr. by rewrite Hrun in Hr.
  - pose proof (create_returns w entry W Hentry) as Hr. by rewrite Hrun in Hr.
  - pose proof W as [Hup (cur & ready & R & Hready)]. rewrite (own_stack_of _ _ _ _ _ _ R Hs) in Hroom.
    eapply (yield_ends w cur ready ret); try done. by apply yield_from_ok.
  - pose proof (world_interrupt_returns w s r irq W Hs Hi Hirq Hopen) as Hr. rewrite Hrun in Hr. apply Hr.
Qed.

Lemma calls_ok w : world_ok w → calls_return stack w.
Proof.
  intros W. split.
  - intros size Hsize. destruct (returns_inv _ _ (alloc_returns w size W Hsize)) as ([[h m] a] & Hrun & _). by exists h, m, a.
  - intros a n (A & HA)%elem_of_Permutation.
    destruct (returns_inv _ _ (free_returns w a n A W HA)) as ([h m] & Hrun & _). by exists h, m.
  - intros entry Hentry. destruct (returns_inv _ _ (create_returns w entry W Hentry)) as ([σ a] & Hrun & _). by exists σ, a.
  - intros s ret p Hs Hroom Hret Hp. pose proof W as [Hup (cur & ready & R & Hready)].
    rewrite (own_stack_of _ _ _ _ _ _ R Hs) in Hroom.
    eapply (yield_ok_goes_on w cur ready ret); try done. by apply yield_from_ok.
  - intros s r irq Hs Hi Hirq Hopen.
    destruct (returns_inv _ _ (world_interrupt_returns w s r irq W Hs Hi Hirq Hopen)) as ([[k t] r'] & Hrun & -> & _).
    by exists k, t.
Qed.

Lemma steps_ok w w' : rtc (world_step stack) w w' → world_ok w → world_ok w'.
Proof. induction 1; [done|]. intros W. by eapply IHrtc, step_ok. Qed.
End invariant.

(** The world the boot leaves to the first task. *)
Lemma first_world_ok `{!Machine, !Uart, !ArchText, !SlabLayout, !SchedText} fb hhdm U F M root T PM stack k t c σ cur v :
  off_frames hhdm U (fb_range fb) → off_frames hhdm U (in_region stack) → (∀ x, in_region stack x → ¬ fb_range fb x) →
  live fb hhdm U F M root T PM k t v →
  rep (HeapLaws0 := kernel_heap hhdm M) stack σ cur [] [] →
  mods (heap_zone (HeapLaws := kernel_heap hhdm M)) (kn_ram k) (Sched.ram σ) →
  apart_ok fb hhdm U M T stack ∧ world_ok fb hhdm U F M root T PM stack t v (after_sched (boot_world k t c) σ []).
Proof.
  intros Hfb Hst Hboth [Haw Up] R Hm. destruct Up as [V Hh Hc Hb _ (_ & HM & _ & HT) Hre].
  assert (apart_ok fb hhdm U M T stack) as Hap by by split. split; [done|].
  eapply after_sched_ok; [exact Hap| |exact Hm|by left|exact R|by intros ? ?%elem_of_nil]. split; [|by split].
  exists []. by rewrite app_nil_r.
Qed.

(** From power-on to any world: how [kmain] and [sched_init] end, and what holds from then on. *)
Lemma worlds_reached {Ma : Machine} {Ua : Uart} {Pi : Pic} {Lim : Limine} {KI : KernelImage} {PT : PagingText}
    {SL : SlabLayout} {AT : ArchText} {Tx : SchedText} b k t fb memmap hhdm kaddr stack c :
  let U := list_to_set (memmap_frames memmap) in
  boot_ok b k t fb memmap hhdm kaddr →
  (1024 + size (tables_for (kernel_space kaddr memmap hhdm)) + 1 < size (free_at_boot memmap))%nat →
  boot_stack_ok fb hhdm U stack k →
  context_ok c → 0 ≤ task_trampoline < 2 ^ 64 →
  ∃ k' t' F M root T σ, kmain b k t = Ok (k', t') ∧ sched_init (sched_of (boot_world k' t' c)) = Ok σ ∧
    ticks (kn_timer k') = ticks (kn_timer k) ∧ apart_ok fb hhdm U M T stack ∧
    ∀ w, rtc (world_step stack) (after_sched (boot_world k' t' c) σ []) w →
      world_ok fb hhdm U F M root T (add_pages ∅ (kernel_space kaddr memmap hhdm)) stack t' (first_view fb k' t') w.
Proof.
  intros U B Hsize Hst Hc Htr. destruct (returns_inv _ _ (kmain_returns b k t fb memmap hhdm kaddr B))
    as ([k' t'] & Hrun & F & M & root & T & counts & R & S & Up & [Htot Htab [Hres _]] & Hk & _ & _ & Hticks).
  assert (M ≠ ∅) as HM by (intros ->; rewrite size_empty in Htot; lia).
  destruct (sched_up fb _ _ _ _ _ _ _ stack _ k k' c Up HM Hst Hk Hc)
    as (σ & cur & Hi & _ & _ & _ & Rq & Hm).
  destruct (first_world_ok fb hhdm U F M root T _ stack k' t' c σ cur (first_view fb k' t') (bo_apart _ _ _ _ _ _ _ B)
    (bs_frames _ _ _ _ _ Hst) (bs_screen _ _ _ _ _ Hst) ltac:(split; [by split|exact Up]) Rq Hm) as [Hap W].
  exists k', t', F, M, root, T, σ. do 4 (split; [done|]). intros w Hw. by eapply steps_ok.
Qed.

(** * What the kernel promises *)

#[local] Existing Instances demo.limine0 vmm_demo.image0 vmm_demo.text0 arch_demo.machine arch_demo.machine_pic
  arch_demo.machine_uart arch_demo.text boot_demo.layout0 sched_demo.text0.

(** C5. The kernel multitasks.  [kmain] reaches its loop and [sched_init] makes the boot
    flow the first task.  From then on tasks may compute on their stacks and in their
    objects, allocate up to 2^63 - 16 bytes and free memory, create tasks and yield, and
    interrupts of open lines may come while they compute and inside a yield, between any
    two statements of sched_yield and instructions of context.asm, in any order; with
    192 bytes of stack left at an interrupt and 248 at a yield.  In every world reached,
    each such call returns, each step of a yield can be taken, and an interrupt returns
    to the very registers it interrupted; each task that does not run can be resumed, on
    a node and a stack no one else has; memory management is in order, and the page
    tables reach all the memory there is; the user has seen the effects of the inputs
    so far and nothing else. *)
Theorem kernel_multitasks {Ma : Machine} {Ua : Uart} {Pi : Pic} {Lim : Limine} {KI : KernelImage} {PT : PagingText}
    {SL : SlabLayout} {AT : ArchText} {Tx : SchedText} b k t fb memmap hhdm kaddr stack c :
  let U := list_to_set (memmap_frames memmap) in
  boot_ok b k t fb memmap hhdm kaddr →
  (1024 + size (tables_for (kernel_space kaddr memmap hhdm)) + 1 < size (free_at_boot memmap))%nat →
  boot_stack_ok fb hhdm U stack k →
  context_ok c → 0 ≤ task_trampoline < 2 ^ 64 →
  ∃ k' t' F M root T σ, kmain b k t = Ok (k', t') ∧ sched_init (sched_of (boot_world k' t' c)) = Ok σ ∧
    ∀ w, rtc (world_step stack) (after_sched (boot_world k' t' c) σ []) w →
      calls_return stack w ∧ all_reached (vmm_vm (kn_vmm (w_kernel w))) ∧
      world_ok fb hhdm U F M root T (add_pages ∅ (kernel_space kaddr memmap hhdm)) stack t' (first_view fb k' t') w.
Proof.
  intros U B Hsize Hst Hc Htr.
  destruct (worlds_reached b k t fb memmap hhdm kaddr stack c B Hsize Hst Hc Htr)
    as (k' & t' & F & M & root & T & σ & Hrun & Hi & _ & Hap & Hall).
  exists k', t', F, M, root, T, σ. split; [exact Hrun|]. split; [exact Hi|]. intros w Hw.
  pose proof (Hall w Hw) as W. split; [by eapply calls_ok|split; [|exact W]]. apply W.
Qed.

(** The scheduler on the boot stack: a task is created. *)
Lemma kernel_multitasks_witness : ∃ m k' t' σ σ' a,
  kmain (boot_demo.info system_demo.memmap) (boot_demo.kernel0 m) [] = Ok (k', t') ∧
  sched_init (sched_of (boot_world k' t' system_demo.regs0)) = Ok σ ∧ task_create σ sched_demo.entry0 = Ok (σ', a).
Proof.
  destruct system_demo.memory as (m & Hok & Hb & Hnull). exists m.
  destruct (kernel_multitasks _ _ _ _ _ _ _ system_demo.stack system_demo.regs0 (boot_demo.machine_boot_ok _ _ Hok)
    system_demo.space_ok (system_demo.boot_stack_ok0 m Hb Hnull)
    system_demo.boot_regs_ok sched_demo.text0_ok) as (k' & t' & F & M & root & T & σ & Hrun & Hi & Hall).
  destruct (Hall _ (rtc_refl _ _)) as [[_ _ Hcr _ _] _].
  destruct (Hcr sched_demo.entry0 ltac:(unfold sched_demo.entry0; lia)) as (σ' & a & Hcreate).
  rewrite sched_of_after in Hcreate. exists k', t', σ, σ', a. split; [exact Hrun|split; [exact Hi|exact Hcreate]].
Defined.
