(* ===== verification/Types.v ===== *)
(** The C types of the kernel's static variables.

    The model has integers without bounds and writes the wrap-around out where the code
    computes.  Here is the other half: in every world that can be reached, each static
    variable holds a value of the type it is declared with in the source. *)

From stdpp Require Import base list gmap sets relations.
From Stdlib Require Import ZArith Lia.
From S2P Require Import Prelude.
From S2P Require Import Mem.
From S2P Require Import Pmm.
From S2P Require Import Blocks.
From S2P Require Import Buddy.
From S2P Require Import BlockAlloc.
From S2P Require Import Slab.
From S2P Require Import Heap.
From S2P Require Import Sched.
From S2P Require Import Paging.
From S2P Require Import Io.
From S2P Require Import Serial.
From S2P Require Import Pic.
From S2P Require Import Arch.
From S2P Require Import Vmm.
From S2P Require Import Console.
From S2P Require Import Drivers.
From S2P Require Import Kernel.
From S2P Require Import Boot.
From S2P Require Import System.
From S2P Require Import World.

#[local] Coercion Z.of_nat : nat >-> Z.

(** * The types *)

(** The values of an unsigned type of [n] bits. *)
Definition word (n x : Z) : Prop := 0 ≤ x < 2 ^ n.

Record pmm_typed (ps : pmm_state) : Prop := {
  pt_bitmap : word 64 (bitmap ps);
  pt_bytes : word 64 (bitmap_bytes ps);
  pt_frames : word 64 (total_frames ps) ∧ word 64 (usable_frames ps) ∧ word 64 (free_frames ps);
  pt_hint : word 64 (next_hint ps);
}.

Record buddy_typed (bs : buddy_state) : Prop := {
  bt_heads : length (free_list bs) = 11%nat ∧ Forall (word 64) (free_list bs);
  bt_counts : length (free_count bs) = 11%nat ∧ Forall (word 64) (free_count bs);
  bt_hhdm : word 64 (g_hhdm bs);
}.

Definition cache_typed (c : kmem_cache) : Prop :=
  Forall (word 64) [obj_size c; slabs c; slab_count c; total_slots c; free_slots c].

Record slab_typed (st : slab_state) : Prop := {
  st_caches : length (caches st) = classes ∧ Forall cache_typed (caches st);
  st_hhdm : word 64 (slab_hhdm st);
}.

(** [glyph_data] points into the font. *)
Record console_typed (con : console) : Prop := {
  ct_base : word 64 (fb_base con);
  ct_words : Forall (word 32) [fb_width con; fb_height con; fb_pitch con; fb_bytes_pp con;
    glyph_count con; glyph_w con; glyph_h con; glyph_bytes con; gw_bytes con;
    cols con; rows con; cur_col con; cur_row con];
  ct_font : 0 ≤ glyph_data con < length font_psf;
}.

Record kernel_typed (k : kernel) : Prop := {
  kt_handlers : length (handlers (kn_arch k)) = 16%nat;
  kt_timer : word 64 (ticks (kn_timer k)) ∧ word 32 (tick_hz (kn_timer k));
  kt_console : console_typed (kn_console k);
  kt_pmm : pmm_typed (pmm (vmm_vm (kn_vmm k)));
  kt_vmm : word 64 (hhdm_offset (vmm_vm (kn_vmm k))) ∧ word 64 (kernel_pml4 (kn_vmm k));
  kt_buddy : buddy_typed (kn_buddy k);
  kt_slab : slab_typed (kn_slab k);
}.

Record world_typed (w : world) : Prop := {
  wt_kernel : kernel_typed (w_kernel w);
  wt_current : word 64 (w_current w);
  wt_next_id : word 32 (w_next_id w);
  wt_regs : context_ok (w_regs w);
}.

(** * Component by component *)

Lemma word_mono n m x : 0 ≤ n ≤ m → word n x → word m x.
Proof. unfold word. intros ? [? ?]. pose proof (Z.pow_le_mono_r 2 n m). lia. Qed.

Lemma displays_typed con m s : displays con m s → console_typed con.
Proof.
  intros [[Hb Hp Hw Hh Hbpp (Hg & Hgc & Hgw & Hgh & Hgb & Hrow) [Hc Hr] [Hcc Hcr]] _ _ _].
  assert (cols con ≤ fb_width con) by (rewrite Hc; div_lia).
  assert (rows con ≤ fb_height con) by (rewrite Hr; div_lia).
  split; unfold word; [nia| |].
  - rewrite Hbpp, Hgc, Hgw, Hgh, Hgb, Hrow. repeat constructor; lia.
  - rewrite Hg. by vm_compute.
Qed.

Section managers.
Context (hhdm : Z) (U M : gset Z).
Hypothesis Hhhdm : 0 ≤ hhdm ∧ hhdm + 2 ^ 46 + PMM_FRAME_SIZE ≤ 2 ^ 64.
Hypothesis Husable : ∀ f, f ∈ U → 0 < f ∧ (f + 1) * PMM_FRAME_SIZE ≤ 2 ^ 46.

(** The bitmap is in the frames [U], so its address and its length are words. *)
Lemma pmm_rep_typed ps m F : U ≠ ∅ →
  pmm_rep ps m U F → (∀ x, bitmap_area ps x → frames_mem hhdm U x) → pmm_typed ps.
Proof.
  intros [u Hu]%set_choose_L R Hbits. pose proof (rep_free_bound _ _ _ _ R). pose proof (rep_bound _ _ _ _ R).
  destruct R. specialize (rep_range u Hu).
  assert (∀ x, bitmap_area ps x → 0 < x < 2 ^ 64) as Hin.
  { intros x (f & Hf & Hx)%Hbits. destruct (Husable f Hf). unfold frame_mem, range, PMM_FRAME_SIZE in *. lia. }
  unfold bitmap_area, range in Hin. pose proof (Hin (bitmap ps) ltac:(lia)).
  pose proof (Hin (bitmap ps + bitmap_bytes ps - 1) ltac:(lia)).
  split; unfold word; lia.
Qed.

Lemma buddy_block_typed bs m A : buddy_block_inv hhdm M bs m A → buddy_typed bs.
Proof.
  intros (Hg & L & Hheap). pose proof (hp_rep _ _ _ _ _ Hheap) as [Hlen _ Hheads Hcounts _ _ _].
  split; [rewrite Hheads|rewrite Hcounts|rewrite Hg; unfold word, PMM_FRAME_SIZE in *; lia];
    (split; [by rewrite length_fmap|]).
  - apply Forall_fmap, Forall_forall. intros l _. destruct l as [|p l]; [done|]. apply u64_range.
  - by eapply free_lists_bounded.
Qed.

Lemma heap_slab_typed `{!SlabLayout} st bs m A :
  heap_inv (HeapLaws := kernel_heap hhdm M) (st, bs) m A → slab_typed st.
Proof.
  intros (G & LG & R & _). cbn in R. set (laws := buddy_laws hhdm M) in *.
  split; [|rewrite (sr_hhdm _ _ _ _ _ _ R); unfold word, PMM_FRAME_SIZE in *; lia].
  split; [apply R|]. apply Forall_lookup. intros i c Hc.
  assert (i < classes)%nat as Hi by (rewrite <- (sr_length _ _ _ _ _ _ R); by eapply lookup_lt_Some).
  destruct (lookup_lt_is_Some_2 G i) as [gs Hgs]; [by rewrite (sr_classes _ _ _ _ _ _ R)|].
  unfold cache_typed. destruct (sr_caches _ _ _ _ _ _ R i c gs Hc Hgs) as [-> -> -> -> -> Hch].
  destruct (class_geometry i Hi) as (? & _ & ? & _). pose proof (rep_slab_count hhdm _ _ _ _ _ _ _ R Hgs).
  pose proof (gs_free_bound hhdm _ _ _ Hi Hch).
  repeat (apply Forall_cons; split); try apply Forall_nil_2; unfold word; try nia.
  destruct gs as [|g gs]; [cbn; lia|]. cbn [head_base].
  destruct (block_inv_block (hhdm := hhdm) _ _ _ _ _ (sr_inv _ _ _ _ _ _ R) (page_in _ _ g _ LG Hgs ltac:(by left)))
    as (? & _ & ? & ? & _). rewrite bsize_0 in *. unfold sbase, PMM_FRAME_SIZE in *. lia.
Qed.
End managers.

(** The tick count wraps, nothing else touches it. *)
Lemma views_typed fb v l : word 64 (vw_ticks v) → word 64 (vw_ticks (foldl (view_step fb) v l)).
Proof. revert v. induction l as [|i l IH]; [done|]. intros v Hv. apply IH. destruct i; [apply u64_range|done]. Qed.

Lemma world_ok_typed `{!Machine, !Uart, !ArchText, !SlabLayout, !SchedText}
    fb hhdm U F M root T PM stack t0 v0 w :
  0 ≤ hhdm ∧ hhdm + 2 ^ 46 + PMM_FRAME_SIZE ≤ 2 ^ 64 → (∀ f, f ∈ U → 0 < f ∧ (f + 1) * PMM_FRAME_SIZE ≤ 2 ^ 46) →
  word 64 (vw_ticks v0) → world_ok fb hhdm U F M root T PM stack t0 v0 w → world_typed w.
Proof.
  intros Hh Hus Hv [[(tail & _ & Haw) [V Hhh [_ [_ Hpml4]] Hb _]] (cur & ready & R & _)].
  destruct (vi_tables _ _ _ _ _ _ V _ _ _ (vi_root _ _ _ _ _ _ V)) as [Hroot _].
  pose proof (rq_heap _ _ _ _ _ R) as Hinv. split.
  - split.
    + rewrite (ru_handlers _ _ (aw_running _ _ _ _ Haw)). done.
    + rewrite (aw_ticks _ _ _ _ Haw), (ru_hz _ _ (aw_running _ _ _ _ Haw)). split; [by apply views_typed|by unfold word].
    + eapply displays_typed, su_shown, Haw.
    + eapply (pmm_rep_typed hhdm U Hh Hus); [set_solver|apply V|]. intros x (f & ? & _ & ?)%Hb. by exists f.
    + rewrite Hhh, Hpml4. destruct (Hus _ Hroot). unfold word, PMM_FRAME_SIZE in *. lia.
    + destruct Hinv as (G & LG & Rs & _). exact (buddy_block_typed hhdm M Hh _ _ _ (sr_inv _ _ _ _ _ _ Rs)).
    + exact (heap_slab_typed hhdm M Hh _ _ _ _ Hinv).
  - change (w_current w) with (Sched.current (sched_of w)). rewrite (rq_current _ _ _ _ _ R).
    destruct (heap_inv_object _ _ _ (th_node cur) sizeof_task Hinv) as (? & _ & ? & _).
    { apply elem_of_app. left. cbn. by left. }
    unfold word, sizeof_task in *. lia.
  - exact (rq_next_id _ _ _ _ _ R).
  - exact (rq_regs _ _ _ _ _ R).
Qed.

(** * From power-on to any moment *)

#[local] Existing Instances demo.limine0 vmm_demo.image0 vmm_demo.text0 arch_demo.machine arch_demo.machine_pic
  arch_demo.machine_uart arch_demo.text boot_demo.layout0 sched_demo.text0.

(** C18. Static variables keep their C types.  From power-on, with the tick count in its
    64 bits, in every world that tasks (allocating up to 2^63 - 16 bytes at a time), yields
    and interrupts can reach: the counters,
    addresses and list heads of the allocators, the address space's, the console's
    geometry and cursor, the timer's counts, the scheduler's [current] and [next_id] and
    the CPU's registers are values of the types the source declares, and the arrays
    of the allocators and of the handlers have their lengths.  No counter of the model has left the range the code could hold. *)
Theorem statics_well_typed {Ma : Machine} {Ua : Uart} {Pi : Pic} {Lim : Limine} {KI : KernelImage} {PT : PagingText}
    {SL : SlabLayout} {AT : ArchText} {Tx : SchedText} b k t fb memmap hhdm kaddr stack c :
  boot_ok b k t fb memmap hhdm kaddr → word 64 (ticks (kn_timer k)) →
  (1024 + size (tables_for (kernel_space kaddr memmap hhdm)) + 1 < size (free_at_boot memmap))%nat →
  boot_stack_ok fb hhdm (list_to_set (memmap_frames memmap)) stack k →
  context_ok c → 0 ≤ task_trampoline < 2 ^ 64 →
  ∃ k' t' σ, kmain b k t = Ok (k', t') ∧ sched_init (sched_of (boot_world k' t' c)) = Ok σ ∧
    ∀ w, rtc (world_step stack) (after_sched (boot_world k' t' c) σ []) w → world_typed w.
Proof.
  intros B Hti Hsize Hst Hc Htr.
  destruct (worlds_reached b k t fb memmap hhdm kaddr stack c B Hsize Hst Hc Htr)
    as (k' & t' & F & M & root & T & σ & Hrun & Hi & Hk & _ & Hall).
  exists k', t', σ. split; [exact Hrun|split; [exact Hi|]]. intros w Hw.
  destruct (bo_map _ _ _ _ _ _ _ B) as (Hok & Hreg), (bo_direct _ _ _ _ _ _ _ B) as (_ & Hh0 & Hhi).
  eapply world_ok_typed; [by split| | |by apply Hall]; [|cbn [first_view vw_ticks]; by rewrite Hk].
  intros f Hf%elem_of_list_to_set. by eapply usable_below.
Qed.

(** The kernel after the boot, its first task made. *)
Lemma statics_well_typed_witness : ∃ m k' t' σ,
  kmain (boot_demo.info system_demo.memmap) (boot_demo.kernel0 m) [] = Ok (k', t') ∧
  sched_init (sched_of (boot_world k' t' system_demo.regs0)) = Ok σ ∧
  world_typed (after_sched (boot_world k' t' system_demo.regs0) σ []).
Proof.
  destruct system_demo.memory as (m & Hok & Hb & Hnull). exists m.
  destruct (statics_well_typed _ (boot_demo.kernel0 m) _ _ _ _ _ system_demo.stack system_demo.regs0 (boot_demo.machine_boot_ok _ _ Hok)
    (conj (Z.le_refl 0) eq_refl) system_demo.space_ok (system_demo.boot_stack_ok0 m Hb Hnull)
    system_demo.boot_regs_ok sched_demo.text0_ok) as (k' & t' & σ & Hrun & Hi & Hall).
  exists k', t', σ. split; [exact Hrun|split; [exact Hi|]]. apply Hall, rtc_refl.
Defined.
